(* ===== verification/_CoqProject ===== *)
-Q . S2P
Prelude.v
Events.v
Listeners.v
PerfBuffers.v
ListenerManager.v
ListenerTheorems.v
Coroutines.v
EventHandlers.v
Controller.v
ControllerTheorems.v
SumTree.v
SyncContainers.v
JobServer.v
JobServerTheorems.v
JobPool.v
JobClient.v
MemoryMap.v
Importer.v
ImporterTheorems.v
SmartHops.v
HopTheorems.v
Pruners.v
PrunerTheorems.v
Registers.v
RegisterTheorems.v
Importers.v
ImporterEquiv.v
AdvancedImporter.v
Injection.v
Campaign.v
ElfReader.v
ElfTheorems.v
Sha1.v
Checkpoint.v
CheckpointTheorems.v
ProtoStream.v
Tracing.v
TracingTheorems.v
ProtobufAdapter.v
AdapterTheorems.v
ArmDecoder.v
ArmTheorems.v
ThumbDecoder.v
ThumbTheorems.v
TraceText.v
TraceTextTheorems.v
GenericExperiment.v
GenericTheorems.v
GenericTracing.v
GoldenRun.v
CampaignManager.v
BochsCPU.v
BochsMemory.v
BochsTheorems.v
BochsMemoryTheorems.v
BochsController.v
BochsControllerTheorems.v
CampaignPruning.v
CampaignPruningTheorems.v
NanoJpeg.v
NanoJpegTheorems.v
Udis86Helper.v
