(* ===== verification/Prelude.v ===== *)
(** * FAIL*: a verification of the fault-injection framework's core

    FAIL* drives fault-injection experiments in machine simulators.  A campaign
    server hands out parameter sets; each client runs a simulator, in which
    experiment flows (coroutines) register listeners for simulator events,
    inject a fault, observe the run and send the result back.  Before a campaign
    a trace of the fault-free run is imported into a database as equivalence
    classes of faults.  This library models these parts, one simulator back-end and the
    tools and plugins around them, and proves them correct.
    Paths below are relative to the repository ([src/] is its source directory).

    ** The parts and their files

    Client, inside the simulator ([src/core/sal], [src/core/efw]):
    - [Events]: the event records of [sal/Event.hpp] and the address width of
      [sal/SALConfig].
    - [Listeners]: the listener classes of [sal/Listener.{hpp,cc}] with their
      counters and [isMatching] predicates.
    - [PerfBuffers]: the performance buffer-lists of [sal/perf].
    - [ListenerManager]: [sal/ListenerManager.{hpp,cc}].  Listener objects live in
      a store and are named by identities; buffer-, fire- and delete-list are
      lists of identities, each object records its slot ([location]).
    - [ListenerTheorems]: theorems on the manager for arbitrary client
      operations, also those made by a handler while listeners are triggered.
    - [Coroutines]: [efw/CoroutineManager.{hpp,cc}]: flows and toggler stack.
    - [EventHandlers], [Controller]: [sal/SimulatorController.{hpp,cc}] and the fast
      breakpoint and watchpoint aspects; an event handler gathers the matching
      listeners, activates them and switches to their flows, which may use
      the controller again.
    - [ControllerTheorems]: theorems on whole events.

    The Bochs back-end ([src/core/sal/bochs], with what it touches of [simulators/bochs]):
    - [BochsCPU], [BochsTheorems]: [BochsCPU.{hpp,cc}], registers and flags of the
      simulated processor with its lazily evaluated flags; faults in them, with
      [DatabaseExperiment::redecodeCurrentInstruction].
    - [BochsMemory], [BochsMemoryTheorems]: [BochsMemory.hpp], guest bytes through
      segmentation, TLB and page tables; faults on this machine.
    - [BochsController], [BochsControllerTheorems]: [BochsController.{hpp,cc}],
      [sal/CPUState.cc] and the aspects: requests to save, restore, reboot and fire an
      interrupt; suppressed interrupts; port accesses.

    Campaign and job distribution ([src/core/cpn], [src/core/efw], [src/core/util]):
    - [SumTree]: [util/SumTree.hpp], the sampling tree.
    - [SyncContainers]: queue, map and counter with a mutex ([util/Synchronized*]).
    - [JobServer]: [cpn/JobServer.{hpp,cc}] as a transition system of the campaign
      thread and one coroutine per connection, cut where a coroutine waits
      for the network.
    - [JobServerTheorems]: its invariant and theorems.
    - [JobPool]: an abstract pool of jobs and received messages, which the server
      refines, and the progress of a campaign.
    - [JobClient]: [efw/JobClient.{hpp,cc}] and the message framing of both sides.
    - [CampaignManager]: [cpn/CampaignManager.{hpp,cc}], which owns the server and
      stops its threads.
    - [SmartHops], [HopTheorems]: [util/smarthops], the injection points of
      [cpn/InjectionPoint*] and the algorithms of [tools/compute-hops]; a hop chain
      is a sequence of events to wait for until the injection.
    - [Registers], [RegisterTheorems]: [sal/Register], [sal/CPU], the x86 and ARM
      register tables and the registers' linear addresses
      ([util/llvmdisassembler], [util/capstonedisassembler]).
    - [Injection]: [efw/DatabaseExperiment.{hpp,cc}], one job of a client: all bits
      of a pilot, each injected into a restored machine.
    - [Campaign]: [cpn/DatabaseCampaign.{hpp,cc}], the batches of [util/Database.cc]
      and the result rows of [util/DatabaseProtobufAdapter.cc].
    - [ProtobufAdapter], [AdapterTheorems]: [util/DatabaseProtobufAdapter.cc] for
      arbitrary messages: from a tree of field descriptors to a table and its rows.
    - [CampaignPruning], [CampaignPruningTheorems]: campaigns that build their classes
      themselves ([experiments/checksum-oostubs], [experiments/cool-checksum]).
    - [NanoJpeg], [NanoJpegTheorems], [Udis86Helper]: the same for the bits of
      registers ([experiments/nanojpeg]), and which registers an instruction uses.

    Trace import and pruning ([tools/import-trace], [tools/prune-trace]):
    - [MemoryMap]: [util/MemoryMap.{hpp,cc}] over an interface for interval sets.
    - [Importer], [ImporterTheorems]: [Importer.{hpp,cc}] and [MemoryImporter.cc].
      The virtual functions are a class of which each importer is an instance.
    - [Importers], [ImporterEquiv]: the instruction, register, random-jump and
      full-trace importers.
    - [AdvancedImporter]: [AdvancedMemoryImporter.cc], which delays accesses until
      the branch decisions after them are known.
    - [Pruners], [PrunerTheorems]: all pruning methods of [prune-trace]; an SQL
      statement is the list function it denotes.

    Tracing, readers, decoders, experiments ([src/plugins], [src/core/util],
    [src/core/sal/arm], [src/experiments], [tools]):
    - [ProtoStream]: [util/ProtoStream.{hpp,cc}], files of messages.
    - [Tracing], [TracingTheorems]: [plugins/tracing].
    - [Sha1], [Checkpoint], [CheckpointTheorems]: [plugins/checkpoint].
    - [TraceText], [TraceTextTheorems]: [tools/dump-trace] and [tools/convert-trace].
    - [ElfReader], [ElfTheorems]: [util/ElfReader.{hpp,cc}] on the bytes of a file.
    - [ArmDecoder], [ArmTheorems], [ThumbDecoder], [ThumbTheorems]: the instruction
      decoders of [sal/arm/ArmDisassembler.cc] and the recovery of memory accesses of
      [sal/arm/ArmMemoryInstruction.cc].
    - [GenericExperiment], [GenericTheorems]: [experiments/generic-experiment] and the
      serial-output plugin; [GenericTracing], [GoldenRun]: [experiments/generic-tracing]
      and both experiments together.

    This file has the machine integers, tactics and list lemmas they share.

    ** How the code is represented

    An unsigned [w]-bit integer is a [Z] kept in range by an explicit wrap after
    each operation that can leave it.  Objects that are shared by pointer are
    identities in a store, so that aliasing and dangling pointers are visible.  A
    failed assertion, an access out of range or to a deleted object makes an
    operation return [None] (or [Crash] in the job server), and safety theorems say
    that this does not happen.  Operations that would wait have no step.
    Vectors are lists; [std::map] is the list of its entries in key order, or a
    [gmap] where the order does not matter.

    ** What the theorems show

    - Listeners: which events each kind matches; watch numbers are sets; a
      single breakpoint is a degenerate range.
    - Manager: its invariant for all reachable states; triggering calls only live,
      not removed listeners and is never invalidated by what the handlers do; a
      listener fires at its n-th matching event; what each form of remove does.
    - Controller: handling any event is safe and returns control with the same
      toggler stack; it activates exactly the matching listeners at their last
      occurrence; the fast aspects change nothing observable; removing a flow
      leaves nothing of it behind; start-up selection.
    - Coroutines: control transfers nest.
    - SumTree: lookup, removal and insertion agree with a linear scan over the
      entries; the iterator visits each entry once.
    - Job server: each job is in one place; results are delivered at most once with
      the received content; which answers a request gets; when the end of the
      results is announced correctly, with runs that show where the code loses
      jobs, announces the end too early or reads a deleted job.  It refines a pool
      that delivers each job at most once, with the message received last for it; a
      client that keeps working makes it deliver every job.
    - Job client: fetched jobs and reported results agree with what was announced;
      its retry loop ends; the number of jobs asked for is bounded; framing is
      transparent.
    - Import: the rows partition the fault space and are def/use equivalence
      classes; the sanity checks hold of every imported table.  Instruction and
      register importer are the memory importer on a trace with the implicit
      accesses written out; the delay of the advanced importer is invisible and
      its branch histories are exact.
    - Pruning: with basic pruning every fault has exactly one pilot; what the
      sampling methods draw, and where they are undefined; the regions of the
      block methods partition the run.
    - Hops: the chains arrive at the requested instruction, at the costs reported;
      a case in which an injection point is given the chain of another class.
    - Registers: the tables are consistent; addresses and registers correspond,
      and the ranges of two registers meet exactly if they share bits.
    - Injection: a job has one result per bit (or byte); what a fault changes is
      shown for the Bochs back-end.
    - Campaigns: exactly the pilots without complete results are sent; once all
      results are stored, only those are sent again whose jobs give another number
      of results than expected, such as those of random jumps.  A manager runs one campaign only.  Every element of a message
      becomes one row that fits its table.
    - Bochs: a fault injected into memory or a register of this machine is the one of the
      fault model and touches nothing else; which bits of EFLAGS it can reach;
      blocks of memory read back as written; each request returns to the flow that made
      it; which interrupts are suppressed.
    - Campaigns that prune: their classes are exactly the intervals between accesses,
      byte by byte or bit by bit, and their results cover every fault once.
    - Tracing and checkpoints: a trace tells each traced event and its time, files read
      back as written or up to where they were cut, the digest is SHA-1, comparison
      reports what differs, and traced runs are imported into a partition of the fault
      space.  Text and gem5 traces convert to the same trace.
    - Readers and decoders: the structures of an ELF file are read back; the address
      of the access an instruction makes is recovered from the registers after it, with
      the instructions for which it is not.
    - Generic experiments: what ends a run and which verdict it gets; a run is judged
      correct exactly if its output equals that of the golden run.

    ** Bounds and fuel

    - Loops over a vector that shrinks are fuelled by its initial length; the
      lemmas on them show that the fuel suffices.  [getParam]'s retry loop is
      fuelled by the length of the network script; running out of fuel is a result
      of its own, and a theorem shows that it does not occur.
      The waiting loops of [Injection] are fuelled by a bound on the number of
      events before the experiment ends them, which is a hypothesis.
    - SumTree: total size below 2^64 and [BUCKETSIZE] at least 2 (with 1 the code
      drops entries when it splits a bucket).  Listener counters are 1 to 2^32 - 1.
    - Job server: workload ids are unique for the first 2^31 dispatched jobs.
    - Import: fewer than 2^32 instructions and addresses below 2^32, the width of
      the table's columns; fewer than 2^31 branches; the check on time assumes
      that time advances with instructions, the advanced importer that the first
      event has a time stamp.
    - Campaigns: fewer than 2^32 pilots and results.
    - SHA-1: messages below 2^61 bytes, the limit of the standard, in inputs below
      2^32 bytes, the width of the length argument.  The block loops
      are fuelled by the length of the input.
    - Bochs: a CPU level of 6 without VMX, physical addresses of 32 or 40 bits; a page
      walk has at most four levels.  Register pruning covers the low 32 bits and
      instructions that do not read a bit through two register names.

    ** Parameters

    What is not in the repository is an argument: the coroutine library, the
    reactions of experiments (any list of framework operations), the result of a
    back-end's [onAddition] hook, protocol-buffer encoding (with its round-trip law),
    the network and the clock, [boost::icl] interval sets (class [IntervalSetLaws]
    with an instance), whether the database accepts a row or statement, the order of
    rows that ORDER BY leaves open, random numbers, the disassembled instructions,
    the machine an experiment runs on (class [Machine]; its registers obey
    [CPUStateLaws], of which the registers of the Bochs back-end that are plain storage
    are an instance; [CheckedMachine], [TraceMachine] for the plugins), and an
    experiment's callbacks; command lines after parsing, name
    demangling, host memory allocation; of Bochs, what writing a control or segment
    register does ([BochsCore]), whether an instruction can be decoded ([fetchDecode])
    and fetching one across pages ([boundaryFetch]), and reads from devices
    ([device_read]); udis86 and the numbering of its registers.

    ** Not modelled

    The simulators apart from the state above, the other back-ends (gem5, QEMU, PandA,
    T32), which drive programs outside of the tree, and the Bochs aspects for jumps,
    traps and memory accesses; connections to the database, SQL text, table and
    view creation; DWARF line tables and [ElfImporter], which consist of calls to libdwarf
    and LLVM; disassemblers around third-party libraries; logging, command-line
    glue, progress display; the printed text of instructions; the graph algorithms and the
    output formats of [compute-hops]; the remaining experiments, which are user
    code: in the models of the framework an experiment is any sequence of
    framework operations. *)
From Stdlib Require Export ZArith Lia Sorting.Sorted.
From stdpp Require Export base option list sets fin_maps gmap strings.

Declare Scope fail_scope.
Delimit Scope fail_scope with fail.
Open Scope Z_scope.
Open Scope fail_scope.

(** ** Machine integers

    A [w]-bit unsigned C++ value is a [Z] in [0, 2^w); every arithmetic
    operation that can leave that range is followed by the wrap below. *)

Definition wrap (w z : Z) : Z := z mod 2 ^ w.

(** [unsigned int] / [uint32_t], [uint64_t] / [size_t], [int] and [int64_t]. *)
Definition u32 (z : Z) : Z := wrap 32 z.
Definition u64 (z : Z) : Z := wrap 64 z.
Definition s32 (z : Z) : Z := wrap 32 (z + 2 ^ 31) - 2 ^ 31.
Definition s64 (z : Z) : Z := wrap 64 (z + 2 ^ 63) - 2 ^ 63.

Definition in_range (w z : Z) : Prop := 0 <= z < 2 ^ w.

Lemma wrap_small w z : in_range w z -> wrap w z = z.
Proof. unfold wrap, in_range. intros H. by rewrite Z.mod_small. Qed.

Lemma wrap_range w z : 0 <= w -> in_range w (wrap w z).
Proof. intros Hw. unfold wrap, in_range. apply Z.mod_pos_bound. lia. Qed.

Lemma u32_small z : 0 <= z < 2 ^ 32 -> u32 z = z.
Proof. apply wrap_small. Qed.

Lemma u64_small z : 0 <= z < 2 ^ 64 -> u64 z = z.
Proof. apply wrap_small. Qed.

Lemma u32_range z : 0 <= u32 z < 2 ^ 32.
Proof. apply (wrap_range 32). lia. Qed.

Lemma u64_range z : 0 <= u64 z < 2 ^ 64.
Proof. apply (wrap_range 64). lia. Qed.

Lemma u32_s32 z : u32 (s32 z) = u32 z.
Proof.
  unfold u32, s32, wrap.
  rewrite Zminus_mod_idemp_l. f_equal. lia.
Qed.

(** The conversion from [unsigned] to [int] and back is the identity. *)
Lemma u32_s32_small z : 0 <= z < 2 ^ 32 -> u32 (s32 z) = z.
Proof. intros H. rewrite u32_s32. by apply u32_small. Qed.

(** Numbers without a common bit. *)
Lemma lor_add a b n : 0 <= n -> 0 <= b < 2 ^ n -> Z.lor (a * 2 ^ n) b = a * 2 ^ n + b.
Proof.
  intros Hn Hb. destruct (decide (b = 0)) as [->|]; [by rewrite Z.lor_0_r, Z.add_0_r|].
  assert (Z.land (a * 2 ^ n) b = 0) as Hl.
  { apply Z.bits_inj'. intros i Hi. rewrite Z.land_spec, Z.bits_0.
    destruct (Z.ltb_spec i n); [by rewrite Z.mul_pow2_bits_low by lia|].
    rewrite (Z.bits_above_log2 b i), andb_false_r; [done|lia|].
    apply Z.lt_le_trans with n; [apply Z.log2_lt_pow2; lia|lia]. }
  by rewrite <- Z.lxor_lor, <- Z.add_nocarry_lxor.
Qed.

(** ** Texts

    A text is the list of its character codes. *)

Definition chars (s : string) : list Z :=
  (fun c => Z.of_N (Ascii.N_of_ascii c)) <$> String.list_ascii_of_string s.

(** ** Tactics *)

(** Destruct every boolean comparison into the proposition it decides. *)
Ltac bool_cases :=
  repeat match goal with
  | |- context [Z.eqb ?a ?b] => destruct (Z.eqb_spec a b)
  | |- context [Z.ltb ?a ?b] => destruct (Z.ltb_spec a b)
  | |- context [Z.leb ?a ?b] => destruct (Z.leb_spec a b)
  | |- context [Nat.eqb ?a ?b] => destruct (Nat.eqb_spec a b)
  | |- context [Nat.ltb ?a ?b] => destruct (Nat.ltb_spec a b)
  | |- context [Nat.leb ?a ?b] => destruct (Nat.leb_spec a b)
  end; simpl; try lia.

Ltac bool_hyps :=
  repeat match goal with
  | H : Z.eqb ?a ?b = true |- _ => apply Z.eqb_eq in H
  | H : Z.eqb ?a ?b = false |- _ => apply Z.eqb_neq in H
  | H : Z.ltb ?a ?b = true |- _ => apply Z.ltb_lt in H
  | H : Z.ltb ?a ?b = false |- _ => apply Z.ltb_ge in H
  | H : Z.leb ?a ?b = true |- _ => apply Z.leb_le in H
  | H : Z.leb ?a ?b = false |- _ => apply Z.leb_gt in H
  | H : Nat.eqb ?a ?b = true |- _ => apply Nat.eqb_eq in H
  | H : Nat.eqb ?a ?b = false |- _ => apply Nat.eqb_neq in H
  | H : Nat.ltb ?a ?b = true |- _ => apply Nat.ltb_lt in H
  | H : Nat.ltb ?a ?b = false |- _ => apply Nat.ltb_ge in H
  | H : Nat.leb ?a ?b = true |- _ => apply Nat.leb_le in H
  | H : Nat.leb ?a ?b = false |- _ => apply Nat.leb_gt in H
  | H : andb _ _ = true |- _ => apply andb_prop in H as [? ?]
  | H : negb _ = true |- _ => apply negb_true_iff in H
  | H : negb _ = false |- _ => apply negb_false_iff in H
  | H : bool_decide _ = true |- _ => apply bool_decide_eq_true_1 in H
  | H : bool_decide _ = false |- _ => apply bool_decide_eq_false_1 in H
  end.

(** Run the option monad over an evaluated first computation, and nothing
    else. *)
Ltac obind := cbn [mbind option_bind fmap option_fmap option_map].

Create HintDb fail discriminated.

(** ** Vectors

    [std::vector] operations on lists: [pop_back] and the constant-time
    removal that moves the last element into the freed slot. *)

Definition pop_back {A} (l : list A) : list A := take (length l - 1) l.

Definition swap_remove {A} (i : nat) (l : list A) : list A :=
  match last l with
  | Some x => pop_back (<[i := x]> l)
  | None => l
  end.

Section vector_lemmas.
Context {A : Type}.
Implicit Types l : list A.

Lemma pop_back_snoc l x : pop_back (l ++ [x]) = l.
Proof.
  unfold pop_back. rewrite length_app. simpl.
  replace (length l + 1 - 1)%nat with (length l) by lia. apply take_app_length.
Qed.

Lemma length_pop_back l : length (pop_back l) = (length l - 1)%nat.
Proof. unfold pop_back. rewrite length_take. lia. Qed.

Lemma swap_remove_last l x : swap_remove (length l) (l ++ [x]) = l.
Proof.
  unfold swap_remove. rewrite last_snoc.
  rewrite insert_app_r_alt by lia. rewrite Nat.sub_diag. apply pop_back_snoc.
Qed.

Lemma swap_remove_middle l1 p l2 x :
  swap_remove (length l1) (l1 ++ p :: l2 ++ [x]) = l1 ++ x :: l2.
Proof.
  unfold swap_remove.
  replace (l1 ++ p :: l2 ++ [x]) with ((l1 ++ p :: l2) ++ [x]) by (by rewrite <- app_assoc).
  rewrite last_snoc, insert_app_l by (rewrite length_app; simpl; lia).
  rewrite insert_app_r_alt by lia. rewrite Nat.sub_diag.
  rewrite <- app_assoc. simpl.
  replace (l1 ++ x :: l2 ++ [x]) with ((l1 ++ x :: l2) ++ [x]) by (by rewrite <- app_assoc).
  apply pop_back_snoc.
Qed.

(** Every valid index is either the last one or has elements behind it. *)
Lemma lookup_split l (i : nat) p :
  l !! i = Some p ->
  exists l1, length l1 = i /\
    ((l = l1 ++ [p]) \/ (exists l2 x, l = l1 ++ p :: l2 ++ [x])).
Proof.
  intros H. exists (take i l). split.
  { rewrite length_take. apply lookup_lt_Some in H. lia. }
  pose proof (take_drop_middle _ _ _ H) as Heq.
  destruct (drop (S i) l) as [|y l3] eqn:Hd using rev_ind.
  - left. by rewrite <- Heq at 1.
  - right. eauto.
Qed.

Lemma swap_remove_Permutation l (i : nat) p :
  l !! i = Some p -> p :: swap_remove i l ≡ₚ l.
Proof.
  intros H. destruct (lookup_split _ _ _ H) as (l1 & <- & [-> | (l2 & x & ->)]).
  - rewrite swap_remove_last. apply Permutation_cons_append.
  - rewrite swap_remove_middle. solve_Permutation.
Qed.

Lemma length_swap_remove l (i : nat) p :
  l !! i = Some p -> S (length (swap_remove i l)) = length l.
Proof. intros H. exact (Permutation_length (swap_remove_Permutation _ _ _ H)). Qed.

Lemma take_swap_remove l (i : nat) p :
  l !! i = Some p -> take i (swap_remove i l) = take i l.
Proof.
  intros H. destruct (lookup_split _ _ _ H) as (l1 & <- & [-> | (l2 & x & ->)]).
  - rewrite swap_remove_last, take_app_length. by rewrite firstn_all.
  - by rewrite swap_remove_middle, !take_app_length.
Qed.

Lemma drop_swap_remove l (i : nat) p :
  l !! i = Some p -> p :: drop i (swap_remove i l) ≡ₚ drop i l.
Proof.
  intros H. destruct (lookup_split _ _ _ H) as (l1 & <- & [-> | (l2 & x & ->)]).
  - rewrite swap_remove_last, drop_app_length, drop_all. done.
  - rewrite swap_remove_middle, !drop_app_length.
    by rewrite (Permutation_cons_append l2 x).
Qed.

(** Where the entries of the shortened vector come from. *)
Lemma lookup_swap_remove l (i j : nat) p q :
  NoDup l -> l !! i = Some p -> swap_remove i l !! j = Some q ->
  q ≠ p /\ ((j ≠ i /\ l !! j = Some q) \/
            (j = i /\ l !! (length l - 1)%nat = Some q /\ i ≠ (length l - 1)%nat)).
Proof.
  intros Hnd H. destruct (lookup_split _ _ _ H) as (l1 & <- & [-> | (l2 & x & ->)]).
  - rewrite swap_remove_last. intros Hq. pose proof (lookup_lt_Some _ _ _ Hq).
    apply NoDup_app in Hnd as (_ & Hdis & _).
    assert (q ∈ l1) by (eapply list_elem_of_lookup_2; eauto).
    split; [set_solver|]. left. split; [lia|]. by apply lookup_app_l_Some.
  - rewrite swap_remove_middle. intros Hq.
    assert (q ≠ p) as Hqp.
    { assert (q ∈ l1 ++ x :: l2) as Hin by (eapply list_elem_of_lookup_2; eauto).
      apply NoDup_app in Hnd as (_ & Hdis & Hnd).
      apply NoDup_cons in Hnd as [Hnp _].
      intros ->. set_solver. }
    split; [done|].
    destruct (decide (j = length l1)) as [->|Hj].
    + right. rewrite lookup_app_r in Hq by lia. rewrite Nat.sub_diag in Hq.
      simpl in Hq. simplify_eq. rewrite length_app. simpl. rewrite length_app. simpl.
      split; [done|]. split; [|lia].
      rewrite lookup_app_r by lia.
      replace (length l1 + S (length l2 + 1) - 1 - length l1)%nat with (S (length l2)) by lia.
      simpl. rewrite lookup_app_r by lia. by rewrite Nat.sub_diag.
    + left. split; [done|].
      destruct (decide (j < length l1)%nat).
      * rewrite lookup_app_l in Hq |- * by lia. done.
      * rewrite lookup_app_r in Hq |- * by lia.
        destruct (j - length l1)%nat as [|k] eqn:Ek; [lia|]. simpl in *.
        by apply lookup_app_l_Some.
Qed.
End vector_lemmas.

(** ** Filters *)

Lemma list_filter_all {A} (P : A -> Prop) `{!forall x, Decision (P x)} (l : list A) :
  (forall x, x ∈ l -> P x) -> filter P l = l.
Proof.
  induction l as [|x l IH]; intros HP; [done|].
  rewrite filter_cons_True by (apply HP; set_solver). f_equal. apply IH. set_solver.
Qed.

Lemma list_filter_iff_strong {A} (P Q : A -> Prop)
    `{!forall x, Decision (P x), !forall x, Decision (Q x)} (l : list A) :
  (forall x, x ∈ l -> P x <-> Q x) -> filter P l = filter Q l.
Proof.
  induction l as [|x l IH]; intros HP; [done|].
  destruct (decide (P x)) as [Hx|Hx].
  - rewrite !filter_cons_True by (try apply HP; set_solver). f_equal. apply IH. set_solver.
  - rewrite !filter_cons_False by (try (intros ?; apply Hx, HP); set_solver). apply IH. set_solver.
Qed.

Lemma list_filter_none {A} (P : A -> Prop) `{!forall x, Decision (P x)} (l : list A) :
  (forall x, x ∈ l -> ~ P x) -> filter P l = [].
Proof.
  induction l as [|x l IH]; intros HP; [done|].
  rewrite filter_cons_False by (apply HP; set_solver). apply IH. set_solver.
Qed.

Lemma fold_left_ext_in {A B} (f g : A -> B -> A) (l : list B) (a : A) :
  (forall a b, b ∈ l -> f a b = g a b) -> fold_left f l a = fold_left g l a.
Proof.
  revert a. induction l as [|b l IH]; intros a H; [done|]. cbn [fold_left].
  rewrite H by left. apply IH. intros; apply H. by right.
Qed.

#[export] Hint Resolve swap_remove_Permutation drop_swap_remove : fail.
