(* ===== verification/Events.v ===== *)
(** * Events

    The simulator-abstraction-layer types of [src/core/sal/SALConfig.hpp] and
    the event records of [src/core/sal/Event.hpp]. *)
From S2P Require Import Prelude.

(** ** SAL configuration

    [address_t] is a typedef of the back-end's guest address type; its width
    is the only thing the framework code depends on. *)
Class SalConfig := {
  addr_bits : Z;
  addr_bits_range : 0 < addr_bits <= 64
}.

(** Bochs built with x86-64 support and gem5 use 64-bit guest addresses; other
    back-ends have 32-bit guests. *)
Lemma range_64 : 0 < 64 <= 64.
Proof. lia. Qed.

Lemma range_32 : 0 < 32 <= 64.
Proof. lia. Qed.

Definition sal_64 : SalConfig := {| addr_bits := 64; addr_bits_range := range_64 |}.
Definition sal_32 : SalConfig := {| addr_bits := 32; addr_bits_range := range_32 |}.

(** Objects that the framework only passes around by pointer. *)
Abbreviation ptr := nat (only parsing).
Abbreviation flow := nat (only parsing).
Abbreviation cpu := nat (only parsing).

Section sal_constants.
Context `{SalConfig}.

Definition ADDR_INV : Z := 0.
Definition ANY_ADDR : Z := wrap addr_bits (-1).
Definition ANY_INSTR : Z := u32 (-1).
Definition ANY_TRAP : Z := u32 (-1).
Definition ANY_INTERRUPT : Z := u32 (-1).
Definition INVALID_TIMER : Z := 0.

Lemma ANY_ADDR_max a : in_range addr_bits a -> a <= ANY_ADDR.
Proof.
  unfold ANY_ADDR, wrap, in_range. pose proof addr_bits_range.
  rewrite (Z.mod_opp_l_nz 1); rewrite ?Z.mod_small; try lia.
  all: split; try lia; apply Z.pow_gt_1; lia.
Qed.
End sal_constants.

(** ** Event records

    The base class's [m_CPU] pointer ([NULL] = [None]) is the first field of
    each record; getters are the projections. *)

Record BPEvent := mkBPEvent {
  bp_CPU : option cpu;
  bp_TriggerInstrPtr : Z;
  bp_AddressSpace : Z
}.

Definition new_BPEvent (trigger address_space : Z) (c : option cpu) : BPEvent :=
  mkBPEvent c trigger address_space.

Definition bp_setTriggerCPU (c : option cpu) (e : BPEvent) : BPEvent :=
  mkBPEvent c (bp_TriggerInstrPtr e) (bp_AddressSpace e).
Definition bp_setTriggerInstructionPointer (iptr : Z) (e : BPEvent) : BPEvent :=
  mkBPEvent (bp_CPU e) iptr (bp_AddressSpace e).
Definition bp_setAddressSpace (iptr : Z) (e : BPEvent) : BPEvent :=
  mkBPEvent (bp_CPU e) (bp_TriggerInstrPtr e) iptr.

(** [MemAccessEvent::access_type_t] with the source's flag values. *)
Inductive access_type_t := MEM_UNKNOWN | MEM_READ | MEM_WRITE | MEM_READWRITE.

Definition access_flags (t : access_type_t) : Z :=
  match t with
  | MEM_UNKNOWN => 0x0
  | MEM_READ => 0x1
  | MEM_WRITE => 0x2
  | MEM_READWRITE => 0x3
  end.

#[export] Instance access_type_eq_dec : EqDecision access_type_t.
Proof. solve_decision. Defined.

Record MemAccessEvent := mkMemAccessEvent {
  mem_CPU : option cpu;
  mem_TriggerAddr : Z;
  mem_TriggerWidth : Z;
  mem_TriggerIP : Z;
  mem_AccessType : access_type_t
}.

Definition default_MemAccessEvent `{SalConfig} : MemAccessEvent :=
  mkMemAccessEvent None ANY_ADDR 0 ANY_ADDR MEM_UNKNOWN.

Definition new_MemAccessEvent (triggerAddr width triggerIP : Z) (type : access_type_t)
    (c : option cpu) : MemAccessEvent :=
  mkMemAccessEvent c triggerAddr width triggerIP type.

Definition mem_setTriggerCPU (c : option cpu) (e : MemAccessEvent) : MemAccessEvent :=
  mkMemAccessEvent c (mem_TriggerAddr e) (mem_TriggerWidth e) (mem_TriggerIP e) (mem_AccessType e).
Definition mem_setTriggerAddress (addr : Z) (e : MemAccessEvent) : MemAccessEvent :=
  mkMemAccessEvent (mem_CPU e) addr (mem_TriggerWidth e) (mem_TriggerIP e) (mem_AccessType e).
Definition mem_setTriggerWidth (width : Z) (e : MemAccessEvent) : MemAccessEvent :=
  mkMemAccessEvent (mem_CPU e) (mem_TriggerAddr e) width (mem_TriggerIP e) (mem_AccessType e).
Definition mem_setTriggerInstructionPointer (addr : Z) (e : MemAccessEvent) : MemAccessEvent :=
  mkMemAccessEvent (mem_CPU e) (mem_TriggerAddr e) (mem_TriggerWidth e) addr (mem_AccessType e).
Definition mem_setTriggerAccessType (t : access_type_t) (e : MemAccessEvent) : MemAccessEvent :=
  mkMemAccessEvent (mem_CPU e) (mem_TriggerAddr e) (mem_TriggerWidth e) (mem_TriggerIP e) t.

(** [TroubleEvent]: the number is stored as an [int] and read back as an
    [unsigned]. *)
Record TroubleEvent := mkTroubleEvent {
  tr_CPU : option cpu;
  tr_TriggerNumber : Z
}.

Definition default_TroubleEvent : TroubleEvent := mkTroubleEvent None (-1).
Definition new_TroubleEvent (triggerNum : Z) (c : option cpu) : TroubleEvent :=
  mkTroubleEvent c (s32 triggerNum).
Definition tr_setTriggerCPU (c : option cpu) (e : TroubleEvent) : TroubleEvent :=
  mkTroubleEvent c (tr_TriggerNumber e).
Definition tr_setTriggerNumber (n : Z) (e : TroubleEvent) : TroubleEvent :=
  mkTroubleEvent (tr_CPU e) (s32 n).
Definition tr_getTriggerNumber (e : TroubleEvent) : Z := u32 (tr_TriggerNumber e).

Record InterruptEvent := mkInterruptEvent {
  int_trouble : TroubleEvent;
  int_IsNMI : bool
}.

Definition default_InterruptEvent : InterruptEvent :=
  mkInterruptEvent default_TroubleEvent false.
Definition new_InterruptEvent (nmi : bool) (triggerNum : Z) (c : option cpu) : InterruptEvent :=
  mkInterruptEvent (new_TroubleEvent triggerNum c) nmi.
Definition int_setNMI (b : bool) (e : InterruptEvent) : InterruptEvent :=
  mkInterruptEvent (int_trouble e) b.

(** [char m_Data] is kept as the value handed over by the back-end. *)
Record GuestEvent := mkGuestEvent {
  guest_CPU : option cpu;
  guest_Data : Z;
  guest_Port : Z
}.

Definition default_GuestEvent : GuestEvent := mkGuestEvent None 0 0.
Definition guest_setData (d : Z) (e : GuestEvent) : GuestEvent :=
  mkGuestEvent (guest_CPU e) d (guest_Port e).
Definition guest_setPort (p : Z) (e : GuestEvent) : GuestEvent :=
  mkGuestEvent (guest_CPU e) (guest_Data e) p.

Record IOPortEvent := mkIOPortEvent {
  io_CPU : option cpu;
  io_Data : Z
}.

Definition default_IOPortEvent : IOPortEvent := mkIOPortEvent None 0.
Definition io_setData (d : Z) (e : IOPortEvent) : IOPortEvent := mkIOPortEvent (io_CPU e) d.
Definition io_setTriggerCPU (c : option cpu) (e : IOPortEvent) : IOPortEvent :=
  mkIOPortEvent c (io_Data e).

Record JumpEvent := mkJumpEvent {
  jump_CPU : option cpu;
  jump_OpcodeTrigger : Z;
  jump_FlagTriggered : bool
}.

Definition new_JumpEvent (opcode : Z) (flagreg : bool) (c : option cpu) : JumpEvent :=
  mkJumpEvent c opcode flagreg.
Definition jump_setTriggerOpcode (oc : Z) (e : JumpEvent) : JumpEvent :=
  mkJumpEvent (jump_CPU e) oc (jump_FlagTriggered e).
Definition jump_setFlagTriggered (b : bool) (e : JumpEvent) : JumpEvent :=
  mkJumpEvent (jump_CPU e) (jump_OpcodeTrigger e) b.
Definition jump_setTriggerCPU (c : option cpu) (e : JumpEvent) : JumpEvent :=
  mkJumpEvent c (jump_OpcodeTrigger e) (jump_FlagTriggered e).
Definition jump_isRegisterTriggered (e : JumpEvent) : bool := negb (jump_FlagTriggered e).

Record TimerEvent := mkTimerEvent {
  timer_CPU : option cpu;
  timer_Id : Z
}.

Definition new_TimerEvent (id : Z) : TimerEvent := mkTimerEvent None id.
Definition timer_setId (id : Z) (e : TimerEvent) : TimerEvent := mkTimerEvent (timer_CPU e) id.
