(* ===== verification/Listeners.v ===== *)
(** * Listeners

    The listener classes of [src/core/sal/Listener.hpp] with the matching
    predicates of [src/core/sal/Listener.cc].

    A listener object is the [BaseListener] sub-object plus the members of its
    dynamic class.  [m_Loc] is [None] for [INVALID_INDEX] (a vector of
    pointers never has [2^64 - 1] slots, so the sentinel is no index). *)
From S2P Require Import Prelude Events.

(** The performance buffer-lists a listener can be linked to ([m_Home]): the
    vectors sliced into the listener manager by the fast-breakpoint and
    fast-watchpoint aspects. *)
Inductive perfbuf := PB_Single | PB_Range | PB_Mem.

#[export] Instance perfbuf_eq_dec : EqDecision perfbuf.
Proof. solve_decision. Defined.

Record BaseListener := mkBaseListener {
  m_OccCounter : Z;
  m_OccCounterInit : Z;
  m_Parent : option flow;
  m_Loc : option nat;
  m_Home : option perfbuf;
  m_CPU : option cpu
}.

Definition new_BaseListener (c : option cpu) : BaseListener :=
  mkBaseListener 1 1 None None None c.

Record TroubleData := mkTroubleData {
  trouble_Data : TroubleEvent;
  m_WatchNumbers : list Z
}.

(** The members each dynamic class adds.  [MemReadListener] and
    [MemWriteListener] only fix the watch type of [MemAccessListener].
    [InterruptListener] has a second [m_Data] that hides the inherited one. *)
Inductive listener_class :=
| BPSingleListener (m_Data : BPEvent) (m_WatchInstrPtr : Z)
| BPRangeListener (m_Data : BPEvent) (m_WatchStartAddr m_WatchEndAddr : Z)
| MemAccessListener (m_WatchAddr m_WatchWidth : Z) (m_WatchType : access_type_t)
    (m_Data : MemAccessEvent)
| TroubleListener (t : TroubleData)
| InterruptListener (t : TroubleData) (m_Data : InterruptEvent)
| TrapListener (t : TroubleData)
| GuestListener (m_Data : GuestEvent)
| IOPortListener (m_Data : IOPortEvent) (m_Port : Z) (m_Out : bool)
| JumpListener (m_Data : JumpEvent)
| TimerListener (m_Timeout : Z) (m_Data : TimerEvent).

Record Listener := mkListener {
  l_base : BaseListener;
  l_class : listener_class
}.

(** ** BaseListener members *)

Definition on_base (f : BaseListener -> BaseListener) (l : Listener) : Listener :=
  mkListener (f (l_base l)) (l_class l).

Definition decreaseCounter : Listener -> Listener := on_base (fun b =>
  mkBaseListener (u32 (m_OccCounter b - 1)) (m_OccCounterInit b) (m_Parent b) (m_Loc b) (m_Home b) (m_CPU b)).

Definition setCounter (val : Z) : Listener -> Listener := on_base (fun b =>
  mkBaseListener val val (m_Parent b) (m_Loc b) (m_Home b) (m_CPU b)).

Definition resetCounter : Listener -> Listener := on_base (fun b =>
  mkBaseListener (m_OccCounterInit b) (m_OccCounterInit b) (m_Parent b) (m_Loc b) (m_Home b) (m_CPU b)).

Definition setParent (f : option flow) : Listener -> Listener := on_base (fun b =>
  mkBaseListener (m_OccCounter b) (m_OccCounterInit b) f (m_Loc b) (m_Home b) (m_CPU b)).

Definition setLocation (i : option nat) : Listener -> Listener := on_base (fun b =>
  mkBaseListener (m_OccCounter b) (m_OccCounterInit b) (m_Parent b) i (m_Home b) (m_CPU b)).

Definition setPerformanceBuffer (h : option perfbuf) : Listener -> Listener := on_base (fun b =>
  mkBaseListener (m_OccCounter b) (m_OccCounterInit b) (m_Parent b) (m_Loc b) h (m_CPU b)).

Definition setCPU (c : option cpu) : Listener -> Listener := on_base (fun b =>
  mkBaseListener (m_OccCounter b) (m_OccCounterInit b) (m_Parent b) (m_Loc b) (m_Home b) c).

Definition getCounter (l : Listener) : Z := m_OccCounter (l_base l).
Definition getParent (l : Listener) : option flow := m_Parent (l_base l).
Definition getLocation (l : Listener) : option nat := m_Loc (l_base l).
Definition getPerformanceBuffer (l : Listener) : option perfbuf := m_Home (l_base l).
Definition getCPU (l : Listener) : option cpu := m_CPU (l_base l).

(** ** Matching predicates *)

Section matching.
Context `{SalConfig}.

(** [m_CPU == NULL || m_CPU == pEv->getTriggerCPU()] *)
Definition cpuIsMatching (m_cpu trigger : option cpu) : bool :=
  match m_cpu with
  | None => true
  | Some _ => bool_decide (m_cpu = trigger)
  end.

Definition aspaceIsMatching (m_Data : BPEvent) (address_space : Z) : bool :=
  if (bp_AddressSpace m_Data =? ANY_ADDR) || (bp_AddressSpace m_Data =? address_space)
  then true else false.

Definition BPSingle_isMatching (b : BaseListener) (m_Data : BPEvent) (m_WatchInstrPtr : Z)
    (pEv : BPEvent) : bool :=
  if aspaceIsMatching m_Data (bp_AddressSpace pEv) then
    if cpuIsMatching (m_CPU b) (bp_CPU pEv) then
      if (m_WatchInstrPtr =? ANY_ADDR) || (m_WatchInstrPtr =? bp_TriggerInstrPtr pEv)
      then true else false
    else false
  else false.

Definition BPRange_isMatching (b : BaseListener) (m_Data : BPEvent)
    (m_WatchStartAddr m_WatchEndAddr : Z) (pEv : BPEvent) : bool :=
  if negb (aspaceIsMatching m_Data (bp_AddressSpace pEv)) then false
  else if negb (cpuIsMatching (m_CPU b) (bp_CPU pEv)) then false
  else if (negb (m_WatchStartAddr =? ANY_ADDR) && (bp_TriggerInstrPtr pEv <? m_WatchStartAddr))
       || (negb (m_WatchEndAddr =? ANY_ADDR) && (m_WatchEndAddr <? bp_TriggerInstrPtr pEv))
  then false else true.

(** Addresses and widths are added as [size_t]. *)
Definition MemAccess_isMatching (b : BaseListener) (m_WatchAddr m_WatchWidth : Z)
    (m_WatchType : access_type_t) (pEv : MemAccessEvent) : bool :=
  if Z.land (access_flags m_WatchType) (access_flags (mem_AccessType pEv)) =? 0 then false
  else if negb (m_WatchAddr =? ANY_ADDR)
       && ((u64 (mem_TriggerAddr pEv + mem_TriggerWidth pEv) <=? m_WatchAddr)
           || (u64 (m_WatchAddr + m_WatchWidth) <=? mem_TriggerAddr pEv)) then false
  else if negb (cpuIsMatching (m_CPU b) (mem_CPU pEv)) then false
  else true.

Fixpoint Trouble_isMatching_from (b : BaseListener) (nums : list Z) (pEv : TroubleEvent) : bool :=
  match nums with
  | [] => false
  | n :: rest =>
      if cpuIsMatching (m_CPU b) (tr_CPU pEv)
         && ((n =? tr_getTriggerNumber pEv) || (n =? ANY_TRAP))
      then true
      else Trouble_isMatching_from b rest pEv
  end.

Definition Trouble_isMatching (b : BaseListener) (t : TroubleData) (pEv : TroubleEvent) : bool :=
  Trouble_isMatching_from b (m_WatchNumbers t) pEv.

Definition IOPort_isMatching (m_Port : Z) (m_Out : bool) (p : Z) (out : bool) : bool :=
  Bool.eqb out m_Out && (p =? m_Port).
End matching.

(** ** Watch numbers *)

Fixpoint addWatchNumber_in (n : Z) (nums : list Z) : option (list Z) :=
  match nums with
  | [] => Some [n]
  | m :: rest => if m =? n then None else (m ::.) <$> addWatchNumber_in n rest
  end.

(** The returned pair is the C++ result and the updated [m_WatchNumbers]. *)
Definition addWatchNumber (n : Z) (t : TroubleData) : bool * TroubleData :=
  match addWatchNumber_in n (m_WatchNumbers t) with
  | Some nums => (true, mkTroubleData (trouble_Data t) nums)
  | None => (false, t)
  end.

Fixpoint removeWatchNumber_in (n : Z) (nums : list Z) : option (list Z) :=
  match nums with
  | [] => None
  | m :: rest => if m =? n then Some rest else (m ::.) <$> removeWatchNumber_in n rest
  end.

Definition removeWatchNumber (n : Z) (t : TroubleData) : bool * TroubleData :=
  match removeWatchNumber_in n (m_WatchNumbers t) with
  | Some nums => (true, mkTroubleData (trouble_Data t) nums)
  | None => (false, t)
  end.

(** ** Constructors of the concrete classes *)

Section constructors.
Context `{SalConfig}.

Definition new_BPListener_data (address_space : Z) : BPEvent :=
  new_BPEvent ANY_ADDR address_space None.

Definition new_BPSingleListener (ip address_space : Z) (c : option cpu) : Listener :=
  mkListener (new_BaseListener c) (BPSingleListener (new_BPListener_data address_space) ip).

Definition new_BPRangeListener (start end_ address_space : Z) (c : option cpu) : Listener :=
  mkListener (new_BaseListener c) (BPRangeListener (new_BPListener_data address_space) start end_).

Definition new_MemAccessListener (addr : Z) (type : access_type_t) (c : option cpu) : Listener :=
  mkListener (new_BaseListener c) (MemAccessListener addr 1 type default_MemAccessEvent).

(** The overload for an ELF symbol: watch address and width of the symbol. *)
Definition new_MemAccessListener_sym (sym_addr sym_size : Z) (type : access_type_t)
    (c : option cpu) : Listener :=
  mkListener (new_BaseListener c) (MemAccessListener sym_addr sym_size type default_MemAccessEvent).

Definition new_MemReadListener (addr : Z) (c : option cpu) : Listener :=
  new_MemAccessListener addr MEM_READ c.

Definition new_MemWriteListener (addr : Z) (c : option cpu) : Listener :=
  new_MemAccessListener addr MEM_WRITE c.

Definition new_TroubleData (n : Z) : TroubleData :=
  (addWatchNumber n (mkTroubleData default_TroubleEvent [])).2.

Definition new_InterruptListener (interrupt : Z) (c : option cpu) : Listener :=
  mkListener (new_BaseListener c)
    (InterruptListener (new_TroubleData interrupt) default_InterruptEvent).

Definition new_TrapListener (trap : Z) (c : option cpu) : Listener :=
  mkListener (new_BaseListener c) (TrapListener (new_TroubleData trap)).

Definition new_GuestListener : Listener :=
  mkListener (new_BaseListener None) (GuestListener default_GuestEvent).

Definition new_IOPortListener (port : Z) (out : bool) (c : option cpu) : Listener :=
  mkListener (new_BaseListener c) (IOPortListener default_IOPortEvent port out).

Definition new_JumpListener (opcode : Z) (c : option cpu) : Listener :=
  mkListener (new_BaseListener c) (JumpListener (new_JumpEvent opcode false None)).

Definition new_TimerListener (timeout : Z) : Listener :=
  mkListener (new_BaseListener None) (TimerListener timeout (new_TimerEvent INVALID_TIMER)).
End constructors.

Definition setWatchInstructionPointerRange (start end_ : Z) (l : Listener) : Listener :=
  match l_class l with
  | BPRangeListener d _ _ => mkListener (l_base l) (BPRangeListener d start end_)
  | _ => l
  end.

(** [setTimeout] returns the previous timeout. *)
Definition setTimeout (timeout : Z) (l : Listener) : option (Z * Listener) :=
  match l_class l with
  | TimerListener old d => Some (old, mkListener (l_base l) (TimerListener timeout d))
  | _ => None
  end.

(** ** Properties of the matching predicates *)

Section matching_properties.
Context `{SalConfig}.

Lemma cpuIsMatching_spec m t : cpuIsMatching m t = true <-> (m = None \/ m = t).
Proof. unfold cpuIsMatching. destruct m; [rewrite bool_decide_eq_true|]; naive_solver. Qed.

(** The bytes an access of [w] bytes at [a] touches. *)
Definition touches (a w byte : Z) : Prop := a <= byte < a + w.

Lemma overlap_spec a w a' w' :
  0 < w -> 0 < w' ->
  (exists byte, touches a w byte /\ touches a' w' byte) <-> (a < a' + w' /\ a' < a + w).
Proof.
  intros Hw Hw'. unfold touches. split.
  - intros (byte & ? & ?). lia.
  - intros [? ?]. exists (Z.max a a'). lia.
Qed.

Lemma access_flags_spec t t' :
  (Z.land (access_flags t) (access_flags t') =? 0) = false <->
  (t ∈ [MEM_READ; MEM_READWRITE] /\ t' ∈ [MEM_READ; MEM_READWRITE]) \/
  (t ∈ [MEM_WRITE; MEM_READWRITE] /\ t' ∈ [MEM_WRITE; MEM_READWRITE]).
Proof.
  rewrite !list_elem_of_In. destruct t, t'; simpl; split; intuition congruence.
Qed.

Lemma MemAccess_isMatching_unfold b wa ww wt ev :
  MemAccess_isMatching b wa ww wt ev = true <->
  (Z.land (access_flags wt) (access_flags (mem_AccessType ev)) =? 0) = false /\
  (wa = ANY_ADDR \/ (wa < u64 (mem_TriggerAddr ev + mem_TriggerWidth ev) /\
                     mem_TriggerAddr ev < u64 (wa + ww))) /\
  (m_CPU b = None \/ m_CPU b = mem_CPU ev).
Proof.
  rewrite <- cpuIsMatching_spec. unfold MemAccess_isMatching.
  destruct (_ =? 0); [split; [done|by intros (? & _)]|].
  destruct (cpuIsMatching _ _); bool_cases; naive_solver lia.
Qed.

Lemma BPRange_isMatching_unfold b d s e ev :
  BPRange_isMatching b d s e ev = true <->
  (bp_AddressSpace d = ANY_ADDR \/ bp_AddressSpace d = bp_AddressSpace ev) /\
  (m_CPU b = None \/ m_CPU b = bp_CPU ev) /\
  (s = ANY_ADDR \/ s <= bp_TriggerInstrPtr ev) /\
  (e = ANY_ADDR \/ bp_TriggerInstrPtr ev <= e).
Proof.
  rewrite <- cpuIsMatching_spec. unfold BPRange_isMatching, aspaceIsMatching.
  destruct (cpuIsMatching _ _); bool_cases; naive_solver lia.
Qed.

Lemma Trouble_isMatching_from_spec b nums ev :
  Trouble_isMatching_from b nums ev = true <->
  (m_CPU b = None \/ m_CPU b = tr_CPU ev) /\
  (tr_getTriggerNumber ev ∈ nums \/ ANY_TRAP ∈ nums).
Proof.
  rewrite <- cpuIsMatching_spec. induction nums as [|n nums IH]; simpl.
  { set_solver. }
  rewrite !elem_of_cons.
  destruct (cpuIsMatching _ _); simpl; [|rewrite IH; naive_solver].
  destruct (Z.eqb_spec n (tr_getTriggerNumber ev)); simpl; [naive_solver|].
  destruct (Z.eqb_spec n ANY_TRAP); simpl; [naive_solver|].
  rewrite IH. naive_solver.
Qed.

Lemma addWatchNumber_in_spec n nums :
  addWatchNumber_in n nums = if decide (n ∈ nums) then None else Some (nums ++ [n]).
Proof.
  induction nums as [|m nums IH]; cbn [addWatchNumber_in].
  { by rewrite decide_False by set_solver. }
  destruct (Z.eqb_spec m n) as [->|Hne].
  { by rewrite decide_True by set_solver. }
  rewrite IH. destruct (decide (n ∈ nums)); cbn [fmap option_fmap option_map].
  - by rewrite decide_True by set_solver.
  - by rewrite decide_False by set_solver.
Qed.

Lemma removeWatchNumber_in_Some n nums nums' :
  removeWatchNumber_in n nums = Some nums' -> n :: nums' ≡ₚ nums.
Proof.
  revert nums'. induction nums as [|m nums IH]; simpl; intros nums' Hr; [done|].
  destruct (Z.eqb_spec m n) as [->|Hne]; [by simplify_eq|].
  destruct (removeWatchNumber_in n nums) as [l|]; simplify_option_eq.
  rewrite <- (IH l) by done. apply perm_swap.
Qed.

Lemma removeWatchNumber_in_None n nums :
  removeWatchNumber_in n nums = None <-> n ∉ nums.
Proof.
  induction nums as [|m nums IH]; simpl; [set_solver|].
  destruct (Z.eqb_spec m n) as [->|Hne]; [set_solver|].
  destruct (removeWatchNumber_in n nums); simpl; set_solver.
Qed.

(** A memory-access listener fires exactly for accesses of a watched kind
    that touch at least one watched byte (or for every address when it watches
    [ANY_ADDR]), issued by the CPU it is bound to; the address arithmetic is
    exact as long as neither interval leaves the 64-bit [size_t] range. *)
Theorem MemAccess_isMatching_correct b wa ww wt ev :
  0 < ww -> 0 < mem_TriggerWidth ev ->
  0 <= wa -> 0 <= mem_TriggerAddr ev ->
  wa + ww < 2 ^ 64 -> mem_TriggerAddr ev + mem_TriggerWidth ev < 2 ^ 64 ->
  MemAccess_isMatching b wa ww wt ev = true <->
  ((wt ∈ [MEM_READ; MEM_READWRITE] /\ mem_AccessType ev ∈ [MEM_READ; MEM_READWRITE]) \/
   (wt ∈ [MEM_WRITE; MEM_READWRITE] /\ mem_AccessType ev ∈ [MEM_WRITE; MEM_READWRITE])) /\
  (wa = ANY_ADDR \/
   exists byte, touches wa ww byte /\
                touches (mem_TriggerAddr ev) (mem_TriggerWidth ev) byte) /\
  (m_CPU b = None \/ m_CPU b = mem_CPU ev).
Proof.
  intros. rewrite MemAccess_isMatching_unfold, access_flags_spec, overlap_spec by done.
  by rewrite !u64_small by lia.
Qed.

(** A breakpoint-range listener matches exactly the instruction pointers
    in the inclusive range, [ANY_ADDR] standing for the lower end as the start
    and for the upper end as the end of the range. *)
Theorem BPRange_isMatching_correct b d s e ev :
  in_range addr_bits (bp_TriggerInstrPtr ev) ->
  BPRange_isMatching b d s e ev = true <->
  (bp_AddressSpace d = ANY_ADDR \/ bp_AddressSpace d = bp_AddressSpace ev) /\
  (m_CPU b = None \/ m_CPU b = bp_CPU ev) /\
  (if s =? ANY_ADDR then 0 else s) <= bp_TriggerInstrPtr ev
    <= (if e =? ANY_ADDR then ANY_ADDR else e).
Proof.
  intros Hip. pose proof (ANY_ADDR_max _ Hip). unfold in_range in Hip.
  rewrite BPRange_isMatching_unfold. bool_cases; naive_solver lia.
Qed.

(** A single breakpoint is the degenerate range breakpoint: both classes
    accept the same events, the [ANY_ADDR] wildcard included. *)
Theorem BPSingle_is_degenerate_range b d ip ev :
  BPSingle_isMatching b d ip ev = BPRange_isMatching b d ip ip ev.
Proof.
  unfold BPSingle_isMatching, BPRange_isMatching.
  destruct (aspaceIsMatching _ _), (cpuIsMatching _ _); simpl; try done.
  bool_cases; done.
Qed.

(** The watch numbers of an interrupt or trap listener form a set:
    [addWatchNumber] reports whether the number is new, afterwards the number is
    matched, a second [addWatchNumber] is refused, and [removeWatchNumber]
    undoes the addition. *)
Theorem watch_numbers_set b t n ev :
  tr_getTriggerNumber ev = n -> m_CPU b = None ->
  let '(added, t') := addWatchNumber n t in
  (added = true <-> n ∉ m_WatchNumbers t) /\
  Trouble_isMatching b t' ev = true /\
  (addWatchNumber n t').1 = false /\
  (NoDup (m_WatchNumbers t) -> NoDup (m_WatchNumbers t')) /\
  (added = true -> exists t'', removeWatchNumber n t' = (true, t'') /\
                               m_WatchNumbers t'' ≡ₚ m_WatchNumbers t).
Proof.
  intros Hn Hcpu. unfold addWatchNumber. rewrite addWatchNumber_in_spec.
  destruct (decide (n ∈ m_WatchNumbers t)) as [Hin|Hin]; simpl.
  - rewrite addWatchNumber_in_spec, decide_True by done.
    unfold Trouble_isMatching. rewrite Trouble_isMatching_from_spec, Hn. naive_solver.
  - rewrite addWatchNumber_in_spec, decide_True by set_solver.
    unfold Trouble_isMatching. rewrite Trouble_isMatching_from_spec, Hn. simpl.
    split; [done|]. split; [set_solver|]. split; [done|]. split.
    { intros Hnd. apply NoDup_app. split; [done|]. split; [set_solver|]. apply NoDup_singleton. }
    intros _. unfold removeWatchNumber. simpl.
    destruct (removeWatchNumber_in n (m_WatchNumbers t ++ [n])) as [nums|] eqn:E.
    + eexists. split; [done|]. simpl. apply removeWatchNumber_in_Some in E.
      apply (Permutation_cons_inv (a := n)). rewrite E. symmetry. apply Permutation_cons_append.
    + apply removeWatchNumber_in_None in E. set_solver.
Qed.
End matching_properties.

(** ** Concrete instances *)

Lemma MemAccess_isMatching_correct_witness :
  MemAccess_isMatching (H := sal_64) (new_BaseListener None) 0x1000 4 MEM_READWRITE
    (mkMemAccessEvent None 0xffe 4 0x100 MEM_WRITE) = true.
Proof.
  apply (MemAccess_isMatching_correct (H := sal_64)); simpl; try lia. split_and!.
  - right. split; repeat constructor.
  - right. exists 0x1000. unfold touches. lia.
  - by left.
Defined.

Lemma BPRange_isMatching_correct_witness :
  BPRange_isMatching (H := sal_64) (new_BaseListener None)
    (new_BPListener_data (H := sal_64) (ANY_ADDR (H := sal_64))) 0x100 (ANY_ADDR (H := sal_64))
    (mkBPEvent None 0x180 7) = true.
Proof.
  apply (BPRange_isMatching_correct (H := sal_64)).
  - unfold in_range. simpl. lia.
  - split_and!; [by left|by left|..]; vm_compute; intros E; discriminate E.
Defined.

Lemma watch_numbers_set_witness :
  exists t', addWatchNumber 13 (new_TroubleData 14) = (true, t') /\
    Trouble_isMatching (new_BaseListener None) t' (new_TroubleEvent 13 None) = true.
Proof.
  eexists. split; [reflexivity|].
  pose proof (watch_numbers_set (new_BaseListener None) (new_TroubleData 14) 13
    (new_TroubleEvent 13 None) eq_refl eq_refl) as Hw.
  exact (proj1 (proj2 Hw)).
Defined.
