(* ===== verification/PerfBuffers.v ===== *)
(** * Performance buffers

    [src/core/sal/perf/BufferInterface.hpp]: the abstract index container
    [PerfBufferBase] as a type class with the laws the listener manager relies
    on, and the vector implementation [DefPerfVector] that discharges them. *)
From S2P Require Import Prelude.

(** The interface.  [pb_elems] is the content in iteration order; it is what
    the [gather] methods walk over. *)
Class PerfBufferBase (B : Type) := {
  pb_empty : B;
  pb_add : nat -> B -> B;
  pb_remove : nat -> B -> B;
  pb_clear : B -> B;
  pb_size : B -> nat;
  pb_elems : B -> list nat;
  pb_elems_empty : pb_elems pb_empty = [];
  pb_elems_add i b : pb_elems (pb_add i b) ≡ₚ i :: pb_elems b;
  pb_elems_remove i b : i ∈ pb_elems b -> i :: pb_elems (pb_remove i b) ≡ₚ pb_elems b;
  pb_elems_remove_ne i b : i ∉ pb_elems b -> pb_elems (pb_remove i b) ≡ₚ pb_elems b;
  pb_elems_clear b : pb_elems (pb_clear b) = [];
  pb_size_elems b : pb_size b = length (pb_elems b)
}.

Module DefPerfVector.
(** [std::vector<index_t> m_BufList] *)
Definition t : Type := list nat.

Definition add (idx : nat) (m_BufList : t) : t := m_BufList ++ [idx].

(** The loop erases the first occurrence and breaks. *)
Fixpoint remove (idx : nat) (m_BufList : t) : t :=
  match m_BufList with
  | [] => []
  | it :: rest => if (it =? idx)%nat then rest else it :: remove idx rest
  end.

Definition clear (m_BufList : t) : t := [].
Definition size (m_BufList : t) : nat := length m_BufList.

Lemma remove_elem i (b : t) : i ∈ b -> i :: remove i b ≡ₚ b.
Proof.
  induction b as [|j b IH]; simpl; intros Hin; [set_solver|].
  destruct (Nat.eqb_spec j i) as [->|Hne]; [done|].
  rewrite perm_swap, IH by set_solver. done.
Qed.

Lemma remove_notin i (b : t) : i ∉ b -> remove i b = b.
Proof.
  induction b as [|j b IH]; simpl; intros Hin; [done|].
  destruct (Nat.eqb_spec j i) as [->|Hne]; [set_solver|]. f_equal. set_solver.
Qed.
End DefPerfVector.

#[export, refine] Instance DefPerfVector_PerfBufferBase : PerfBufferBase DefPerfVector.t := {|
  pb_empty := [];
  pb_add := DefPerfVector.add;
  pb_remove := DefPerfVector.remove;
  pb_clear := DefPerfVector.clear;
  pb_size := DefPerfVector.size;
  pb_elems := fun b => b
|}.
Proof.
  - done.
  - intros i b. unfold DefPerfVector.add. symmetry. apply Permutation_cons_append.
  - intros i b. apply DefPerfVector.remove_elem.
  - intros i b H. by rewrite DefPerfVector.remove_notin.
  - done.
  - done.
Defined.

(** Laws of the interface in the form the clients use. *)
Section perf_laws.
Context {B : Type} `{PerfBufferBase B}.

Lemma elem_of_pb_add i j (b : B) : j ∈ pb_elems (pb_add i b) <-> j = i \/ j ∈ pb_elems b.
Proof. rewrite pb_elems_add. set_solver. Qed.

Lemma NoDup_pb_add i (b : B) :
  NoDup (pb_elems b) -> i ∉ pb_elems b -> NoDup (pb_elems (pb_add i b)).
Proof. intros. rewrite pb_elems_add. by apply NoDup_cons. Qed.

Lemma elem_of_pb_remove i j (b : B) :
  NoDup (pb_elems b) -> j ∈ pb_elems (pb_remove i b) <-> j ≠ i /\ j ∈ pb_elems b.
Proof.
  intros Hnd. destruct (decide (i ∈ pb_elems b)) as [Hi|Hi].
  - pose proof (pb_elems_remove _ _ Hi) as Hp. rewrite <- Hp in Hnd |- *.
    apply NoDup_cons in Hnd as [Hn _]. set_solver.
  - rewrite pb_elems_remove_ne by done. set_solver.
Qed.

Lemma NoDup_pb_remove i (b : B) :
  NoDup (pb_elems b) -> NoDup (pb_elems (pb_remove i b)).
Proof.
  intros Hnd. destruct (decide (i ∈ pb_elems b)) as [Hi|Hi].
  - rewrite <- (pb_elems_remove _ _ Hi) in Hnd. by apply NoDup_cons in Hnd as [_ ?].
  - by rewrite pb_elems_remove_ne.
Qed.
End perf_laws.

(** [ResultSet]: the temporary fire-list a [gather] call returns; [getNext]
    takes the newest entry. *)
Module ResultSet.
Definition t : Type := list nat.
Definition empty : t := [].
Definition hasMore (m_Res : t) : bool := match m_Res with [] => false | _ => true end.
Definition getNext (m_Res : t) : option (nat * t) :=
  l ← last m_Res; Some (l, pop_back m_Res).
Definition add (l : nat) (m_Res : t) : t := m_Res ++ [l].
Definition size (m_Res : t) : nat := length m_Res.
Definition clear (m_Res : t) : t := [].

Lemma getNext_snoc l (r : t) : getNext (r ++ [l]) = Some (l, r).
Proof. unfold getNext. rewrite last_snoc. simpl. by rewrite pop_back_snoc. Qed.

Lemma hasMore_snoc l (r : t) : hasMore (r ++ [l]) = true.
Proof. by destruct r. Qed.
End ResultSet.
