(* ===== verification/ListenerManager.v ===== *)
(** * ListenerManager

    [src/core/sal/ListenerManager.{hpp,cc}] and the [add] overloads sliced in
    by [src/core/sal/perf/*ManagerSlice.ah].

    Listener objects live in an explicit heap, because the buffer-list, the
    fire-list and the performance buffers alias them.  [None] as a result is a
    violated [assert], an out-of-range vector access or a dangling pointer.
    The overridable [onDeletion] handler is observed through the call log
    [lm_onDeletion]. *)
From S2P Require Import Prelude Events Listeners PerfBuffers.

(** The three sliced-in performance buffer-lists. *)
Record PerfBuffers (B : Type) := mkPerfBuffers {
  m_SingleListeners : B;
  m_RangeListeners : B;
  m_MemListeners : B
}.
Arguments mkPerfBuffers {B}.
Arguments m_SingleListeners {B}.
Arguments m_RangeListeners {B}.
Arguments m_MemListeners {B}.

Definition perf_get {B} (h : perfbuf) (pb : PerfBuffers B) : B :=
  match h with
  | PB_Single => m_SingleListeners pb
  | PB_Range => m_RangeListeners pb
  | PB_Mem => m_MemListeners pb
  end.

Definition perf_alter {B} (h : perfbuf) (f : B -> B) (pb : PerfBuffers B) : PerfBuffers B :=
  match h with
  | PB_Single => mkPerfBuffers (f (m_SingleListeners pb)) (m_RangeListeners pb) (m_MemListeners pb)
  | PB_Range => mkPerfBuffers (m_SingleListeners pb) (f (m_RangeListeners pb)) (m_MemListeners pb)
  | PB_Mem => mkPerfBuffers (m_SingleListeners pb) (m_RangeListeners pb) (f (m_MemListeners pb))
  end.

Lemma perf_get_alter_eq {B} h f (pb : PerfBuffers B) :
  perf_get h (perf_alter h f pb) = f (perf_get h pb).
Proof. by destruct h. Qed.

Lemma perf_get_alter_ne {B} h h' f (pb : PerfBuffers B) :
  h ≠ h' -> perf_get h' (perf_alter h f pb) = perf_get h' pb.
Proof. by destruct h, h'. Qed.

Record ListenerManager (B : Type) := mkLM {
  lm_heap : gmap ptr Listener;
  m_BufferList : list ptr;
  m_FireList : list ptr;
  m_DeleteList : list ptr;
  m_pFired : option ptr;
  lm_perf : PerfBuffers B;
  lm_onDeletion : list ptr
}.
Arguments mkLM {B}.
Arguments lm_heap {B}.
Arguments m_BufferList {B}.
Arguments m_FireList {B}.
Arguments m_DeleteList {B}.
Arguments m_pFired {B}.
Arguments lm_perf {B}.
Arguments lm_onDeletion {B}.

(** Field updates. *)
Section updates.
Context {B : Type}.
Implicit Type lm : ListenerManager B.

Definition set_heap (h : gmap ptr Listener) lm : ListenerManager B :=
  mkLM h (m_BufferList lm) (m_FireList lm) (m_DeleteList lm) (m_pFired lm) (lm_perf lm) (lm_onDeletion lm).
Definition set_BufferList (l : list ptr) lm : ListenerManager B :=
  mkLM (lm_heap lm) l (m_FireList lm) (m_DeleteList lm) (m_pFired lm) (lm_perf lm) (lm_onDeletion lm).
Definition set_FireList (l : list ptr) lm : ListenerManager B :=
  mkLM (lm_heap lm) (m_BufferList lm) l (m_DeleteList lm) (m_pFired lm) (lm_perf lm) (lm_onDeletion lm).
Definition set_DeleteList (l : list ptr) lm : ListenerManager B :=
  mkLM (lm_heap lm) (m_BufferList lm) (m_FireList lm) l (m_pFired lm) (lm_perf lm) (lm_onDeletion lm).
Definition set_pFired (p : option ptr) lm : ListenerManager B :=
  mkLM (lm_heap lm) (m_BufferList lm) (m_FireList lm) (m_DeleteList lm) p (lm_perf lm) (lm_onDeletion lm).
Definition set_perf (pb : PerfBuffers B) lm : ListenerManager B :=
  mkLM (lm_heap lm) (m_BufferList lm) (m_FireList lm) (m_DeleteList lm) (m_pFired lm) pb (lm_onDeletion lm).

(** [p->f()] for a member function that updates the object. *)
Definition upd_listener (p : ptr) (f : Listener -> Listener) lm : ListenerManager B :=
  set_heap (alter f p (lm_heap lm)) lm.

(** [p->onDeletion()] *)
Definition onDeletion (p : ptr) lm : ListenerManager B :=
  mkLM (lm_heap lm) (m_BufferList lm) (m_FireList lm) (m_DeleteList lm) (m_pFired lm) (lm_perf lm)
    (lm_onDeletion lm ++ [p]).
End updates.

(** ** Operations *)

Section operations.
Context {B : Type} `{PerfBufferBase B}.
Implicit Type lm : ListenerManager B.

Definition new_ListenerManager : ListenerManager B :=
  mkLM ∅ [] [] [] None (mkPerfBuffers pb_empty pb_empty pb_empty) [].

(** [dereference]: the assertion checks the index. *)
Definition dereference (idx : nat) lm : option ptr := m_BufferList lm !! idx.

Definition getListenerCount lm : nat := length (m_BufferList lm).
Definition getLastFired lm : option ptr := m_pFired lm.

(** [add(BaseListener* li, ExperimentFlow* pExp)] *)
Definition add (li : ptr) (pExp : option flow) lm : option (ListenerManager B) :=
  l ← lm_heap lm !! li;
  if getCounter l =? 0 then None
  else
    let lm1 := upd_listener li (setPerformanceBuffer None ∘ setParent pExp) lm in
    let lm2 := set_BufferList (m_BufferList lm1 ++ [li]) lm1 in
    let idx := (length (m_BufferList lm2) - 1)%nat in
    Some (upd_listener li (setLocation (Some idx)) lm2).

(** The sliced-in [add] overloads: they register the index in the performance
    buffer-list [h] and do not check the counter. *)
Definition add_perf (h : perfbuf) (li : ptr) (pExp : option flow) lm : option (ListenerManager B) :=
  l ← lm_heap lm !! li;
  let lm1 := upd_listener li (setParent pExp) lm in
  let lm2 := set_BufferList (m_BufferList lm1 ++ [li]) lm1 in
  let idx := (length (m_BufferList lm2) - 1)%nat in
  let lm3 := upd_listener li (setPerformanceBuffer (Some h) ∘ setLocation (Some idx)) lm2 in
  Some (set_perf (perf_alter h (pb_add idx) (lm_perf lm3)) lm3).

(** [if (p->getPerformanceBuffer() != NULL) p->getPerformanceBuffer()->remove(i)] *)
Definition perf_unlink (home : option perfbuf) (i : option nat) lm : ListenerManager B :=
  match home, i with
  | Some h, Some i => set_perf (perf_alter h (pb_remove i) (lm_perf lm)) lm
  | _, _ => lm
  end.

(** [m_remove(index_t)] *)
Definition m_remove (idx : option nat) lm : option (ListenerManager B) :=
  match idx with
  | None => Some lm
  | Some idx =>
      if bool_decide (m_BufferList lm = []) then Some lm
      else
        let size := length (m_BufferList lm) in
        p ← m_BufferList lm !! idx;
        _ ← lm_heap lm !! p;
        let lm1 := upd_listener p (setLocation None ∘ setPerformanceBuffer None) lm in
        lm2 ←
          (if (1 <? size)%nat && negb (idx =? size - 1)%nat then
             q ← m_BufferList lm1 !! (size - 1)%nat;
             let lm3 := set_BufferList (<[idx := q]> (m_BufferList lm1)) lm1 in
             lq ← lm_heap lm3 !! q;
             let oldLoc := getLocation lq in
             let lm4 := upd_listener q (setLocation (Some idx)) lm3 in
             match getPerformanceBuffer lq with
             | Some pBuf =>
                 let lm5 := perf_unlink (Some pBuf) oldLoc lm4 in
                 Some (set_perf (perf_alter pBuf (pb_add idx) (lm_perf lm5)) lm5)
             | None => Some lm4
             end
           else Some lm1);
        Some (set_BufferList (pop_back (m_BufferList lm2)) lm2)
  end.

(** The loop of [remove(NULL)] and [remove(flow)]: drop every buffered
    listener whose parent is [f].  Each round shortens the distance from [i]
    to the end of the vector by one. *)
Fixpoint remove_loop (fuel : nat) (f : option flow) (i : nat) lm : option (ListenerManager B) :=
  if (i <? length (m_BufferList lm))%nat then
    match fuel with
    | O => None
    | S fuel =>
        p ← m_BufferList lm !! i;
        l ← lm_heap lm !! p;
        if bool_decide (getParent l = f) then
          let lm1 := onDeletion p lm in
          let lm2 := perf_unlink (getPerformanceBuffer l) (Some i) lm1 in
          lm3 ← m_remove (Some i) lm2;
          remove_loop fuel f i lm3
        else remove_loop fuel f (S i) lm
    end
  else Some lm.

(** [remove(BaseListener* li)]; [cur] is [simulator.m_Flows.getCurrent()]. *)
Definition remove_listener (cur : option flow) (li : option ptr) lm : option (ListenerManager B) :=
  match li with
  | None =>
      lm1 ← remove_loop (length (m_BufferList lm)) cur 0 lm;
      Some (set_DeleteList (m_DeleteList lm1 ++ m_FireList lm1) lm1)
  | Some li =>
      l ← lm_heap lm !! li;
      lm1 ←
        match getLocation l with
        | Some loc =>
            let lm2 := onDeletion li lm in
            let lm3 := perf_unlink (getPerformanceBuffer l) (Some loc) lm2 in
            m_remove (Some loc) lm3
        | None => Some lm
        end;
      if bool_decide (li ∈ m_FireList lm1)
      then Some (set_DeleteList (m_DeleteList lm1 ++ [li]) lm1)
      else Some lm1
  end.

(** The first loop of [remove(0)]: reset every buffered listener and collect
    the performance buffer-lists in use. *)
Fixpoint clear_listeners (ps : list ptr) lm (bufs : list perfbuf)
    : option (ListenerManager B * list perfbuf) :=
  match ps with
  | [] => Some (lm, bufs)
  | p :: rest =>
      l ← lm_heap lm !! p;
      let bufs' := match getPerformanceBuffer l with Some h => h :: bufs | None => bufs end in
      let lm1 := upd_listener p (setLocation None ∘ setPerformanceBuffer None) (onDeletion p lm) in
      clear_listeners rest lm1 bufs'
  end.

(** The loop over the fire-list at the end of [remove(ExperimentFlow* flow)]. *)
Fixpoint delete_active (f : option flow) (fire : list ptr) lm : option (ListenerManager B) :=
  match fire with
  | [] => Some lm
  | p :: rest =>
      if bool_decide (p ∈ m_DeleteList lm) then delete_active f rest lm
      else
        match f with
        | None => delete_active f rest (set_DeleteList (m_DeleteList lm ++ [p]) lm)
        | Some _ =>
            l ← lm_heap lm !! p;
            if bool_decide (getParent l = f)
            then delete_active f rest (set_DeleteList (m_DeleteList lm ++ [p]) lm)
            else delete_active f rest lm
        end
  end.

(** [remove(ExperimentFlow* flow)] *)
Definition remove_flow (f : option flow) lm : option (ListenerManager B) :=
  lm1 ←
    match f with
    | None =>
        '(lm2, bufs) ← clear_listeners (m_BufferList lm) lm [];
        let lm3 := set_BufferList [] lm2 in
        let lm4 := set_perf (foldr (fun h pb => perf_alter h pb_clear pb) (lm_perf lm3) bufs) lm3 in
        Some (set_DeleteList (m_DeleteList lm4 ++ m_FireList lm4) lm4)
    | Some _ => remove_loop (length (m_BufferList lm)) f 0 lm
    end;
  delete_active f (m_FireList lm1) lm1.

(** [makeActive(iterator)]: the returned index is the updated iterator. *)
Definition makeActive_it (it : nat) lm : option (nat * ListenerManager B) :=
  li ← m_BufferList lm !! it;
  l ← lm_heap lm !! li;
  let l1 := decreaseCounter l in
  let lm1 := upd_listener li decreaseCounter lm in
  if 0 <? getCounter l1 then Some (S it, lm1)
  else
    let lm2 := onDeletion li (upd_listener li resetCounter lm1) in
    match getPerformanceBuffer l1 with
    | Some _ => None
    | None =>
        lm3 ← m_remove (getLocation l1) lm2;
        Some (it, set_FireList (m_FireList lm3 ++ [li]) lm3)
    end.

(** [makeActive(BaseListener* pLi)] *)
Definition makeActive_perf (pLi : ptr) lm : option (ListenerManager B) :=
  l ← lm_heap lm !! pLi;
  match getPerformanceBuffer l with
  | None => Some lm
  | Some h =>
      let l1 := decreaseCounter l in
      let lm1 := upd_listener pLi decreaseCounter lm in
      if 0 <? getCounter l1 then Some lm1
      else
        let lm2 := onDeletion pLi (upd_listener pLi resetCounter lm1) in
        let lm3 := perf_unlink (Some h) (getLocation l1) lm2 in
        lm4 ← m_remove (getLocation l1) lm3;
        Some (set_FireList (m_FireList lm4 ++ [pLi]) lm4)
  end.

(** [triggerActiveListeners()]; [onTrigger p] runs the triggered listener's
    handler, i.e. the experiment code, which may also change the rest [w] of the
    program state.  The loop walks over [m_FireList] with a vector iterator, so a
    handler that changes the vector invalidates it. *)
Fixpoint trigger_loop {W : Type}
    (onTrigger : ptr -> W -> ListenerManager B -> option (W * ListenerManager B))
    (it : list ptr) (w : W) lm : option (W * ListenerManager B) :=
  match it with
  | [] => Some (w, lm)
  | p :: rest =>
      if bool_decide (p ∈ m_DeleteList lm) then trigger_loop onTrigger rest w lm
      else
        '(w1, lm1) ← onTrigger p w (set_pFired (Some p) lm);
        if bool_decide (m_FireList lm1 = m_FireList lm)
        then trigger_loop onTrigger rest w1 lm1
        else None
  end.

Definition triggerActiveListeners {W : Type}
    (onTrigger : ptr -> W -> ListenerManager B -> option (W * ListenerManager B)) (w : W) lm
    : option (W * ListenerManager B) :=
  '(w1, lm1) ← trigger_loop onTrigger (m_FireList lm) w lm;
  Some (w1, set_DeleteList [] (set_FireList [] lm1)).

(** [getExperimentOf(BaseListener* li)]; the outer [option] is the dereference. *)
Definition getExperimentOf (li : ptr) lm : option (option flow) :=
  if bool_decide (li ∈ m_BufferList lm) then getParent <$> lm_heap lm !! li
  else Some None.

(** [getContextCount()]: the size of the set of parents. *)
Definition getContextCount lm : nat :=
  length (remove_dups (omap (fun p => getParent <$> lm_heap lm !! p) (m_BufferList lm))).
End operations.

(** ** The representation invariant *)

(** The class a performance buffer-list's [gather] casts its entries to. *)
Definition home_class (h : perfbuf) (c : listener_class) : Prop :=
  match h, c with
  | PB_Single, BPSingleListener _ _ => True
  | PB_Range, BPRangeListener _ _ _ => True
  | PB_Mem, MemAccessListener _ _ _ _ => True
  | _, _ => False
  end.

#[export] Instance home_class_dec h c : Decision (home_class h c).
Proof. destruct h, c; simpl; apply _. Defined.

Section invariant.
Context {B : Type} `{PerfBufferBase B}.

(** Every buffered listener knows its slot and nothing else claims a slot; the
    performance buffer-lists hold exactly the slots of the listeners linked to
    them, once each; a linked listener has the class its list casts to. *)
Record wf_core (hp : gmap ptr Listener) (buf : list ptr) (pb : PerfBuffers B) : Prop := {
  wf_loc i p : buf !! i = Some p <-> exists l, hp !! p = Some l /\ getLocation l = Some i;
  wf_home p l : hp !! p = Some l -> getLocation l = None -> getPerformanceBuffer l = None;
  wf_nodup h : NoDup (pb_elems (perf_get h pb));
  wf_perf h i : i ∈ pb_elems (perf_get h pb) <->
    exists p l, hp !! p = Some l /\ getLocation l = Some i /\ getPerformanceBuffer l = Some h;
  wf_kind p l h : hp !! p = Some l -> getPerformanceBuffer l = Some h -> home_class h (l_class l)
}.

(** A listener on the fire-list may only have been destroyed if it is on the
    delete-list. *)
Definition wf_fire (hp : gmap ptr Listener) (fire del : list ptr) : Prop :=
  forall p, p ∈ fire -> p ∈ del \/ is_Some (hp !! p).

Definition wf (lm : ListenerManager B) : Prop :=
  wf_core (lm_heap lm) (m_BufferList lm) (lm_perf lm) /\
  wf_fire (lm_heap lm) (m_FireList lm) (m_DeleteList lm).

Lemma wf_core_NoDup hp buf pb : wf_core hp buf pb -> NoDup buf.
Proof.
  intros Hwf. apply NoDup_alt. intros i j p Hi Hj.
  apply (wf_loc _ _ _ Hwf) in Hi as (l & ? & ?).
  apply (wf_loc _ _ _ Hwf) in Hj as (l' & ? & ?). congruence.
Qed.

(** *** What an operation leaves alone

    [strip] forgets the two fields that record where the manager keeps a
    listener; everything else of an object is the client's. *)
Definition strip (l : Listener) : Listener := setLocation None (setPerformanceBuffer None l).

Lemma strip_setLocation i l : strip (setLocation i l) = strip l.
Proof. done. Qed.
Lemma strip_setPerformanceBuffer h l : strip (setPerformanceBuffer h l) = strip l.
Proof. done. Qed.
Lemma strip_parent l l' : strip l = strip l' -> getParent l = getParent l'.
Proof. intros E. exact (f_equal getParent E). Qed.
Lemma strip_counter l l' : strip l = strip l' -> getCounter l = getCounter l'.
Proof. intros E. exact (f_equal getCounter E). Qed.
Lemma strip_class l l' : strip l = strip l' -> l_class l = l_class l'.
Proof. intros E. exact (f_equal l_class E). Qed.
Lemma strip_cpu l l' : strip l = strip l' -> getCPU l = getCPU l'.
Proof. intros E. exact (f_equal getCPU E). Qed.

(** What moving a listener to another slot leaves alone. *)
Definition unplace (l : Listener) : Listener := setLocation None l.

Definition same_objects (hp hp' : gmap ptr Listener) : Prop := strip <$> hp = strip <$> hp'.

#[export] Instance same_objects_equiv : Equivalence same_objects.
Proof. unfold same_objects. split; repeat intro; congruence. Qed.

Lemma same_objects_lookup hp hp' p l :
  same_objects hp hp' -> hp !! p = Some l -> exists l', hp' !! p = Some l' /\ strip l' = strip l.
Proof.
  intros E Hl. pose proof (f_equal (lookup p) E) as E'.
  rewrite !lookup_fmap, Hl in E'. destruct (hp' !! p) as [l'|]; [|done].
  exists l'. split; [done|]. cbn in E'. congruence.
Qed.

Lemma same_objects_alter f p hp :
  (forall l, strip (f l) = strip l) -> same_objects (alter f p hp) hp.
Proof.
  intros Hf. apply map_eq. intros q. rewrite !lookup_fmap.
  destruct (decide (q = p)) as [->|].
  - rewrite lookup_alter_eq. destruct (hp !! p); simpl; [by rewrite Hf|done].
  - by rewrite lookup_alter_ne.
Qed.

(** *** Taking a listener out of the buffer-list *)

(** Unlinking and relinking slots in the performance buffer-lists. *)
Definition unlink (h : option perfbuf) (i : nat) (pb : PerfBuffers B) : PerfBuffers B :=
  match h with Some h => perf_alter h (pb_remove i) pb | None => pb end.
Definition link (h : option perfbuf) (i : nat) (pb : PerfBuffers B) : PerfBuffers B :=
  match h with Some h => perf_alter h (pb_add i) pb | None => pb end.

Lemma elem_of_unlink (h : option perfbuf) (i j : nat) (pb : PerfBuffers B) h' :
  NoDup (pb_elems (perf_get h' pb)) ->
  j ∈ pb_elems (perf_get h' (unlink h i pb)) <->
  j ∈ pb_elems (perf_get h' pb) /\ (h = Some h' -> j ≠ i).
Proof.
  intros Hnd. destruct h as [h|]; simpl; [|naive_solver].
  destruct (decide (h = h')) as [->|Hne].
  - rewrite perf_get_alter_eq, elem_of_pb_remove by done. naive_solver.
  - rewrite perf_get_alter_ne by done. naive_solver.
Qed.

Lemma NoDup_unlink (h : option perfbuf) (i : nat) (pb : PerfBuffers B) h' :
  NoDup (pb_elems (perf_get h' pb)) ->
  NoDup (pb_elems (perf_get h' (unlink h i pb))).
Proof.
  intros Hnd. destruct h as [h|]; simpl; [|done]. destruct (decide (h = h')) as [->|Hne].
  - rewrite perf_get_alter_eq. by apply NoDup_pb_remove.
  - by rewrite perf_get_alter_ne.
Qed.

Lemma elem_of_link (h : option perfbuf) (i j : nat) (pb : PerfBuffers B) h' :
  j ∈ pb_elems (perf_get h' (link h i pb)) <->
  j ∈ pb_elems (perf_get h' pb) \/ (h = Some h' /\ j = i).
Proof.
  destruct h as [h|]; simpl; [|naive_solver]. destruct (decide (h = h')) as [->|Hne].
  - rewrite perf_get_alter_eq, elem_of_pb_add. naive_solver.
  - rewrite perf_get_alter_ne by done. naive_solver.
Qed.

Lemma NoDup_link (h : option perfbuf) (i : nat) (pb : PerfBuffers B) h' :
  NoDup (pb_elems (perf_get h' pb)) -> i ∉ pb_elems (perf_get h' pb) ->
  NoDup (pb_elems (perf_get h' (link h i pb))).
Proof.
  intros Hnd Hi. destruct h as [h|]; simpl; [|done]. destruct (decide (h = h')) as [->|Hne].
  - rewrite perf_get_alter_eq. by apply NoDup_pb_add.
  - by rewrite perf_get_alter_ne.
Qed.

(** The last listener of the vector leaves: nothing moves. *)
Lemma wf_core_pop hp buf pb p l :
  wf_core hp (buf ++ [p]) pb -> hp !! p = Some l ->
  wf_core (alter strip p hp) buf (unlink (getPerformanceBuffer l) (length buf) pb).
Proof.
  intros Hwf Hl. pose proof (wf_core_NoDup _ _ _ Hwf) as Hnd. destruct Hwf as [Wl Wh Wn Wp Wk].
  assert (getLocation l = Some (length buf)) as Hloc.
  { destruct (proj1 (Wl (length buf) p)) as (l' & ? & ?); [|by simplify_eq].
    by rewrite lookup_app_r, Nat.sub_diag by lia. }
  assert (forall q lq, q ≠ p -> hp !! q = Some lq -> getLocation lq ≠ Some (length buf)) as Hoth.
  { intros q lq Hq Hlq E. assert ((buf ++ [p]) !! length buf = Some q) as E' by (apply Wl; eauto).
    rewrite lookup_app_r, Nat.sub_diag in E' by lia. simpl in E'. congruence. }
  split.
  - intros i q. split.
    + intros Hi. assert (q ≠ p) as Hqp.
      { intros ->. apply NoDup_app in Hnd as (_ & Hd & _).
        apply (Hd p); [by eapply list_elem_of_lookup_2|set_solver]. }
      destruct (proj1 (Wl i q)) as (lq & ? & ?); [by apply lookup_app_l_Some|].
      exists lq. by rewrite lookup_alter_ne.
    + intros (lq & Hlq & Hi). destruct (decide (q = p)) as [->|Hqp].
      { rewrite lookup_alter_eq, Hl in Hlq. simplify_option_eq. }
      rewrite lookup_alter_ne in Hlq by done.
      pose proof (proj2 (Wl i q) (ex_intro _ lq (conj Hlq Hi))) as E.
      pose proof (Hoth q lq Hqp Hlq). apply lookup_app_Some in E as [E|[? E]]; [done|].
      destruct (i - length buf)%nat eqn:?; simpl in E; [|done]. simplify_eq.
  - intros q lq Hlq. destruct (decide (q = p)) as [->|Hqp].
    + rewrite lookup_alter_eq, Hl in Hlq. by simplify_option_eq.
    + rewrite lookup_alter_ne in Hlq by done. eauto.
  - intros h. by apply NoDup_unlink.
  - intros h i. rewrite elem_of_unlink by done. rewrite Wp. split.
    + intros ((q & lq & Hlq & Hi & Hh) & Hne). exists q, lq.
      destruct (decide (q = p)) as [->|Hqp]; [|by rewrite lookup_alter_ne].
      simplify_eq. naive_solver.
    + intros (q & lq & Hlq & Hi & Hh). destruct (decide (q = p)) as [->|Hqp].
      { rewrite lookup_alter_eq, Hl in Hlq. by simplify_option_eq. }
      rewrite lookup_alter_ne in Hlq by done. split; [by eauto|].
      intros _ ->. by eapply Hoth.
  - intros q lq h Hlq. destruct (decide (q = p)) as [->|Hqp].
    + rewrite lookup_alter_eq, Hl in Hlq. by simplify_option_eq.
    + rewrite lookup_alter_ne in Hlq by done. eauto.
Qed.

(** The heap after a listener [p] left slot [i] and the last listener [q] took
    its place. *)
Lemma lookup_moved (hp : gmap ptr Listener) p q i l lq r lr :
  p ≠ q -> hp !! p = Some l -> hp !! q = Some lq ->
  alter (setLocation (Some i)) q (alter strip p hp) !! r = Some lr <->
  (r = p /\ lr = strip l) \/ (r = q /\ lr = setLocation (Some i) lq) \/
  (r ≠ p /\ r ≠ q /\ hp !! r = Some lr).
Proof.
  intros Hpq Hl Hlq. destruct (decide (r = q)) as [->|Hrq].
  { rewrite lookup_alter_eq, lookup_alter_ne, Hlq by done. simpl. naive_solver. }
  rewrite lookup_alter_ne by done. destruct (decide (r = p)) as [->|Hrp].
  { rewrite lookup_alter_eq, Hl. simpl. naive_solver. }
  rewrite lookup_alter_ne by done. naive_solver.
Qed.

Lemma lookup_after_move (b1 b2 : list ptr) p q j r :
  NoDup (b1 ++ p :: b2 ++ [q]) ->
  (b1 ++ q :: b2) !! j = Some r <->
  (r = q /\ j = length b1) \/ (r ≠ p /\ r ≠ q /\ (b1 ++ p :: b2 ++ [q]) !! j = Some r).
Proof.
  intros Hnd. pose proof Hnd as Hnd'. rewrite <- (swap_remove_middle b1 p b2 q). split.
  - intros Hj. assert ((b1 ++ p :: b2 ++ [q]) !! length b1 = Some p) as Hp.
    { by rewrite lookup_app_r, Nat.sub_diag by lia. }
    assert ((b1 ++ p :: b2 ++ [q]) !! (length (b1 ++ p :: b2 ++ [q]) - 1)%nat = Some q) as Hq.
    { rewrite length_app. simpl. rewrite length_app. simpl.
      rewrite lookup_app_r by lia.
      replace (length b1 + S (length b2 + 1) - 1 - length b1)%nat with (S (length b2)) by lia.
      simpl. by rewrite lookup_app_r, Nat.sub_diag by lia. }
    pose proof (lookup_lt_Some _ _ _ Hj) as Hlt.
    pose proof (length_swap_remove _ _ _ Hp).
    destruct (lookup_swap_remove _ _ _ _ _ Hnd Hp Hj) as [Hrp [[Hne E]|(-> & E & _)]].
    + right. split; [done|]. split; [|done]. intros ->.
      pose proof (NoDup_lookup _ _ _ _ Hnd E Hq). lia.
    + left. split; [congruence|done].
  - rewrite swap_remove_middle. intros [[-> ->]|(Hp & Hq & Hr)].
    + by rewrite lookup_app_r, Nat.sub_diag by lia.
    + apply lookup_app_Some in Hr as [Hr|[Hle Hr]]; [by apply lookup_app_l_Some|].
      rewrite lookup_app_r by done. destruct (j - length b1)%nat; simpl in *; [congruence|].
      apply lookup_app_Some in Hr as [Hr|[Hle' Hr]]; [done|].
      apply list_lookup_singleton_Some in Hr as [_ ?]. congruence.
Qed.

(** A listener in the middle leaves: the last one takes over its slot. *)
Lemma wf_core_move hp b1 p b2 q pb l lq :
  wf_core hp (b1 ++ p :: b2 ++ [q]) pb -> hp !! p = Some l -> hp !! q = Some lq ->
  wf_core (alter (setLocation (Some (length b1))) q (alter strip p hp)) (b1 ++ q :: b2)
    (link (getPerformanceBuffer lq) (length b1)
       (unlink (getPerformanceBuffer lq) (S (length b1 + length b2))
          (unlink (getPerformanceBuffer l) (length b1) pb))).
Proof.
  intros Hwf Hl Hlq. pose proof (wf_core_NoDup _ _ _ Hwf) as Hnd.
  assert (p ≠ q) as Hpq.
  { apply NoDup_app in Hnd as (_ & _ & Hnd). apply NoDup_cons in Hnd as [? _]. set_solver. }
  destruct Hwf as [Wl Wh Wn Wp Wk].
  assert (getLocation l = Some (length b1)) as Hloc.
  { destruct (proj1 (Wl (length b1) p)) as (l' & ? & ?); [|by simplify_eq].
    by rewrite lookup_app_r, Nat.sub_diag by lia. }
  assert (getLocation lq = Some (S (length b1 + length b2))) as Hlocq.
  { destruct (proj1 (Wl (S (length b1 + length b2)) q)) as (l' & ? & ?); [|by simplify_eq].
    rewrite lookup_app_r by lia.
    replace (S (length b1 + length b2) - length b1)%nat with (S (length b2)) by lia.
    simpl. by rewrite lookup_app_r, Nat.sub_diag by lia. }
  assert (forall r lr r' lr' i, hp !! r = Some lr -> hp !! r' = Some lr' ->
            getLocation lr = Some i -> getLocation lr' = Some i -> r = r') as Huniq.
  { intros r lr r' lr' i Hr Hr' Hi Hi'.
    pose proof (proj2 (Wl i r) (ex_intro _ lr (conj Hr Hi))).
    pose proof (proj2 (Wl i r') (ex_intro _ lr' (conj Hr' Hi'))). congruence. }
  split.
  - intros j r. rewrite lookup_after_move, Wl by done.
    setoid_rewrite lookup_moved; [|done..]. split.
    + intros [[-> ->]|(? & ? & lr & ? & ?)]; [|by eauto 10].
      exists (setLocation (Some (length b1)) lq). auto.
    + intros (lr & [[-> ->]|[[-> ->]|(? & ? & ?)]] & Hj); [done| |by eauto 10].
      left. split; [done|]. by injection Hj.
  - intros r lr. rewrite lookup_moved by done.
    intros [[-> ->]|[[-> ->]|(? & ? & ?)]]; [done|done|by eauto].
  - intros h. apply NoDup_link; [by repeat apply NoDup_unlink|].
    rewrite !elem_of_unlink, Wp by (by repeat apply NoDup_unlink).
    intros [[(r & lr & Hr & Hi & Hh) Hne] _].
    assert (r = p) as -> by eauto. simplify_eq. by apply Hne.
  - intros h j. rewrite elem_of_link, !elem_of_unlink, Wp by (by repeat apply NoDup_unlink).
    setoid_rewrite lookup_moved; [|done..]. split.
    + intros [[[(r & lr & Hr & Hj & Hh) Hn1] Hn2]|[Hh ->]].
      * exists r, lr. split_and!; [|done..]. right; right.
        split_and!; [| |done]; intros ->; simplify_eq; [by apply Hn1|by apply Hn2].
      * exists q, (setLocation (Some (length b1)) lq). auto.
    + intros (r & lr & [[-> ->]|[[-> ->]|(? & ? & Hr)]] & Hj & Hh); [done| |].
      * right. split; [done|]. by injection Hj.
      * left. split_and!; [by eauto|intros _ ->..];
          [assert (r = p) by eauto|assert (r = q) by eauto]; done.
  - intros r lr h. rewrite lookup_moved by done.
    intros [[-> ->]|[[-> ->]|(? & ? & ?)]]; [done|exact (Wk q lq h Hlq)|by eauto].
Qed.

(** Nothing but the buffer-lists (and the positions stored in the objects)
    changes. *)
Record kept (lm lm' : ListenerManager B) : Prop := {
  kept_heap : same_objects (lm_heap lm') (lm_heap lm);
  kept_fire : m_FireList lm' = m_FireList lm;
  kept_del : m_DeleteList lm' = m_DeleteList lm;
  kept_fired : m_pFired lm' = m_pFired lm
}.

#[export] Instance kept_preorder : PreOrder kept.
Proof.
  split; [split; done|]. intros x y z [? ? ? ?] [? ? ? ?].
  split; [by etrans|congruence..].
Qed.

Abbreviation wf_lists lm := (wf_core (lm_heap lm) (m_BufferList lm) (lm_perf lm)) (only parsing).

(** The listener in slot [i] has been taken out. *)
Record detached (i : nat) (lm lm' : ListenerManager B) : Prop := {
  det_wf : wf_lists lm';
  det_buf : m_BufferList lm' = swap_remove i (m_BufferList lm);
  det_kept : kept lm lm';
  det_others q : m_BufferList lm !! i ≠ Some q ->
    unplace <$> lm_heap lm' !! q = unplace <$> lm_heap lm !! q;
  det_log : lm_onDeletion lm' = lm_onDeletion lm
}.

Lemma perf_unlink_eq h i (lm : ListenerManager B) :
  perf_unlink h (Some i) lm = set_perf (unlink h i (lm_perf lm)) lm.
Proof. by destruct h, lm. Qed.

Lemma m_remove_last lm b p :
  m_BufferList lm = b ++ [p] -> is_Some (lm_heap lm !! p) ->
  m_remove (Some (length b)) lm =
    Some (set_BufferList b (upd_listener (B:=B) p strip lm)).
Proof.
  intros Hb [l Hl]. unfold m_remove. rewrite Hb.
  rewrite bool_decide_eq_false_2 by (by destruct b).
  rewrite lookup_app_r, Nat.sub_diag by lia. simpl. rewrite Hl. simpl.
  rewrite length_app. simpl.
  replace (length b + 1 - 1)%nat with (length b) by lia. rewrite Nat.eqb_refl, andb_false_r.
  simpl. by rewrite Hb, pop_back_snoc.
Qed.

Lemma m_remove_middle lm b1 p b2 q l lq :
  m_BufferList lm = b1 ++ p :: b2 ++ [q] -> p ≠ q ->
  lm_heap lm !! p = Some l -> lm_heap lm !! q = Some lq ->
  getLocation lq = Some (S (length b1 + length b2)) ->
  m_remove (Some (length b1)) lm =
    Some (set_perf (link (getPerformanceBuffer lq) (length b1)
                      (unlink (getPerformanceBuffer lq) (S (length b1 + length b2)) (lm_perf lm)))
           (set_BufferList (b1 ++ q :: b2)
             (upd_listener (B:=B) q (setLocation (Some (length b1))) (upd_listener p strip lm)))).
Proof.
  intros Hb Hpq Hl Hlq Hloc. unfold m_remove. rewrite Hb.
  rewrite bool_decide_eq_false_2 by (by destruct b1).
  rewrite lookup_app_r, Nat.sub_diag by lia. simpl. rewrite Hl. simpl. rewrite Hb.
  replace (b1 ++ p :: b2 ++ [q]) with ((b1 ++ p :: b2) ++ [q]) by (by rewrite <- app_assoc).
  rewrite length_app. cbn [length].
  replace (length (b1 ++ p :: b2) + 1 - 1)%nat with (length (b1 ++ p :: b2)) by lia.
  rewrite lookup_app_r, Nat.sub_diag, length_app by lia. cbn [length lookup list_lookup].
  destruct (Nat.ltb_spec 1 (length b1 + S (length b2) + 1)%nat); [|lia].
  destruct (Nat.eqb_spec (length b1) (length b1 + S (length b2))); [lia|]. simpl.
  rewrite lookup_alter_ne, Hlq by done. simpl. rewrite Hloc.
  rewrite insert_app_l by (rewrite length_app; simpl; lia).
  rewrite insert_app_r_alt, Nat.sub_diag by lia. simpl.
  destruct (getPerformanceBuffer lq); simpl; unfold perf_unlink, set_BufferList, set_perf; simpl;
    rewrite <- app_assoc; simpl; f_equal; f_equal;
    replace (b1 ++ q :: b2 ++ [q]) with ((b1 ++ q :: b2) ++ [q]) by (by rewrite <- app_assoc);
    apply pop_back_snoc.
Qed.

Lemma detach lm i p l :
  wf_core (lm_heap lm) (m_BufferList lm) (lm_perf lm) ->
  m_BufferList lm !! i = Some p -> lm_heap lm !! p = Some l ->
  exists lm', m_remove (Some i) (perf_unlink (getPerformanceBuffer l) (Some i) lm) = Some lm' /\
    detached i lm lm' /\ lm_heap lm' !! p = Some (strip l).
Proof.
  intros Hwf Hi Hl. rewrite perf_unlink_eq.
  destruct (lookup_split _ _ _ Hi) as (b1 & <- & [Hb|(b2 & q & Hb)]).
  - eexists. split; [apply m_remove_last; [exact Hb|eauto]|].
    rewrite Hb in Hwf. split; [split; [| |split| |]; simpl; try done|].
    + by apply wf_core_pop.
    + by rewrite Hb, swap_remove_last.
    + by apply same_objects_alter.
    + intros r Hr. rewrite lookup_alter_ne by congruence. done.
    + simpl. by rewrite lookup_alter_eq, Hl.
  - assert (m_BufferList lm !! S (length b1 + length b2) = Some q) as Hq.
    { rewrite Hb, lookup_app_r by lia.
      replace (S (length b1 + length b2) - length b1)%nat with (S (length b2)) by lia.
      simpl. by rewrite lookup_app_r, Nat.sub_diag by lia. }
    assert (p ≠ q).
    { pose proof (wf_core_NoDup _ _ _ Hwf) as Hnd. intros ->.
      pose proof (NoDup_lookup _ _ _ _ Hnd Hi Hq). lia. }
    apply (wf_loc _ _ _ Hwf) in Hq as (lq & Hlq & Hloc).
    eexists. split; [by eapply (m_remove_middle _ b1 p b2 q l lq)|].
    rewrite Hb in Hwf. split; [split; [| |split| |]; simpl; try done|].
    + by apply wf_core_move.
    + by rewrite Hb, swap_remove_middle.
    + rewrite same_objects_alter by done. by apply same_objects_alter.
    + intros r Hr. destruct (decide (r = q)) as [->|].
      * rewrite lookup_alter_eq, lookup_alter_ne, Hlq by done. done.
      * rewrite !lookup_alter_ne by congruence. done.
    + simpl. by rewrite lookup_alter_ne, lookup_alter_eq, Hl.
Qed.

(** *** Adding *)

Lemma alter_as_insert (f : Listener -> Listener) p (hp : gmap ptr Listener) l :
  hp !! p = Some l -> alter f p hp = <[p := f l]> hp.
Proof.
  intros Hl. apply map_eq. intros q. destruct (decide (q = p)) as [->|].
  - by rewrite lookup_alter_eq, lookup_insert_eq, Hl.
  - by rewrite lookup_alter_ne, lookup_insert_ne.
Qed.

Lemma wf_core_push hp buf pb p l l' :
  wf_core hp buf pb -> hp !! p = Some l -> getLocation l = None ->
  getLocation l' = Some (length buf) ->
  (forall h, getPerformanceBuffer l' = Some h -> home_class h (l_class l')) ->
  wf_core (<[p := l']> hp) (buf ++ [p]) (link (getPerformanceBuffer l') (length buf) pb).
Proof.
  intros Hwf Hl Hnone Hloc Hk. destruct Hwf as [Wl Wh Wn Wp Wk].
  assert (forall r lr i, hp !! r = Some lr -> getLocation lr = Some i ->
            r ≠ p /\ (i < length buf)%nat) as Hold.
  { intros r lr i Hr Hi. split; [intros ->; congruence|].
    eapply lookup_lt_Some, Wl. eauto. }
  assert (forall r lr, <[p := l']> hp !! r = Some lr <->
            (r = p /\ lr = l') \/ (r ≠ p /\ hp !! r = Some lr)) as Hins.
  { intros r lr. rewrite lookup_insert_Some. naive_solver. }
  split.
  - intros i r. rewrite lookup_app_Some, list_lookup_singleton_Some, Wl.
    setoid_rewrite Hins. split.
    + intros [(lr & Hr & Hi)|(? & ? & <-)].
      * destruct (Hold _ _ _ Hr Hi). eauto 10.
      * exists l'. split; [auto|]. rewrite Hloc. f_equal. lia.
    + intros (lr & [[-> ->]|[Hne Hr]] & Hi); [right|left; eauto].
      assert (i = length buf) as -> by congruence. split; [lia|]. split; [lia|done].
  - intros r lr. rewrite Hins. intros [[-> ->]|[? ?]]; [congruence|eauto].
  - intros h. apply NoDup_link; [done|]. rewrite Wp. intros (r & lr & Hr & Hi & _).
    apply (Hold _ _ _ Hr) in Hi. lia.
  - intros h i. rewrite elem_of_link, Wp. setoid_rewrite Hins. split.
    + intros [(r & lr & Hr & Hi & Hh)|[Hh ->]]; [|by eauto 10].
      destruct (Hold _ _ _ Hr Hi). eauto 10.
    + intros (r & lr & [[-> ->]|[Hne Hr]] & Hi & Hh); [|by eauto 10].
      right. split; [done|congruence].
  - intros r lr h. rewrite Hins. intros [[-> ->]|[? ?]]; [by apply Hk|by eauto].
Qed.

(** The listener [add] puts into the buffer-list. *)
Definition added (pExp : option flow) (h : option perfbuf) (i : nat) (l : Listener) : Listener :=
  setLocation (Some i) (setPerformanceBuffer h (setParent pExp l)).

Lemma add_eq li l pExp (lm : ListenerManager B) :
  lm_heap lm !! li = Some l -> getCounter l ≠ 0 ->
  add li pExp lm =
    Some (set_BufferList (m_BufferList lm ++ [li])
           (set_heap (<[li := added pExp None (length (m_BufferList lm)) l]> (lm_heap lm)) lm)).
Proof.
  intros Hl Hc. unfold add. rewrite Hl. simpl.
  destruct (Z.eqb_spec (getCounter l) 0); [done|].
  unfold upd_listener, set_heap, set_BufferList. simpl. rewrite length_app. simpl.
  rewrite (alter_as_insert _ _ _ _ Hl).
  rewrite (alter_as_insert _ _ _ _ (lookup_insert_eq _ _ _)), insert_insert_eq.
  by rewrite Nat.add_sub.
Qed.

Lemma add_perf_eq h li l pExp (lm : ListenerManager B) :
  lm_heap lm !! li = Some l ->
  add_perf h li pExp lm =
    Some (set_perf (link (Some h) (length (m_BufferList lm)) (lm_perf lm))
           (set_BufferList (m_BufferList lm ++ [li])
             (set_heap (<[li := added pExp (Some h) (length (m_BufferList lm)) l]> (lm_heap lm)) lm))).
Proof.
  intros Hl. unfold add_perf. rewrite Hl. simpl.
  unfold upd_listener, set_heap, set_BufferList, set_perf. simpl. rewrite length_app. simpl.
  rewrite (alter_as_insert _ _ _ _ Hl).
  rewrite (alter_as_insert _ _ _ _ (lookup_insert_eq _ _ _)), insert_insert_eq.
  by rewrite Nat.add_sub.
Qed.

(** *** The removal loop *)

Definition parent_of (lm : ListenerManager B) (p : ptr) : option (option flow) :=
  getParent <$> lm_heap lm !! p.

Lemma kept_parent lm lm' p : kept lm lm' -> parent_of lm' p = parent_of lm p.
Proof.
  intros [E _ _ _]. unfold parent_of. pose proof (f_equal (lookup p) E) as E'.
  rewrite !lookup_fmap in E'. pose proof (f_equal (fmap getParent) E') as E''.
  rewrite <- !option_fmap_compose in E''. exact E''.
Qed.

Lemma detached_parent_filter lm lm' (P : option (option flow) -> Prop) 
    `{!forall p, Decision (P (parent_of lm' p)), !forall p, Decision (P (parent_of lm p))}
    (ps : list ptr) :
  kept lm lm' -> filter (fun p => P (parent_of lm' p)) ps = filter (fun p => P (parent_of lm p)) ps.
Proof. intros Hk. apply list_filter_iff. intros p. by rewrite (kept_parent _ _ _ Hk). Qed.

(** The listeners that remain buffered are at most moved. *)
Definition remaining (lm lm' : ListenerManager B) : Prop :=
  forall q, q ∈ m_BufferList lm' ->
    q ∈ m_BufferList lm /\ unplace <$> lm_heap lm' !! q = unplace <$> lm_heap lm !! q.

Lemma remaining_trans lm1 lm2 lm3 : remaining lm1 lm2 -> remaining lm2 lm3 -> remaining lm1 lm3.
Proof.
  intros H12 H23 q Hq. destruct (H23 q Hq) as [Hq2 E2]. destruct (H12 q Hq2) as [Hq1 E1].
  split; [done|congruence].
Qed.

Lemma detached_remaining i p lm lm' :
  wf_lists lm -> m_BufferList lm !! i = Some p -> detached i lm lm' -> remaining lm lm'.
Proof.
  intros Hwf Hi [_ Hb _ Ho _] q Hq. rewrite Hb in Hq.
  pose proof (swap_remove_Permutation _ _ _ Hi) as Hp.
  pose proof (wf_core_NoDup _ _ _ Hwf) as Hnd. rewrite <- Hp in Hnd.
  apply NoDup_cons in Hnd as [Hn _]. split; [rewrite <- Hp; set_solver|].
  apply Ho. intros E. congruence.
Qed.

(** The outcome of dropping the listeners of flow [f] from slot [i] on. *)
Record dropped (f : option flow) (i : nat) (lm lm' : ListenerManager B) : Prop := {
  drop_wf : wf_lists lm';
  drop_kept : kept lm lm';
  drop_remaining : remaining lm lm';
  drop_front : take i (m_BufferList lm') = take i (m_BufferList lm);
  drop_rest : drop i (m_BufferList lm') ≡ₚ
              filter (fun p => parent_of lm p ≠ Some f) (drop i (m_BufferList lm));
  drop_log : exists gone, lm_onDeletion lm' = lm_onDeletion lm ++ gone /\
              gone ≡ₚ filter (fun p => parent_of lm p = Some f) (drop i (m_BufferList lm))
}.

Lemma dropped_end f i lm :
  wf_lists lm -> (length (m_BufferList lm) <= i)%nat -> dropped f i lm lm.
Proof.
  intros Hwf Hi. split; [done|done|by intros q Hq|done|..].
  - by rewrite drop_ge.
  - exists []. by rewrite app_nil_r, drop_ge.
Qed.

Lemma dropped_keep f i p lm lm' :
  m_BufferList lm !! i = Some p -> parent_of lm p ≠ Some f ->
  dropped f (S i) lm lm' -> dropped f i lm lm'.
Proof.
  intros Hi Hp [Hwf Hk Hrem Hfr Hre (gone & Hlog & Hgone)].
  assert (m_BufferList lm' !! i = Some p) as Hi'.
  { rewrite <- (lookup_take_lt _ (S i)), Hfr, lookup_take_lt by lia. done. }
  split; [done|done|done|..].
  - pose proof (f_equal (take i) Hfr) as E. by rewrite !take_take, !Nat.min_l in E by lia.
  - rewrite (drop_S _ _ _ Hi'), (drop_S _ _ _ Hi), filter_cons_True by done. by rewrite Hre.
  - exists gone. rewrite (drop_S _ _ _ Hi), filter_cons_False by (by intros ?). done.
Qed.

Lemma dropped_gone f i p lm lm1 lm' :
  wf_lists lm -> m_BufferList lm !! i = Some p -> parent_of lm p = Some f ->
  detached i (onDeletion p lm) lm1 -> dropped f i lm1 lm' -> dropped f i lm lm'.
Proof.
  intros Hwf0 Hi Hp Hdet [Hwf Hk Hrem Hfr Hre (gone & Hlog & Hgone)].
  assert (remaining lm lm1) as Hrem1 by exact (detached_remaining i p (onDeletion p lm) lm1 Hwf0 Hi Hdet).
  destruct Hdet as [_ Hbuf Hk1 _ Hlog1].
  simpl in Hbuf, Hlog1. assert (kept lm lm1) as Hk1' by (destruct Hk1; by split).
  pose proof (drop_swap_remove _ _ _ Hi) as Hd.
  rewrite Hbuf in Hre, Hgone, Hfr. rewrite (detached_parent_filter lm lm1 (fun x => x ≠ Some f)) in Hre by done.
  rewrite (detached_parent_filter lm lm1 (fun x => x = Some f)) in Hgone by done.
  split; [done|by etrans|by eapply remaining_trans|..].
  - by rewrite Hfr, (take_swap_remove _ _ p).
  - rewrite Hre, <- Hd, filter_cons_False by (intros Hne; by apply Hne). done.
  - exists (p :: gone). rewrite Hlog, Hlog1, <- app_assoc. split; [done|].
    rewrite <- Hd, filter_cons_True by done. by rewrite Hgone.
Qed.

Lemma remove_loop_spec f n i lm :
  wf_lists lm -> (length (m_BufferList lm) - i <= n)%nat ->
  exists lm', remove_loop n f i lm = Some lm' /\ dropped f i lm lm'.
Proof.
  revert i lm. induction n as [|n IH]; intros i lm Hwf Hn; cbn [remove_loop];
    destruct (Nat.ltb_spec i (length (m_BufferList lm))) as [Hi|Hi];
    try lia; eauto using dropped_end.
  destruct (lookup_lt_is_Some_2 _ _ Hi) as [p Hp]. rewrite Hp. obind.
  destruct (proj1 (wf_loc _ _ _ Hwf i p) Hp) as (l & Hl & _). rewrite Hl. obind.
  assert (parent_of lm p = Some (getParent l)) as Hpar by (unfold parent_of; by rewrite Hl).
  case_bool_decide as Hf.
  - destruct (detach (onDeletion p lm) i p l) as (lm1 & Hrm & Hdet & _); [done..|].
    rewrite Hrm. obind. destruct (IH i lm1) as (lm' & Hloop & Hdrop).
    + by destruct Hdet.
    + rewrite (det_buf _ _ _ Hdet). pose proof (length_swap_remove _ _ _ Hp). simpl. lia.
    + exists lm'. split; [done|]. eapply dropped_gone; eauto. congruence.
  - destruct (IH (S i) lm) as (lm' & Hloop & Hdrop); [done|lia|].
    exists lm'. split; [done|]. eapply dropped_keep; eauto. congruence.
Qed.

(** *** Updates of a listener's own data *)

(** An update that leaves the manager's view of the object alone. *)
Record benign (f : Listener -> Listener) : Prop := {
  benign_loc l : getLocation (f l) = getLocation l;
  benign_home l : getPerformanceBuffer (f l) = getPerformanceBuffer l;
  benign_class l h : home_class h (l_class l) -> home_class h (l_class (f l))
}.

Lemma benign_compose f g : benign f -> benign g -> benign (f ∘ g).
Proof.
  intros [Lf Hf Cf] [Lg Hg Cg]. split; unfold compose; simpl; intros l; [congruence|congruence|auto].
Qed.

Lemma benign_decreaseCounter : benign decreaseCounter.
Proof. by split. Qed.
Lemma benign_resetCounter : benign resetCounter.
Proof. by split. Qed.
Lemma benign_setParent f : benign (setParent f).
Proof. by split. Qed.

Lemma wf_core_alter f p hp buf pb :
  benign f -> wf_core hp buf pb -> wf_core (alter f p hp) buf pb.
Proof.
  intros [Lf Hf Cf] [Wl Wh Wn Wp Wk].
  assert (forall r lr, alter f p hp !! r = Some lr -> exists l0, hp !! r = Some l0 /\
            getLocation l0 = getLocation lr /\ getPerformanceBuffer l0 = getPerformanceBuffer lr /\
            (forall h, home_class h (l_class l0) -> home_class h (l_class lr))) as Hback.
  { intros r lr Hr. destruct (decide (r = p)) as [->|]; [|rewrite lookup_alter_ne in Hr; eauto].
    rewrite lookup_alter_eq in Hr. destruct (hp !! p) as [l|] eqn:E; simplify_option_eq. eauto 10. }
  assert (forall r l0, hp !! r = Some l0 -> exists lr, alter f p hp !! r = Some lr /\
            getLocation lr = getLocation l0 /\ getPerformanceBuffer lr = getPerformanceBuffer l0) as Hfwd.
  { intros r l0 Hr. destruct (decide (r = p)) as [->|]; [|rewrite lookup_alter_ne; eauto].
    rewrite lookup_alter_eq, Hr. simpl. eauto. }
  split.
  - intros i r. rewrite Wl. split.
    + intros (l0 & Hr & Hi). destruct (Hfwd _ _ Hr) as (lr & ? & ? & ?). exists lr. split; congruence.
    + intros (lr & Hr & Hi). destruct (Hback _ _ Hr) as (l0 & ? & ? & ? & ?). exists l0. split; congruence.
  - intros r lr Hr. destruct (Hback _ _ Hr) as (l0 & H0 & E1 & E2 & _).
    rewrite <- E1, <- E2. eauto.
  - done.
  - intros h i. rewrite Wp. split.
    + intros (r & l0 & Hr & Hi & Hh). destruct (Hfwd _ _ Hr) as (lr & ? & ? & ?).
      exists r, lr. split_and!; congruence.
    + intros (r & lr & Hr & Hi & Hh). destruct (Hback _ _ Hr) as (l0 & ? & ? & ? & ?).
      exists r, l0. split_and!; congruence.
  - intros r lr h Hr Hh. destruct (Hback _ _ Hr) as (l0 & ? & ? & ? & Hc). apply Hc.
    eapply Wk; eauto. congruence.
Qed.

Lemma wf_fire_dom hp hp' fire del :
  dom hp ⊆ dom hp' -> wf_fire hp fire del -> wf_fire hp' fire del.
Proof.
  intros Hd Hf p Hp. destruct (Hf p Hp) as [?|Hs]; [by left|right].
  apply elem_of_dom, Hd. by apply elem_of_dom.
Qed.

Lemma same_objects_dom hp hp' : same_objects hp hp' -> dom hp = dom hp'.
Proof. intros E. pose proof (f_equal dom E) as E'. by rewrite !dom_fmap_L in E'. Qed.

Lemma wf_kept lm lm' : wf lm -> kept lm lm' -> wf_lists lm' -> wf lm'.
Proof.
  intros [_ Hf] [Hh Hfi Hd _] Hwf. split; [done|]. rewrite Hfi, Hd.
  eapply wf_fire_dom; [|done]. by rewrite (same_objects_dom _ _ Hh).
Qed.

(** *** The delete-list *)

Lemma wf_fire_more hp fire del del' :
  wf_fire hp fire del -> (forall p, p ∈ fire -> p ∈ del -> p ∈ del') -> wf_fire hp fire del'.
Proof. intros Hf Hsub p Hp. destruct (Hf p Hp); eauto. Qed.

Lemma delete_active_spec f fire (lm : ListenerManager B) :
  wf_fire (lm_heap lm) fire (m_DeleteList lm) ->
  exists more, delete_active f fire lm = Some (set_DeleteList (m_DeleteList lm ++ more) lm) /\
    forall p, p ∈ more <-> p ∈ fire /\ (p ∉ m_DeleteList lm) /\ (f = None \/ parent_of lm p = Some f).
Proof.
  revert lm. induction fire as [|q fire IH]; intros lm Hwf; cbn [delete_active].
  { exists []. rewrite app_nil_r. split; [by destruct lm|set_solver]. }
  assert (wf_fire (lm_heap lm) fire (m_DeleteList lm)) as Hwf' by (intros r Hr; apply Hwf; set_solver).
  case_bool_decide as Hq.
  { destruct (IH lm Hwf') as (more & E & Hm). exists more. split; [done|]. set_solver. }
  assert (forall keep : bool, (keep = true <-> f = None \/ parent_of lm q = Some f) ->
    exists more,
     (if keep then delete_active f fire (set_DeleteList (m_DeleteList lm ++ [q]) lm)
      else delete_active f fire lm) = Some (set_DeleteList (m_DeleteList lm ++ more) lm) /\
     forall p, p ∈ more <-> p ∈ q :: fire /\ (p ∉ m_DeleteList lm) /\
                            (f = None \/ parent_of lm p = Some f)) as Hstep.
  { intros [] Hk.
    - destruct (IH (set_DeleteList (m_DeleteList lm ++ [q]) lm)) as (more & E & Hm).
      { eapply wf_fire_more; [done|]. set_solver. }
      exists (q :: more). rewrite E. simpl. rewrite <- app_assoc. split; [done|].
      intros p. rewrite !elem_of_cons, Hm. unfold parent_of in *. simpl.
      rewrite not_elem_of_app, list_elem_of_singleton.
      destruct (decide (p = q)) as [->|]; [|tauto]. split; [|auto].
      intros _. split_and!; [by left|done|by apply Hk].
    - destruct (IH lm Hwf') as (more & E & Hm). exists more. split; [done|].
      intros p. rewrite Hm, elem_of_cons. destruct (decide (p = q)) as [->|]; [|tauto].
      split; [tauto|]. intros (_ & _ & Hf). apply Hk in Hf. done. }
  destruct f as [f|]; [|apply (Hstep true); tauto].
  destruct (Hwf q) as [?|[l Hl]]; [set_solver|done|]. rewrite Hl. obind.
  destruct (Hstep (bool_decide (getParent l = Some f))) as (more & E & Hm).
  - rewrite bool_decide_eq_true. unfold parent_of. rewrite Hl. simpl. split; [intros ->; auto|by intros [?|[= ->]]].
  - exists more. split; [|done]. by destruct (bool_decide _).
Qed.

(** *** Specifications of the operations *)

Lemma strip_id l : getLocation l = None -> getPerformanceBuffer l = None -> strip l = l.
Proof. destruct l as [[] c]; simpl. unfold strip. cbn. by intros -> ->. Qed.

Lemma elem_of_swap_remove i p (b : list ptr) :
  NoDup b -> b !! i = Some p -> swap_remove i b ≡ₚ filter (fun q => q ≠ p) b.
Proof.
  intros Hnd Hi. pose proof (swap_remove_Permutation _ _ _ Hi) as Hp.
  etrans; [|by apply filter_Permutation, Hp]. rewrite <- Hp in Hnd.
  apply NoDup_cons in Hnd as [Hn _]. rewrite filter_cons_False by naive_solver.
  rewrite list_filter_all; [done|]. intros q Hq ->. done.
Qed.

Definition drop_one (li : ptr) (lm lm' : ListenerManager B) : Prop :=
  wf_lists lm' /\ kept lm lm' /\ remaining lm lm' /\
  m_BufferList lm' ≡ₚ filter (fun q => q ≠ li) (m_BufferList lm) /\
  strip <$> lm_heap lm !! li = lm_heap lm' !! li /\
  lm_onDeletion lm' = lm_onDeletion lm ++ (if decide (li ∈ m_BufferList lm) then [li] else []).

Lemma drop_one_detached li l i lm lm' :
  wf_lists lm -> m_BufferList lm !! i = Some li -> lm_heap lm !! li = Some l ->
  detached i (onDeletion li lm) lm' -> lm_heap lm' !! li = Some (strip l) -> drop_one li lm lm'.
Proof.
  intros Hwf Hi Hl Hdet Hstrip.
  assert (remaining lm lm') as Hrem by exact (detached_remaining i li (onDeletion li lm) lm' Hwf Hi Hdet).
  destruct Hdet as [Hwf' Hbuf [? ? ? ?] _ Hlog]. split_and!; [done|by split|done|..].
  - rewrite Hbuf. apply elem_of_swap_remove; [by eapply wf_core_NoDup|done].
  - by rewrite Hl, Hstrip.
  - rewrite decide_True by (by eapply list_elem_of_lookup_2). done.
Qed.

Lemma drop_one_absent li l lm :
  wf_lists lm -> lm_heap lm !! li = Some l -> getLocation l = None -> drop_one li lm lm.
Proof.
  intros Hwf Hl Hloc. assert (li ∉ m_BufferList lm) as Hn.
  { intros [i Hi]%list_elem_of_lookup. apply (wf_loc _ _ _ Hwf) in Hi as (? & ? & ?). congruence. }
  split_and!; [done|done|by intros q Hq|..].
  - rewrite list_filter_all; [done|]. intros q Hq ->. done.
  - rewrite Hl. simpl. rewrite strip_id; [done|done|]. by eapply (wf_home _ _ _ Hwf).
  - by rewrite decide_False, app_nil_r.
Qed.

Lemma remove_single_spec cur li l lm :
  wf lm -> lm_heap lm !! li = Some l ->
  exists lm1, drop_one li lm lm1 /\
    remove_listener cur (Some li) lm =
      Some (set_DeleteList (m_DeleteList lm ++ (if decide (li ∈ m_FireList lm) then [li] else [])) lm1).
Proof.
  intros [Hwf Hf] Hl. unfold remove_listener. rewrite Hl. obind.
  assert (exists lm1, match getLocation l with
    | Some loc => m_remove (Some loc) (perf_unlink (getPerformanceBuffer l) (Some loc) (onDeletion li lm))
    | None => Some lm end = Some lm1 /\ drop_one li lm lm1) as (lm1 & E & Hdrop).
  { destruct (getLocation l) as [i|] eqn:Hloc; [|by eauto using drop_one_absent].
    assert (m_BufferList lm !! i = Some li) as Hi by (apply (wf_loc _ _ _ Hwf); eauto).
    destruct (detach (onDeletion li lm) i li l) as (lm1 & E & Hdet & Hs); [done..|].
    eauto using drop_one_detached. }
  exists lm1. split; [done|]. rewrite E. obind.
  destruct Hdrop as (_ & [_ Hfi Hd _] & _). rewrite Hfi, <- Hd.
  case_bool_decide; [by rewrite decide_True|].
  rewrite decide_False, app_nil_r by done. by destruct lm1.
Qed.

Lemma wf_set_DeleteList lm del :
  wf lm -> m_DeleteList lm ⊆ del -> wf (set_DeleteList del lm).
Proof. intros [? Hf] Hs. split; [done|]. eapply wf_fire_more; [exact Hf|]. simpl. auto. Qed.

Lemma remove_single_wf cur li lm lm' :
  wf lm -> remove_listener cur (Some li) lm = Some lm' -> wf lm'.
Proof.
  intros Hwf E. destruct (lm_heap lm !! li) as [l|] eqn:Hl.
  - destruct (remove_single_spec cur li l lm Hwf Hl) as (lm1 & (H1 & Hk & _) & E').
    rewrite E' in E. simplify_eq. pose proof (kept_del _ _ Hk) as Hd. apply wf_set_DeleteList.
    + by eapply wf_kept.
    + rewrite Hd. set_solver.
  - unfold remove_listener in E. by rewrite Hl in E.
Qed.

(** *** Clearing everything *)

Lemma clear_listeners_spec ps lm bufs :
  (forall p, p ∈ ps -> is_Some (lm_heap lm !! p)) -> NoDup ps ->
  exists lm' bufs', clear_listeners ps lm bufs = Some (lm', bufs') /\ kept lm lm' /\
    m_BufferList lm' = m_BufferList lm /\ lm_perf lm' = lm_perf lm /\
    lm_onDeletion lm' = lm_onDeletion lm ++ ps /\
    (forall p, lm_heap lm' !! p = if decide (p ∈ ps) then strip <$> lm_heap lm !! p else lm_heap lm !! p) /\
    (forall h, h ∈ bufs' <-> h ∈ bufs \/ exists p l, p ∈ ps /\ lm_heap lm !! p = Some l /\
                                               getPerformanceBuffer l = Some h).
Proof.
  revert lm bufs. induction ps as [|p ps IH]; intros lm bufs Hex Hnd; cbn [clear_listeners].
  { exists lm, bufs. rewrite app_nil_r. split_and!; [done..| |]; set_solver. }
  apply NoDup_cons in Hnd as [Hp Hnd]. destruct (Hex p) as [l Hl]; [set_solver|].
  rewrite Hl. obind.
  set (lm1 := upd_listener p _ _).
  assert (forall q, q ≠ p -> lm_heap lm1 !! q = lm_heap lm !! q) as Hne.
  { intros q Hq. unfold lm1. simpl. by rewrite lookup_alter_ne. }
  assert (forall q, q ∈ ps -> lm_heap lm1 !! q = lm_heap lm !! q) as Hps.
  { intros q Hq. apply Hne. by intros ->. }
  destruct (IH lm1 (match getPerformanceBuffer l with Some h => h :: bufs | None => bufs end))
    as (lm' & bufs' & E & Hk & Hb & Hpf & Hlog & Hheap & Hbufs); [|done|].
  { intros q Hq. rewrite Hps by done. apply Hex. set_solver. }
  exists lm', bufs'. split_and!; [exact E| |exact Hb|exact Hpf| | |].
  - etrans; [|exact Hk]. split; simpl; [by apply same_objects_alter|done..].
  - rewrite Hlog. simpl. by rewrite <- app_assoc.
  - intros q. rewrite Hheap. destruct (decide (q = p)) as [->|Hq].
    + rewrite decide_False, decide_True by set_solver. unfold lm1. simpl. by rewrite lookup_alter_eq, Hl.
    + rewrite Hne by done. destruct (decide (q ∈ ps)).
      * by rewrite decide_True by set_solver.
      * by rewrite decide_False by set_solver.
  - intros h. rewrite Hbufs. split.
    + intros [Hh|(q & lq & Hq & Hlq & Hh)]; [|rewrite Hps in Hlq by done; right; exists q, lq; set_solver].
      destruct (getPerformanceBuffer l) eqn:Hhome; [|by left].
      apply elem_of_cons in Hh as [->|]; [right; exists p, l; set_solver|by left].
    + intros [Hh|(q & lq & [->|Hq]%elem_of_cons & Hlq & Hh)].
      * left. destruct (getPerformanceBuffer l); set_solver.
      * simplify_eq. rewrite Hh. set_solver.
      * right. exists q, lq. by rewrite Hps.
Qed.

Lemma perf_clear_all (hs : list perfbuf) (pb : PerfBuffers B) h :
  pb_elems (perf_get h (foldr (fun h pb => perf_alter h pb_clear pb) pb hs)) =
  if decide (h ∈ hs) then [] else pb_elems (perf_get h pb).
Proof.
  induction hs as [|k hs IH]; [done|]. cbn [foldr]. destruct (decide (k = h)) as [->|Hne].
  - rewrite perf_get_alter_eq, pb_elems_clear. by rewrite decide_True by set_solver.
  - rewrite perf_get_alter_ne, IH by done. destruct (decide (h ∈ hs)).
    + by rewrite decide_True by set_solver.
    + by rewrite decide_False by set_solver.
Qed.

(** The state after [remove(0)]. *)
Record cleared (lm lm' : ListenerManager B) : Prop := {
  clr_wf : wf lm';
  clr_buf : m_BufferList lm' = [];
  clr_perf h : pb_elems (perf_get h (lm_perf lm')) = [];
  clr_heap : same_objects (lm_heap lm') (lm_heap lm);
  clr_fire : m_FireList lm' = m_FireList lm;
  clr_del p : p ∈ m_DeleteList lm' <-> p ∈ m_DeleteList lm \/ p ∈ m_FireList lm;
  clr_log : lm_onDeletion lm' = lm_onDeletion lm ++ m_BufferList lm
}.

Lemma delete_active_all (lm : ListenerManager B) :
  (forall p, p ∈ m_FireList lm -> p ∈ m_DeleteList lm) ->
  delete_active None (m_FireList lm) lm = Some lm.
Proof.
  generalize (m_FireList lm). intros ps. induction ps as [|p ps IH]; intros Hs; [done|].
  cbn [delete_active]. rewrite bool_decide_eq_true_2 by set_solver. apply IH. set_solver.
Qed.

Lemma wf_core_nil hp (pb : PerfBuffers B) :
  (forall p l, hp !! p = Some l -> getLocation l = None /\ getPerformanceBuffer l = None) ->
  (forall h, pb_elems (perf_get h pb) = []) -> wf_core hp [] pb.
Proof.
  intros Hh Hp. split.
  - intros i p. split; [done|]. intros (l & Hl & Hi). apply Hh in Hl as [? _]. congruence.
  - intros p l Hl _. by apply Hh in Hl as [_ ?].
  - intros h. rewrite Hp. constructor.
  - intros h i. rewrite Hp. split; [set_solver|]. intros (p & l & Hl & Hi & _).
    apply Hh in Hl as [? _]. congruence.
  - intros p l h Hl E. apply Hh in Hl as [_ ?]. congruence.
Qed.

Lemma remove_all_spec lm :
  wf lm -> exists lm', remove_flow None lm = Some lm' /\ cleared lm lm'.
Proof.
  intros [Hwf Hf]. unfold remove_flow.
  destruct (clear_listeners_spec (m_BufferList lm) lm [])
    as (lm2 & bufs & E & Hk & Hb & Hpf & Hlog & Hheap & Hbufs); [|by eapply wf_core_NoDup|].
  { intros p [i Hi]%list_elem_of_lookup. apply (wf_loc _ _ _ Hwf) in Hi as (l & ? & _). eauto. }
  rewrite E. obind.
  set (lm4 := set_DeleteList _ _). rewrite (delete_active_all lm4) by (subst lm4; set_solver).
  assert (forall h, pb_elems (perf_get h (lm_perf lm4)) = []) as Hperf.
  { intros h. subst lm4. simpl. rewrite perf_clear_all, Hpf. case_decide as Hh; [done|].
    destruct (pb_elems _) as [|i l] eqn:El; [done|].
    destruct Hh. apply Hbufs. right.
    destruct (proj1 (wf_perf _ _ _ Hwf h i)) as (p & lp & Hlp & Hi & Hh); [rewrite El; set_solver|].
    exists p, lp. split; [|done]. apply (list_elem_of_lookup_2 _ i), (wf_loc _ _ _ Hwf). eauto. }
  exists lm4. split; [done|]. destruct Hk as [Ho Hfi Hd _].
  assert (wf_lists lm4) as Hwf4.
  { apply wf_core_nil; [|exact Hperf]. intros p l Hl. subst lm4. simpl in Hl. rewrite Hheap in Hl.
    case_decide as Hp; [by destruct (lm_heap lm !! p); simplify_option_eq|].
    destruct (getLocation l) as [i|] eqn:Hi; [|by eauto using wf_home].
    destruct Hp. apply (list_elem_of_lookup_2 _ i), (wf_loc _ _ _ Hwf). eauto. }
  split; try done.
  - split; [done|]. subst lm4. simpl. rewrite Hfi. intros p Hp. left. set_solver.
  - intros p. subst lm4. simpl. rewrite Hfi, Hd. set_solver.
Qed.

(** *** Activation *)

Record activated (i : nat) (p : ptr) (l : Listener) (lm lm' : ListenerManager B) : Prop := {
  act_wf : wf lm';
  act_buf : m_BufferList lm' = swap_remove i (m_BufferList lm);
  act_fire : m_FireList lm' = m_FireList lm ++ [p];
  act_del : m_DeleteList lm' = m_DeleteList lm;
  act_fired : m_pFired lm' = m_pFired lm;
  act_self : lm_heap lm' !! p = Some (strip (resetCounter l));
  act_others q : q ≠ p -> unplace <$> lm_heap lm' !! q = unplace <$> lm_heap lm !! q;
  act_log : lm_onDeletion lm' = lm_onDeletion lm ++ [p]
}.

Lemma activate_listener_spec lm i p l :
  wf lm -> m_BufferList lm !! i = Some p -> lm_heap lm !! p = Some l ->
  exists lm',
    m_remove (Some i) (perf_unlink (getPerformanceBuffer l) (Some i)
      (onDeletion p (upd_listener p resetCounter (upd_listener p decreaseCounter lm)))) = Some lm' /\
    activated i p l lm (set_FireList (m_FireList lm' ++ [p]) lm').
Proof.
  intros [Hwf Hf] Hi Hl.
  set (lm2 := onDeletion p _).
  assert (lm_heap lm2 !! p = Some (resetCounter l)) as Hl2.
  { subst lm2. simpl. by rewrite !lookup_alter_eq, Hl. }
  destruct (detach lm2 i p (resetCounter l)) as (lm' & E & [Hwf' Hbuf [Ho Hfi Hd Hpf] Hoth Hlog] & Hs);
    [|done|done|].
  { subst lm2. simpl. repeat apply wf_core_alter;
      auto using benign_resetCounter, benign_decreaseCounter. }
  exists lm'. split; [exact E|]. simpl in *.
  assert (dom (lm_heap lm') = dom (lm_heap lm)) as Hdom.
  { rewrite (same_objects_dom _ _ Ho). simpl. by rewrite !dom_alter_L. }
  split; simpl; try done.
  - split; simpl; [done|]. rewrite Hfi, Hd. intros q [Hq|Hq%list_elem_of_singleton]%elem_of_app.
    + eapply wf_fire_dom; [|exact Hf|done]. by rewrite Hdom.
    + subst q. right. by rewrite Hs.
  - by rewrite Hfi.
  - intros q Hq. rewrite Hoth by congruence. by rewrite !lookup_alter_ne.
Qed.

(** The counter of a listener that is still counting. *)
Lemma decreaseCounter_counter l :
  1 <= getCounter l < 2 ^ 32 -> getCounter (decreaseCounter l) = getCounter l - 1.
Proof. intros Hc. unfold getCounter in *. simpl. rewrite u32_small; lia. Qed.

Lemma wf_upd f p lm : benign f -> wf lm -> wf (upd_listener (B:=B) p f lm).
Proof.
  intros Hb [Hwf Hf]. split; simpl; [by apply wf_core_alter|].
  eapply wf_fire_dom; [|exact Hf]. by rewrite dom_alter_L.
Qed.

Lemma makeActive_it_spec lm it p l :
  wf lm -> m_BufferList lm !! it = Some p -> lm_heap lm !! p = Some l ->
  getPerformanceBuffer l = None -> 1 <= getCounter l < 2 ^ 32 ->
  if 1 <? getCounter l then makeActive_it it lm = Some (S it, upd_listener p decreaseCounter lm)
  else exists lm', makeActive_it it lm = Some (it, lm') /\ activated it p l lm lm'.
Proof.
  intros Hwf Hi Hl Hh Hc. unfold makeActive_it. rewrite Hi. obind. rewrite Hl. obind.
  rewrite decreaseCounter_counter by done.
  replace (0 <? getCounter l - 1) with (1 <? getCounter l) by (bool_cases).
  destruct (1 <? getCounter l); [done|].
  assert (getLocation l = Some it) as Hloc.
  { destruct (proj1 (wf_loc _ _ _ (proj1 Hwf) it p) Hi) as (l' & ? & ?). congruence. }
  change (getPerformanceBuffer (decreaseCounter l)) with (getPerformanceBuffer l).
  change (getLocation (decreaseCounter l)) with (getLocation l). rewrite Hh, Hloc.
  destruct (activate_listener_spec lm it p l) as (lm' & E & Hact); [done..|].
  rewrite Hh in E. cbn [perf_unlink] in E. rewrite E. obind. eauto.
Qed.

Lemma makeActive_perf_spec lm p l i h :
  wf lm -> m_BufferList lm !! i = Some p -> lm_heap lm !! p = Some l ->
  getPerformanceBuffer l = Some h -> 1 <= getCounter l < 2 ^ 32 ->
  if 1 <? getCounter l then makeActive_perf p lm = Some (upd_listener p decreaseCounter lm)
  else exists lm', makeActive_perf p lm = Some lm' /\ activated i p l lm lm'.
Proof.
  intros Hwf Hi Hl Hh Hc. unfold makeActive_perf. rewrite Hl. obind. rewrite Hh.
  rewrite decreaseCounter_counter by done.
  replace (0 <? getCounter l - 1) with (1 <? getCounter l) by (bool_cases).
  destruct (1 <? getCounter l); [done|].
  assert (getLocation l = Some i) as Hloc.
  { destruct (proj1 (wf_loc _ _ _ (proj1 Hwf) i p) Hi) as (l' & ? & ?). congruence. }
  change (getLocation (decreaseCounter l)) with (getLocation l). rewrite Hloc.
  destruct (activate_listener_spec lm i p l) as (lm' & E & Hact); [done..|].
  rewrite Hh in E. rewrite E. obind. eauto.
Qed.
End invariant.
