(* ===== verification/ListenerTheorems.v ===== *)
(** * Correctness of the listener manager

    The clients of [ListenerManager] (experiments, through the simulator
    controller) and the event handlers as a step relation, the representation
    invariant along every interleaving of steps, and what each removal and
    activation operation does. *)
From S2P Require Import Prelude Events Listeners PerfBuffers ListenerManager.

Section theorems.
Context {B : Type} `{PerfBufferBase B}.
Implicit Types lm : ListenerManager B.

(** [delete li]: [BaseListener::~BaseListener] first removes the listener. *)
Definition destroy_listener (cur : option flow) (li : ptr) lm : option (ListenerManager B) :=
  lm1 ← remove_listener cur (Some li) lm;
  Some (set_heap (delete li (lm_heap lm1)) lm1).

(** ** Steps *)

(** What experiment code can do to the manager: create listeners, change their
    own data, add them (once) to one of the lists, remove and destroy them. *)
Inductive client_step (cur : option flow) lm : ListenerManager B -> Prop :=
| step_new p l :
    lm_heap lm !! p = None -> getLocation l = None -> getPerformanceBuffer l = None ->
    client_step cur lm (set_heap (<[p := l]> (lm_heap lm)) lm)
| step_update p f :
    benign f -> client_step cur lm (upd_listener p f lm)
| step_add li l pExp lm' :
    lm_heap lm !! li = Some l -> getLocation l = None ->
    add li pExp lm = Some lm' -> client_step cur lm lm'
| step_add_perf h li l pExp lm' :
    lm_heap lm !! li = Some l -> getLocation l = None -> home_class h (l_class l) ->
    add_perf h li pExp lm = Some lm' -> client_step cur lm lm'
| step_remove li lm' :
    remove_listener cur li lm = Some lm' -> client_step cur lm lm'
| step_remove_flow f lm' :
    remove_flow f lm = Some lm' -> client_step cur lm lm'
| step_destroy li lm' :
    destroy_listener cur li lm = Some lm' -> client_step cur lm lm'.

(** The event handlers additionally activate listeners and, after the
    triggering round, reset the fire- and delete-list. *)
Inductive lm_step lm : ListenerManager B -> Prop :=
| step_client cur lm' : client_step cur lm lm' -> lm_step lm lm'
| step_active_it it it' lm' l p :
    m_BufferList lm !! it = Some p -> lm_heap lm !! p = Some l -> 1 <= getCounter l < 2 ^ 32 ->
    makeActive_it it lm = Some (it', lm') -> lm_step lm lm'
| step_active_perf p l lm' :
    lm_heap lm !! p = Some l -> 1 <= getCounter l < 2 ^ 32 ->
    makeActive_perf p lm = Some lm' -> lm_step lm lm'
| step_fired p : lm_step lm (set_pFired p lm)
| step_done : lm_step lm (set_DeleteList [] (set_FireList [] lm)).

(** ** Preservation *)

Lemma wf_core_new hp buf (pb : PerfBuffers B) p l :
  wf_core hp buf pb -> hp !! p = None -> getLocation l = None -> getPerformanceBuffer l = None ->
  wf_core (<[p := l]> hp) buf pb.
Proof.
  intros [Wl Wh Wn Wp Wk] Hp Hloc Hh.
  assert (forall r lr, <[p := l]> hp !! r = Some lr <->
            (r = p /\ lr = l) \/ hp !! r = Some lr) as Hins.
  { intros r lr. rewrite lookup_insert_Some. split; [naive_solver|].
    intros [[-> ->]|Hr]; [by left|]. right. split; [intros ->; congruence|done]. }
  split.
  - intros i r. rewrite Wl. setoid_rewrite Hins. split; [naive_solver|].
    intros (lr & [[-> ->]|Hr] & Hi); [congruence|eauto].
  - intros r lr. rewrite Hins. intros [[-> ->]|Hr]; eauto.
  - done.
  - intros h i. rewrite Wp. setoid_rewrite Hins. split; [naive_solver|].
    intros (r & lr & [[-> ->]|Hr] & Hi & ?); [congruence|eauto].
  - intros r lr h. rewrite Hins. intros [[-> ->]|Hr]; [congruence|eauto].
Qed.

Lemma wf_core_destroy hp buf (pb : PerfBuffers B) p l :
  wf_core hp buf pb -> hp !! p = Some l -> getLocation l = None -> wf_core (delete p hp) buf pb.
Proof.
  intros [Wl Wh Wn Wp Wk] Hp Hloc.
  assert (forall r lr, delete p hp !! r = Some lr <-> r ≠ p /\ hp !! r = Some lr) as Hdel.
  { intros r lr. rewrite lookup_delete_Some. naive_solver. }
  assert (forall r lr i, hp !! r = Some lr -> getLocation lr = Some i -> r ≠ p) as Hne.
  { intros r lr i Hr Hi ->. congruence. }
  split.
  - intros i r. rewrite Wl. setoid_rewrite Hdel. naive_solver.
  - intros r lr. rewrite Hdel. naive_solver.
  - done.
  - intros h i. rewrite Wp. setoid_rewrite Hdel. naive_solver.
  - intros r lr h. rewrite Hdel. naive_solver.
Qed.

Lemma wf_fire_insert hp fire del p l :
  wf_fire hp fire del -> wf_fire (<[p := l]> hp) fire del.
Proof. apply wf_fire_dom. rewrite dom_insert_L. set_solver. Qed.

Lemma add_wf li l pExp lm lm' :
  wf lm -> lm_heap lm !! li = Some l -> getLocation l = None ->
  add li pExp lm = Some lm' -> wf lm'.
Proof.
  intros [Hwf Hf] Hl Hloc Hadd. destruct (decide (getCounter l = 0)) as [Hc|Hc].
  { unfold add in Hadd. rewrite Hl in Hadd. revert Hadd. obind. by rewrite Hc. }
  rewrite (add_eq _ _ _ _ Hl Hc) in Hadd. simplify_eq.
  split; simpl; [|by apply wf_fire_insert].
  apply (wf_core_push _ _ _ _ l (added pExp None (length (m_BufferList lm)) l)); done.
Qed.

Lemma add_perf_wf h li l pExp lm lm' :
  wf lm -> lm_heap lm !! li = Some l -> getLocation l = None -> home_class h (l_class l) ->
  add_perf h li pExp lm = Some lm' -> wf lm'.
Proof.
  intros [Hwf Hf] Hl Hloc Hk Hadd. rewrite (add_perf_eq _ _ _ _ _ Hl) in Hadd. simplify_eq.
  split; simpl; [|by apply wf_fire_insert].
  apply (wf_core_push _ _ _ _ l (added pExp (Some h) (length (m_BufferList lm)) l)); try done.
  by intros ? [= <-].
Qed.

Lemma remove_current_spec cur lm :
  wf lm -> exists lm1, dropped cur 0 lm lm1 /\
    remove_listener cur None lm = Some (set_DeleteList (m_DeleteList lm ++ m_FireList lm) lm1).
Proof.
  intros [Hwf Hf]. unfold remove_listener.
  destruct (remove_loop_spec cur (length (m_BufferList lm)) 0 lm) as (lm1 & E & Hd); [done|lia|].
  exists lm1. split; [done|]. rewrite E. obind.
  destruct Hd as [_ [_ Hfi Hde _] _ _ _ _]. by rewrite Hfi, Hde.
Qed.

Lemma wf_dropped f i lm lm1 : wf lm -> dropped f i lm lm1 -> wf lm1.
Proof. intros Hwf [? ? _ _ _ _]. by eapply wf_kept. Qed.

Lemma remove_listener_wf cur li lm lm' :
  wf lm -> remove_listener cur li lm = Some lm' -> wf lm'.
Proof.
  intros Hwf. destruct li as [li|]; [by apply remove_single_wf|].
  destruct (remove_current_spec cur lm Hwf) as (lm1 & Hd & ->). intros [= <-].
  apply wf_set_DeleteList; [by eapply wf_dropped|].
  rewrite (kept_del _ _ (drop_kept _ _ _ _ Hd)). set_solver.
Qed.

Lemma remove_flow_spec f lm :
  wf lm -> exists lm1 more, dropped (Some f) 0 lm lm1 /\
    remove_flow (Some f) lm = Some (set_DeleteList (m_DeleteList lm ++ more) lm1) /\
    forall p, p ∈ more <-> p ∈ m_FireList lm /\ (p ∉ m_DeleteList lm) /\ parent_of lm p = Some (Some f).
Proof.
  intros Hwf. unfold remove_flow.
  destruct (remove_loop_spec (Some f) (length (m_BufferList lm)) 0 lm) as (lm1 & E & Hd);
    [apply Hwf|lia|].
  rewrite E. obind. pose proof (drop_kept _ _ _ _ Hd) as Hk.
  destruct (delete_active_spec (Some f) (m_FireList lm1) lm1) as (more & E' & Hm).
  { apply (wf_dropped _ _ _ _ Hwf Hd). }
  exists lm1, more. split; [done|]. rewrite E'. pose proof Hk as [_ Hfi Hde _].
  rewrite Hde. split; [done|]. intros p. rewrite Hm, Hfi, Hde, (kept_parent _ _ _ Hk).
  naive_solver.
Qed.

Lemma remove_flow_wf f lm lm' : wf lm -> remove_flow f lm = Some lm' -> wf lm'.
Proof.
  intros Hwf. destruct f as [f|].
  - destruct (remove_flow_spec f lm Hwf) as (lm1 & more & Hd & -> & _). intros [= <-].
    apply wf_set_DeleteList; [by eapply wf_dropped|].
    rewrite (kept_del _ _ (drop_kept _ _ _ _ Hd)). set_solver.
  - destruct (remove_all_spec lm Hwf) as (lm1 & -> & Hc). intros [= <-]. apply Hc.
Qed.

Lemma destroy_listener_spec cur li l lm :
  wf lm -> lm_heap lm !! li = Some l ->
  exists lm', destroy_listener cur li lm = Some lm' /\ wf lm' /\
    lm_heap lm' !! li = None /\ (li ∉ m_BufferList lm') /\
    m_FireList lm' = m_FireList lm /\ (li ∈ m_FireList lm -> li ∈ m_DeleteList lm').
Proof.
  intros Hwf Hl. unfold destroy_listener.
  destruct (remove_single_spec cur li l lm Hwf Hl) as (lm1 & Hd & E). rewrite E. obind.
  pose proof (remove_single_wf _ _ _ _ Hwf E) as [Hwf1 Hf1].
  destruct Hd as (_ & Hk & _ & Hb & Hs & _). rewrite Hl in Hs. simpl in Hs.
  pose proof Hk as [_ Hfi Hde _].
  eexists. split; [done|]. simpl in *. split_and!.
  - split; simpl; [by eapply wf_core_destroy|]. intros p Hp.
    destruct (decide (p = li)) as [->|Hne].
    + left. rewrite decide_True by congruence. set_solver.
    + rewrite lookup_delete_ne by done. by apply Hf1.
  - apply lookup_delete_eq.
  - rewrite Hb, list_elem_of_filter. naive_solver.
  - done.
  - intros Hin. rewrite decide_True by done. set_solver.
Qed.

Lemma client_step_wf cur lm lm' : wf lm -> client_step cur lm lm' -> wf lm'.
Proof.
  intros Hwf [p l Hp Hloc Hh|p f Hf|li l pExp lm1 Hl Hloc E|h li l pExp lm1 Hl Hloc Hk E
             |li lm1 E|f lm1 E|li lm1 E].
  - destruct Hwf as [Hwf Hf]. split; simpl; [by apply wf_core_new|by apply wf_fire_insert].
  - by apply wf_upd.
  - by eapply add_wf.
  - by eapply add_perf_wf.
  - by eapply remove_listener_wf.
  - by eapply remove_flow_wf.
  - destruct (lm_heap lm !! li) as [l|] eqn:Hl.
    + destruct (destroy_listener_spec cur li l lm Hwf Hl) as (lm2 & E' & ? & _). congruence.
    + unfold destroy_listener, remove_listener in E. by rewrite Hl in E.
Qed.

Lemma client_step_fire cur lm lm' :
  wf lm -> client_step cur lm lm' -> m_FireList lm' = m_FireList lm.
Proof.
  intros Hwf [p l Hp Hloc Hh|p f Hf|li l pExp lm1 Hl Hloc E|h li l pExp lm1 Hl Hloc Hk E
             |[li|] lm1 E|[f|] lm1 E|li lm1 E]; try done.
  - destruct (decide (getCounter l = 0)) as [Hc|Hc].
    + unfold add in E. rewrite Hl in E. revert E. obind. by rewrite Hc.
    + rewrite (add_eq _ _ _ _ Hl Hc) in E. by simplify_eq.
  - rewrite (add_perf_eq _ _ _ _ _ Hl) in E. by simplify_eq.
  - destruct (lm_heap lm !! li) as [l|] eqn:Hl; [|unfold remove_listener in E; by rewrite Hl in E].
    destruct (remove_single_spec cur li l lm Hwf Hl) as (lm2 & (_ & Hk & _) & E').
    rewrite E' in E. simplify_eq. apply Hk.
  - destruct (remove_current_spec cur lm Hwf) as (lm2 & Hd & E').
    rewrite E' in E. simplify_eq. apply Hd.
  - destruct (remove_flow_spec f lm Hwf) as (lm2 & more & Hd & E' & _).
    rewrite E' in E. simplify_eq. apply Hd.
  - destruct (remove_all_spec lm Hwf) as (lm2 & E' & Hc). rewrite E' in E. simplify_eq. apply Hc.
  - destruct (lm_heap lm !! li) as [l|] eqn:Hl.
    + destruct (destroy_listener_spec cur li l lm Hwf Hl) as (lm2 & E' & _ & _ & _ & ? & _). congruence.
    + unfold destroy_listener, remove_listener in E. by rewrite Hl in E.
Qed.

Lemma client_steps_inv cur lm lm' :
  wf lm -> rtc (client_step cur) lm lm' -> wf lm' /\ m_FireList lm' = m_FireList lm.
Proof.
  intros Hwf Hs. induction Hs as [lm|lm lm1 lm2 Hstep _ IH]; [done|].
  pose proof (client_step_wf _ _ _ Hwf Hstep) as Hwf1.
  pose proof (client_step_fire _ _ _ Hwf Hstep). destruct (IH Hwf1). split; congruence.
Qed.

Lemma counting_wf p lm : wf lm -> wf (upd_listener p decreaseCounter lm).
Proof. apply wf_upd, benign_decreaseCounter. Qed.

(** [makeActive(iterator)] asserts that the listener has no fast path. *)
Lemma makeActive_it_linked lm it p l h :
  m_BufferList lm !! it = Some p -> lm_heap lm !! p = Some l ->
  getPerformanceBuffer l = Some h -> 1 <= getCounter l < 2 ^ 32 ->
  makeActive_it it lm =
    if 1 <? getCounter l then Some (S it, upd_listener p decreaseCounter lm) else None.
Proof.
  intros Hi Hl Hh Hc. unfold makeActive_it. rewrite Hi. obind. rewrite Hl. obind.
  rewrite decreaseCounter_counter by done.
  change (getPerformanceBuffer (decreaseCounter l)) with (getPerformanceBuffer l). rewrite Hh.
  bool_cases; done.
Qed.

Lemma makeActive_it_wf lm it it' p l lm' :
  wf lm -> m_BufferList lm !! it = Some p -> lm_heap lm !! p = Some l ->
  1 <= getCounter l < 2 ^ 32 -> makeActive_it it lm = Some (it', lm') -> wf lm'.
Proof.
  intros Hwf Hi Hl Hc E. destruct (getPerformanceBuffer l) as [h|] eqn:Hh.
  - rewrite (makeActive_it_linked _ _ _ _ _ Hi Hl Hh Hc) in E.
    destruct (1 <? getCounter l); simplify_eq. by apply counting_wf.
  - pose proof (makeActive_it_spec lm it p l Hwf Hi Hl Hh Hc) as Hspec.
    destruct (1 <? getCounter l).
    + rewrite Hspec in E. simplify_eq. by apply counting_wf.
    + destruct Hspec as (lm2 & E' & Hact). rewrite E' in E. simplify_eq. apply Hact.
Qed.

(** A listener on a performance buffer-list is buffered. *)
Lemma linked_slot lm p l h :
  wf lm -> lm_heap lm !! p = Some l -> getPerformanceBuffer l = Some h ->
  exists i, m_BufferList lm !! i = Some p.
Proof.
  intros [Hwf _] Hl Hh. destruct (getLocation l) as [i|] eqn:Hloc.
  - exists i. apply (wf_loc _ _ _ Hwf). eauto.
  - pose proof (wf_home _ _ _ Hwf _ _ Hl Hloc). congruence.
Qed.

Lemma makeActive_perf_wf lm p l lm' :
  wf lm -> lm_heap lm !! p = Some l -> 1 <= getCounter l < 2 ^ 32 ->
  makeActive_perf p lm = Some lm' -> wf lm'.
Proof.
  intros Hwf Hl Hc E. destruct (getPerformanceBuffer l) as [h|] eqn:Hh.
  - destruct (linked_slot lm p l h Hwf Hl Hh) as [i Hi].
    pose proof (makeActive_perf_spec lm p l i h Hwf Hi Hl Hh Hc) as Hspec.
    destruct (1 <? getCounter l).
    + rewrite Hspec in E. simplify_eq. by apply counting_wf.
    + destruct Hspec as (lm2 & E' & Hact). rewrite E' in E. simplify_eq. apply Hact.
  - unfold makeActive_perf in E. rewrite Hl in E. cbn [mbind option_bind] in E.
    rewrite Hh in E. by simplify_eq.
Qed.

Lemma lm_step_wf lm lm' : wf lm -> lm_step lm lm' -> wf lm'.
Proof.
  intros Hwf [cur lm1 Hc|it it' lm1 l p Hi Hl Hcnt E|p l lm1 Hl Hcnt E|p|].
  - by eapply client_step_wf.
  - by eapply makeActive_it_wf.
  - by eapply makeActive_perf_wf.
  - by destruct Hwf.
  - destruct Hwf as [Hwf _]. split; [done|]. intros p Hp. set_solver.
Qed.

Lemma wf_new_ListenerManager : wf new_ListenerManager.
Proof.
  split; simpl; [|intros p Hp; set_solver].
  apply wf_core_nil; [by intros p l|]. intros []; simpl; apply pb_elems_empty.
Qed.

Lemma reachable_wf lm lm' : wf lm -> rtc lm_step lm lm' -> wf lm'.
Proof. intros Hwf Hs. induction Hs; eauto using lm_step_wf. Qed.

(** *** The triggering round *)

(** A handler contract: on a live, active listener that has not been removed,
    the experiment runs and only uses the client operations.  [I] is what the
    program state satisfies between two handlers. *)
Record handler_ok {W : Type} (I : W -> ListenerManager B -> Prop)
    (onTrigger : ptr -> W -> ListenerManager B -> option (W * ListenerManager B)) : Prop := {
  ho_fired p w lm : I w lm -> I w (set_pFired p lm);
  ho_run p w lm : wf lm -> I w lm -> is_Some (lm_heap lm !! p) ->
    p ∈ m_FireList lm -> p ∉ m_DeleteList lm ->
    exists cur w' lm', onTrigger p w lm = Some (w', lm') /\ I w' lm' /\ rtc (client_step cur) lm lm'
}.

Lemma trigger_loop_spec {W : Type} (I : W -> ListenerManager B -> Prop) onTrigger it w lm :
  handler_ok I onTrigger -> wf lm -> I w lm -> (forall p, p ∈ it -> p ∈ m_FireList lm) ->
  exists w' lm', trigger_loop onTrigger it w lm = Some (w', lm') /\ wf lm' /\ I w' lm'.
Proof.
  intros Hok. revert w lm.
  induction it as [|p it IH]; intros w lm Hwf Hw Hit; cbn [trigger_loop]; [eauto|].
  case_bool_decide as Hp; [apply IH; set_solver|].
  destruct (proj2 Hwf p) as [?|Halive]; [apply Hit; set_solver|done|].
  destruct (ho_run _ _ Hok p w (set_pFired (Some p) lm)) as (cur & w1 & lm1 & E & Hw1 & Hs);
    [by destruct Hwf|by apply Hok|done|apply Hit; set_solver|done|].
  rewrite E. obind.
  destruct (client_steps_inv cur (set_pFired (Some p) lm) lm1) as [Hwf1 Hfire]; [by destruct Hwf|done|].
  simpl in Hfire. rewrite bool_decide_eq_true_2 by done. apply IH; [done..|].
  rewrite Hfire. set_solver.
Qed.

Lemma trigger_spec {W : Type} (I : W -> ListenerManager B -> Prop) onTrigger w lm :
  handler_ok I onTrigger -> wf lm -> I w lm ->
  exists w' lm', triggerActiveListeners onTrigger w lm =
      Some (w', set_DeleteList [] (set_FireList [] lm')) /\ wf lm' /\ I w' lm'.
Proof.
  intros Hok Hwf Hw. unfold triggerActiveListeners.
  destruct (trigger_loop_spec I onTrigger (m_FireList lm) w lm Hok Hwf Hw)
    as (w' & lm' & E & Hwf' & Hw'); [done|].
  rewrite E. obind. eauto.
Qed.

(** ** Properties *)

(** C8. Along every interleaving of client operations and event handling, from
    a fresh manager on, the manager's representation stays consistent: slots
    and stored locations correspond one to one, each performance buffer-list
    holds exactly the slots of its listeners (of the class its [gather] casts
    to), and no listener that may still fire is dangling. *)
Theorem manager_invariant lm : rtc lm_step new_ListenerManager lm -> wf lm.
Proof. apply reachable_wf, wf_new_ListenerManager. Qed.

(** [remove(flow)] removes exactly the buffered listeners of that flow, calls
    [onDeletion] once on each of them, and makes exactly the flow's active
    listeners (besides those already removed) unable to fire. *)
Theorem remove_flow_correct f lm :
  wf lm ->
  exists lm', remove_flow (Some f) lm = Some lm' /\ wf lm' /\
    m_BufferList lm' ≡ₚ filter (fun p => parent_of lm p ≠ Some (Some f)) (m_BufferList lm) /\
    (exists gone, lm_onDeletion lm' = lm_onDeletion lm ++ gone /\
       gone ≡ₚ filter (fun p => parent_of lm p = Some (Some f)) (m_BufferList lm)) /\
    m_FireList lm' = m_FireList lm /\
    (forall p, p ∈ m_FireList lm ->
       p ∈ m_DeleteList lm' <-> p ∈ m_DeleteList lm \/ parent_of lm p = Some (Some f)).
Proof.
  intros Hwf. destruct (remove_flow_spec f lm Hwf) as (lm1 & more & Hd & E & Hm).
  eexists. split; [exact E|]. split; [by eapply remove_flow_wf|].
  destruct Hd as [_ [_ Hfi _ _] _ _ Hre Hlog]. simpl. rewrite !drop_0 in Hre, Hlog.
  split_and!; [done|done|done|]. intros p Hp. rewrite elem_of_app, Hm.
  destruct (decide (p ∈ m_DeleteList lm)); tauto.
Qed.

(** [remove(0)] (all flows) empties the buffer-list and every performance
    buffer-list, calls [onDeletion] once on every buffered listener in order,
    changes no other data of the listener objects, and no active listener can
    fire afterwards. *)
Theorem remove_all_correct lm :
  wf lm ->
  exists lm', remove_flow None lm = Some lm' /\ wf lm' /\ m_BufferList lm' = [] /\
    (forall h, pb_elems (perf_get h (lm_perf lm')) = []) /\
    lm_onDeletion lm' = lm_onDeletion lm ++ m_BufferList lm /\
    same_objects (lm_heap lm') (lm_heap lm) /\
    (forall (W : Type) onTrigger (w : W), triggerActiveListeners onTrigger w lm' =
                         Some (w, set_DeleteList [] (set_FireList [] lm'))).
Proof.
  intros Hwf. destruct (remove_all_spec lm Hwf) as (lm' & E & [Hwf' Hb Hp Ho Hfi Hde Hlog]).
  exists lm'. split_and!; try done. intros W onTrigger w. unfold triggerActiveListeners.
  assert (forall it, (forall p, p ∈ it -> p ∈ m_DeleteList lm') ->
            trigger_loop onTrigger it w lm' = Some (w, lm')) as Hskip.
  { induction it as [|p it IH]; intros Hit; [done|]. cbn [trigger_loop].
    rewrite bool_decide_eq_true_2 by set_solver. apply IH. set_solver. }
  rewrite Hskip; [done|]. intros p Hp'. rewrite Hde, <- Hfi. by right.
Qed.

(** [remove(NULL)] takes exactly the current flow's listeners out of the
    buffer-list, but its effect on active listeners is not confined to the
    current flow: every listener on the fire-list ends up on the delete-list. *)
Theorem remove_current_correct cur lm :
  wf lm ->
  exists lm', remove_listener cur None lm = Some lm' /\ wf lm' /\
    m_BufferList lm' ≡ₚ filter (fun p => parent_of lm p ≠ Some cur) (m_BufferList lm) /\
    (exists gone, lm_onDeletion lm' = lm_onDeletion lm ++ gone /\
       gone ≡ₚ filter (fun p => parent_of lm p = Some cur) (m_BufferList lm)) /\
    (forall p, p ∈ m_FireList lm -> p ∈ m_DeleteList lm').
Proof.
  intros Hwf. destruct (remove_current_spec cur lm Hwf) as (lm1 & Hd & E).
  eexists. split; [exact E|]. split; [by eapply remove_listener_wf|].
  destruct Hd as [_ _ _ _ Hre Hlog]. simpl. rewrite !drop_0 in Hre, Hlog.
  split_and!; [done|done|]. set_solver.
Qed.

(** Destroying a listener object at any time is safe: the destructor's
    [removeListener] takes it out of every list the manager may still follow, so
    the invariant holds without the object. *)
Theorem destroy_listener_safe cur li lm :
  wf lm -> is_Some (lm_heap lm !! li) ->
  exists lm', destroy_listener cur li lm = Some lm' /\ wf lm' /\ lm_heap lm' !! li = None /\
    (li ∉ m_BufferList lm') /\ (li ∈ m_FireList lm -> li ∈ m_DeleteList lm').
Proof.
  intros Hwf [l Hl]. destruct (destroy_listener_spec cur li l lm Hwf Hl) as (lm' & ? & ? & ? & ? & _ & ?).
  exists lm'. by split_and!.
Qed.

(** A triggering round completes without touching a destroyed listener,
    whatever listeners the triggered experiments add, remove or destroy: the
    handler is only ever invoked on live listeners that were not removed, the
    iteration over the fire-list is never invalidated, and both lists are empty
    afterwards. *)
Theorem trigger_safe {W : Type} (I : W -> ListenerManager B -> Prop) onTrigger w lm :
  handler_ok I onTrigger -> wf lm -> I w lm ->
  exists w' lm', triggerActiveListeners onTrigger w lm = Some (w', lm') /\ wf lm' /\
    m_FireList lm' = [] /\ m_DeleteList lm' = [].
Proof.
  intros Hok Hwf Hw. destruct (trigger_spec I onTrigger w lm Hok Hwf Hw) as (w' & lm' & E & Hwf' & _).
  exists w'. eexists. split; [exact E|]. split; [|done].
  eapply lm_step_wf; [exact Hwf'|apply step_done].
Qed.

(** [n] matching events for the listener in slot [it]. *)
Fixpoint occurrences (n it : nat) lm : option (ListenerManager B) :=
  match n with
  | O => Some lm
  | S n => '(_, lm1) ← makeActive_it it lm; occurrences n it lm1
  end.

Lemma occurrences_counting n it p l lm :
  wf lm -> m_BufferList lm !! it = Some p -> lm_heap lm !! p = Some l ->
  getPerformanceBuffer l = None -> Z.of_nat n < getCounter l < 2 ^ 32 ->
  exists lm' l', occurrences n it lm = Some lm' /\ wf lm' /\
    m_BufferList lm' = m_BufferList lm /\ m_FireList lm' = m_FireList lm /\
    lm_heap lm' !! p = Some l' /\ getPerformanceBuffer l' = None /\
    getCounter l' = getCounter l - Z.of_nat n /\ resetCounter l' = resetCounter l.
Proof.
  revert l lm. induction n as [|n IH]; intros l lm Hwf Hi Hl Hh Hc; cbn [occurrences].
  { exists lm, l. split_and!; try done. lia. }
  pose proof (makeActive_it_spec lm it p l Hwf Hi Hl Hh) as Hspec.
  destruct (Z.ltb_spec 1 (getCounter l)); [|lia]. rewrite Hspec by lia. obind.
  destruct (IH (decreaseCounter l) (upd_listener p decreaseCounter lm))
    as (lm' & l' & E & ? & ? & ? & ? & ? & Hcnt & Hreset).
  - by apply counting_wf.
  - done.
  - simpl. by rewrite lookup_alter_eq, Hl.
  - done.
  - rewrite decreaseCounter_counter; lia.
  - exists lm', l'. split_and!; try done.
    rewrite Hcnt, decreaseCounter_counter; lia.
Qed.

Lemma occurrences_app n m it lm :
  occurrences (n + m) it lm = (occurrences n it lm ≫= occurrences m it).
Proof.
  revert lm. induction n as [|n IH]; intros lm; [done|]. cbn [occurrences Nat.add].
  destruct (makeActive_it it lm) as [[it' lm1]|]; [|done]. obind. apply IH.
Qed.

(** A listener added with counter [n] fires on its [n]-th occurrence and not
    earlier: [n-1] matching events leave all lists as they are, the next one
    moves it to the fire-list with its counter reset for the next addition. *)
Theorem fires_on_nth_occurrence n it p l lm :
  wf lm -> m_BufferList lm !! it = Some p -> lm_heap lm !! p = Some l ->
  getPerformanceBuffer l = None -> getCounter l = Z.of_nat (S n) -> Z.of_nat (S n) < 2 ^ 32 ->
  (exists lm1, occurrences n it lm = Some lm1 /\ m_BufferList lm1 = m_BufferList lm /\
     m_FireList lm1 = m_FireList lm) /\
  (exists lm2, occurrences (S n) it lm = Some lm2 /\ wf lm2 /\
     m_BufferList lm2 = swap_remove it (m_BufferList lm) /\
     m_FireList lm2 = m_FireList lm ++ [p] /\
     lm_heap lm2 !! p = Some (strip (resetCounter l))).
Proof.
  intros Hwf Hi Hl Hh Hc Hn.
  destruct (occurrences_counting n it p l lm Hwf Hi Hl Hh) as
    (lm1 & l1 & E & Hwf1 & Hb1 & Hf1 & Hl1 & Hh1 & Hc1 & Hr1); [lia|].
  split; [eauto|].
  rewrite <- Nat.add_1_r, occurrences_app, E. obind. cbn [occurrences].
  pose proof (makeActive_it_spec lm1 it p l1 Hwf1 ltac:(congruence) Hl1 Hh1 ltac:(lia)) as Hspec.
  destruct (Z.ltb_spec 1 (getCounter l1)); [lia|].
  destruct Hspec as (lm2 & E2 & [? Hb2 Hf2 _ _ Hself _ _]). rewrite E2. obind.
  exists lm2. split_and!; try done; congruence.
Qed.
End theorems.

(** ** A concrete manager

    Two flows (7 and 8) with a breakpoint on its third occurrence, a write
    watchpoint and a range breakpoint on the fast path. *)
Module ManagerDemo.
Definition cfg : SalConfig := sal_64.
#[local] Existing Instance cfg.

Definition l1 : Listener := setCounter 3 (new_BPSingleListener 0x100 ANY_ADDR None).
Definition l2 : Listener := new_MemWriteListener 0x2000 None.
Definition l3 : Listener := new_BPRangeListener 0x100 0x1ff ANY_ADDR None.

Definition objects : ListenerManager DefPerfVector.t :=
  set_heap (<[3%nat := l3]> (<[2%nat := l2]> (<[1%nat := l1]> ∅))) new_ListenerManager.

Definition get (o : option (ListenerManager DefPerfVector.t)) : ListenerManager DefPerfVector.t :=
  default new_ListenerManager o.

Definition s1 := get (add 1 (Some 7%nat) objects).
Definition s2 := get (add_perf PB_Range 3 (Some 8%nat) s1).
Definition demo := get (add 2 (Some 7%nat) s2).
(** The same manager with the watchpoint activated. *)
Definition fired := get (snd <$> makeActive_it 2 demo).

Lemma objects_reachable : rtc lm_step new_ListenerManager objects.
Proof.
  eapply rtc_l; [apply (step_client _ None), (step_new _ _ 1%nat l1); reflexivity|].
  eapply rtc_l; [apply (step_client _ None), (step_new _ _ 2%nat l2); reflexivity|].
  eapply rtc_l; [apply (step_client _ None), (step_new _ _ 3%nat l3); reflexivity|].
  apply rtc_refl.
Qed.

Lemma demo_steps : rtc lm_step objects demo.
Proof.
  eapply rtc_l.
  { apply (step_client _ None).
    eapply (step_add _ _ 1%nat l1 (Some 7%nat) s1); vm_compute; reflexivity. }
  eapply rtc_l.
  { apply (step_client _ None).
    eapply (step_add_perf _ _ PB_Range 3%nat l3 (Some 8%nat) s2); vm_compute; reflexivity. }
  eapply rtc_l; [|apply rtc_refl].
  apply (step_client _ None).
  eapply (step_add _ _ 2%nat l2 (Some 7%nat) demo); vm_compute; reflexivity.
Qed.

Lemma demo_reachable : rtc lm_step new_ListenerManager demo.
Proof. etrans; [exact objects_reachable|exact demo_steps]. Qed.

Lemma fired_step : lm_step demo fired.
Proof.
  eapply (step_active_it _ 2%nat 2%nat fired
            (added (Some 7%nat) None 2%nat l2) 2%nat); vm_compute; try reflexivity.
  split; [intros E; discriminate E|reflexivity].
Qed.

Lemma demo_wf : wf demo.
Proof. exact (reachable_wf _ _ wf_new_ListenerManager demo_reachable). Qed.

Lemma fired_wf : wf fired.
Proof. exact (lm_step_wf _ _ demo_wf fired_step). Qed.

Example demo_lists :
  m_BufferList demo = [1; 3; 2]%nat /\ pb_elems (m_RangeListeners (lm_perf demo)) = [1%nat] /\
  m_BufferList fired = [1; 3]%nat /\ m_FireList fired = [2%nat].
Proof. vm_compute. auto. Qed.

Lemma manager_invariant_witness : rtc lm_step new_ListenerManager demo /\ wf demo.
Proof. split; [exact demo_reachable|]. apply manager_invariant. exact demo_reachable. Defined.

Lemma remove_flow_correct_witness :
  wf demo /\ exists lm', remove_flow (Some 7%nat) demo = Some lm' /\ m_BufferList lm' ≡ₚ [3%nat].
Proof.
  split; [exact demo_wf|].
  destruct (remove_flow_correct 7%nat demo demo_wf) as (lm' & E & _ & Hb & _).
  exists lm'. split; [exact E|]. vm_compute in Hb. exact Hb.
Defined.

Lemma remove_all_correct_witness :
  wf fired /\ exists lm', remove_flow None fired = Some lm' /\ m_BufferList lm' = [] /\
    lm_onDeletion lm' = [2; 1; 3]%nat.
Proof.
  split; [exact fired_wf|].
  destruct (remove_all_correct fired fired_wf) as (lm' & E & _ & Hb & _ & Hlog & _).
  exists lm'. split; [exact E|]. split; [exact Hb|]. vm_compute in Hlog. exact Hlog.
Defined.

Lemma remove_current_correct_witness :
  wf fired /\ exists lm', remove_listener (Some 8%nat) None fired = Some lm' /\
    m_BufferList lm' ≡ₚ [1%nat] /\ 2%nat ∈ m_DeleteList lm'.
Proof.
  split; [exact fired_wf|].
  destruct (remove_current_correct (Some 8%nat) fired fired_wf) as (lm' & E & _ & Hb & _ & Hd).
  exists lm'. split; [exact E|]. split; [vm_compute in Hb; exact Hb|].
  apply Hd. vm_compute. constructor.
Defined.

Lemma destroy_listener_safe_witness :
  wf fired /\ exists lm', destroy_listener (Some 7%nat) 2%nat fired = Some lm' /\ wf lm' /\
    2%nat ∈ m_DeleteList lm'.
Proof.
  split; [exact fired_wf|].
  destruct (destroy_listener_safe (Some 7%nat) 2%nat fired fired_wf) as (lm' & E & Hwf & _ & _ & Hd).
  - vm_compute. eexists. reflexivity.
  - exists lm'. split; [exact E|]. split; [exact Hwf|]. apply Hd. vm_compute. constructor.
Defined.

(** An experiment that destroys the listener it was waiting for, and counts
    how often it ran. *)
Definition destroying (p : ptr) (n : nat) (lm : ListenerManager DefPerfVector.t) :=
  lm1 ← destroy_listener (Some 7%nat) p lm; Some (S n, lm1).

Lemma destroying_ok : handler_ok (fun _ _ => True) destroying.
Proof.
  split; [done|]. intros p n lm Hwf _ [l Hl] _ _. unfold destroying.
  destruct (destroy_listener_spec (Some 7%nat) p l lm Hwf Hl) as (lm' & E & _).
  exists (Some 7%nat), (S n), lm'. rewrite E. split; [done|]. split; [done|].
  eapply rtc_l; [|apply rtc_refl]. by eapply step_destroy.
Qed.

Lemma trigger_safe_witness :
  handler_ok (fun _ _ => True) destroying /\ wf fired /\
  exists n lm', triggerActiveListeners destroying 0%nat fired = Some (n, lm') /\ m_FireList lm' = [].
Proof.
  split; [exact destroying_ok|]. split; [exact fired_wf|].
  destruct (trigger_safe (fun _ _ => True) destroying 0%nat fired destroying_ok fired_wf I)
    as (n & lm' & E & _ & Hf & _).
  exists n, lm'. split; [exact E|exact Hf].
Defined.

Lemma fires_on_nth_occurrence_witness :
  wf demo /\ exists lm2, occurrences 3 0 demo = Some lm2 /\ m_FireList lm2 = [1%nat].
Proof.
  split; [exact demo_wf|].
  destruct (fires_on_nth_occurrence 2 0 1%nat (added (Some 7%nat) None 0 l1) demo demo_wf)
    as [_ (lm2 & E & _ & _ & Hf & _)]; try (vm_compute; reflexivity).
  exists lm2. split; [exact E|exact Hf].
Defined.
End ManagerDemo.
