(* ===== verification/Coroutines.v ===== *)
(** * Coroutines

    [src/core/efw/CoroutineManager.{hpp,cc}]: the experiment flows' coroutines
    and the stack of coroutines that toggled another one.

    The Portable Coroutine Library is not part of the sources.  What the manager
    sees of it is the coroutine in control, [co_current()], here a field of the
    state that [co_call] sets, and the handle [co_create] returns, an argument
    of [create].  Deleting or leaving a coroutine is reported as a
    [pcl_action]. *)
From S2P Require Import Prelude Events.

Abbreviation corohandle_t := nat (only parsing).

(** [m_Flows] is a [std::map]: at most one entry per flow, in key order. *)
Record CoroutineManager := mkCM {
  m_Flows : list (flow * corohandle_t);
  m_simCoro : corohandle_t;
  m_togglerstack : list corohandle_t;
  m_Terminated : bool;
  co_current : corohandle_t
}.

Inductive pcl_action := PCL_none | PCL_exit | PCL_delete (h : corohandle_t).

(** [CoroutineManager()] runs in the simulator's coroutine. *)
Definition new_CoroutineManager (cur : corohandle_t) : CoroutineManager :=
  mkCM [] cur [] false cur.

Fixpoint flow_find (f : flow) (m : list (flow * corohandle_t)) : option corohandle_t :=
  match m with
  | [] => None
  | (g, h) :: rest => if (f =? g)%nat then Some h else flow_find f rest
  end.

(** [std::map::insert] keeps an existing entry. *)
Fixpoint flow_insert (f : flow) (h : corohandle_t) (m : list (flow * corohandle_t))
    : list (flow * corohandle_t) :=
  match m with
  | [] => [(f, h)]
  | (g, k) :: rest =>
      if (f =? g)%nat then m
      else if (f <? g)%nat then (f, h) :: m
      else (g, k) :: flow_insert f h rest
  end.

Fixpoint flow_erase (f : flow) (m : list (flow * corohandle_t)) : list (flow * corohandle_t) :=
  match m with
  | [] => []
  | (g, k) :: rest => if (f =? g)%nat then rest else (g, k) :: flow_erase f rest
  end.

Definition create (f : flow) (res : corohandle_t) (cm : CoroutineManager) : CoroutineManager :=
  mkCM (flow_insert f res (m_Flows cm)) (m_simCoro cm) (m_togglerstack cm) (m_Terminated cm)
    (co_current cm).

(** [co_call] *)
Definition co_call (h : corohandle_t) (cm : CoroutineManager) : CoroutineManager :=
  mkCM (m_Flows cm) (m_simCoro cm) (m_togglerstack cm) (m_Terminated cm) h.

(** [toggle(flow)]; [None] as the flow is [SIM_FLOW], [None] as the result a
    failed assertion. *)
Definition toggle (f : option flow) (cm : CoroutineManager) : option CoroutineManager :=
  if (co_current cm =? m_simCoro cm)%nat && bool_decide (f = None) then None
  else
    let cm1 := mkCM (m_Flows cm) (m_simCoro cm) (co_current cm :: m_togglerstack cm)
                 (m_Terminated cm) (co_current cm) in
    match f with
    | None => Some (co_call (m_simCoro cm1) cm1)
    | Some f =>
        match flow_find f (m_Flows cm1) with
        | Some h => Some (co_call h cm1)
        | None => None
        end
    end.

(** [resume()]; reading the top of an empty stack is undefined. *)
Definition resume (cm : CoroutineManager) : option CoroutineManager :=
  match m_togglerstack cm with
  | [] => None
  | next :: rest =>
      Some (co_call next (mkCM (m_Flows cm) (m_simCoro cm) rest (m_Terminated cm) (co_current cm)))
  end.

Definition remove (f : flow) (cm : CoroutineManager) : pcl_action * CoroutineManager :=
  match flow_find f (m_Flows cm) with
  | None => (PCL_none, cm)
  | Some coro =>
      let cm1 := mkCM (flow_erase f (m_Flows cm)) (m_simCoro cm) (m_togglerstack cm)
                   (m_Terminated cm) (co_current cm) in
      if (coro =? co_current cm)%nat
      then (if m_Terminated cm then PCL_none else PCL_exit, cm1)
      else (PCL_delete coro, cm1)
  end.

Fixpoint find_handle (cr : corohandle_t) (m : list (flow * corohandle_t)) : option flow :=
  match m with
  | [] => None
  | (f, h) :: rest => if (h =? cr)%nat then Some f else find_handle cr rest
  end.

(** [getCurrent()]: [None] is the simulator's own flow. *)
Definition getCurrent (cm : CoroutineManager) : option flow :=
  find_handle (co_current cm) (m_Flows cm).

Definition setTerminated (cm : CoroutineManager) : CoroutineManager :=
  mkCM (m_Flows cm) (m_simCoro cm) (m_togglerstack cm) true (co_current cm).

Definition flows_size (cm : CoroutineManager) : nat := length (m_Flows cm).

(** ** Invariant: the handles of the flows are distinct and none of them is the
    simulator's coroutine; keys are sorted. *)

Record cm_wf (cm : CoroutineManager) : Prop := {
  cm_sorted : StronglySorted lt (fst <$> m_Flows cm);
  cm_handles : NoDup (snd <$> m_Flows cm);
  cm_sim : m_simCoro cm ∉ snd <$> m_Flows cm
}.

Lemma flow_find_elem f h m : flow_find f m = Some h -> (f, h) ∈ m.
Proof.
  induction m as [|[g k] m IH]; simpl; [done|].
  destruct (Nat.eqb_spec f g) as [->|]; [intros [= ->]|]; set_solver.
Qed.

Lemma find_handle_unique f h m :
  NoDup (snd <$> m) -> (f, h) ∈ m -> find_handle h m = Some f.
Proof.
  induction m as [|[g k] m IH]; simpl; [set_solver|].
  intros [Hk Hnd]%NoDup_cons [E|Hin]%elem_of_cons; [simplify_eq; by rewrite Nat.eqb_refl|].
  destruct (Nat.eqb_spec k h) as [->|]; [|auto].
  destruct Hk. apply list_elem_of_fmap. by exists (f, h).
Qed.

Lemma find_handle_notin h m : (h ∉ snd <$> m) -> find_handle h m = None.
Proof.
  induction m as [|[g k] m IH]; simpl; [done|].
  intros Hn. destruct (Nat.eqb_spec k h) as [->|]; [set_solver|]. apply IH. set_solver.
Qed.

Lemma elem_of_flow_insert f h m p :
  p ∈ flow_insert f h m -> p = (f, h) \/ p ∈ m.
Proof.
  induction m as [|[g k] m IH]; simpl; [set_solver|].
  destruct (f =? g)%nat; [by right|]. destruct (f <? g)%nat; set_solver.
Qed.

Lemma flow_insert_sorted f h m :
  StronglySorted lt (fst <$> m) -> StronglySorted lt (fst <$> flow_insert f h m).
Proof.
  induction m as [|[g k] m IH]; simpl; intros Hs; [repeat constructor|].
  apply StronglySorted_inv in Hs as [Hs Hall].
  destruct (Nat.eqb_spec f g) as [->|Hne]; [by constructor|].
  destruct (Nat.ltb_spec f g) as [Hlt|Hge]; simpl.
  - repeat constructor; try done. rewrite !List.Forall_forall in *.
    intros x Hx. specialize (Hall x Hx). lia.
  - constructor; [auto|]. rewrite List.Forall_forall in *. intros x Hx.
    apply list_elem_of_In, list_elem_of_fmap in Hx as ([x' k'] & -> & Hx).
    apply elem_of_flow_insert in Hx as [[= -> ->]|Hx]; simpl; [lia|].
    apply Hall, list_elem_of_In, list_elem_of_fmap. by exists (x', k').
Qed.

Lemma flow_insert_handles f h m :
  NoDup (snd <$> m) -> (h ∉ snd <$> m) -> NoDup (snd <$> flow_insert f h m).
Proof.
  induction m as [|[g k] m IH]; simpl; intros Hnd Hh; [apply NoDup_singleton|].
  destruct (f =? g)%nat; [done|]. destruct (f <? g)%nat; simpl; [by apply NoDup_cons|].
  apply NoDup_cons in Hnd as [Hk Hnd]. apply NoDup_cons. split; [|apply IH; set_solver].
  intros (p & -> & Hp)%list_elem_of_fmap.
  apply elem_of_flow_insert in Hp as [->|Hp]; [set_solver|].
  destruct Hk. apply list_elem_of_fmap. eauto.
Qed.

Lemma flow_find_insert f h m :
  flow_find f m = None -> flow_find f (flow_insert f h m) = Some h.
Proof.
  induction m as [|[g k] m IH]; simpl; [by rewrite Nat.eqb_refl|].
  destruct (Nat.eqb_spec f g) as [->|Hne]; [done|].
  destruct (f <? g)%nat; simpl; [by rewrite Nat.eqb_refl|].
  destruct (Nat.eqb_spec f g); [done|]. auto.
Qed.

Lemma flow_find_insert_ne f g h m :
  is_Some (flow_find g m) -> is_Some (flow_find g (flow_insert f h m)).
Proof.
  induction m as [|[k hk] m IH]; simpl; [by intros [? ?]|].
  destruct (Nat.eqb_spec f k) as [->|Hne]; simpl; [done|].
  destruct (f <? k)%nat; simpl; [destruct (g =? f)%nat; [done|]|]; by destruct (g =? k)%nat; auto.
Qed.

Lemma new_CoroutineManager_wf cur : cm_wf (new_CoroutineManager cur).
Proof. split; simpl; [constructor|constructor|set_solver]. Qed.

Lemma create_wf f h cm :
  cm_wf cm -> (h ∉ snd <$> m_Flows cm) -> h ≠ m_simCoro cm -> cm_wf (create f h cm).
Proof.
  intros [Hs Hn Hsim] Hh Hne. split; simpl.
  - by apply flow_insert_sorted.
  - by apply flow_insert_handles.
  - intros (p & E & Hp)%list_elem_of_fmap.
    apply elem_of_flow_insert in Hp as [->|Hp]; [by simplify_eq|]. destruct Hsim.
    apply list_elem_of_fmap. eauto.
Qed.

Lemma flow_erase_sublist f m : flow_erase f m `sublist_of` m.
Proof.
  induction m as [|[g k] m IH]; simpl; [done|].
  destruct (f =? g)%nat; [by apply sublist_cons|by apply sublist_skip].
Qed.

Lemma StronglySorted_sublist (l k : list nat) :
  l `sublist_of` k -> StronglySorted lt k -> StronglySorted lt l.
Proof.
  induction 1 as [|x l k Hsub IH|x l k Hsub IH]; intros Hs; [done|..];
    apply StronglySorted_inv in Hs as [Hs Hall]; [|auto].
  constructor; [auto|]. rewrite List.Forall_forall in *. intros y Hy. apply Hall.
  apply list_elem_of_In. apply list_elem_of_In in Hy. by eapply elem_of_sublist.
Qed.

Lemma remove_wf f cm a cm' : cm_wf cm -> remove f cm = (a, cm') -> cm_wf cm'.
Proof.
  intros [Hs Hn Hsim] E. unfold remove in E. destruct (flow_find f (m_Flows cm)) as [h|];
    [|simplify_eq; by split].
  pose proof (flow_erase_sublist f (m_Flows cm)) as Hsub.
  assert (cm' = mkCM (flow_erase f (m_Flows cm)) (m_simCoro cm) (m_togglerstack cm)
                  (m_Terminated cm) (co_current cm)) as ->.
  { destruct (h =? co_current cm)%nat; congruence. }
  split; simpl.
  - eapply StronglySorted_sublist; [|done]. by apply fmap_sublist.
  - eapply sublist_NoDup; [done|]. by apply fmap_sublist.
  - intros Hin. apply Hsim. eapply elem_of_sublist; [done|]. by apply fmap_sublist.
Qed.

Lemma flow_find_notin f m : (f ∉ fst <$> m) -> flow_find f m = None.
Proof.
  induction m as [|[g k] m IH]; simpl; [done|]. intros Hn.
  destruct (Nat.eqb_spec f g) as [->|]; [set_solver|]. apply IH. set_solver.
Qed.

Lemma flow_find_erase f m :
  StronglySorted lt (fst <$> m) -> flow_find f (flow_erase f m) = None.
Proof.
  induction m as [|[g k] m IH]; simpl; [done|]. intros [Hs Hall]%StronglySorted_inv.
  destruct (Nat.eqb_spec f g) as [->|Hne]; simpl.
  - apply flow_find_notin. intros Hin. rewrite List.Forall_forall in Hall.
    apply list_elem_of_In in Hin. specialize (Hall _ Hin). lia.
  - destruct (Nat.eqb_spec f g); [done|]. auto.
Qed.

Lemma remove_unregisters f cm a cm' :
  cm_wf cm -> remove f cm = (a, cm') -> flow_find f (m_Flows cm') = None.
Proof.
  intros [Hs _ _] E. unfold remove in E. destruct (flow_find f (m_Flows cm)) as [h|] eqn:Ef;
    [|by simplify_eq].
  destruct (h =? co_current cm)%nat; simplify_eq; by apply flow_find_erase.
Qed.

Lemma toggle_wf f cm cm' : cm_wf cm -> toggle f cm = Some cm' -> cm_wf cm'.
Proof.
  intros [? ? ?] E. unfold toggle in E. destruct (_ && _); [done|].
  destruct f as [f|]; [destruct (flow_find _ _)|]; simplify_eq; by split.
Qed.

Lemma resume_wf cm cm' : cm_wf cm -> resume cm = Some cm' -> cm_wf cm'.
Proof.
  intros [? ? ?] E. unfold resume in E. destruct (m_togglerstack cm); simplify_eq. by split.
Qed.

(** What a successful [toggle] does. *)
Lemma toggle_Some f cm cm1 :
  toggle f cm = Some cm1 ->
  cm1 = mkCM (m_Flows cm) (m_simCoro cm) (co_current cm :: m_togglerstack cm) (m_Terminated cm)
          (co_current cm1) /\
  match f with
  | None => co_current cm1 = m_simCoro cm /\ co_current cm ≠ m_simCoro cm
  | Some f => flow_find f (m_Flows cm) = Some (co_current cm1)
  end.
Proof.
  unfold toggle. destruct (_ && _) eqn:E; [done|].
  destruct f as [f|]; [destruct (flow_find f _) eqn:Ef|]; intros [= <-]; simpl; try done.
  rewrite andb_false_iff in E. destruct E as [E|E]; [bool_hyps; done|by bool_hyps].
Qed.

Lemma toggle_resume_inv f cm cm1 : toggle f cm = Some cm1 -> resume cm1 = Some cm.
Proof. intros E. destruct (toggle_Some _ _ _ E) as [-> _]. unfold resume. simpl. by destruct cm. Qed.

Lemma toggle_current f cm cm1 : cm_wf cm -> toggle f cm = Some cm1 -> getCurrent cm1 = f.
Proof.
  intros [Hs Hn Hsim] E. destruct (toggle_Some _ _ _ E) as [E' Hf]. unfold getCurrent.
  rewrite E'. simpl. destruct f as [f|].
  - apply find_handle_unique; [done|]. by apply flow_find_elem.
  - destruct Hf as [-> _]. by apply find_handle_notin.
Qed.

(** ** Control transfer is properly nested *)

(** What runs between a [toggle] and the matching [resume]: further flows may be
    created or toggled, each activation ending with its [resume]. *)
Inductive activity : CoroutineManager -> CoroutineManager -> Prop :=
| act_nil cm : activity cm cm
| act_create f h cm cm' : activity (create f h cm) cm' -> activity cm cm'
| act_nested f cm cm1 cm2 cm3 cm' :
    toggle f cm = Some cm1 -> activity cm1 cm2 -> resume cm2 = Some cm3 -> activity cm3 cm' ->
    activity cm cm'.

Lemma activity_control cm cm' :
  activity cm cm' ->
  co_current cm' = co_current cm /\ m_togglerstack cm' = m_togglerstack cm /\
  m_simCoro cm' = m_simCoro cm.
Proof.
  induction 1 as [cm|f h cm cm' _ IH|f cm cm1 cm2 cm3 cm' Ht _ IH1 Hr _ IH2]; [done|done|].
  destruct (toggle_Some _ _ _ Ht) as [E _]. destruct IH1 as (_ & Hst & Hsim).
  unfold resume in Hr. rewrite Hst, E in Hr. simpl in Hr. simplify_eq. simpl in IH2.
  rewrite E in Hsim. simpl in Hsim. destruct IH2 as (? & ? & ?). split_and!; congruence.
Qed.

(** Control transfer between the simulator and the experiments is properly
    nested: a flow that is toggled gets the control and is reported by
    [getCurrent], and whatever it and the flows it toggles do, its final [resume]
    hands the control back to the coroutine that toggled it, with the toggler
    stack as it was before. *)
Theorem toggle_resume_nested f cm cm1 cm2 :
  cm_wf cm -> toggle f cm = Some cm1 -> activity cm1 cm2 ->
  getCurrent cm1 = f /\
  exists cm3, resume cm2 = Some cm3 /\
    co_current cm3 = co_current cm /\ m_togglerstack cm3 = m_togglerstack cm.
Proof.
  intros Hwf Ht Ha. split; [by eapply toggle_current|].
  destruct (toggle_Some _ _ _ Ht) as [E _]. destruct (activity_control _ _ Ha) as (_ & Hst & _).
  unfold resume. rewrite Hst, E. simpl. eexists. split; [done|]. done.
Qed.

(** Coroutine 100 is the simulator's; flow 7 (coroutine 101) is toggled and
    toggles flow 8 (coroutine 102) in turn. *)
Definition cm_demo : CoroutineManager := create 8 102 (create 7 101 (new_CoroutineManager 100)).

Lemma toggle_resume_nested_witness :
  cm_wf cm_demo /\ exists cm1, toggle (Some 7%nat) cm_demo = Some cm1 /\
    getCurrent cm1 = Some 7%nat.
Proof.
  assert (cm_wf cm_demo) as Hwf.
  { apply create_wf; [apply create_wf; [apply new_CoroutineManager_wf|..]|..];
      simpl; try done; set_solver. }
  split; [exact Hwf|].
  exists (mkCM (m_Flows cm_demo) 100 [100%nat] false 101). split; [reflexivity|].
  destruct (toggle_resume_nested (Some 7%nat) cm_demo
              (mkCM (m_Flows cm_demo) 100 [100%nat] false 101)
              (mkCM (m_Flows cm_demo) 100 [100%nat] false 101)) as [E _];
    [exact Hwf|reflexivity| |exact E].
  eapply (act_nested (Some 8%nat)); [reflexivity|apply act_nil|reflexivity|apply act_nil].
Defined.
