(* ===== verification/EventHandlers.v ===== *)
(** * Event handlers

    How the simulator back-end's events reach the listeners: the loops of
    [SimulatorController::on*] ([src/core/sal/SimulatorController.cc]), the
    [gather] methods of the performance buffer-lists
    ([src/core/sal/perf/{Breakpoint,Watchpoint}Buffer.cc]) and the advice of the
    [FastBreakpoints] and [FastWatchpoints] aspects that replaces the loops.

    A handler first activates listeners and then triggers them; this file is
    about the first part. *)
From S2P Require Import Prelude Events Listeners PerfBuffers ListenerManager ListenerTheorems.

(** ** Matching and trigger data

    [dynamic_cast] followed by [isMatching], and the [setTrigger*] calls. *)
Section dispatch.
Context `{SalConfig}.

Definition BP_matching (ev : BPEvent) (l : Listener) : bool :=
  match l_class l with
  | BPSingleListener d w => BPSingle_isMatching (l_base l) d w ev
  | BPRangeListener d s e => BPRange_isMatching (l_base l) d s e ev
  | _ => false
  end.

Definition BP_setTrigger (c : option cpu) (instrPtr : Z) (l : Listener) : Listener :=
  let upd d := bp_setTriggerInstructionPointer instrPtr (bp_setTriggerCPU c d) in
  match l_class l with
  | BPSingleListener d w => mkListener (l_base l) (BPSingleListener (upd d) w)
  | BPRangeListener d s e => mkListener (l_base l) (BPRangeListener (upd d) s e)
  | _ => l
  end.

Definition MemAccess_matching (ev : MemAccessEvent) (l : Listener) : bool :=
  match l_class l with
  | MemAccessListener a w t _ => MemAccess_isMatching (l_base l) a w t ev
  | _ => false
  end.

Definition MemAccess_setTrigger (ev : MemAccessEvent) (l : Listener) : Listener :=
  match l_class l with
  | MemAccessListener a w t d =>
      mkListener (l_base l)
        (MemAccessListener a w t
          (mem_setTriggerCPU (mem_CPU ev)
            (mem_setTriggerAccessType (mem_AccessType ev)
              (mem_setTriggerInstructionPointer (mem_TriggerIP ev)
                (mem_setTriggerWidth (mem_TriggerWidth ev)
                  (mem_setTriggerAddress (mem_TriggerAddr ev) d))))))
  | _ => l
  end.

(** [setTriggerNumber] and [setTriggerCPU] are inherited from
    [TroubleListener] and write to its [m_Data]; [setNMI] writes to the
    [m_Data] of [InterruptListener]. *)
Definition Interrupt_matching (ev : InterruptEvent) (l : Listener) : bool :=
  match l_class l with
  | InterruptListener t _ => Trouble_isMatching (l_base l) t (int_trouble ev)
  | _ => false
  end.

Definition trouble_setTrigger (c : option cpu) (n : Z) (t : TroubleData) : TroubleData :=
  mkTroubleData (tr_setTriggerCPU c (tr_setTriggerNumber n (trouble_Data t))) (m_WatchNumbers t).

Definition Interrupt_setTrigger (c : option cpu) (interruptNum : Z) (nmi : bool) (l : Listener)
    : Listener :=
  match l_class l with
  | InterruptListener t d =>
      mkListener (l_base l)
        (InterruptListener (trouble_setTrigger c interruptNum t) (int_setNMI nmi d))
  | _ => l
  end.

Definition Trap_matching (ev : TroubleEvent) (l : Listener) : bool :=
  match l_class l with
  | TrapListener t => Trouble_isMatching (l_base l) t ev
  | _ => false
  end.

Definition Trap_setTrigger (c : option cpu) (trapNum : Z) (l : Listener) : Listener :=
  match l_class l with
  | TrapListener t => mkListener (l_base l) (TrapListener (trouble_setTrigger c trapNum t))
  | _ => l
  end.

Definition Guest_matching (l : Listener) : bool :=
  match l_class l with GuestListener _ => true | _ => false end.

Definition Guest_setTrigger (data port : Z) (l : Listener) : Listener :=
  match l_class l with
  | GuestListener d => mkListener (l_base l) (GuestListener (guest_setPort port (guest_setData data d)))
  | _ => l
  end.

Definition Jump_matching (l : Listener) : bool :=
  match l_class l with JumpListener _ => true | _ => false end.

Definition Jump_setTrigger (c : option cpu) (flagTriggered : bool) (opcode : Z) (l : Listener)
    : Listener :=
  match l_class l with
  | JumpListener d =>
      mkListener (l_base l)
        (JumpListener (jump_setTriggerCPU c
          (jump_setFlagTriggered flagTriggered (jump_setTriggerOpcode opcode d))))
  | _ => l
  end.

(** I/O ports: the events and loop of [BochsController::onIOPort]. *)
Definition IOPort_matching (port : Z) (out : bool) (l : Listener) : bool :=
  match l_class l with IOPortListener _ p o => IOPort_isMatching p o port out | _ => false end.

Definition IOPort_setTrigger (c : option cpu) (data : Z) (l : Listener) : Listener :=
  match l_class l with
  | IOPortListener d p o =>
      mkListener (l_base l) (IOPortListener (io_setTriggerCPU c (io_setData data d)) p o)
  | _ => l
  end.
End dispatch.

(** What the loops rely on: matching does not depend on where the manager keeps
    the listener, and setting the trigger data touches nothing but that data. *)
Record event_laws (m : Listener -> bool) (u : Listener -> Listener) : Prop := {
  ev_match l i h : m (setLocation i (setPerformanceBuffer h l)) = m l;
  ev_base l : l_base (u l) = l_base l;
  ev_update_loc l i : u (setLocation i l) = setLocation i (u l);
  ev_class l h : home_class h (l_class l) -> home_class h (l_class (u l))
}.

Lemma Trouble_isMatching_base `{SalConfig} b b' t ev :
  m_CPU b = m_CPU b' -> Trouble_isMatching b t ev = Trouble_isMatching b' t ev.
Proof.
  intros E. unfold Trouble_isMatching. induction (m_WatchNumbers t) as [|n nums IH]; simpl; [done|].
  by rewrite E, IH.
Qed.

Ltac prove_event_laws :=
  split; intros [? cls]; intros; destruct cls; try reflexivity;
  try assumption; try (by apply Trouble_isMatching_base);
  repeat match goal with h : perfbuf |- _ => destruct h end; done.

Lemma BP_laws `{SalConfig} ev c ip : event_laws (BP_matching ev) (BP_setTrigger c ip).
Proof. prove_event_laws. Qed.
Lemma MemAccess_laws `{SalConfig} ev ev' :
  event_laws (MemAccess_matching ev) (MemAccess_setTrigger ev').
Proof. prove_event_laws. Qed.
Lemma Interrupt_laws `{SalConfig} ev c n nmi :
  event_laws (Interrupt_matching ev) (Interrupt_setTrigger c n nmi).
Proof. prove_event_laws. Qed.
Lemma Trap_laws `{SalConfig} ev c n : event_laws (Trap_matching ev) (Trap_setTrigger c n).
Proof. prove_event_laws. Qed.
Lemma Guest_laws d p : event_laws Guest_matching (Guest_setTrigger d p).
Proof. prove_event_laws. Qed.
Lemma Jump_laws c f o : event_laws Jump_matching (Jump_setTrigger c f o).
Proof. prove_event_laws. Qed.
Lemma IOPort_laws port out c d : event_laws (IOPort_matching port out) (IOPort_setTrigger c d).
Proof. prove_event_laws. Qed.

(** ** The activation loops *)

Section loops.
Context {B : Type} `{PerfBufferBase B}.
Implicit Types lm : ListenerManager B.

(** The common loop of the [on*] handlers. *)
Fixpoint scan (fuel : nat) (m : Listener -> bool) (u : Listener -> Listener) (it : nat) lm
    : option (ListenerManager B) :=
  if (it <? length (m_BufferList lm))%nat then
    match fuel with
    | O => None
    | S fuel =>
        pLi ← m_BufferList lm !! it;
        l ← lm_heap lm !! pLi;
        if m l then
          '(it', lm1) ← makeActive_it it (upd_listener pLi u lm);
          scan fuel m u it' lm1
        else scan fuel m u (S it) lm
    end
  else Some lm.

Definition activate_matching (m : Listener -> bool) (u : Listener -> Listener) lm
    : option (ListenerManager B) :=
  scan (length (m_BufferList lm)) m u 0 lm.

(** [gather(pData)]: the [static_cast] of an entry of another class is
    undefined. *)
Fixpoint gather_loop (h : perfbuf) (m : Listener -> bool) (u : Listener -> Listener)
    (it : list nat) (res : ResultSet.t) lm : option (ResultSet.t * ListenerManager B) :=
  match it with
  | [] => Some (res, lm)
  | idx :: rest =>
      pLi ← dereference idx lm;
      l ← lm_heap lm !! pLi;
      if bool_decide (home_class h (l_class l)) then
        if m l then gather_loop h m u rest (ResultSet.add pLi res) (upd_listener pLi u lm)
        else gather_loop h m u rest res lm
      else None
  end.

Definition gather (h : perfbuf) (m : Listener -> bool) (u : Listener -> Listener) lm
    : option (ResultSet.t * ListenerManager B) :=
  gather_loop h m u (pb_elems (perf_get h (lm_perf lm))) ResultSet.empty lm.

(** [while (res.hasMore()) ref.makeActive(res.getNext());] *)
Fixpoint drain (fuel : nat) (res : ResultSet.t) lm : option (ListenerManager B) :=
  if ResultSet.hasMore res then
    match fuel with
    | O => None
    | S fuel =>
        '(pLi, res1) ← ResultSet.getNext res;
        lm1 ← makeActive_perf pLi lm;
        drain fuel res1 lm1
    end
  else Some lm.

Definition fast_activate (h : perfbuf) (m : Listener -> bool) (u : Listener -> Listener) lm
    : option (ListenerManager B) :=
  '(res, lm1) ← gather h m u lm;
  drain (ResultSet.size res) res lm1.

(** ** What one event does to the manager *)

(** Listener [p] reaches its last occurrence with this event. *)
Definition fires (m : Listener -> bool) lm (p : ptr) : bool :=
  match lm_heap lm !! p with
  | Some l => m l && (getCounter l =? 1)
  | None => false
  end.

(** The object after the event: trigger data set, counter decreased or, when it
    fires, reset. *)
Definition handled (m : Listener -> bool) (u : Listener -> Listener) (l : Listener) : Listener :=
  if m l then
    if getCounter l =? 1 then strip (resetCounter (u l)) else decreaseCounter (u l)
  else l.

(** The event has been presented to the listeners [ps]. *)
Record outcome (m : Listener -> bool) (u : Listener -> Listener) (ps : list ptr) lm lm' : Prop := {
  out_wf : wf lm';
  out_del : (m_DeleteList lm', m_pFired lm') = (m_DeleteList lm, m_pFired lm);
  out_buf : m_BufferList lm' ≡ₚ
    filter (fun p => ~ (p ∈ ps /\ fires m lm p = true)) (m_BufferList lm);
  out_fire : exists new, m_FireList lm' = m_FireList lm ++ new /\
    lm_onDeletion lm' = lm_onDeletion lm ++ new /\
    new ≡ₚ filter (fun p => fires m lm p = true) ps;
  out_objs p : unplace <$> lm_heap lm' !! p =
    unplace <$> (if decide (p ∈ ps) then handled m u <$> lm_heap lm !! p else lm_heap lm !! p)
}.

(** Handling a listener does not depend on its slot. *)
Record placement_free (m : Listener -> bool) (u : Listener -> Listener) : Prop := {
  pf_match l : m (unplace l) = m l;
  pf_update l : u (unplace l) = unplace (u l);
  pf_base l : l_base (u l) = l_base l
}.

Lemma unplace_eq_match m u l l' : placement_free m u -> unplace l = unplace l' -> m l = m l'.
Proof. intros Hm E. by rewrite <- (pf_match _ _ Hm l), E, (pf_match _ _ Hm). Qed.

Lemma handled_unplace_eq m u l :
  placement_free m u -> unplace (handled m u (unplace l)) = unplace (handled m u l).
Proof.
  intros Hm. unfold handled. rewrite (pf_match _ _ Hm), (pf_update _ _ Hm).
  change (getCounter (unplace l)) with (getCounter l).
  destruct (m l); [|done]. by destruct (getCounter l =? 1).
Qed.

Lemma handled_unplace m u (o o' : option Listener) :
  placement_free m u -> unplace <$> o = unplace <$> o' ->
  unplace <$> (handled m u <$> o) = unplace <$> (handled m u <$> o').
Proof.
  intros Hm E. destruct o as [l|], o' as [l'|]; cbn in *; try done. f_equal.
  rewrite <- (handled_unplace_eq m u l), <- (handled_unplace_eq m u l') by done. congruence.
Qed.

Lemma fires_unplace m u lm lm1 p :
  placement_free m u -> unplace <$> lm_heap lm1 !! p = unplace <$> lm_heap lm !! p ->
  fires m lm1 p = fires m lm p.
Proof.
  intros Hm E. unfold fires.
  destruct (lm_heap lm1 !! p) as [l1|], (lm_heap lm !! p) as [l|]; cbn in E; try done.
  assert (unplace l1 = unplace l) as E' by congruence.
  rewrite (unplace_eq_match m u l1 l) by done.
  change (getCounter l1) with (getCounter (unplace l1)). by rewrite E'.
Qed.

Lemma outcome_nil m u lm : wf lm -> outcome m u [] lm lm.
Proof.
  intros Hwf. split; [done|done|..].
  - rewrite list_filter_all; [done|]. set_solver.
  - exists []. by rewrite !app_nil_r.
  - intros p. by rewrite decide_False by set_solver.
Qed.

#[export] Instance outcome_proper m u : Proper ((≡ₚ) ==> eq ==> eq ==> iff) (outcome m u).
Proof.
  assert (forall ps qs lm lm', ps ≡ₚ qs -> outcome m u ps lm lm' -> outcome m u qs lm lm') as Hp.
  { intros ps qs lm lm' Hp [Hwf Hd Hb (new & Hf & Hl & Hn) Ho]. split; [done|done|..].
    - rewrite Hb. erewrite (list_filter_iff (fun p => ~ (p ∈ ps /\ _))); [done|].
      intros p. by setoid_rewrite Hp.
    - exists new. split; [done|]. split; [done|]. by rewrite Hn, Hp.
    - intros p. rewrite Ho. destruct (decide (p ∈ ps)) as [Hin|Hin].
      + by rewrite decide_True by (by rewrite <- Hp).
      + by rewrite decide_False by (by rewrite <- Hp). }
  intros ps qs E lm ? <- lm' ? <-. split; [by apply Hp|by apply Hp; symmetry].
Qed.

(** Adding one listener that does not fire. *)
Lemma outcome_cons_stay m u p l ps lm lm1 lm' :
  placement_free m u -> p ∉ ps -> lm_heap lm !! p = Some l -> fires m lm p = false ->
  lm1 = set_heap (<[p := handled m u l]> (lm_heap lm)) lm ->
  outcome m u ps lm1 lm' -> outcome m u (p :: ps) lm lm'.
Proof.
  intros Hm Hp Hl Hno -> [Hwf Hd Hb (new & Hf & Hlog & Hn) Ho]. simpl in *.
  assert (forall q, q ≠ p -> fires m (set_heap (<[p := handled m u l]> (lm_heap lm)) lm) q =
                             fires m lm q) as Hsame.
  { intros q Hq. unfold fires. simpl. by rewrite lookup_insert_ne. }
  split; [done|done|..].
  - rewrite Hb. erewrite list_filter_iff; [done|]. intros q. simpl. rewrite elem_of_cons.
    destruct (decide (q = p)) as [->|]; [rewrite Hno|rewrite Hsame by done; tauto].
    split; intros _ [? ?]; done.
  - exists new. split; [done|]. split; [done|]. rewrite Hn, filter_cons_False by (by rewrite Hno).
    erewrite list_filter_iff_strong; [done|]. intros q Hq. simpl. rewrite Hsame; [done|].
    by intros ->.
  - intros q. rewrite Ho. destruct (decide (q = p)) as [->|Hne].
    + rewrite (decide_False (P:=p ∈ ps)), decide_True by set_solver.
      by rewrite lookup_insert_eq, Hl.
    + rewrite lookup_insert_ne by done. destruct (decide (q ∈ ps)).
      * by rewrite decide_True by set_solver.
      * by rewrite decide_False by set_solver.
Qed.

(** Adding one listener that fires. *)
Lemma outcome_cons_fire m u p l i ps lm lm1 lm' :
  placement_free m u -> wf lm -> p ∉ ps -> lm_heap lm !! p = Some l -> fires m lm p = true ->
  m_BufferList lm !! i = Some p ->
  activated i p (u l) (upd_listener p u lm) lm1 ->
  outcome m u ps lm1 lm' -> outcome m u (p :: ps) lm lm'.
Proof.
  intros Hm Hwf0 Hp Hl Hyes Hi [_ Ab Af Ad Ap As Ao Al] [Hwf Hd Hb (new & Hf & Hlog & Hn) Ho].
  simpl in *.
  assert (forall q, q ≠ p -> unplace <$> lm_heap lm1 !! q = unplace <$> lm_heap lm !! q) as Hoth.
  { intros q Hq. rewrite Ao, lookup_alter_ne by done. done. }
  assert (forall q, q ≠ p -> fires m lm1 q = fires m lm q) as Hsame.
  { intros q Hq. by eapply fires_unplace; auto. }
  split; [done|congruence|..].
  - rewrite Hb, Ab. rewrite (elem_of_swap_remove i p) by (done || by eapply wf_core_NoDup, Hwf0).
    rewrite list_filter_filter. erewrite list_filter_iff; [done|]. intros q. simpl.
    rewrite elem_of_cons. destruct (decide (q = p)) as [->|]; [tauto|].
    rewrite Hsame by done. tauto.
  - exists (p :: new). rewrite Hf, Af, Hlog, Al, <- !app_assoc. split; [done|]. split; [done|].
    rewrite filter_cons_True by done. rewrite Hn. apply Permutation_skip.
    erewrite list_filter_iff_strong; [done|]. intros q Hq. simpl. rewrite Hsame; [done|].
    by intros ->.
  - intros q. rewrite Ho. destruct (decide (q = p)) as [->|Hne].
    + rewrite (decide_False (P:=p ∈ ps)), decide_True by set_solver.
      rewrite As, Hl. simpl. unfold handled. unfold fires in Hyes. rewrite Hl in Hyes.
      bool_hyps. rewrite H0. destruct (Z.eqb_spec (getCounter l) 1); [done|].
      bool_hyps. done.
    + assert (unplace <$> (handled m u <$> lm_heap lm1 !! q) =
              unplace <$> (handled m u <$> lm_heap lm !! q)) as Hh.
      { by apply handled_unplace, Hoth. }
      destruct (decide (q ∈ ps)).
      * rewrite decide_True by set_solver. done.
      * rewrite decide_False by set_solver. auto.
Qed.

(** *** The loop over the buffer-list *)

Lemma event_benign m u : event_laws m u -> benign u.
Proof.
  intros [_ Hb _ Hc]. split.
  - intros l. unfold getLocation. by rewrite Hb.
  - intros l. unfold getPerformanceBuffer. by rewrite Hb.
  - intros l h. apply Hc.
Qed.

Lemma event_placement_free m u : event_laws m u -> placement_free m u.
Proof.
  intros [Hm Hb Hu _]. split; [|intros l; apply Hu|done].
  intros l. rewrite <- (Hm l None (getPerformanceBuffer l)). by destruct l as [[] ?].
Qed.

Lemma event_counter m u l : event_laws m u -> getCounter (u l) = getCounter l.
Proof. intros [_ Hb _ _]. unfold getCounter. by rewrite Hb. Qed.

(** The matching listeners are counting and not on a performance
    buffer-list. *)
Definition ready (m : Listener -> bool) (ps : list ptr) lm : Prop :=
  forall p l, p ∈ ps -> lm_heap lm !! p = Some l -> m l = true ->
    getPerformanceBuffer l = None /\ 1 <= getCounter l < 2 ^ 32.

Lemma ready_others m u p ps lm lm1 :
  placement_free m u -> p ∉ ps ->
  (forall q, q ≠ p -> unplace <$> lm_heap lm1 !! q = unplace <$> lm_heap lm !! q) ->
  ready m ps lm -> ready m ps lm1.
Proof.
  intros Hm Hp Ho Hr q l1 Hq Hl1 Hml. specialize (Ho q ltac:(by intros ->)).
  rewrite Hl1 in Ho. destruct (lm_heap lm !! q) as [l|] eqn:Hl; [|done]. cbn in Ho.
  assert (unplace l1 = unplace l) as E by congruence.
  rewrite (unplace_eq_match m u l1 l) in Hml by done.
  destruct (Hr q l Hq Hl Hml) as [Hh Hc].
  change (getPerformanceBuffer l1) with (getPerformanceBuffer (unplace l1)).
  change (getCounter l1) with (getCounter (unplace l1)). by rewrite E.
Qed.

Lemma upd_listener_insert p f l lm :
  lm_heap lm !! p = Some l -> upd_listener p f lm = set_heap (<[p := f l]> (lm_heap lm)) lm.
Proof. intros Hl. unfold upd_listener. by rewrite (alter_as_insert _ _ _ _ Hl). Qed.

(** One matching listener: it keeps counting in its slot, or it fires. *)
Lemma makeActive_it_event m u it p l lm :
  event_laws m u -> wf lm -> m_BufferList lm !! it = Some p -> lm_heap lm !! p = Some l ->
  m l = true -> getPerformanceBuffer l = None -> 1 <= getCounter l < 2 ^ 32 ->
  if fires m lm p
  then exists lm1, makeActive_it it (upd_listener p u lm) = Some (it, lm1) /\
         activated it p (u l) (upd_listener p u lm) lm1
  else makeActive_it it (upd_listener p u lm) =
         Some (S it, set_heap (<[p := handled m u l]> (lm_heap lm)) lm).
Proof.
  intros Hlaws Hwf Hp Hl Hml Hh Hc.
  assert (lm_heap (upd_listener p u lm) !! p = Some (u l)) as Hlu.
  { simpl. by rewrite lookup_alter_eq, Hl. }
  pose proof (event_benign _ _ Hlaws) as Hben.
  pose proof (makeActive_it_spec (upd_listener p u lm) it p (u l) (wf_upd _ _ _ Hben Hwf) Hp Hlu)
    as Hspec.
  rewrite (event_counter m u l Hlaws), (benign_home _ Hben) in Hspec. specialize (Hspec Hh Hc).
  unfold fires, handled. rewrite Hl, Hml. simpl.
  destruct (Z.eqb_spec (getCounter l) 1) as [E1|E1], (Z.ltb_spec 1 (getCounter l)); try lia; [done|].
  rewrite Hspec. do 2 f_equal.
  rewrite (upd_listener_insert _ _ _ _ Hlu), (upd_listener_insert _ _ _ _ Hl).
  unfold set_heap. simpl. by rewrite insert_insert_eq.
Qed.

Lemma slot_fresh it p (b : list ptr) : NoDup b -> b !! it = Some p -> p ∉ drop (S it) b.
Proof.
  intros Hnd Hp. rewrite <- (take_drop_middle _ _ _ Hp) in Hnd.
  apply NoDup_app in Hnd as (_ & _ & Hnd). by apply NoDup_cons in Hnd as [? _].
Qed.

Lemma wf_insert_handled m u p l lm :
  event_laws m u -> wf lm -> lm_heap lm !! p = Some l -> fires m lm p = false ->
  wf (set_heap (<[p := handled m u l]> (lm_heap lm)) lm).
Proof.
  intros Hlaws Hwf Hl Hno. unfold handled. unfold fires in Hno. rewrite Hl in Hno.
  destruct (m l); simpl in Hno; [rewrite Hno|by rewrite insert_id; [destruct lm|]].
  change (decreaseCounter (u l)) with ((decreaseCounter ∘ u) l).
  rewrite <- (upd_listener_insert p (decreaseCounter ∘ u)) by done.
  apply wf_upd, Hwf. apply benign_compose; [apply benign_decreaseCounter|by eapply event_benign].
Qed.

Lemma scan_spec m u n it lm :
  event_laws m u -> wf lm -> ready m (drop it (m_BufferList lm)) lm ->
  (length (m_BufferList lm) - it <= n)%nat ->
  exists lm', scan n m u it lm = Some lm' /\ outcome m u (drop it (m_BufferList lm)) lm lm'.
Proof.
  intros Hlaws. pose proof (event_placement_free _ _ Hlaws) as Hpf.
  revert it lm. induction n as [|n IH]; intros it lm Hwf Hr Hn; cbn [scan];
    destruct (Nat.ltb_spec it (length (m_BufferList lm))) as [Hi|Hi]; try lia;
    try (rewrite drop_ge by lia; eauto using outcome_nil).
  destruct (lookup_lt_is_Some_2 _ _ Hi) as [p Hp]. rewrite Hp. obind.
  destruct (proj1 (wf_loc _ _ _ (proj1 Hwf) it p) Hp) as (l & Hl & _). rewrite Hl. obind.
  pose proof (slot_fresh _ _ _ (wf_core_NoDup _ _ _ (proj1 Hwf)) Hp) as Hnin.
  rewrite (drop_S _ _ _ Hp) in Hr |- *.
  assert (ready m (drop (S it) (m_BufferList lm)) lm) as Hr'.
  { intros q lq Hq. apply Hr. set_solver. }
  assert (fires m lm p = false -> exists lm',
            scan n m u (S it) (set_heap (<[p := handled m u l]> (lm_heap lm)) lm) = Some lm' /\
            outcome m u (p :: drop (S it) (m_BufferList lm)) lm lm') as Hstay.
  { intros Hno. destruct (IH (S it) (set_heap (<[p := handled m u l]> (lm_heap lm)) lm))
      as (lm' & E & Ho); [by apply wf_insert_handled| |simpl; lia|].
    - apply (ready_others m u p _ lm); try done. intros q Hq. simpl. by rewrite lookup_insert_ne.
    - exists lm'. split; [done|]. by eapply outcome_cons_stay. }
  destruct (m l) eqn:Hml.
  2:{ destruct Hstay as (lm' & E & Ho); [unfold fires; by rewrite Hl, Hml|]. exists lm'.
      unfold handled in E. rewrite Hml, insert_id in E by done. split; [by destruct lm|done]. }
  destruct (Hr p l) as [Hh Hc]; [set_solver|done|done|].
  pose proof (makeActive_it_event m u it p l lm Hlaws Hwf Hp Hl Hml Hh Hc) as Hstep.
  destruct (fires m lm p) eqn:Hf.
  2:{ rewrite Hstep. obind. by apply Hstay. }
  destruct Hstep as (lm1 & E1 & Hact). rewrite E1. obind.
  pose proof (act_buf _ _ _ _ _ Hact) as Hbuf. simpl in Hbuf.
  pose proof (drop_swap_remove _ _ _ Hp) as Hd. rewrite (drop_S _ _ _ Hp) in Hd.
  apply (Permutation_cons_inv (a := p)) in Hd.
  destruct (IH it lm1) as (lm' & E & Ho).
  - apply Hact.
  - rewrite Hbuf. apply (ready_others m u p _ lm); [done|by rewrite Hd| |].
    + intros q Hq. rewrite (act_others _ _ _ _ _ Hact) by done. simpl. by rewrite lookup_alter_ne.
    + intros q lq Hq. apply Hr'. by rewrite <- Hd.
  - rewrite Hbuf. pose proof (length_swap_remove _ _ _ Hp). lia.
  - exists lm'. split; [done|]. rewrite Hbuf, Hd in Ho. by eapply outcome_cons_fire.
Qed.

(** *** The performance buffer-lists *)

Definition matched (m : Listener -> bool) lm (p : ptr) : bool :=
  match lm_heap lm !! p with Some l => m l | None => false end.

(** A linked listener, in the slot its list stores. *)
Definition linked (h : perfbuf) lm (i : nat) (p : ptr) : Prop :=
  m_BufferList lm !! i = Some p /\
  exists l, lm_heap lm !! p = Some l /\ getPerformanceBuffer l = Some h.

(** [gather] only sets trigger data. *)
Record gathered (m : Listener -> bool) (u : Listener -> Listener) (ps : list ptr) lm lm1 : Prop := {
  ga_wf : wf lm1;
  ga_buf : m_BufferList lm1 = m_BufferList lm;
  ga_fire : m_FireList lm1 = m_FireList lm;
  ga_del : (m_DeleteList lm1, m_pFired lm1) = (m_DeleteList lm, m_pFired lm);
  ga_log : lm_onDeletion lm1 = lm_onDeletion lm;
  ga_heap p : lm_heap lm1 !! p =
    if decide (p ∈ ps /\ matched m lm p = true) then u <$> lm_heap lm !! p else lm_heap lm !! p
}.

Lemma gather_loop_spec h m u idxs ps res lm :
  event_laws m u -> wf lm -> NoDup ps -> Forall2 (linked h lm) idxs ps ->
  exists lm1,
    gather_loop h m u idxs res lm = Some (res ++ filter (fun p => matched m lm p = true) ps, lm1) /\
    gathered m u ps lm lm1.
Proof.
  intros Hlaws. revert ps res lm.
  induction idxs as [|i idxs IH]; intros ps res lm Hwf Hnd HF; cbn [gather_loop].
  { apply Forall2_nil_inv_l in HF as ->. exists lm. rewrite filter_nil, app_nil_r.
    split; [done|]. by split. }
  apply Forall2_cons_inv_l in HF as (p & ps' & [Hi (l & Hl & Hh)] & HF & ->).
  apply NoDup_cons in Hnd as [Hp Hnd]. unfold dereference. rewrite Hi. obind. rewrite Hl. obind.
  rewrite bool_decide_eq_true_2 by (by eapply (wf_kind _ _ _ (proj1 Hwf))).
  destruct (m l) eqn:Hml.
  - pose proof (event_benign _ _ Hlaws) as Hben.
    assert (forall q, q ≠ p -> lm_heap (upd_listener p u lm) !! q = lm_heap lm !! q) as Hne.
    { intros q Hq. simpl. by rewrite lookup_alter_ne. }
    assert (forall q, q ≠ p -> matched m (upd_listener p u lm) q = matched m lm q) as Hme.
    { intros q Hq. unfold matched. by rewrite Hne. }
    destruct (IH ps' (ResultSet.add p res) (upd_listener p u lm)) as (lm1 & E & [Hwf1 ? ? ? ? Hg]);
      [by apply wf_upd|done| |].
    { eapply Forall2_impl; [exact HF|]. intros j q (Hj & lq & Hlq & Hhq). split; [done|].
      destruct (decide (q = p)) as [->|]; [|exists lq; by rewrite Hne].
      exists (u l). simpl. rewrite lookup_alter_eq, Hl, (benign_home _ Hben). done. }
    exists lm1. rewrite E, filter_cons_True by (unfold matched; by rewrite Hl).
    unfold ResultSet.add. rewrite <- app_assoc. simpl. split.
    + do 4 f_equal. apply list_filter_iff_strong. intros q Hq. rewrite Hme; [done|]. by intros ->.
    + split; try done. intros q. rewrite Hg. destruct (decide (q = p)) as [->|Hq].
      * rewrite decide_False, decide_True by (unfold matched; rewrite ?Hl; set_solver).
        simpl. by rewrite lookup_alter_eq.
      * rewrite Hne, Hme by done.
        by rewrite (decide_ext (q ∈ ps' /\ _) (q ∈ p :: ps' /\ matched m lm q = true)) by set_solver.
  - destruct (IH ps' res lm) as (lm1 & E & [? ? ? ? ? Hg]); [done..|].
    exists lm1. rewrite E, filter_cons_False by (unfold matched; by rewrite Hl, Hml).
    split; [done|]. split; try done. intros q. rewrite Hg.
    rewrite (decide_ext (q ∈ ps' /\ _) (q ∈ p :: ps' /\ matched m lm q = true)); [done|].
    destruct (decide (q = p)) as [->|]; [|set_solver]. unfold matched. rewrite Hl, Hml. naive_solver.
Qed.

(** [makeActive(pLi)] on a linked listener. *)
Definition counting (ps : list ptr) lm : Prop :=
  forall p, p ∈ ps -> exists l h, lm_heap lm !! p = Some l /\ getPerformanceBuffer l = Some h /\
                            1 <= getCounter l < 2 ^ 32.

Lemma counting_others p ps lm lm1 :
  p ∉ ps -> (forall q, q ≠ p -> unplace <$> lm_heap lm1 !! q = unplace <$> lm_heap lm !! q) ->
  counting ps lm -> counting ps lm1.
Proof.
  intros Hp Ho Hc q Hq. specialize (Ho q ltac:(by intros ->)).
  destruct (Hc q Hq) as (l & h & Hl & Hh & Hcnt). rewrite Hl in Ho.
  destruct (lm_heap lm1 !! q) as [l1|] eqn:Hl1; [|done]. cbn in Ho.
  assert (unplace l1 = unplace l) as E by congruence. exists l1, h. split; [done|].
  change (getPerformanceBuffer l1) with (getPerformanceBuffer (unplace l1)).
  change (getCounter l1) with (getCounter (unplace l1)). by rewrite E.
Qed.

Lemma drain_spec n res lm :
  wf lm -> NoDup res -> counting res lm -> (length res <= n)%nat ->
  exists lm', drain n res lm = Some lm' /\ outcome (fun _ => true) id res lm lm'.
Proof.
  assert (placement_free (fun _ => true) id) as Hpf by done.
  revert res lm. induction n as [|n IH]; intros res lm Hwf Hnd Hc Hn;
    destruct res as [|p res _] using rev_ind; try (rewrite length_app in Hn; simpl in Hn);
    try lia; try (cbn; by eauto using outcome_nil).
  cbn [drain]. rewrite ResultSet.hasMore_snoc, ResultSet.getNext_snoc. obind.
  destruct (Hc p) as (l & h & Hl & Hh & Hcnt); [set_solver|].
  assert (p ∉ res) as Hp.
  { apply NoDup_app in Hnd as (_ & Hd & _). intros Hin. apply (Hd p Hin). set_solver. }
  assert (NoDup res) as Hnd' by (by apply NoDup_app in Hnd as (? & _ & _)).
  assert (counting res lm) as Hc' by (intros q Hq; apply Hc; set_solver).
  destruct (linked_slot lm p l h Hwf Hl Hh) as [i Hi].
  pose proof (makeActive_perf_spec lm p l i h Hwf Hi Hl Hh Hcnt) as Hspec.
  destruct (Z.ltb_spec 1 (getCounter l)).
  - rewrite Hspec. obind.
    destruct (IH res (upd_listener p decreaseCounter lm)) as (lm' & E & Ho);
      [by apply counting_wf|done| |lia|].
    { apply (counting_others p res lm); try done. intros q Hq. simpl. by rewrite lookup_alter_ne. }
    rewrite E. exists lm'. split; [done|]. rewrite <- Permutation_cons_append.
    apply (outcome_cons_stay _ _ p l res lm (upd_listener p decreaseCounter lm)); try done.
    + unfold fires. rewrite Hl. simpl. apply Z.eqb_neq. lia.
    + rewrite (upd_listener_insert _ _ _ _ Hl). unfold handled. simpl.
      by rewrite (proj2 (Z.eqb_neq _ _)) by lia.
  - destruct Hspec as (lm1 & E1 & Hact). rewrite E1. obind.
    destruct (IH res lm1) as (lm' & E & Ho); [apply Hact|done| |lia|].
    { apply (counting_others p res lm); try done. by apply Hact. }
    rewrite E. exists lm'. split; [done|]. rewrite <- Permutation_cons_append.
    apply (outcome_cons_fire _ id p l i res lm lm1); try done.
    + unfold fires. rewrite Hl. simpl. apply Z.eqb_eq. lia.
    + rewrite (upd_listener_insert _ _ _ _ Hl). unfold id. rewrite insert_id by done.
      by destruct lm.
Qed.

(** The listeners in the slots of list [h]. *)
Lemma linked_listeners h lm :
  wf lm -> exists ps, Forall2 (linked h lm) (pb_elems (perf_get h (lm_perf lm))) ps /\ NoDup ps /\
    forall p, p ∈ ps <-> exists l, lm_heap lm !! p = Some l /\ getPerformanceBuffer l = Some h.
Proof.
  intros Hwf. pose proof (proj1 Hwf) as [Wl Wh Wn Wp _].
  assert (forall idxs, (forall i, i ∈ idxs -> i ∈ pb_elems (perf_get h (lm_perf lm))) ->
            exists ps, Forall2 (linked h lm) idxs ps) as Hex.
  { induction idxs as [|i idxs IH]; intros Hi; [by exists []|].
    destruct IH as [ps Hps]; [set_solver|].
    destruct (proj1 (Wp h i)) as (p & l & Hl & Hloc & Hh); [apply Hi; set_solver|].
    exists (p :: ps). constructor; [|done]. split; [apply Wl|]; eauto. }
  destruct (Hex _ (fun i Hi => Hi)) as [ps Hps]. exists ps. split; [done|]. split.
  - apply NoDup_alt. intros a b p Ha Hb.
    destruct (Forall2_lookup_r _ _ _ _ _ Hps Ha) as (i & Hi & Hip & _).
    destruct (Forall2_lookup_r _ _ _ _ _ Hps Hb) as (j & Hj & Hjp & _).
    pose proof (wf_core_NoDup _ _ _ (proj1 Hwf)) as Hnd.
    rewrite (NoDup_lookup _ _ _ _ Hnd Hip Hjp) in Hi.
    eapply NoDup_lookup; [apply (Wn h)|exact Hi|exact Hj].
  - intros p. split.
    + intros [k Hk]%list_elem_of_lookup.
      by destruct (Forall2_lookup_r _ _ _ _ _ Hps Hk) as (i & _ & _ & ?).
    + intros (l & Hl & Hh). destruct (getLocation l) as [i|] eqn:Hloc.
      2:{ pose proof (Wh _ _ Hl Hloc). congruence. }
      assert (i ∈ pb_elems (perf_get h (lm_perf lm))) as Hi by (apply Wp; eauto).
      apply list_elem_of_lookup in Hi as [k Hk].
      destruct (Forall2_lookup_l _ _ _ _ _ Hps Hk) as (q & Hq & Hqi & _).
      assert (m_BufferList lm !! i = Some p) by (apply Wl; eauto).
      assert (q = p) as -> by congruence. by eapply list_elem_of_lookup_2.
Qed.

(** [m], restricted to the listeners on list [h]. *)
Definition m_on (h : perfbuf) (m : Listener -> bool) (l : Listener) : bool :=
  m l && bool_decide (getPerformanceBuffer l = Some h).

(** From gathering and draining to the common outcome. *)
Lemma outcome_gathered h m u ps lm lm1 lm' :
  event_laws m u -> wf lm -> NoDup ps ->
  (forall p, p ∈ ps <-> exists l, lm_heap lm !! p = Some l /\ getPerformanceBuffer l = Some h) ->
  gathered m u ps lm lm1 ->
  outcome (fun _ => true) id (filter (fun p => matched m lm p = true) ps) lm1 lm' ->
  outcome (m_on h m) u (m_BufferList lm) lm lm'.
Proof.
  intros Hlaws Hwf Hnd Hps [_ Gb Gf Gd Gl Gh] [Hwf' Hd Hb (new & Hf & Hlog & Hn) Ho].
  assert (forall p, fires (m_on h m) lm p = true <->
            (p ∈ filter (fun p => matched m lm p = true) ps) /\ fires (fun _ => true) lm1 p = true) as Hfire.
  { intros p. rewrite list_elem_of_filter, Hps. unfold fires. rewrite Gh.
    unfold m_on, matched. destruct (lm_heap lm !! p) as [l|] eqn:Hl.
    - case_decide as Hc; simpl; rewrite ?(event_counter m u l Hlaws), ?andb_true_iff, ?bool_decide_eq_true;
        rewrite ?Hps in Hc; naive_solver.
    - split; [done|]. intros [[? ?] _]. done. }
  assert (forall p, fires (m_on h m) lm p = true -> p ∈ m_BufferList lm) as Hbuf.
  { intros p. rewrite Hfire, list_elem_of_filter, Hps. intros [[_ (l & Hl & Hh)] _].
    destruct (linked_slot lm p l h Hwf Hl Hh) as [i Hi]. by eapply list_elem_of_lookup_2. }
  split; [done|congruence|..].
  - rewrite Hb, Gb. erewrite list_filter_iff; [done|]. intros p. simpl. rewrite Hfire. naive_solver.
  - exists new. rewrite Hf, Hlog, Gf, Gl. split; [done|]. split; [done|]. rewrite Hn.
    apply NoDup_Permutation.
    + by repeat apply NoDup_filter.
    + apply NoDup_filter. by eapply wf_core_NoDup, Hwf.
    + intros p. rewrite list_elem_of_filter, (list_elem_of_filter _ (m_BufferList lm)).
      pose proof (Hbuf p). rewrite Hfire in *. tauto.
  - intros p. rewrite Ho, Gh.
    rewrite (decide_ext (p ∈ ps /\ _) (p ∈ filter (fun p => matched m lm p = true) ps)).
    2:{ rewrite list_elem_of_filter. tauto. }
    destruct (decide (p ∈ filter _ ps)) as [Hin|Hin].
    + apply list_elem_of_filter in Hin as [Hm Hin].
      apply Hps in Hin as (l & Hl & Hh).
      destruct (linked_slot lm p l h Hwf Hl Hh) as [i Hi].
      rewrite decide_True by (by eapply list_elem_of_lookup_2).
      unfold matched in Hm. rewrite Hl in Hm |- *. simpl. unfold handled, m_on. rewrite Hm, Hh.
      rewrite bool_decide_eq_true_2 by done. simpl. by rewrite (event_counter m u l Hlaws).
    + destruct (decide (p ∈ m_BufferList lm)); [|done].
      destruct (lm_heap lm !! p) as [l|] eqn:Hl; [|done]. simpl. unfold handled, m_on.
      destruct (m l) eqn:Hml; [|done]. case_bool_decide as Hh; [|done].
      destruct Hin. apply list_elem_of_filter. split; [unfold matched; by rewrite Hl|].
      apply Hps. eauto.
Qed.

Lemma fast_activate_spec h m u lm :
  event_laws m u -> wf lm ->
  (forall p l, lm_heap lm !! p = Some l -> getPerformanceBuffer l = Some h -> m l = true ->
     1 <= getCounter l < 2 ^ 32) ->
  exists lm', fast_activate h m u lm = Some lm' /\
    outcome (m_on h m) u (m_BufferList lm) lm lm'.
Proof.
  intros Hlaws Hwf Hc. destruct (linked_listeners h lm Hwf) as (ps & HF & Hnd & Hps).
  unfold fast_activate, gather.
  destruct (gather_loop_spec h m u _ ps ResultSet.empty lm Hlaws Hwf Hnd HF) as (lm1 & E & Hg).
  rewrite E. obind. cbn [app ResultSet.empty].
  destruct (drain_spec (ResultSet.size (filter (fun p => matched m lm p = true) ps))
              (filter (fun p => matched m lm p = true) ps) lm1) as (lm' & E' & Ho).
  - apply Hg.
  - by apply NoDup_filter.
  - intros p [Hm Hp]%list_elem_of_filter. rewrite (ga_heap _ _ _ _ _ Hg), decide_True by done.
    pose proof Hp as (l & Hl & Hh)%Hps. unfold matched in Hm. rewrite Hl in Hm |- *.
    exists (u l), h. split; [done|]. rewrite (event_counter m u l Hlaws).
    rewrite (benign_home _ (event_benign _ _ Hlaws)). split; [done|]. by eapply Hc.
  - done.
  - exists lm'. split; [done|]. by eapply outcome_gathered.
Qed.

(** *** Two lists after one another *)

Lemma fires_ext m m' lm p :
  (forall l, lm_heap lm !! p = Some l -> m l = m' l) -> fires m lm p = fires m' lm p.
Proof. intros E. unfold fires. destruct (lm_heap lm !! p) as [l|]; [|done]. by rewrite E. Qed.

Lemma outcome_ext m m' u ps lm lm' :
  (forall p l, p ∈ ps -> lm_heap lm !! p = Some l -> m l = m' l) ->
  outcome m u ps lm lm' -> outcome m' u ps lm lm'.
Proof.
  intros E [Hwf Hd Hb (new & Hf & Hlog & Hn) Ho].
  assert (forall p, p ∈ ps -> fires m lm p = fires m' lm p) as Ef by (intros; apply fires_ext; eauto).
  split; [done|done|..].
  - rewrite Hb. erewrite list_filter_iff; [done|]. intros p. simpl.
    split; intros Hnot [Hp Hfi]; apply Hnot; (split; [done|]); [by rewrite Ef|by rewrite <- Ef].
  - exists new. split; [done|]. split; [done|]. rewrite Hn.
    erewrite list_filter_iff_strong; [done|]. intros p Hp. simpl. by rewrite Ef.
  - intros p. rewrite Ho. case_decide as Hp; [|done]. destruct (lm_heap lm !! p) as [l|] eqn:Hl; [|done].
    simpl. unfold handled. by rewrite (E p l).
Qed.

Section seq.
Context (m1 m2 : Listener -> bool) (u : Listener -> Listener) (lm lm1 lm2 : ListenerManager B).
Hypothesis pf1 : placement_free m1 u.
Hypothesis pf2 : placement_free m2 u.
Hypothesis Hcnt : forall l, getCounter (u l) = getCounter l.
Hypothesis Hdis : forall l, m1 l = true -> m2 l = false /\ m2 (decreaseCounter (u l)) = false.
Hypothesis Hwf : wf lm.
Hypothesis Ho1 : outcome m1 u (m_BufferList lm) lm lm1.
Hypothesis Ho2 : outcome m2 u (m_BufferList lm1) lm1 lm2.

Let m12 (l : Listener) : bool := m1 l || m2 l.

Lemma seq_buf1 p : p ∈ m_BufferList lm1 <-> p ∈ m_BufferList lm /\ fires m1 lm p = false.
Proof.
  rewrite (out_buf _ _ _ _ _ Ho1), list_elem_of_filter.
  destruct (fires m1 lm p); naive_solver.
Qed.

(** A buffered listener seen after the first list: either untouched, or
    decremented and invisible to the second. *)
Lemma seq_heap1 p l :
  p ∈ m_BufferList lm -> fires m1 lm p = false -> lm_heap lm !! p = Some l ->
  exists l1, lm_heap lm1 !! p = Some l1 /\
    unplace l1 = unplace (if m1 l then decreaseCounter (u l) else l) /\
    m2 l1 = (if m1 l then false else m2 l).
Proof.
  intros Hp Hf Hl. pose proof (out_objs _ _ _ _ _ Ho1 p) as Ho. rewrite decide_True, Hl in Ho by done.
  destruct (lm_heap lm1 !! p) as [l1|]; [|done]. exists l1. split; [done|]. cbn in Ho.
  unfold handled in Ho. unfold fires in Hf. rewrite Hl in Hf.
  destruct (m1 l) eqn:Hm1; simpl in Hf; [rewrite Hf in Ho|].
  - split; [congruence|]. rewrite (unplace_eq_match m2 u l1 (decreaseCounter (u l))) by (done || congruence).
    by apply Hdis.
  - split; [congruence|]. apply (unplace_eq_match m2 u); [done|congruence].
Qed.

Lemma seq_fires p :
  p ∈ m_BufferList lm ->
  fires m12 lm p = true <->
  fires m1 lm p = true \/ (fires m1 lm p = false /\ fires m2 lm1 p = true).
Proof.
  intros Hp. apply list_elem_of_lookup in Hp as [i Hi].
  destruct (proj1 (wf_loc _ _ _ (proj1 Hwf) i p) Hi) as (l & Hl & _).
  apply list_elem_of_lookup_2 in Hi.
  destruct (fires m1 lm p) eqn:Hf1.
  - split; [auto|]. intros _. unfold fires in *. rewrite Hl in *. unfold m12.
    destruct (m1 l); [done|done].
  - destruct (seq_heap1 p l Hi Hf1 Hl) as (l1 & Hl1 & El1 & Em2).
    assert (fires m12 lm p = fires m2 lm1 p) as ->; [|naive_solver].
    unfold fires in *. rewrite Hl, Hl1 in *. unfold m12. rewrite Em2.
    destruct (m1 l); simpl in *; [done|].
    change (getCounter l1) with (getCounter (unplace l1)). by rewrite El1.
Qed.

Lemma outcome_seq : outcome m12 u (m_BufferList lm) lm lm2.
Proof.
  pose proof Ho1 as [_ Hd1 Hb1 (new1 & Hf1 & Hlog1 & Hn1) Hob1].
  pose proof Ho2 as [Hwf2 Hd2 Hb2 (new2 & Hf2 & Hlog2 & Hn2) Hob2].
  pose proof (wf_core_NoDup _ _ _ (proj1 Hwf)) as Hnd.
  split; [done|congruence|..].
  - rewrite Hb2. etrans; [apply filter_Permutation, Hb1|]. rewrite list_filter_filter.
    erewrite list_filter_iff_strong; [done|]. intros p Hp. simpl.
    pose proof (seq_fires p Hp). rewrite seq_buf1. destruct (fires m1 lm p); intuition congruence.
  - exists (new1 ++ new2). rewrite Hf2, Hf1, Hlog2, Hlog1, <- !app_assoc. split; [done|]. split; [done|].
    rewrite Hn1, Hn2. apply NoDup_Permutation.
    + apply NoDup_app. split; [by apply NoDup_filter|]. split.
      * intros p [Hf _]%list_elem_of_filter [_ [_ Hp]%seq_buf1]%list_elem_of_filter. congruence.
      * apply NoDup_filter. apply (wf_core_NoDup _ _ _ (proj1 (out_wf _ _ _ _ _ Ho1))).
    + by apply NoDup_filter.
    + intros p. rewrite elem_of_app, !list_elem_of_filter, seq_buf1.
      pose proof (seq_fires p). destruct (fires m1 lm p); intuition congruence.
  - intros p. rewrite Hob2.
    destruct (decide (p ∈ m_BufferList lm)) as [Hp|Hp].
    2:{ rewrite decide_False by (rewrite seq_buf1; tauto). rewrite Hob1. by rewrite decide_False. }
    pose proof Hp as [i Hi]%list_elem_of_lookup.
    destruct (proj1 (wf_loc _ _ _ (proj1 Hwf) i p) Hi) as (l & Hl & _). rewrite Hl. simpl.
    destruct (fires m1 lm p) eqn:Hfp.
    + rewrite decide_False by (rewrite seq_buf1; intuition congruence). rewrite Hob1, decide_True, Hl by done.
      simpl. unfold handled, m12. unfold fires in Hfp. rewrite Hl in Hfp. by destruct (m1 l).
    + rewrite decide_True by (by apply seq_buf1).
      destruct (seq_heap1 p l Hp Hfp Hl) as (l1 & Hl1 & El1 & Em2). rewrite Hl1. simpl.
      unfold handled, m12. rewrite Em2. destruct (m1 l) eqn:Hm1; simpl.
      * unfold fires in Hfp. rewrite Hl, Hm1 in Hfp. simpl in Hfp. rewrite Hfp. by rewrite El1.
      * change (getCounter l1) with (getCounter (unplace l1)). rewrite El1.
        destruct (m2 l); [|by rewrite El1]. simpl.
        pose proof (pf_update _ _ pf2 l1) as E1. pose proof (pf_update _ _ pf2 l) as E2.
        rewrite El1, E2 in E1. simpl in E1.
        change (getCounter (unplace l)) with (getCounter l).
        destruct (getCounter l =? 1); f_equal.
        -- change (strip (resetCounter (u l1))) with (strip (resetCounter (unplace (u l1)))).
           by rewrite <- E1.
        -- change (unplace (decreaseCounter (u l1))) with (decreaseCounter (unplace (u l1))).
           by rewrite <- E1.
Qed.
End seq.
End loops.
