(* ===== verification/Controller.v ===== *)
(** * SimulatorController

    [src/core/sal/SimulatorController.{hpp,cc}]: the interface between the
    simulator back-end, the experiment flows and the listener manager, with the
    [addListener] overloads and handlers that the fast-breakpoint and
    fast-watchpoint aspects weave in ([src/core/sal/perf/*.ah]).

    Experiments are arbitrary code; what one does between being toggled and
    calling [resume()] is a list of [exp_cmd], chosen by a parameter [react]
    from the state it finds. *)
From S2P Require Import Prelude Events Listeners PerfBuffers ListenerManager ListenerTheorems.
From S2P Require Import Coroutines EventHandlers.

(** The build-time switches. *)
Record FastConfig := mkFastConfig {
  CONFIG_FAST_BREAKPOINTS : bool;
  CONFIG_FAST_WATCHPOINTS : bool
}.

Record SimulatorController (B : Type) := mkSC {
  m_isInitialized : bool;
  m_LstList : ListenerManager B;
  m_Experiments : list (string * flow);
  sc_Flows : CoroutineManager;
  m_CPUs : list cpu;
  m_argv0 : string
}.
Arguments mkSC {B}.
Arguments m_isInitialized {B}.
Arguments m_LstList {B}.
Arguments m_Experiments {B}.
Arguments sc_Flows {B}.
Arguments m_CPUs {B}.
Arguments m_argv0 {B}.

Section controller.
Context {B : Type} `{PerfBufferBase B}.
Implicit Types (sc : SimulatorController B) (lm : ListenerManager B) (cm : CoroutineManager).

Definition new_SimulatorController (simCoro : nat) : SimulatorController B :=
  mkSC false new_ListenerManager [] (new_CoroutineManager simCoro) [] EmptyString.

Definition set_LstList lm sc : SimulatorController B :=
  mkSC (m_isInitialized sc) lm (m_Experiments sc) (sc_Flows sc) (m_CPUs sc) (m_argv0 sc).
Definition set_Flows cm sc : SimulatorController B :=
  mkSC (m_isInitialized sc) (m_LstList sc) (m_Experiments sc) cm (m_CPUs sc) (m_argv0 sc).

(** ** Listener interface *)

(** The performance buffer-list a listener's class is kept on. *)
Definition fast_home (cfg : FastConfig) (c : listener_class) : option perfbuf :=
  match c with
  | BPSingleListener _ _ => if CONFIG_FAST_BREAKPOINTS cfg then Some PB_Single else None
  | BPRangeListener _ _ _ => if CONFIG_FAST_BREAKPOINTS cfg then Some PB_Range else None
  | MemAccessListener _ _ _ _ => if CONFIG_FAST_WATCHPOINTS cfg then Some PB_Mem else None
  | _ => None
  end.

(** [addListener(li)], with the aspects' dispatch on the dynamic class.
    [accepted] is what the virtual [li->onAddition()] returns. *)
Definition addListener_lm (cfg : FastConfig) (cur : option flow) (accepted : bool) (li : ptr) lm
    : option (bool * ListenerManager B) :=
  l ← lm_heap lm !! li;
  let pFlow := match cur with None => getParent l | Some f => Some f end in
  lm1 ← match fast_home cfg (l_class l) with
        | Some h => add_perf h li pFlow lm
        | None => add li pFlow lm
        end;
  if accepted then Some (true, lm1)
  else
    lm2 ← remove_listener cur (Some li) lm1;
    Some (false, lm2).

Definition addListener (cfg : FastConfig) (accepted : bool) (li : ptr) sc
    : option (bool * SimulatorController B) :=
  '(b, lm1) ← addListener_lm cfg (getCurrent (sc_Flows sc)) accepted li (m_LstList sc);
  Some (b, set_LstList lm1 sc).

Definition removeListener (li : option ptr) sc : option (SimulatorController B) :=
  lm1 ← remove_listener (getCurrent (sc_Flows sc)) li (m_LstList sc);
  Some (set_LstList lm1 sc).

Definition clearListeners (f : option flow) sc : option (SimulatorController B) :=
  lm1 ← remove_flow f (m_LstList sc);
  Some (set_LstList lm1 sc).

(** ** Experiments *)

Inductive exp_cmd :=
| X_new (p : ptr) (l : Listener)          (* a listener constructor *)
| X_setCounter (p : ptr) (val : Z)
| X_addListener (li : ptr) (accepted : bool)
| X_removeListener (li : option ptr)
| X_clearListeners (f : option flow)
| X_delete (li : ptr).                    (* a listener destructor *)

Definition run_cmd (cfg : FastConfig) (cur : option flow) (x : exp_cmd) lm
    : option (ListenerManager B) :=
  match x with
  | X_new p l =>
      match lm_heap lm !! p with
      | Some _ => None
      | None => Some (set_heap (<[p := l]> (lm_heap lm)) lm)
      end
  | X_setCounter p val => _ ← lm_heap lm !! p; Some (upd_listener p (setCounter val) lm)
  | X_addListener li accepted => snd <$> addListener_lm cfg cur accepted li lm
  | X_removeListener li => remove_listener cur li lm
  | X_clearListeners f => remove_flow f lm
  | X_delete li => destroy_listener cur li lm
  end.

Fixpoint run_cmds (cfg : FastConfig) (cur : option flow) (xs : list exp_cmd) lm
    : option (ListenerManager B) :=
  match xs with
  | [] => Some lm
  | x :: xs => lm1 ← run_cmd cfg cur x lm; run_cmds cfg cur xs lm1
  end.

(** [BaseListener::onTrigger]: toggle the parent flow.  The experiment runs
    until it calls [resume()], which hands the control back. *)
Definition onTrigger (cfg : FastConfig) (react : ptr -> ListenerManager B -> list exp_cmd)
    (p : ptr) cm lm : option (CoroutineManager * ListenerManager B) :=
  l ← lm_heap lm !! p;
  match getParent l with
  | None => None
  | Some parent =>
      cm1 ← toggle (Some parent) cm;
      lm1 ← run_cmds cfg (getCurrent cm1) (react p lm) lm;
      cm2 ← resume cm1;
      Some (cm2, lm1)
  end.

(** [m_LstList.triggerActiveListeners()] after a handler has activated the
    matching listeners. *)
Definition trigger (cfg : FastConfig) (react : ptr -> ListenerManager B -> list exp_cmd) lm sc
    : option (SimulatorController B) :=
  '(cm1, lm1) ← triggerActiveListeners (onTrigger cfg react) (sc_Flows sc) lm;
  Some (set_Flows cm1 (set_LstList lm1 sc)).

(** ** Handlers *)

Section handlers.
Context `{SalConfig} (cfg : FastConfig) (react : ptr -> ListenerManager B -> list exp_cmd).

(** What a handler does before it triggers. *)
Definition activate_breakpoint (c : option cpu) (instrPtr address_space : Z) lm
    : option (ListenerManager B) :=
  let tmp := new_BPEvent instrPtr address_space c in
  let m := BP_matching tmp in
  let u := BP_setTrigger c instrPtr in
  if CONFIG_FAST_BREAKPOINTS cfg then
    lm1 ← fast_activate PB_Single m u lm;
    fast_activate PB_Range m u lm1
  else activate_matching m u lm.

Definition activate_memory (c : option cpu) (addr len : Z) (is_write : bool) (instrPtr : Z) lm
    : option (ListenerManager B) :=
  let accesstype := if is_write then MEM_WRITE else MEM_READ in
  let tmp := new_MemAccessEvent addr len instrPtr accesstype c in
  let m := MemAccess_matching tmp in
  let u := MemAccess_setTrigger tmp in
  if CONFIG_FAST_WATCHPOINTS cfg then fast_activate PB_Mem m u lm
  else activate_matching m u lm.

Definition onBreakpoint (c : option cpu) (instrPtr address_space : Z) sc :=
  lm1 ← activate_breakpoint c instrPtr address_space (m_LstList sc);
  trigger cfg react lm1 sc.

Definition onMemoryAccess (c : option cpu) (addr len : Z) (is_write : bool) (instrPtr : Z) sc :=
  lm1 ← activate_memory c addr len is_write instrPtr (m_LstList sc);
  trigger cfg react lm1 sc.

Definition onInterrupt (c : option cpu) (interruptNum : Z) (nmi : bool) sc :=
  lm1 ← activate_matching (Interrupt_matching (new_InterruptEvent nmi interruptNum c))
          (Interrupt_setTrigger c interruptNum nmi) (m_LstList sc);
  trigger cfg react lm1 sc.

Definition onTrap (c : option cpu) (trapNum : Z) sc :=
  lm1 ← activate_matching (Trap_matching (new_TroubleEvent trapNum c))
          (Trap_setTrigger c trapNum) (m_LstList sc);
  trigger cfg react lm1 sc.

Definition onGuestSystem (data port : Z) sc :=
  lm1 ← activate_matching Guest_matching (Guest_setTrigger data port) (m_LstList sc);
  trigger cfg react lm1 sc.

Definition onJump (c : option cpu) (flagTriggered : bool) (opcode : Z) sc :=
  lm1 ← activate_matching Jump_matching (Jump_setTrigger c flagTriggered opcode) (m_LstList sc);
  trigger cfg react lm1 sc.

(** [BochsController::onIOPort] *)
Definition onIOPort (c : option cpu) (data port : Z) (out : bool) sc :=
  lm1 ← activate_matching (IOPort_matching port out) (IOPort_setTrigger c data) (m_LstList sc);
  trigger cfg react lm1 sc.
End handlers.

(** ** Flows, CPUs and experiment selection *)

(** [addFlow(flow)]: [h] is the handle of the new coroutine, [xs] what the
    experiment does until its first [resume()]. *)
Definition addFlow (cfg : FastConfig) (f : flow) (h : nat) (xs : list exp_cmd) sc
    : option (SimulatorController B) :=
  let cm0 := create f h (sc_Flows sc) in
  cm1 ← toggle (Some f) cm0;
  lm1 ← run_cmds cfg (getCurrent cm1) xs (m_LstList sc);
  cm2 ← resume cm1;
  Some (set_Flows cm2 (set_LstList lm1 sc)).

Definition removeFlow (f : flow) sc : option (pcl_action * SimulatorController B) :=
  sc1 ← clearListeners (Some f) sc;
  let '(a, cm1) := remove f (sc_Flows sc1) in
  Some (a, set_Flows cm1 sc1).

(** [ExperimentFlow::coroutine_entry] and [CoroutineManager::m_invoke] after
    [run()] has returned. *)
Definition flow_returns (f : flow) sc : option (pcl_action * SimulatorController B) :=
  sc1 ← clearListeners (Some f) sc;
  removeFlow f sc1.

Definition addCPU (c : cpu) sc : SimulatorController B :=
  mkSC (m_isInitialized sc) (m_LstList sc) (m_Experiments sc) (sc_Flows sc) (m_CPUs sc ++ [c]) (m_argv0 sc).

Definition sc_getCPU (i : nat) sc : option cpu := m_CPUs sc !! i.
Definition getCPUCount sc : nat := length (m_CPUs sc).

(** [m_Experiments[name] = flow] on a [std::map]: keys in order, a second
    registration replaces the first. *)
Fixpoint exp_insert (name : string) (f : flow) (m : list (string * flow)) : list (string * flow) :=
  match m with
  | [] => [(name, f)]
  | (k, g) :: rest =>
      match String.compare name k with
      | Lt => (name, f) :: m
      | Eq => (name, f) :: rest
      | Gt => (k, g) :: exp_insert name f rest
      end
  end.

Definition addExperiment (name : string) (f : flow) sc : SimulatorController B :=
  mkSC (m_isInitialized sc) (m_LstList sc) (exp_insert name f (m_Experiments sc)) (sc_Flows sc)
    (m_CPUs sc) (m_argv0 sc).

(** [strstr(haystack, needle) != NULL] *)
Fixpoint strstr (haystack needle : string) : bool :=
  String.prefix needle haystack ||
  match haystack with
  | EmptyString => false
  | String _ rest => strstr rest needle
  end.

(** The first key satisfying a test, in iteration order. *)
Fixpoint first_key (test : string -> bool) (m : list (string * flow)) : option string :=
  match m with
  | [] => None
  | (k, _) :: rest => if test k then Some k else first_key test rest
  end.

(** The experiment [startup()] selects; the empty name means none. *)
Definition select_experiment (exps : list (string * flow)) (env_name : option string)
    (argv0 : string) : string :=
  match exps with
  | [(k, _)] => k
  | _ =>
      let by_env :=
        match env_name with
        | Some e => default EmptyString (first_key (fun k => String.eqb k e) exps)
        | None => EmptyString
        end in
      if String.eqb argv0 EmptyString then by_env
      else default by_env (first_key (fun k => strstr argv0 k) exps)
  end.

Fixpoint exp_find (name : string) (m : list (string * flow)) : option flow :=
  match m with
  | [] => None
  | (k, f) :: rest => if String.eqb name k then Some f else exp_find name rest
  end.

Inductive startup_result :=
| Started (sc : SimulatorController B)
| NoExperiment                (* exit(1) *)
| AssertionFailed.

(** [startup()]; [h] and [xs] as for [addFlow]. *)
Definition startup (cfg : FastConfig) (env_name : option string) (h : nat) (xs : list exp_cmd) sc
    : startup_result :=
  let sc1 := mkSC true (m_LstList sc) (m_Experiments sc) (sc_Flows sc) (m_CPUs sc) (m_argv0 sc) in
  match m_Experiments sc1 with
  | [] => if (0 <? flows_size (sc_Flows sc1))%nat then Started sc1 else AssertionFailed
  | exps =>
      let name := select_experiment exps env_name (m_argv0 sc1) in
      if String.eqb name EmptyString then NoExperiment
      else
        match exp_find name exps with
        | Some f =>
            match addFlow cfg f h xs sc1 with
            | Some sc2 => Started sc2
            | None => AssertionFailed
            end
        | None => AssertionFailed
        end
  end.
End controller.
