(* ===== verification/ControllerTheorems.v ===== *)
(** * Correctness of the simulator controller

    One event: which listeners it activates, with and without the fast
    breakpoint/watchpoint aspects, and that handling it, the reactions of the
    experiments included, keeps the whole state consistent and returns the
    control to the simulator. *)
From S2P Require Import Prelude Events Listeners PerfBuffers ListenerManager ListenerTheorems.
From S2P Require Import Coroutines EventHandlers Controller.

Section events.
Context `{SalConfig} {B : Type} `{PerfBufferBase B}.
Implicit Types (sc : SimulatorController B) (lm : ListenerManager B) (cm : CoroutineManager).

(** The events of the back-end interface. *)
Inductive sim_event :=
| Ev_breakpoint (c : option cpu) (instrPtr address_space : Z)
| Ev_memory (c : option cpu) (addr len : Z) (is_write : bool) (instrPtr : Z)
| Ev_interrupt (c : option cpu) (interruptNum : Z) (nmi : bool)
| Ev_trap (c : option cpu) (trapNum : Z)
| Ev_guest (data port : Z)
| Ev_jump (c : option cpu) (flagTriggered : bool) (opcode : Z)
| Ev_ioport (c : option cpu) (data port : Z) (out : bool).

Definition memory_event (c : option cpu) (addr len : Z) (is_write : bool) (instrPtr : Z) :=
  new_MemAccessEvent addr len instrPtr (if is_write then MEM_WRITE else MEM_READ) c.

(** Which listeners an event concerns, and the trigger data it leaves in them. *)
Definition event_match (ev : sim_event) : Listener -> bool :=
  match ev with
  | Ev_breakpoint c ip a => BP_matching (new_BPEvent ip a c)
  | Ev_memory c a n w ip => MemAccess_matching (memory_event c a n w ip)
  | Ev_interrupt c n nmi => Interrupt_matching (new_InterruptEvent nmi n c)
  | Ev_trap c n => Trap_matching (new_TroubleEvent n c)
  | Ev_guest _ _ => Guest_matching
  | Ev_jump _ _ _ => Jump_matching
  | Ev_ioport _ _ port out => IOPort_matching port out
  end.

Definition event_update (ev : sim_event) : Listener -> Listener :=
  match ev with
  | Ev_breakpoint c ip _ => BP_setTrigger c ip
  | Ev_memory c a n w ip => MemAccess_setTrigger (memory_event c a n w ip)
  | Ev_interrupt c n nmi => Interrupt_setTrigger c n nmi
  | Ev_trap c n => Trap_setTrigger c n
  | Ev_guest d p => Guest_setTrigger d p
  | Ev_jump c f o => Jump_setTrigger c f o
  | Ev_ioport c d _ _ => IOPort_setTrigger c d
  end.

(** The activation part of the handler for an event. *)
Definition activate (cfg : FastConfig) (ev : sim_event) lm : option (ListenerManager B) :=
  match ev with
  | Ev_breakpoint c ip a => activate_breakpoint cfg c ip a lm
  | Ev_memory c a n w ip => activate_memory cfg c a n w ip lm
  | _ => activate_matching (event_match ev) (event_update ev) lm
  end.

(** The handler for an event. *)
Definition handle (cfg : FastConfig) (react : ptr -> ListenerManager B -> list exp_cmd)
    (ev : sim_event) sc : option (SimulatorController B) :=
  match ev with
  | Ev_breakpoint c ip a => onBreakpoint cfg react c ip a sc
  | Ev_memory c a n w ip => onMemoryAccess cfg react c a n w ip sc
  | Ev_interrupt c n nmi => onInterrupt cfg react c n nmi sc
  | Ev_trap c n => onTrap cfg react c n sc
  | Ev_guest d p => onGuestSystem cfg react d p sc
  | Ev_jump c f o => onJump cfg react c f o sc
  | Ev_ioport c d port out => onIOPort cfg react c d port out sc
  end.

Lemma handle_activate cfg react ev sc :
  handle cfg react ev sc = (lm1 ← activate cfg ev (m_LstList sc); trigger cfg react lm1 sc).
Proof. by destruct ev. Qed.

Lemma event_laws_of ev : event_laws (event_match ev) (event_update ev).
Proof.
  destruct ev; simpl; [apply BP_laws|apply MemAccess_laws|apply Interrupt_laws|apply Trap_laws
    |apply Guest_laws|apply Jump_laws|apply IOPort_laws].
Qed.

(** ** The state invariant besides [wf] *)

(** Every buffered listener is on the list its class belongs to. *)
Definition config_ok (cfg : FastConfig) lm : Prop :=
  forall p l, p ∈ m_BufferList lm -> lm_heap lm !! p = Some l ->
    getPerformanceBuffer l = fast_home cfg (l_class l).

Definition counter_range (l : Listener) : Prop :=
  1 <= getCounter l < 2 ^ 32 /\ 1 <= m_OccCounterInit (l_base l) < 2 ^ 32.

Definition counters_ok lm : Prop := forall p l, lm_heap lm !! p = Some l -> counter_range l.

(** Every listener that can still be triggered belongs to a registered flow. *)
Definition parents_ok cm lm : Prop :=
  forall p l, p ∈ m_BufferList lm \/ (p ∈ m_FireList lm /\ (p ∉ m_DeleteList lm)) ->
    lm_heap lm !! p = Some l ->
    exists f, getParent l = Some f /\ is_Some (flow_find f (m_Flows cm)).

Record lm_ok (cfg : FastConfig) cm lm : Prop := {
  ok_cfg : config_ok cfg lm;
  ok_cnt : counters_ok lm;
  ok_par : parents_ok cm lm
}.

Lemma handled_counter_range ev l :
  counter_range l -> counter_range (handled (event_match ev) (event_update ev) l).
Proof.
  intros [Hc Hi]. unfold handled. destruct (event_match ev l); [|done].
  pose proof (ev_base _ _ (event_laws_of ev) l) as Hb.
  destruct (Z.eqb_spec (getCounter l) 1) as [E|E]; unfold counter_range, getCounter in *; simpl; rewrite Hb.
  - done.
  - rewrite u32_small by lia. lia.
Qed.

(** The object of a listener after an event, up to its slot. *)
Lemma outcome_lookup m u ps lm lm' p l' :
  outcome m u ps lm lm' -> lm_heap lm' !! p = Some l' ->
  exists l, lm_heap lm !! p = Some l /\
    unplace l' = unplace (if decide (p ∈ ps) then handled m u l else l).
Proof.
  intros Ho Hl'. pose proof (out_objs _ _ _ _ _ Ho p) as E. rewrite Hl' in E.
  destruct (lm_heap lm !! p) as [l|]; [|by case_decide].
  exists l. split; [done|]. case_decide; cbn in E; congruence.
Qed.

Lemma counter_range_unplace l l' : unplace l' = unplace l -> counter_range l -> counter_range l'.
Proof.
  intros E. unfold counter_range.
  change (getCounter l') with (getCounter (unplace l')).
  change (m_OccCounterInit (l_base l')) with (m_OccCounterInit (l_base (unplace l'))).
  by rewrite E.
Qed.

Lemma outcome_counters ev ps lm lm' m :
  (forall l, m l = true -> event_match ev l = true) ->
  outcome m (event_update ev) ps lm lm' -> counters_ok lm -> counters_ok lm'.
Proof.
  intros Hm Ho Hc p l' Hl'. destruct (outcome_lookup _ _ _ _ _ _ _ Ho Hl') as (l & Hl & E).
  eapply counter_range_unplace; [exact E|]. case_decide; [|by eapply Hc].
  unfold handled. destruct (m l) eqn:Hml; [|by eapply Hc].
  pose proof (handled_counter_range ev l (Hc _ _ Hl)) as Hr. unfold handled in Hr.
  by rewrite (Hm l Hml) in Hr.
Qed.

(** ** Activation is exact *)

Lemma activate_slow ev lm :
  wf lm -> counters_ok lm ->
  (forall p l, p ∈ m_BufferList lm -> lm_heap lm !! p = Some l -> event_match ev l = true ->
     getPerformanceBuffer l = None) ->
  exists lm', activate_matching (event_match ev) (event_update ev) lm = Some lm' /\
    outcome (event_match ev) (event_update ev) (m_BufferList lm) lm lm'.
Proof.
  intros Hwf Hc Hh.
  destruct (scan_spec (event_match ev) (event_update ev) (length (m_BufferList lm)) 0 lm)
    as (lm' & E & Ho); [apply event_laws_of|done| |lia|].
  - rewrite drop_0. intros p l Hp Hl Hm. split; [by eapply Hh|]. by eapply Hc.
  - rewrite drop_0 in Ho. eauto.
Qed.

Lemma placement_free_on h ev : placement_free (m_on h (event_match ev)) (event_update ev).
Proof.
  destruct (event_placement_free _ _ (event_laws_of ev)) as [Hm Hu Hb].
  split; [|done|done]. intros l. unfold m_on. by rewrite Hm.
Qed.

Lemma activate_fast h ev lm :
  wf lm -> counters_ok lm ->
  exists lm', fast_activate h (event_match ev) (event_update ev) lm = Some lm' /\
    outcome (m_on h (event_match ev)) (event_update ev) (m_BufferList lm) lm lm'.
Proof.
  intros Hwf Hc. apply fast_activate_spec; [apply event_laws_of|done|].
  intros p l Hl _ _. by eapply Hc.
Qed.

Lemma m_on_match h ev l : m_on h (event_match ev) l = true -> event_match ev l = true.
Proof. unfold m_on. intros E. by bool_hyps. Qed.

Lemma activate_breakpoint_fast c ip a lm :
  let ev := Ev_breakpoint c ip a in
  wf lm -> counters_ok lm ->
  exists lm', (lm1 ← fast_activate PB_Single (event_match ev) (event_update ev) lm;
               fast_activate PB_Range (event_match ev) (event_update ev) lm1) = Some lm' /\
    outcome (fun l => m_on PB_Single (event_match ev) l || m_on PB_Range (event_match ev) l)
      (event_update ev) (m_BufferList lm) lm lm'.
Proof.
  intros ev Hwf Hc.
  destruct (activate_fast PB_Single ev lm Hwf Hc) as (lm1 & E1 & Ho1). rewrite E1. obind.
  assert (counters_ok lm1) as Hc1.
  { eapply outcome_counters; [|exact Ho1|done]. apply m_on_match. }
  destruct (activate_fast PB_Range ev lm1 (out_wf _ _ _ _ _ Ho1) Hc1) as (lm2 & E2 & Ho2).
  exists lm2. split; [exact E2|].
  apply (outcome_seq _ _ _ lm lm1 lm2); try done; try apply placement_free_on.
  intros l Hm. unfold m_on in *. bool_hyps.
  assert (getPerformanceBuffer (decreaseCounter (event_update ev l)) = getPerformanceBuffer l) as E.
  { exact (benign_home _ (event_benign _ _ (event_laws_of ev)) l). }
  rewrite E. rewrite !bool_decide_eq_false_2 by congruence. by rewrite !andb_false_r.
Qed.

(** Whether an event is handled by an aspect. *)
Definition is_fast (cfg : FastConfig) (ev : sim_event) : bool :=
  match ev with
  | Ev_breakpoint _ _ _ => CONFIG_FAST_BREAKPOINTS cfg
  | Ev_memory _ _ _ _ _ => CONFIG_FAST_WATCHPOINTS cfg
  | _ => false
  end.

Lemma slow_home cfg ev l :
  is_fast cfg ev = false -> event_match ev l = true -> fast_home cfg (l_class l) = None.
Proof.
  destruct ev; simpl; unfold BP_matching, MemAccess_matching, Interrupt_matching, Trap_matching,
    Guest_matching, Jump_matching, IOPort_matching; destruct (l_class l); simpl; try done; by intros ->.
Qed.

Lemma activate_slow_ok cfg ev lm :
  wf lm -> config_ok cfg lm -> counters_ok lm -> is_fast cfg ev = false ->
  exists lm', activate_matching (event_match ev) (event_update ev) lm = Some lm' /\
    outcome (event_match ev) (event_update ev) (m_BufferList lm) lm lm'.
Proof.
  intros Hwf Hcfg Hc Hslow. apply activate_slow; [done..|]. intros p l Hp Hl Hm.
  rewrite (Hcfg p l) by done. by eapply slow_home.
Qed.

Lemma activate_spec cfg ev lm :
  wf lm -> config_ok cfg lm -> counters_ok lm ->
  exists lm', activate cfg ev lm = Some lm' /\
    outcome (event_match ev) (event_update ev) (m_BufferList lm) lm lm'.
Proof.
  intros Hwf Hcfg Hc. pose proof (activate_slow_ok cfg ev lm Hwf Hcfg Hc) as Hslow.
  destruct ev as [c ip a|c a n w ip| | | | |]; simpl in Hslow |- *; try (by apply Hslow).
  - unfold activate_breakpoint. destruct (CONFIG_FAST_BREAKPOINTS cfg) eqn:Hfast; [|by apply Hslow].
    destruct (activate_breakpoint_fast c ip a lm Hwf Hc) as (lm' & E & Ho).
    exists lm'. split; [exact E|]. eapply outcome_ext; [|exact Ho].
    intros p l Hp Hl. pose proof (Hcfg p l Hp Hl) as Hh. simpl. unfold m_on, BP_matching.
    destruct (l_class l); simpl in *; rewrite ?Hfast in Hh; try done; rewrite Hh;
      rewrite ?(bool_decide_eq_true_2 (Some _ = Some _)), ?(bool_decide_eq_false_2 (Some _ = Some _))
        by done; by rewrite andb_true_r, andb_false_r, ?orb_false_r.
  - unfold activate_memory. destruct (CONFIG_FAST_WATCHPOINTS cfg) eqn:Hfast; [|by apply Hslow].
    destruct (activate_fast PB_Mem (Ev_memory c a n w ip) lm Hwf Hc) as (lm' & E & Ho).
    exists lm'. split; [exact E|]. eapply outcome_ext; [|exact Ho].
    intros p l Hp Hl. pose proof (Hcfg p l Hp Hl) as Hh. simpl. unfold m_on, MemAccess_matching.
    destruct (l_class l); simpl in *; rewrite ?Hfast in Hh; try done; rewrite Hh.
    by rewrite bool_decide_eq_true_2, andb_true_r by done.
Qed.

(** *** The invariant after an activation *)

Lemma event_update_home cfg ev l :
  fast_home cfg (l_class (event_update ev l)) = fast_home cfg (l_class l).
Proof.
  destruct ev; simpl; unfold BP_setTrigger, MemAccess_setTrigger, Interrupt_setTrigger,
    Trap_setTrigger, Guest_setTrigger, Jump_setTrigger, IOPort_setTrigger; by destruct (l_class l) eqn:E; rewrite ?E.
Qed.

Lemma handled_parent ev l :
  getParent (handled (event_match ev) (event_update ev) l) = getParent l.
Proof.
  unfold handled. pose proof (ev_base _ _ (event_laws_of ev) l) as Hb.
  destruct (event_match ev l); [|done].
  destruct (getCounter l =? 1); unfold getParent; simpl; by rewrite Hb.
Qed.

Lemma outcome_config cfg ev lm lm' :
  config_ok cfg lm ->
  outcome (event_match ev) (event_update ev) (m_BufferList lm) lm lm' -> config_ok cfg lm'.
Proof.
  intros Hcfg Ho p l' Hp Hl'. rewrite (out_buf _ _ _ _ _ Ho), list_elem_of_filter in Hp.
  destruct Hp as [Hnf Hp]. destruct (outcome_lookup _ _ _ _ _ _ _ Ho Hl') as (l & Hl & E).
  rewrite decide_True in E by done.
  change (getPerformanceBuffer l') with (getPerformanceBuffer (unplace l')).
  change (l_class l') with (l_class (unplace l')). rewrite E.
  change (getPerformanceBuffer (unplace ?x)) with (getPerformanceBuffer x).
  change (l_class (unplace ?x)) with (l_class x).
  unfold handled. unfold fires in Hnf. rewrite Hl in Hnf.
  pose proof (ev_base _ _ (event_laws_of ev) l) as Hb. pose proof (event_update_home cfg ev l) as Hu.
  destruct (event_match ev l); [|by eapply Hcfg].
  destruct (getCounter l =? 1); [by destruct Hnf|]. simpl. rewrite Hu.
  unfold getPerformanceBuffer. simpl. rewrite Hb. by apply (Hcfg p l).
Qed.

Lemma outcome_parents cm ev lm lm' :
  wf lm -> parents_ok cm lm ->
  outcome (event_match ev) (event_update ev) (m_BufferList lm) lm lm' -> parents_ok cm lm'.
Proof.
  intros Hwf Hpar Ho p l' Hp Hl'. destruct (outcome_lookup _ _ _ _ _ _ _ Ho Hl') as (l & Hl & E).
  assert (getParent l' = getParent l) as ->.
  { change (getParent l') with (getParent (unplace l')). rewrite E.
    change (getParent (unplace ?x)) with (getParent x). case_decide; [apply handled_parent|done]. }
  apply (Hpar p l); [|done]. destruct (out_fire _ _ _ _ _ Ho) as (new & Hf & _ & Hn).
  pose proof (out_del _ _ _ _ _ Ho) as [= Hdel _]. rewrite Hdel, Hf in Hp.
  destruct Hp as [Hp|[[Hp|Hp]%elem_of_app Hd]].
  - rewrite (out_buf _ _ _ _ _ Ho), list_elem_of_filter in Hp. left. apply Hp.
  - by right.
  - rewrite Hn, list_elem_of_filter in Hp. left. apply Hp.
Qed.

Lemma outcome_ok cfg cm ev lm lm' :
  wf lm -> lm_ok cfg cm lm ->
  outcome (event_match ev) (event_update ev) (m_BufferList lm) lm lm' -> lm_ok cfg cm lm'.
Proof.
  intros Hwf [H1 H2 H3] Ho. split.
  - by eapply outcome_config.
  - by eapply outcome_counters.
  - by eapply outcome_parents.
Qed.

(** ** The aspects change nothing but the order *)

(** Two managers that hold the same listeners, differently organised. *)
Record same_listeners (lm lm' : ListenerManager B) : Prop := {
  sl_heap : same_objects (lm_heap lm) (lm_heap lm');
  sl_buf : m_BufferList lm ≡ₚ m_BufferList lm';
  sl_fire : m_FireList lm ≡ₚ m_FireList lm';
  sl_del : m_DeleteList lm = m_DeleteList lm'
}.

Lemma fires_strip ev lm lm' p :
  same_objects (lm_heap lm) (lm_heap lm') ->
  fires (event_match ev) lm p = fires (event_match ev) lm' p.
Proof.
  intros E. pose proof (f_equal (lookup p) E) as Ep. rewrite !lookup_fmap in Ep. unfold fires.
  destruct (lm_heap lm !! p) as [l|], (lm_heap lm' !! p) as [l'|]; try done.
  cbn in Ep. assert (strip l = strip l') as Es by congruence.
  rewrite <- (ev_match _ _ (event_laws_of ev) l None None), <- (ev_match _ _ (event_laws_of ev) l' None None).
  fold (strip l) (strip l'). rewrite Es. by rewrite (strip_counter _ _ Es).
Qed.

Lemma handled_strip ev l l' :
  strip l = strip l' ->
  strip (handled (event_match ev) (event_update ev) l) =
  strip (handled (event_match ev) (event_update ev) l').
Proof.
  intros Es. unfold handled.
  assert (event_match ev l = event_match ev l') as ->.
  { rewrite <- (ev_match _ _ (event_laws_of ev) l None None), <- (ev_match _ _ (event_laws_of ev) l' None None).
    fold (strip l) (strip l'). by rewrite Es. }
  rewrite (strip_counter _ _ Es). destruct (event_match ev l'); [|done].
  assert (strip (event_update ev l) = strip (event_update ev l')) as Eu.
  { assert (forall x, strip (event_update ev x) = event_update ev (strip x)) as Hcomm.
    { intros [b []]; destruct ev; reflexivity. }
    by rewrite !Hcomm, Es. }
  destruct (getCounter l' =? 1).
  - change (strip (strip (resetCounter ?x))) with (resetCounter (strip x)). by rewrite Eu.
  - change (strip (decreaseCounter ?x)) with (decreaseCounter (strip x)). by rewrite Eu.
Qed.

Lemma strip_unplace (o o' : option Listener) :
  unplace <$> o = unplace <$> o' -> strip <$> o = strip <$> o'.
Proof.
  intros E. destruct o as [l|], o' as [l'|]; cbn in *; try done. f_equal.
  change (strip l) with (strip (unplace l)). change (strip l') with (strip (unplace l')). congruence.
Qed.

Lemma outcome_same ev ls lf ls' lf' :
  same_listeners ls lf ->
  outcome (event_match ev) (event_update ev) (m_BufferList ls) ls ls' ->
  outcome (event_match ev) (event_update ev) (m_BufferList lf) lf lf' ->
  same_listeners ls' lf'.
Proof.
  intros [Hh Hb Hf Hd] [_ Sd Sb (snew & Sf & _ & Sn) So] [_ Fd Fb (fnew & Ff & _ & Fn) Fo].
  split.
  - apply map_eq. intros p. rewrite !lookup_fmap.
    rewrite (strip_unplace _ _ (So p)), (strip_unplace _ _ (Fo p)).
    rewrite (decide_ext (p ∈ m_BufferList lf) (p ∈ m_BufferList ls)) by (by rewrite Hb).
    pose proof (f_equal (lookup p) Hh) as Ep. rewrite !lookup_fmap in Ep.
    case_decide; [|done].
    destruct (lm_heap ls !! p) as [l|], (lm_heap lf !! p) as [l'|]; try done. cbn in *. f_equal.
    apply handled_strip. congruence.
  - rewrite Sb, Fb. etrans; [apply filter_Permutation, Hb|].
    erewrite list_filter_iff; [done|]. intros p. simpl. by rewrite Hb, (fires_strip ev ls lf).
  - rewrite Sf, Ff, Sn, Fn, Hf. apply Permutation_app_head. rewrite <- Hb.
    erewrite list_filter_iff; [done|]. intros p. simpl. by rewrite (fires_strip ev ls lf).
  - congruence.
Qed.

(** ** Reactions of the experiments *)

(** What an experiment has to respect: constructors give fresh objects, counters
    are positive, only live objects are used, and a listener is added once. *)
Definition legal_cmd (x : exp_cmd) lm : Prop :=
  match x with
  | X_new p l => lm_heap lm !! p = None /\ getLocation l = None /\
                 getPerformanceBuffer l = None /\ counter_range l
  | X_setCounter p val => is_Some (lm_heap lm !! p) /\ 1 <= val < 2 ^ 32
  | X_addListener li _ => exists l, lm_heap lm !! li = Some l /\ getLocation l = None
  | X_removeListener (Some li) => is_Some (lm_heap lm !! li)
  | X_removeListener None => True
  | X_clearListeners _ => True
  | X_delete li => is_Some (lm_heap lm !! li)
  end.

Fixpoint legal_cmds (cfg : FastConfig) (cur : option flow) (xs : list exp_cmd) lm : Prop :=
  match xs with
  | [] => True
  | x :: xs => legal_cmd x lm /\
      match run_cmd cfg cur x lm with
      | Some lm1 => legal_cmds cfg cur xs lm1
      | None => True
      end
  end.

Lemma fast_home_class cfg c h : fast_home cfg c = Some h -> home_class h c.
Proof. destruct c; simpl; repeat case_match; intros; simplify_eq; done. Qed.

(** Operations that take listeners out of the lists preserve the invariant. *)
Lemma removal_ok cfg cm lm lm' :
  lm_ok cfg cm lm -> same_objects (lm_heap lm') (lm_heap lm) -> remaining lm lm' ->
  m_FireList lm' = m_FireList lm -> m_DeleteList lm ⊆ m_DeleteList lm' -> lm_ok cfg cm lm'.
Proof.
  intros [Hcfg Hcnt Hpar] Ho Hrem Hf Hd. split.
  - intros p l' Hp Hl'. destruct (Hrem p Hp) as [Hp0 E]. rewrite Hl' in E.
    destruct (lm_heap lm !! p) as [l|] eqn:Hl; [|done]. cbn in E.
    assert (unplace l' = unplace l) as E' by congruence.
    change (getPerformanceBuffer l') with (getPerformanceBuffer (unplace l')).
    change (l_class l') with (l_class (unplace l')). rewrite E'. by eapply (Hcfg p l).
  - intros p l' Hl'. destruct (same_objects_lookup _ _ _ _ Ho Hl') as (l & Hl & E).
    specialize (Hcnt p l Hl). unfold counter_range in *.
    change (getCounter l') with (getCounter (strip l')).
    change (m_OccCounterInit (l_base l')) with (m_OccCounterInit (l_base (strip l'))).
    by rewrite <- E.
  - intros p l' Hp Hl'. destruct (same_objects_lookup _ _ _ _ Ho Hl') as (l & Hl & E).
    rewrite <- (strip_parent _ _ E). apply (Hpar p l); [|done].
    destruct Hp as [Hp|[Hp Hn]]; [left; by apply Hrem|right]. rewrite <- Hf. set_solver.
Qed.

Lemma remove_listener_ok cfg cm cur li lm :
  wf lm -> lm_ok cfg cm lm -> match li with Some li => is_Some (lm_heap lm !! li) | None => True end ->
  exists lm', remove_listener cur li lm = Some lm' /\ lm_ok cfg cm lm' /\
    dom (lm_heap lm') = dom (lm_heap lm).
Proof.
  intros Hwf Hok Hli. destruct li as [li|].
  - destruct Hli as [l Hl]. destruct (remove_single_spec cur li l lm Hwf Hl) as (lm1 & Hd & E).
    destruct Hd as (_ & [Ho Hfi Hde _] & Hrem & _). eexists. split; [exact E|]. split.
    + eapply removal_ok; [exact Hok|exact Ho|exact Hrem|exact Hfi|]. simpl. set_solver.
    + simpl. by apply same_objects_dom.
  - destruct (remove_current_spec cur lm Hwf) as (lm1 & [_ [Ho Hfi Hde _] Hrem _ _ _] & E).
    eexists. split; [exact E|]. split.
    + eapply removal_ok; [exact Hok|exact Ho|exact Hrem|exact Hfi|]. simpl. set_solver.
    + simpl. by apply same_objects_dom.
Qed.

Lemma remove_flow_ok cfg cm f lm :
  wf lm -> lm_ok cfg cm lm -> exists lm', remove_flow f lm = Some lm' /\ lm_ok cfg cm lm'.
Proof.
  intros Hwf Hok. destruct f as [f|].
  - destruct (remove_flow_spec f lm Hwf) as (lm1 & more & [_ [Ho Hfi Hde _] Hrem _ _ _] & E & _).
    eexists. split; [exact E|].
    eapply removal_ok; [exact Hok|exact Ho|exact Hrem|exact Hfi|]. simpl. set_solver.
  - destruct (remove_all_spec lm Hwf) as (lm1 & E & [_ Hb _ Ho Hfi Hde _]).
    exists lm1. split; [exact E|].
    eapply removal_ok; [exact Hok|exact Ho| |exact Hfi|].
    + intros q Hq. rewrite Hb in Hq. set_solver.
    + intros p Hp. apply Hde. by left.
Qed.

Lemma destroy_ok cfg cm cur li lm :
  wf lm -> lm_ok cfg cm lm -> is_Some (lm_heap lm !! li) ->
  exists lm', destroy_listener cur li lm = Some lm' /\ lm_ok cfg cm lm'.
Proof.
  intros Hwf Hok Hli.
  destruct (remove_listener_ok cfg cm cur (Some li) lm Hwf Hok Hli) as (lm1 & E & [Hcfg Hcnt Hpar] & _).
  unfold destroy_listener. rewrite E. obind. eexists. split; [done|]. split; unfold config_ok, counters_ok, parents_ok; simpl.
  - intros p l Hp [_ Hl]%lookup_delete_Some. by eapply Hcfg.
  - intros p l [_ Hl]%lookup_delete_Some. by eapply Hcnt.
  - intros p l Hp [_ Hl]%lookup_delete_Some. by eapply Hpar.
Qed.

Lemma addListener_ok cfg cm f li l accepted lm :
  wf lm -> lm_ok cfg cm lm -> is_Some (flow_find f (m_Flows cm)) ->
  lm_heap lm !! li = Some l -> getLocation l = None ->
  exists lm', snd <$> addListener_lm cfg (Some f) accepted li lm = Some lm' /\ lm_ok cfg cm lm' /\
    rtc (client_step (Some f)) lm lm'.
Proof.
  intros Hwf [Hcfg Hcnt Hpar] Hf Hl Hloc. unfold addListener_lm. rewrite Hl. obind.
  remember (fast_home cfg (l_class l)) as h eqn:Eh.
  assert (exists lm1, match h with
            | Some h => add_perf h li (Some f) lm
            | None => add li (Some f) lm
            end = Some lm1 /\ client_step (Some f) lm lm1 /\
            m_BufferList lm1 = m_BufferList lm ++ [li] /\ m_FireList lm1 = m_FireList lm /\
            m_DeleteList lm1 = m_DeleteList lm /\
            lm_heap lm1 = <[li := added (Some f) h (length (m_BufferList lm)) l]> (lm_heap lm))
    as (lm1 & E & Hstep & Hb & Hfi & Hd & Hh).
  { destruct h as [h|].
    - pose proof (add_perf_eq h li l (Some f) lm Hl) as E. eexists. split; [exact E|].
      split; [|done]. eapply step_add_perf; [exact Hl|done|by eapply fast_home_class; symmetry|exact E].
    - assert (getCounter l ≠ 0) as Hc by (destruct (Hcnt _ _ Hl); lia).
      pose proof (add_eq li l (Some f) lm Hl Hc) as E. eexists. split; [exact E|].
      split; [|done]. by eapply step_add. }
  rewrite E. obind.
  assert (lm_ok cfg cm lm1) as Hok1.
  { split.
    - intros p lp Hp Hlp. rewrite Hh in Hlp. apply lookup_insert_Some in Hlp as [[<- <-]|[Hne Hlp]].
      + done.
      + rewrite Hb in Hp. apply (Hcfg p lp); [set_solver|done].
    - intros p lp Hlp. rewrite Hh in Hlp. apply lookup_insert_Some in Hlp as [[<- <-]|[Hne Hlp]].
      + apply (Hcnt li l Hl).
      + by eapply Hcnt.
    - intros p lp Hp Hlp. rewrite Hh in Hlp. apply lookup_insert_Some in Hlp as [[<- <-]|[Hne Hlp]].
      + eauto.
      + rewrite Hb, Hfi, Hd in Hp. apply (Hpar p lp); [|done]. set_solver. }
  destruct accepted; obind.
  - exists lm1. split; [done|]. split; [done|]. by apply rtc_once.
  - pose proof (client_step_wf _ _ _ Hwf Hstep) as Hwf1.
    destruct (remove_listener_ok cfg cm (Some f) (Some li) lm1 Hwf1 Hok1) as (lm2 & E2 & Hok2 & _).
    { rewrite Hh, lookup_insert_eq. eauto. }
    rewrite E2. obind. exists lm2. split; [done|]. split; [done|].
    eapply rtc_l; [exact Hstep|]. apply rtc_once. by eapply step_remove.
Qed.

Lemma benign_setCounter val : benign (setCounter val).
Proof. by split. Qed.

Lemma run_cmd_ok cfg cm f x lm :
  wf lm -> lm_ok cfg cm lm -> is_Some (flow_find f (m_Flows cm)) -> legal_cmd x lm ->
  exists lm', run_cmd cfg (Some f) x lm = Some lm' /\ lm_ok cfg cm lm' /\
    rtc (client_step (Some f)) lm lm'.
Proof.
  intros Hwf Hok Hf Hlegal. destruct x as [p l|p val|li acc|li|g|li]; cbn [legal_cmd run_cmd] in *.
  - destruct Hlegal as (Hp & Hloc & Hh & Hc). rewrite Hp. eexists. split; [done|]. split.
    2:{ apply rtc_once. by apply step_new. }
    destruct Hwf as [Hwf Hfire]. destruct Hok as [Hcfg Hcnt Hpar]. split; unfold config_ok, counters_ok, parents_ok; simpl.
    + intros q lq Hq Hlq. apply lookup_insert_Some in Hlq as [[<- <-]|[_ ?]]; [|by eapply Hcfg].
      apply list_elem_of_lookup in Hq as [i Hi].
      apply (wf_loc _ _ _ Hwf) in Hi as (l' & ? & _). congruence.
    + intros q lq Hlq. apply lookup_insert_Some in Hlq as [[<- <-]|[_ ?]]; [done|by eapply Hcnt].
    + intros q lq Hq Hlq. apply lookup_insert_Some in Hlq as [[<- <-]|[_ ?]]; [|by eapply Hpar].
      destruct Hq as [Hq|[Hq Hn]].
      * apply list_elem_of_lookup in Hq as [i Hi].
        apply (wf_loc _ _ _ Hwf) in Hi as (l' & ? & _). congruence.
      * destruct (Hfire p Hq) as [?|[? ?]]; [done|congruence].
  - destruct Hlegal as [[l Hl] Hval]. rewrite Hl. obind. eexists. split; [done|]. split.
    2:{ apply rtc_once, step_update, benign_setCounter. }
    destruct Hok as [Hcfg Hcnt Hpar]. rewrite (upd_listener_insert _ _ _ _ Hl). split; unfold config_ok, counters_ok, parents_ok; simpl.
    + intros q lq Hq Hlq. apply lookup_insert_Some in Hlq as [[<- <-]|[_ ?]]; [|by eapply Hcfg].
      by apply (Hcfg p l).
    + intros q lq Hlq. apply lookup_insert_Some in Hlq as [[<- <-]|[_ ?]]; [done|by eapply Hcnt].
    + intros q lq Hq Hlq. apply lookup_insert_Some in Hlq as [[<- <-]|[_ ?]]; [|by eapply Hpar].
      by apply (Hpar p l).
  - destruct Hlegal as (l & Hl & Hloc). by eapply addListener_ok.
  - destruct (remove_listener_ok cfg cm (Some f) li lm Hwf Hok) as (lm' & E & Hok' & _).
    { by destruct li. }
    exists lm'. split; [done|]. split; [done|]. apply rtc_once. by eapply step_remove.
  - destruct (remove_flow_ok cfg cm g lm Hwf Hok) as (lm' & E & Hok').
    exists lm'. split; [done|]. split; [done|]. apply rtc_once. by eapply step_remove_flow.
  - destruct (destroy_ok cfg cm (Some f) li lm Hwf Hok Hlegal) as (lm' & E & Hok').
    exists lm'. split; [done|]. split; [done|]. apply rtc_once. by eapply step_destroy.
Qed.

Lemma run_cmds_ok cfg cm f xs lm :
  wf lm -> lm_ok cfg cm lm -> is_Some (flow_find f (m_Flows cm)) ->
  legal_cmds cfg (Some f) xs lm ->
  exists lm', run_cmds cfg (Some f) xs lm = Some lm' /\ lm_ok cfg cm lm' /\
    rtc (client_step (Some f)) lm lm'.
Proof.
  revert lm. induction xs as [|x xs IH]; intros lm Hwf Hok Hf Hlegal; cbn [run_cmds].
  { exists lm. split; [done|]. split; [done|]. apply rtc_refl. }
  cbn [legal_cmds] in Hlegal. destruct Hlegal as [Hx Hxs].
  destruct (run_cmd_ok cfg cm f x lm Hwf Hok Hf Hx) as (lm1 & E & Hok1 & Hs1).
  rewrite E in Hxs |- *. obind.
  destruct (client_steps_inv _ _ _ Hwf Hs1) as [Hwf1 _].
  destruct (IH lm1 Hwf1 Hok1 Hf Hxs) as (lm2 & E2 & Hok2 & Hs2).
  exists lm2. split; [done|]. split; [done|]. by etrans.
Qed.

(** A flow that is registered can be toggled from the simulator and returns. *)
Lemma toggle_registered f cm :
  is_Some (flow_find f (m_Flows cm)) -> exists cm1, toggle (Some f) cm = Some cm1.
Proof.
  intros [h Hh]. unfold toggle. rewrite bool_decide_eq_false_2, andb_false_r by done.
  simpl. rewrite Hh. eauto.
Qed.

(** An experiment behaves if its reactions are legal commands. *)
Definition react_ok (cfg : FastConfig) (react : ptr -> ListenerManager B -> list exp_cmd) : Prop :=
  forall p f lm, wf lm -> is_Some (lm_heap lm !! p) -> legal_cmds cfg (Some f) (react p lm) lm.

Lemma onTrigger_handler cfg react cm0 :
  cm_wf cm0 -> react_ok cfg react ->
  handler_ok (fun cm lm => cm = cm0 /\ lm_ok cfg cm0 lm) (onTrigger cfg react).
Proof.
  intros Hcm Hreact. split; [by intros p cm lm [-> [? ? ?]]|].
  intros p cm lm Hwf [-> Hok] [l Hl] Hfire Hdel. unfold onTrigger. rewrite Hl. obind.
  destruct (ok_par _ _ _ Hok p l) as (f & Hpar & Hf); [by right|done|]. rewrite Hpar.
  destruct (toggle_registered f cm0 Hf) as [cm1 Et]. rewrite Et. obind.
  rewrite (toggle_current _ _ _ Hcm Et).
  destruct (run_cmds_ok cfg cm0 f (react p lm) lm Hwf Hok Hf) as (lm1 & E & Hok1 & Hs).
  { apply Hreact; [done|]. rewrite Hl. eauto. }
  rewrite E. obind. rewrite (toggle_resume_inv _ _ _ Et). obind. eauto 10.
Qed.

Lemma lm_ok_done cfg cm lm :
  lm_ok cfg cm lm -> lm_ok cfg cm (set_DeleteList [] (set_FireList [] lm)).
Proof.
  intros [Hcfg Hcnt Hpar]. split; [done|done|]. intros p l Hp Hl. simpl in *.
  apply (Hpar p l); [|done]. left. set_solver.
Qed.

(** Everything the controller relies on between two events. *)
Record sc_ok (cfg : FastConfig) sc : Prop := {
  sc_wf : wf (m_LstList sc);
  sc_lm : lm_ok cfg (sc_Flows sc) (m_LstList sc);
  sc_cm : cm_wf (sc_Flows sc)
}.

(** ** Properties *)


(** C28. The fast breakpoint and watchpoint aspects are transparent: presented with
    the same event, two managers holding the same listeners under different
    configurations activate the same listeners and end up holding the same
    listeners again; only the order within the lists may differ. *)
Theorem fast_slow_equivalent cfg cfg' ev lm lm2 :
  wf lm -> wf lm2 -> config_ok cfg lm -> config_ok cfg' lm2 -> counters_ok lm -> counters_ok lm2 ->
  same_listeners lm lm2 ->
  exists lm' lm2', activate cfg ev lm = Some lm' /\ activate cfg' ev lm2 = Some lm2' /\
    same_listeners lm' lm2'.
Proof.
  intros W1 W2 C1 C2 N1 N2 Hs.
  destruct (activate_spec cfg ev lm W1 C1 N1) as (lm' & E1 & O1).
  destruct (activate_spec cfg' ev lm2 W2 C2 N2) as (lm2' & E2 & O2).
  exists lm', lm2'. split; [done|]. split; [done|]. by eapply outcome_same.
Qed.

(** C1. Handling an event is safe end to end: whatever legal sequence of listener
    operations the triggered experiments perform (creating, adding, removing,
    destroying listeners, their own and others), the handler completes without
    a failed assertion or a dangling access, keeps the state consistent, empties
    the fire- and delete-list and leaves the control, with the toggler stack
    unchanged, in the coroutine that delivered the event. *)
Theorem event_handling_safe cfg react ev sc :
  sc_ok cfg sc -> react_ok cfg react ->
  exists sc', handle cfg react ev sc = Some sc' /\ sc_ok cfg sc' /\
    sc_Flows sc' = sc_Flows sc /\
    m_FireList (m_LstList sc') = [] /\ m_DeleteList (m_LstList sc') = [].
Proof.
  intros [Hwf Hok Hcm] Hreact. rewrite handle_activate.
  destruct (activate_spec cfg ev (m_LstList sc) Hwf) as (lm1 & E & Ho); [apply Hok..|].
  rewrite E. obind. unfold trigger.
  destruct (trigger_spec _ _ (sc_Flows sc) lm1 (onTrigger_handler cfg react (sc_Flows sc) Hcm Hreact))
    as (cm' & lm2 & E2 & Hwf2 & -> & Hok2).
  - apply Ho.
  - split; [done|]. by eapply outcome_ok.
  - rewrite E2. obind. eexists. split; [done|]. split; [|done]. split; simpl.
    + eapply lm_step_wf; [exact Hwf2|apply step_done].
    + by apply lm_ok_done.
    + done.
Qed.

(** Removing a flow leaves nothing of it behind: its coroutine is unregistered
    and no listener of the flow remains in the buffer-list or can still fire. *)
Theorem removeFlow_complete f sc :
  wf (m_LstList sc) -> cm_wf (sc_Flows sc) ->
  exists a sc', removeFlow f sc = Some (a, sc') /\ wf (m_LstList sc') /\ cm_wf (sc_Flows sc') /\
    flow_find f (m_Flows (sc_Flows sc')) = None /\
    (forall p, p ∈ m_BufferList (m_LstList sc') -> parent_of (m_LstList sc') p ≠ Some (Some f)) /\
    (forall p, p ∈ m_FireList (m_LstList sc') -> parent_of (m_LstList sc') p = Some (Some f) ->
       p ∈ m_DeleteList (m_LstList sc')).
Proof.
  intros Hwf Hcm. unfold removeFlow, clearListeners.
  destruct (remove_flow_spec f (m_LstList sc) Hwf) as (lm1 & more & Hd & E & Hm).
  pose proof (remove_flow_wf _ _ _ Hwf E) as Hwf1. rewrite E. obind. simpl.
  destruct (remove f (sc_Flows sc)) as [a cm1] eqn:Er. exists a. eexists. split; [done|]. simpl.
  destruct Hd as [_ Hk _ _ Hre _]. rewrite !drop_0 in Hre. split_and!.
  - done.
  - by eapply remove_wf.
  - by eapply remove_unregisters.
  - intros p Hp. rewrite Hre, list_elem_of_filter in Hp.
    change (parent_of (set_DeleteList _ lm1) p) with (parent_of lm1 p).
    rewrite (kept_parent _ _ _ Hk). by destruct Hp.
  - intros p Hp. change (parent_of (set_DeleteList _ lm1) p) with (parent_of lm1 p).
    rewrite (kept_parent _ _ _ Hk), elem_of_app, Hm. rewrite (kept_fire _ _ Hk) in Hp.
    destruct (decide (p ∈ m_DeleteList (m_LstList sc))); tauto.
Qed.

(** Starting a flow. *)
Lemma addFlow_ok cfg f h xs sc :
  sc_ok cfg sc -> flow_find f (m_Flows (sc_Flows sc)) = None ->
  (h ∉ snd <$> m_Flows (sc_Flows sc)) -> h ≠ m_simCoro (sc_Flows sc) ->
  legal_cmds cfg (Some f) xs (m_LstList sc) ->
  exists sc', addFlow cfg f h xs sc = Some sc' /\ sc_ok cfg sc' /\
    sc_Flows sc' = create f h (sc_Flows sc).
Proof.
  intros [Hwf [Hcfg Hcnt Hpar] Hcm] Hnew Hh Hsim Hlegal. unfold addFlow.
  pose proof (create_wf f h _ Hcm Hh Hsim) as Hcm0.
  assert (is_Some (flow_find f (m_Flows (create f h (sc_Flows sc))))) as Hf.
  { simpl. rewrite flow_find_insert by done. eauto. }
  assert (lm_ok cfg (create f h (sc_Flows sc)) (m_LstList sc)) as Hok0.
  { split; [done|done|]. intros p l Hp Hl. destruct (Hpar p l Hp Hl) as (g & ? & Hg).
    exists g. split; [done|]. simpl. by apply flow_find_insert_ne. }
  destruct (toggle_registered f _ Hf) as [cm1 Et]. rewrite Et. obind.
  rewrite (toggle_current _ _ _ Hcm0 Et).
  destruct (run_cmds_ok cfg _ f xs (m_LstList sc) Hwf Hok0 Hf Hlegal) as (lm1 & E & Hok1 & Hs).
  rewrite E. obind. rewrite (toggle_resume_inv _ _ _ Et). obind. eexists. split; [done|].
  split; [|done]. split; simpl; [|done|done]. by destruct (client_steps_inv _ _ _ Hwf Hs).
Qed.

Lemma new_SimulatorController_ok cfg c : sc_ok cfg (new_SimulatorController (B:=B) c).
Proof.
  split; simpl.
  - apply wf_new_ListenerManager.
  - split; [by intros p l Hp%elem_of_nil|by intros p l|].
    intros p l [Hp%elem_of_nil|[Hp%elem_of_nil _]]; done.
  - apply new_CoroutineManager_wf.
Qed.
End events.

(** ** Selecting the experiment *)

Lemma strstr_spec haystack needle :
  strstr haystack needle = true <-> exists a b, haystack = (a ++ needle ++ b)%string.
Proof.
  assert (forall n s, String.prefix n s = true <-> exists b, s = (n ++ b)%string) as Hprefix.
  { induction n as [|c n IH]; intros s; simpl.
    - split; [by exists s|by destruct s].
    - destruct s as [|d s]; simpl.
      + split; [done|]. by intros [b ?].
      + destruct (Ascii.ascii_dec c d) as [->|Hne].
        * rewrite IH. split; [by intros [b ->]; exists b|]. intros [b Hb]. exists b. by injection Hb.
        * split; [done|]. intros [b Hb]. injection Hb as E. by destruct Hne. }
  induction haystack as [|c s IH]; cbn [strstr]; rewrite orb_true_iff, Hprefix.
  - split.
    + intros [[b Hb]|?]; [|done]. by exists EmptyString, b.
    + intros ([|] & b & E); [|done]. left. by exists b.
  - rewrite IH. split.
    + intros [[b Hb]|(a & b & ->)]; [by exists EmptyString, b|]. by exists (String c a), b.
    + intros ([|d a] & b & E); [left; by exists b|right]. injection E as -> ->. by exists a, b.
Qed.

Lemma first_key_Some test m k :
  first_key test m = Some k -> k ∈ fst <$> m /\ test k = true.
Proof.
  induction m as [|[k' f] m IH]; simpl; [done|].
  destruct (test k') eqn:E; [intros [= <-]; split; [set_solver|done]|].
  intros Hk. apply IH in Hk. set_solver.
Qed.

Lemma first_key_None test m k :
  first_key test m = None -> k ∈ fst <$> m -> test k = false.
Proof.
  induction m as [|[k' f] m IH]; simpl; [set_solver|].
  destruct (test k') eqn:E; [done|]. intros Hn [->|Hk]%elem_of_cons; auto.
Qed.

Lemma exp_find_elem name m : name ∈ fst <$> m -> exists f, exp_find name m = Some f /\ (name, f) ∈ m.
Proof.
  induction m as [|[k f] m IH]; simpl; [set_solver|].
  destruct (String.eqb_spec name k) as [->|Hne]; [exists f; set_solver|].
  intros [?|Hk]%elem_of_cons; [done|]. destruct (IH Hk) as (g & ? & ?). exists g. set_solver.
Qed.

(** With several experiments registered, the invocation name decides over the
    environment: if it contains a registered name, such a name is selected;
    otherwise the experiment named by [FAIL_EXPERIMENT], if registered; otherwise
    none.  A selected name is always a registered experiment. *)
Theorem startup_selection exps env argv0 :
  (2 <= length exps)%nat -> EmptyString ∉ fst <$> exps ->
  let name := select_experiment exps env argv0 in
  ((argv0 ≠ EmptyString /\ exists k, k ∈ fst <$> exps /\ strstr argv0 k = true) ->
     strstr argv0 name = true /\ name ∈ fst <$> exps) /\
  (~ (argv0 ≠ EmptyString /\ exists k, k ∈ fst <$> exps /\ strstr argv0 k = true) ->
     match env with
     | Some e => name = if decide (e ∈ fst <$> exps) then e else EmptyString
     | None => name = EmptyString
     end) /\
  (name ≠ EmptyString -> exists f, exp_find name exps = Some f /\ (name, f) ∈ exps).
Proof.
  intros Hlen Hne name.
  set (by_env := match env with
                 | Some e => default EmptyString (first_key (fun k => String.eqb k e) exps)
                 | None => EmptyString end).
  assert (name = if String.eqb argv0 EmptyString then by_env
                 else default by_env (first_key (fun k => strstr argv0 k) exps)) as En.
  { unfold name, select_experiment. destruct exps as [|[k f] [|]]; [done|simpl in Hlen; lia|done]. }
  assert (match env with
          | Some e => by_env = if decide (e ∈ fst <$> exps) then e else EmptyString
          | None => by_env = EmptyString end) as Henv.
  { unfold by_env. destruct env as [e|]; [|done].
    destruct (first_key (fun k => String.eqb k e) exps) as [k|] eqn:Ef; simpl.
    - apply first_key_Some in Ef as [Hk ->%String.eqb_eq]. by rewrite decide_True.
    - rewrite decide_False; [done|]. intros He.
      pose proof (first_key_None _ _ _ Ef He) as E.
      cbv beta in E. by rewrite String.eqb_refl in E. }
  assert (by_env ≠ EmptyString -> by_env ∈ fst <$> exps) as Hin.
  { destruct env as [e|]; [|done]. rewrite Henv. by case_decide. }
  clearbody name. rewrite En. clear En name.
  destruct (String.eqb_spec argv0 EmptyString) as [->|Hargv].
  - split; [by intros [? _]|]. split; [by intros _|]. intros Hn. by apply exp_find_elem, Hin.
  - destruct (first_key (fun k => strstr argv0 k) exps) as [k|] eqn:Ek; simpl.
    + apply first_key_Some in Ek as [Hk Hs]. split; [done|]. split.
      * intros Hno. destruct Hno. eauto.
      * intros _. by apply exp_find_elem.
    + split; [|split].
      * intros (_ & k & Hk & Hs). pose proof (first_key_None _ _ _ Ek Hk) as E. simpl in E. congruence.
      * done.
      * intros Hn. by apply exp_find_elem, Hin.
Qed.

(** ** A concrete run

    Two flows: flow 7 waits for a breakpoint and a memory write, flow 8 for an
    instruction range; both breakpoints are on the fast path. *)
Module ControllerDemo.
Definition cfg64 : SalConfig := sal_64.
#[local] Existing Instance cfg64.

Definition cfg : FastConfig := mkFastConfig true false.
Definition slow : FastConfig := mkFastConfig false false.

Definition cmds7 : list exp_cmd :=
  [X_new 1 (new_BPSingleListener 0x100 ANY_ADDR None); X_addListener 1 true;
   X_new 2 (setCounter 2 (new_MemWriteListener 0x2000 None)); X_addListener 2 true].
Definition cmds8 : list exp_cmd :=
  [X_new 3 (new_BPRangeListener 0x100 0x1ff ANY_ADDR None); X_addListener 3 true].

Abbreviation SC := (SimulatorController DefPerfVector.t).

Definition get (o : option SC) : SC := default (new_SimulatorController 100) o.
Definition run (c : FastConfig) : SC :=
  get (sc1 ← addFlow c 7 101 cmds7 (new_SimulatorController 100); addFlow c 8 102 cmds8 sc1).
Definition demo : SC := run cfg.

(** Flow 7 destroys its breakpoint when it fires, and waits for nothing else. *)
Definition react (p : ptr) (lm : ListenerManager DefPerfVector.t) : list exp_cmd :=
  match lm_heap lm !! p with
  | Some _ => [X_delete p; X_clearListeners None]
  | None => []
  end.

Ltac legal := vm_compute; repeat first
  [ split | exact I | discriminate | reflexivity | (eexists; split; reflexivity) ].

Lemma run_ok c : c = cfg \/ c = slow -> sc_ok c (run c).
Proof.
  intros Hc.
  destruct (addFlow_ok c 7 101 cmds7 (new_SimulatorController 100)) as (sc1 & E1 & Hok1 & Hf1).
  - apply new_SimulatorController_ok.
  - reflexivity.
  - simpl. set_solver.
  - done.
  - destruct Hc; subst c; legal.
  - assert (legal_cmds c (Some 8%nat) cmds8 (m_LstList sc1)) as Hl.
    { assert (sc1 = get (addFlow c 7 101 cmds7 (new_SimulatorController 100))) as -> by (by rewrite E1).
      destruct Hc; subst c; legal. }
    destruct (addFlow_ok c 8 102 cmds8 sc1) as (sc2 & E2 & Hok2 & _); try done.
    + by rewrite Hf1.
    + rewrite Hf1. simpl. set_solver.
    + by rewrite Hf1.
    + unfold run. rewrite E1. cbn [mbind option_bind]. rewrite E2. exact Hok2.
Qed.

Lemma demo_ok : sc_ok cfg demo.
Proof. apply (run_ok cfg). by left. Qed.

Lemma react_legal : react_ok cfg react.
Proof.
  intros p f lm Hwf [l Hl]. unfold react. rewrite Hl. cbn [legal_cmds legal_cmd].
  split; [by rewrite Hl|]. destruct (run_cmd _ _ _ lm); [|done]. split; [done|].
  by destruct (run_cmd _ _ _ _).
Qed.


Lemma fast_slow_equivalent_witness :
  exists lm' lm2', activate cfg (Ev_breakpoint None 0x100 0) (m_LstList demo) = Some lm' /\
    activate slow (Ev_breakpoint None 0x100 0) (m_LstList (run slow)) = Some lm2' /\
    same_listeners lm' lm2'.
Proof.
  destruct demo_ok as [Hwf [Hcfg Hcnt _] _].
  destruct (run_ok slow) as [Hwf2 [Hcfg2 Hcnt2 _] _]; [by right|].
  apply (fast_slow_equivalent cfg slow); try assumption.
  split; vm_compute; reflexivity.
Defined.

Lemma event_handling_safe_witness :
  sc_ok cfg demo /\ react_ok cfg react /\
  exists sc', handle cfg react (Ev_breakpoint None 0x100 0) demo = Some sc' /\ sc_ok cfg sc' /\
    sc_Flows sc' = sc_Flows demo.
Proof.
  split; [exact demo_ok|]. split; [exact react_legal|].
  destruct (event_handling_safe cfg react (Ev_breakpoint None 0x100 0) demo demo_ok react_legal)
    as (sc' & E & Hok & Hf & _).
  exists sc'. split; [exact E|]. split; [exact Hok|exact Hf].
Defined.

Lemma removeFlow_complete_witness :
  wf (m_LstList demo) /\ cm_wf (sc_Flows demo) /\
  exists a sc', removeFlow 7 demo = Some (a, sc') /\ flow_find 7 (m_Flows (sc_Flows sc')) = None.
Proof.
  destruct demo_ok as [Hwf _ Hcm]. split; [exact Hwf|]. split; [exact Hcm|].
  destruct (removeFlow_complete 7%nat demo Hwf Hcm) as (a & sc' & E & _ & _ & Hf & _).
  exists a, sc'. split; [exact E|exact Hf].
Defined.

Lemma startup_selection_witness :
  select_experiment [("coolchecksum"%string, 1%nat); ("weather"%string, 2%nat)]
    (Some "coolchecksum"%string) "fail-weather"%string = "weather"%string /\
  exists f, exp_find "weather" [("coolchecksum"%string, 1%nat); ("weather"%string, 2%nat)] = Some f.
Proof.
  split; [reflexivity|].
  destruct (startup_selection [("coolchecksum"%string, 1%nat); ("weather"%string, 2%nat)]
    (Some "coolchecksum"%string) "fail-weather"%string) as (_ & _ & Hf).
  - simpl. lia.
  - simpl. set_solver.
  - destruct (Hf ltac:(done)) as (f & E & _). exists f. exact E.
Defined.
End ControllerDemo.
