(* ===== verification/SumTree.v ===== *)
(** * SumTree

    [src/core/util/SumTree.hpp]: the tree for sampling trace entries with a
    probability proportional to their sizes.

    Buckets are values of a tree type: each bucket has one owner.  Sizes are
    [uint64_t] ([T::size_type]); [None] is a failed assertion or an
    out-of-range access.  The reference is the linear scan that the header
    comment of the class describes. *)
From S2P Require Import Prelude.

#[warnings="-register-all"]
Inductive Bucket (T : Type) :=
| mkBucket (size : Z) (children : list (Bucket T)) (elements : list T).
Arguments mkBucket {T}.

Section sumtree.
Context {T : Type} (esize : T -> Z) (BUCKETSIZE : nat).

Definition bsize (b : Bucket T) : Z := match b with mkBucket s _ _ => s end.
Definition children (b : Bucket T) : list (Bucket T) := match b with mkBucket _ c _ => c end.
Definition elements (b : Bucket T) : list T := match b with mkBucket _ _ e => e end.

Definition new_Bucket : Bucket T := mkBucket 0 [] [].

Record SumTree := mkSumTree { m_root : Bucket T; m_depth : nat }.

Definition new_SumTree : SumTree := mkSumTree new_Bucket 0.

Definition get_size (t : SumTree) : Z := bsize (m_root t).

(** [add(Bucket **node, element, depth_remaining)]: the result and the updated
    node. *)
Fixpoint add_node (depth_remaining : nat) (node : Bucket T) (element : T) : bool * Bucket T :=
  match depth_remaining with
  | S d =>
      let cs := if (length (children node) =? 0)%nat then [new_Bucket] else children node in
      match last cs with
      | None => (false, node)
      | Some newest =>
          let '(ok, newest') := add_node d newest element in
          let cs1 := pop_back cs ++ [newest'] in
          if ok then (true, mkBucket (u64 (bsize node + esize element)) cs1 (elements node))
          else if (length cs1 <? BUCKETSIZE)%nat then
            let '(_, fresh) := add_node d new_Bucket element in
            (true, mkBucket (u64 (bsize node + esize element)) (cs1 ++ [fresh]) (elements node))
          else (false, mkBucket (bsize node) cs1 (elements node))
      end
  | O =>
      if (length (elements node) <? BUCKETSIZE)%nat
      then (true, mkBucket (u64 (bsize node + esize element)) (children node)
                    (elements node ++ [element]))
      else (false, node)
  end.

Definition add (element : T) (t : SumTree) : SumTree :=
  if esize element =? 0 then t
  else
    let '(ok, root) := add_node (m_depth t) (m_root t) element in
    if ok then mkSumTree root (m_depth t)
    else
      let b := mkBucket (bsize root) [root] [] in
      mkSumTree (add_node (S (m_depth t)) b element).2 (S (m_depth t)).

(** The loop over the elements of a leaf. *)
Fixpoint get_element (pos sum : Z) (es : list T) : option T :=
  match es with
  | [] => None
  | e :: rest =>
      let sum1 := u64 (sum + esize e) in
      if sum1 <=? pos then get_element pos sum1 rest else Some e
  end.

(** [get(pos, node, sum)] *)
Fixpoint get_node (pos : Z) (node : Bucket T) (sum : Z) : option T :=
  match node with
  | mkBucket size cs es =>
      if (sum <=? pos) && (pos <? u64 (sum + size)) then
        (fix go (cs : list (Bucket T)) (sum : Z) : option T :=
           match cs with
           | [] => get_element pos sum es
           | c :: rest =>
               let sum1 := u64 (sum + bsize c) in
               if sum1 <=? pos then go rest sum1
               else get_node pos c (u64 (sum1 - bsize c))
           end) cs sum
      else None
  end.

Definition get (pos : Z) (t : SumTree) : option T := get_node pos (m_root t) 0.

Fixpoint remove_element (pos sum : Z) (es : list T) : option (T * list T) :=
  match es with
  | [] => None
  | e :: rest =>
      let sum1 := u64 (sum + esize e) in
      if sum1 <=? pos then
        '(x, rest') ← remove_element pos sum1 rest; Some (x, e :: rest')
      else Some (e, rest)
  end.

(** [remove(pos, node, sum)] *)
Fixpoint remove_node (pos : Z) (node : Bucket T) (sum : Z) : option (T * Bucket T) :=
  match node with
  | mkBucket size cs es =>
      if (sum <=? pos) && (pos <? u64 (sum + size)) then
        (fix go (pre cs : list (Bucket T)) (sum : Z) : option (T * Bucket T) :=
           match cs with
           | [] =>
               '(e, es') ← remove_element pos sum es;
               Some (e, mkBucket (u64 (size - esize e)) pre es')
           | c :: rest =>
               let sum1 := u64 (sum + bsize c) in
               if sum1 <=? pos then go (pre ++ [c]) rest sum1
               else
                 '(e, c') ← remove_node pos c (u64 (sum1 - bsize c));
                 let cs' := if bsize c' =? 0 then pre ++ rest else pre ++ c' :: rest in
                 Some (e, mkBucket (u64 (size - esize e)) cs' es)
           end) [] cs sum
      else None
  end.

Definition remove (pos : Z) (t : SumTree) : option (T * SumTree) :=
  '(e, root) ← remove_node pos (m_root t) 0; Some (e, mkSumTree root (m_depth t)).

(** ** Iterator: buckets and indices down the tree, the leaf on top *)

Definition TreeIterator : Type := list (Bucket T * nat).

(** [while (!top.elements.size() && top.children.size() > 0) push(children[0])] *)
Fixpoint descend (b : Bucket T) (below : TreeIterator) : TreeIterator :=
  match b with
  | mkBucket _ cs es =>
      match es, cs with
      | [], c :: _ => descend c ((b, O) :: below)
      | _, _ => (b, O) :: below
      end
  end.

Definition iter_begin (t : SumTree) : TreeIterator := descend (m_root t) [].
Definition iter_end : TreeIterator := [].

(** The loop back up to a level that is not finished, then down again. *)
Fixpoint next_level (st : TreeIterator) : option TreeIterator :=
  match st with
  | [] => Some []
  | (b, i) :: rest =>
      if (length (children b) <=? S i)%nat then next_level rest
      else c ← children b !! S i; Some (descend c ((b, S i) :: rest))
  end.

(** [operator++] *)
Definition iter_next (it : TreeIterator) : option TreeIterator :=
  match it with
  | [] => None
  | (b, i) :: rest =>
      if (S i <? length (elements b))%nat then Some ((b, S i) :: rest)
      else next_level rest
  end.

(** [operator*] *)
Definition iter_deref (it : TreeIterator) : option T :=
  match it with
  | [] => None
  | (b, i) :: _ => elements b !! i
  end.

(** [for (it = begin(); it != end(); ++it)] collecting the elements. *)
Fixpoint iterate (fuel : nat) (it : TreeIterator) : option (list T) :=
  match it with
  | [] => Some []
  | _ =>
      match fuel with
      | O => None
      | S fuel => x ← iter_deref it; it' ← iter_next it; xs ← iterate fuel it'; Some (x :: xs)
      end
  end.

(** ** Reference *)

(** The elements in tree order. *)
Fixpoint flatten (b : Bucket T) : list T :=
  match b with mkBucket _ cs es => List.flat_map flatten cs ++ es end.

Definition sum_sizes (es : list T) : Z := foldr (fun e acc => esize e + acc) 0 es.

(** The naive roulette wheel: the index of the entry at which the running sum
    exceeds [pos]. *)
Fixpoint pick (pos : Z) (es : list T) : option nat :=
  match es with
  | [] => None
  | e :: rest => if pos <? esize e then Some O else S <$> pick (pos - esize e) rest
  end.

(** ** Invariant *)

Fixpoint wf_node (d : nat) (b : Bucket T) : Prop :=
  bsize b = sum_sizes (flatten b) /\
  match d with
  | O => children b = [] /\ (length (elements b) <= BUCKETSIZE)%nat
  | S d => elements b = [] /\ (length (children b) <= BUCKETSIZE)%nat /\
           Forall (fun c => wf_node d c /\ flatten c ≠ []) (children b)
  end.

(** Every node carries its size sum, leaves are exactly at depth [m_depth], only
    the root may be empty, entries have positive sizes and the total fits the
    size type. *)
Record wf_tree (t : SumTree) : Prop := {
  wt_node : wf_node (m_depth t) (m_root t);
  wt_pos : Forall (fun e => 0 < esize e) (flatten (m_root t));
  wt_range : sum_sizes (flatten (m_root t)) < 2 ^ 64
}.

Definition tree_elements (t : SumTree) : list T := flatten (m_root t).

Lemma wf_node_size d b : wf_node d b -> bsize b = sum_sizes (flatten b).
Proof. destruct d; intros [? _]; done. Qed.

Lemma sum_sizes_app l k : sum_sizes (l ++ k) = sum_sizes l + sum_sizes k.
Proof. induction l as [|e l IH]; simpl; [done|]. rewrite IH. lia. Qed.

Lemma sum_sizes_nonneg l : Forall (fun e => 0 < esize e) l -> 0 <= sum_sizes l.
Proof. induction 1; simpl; lia. Qed.

Lemma sum_sizes_pos l : Forall (fun e => 0 < esize e) l -> l ≠ [] -> 0 < sum_sizes l.
Proof. intros [|e k He Hk] Hne; [done|]. simpl. pose proof (sum_sizes_nonneg k Hk). lia. Qed.

Lemma flatten_node s cs es : flatten (mkBucket s cs es) = List.flat_map flatten cs ++ es.
Proof. done. Qed.

Lemma flat_map_app (cs cs' : list (Bucket T)) :
  List.flat_map flatten (cs ++ cs') = List.flat_map flatten cs ++ List.flat_map flatten cs'.
Proof. apply List.flat_map_app. Qed.

(** ** Adding *)

Lemma last_pop_back {A} (l : list A) x : last l = Some x -> l = pop_back l ++ [x].
Proof.
  destruct l as [|y l _] using rev_ind; [done|]. rewrite last_snoc, pop_back_snoc. by intros [= ->].
Qed.

(** A fresh sub-tree takes the element. *)
Lemma add_node_fresh d e :
  (1 <= BUCKETSIZE)%nat -> 0 < esize e < 2 ^ 64 ->
  exists b, add_node d new_Bucket e = (true, b) /\ wf_node d b /\ flatten b = [e].
Proof.
  intros HB He. induction d as [|d (b & E & Hwf & Hfl)]; simpl.
  - destruct (Nat.ltb_spec 0 BUCKETSIZE); [|lia]. eexists. split; [done|]. simpl.
    rewrite u64_small by lia. split_and!; (done || lia).
  - rewrite E. eexists. split; [done|]. simpl. rewrite Hfl. simpl. rewrite u64_small by lia.
    split_and!; [lia|done|lia| |done]. constructor; [|done]. by rewrite Hfl.
Qed.

(** Adding to a node: it appends the element, or fails and changes nothing. *)
Lemma add_node_spec d b e :
  (1 <= BUCKETSIZE)%nat -> 0 < esize e -> Forall (fun x => 0 < esize x) (flatten b) ->
  sum_sizes (flatten b) + esize e < 2 ^ 64 -> wf_node d b ->
  match add_node d b e with
  | (true, b') => wf_node d b' /\ flatten b' = flatten b ++ [e]
  | (false, b') => b' = b
  end.
Proof.
  intros HB He. revert b. induction d as [|d IH]; intros b Hpos Hr Hwf;
    pose proof (sum_sizes_nonneg _ Hpos) as Hnn; destruct b as [s cs es].
  - cbn [add_node]. simpl in Hwf. destruct Hwf as (Hs & -> & Hl). cbn [elements children bsize].
    destruct (Nat.ltb_spec (length es) BUCKETSIZE); [|done]. simpl in *.
    rewrite u64_small by lia. rewrite sum_sizes_app, length_app, Hs. simpl.
    split_and!; (done || lia).
  - simpl in Hwf. destruct Hwf as (Hs & -> & Hl & Hcs). cbn [add_node children elements bsize].
    rewrite app_nil_r in Hs. rewrite flatten_node, app_nil_r in Hr, Hpos, Hnn |- *.
    assert (forall cs', Forall (fun c => wf_node d c /\ flatten c ≠ []) cs' ->
              (length cs' <= BUCKETSIZE)%nat ->
              List.flat_map flatten cs' = List.flat_map flatten cs ++ [e] ->
              wf_node (S d) (mkBucket (u64 (s + esize e)) cs' []) /\
              flatten (mkBucket (u64 (s + esize e)) cs' []) = List.flat_map flatten cs ++ [e]) as Hdone.
    { intros cs' Hcs' Hl' Hfl. cbn [wf_node bsize children elements]. rewrite flatten_node, app_nil_r, Hfl.
      rewrite sum_sizes_app, Hs, u64_small by (simpl; lia). simpl. split_and!; (done || lia). }
    assert (add_node d new_Bucket e = (true, (add_node d new_Bucket e).2) /\
            wf_node d (add_node d new_Bucket e).2 /\ flatten (add_node d new_Bucket e).2 = [e])
      as (Ef & Wf & Ff).
    { destruct (add_node_fresh d e HB) as (f & -> & ? & ?); [lia|done]. }
    destruct cs as [|c pre _] using rev_ind; cbn [length Nat.eqb].
    + cbn [last]. rewrite Ef. apply Hdone; simpl; [|lia|by rewrite Ff].
      constructor; [|done]. by rewrite Ff.
    + rewrite length_app. cbn [length]. rewrite Nat.add_1_r. cbn [Nat.eqb].
      rewrite last_snoc, pop_back_snoc. rewrite flat_map_app in *. cbn [List.flat_map] in *.
      rewrite app_nil_r in *. apply Forall_app in Hcs as [Hpre [Hc Hcne]%Forall_singleton].
      apply Forall_app in Hpos as [Hp1 Hp2]. rewrite sum_sizes_app in Hr.
      pose proof (sum_sizes_nonneg _ Hp1) as Hn1. rewrite length_app in Hl. simpl in Hl.
      specialize (IH c Hp2 ltac:(lia) Hc). destruct (add_node d c e) as [[] c'].
      * destruct IH as [Hc' Hf']. apply Hdone.
        -- apply Forall_app. split; [done|]. apply Forall_singleton. split; [done|]. rewrite Hf'. by destruct (flatten c).
        -- rewrite length_app. simpl. lia.
        -- rewrite flat_map_app. simpl. by rewrite Hf', app_nil_r, app_assoc.
      * subst c'. rewrite length_app. cbn [length].
        destruct (Nat.ltb_spec (length pre + 1) BUCKETSIZE); [|done]. rewrite Ef. apply Hdone.
        -- apply Forall_app. split; [|by apply Forall_singleton; rewrite Ff].
           apply Forall_app. split; [done|]. by apply Forall_singleton.
        -- rewrite !length_app. simpl. lia.
        -- rewrite !flat_map_app. simpl. by rewrite Ff, !app_nil_r.
Qed.

Lemma add_node_empty d b e :
  (1 <= BUCKETSIZE)%nat -> 0 < esize e < 2 ^ 64 -> wf_node d b -> flatten b = [] ->
  (add_node d b e).1 = true.
Proof.
  intros HB He Hwf Hnil. destruct b as [s cs es]. destruct d as [|d]; cbn [add_node elements children].
  - simpl in *. apply app_nil in Hnil as [_ ->]. destruct (Nat.ltb_spec (length (@nil T)) BUCKETSIZE) as [|Hge]; [done|].
    simpl in Hge. lia.
  - destruct Hwf as (_ & _ & _ & Hcs). cbn [children] in Hcs.
    destruct cs as [|c cs]; simpl.
    + by destruct (add_node_fresh d e HB He) as (f & -> & _ & _).
    + apply Forall_cons in Hcs as [[_ Hc] _]. simpl in Hnil. by destruct (flatten c).
Qed.

Lemma add_spec e t :
  (2 <= BUCKETSIZE)%nat -> wf_tree t -> 0 < esize e ->
  sum_sizes (tree_elements t) + esize e < 2 ^ 64 ->
  wf_tree (add e t) /\ tree_elements (add e t) = tree_elements t ++ [e].
Proof.
  intros HB [Hwf Hpos Hr] He Hsum. unfold add, tree_elements in *.
  rewrite (proj2 (Z.eqb_neq _ _)) by lia. pose proof (sum_sizes_nonneg _ Hpos) as Hnn.
  assert (forall t', wf_node (m_depth t') (m_root t') -> flatten (m_root t') = flatten (m_root t) ++ [e] ->
            wf_tree t' /\ flatten (m_root t') = flatten (m_root t) ++ [e]) as Hdone.
  { intros t' Hw Hf. split; [|done]. split; [done| |]; rewrite Hf.
    - apply Forall_app. split; [done|]. by apply Forall_singleton.
    - rewrite sum_sizes_app. simpl. lia. }
  pose proof (add_node_spec (m_depth t) (m_root t) e ltac:(lia) He Hpos ltac:(lia) Hwf) as Hadd.
  pose proof (add_node_empty (m_depth t) (m_root t) e ltac:(lia) ltac:(lia) Hwf) as Hempty.
  destruct (add_node (m_depth t) (m_root t) e) as [[] root] eqn:E.
  { destruct Hadd. by apply Hdone. }
  subst root. destruct (add_node_fresh (m_depth t) e ltac:(lia)) as (f & Ef & Wf & Ff); [lia|].
  assert (add_node (S (m_depth t)) (mkBucket (bsize (m_root t)) [m_root t] []) e =
          (true, mkBucket (u64 (bsize (m_root t) + esize e)) [m_root t; f] [])) as ->.
  { cbn [add_node children elements bsize length Nat.eqb last]. rewrite E. simpl.
    rewrite (proj2 (Nat.ltb_lt _ _)) by lia. by rewrite Ef. }
  apply Hdone; cbn [m_depth m_root snd].
  - cbn [wf_node bsize elements children length]. rewrite flatten_node. simpl. rewrite Ff, !app_nil_r.
    rewrite sum_sizes_app, (wf_node_size _ _ Hwf), u64_small by lia. simpl. split_and!; [lia|done|lia|].
    constructor; [|constructor; [by rewrite Ff|done]]. split; [done|]. intros Hnil. by specialize (Hempty Hnil).
  - rewrite flatten_node. simpl. by rewrite Ff, !app_nil_r.
Qed.

(** ** Sampling *)

(** [pos] falls into [e], with [l1] before and [l2] behind it. *)
Definition picked (pos : Z) (es l1 : list T) (e : T) (l2 : list T) : Prop :=
  es = l1 ++ e :: l2 /\ sum_sizes l1 <= pos < sum_sizes l1 + esize e.

Lemma picked_pick pos es l1 e l2 :
  Forall (fun x => 0 < esize x) es -> picked pos es l1 e l2 -> pick pos es = Some (length l1).
Proof.
  intros Hpos [-> Hr]. revert pos Hr. induction l1 as [|x l1 IH]; intros pos Hr; simpl in *.
  - rewrite (proj2 (Z.ltb_lt _ _)) by lia. done.
  - apply Forall_cons in Hpos as [Hx Hpos]. pose proof (sum_sizes_nonneg l1) as Hnn.
    apply Forall_app in Hpos as Hpos'. destruct Hpos' as [Hp1 _]. specialize (Hnn Hp1).
    rewrite (proj2 (Z.ltb_ge _ _)) by lia. rewrite IH by (done || lia). done.
Qed.

(** The loop of a leaf. *)
Lemma element_loops pos sum es :
  Forall (fun x => 0 < esize x) es -> 0 <= sum -> sum + sum_sizes es < 2 ^ 64 ->
  sum <= pos < sum + sum_sizes es ->
  exists l1 e l2, picked (pos - sum) es l1 e l2 /\ get_element pos sum es = Some e /\
    remove_element pos sum es = Some (e, l1 ++ l2).
Proof.
  revert sum. induction es as [|x es IH]; intros sum Hpos Hs Hr Hp; simpl in *; [lia|].
  apply Forall_cons in Hpos as [Hx Hpos]. pose proof (sum_sizes_nonneg es Hpos).
  rewrite u64_small by lia. destruct (Z.leb_spec (sum + esize x) pos).
  - destruct (IH (sum + esize x)) as (l1 & e & l2 & [-> Hpk] & Hg & Hrm); try done; try lia.
    exists (x :: l1), e, l2. rewrite Hg, Hrm. split; [|done]. split; [done|]. simpl. lia.
  - exists [], x, es. split; [|done]. split; [done|]. simpl. lia.
Qed.

(** The loops over the children of an inner node, as functions of their own. *)
Definition get_children (pos : Z) (es : list T) :=
  fix go (cs : list (Bucket T)) (sum : Z) : option T :=
    match cs with
    | [] => get_element pos sum es
    | c :: rest =>
        let sum1 := u64 (sum + bsize c) in
        if sum1 <=? pos then go rest sum1 else get_node pos c (u64 (sum1 - bsize c))
    end.

Definition remove_children (pos size : Z) (es : list T) :=
  fix go (pre cs : list (Bucket T)) (sum : Z) : option (T * Bucket T) :=
    match cs with
    | [] =>
        '(e, es') ← remove_element pos sum es;
        Some (e, mkBucket (u64 (size - esize e)) pre es')
    | c :: rest =>
        let sum1 := u64 (sum + bsize c) in
        if sum1 <=? pos then go (pre ++ [c]) rest sum1
        else
          '(e, c') ← remove_node pos c (u64 (sum1 - bsize c));
          let cs' := if bsize c' =? 0 then pre ++ rest else pre ++ c' :: rest in
          Some (e, mkBucket (u64 (size - esize e)) cs' es)
    end.

Lemma get_node_eq pos s cs es sum :
  sum <= pos < sum + s -> 0 <= sum -> sum + s < 2 ^ 64 ->
  get_node pos (mkBucket s cs es) sum = get_children pos es cs sum.
Proof.
  intros Hp Hs Hr. cbn [get_node]. rewrite u64_small by lia.
  rewrite (proj2 (Z.leb_le _ _)), (proj2 (Z.ltb_lt _ _)) by lia. done.
Qed.

Lemma remove_node_eq pos s cs es sum :
  sum <= pos < sum + s -> 0 <= sum -> sum + s < 2 ^ 64 ->
  remove_node pos (mkBucket s cs es) sum = remove_children pos s es [] cs sum.
Proof.
  intros Hp Hs Hr. cbn [remove_node]. rewrite u64_small by lia.
  rewrite (proj2 (Z.leb_le _ _)), (proj2 (Z.ltb_lt _ _)) by lia. done.
Qed.

Lemma Forall_flat_map (P : T -> Prop) (cs : list (Bucket T)) c :
  Forall P (List.flat_map flatten cs) -> c ∈ cs -> Forall P (flatten c).
Proof.
  intros HF Hc. apply list_elem_of_split in Hc as (l1 & l2 & ->).
  rewrite flat_map_app in HF. apply Forall_app in HF as [_ HF]. simpl in HF.
  by apply Forall_app in HF as [? _].
Qed.

(** What sampling does at a node of depth [d]. *)
Definition sampled (d : nat) (b : Bucket T) (pos sum : Z) : Prop :=
  exists l1 e l2 b', picked (pos - sum) (flatten b) l1 e l2 /\
    get_node pos b sum = Some e /\ remove_node pos b sum = Some (e, b') /\
    wf_node d b' /\ flatten b' = l1 ++ l2.

(** A child from which an entry was removed is put back unless it is empty. *)
Lemma replace_child d pre c cs :
  wf_node d c -> Forall (fun x => 0 < esize x) (flatten c) ->
  Forall (fun c => wf_node d c /\ flatten c ≠ []) pre ->
  Forall (fun c => wf_node d c /\ flatten c ≠ []) cs ->
  (length pre + S (length cs) <= BUCKETSIZE)%nat ->
  let cs' := if bsize c =? 0 then pre ++ cs else pre ++ c :: cs in
  List.flat_map flatten cs' = List.flat_map flatten pre ++ flatten c ++ List.flat_map flatten cs /\
  (length cs' <= BUCKETSIZE)%nat /\ Forall (fun c => wf_node d c /\ flatten c ≠ []) cs'.
Proof.
  intros Hwf Hpos Hpre Hcs Hlen cs'. pose proof (wf_node_size _ _ Hwf) as Hsz. unfold cs'.
  destruct (Z.eqb_spec (bsize c) 0) as [E0|E0].
  - assert (flatten c = []) as ->.
    { destruct (flatten c) as [|y l] eqn:Efl; [done|].
      pose proof (sum_sizes_pos _ Hpos ltac:(done)). lia. }
    rewrite flat_map_app, length_app. split_and!; [done|lia|]. by apply Forall_app.
  - rewrite flat_map_app, length_app. simpl. split_and!; [done|lia|].
    apply Forall_app. split; [done|]. constructor; [|done]. split; [done|].
    intros Hnil. rewrite Hsz, Hnil in E0. done.
Qed.

(** An inner node: skip the children before the one that holds the position,
    and recurse into it. *)
Lemma children_loops d s pos sum pre cs :
  (forall c, c ∈ cs -> wf_node d c /\ flatten c ≠ []) ->
  Forall (fun c => wf_node d c /\ flatten c ≠ []) pre ->
  (forall c sum', c ∈ cs -> 0 <= sum' -> sum' + bsize c < 2 ^ 64 -> sum' <= pos < sum' + bsize c ->
     sampled d c pos sum') ->
  (length (pre ++ cs) <= BUCKETSIZE)%nat ->
  Forall (fun x => 0 < esize x) (List.flat_map flatten (pre ++ cs)) ->
  s = sum_sizes (List.flat_map flatten (pre ++ cs)) -> s < 2 ^ 64 ->
  0 <= sum -> sum + sum_sizes (List.flat_map flatten cs) < 2 ^ 64 ->
  sum <= pos < sum + sum_sizes (List.flat_map flatten cs) ->
  exists l1 e l2 b', picked (pos - sum) (List.flat_map flatten cs) l1 e l2 /\
    get_children pos [] cs sum = Some e /\
    remove_children pos s [] pre cs sum = Some (e, b') /\
    wf_node (S d) b' /\ flatten b' = List.flat_map flatten pre ++ l1 ++ l2.
Proof.
  revert sum pre. induction cs as [|c cs IH]; intros sum pre Hcs Hpre Hrec Hlen Hpos Hs Hs64 Hsum Hr Hp.
  { simpl in *. lia. }
  destruct (Hcs c) as [Hc Hcne]; [set_solver|].
  pose proof Hpos as Hpos'. rewrite flat_map_app in Hpos'. apply Forall_app in Hpos' as [Hppre Hpcs].
  cbn [List.flat_map] in *. apply Forall_app in Hpcs as [Hpc Hpcs].
  pose proof (sum_sizes_nonneg _ Hpc). pose proof (sum_sizes_nonneg _ Hpcs).
  rewrite sum_sizes_app in Hr, Hp. pose proof (wf_node_size _ _ Hc) as Hcs'.
  cbn [get_children remove_children]. rewrite u64_small by lia.
  destruct (Z.leb_spec (sum + bsize c) pos) as [Hle|Hgt].
  - assert (pre ++ c :: cs = (pre ++ [c]) ++ cs) as Eapp by (by rewrite <- app_assoc).
    rewrite Eapp in Hlen, Hpos, Hs.
    destruct (IH (sum + bsize c) (pre ++ [c])) as (l1 & e & l2 & b' & [E Hpk] & Hg & Hrm & Hwf' & Hf');
      try done; try lia.
    + intros c' Hc'. apply Hcs. set_solver.
    + apply Forall_app. split; [done|]. by apply Forall_singleton.
    + intros c' sum' Hc'. apply Hrec. set_solver.
    + exists (flatten c ++ l1), e, l2, b'. rewrite Hg. split_and!; [|done|done|done|].
      * split; [by rewrite E, <- app_assoc|]. rewrite sum_sizes_app. lia.
      * rewrite Hf', flat_map_app. simpl. by rewrite app_nil_r, <- !app_assoc.
  - replace (sum + bsize c - bsize c) with sum by lia. rewrite u64_small by lia.
    destruct (Hrec c sum) as (l1 & e & l2 & c' & [E Hpk] & Hg & Hrm & Hwf' & Hf'); [set_solver|lia..|].
    rewrite Hg, Hrm. cbn [mbind option_bind].
    assert (0 < esize e) as He.
    { rewrite E in Hpc. apply Forall_app in Hpc as [_ Hpc]. by apply Forall_cons in Hpc as [? _]. }
    assert (Forall (fun x => 0 < esize x) (flatten c')) as Hpc'.
    { rewrite Hf'. rewrite E in Hpc. apply Forall_app in Hpc as [? Hpc].
      apply Forall_app. split; [done|]. by apply Forall_cons in Hpc as [_ ?]. }
    exists l1, e, (l2 ++ List.flat_map flatten cs). eexists.
    split; [split; [by rewrite E, <- app_assoc|done]|]. split; [done|]. split; [done|].
    set (cs' := if bsize c' =? 0 then pre ++ cs else pre ++ c' :: cs).
    assert (Forall (fun c => wf_node d c /\ flatten c ≠ []) cs) as HFcs
      by (apply Forall_forall; intros x Hx; apply Hcs; set_solver).
    rewrite length_app in Hlen. simpl in Hlen.
    destruct (replace_child d pre c' cs Hwf' Hpc' Hpre HFcs ltac:(lia)) as (Hfl & Hlen' & HF).
    fold cs' in Hfl, Hlen', HF. rewrite Hf', <- app_assoc in Hfl.
    split.
    + cbn [wf_node bsize elements children]. rewrite flatten_node, app_nil_r, Hfl.
      split_and!; [|done|done|done].
      assert (s = sum_sizes (List.flat_map flatten pre) + (sum_sizes l1 + (esize e + sum_sizes l2)) +
                  sum_sizes (List.flat_map flatten cs)) as Es.
      { rewrite Hs, flat_map_app. cbn [List.flat_map]. rewrite !sum_sizes_app, E, sum_sizes_app. simpl. lia. }
      rewrite !sum_sizes_app. pose proof (sum_sizes_nonneg _ Hppre).
      pose proof (sum_sizes_nonneg _ Hpc') as Hc0. rewrite Hf', sum_sizes_app in Hc0.
      rewrite u64_small by lia. lia.
    + by rewrite flatten_node, app_nil_r, Hfl.
Qed.

Lemma sample_node d b pos sum :
  wf_node d b -> Forall (fun x => 0 < esize x) (flatten b) -> 0 <= sum ->
  sum + bsize b < 2 ^ 64 -> sum <= pos < sum + bsize b -> sampled d b pos sum.
Proof.
  revert b sum. induction d as [|d IH]; intros b sum Hwf Hpos Hs Hr Hp;
    destruct b as [s cs es]; unfold sampled.
  - destruct Hwf as (Esz & Ecs & Hl). cbn [bsize children elements] in *. subst cs. simpl in Esz, Hpos.
    rewrite get_node_eq, remove_node_eq by lia. cbn [get_children remove_children].
    destruct (element_loops pos sum es) as (l1 & e & l2 & Hpk & Hg & Hrm); try done; try lia.
    rewrite Hg, Hrm. cbn [mbind option_bind]. destruct Hpk as [Ees Hpk].
    assert (s = sum_sizes l1 + (esize e + sum_sizes l2)) as Es by (by rewrite Esz, Ees, sum_sizes_app).
    rewrite Ees in Hpos, Hl. apply Forall_app in Hpos as [Hp1 Hp2].
    apply Forall_cons in Hp2 as [He Hp2].
    pose proof (sum_sizes_nonneg _ Hp1). pose proof (sum_sizes_nonneg _ Hp2).
    exists l1, e, l2. eexists. split; [done|]. split; [done|]. split; [done|].
    rewrite length_app in Hl. simpl in Hl |- *. rewrite sum_sizes_app, length_app.
    split_and!; [rewrite u64_small; lia|done|lia|done].
  - destruct Hwf as (Esz & Ees & Hl & Hcs). cbn [bsize children elements] in *. subst es.
    rewrite flatten_node, app_nil_r in Esz, Hpos |- *.
    rewrite get_node_eq, remove_node_eq by lia.
    destruct (children_loops d s pos sum [] cs) as (l1 & e & l2 & b' & Hpk & Hg & Hrm & Hwf' & Hf');
      try done; try lia.
    + intros c Hc. rewrite Forall_forall in Hcs. by apply Hcs.
    + intros c sum' Hc H1 H2 H3. rewrite Forall_forall in Hcs. destruct (Hcs c Hc) as [Hwc _].
      apply IH; try done. by eapply Forall_flat_map.
    + exists l1, e, l2, b'. simpl in Hf'. done.
Qed.

(** ** Iteration *)

(** What is left on the levels below the top of the stack. *)
Fixpoint behind (st : TreeIterator) : list T :=
  match st with
  | [] => []
  | (b, i) :: rest => List.flat_map flatten (drop (S i) (children b)) ++ behind rest
  end.

Definition remaining (it : TreeIterator) : list T :=
  match it with
  | [] => []
  | (b, i) :: rest => drop i (elements b) ++ behind rest
  end.

(** The top is at an element of a leaf; below it, inner nodes at some child. *)
Definition level_ok (d : nat) (st : TreeIterator) : Prop :=
  forall k b i, st !! k = Some (b, i) -> wf_node (S (d + k)) b.

Definition iter_ok (it : TreeIterator) : Prop :=
  match it with
  | [] => True
  | (b, i) :: rest => wf_node 0 b /\ (i < length (elements b))%nat /\ level_ok 0 rest
  end.

Lemma descend_ok d b rest :
  wf_node d b -> flatten b ≠ [] -> level_ok d rest ->
  iter_ok (descend b rest) /\ remaining (descend b rest) = flatten b ++ behind rest /\
  descend b rest ≠ [].
Proof.
  revert b rest. induction d as [|d IH]; intros [s cs es] rest Hwf Hne Hlv.
  - destruct Hwf as (Hs & Hcs & Hl). cbn [children elements] in *. subst cs. simpl in Hne.
    destruct es as [|e es]; [done|]. simpl. split_and!; try done; simpl; lia.
  - pose proof Hwf as Hwf0. destruct Hwf as (Hs & Hes & Hl & Hcs). cbn [children elements] in *. subst es.
    destruct cs as [|c cs]; [done|]. cbn [descend].
    apply Forall_cons in Hcs as [[Hc Hcne] Hcs].
    destruct (IH c ((mkBucket s (c :: cs) [], 0%nat) :: rest)) as (Hok & Hrem & Hn); try done.
    { intros [|k] b i Hk; simpl in Hk; [injection Hk as <- <-; by rewrite Nat.add_0_r|].
      replace (S (d + S k))%nat with (S (S d + k))%nat by lia. by apply (Hlv k b i). }
    split; [done|]. split; [|done]. rewrite Hrem. simpl. by rewrite app_nil_r, <- app_assoc.
Qed.

Lemma next_level_ok d st :
  level_ok d st -> exists it', next_level st = Some it' /\ iter_ok it' /\ remaining it' = behind st.
Proof.
  revert d. induction st as [|[b i] rest IH]; intros d Hlv; cbn [next_level]; [by exists []|].
  assert (level_ok (S d) rest) as Hlv'.
  { intros k b' i' Hk. replace (S (S d + k)) with (S (d + S k))%nat by lia. by apply (Hlv (S k) b' i'). }
  destruct (Nat.leb_spec (length (children b)) (S i)) as [Hle|Hgt].
  - destruct (IH (S d) Hlv') as (it' & E & Hok & Hrem). exists it'. split; [done|]. split; [done|].
    cbn [behind]. rewrite Hrem, drop_ge by lia. done.
  - destruct (lookup_lt_is_Some_2 _ _ Hgt) as [c Hc]. rewrite Hc. obind.
    pose proof (Hlv 0%nat b i eq_refl) as Hwf. rewrite Nat.add_0_r in Hwf.
    pose proof Hwf as (_ & _ & _ & Hcs). rewrite Forall_forall in Hcs.
    destruct (Hcs c) as [Hwc Hcne]; [by eapply list_elem_of_lookup_2|].
    destruct (descend_ok d c ((b, S i) :: rest)) as (Hok & Hrem & _); try done.
    { intros [|k] b' i' Hk; simpl in Hk; [injection Hk as <- <-; by rewrite Nat.add_0_r|].
      by apply (Hlv (S k) b' i'). }
    eexists. split; [done|]. split; [done|]. rewrite Hrem. cbn [behind].
    rewrite (drop_S _ _ _ Hc). simpl. by rewrite <- app_assoc.
Qed.

Lemma iter_next_ok it x xs :
  iter_ok it -> remaining it = x :: xs ->
  iter_deref it = Some x /\ exists it', iter_next it = Some it' /\ iter_ok it' /\ remaining it' = xs.
Proof.
  destruct it as [|[b i] rest]; [done|]. intros (Hwf & Hi & Hlv) Hrem.
  destruct (lookup_lt_is_Some_2 _ _ Hi) as [y Hy]. cbn [remaining iter_deref iter_next] in *.
  rewrite (drop_S _ _ _ Hy) in Hrem. simpl in Hrem. injection Hrem as <- Hrem. split; [done|].
  destruct (Nat.ltb_spec (S i) (length (elements b))) as [Hlt|Hge].
  - eexists. split; [done|]. split; [done|]. done.
  - destruct (next_level_ok 0 rest Hlv) as (it' & E & Hok & Hr). exists it'. split; [done|].
    split; [done|]. rewrite drop_ge in Hrem by lia. simpl in Hrem. congruence.
Qed.

Lemma iterate_ok xs it n :
  iter_ok it -> remaining it = xs -> (length xs <= n)%nat -> iterate n it = Some xs.
Proof.
  revert it n. induction xs as [|x xs IH]; intros it n Hok Hrem Hn.
  - destruct it as [|[b i] rest]; [by destruct n|]. destruct Hok as (_ & Hi & _).
    simpl in Hrem. apply app_nil in Hrem as [Hd _].
    pose proof (f_equal length Hd) as Hl. rewrite length_drop in Hl. simpl in Hl. lia.
  - destruct (iter_next_ok it x xs Hok Hrem) as (Hd & it' & En & Hok' & Hr').
    destruct n as [|n]; simpl in Hn; [lia|]. destruct it as [|p rest]; [done|].
    cbn [iterate]. rewrite Hd. obind. rewrite En. obind. rewrite (IH it' n) by (done || lia). done.
Qed.

(** ** Properties *)

(** Adding an entry appends it to the tree's sequence of entries and keeps the
    invariant (every bucket within its limit and carrying the exact size sum of
    its sub-tree), growing the tree by a level when it is full; entries of size 0
    are ignored. *)
Lemma sumtree_add e t :
  (2 <= BUCKETSIZE)%nat -> wf_tree t -> 0 <= esize e ->
  sum_sizes (tree_elements t) + esize e < 2 ^ 64 ->
  wf_tree (add e t) /\ get_size (add e t) = get_size t + esize e /\
  tree_elements (add e t) = if esize e =? 0 then tree_elements t else tree_elements t ++ [e].
Proof.
  intros HB Hwf He Hr. destruct (Z.eqb_spec (esize e) 0) as [E|E].
  - unfold add. rewrite E. simpl. split_and!; [done|lia|done].
  - destruct (add_spec e t HB Hwf) as [Hwf' Hf]; [lia|done|]. split; [done|]. split; [|done].
    unfold get_size. rewrite (wf_node_size _ _ (wt_node _ Hwf')), (wf_node_size _ _ (wt_node _ Hwf)).
    unfold tree_elements in Hf. rewrite Hf, sum_sizes_app. simpl. lia.
Qed.

(** For every position below the total size, [get] succeeds and returns the
    entry that the naive linear roulette-wheel scan over all entries picks. *)
Lemma sumtree_get_naive pos t :
  wf_tree t -> 0 <= pos < get_size t ->
  exists i e, pick pos (tree_elements t) = Some i /\ tree_elements t !! i = Some e /\
    get pos t = Some e.
Proof.
  intros [Hwf Hpos Hr] Hp. unfold get_size in Hp. pose proof (wf_node_size _ _ Hwf) as Hs.
  destruct (sample_node (m_depth t) (m_root t) pos 0) as (l1 & e & l2 & b' & Hpk & Hg & _);
    try done; try lia. rewrite Z.sub_0_r in Hpk.
  exists (length l1), e. split; [by eapply picked_pick|]. destruct Hpk as [E _]. split; [|done].
  unfold tree_elements. rewrite E. by apply list_lookup_middle.
Qed.

(** [remove] (sampling without replacement) returns the same entry as the naive
    scan and removes exactly that one, keeping order, invariant and the total
    size of the remaining entries. *)
Lemma sumtree_remove_naive pos t :
  wf_tree t -> 0 <= pos < get_size t ->
  exists i e t', pick pos (tree_elements t) = Some i /\ tree_elements t !! i = Some e /\
    remove pos t = Some (e, t') /\ wf_tree t' /\
    tree_elements t' = delete i (tree_elements t) /\ get_size t' = get_size t - esize e.
Proof.
  intros [Hwf Hpos Hr] Hp. unfold get_size in *. pose proof (wf_node_size _ _ Hwf) as Hs.
  destruct (sample_node (m_depth t) (m_root t) pos 0) as (l1 & e & l2 & b' & Hpk & _ & Hrm & Hwf' & Hf);
    try done; try lia. rewrite Z.sub_0_r in Hpk.
  exists (length l1), e, (mkSumTree b' (m_depth t)).
  pose proof (picked_pick _ _ _ _ _ Hpos Hpk) as Hpick. destruct Hpk as [E _].
  unfold remove, tree_elements. rewrite Hrm. obind. cbn [m_root].
  rewrite (wf_node_size _ _ Hwf'), Hf, Hs. pose proof Hpos as Hpos'. rewrite E in Hpos' |- *.
  apply Forall_app in Hpos' as [Hp1 Hp2]. apply Forall_cons in Hp2 as [He Hp2].
  split_and!; [by rewrite <- E|by apply list_lookup_middle|done| |by rewrite delete_middle|].
  - split; cbn [m_root m_depth]; [done|rewrite Hf; by apply Forall_app|].
    rewrite Hf, sum_sizes_app. rewrite E, sum_sizes_app in Hr. simpl in Hr. lia.
  - rewrite !sum_sizes_app. simpl. lia.
Qed.

(** On a non-empty tree the iterator visits every entry exactly once, in order,
    and then equals [end()]. *)
Lemma sumtree_iterator_complete t :
  wf_tree t -> tree_elements t ≠ [] ->
  iterate (length (tree_elements t)) (iter_begin t) = Some (tree_elements t).
Proof.
  intros [Hwf _ _] Hne.
  destruct (descend_ok (m_depth t) (m_root t) [] Hwf Hne) as (Hok & Hrem & _).
  { intros k b i Hk. done. }
  apply iterate_ok; [done| |done]. unfold iter_begin. rewrite Hrem. apply app_nil_r.
Qed.

(** On an empty tree [begin()] differs from [end()] and cannot be dereferenced,
    so the usual loop runs into an out-of-range access. *)
Lemma sumtree_iterator_empty_tree t n :
  wf_tree t -> tree_elements t = [] ->
  iter_begin t ≠ iter_end /\ iter_deref (iter_begin t) = None /\ iterate n (iter_begin t) = None.
Proof.
  intros [Hwf _ _] Hnil. unfold tree_elements in Hnil.
  assert (iter_begin t = [(m_root t, 0%nat)] /\ elements (m_root t) = []) as [-> He].
  { unfold iter_begin. destruct (m_root t) as [s cs es]. simpl in Hnil.
    apply app_nil in Hnil as [Hcs ->]. simpl. split; [|done].
    destruct cs as [|c cs]; [done|]. destruct (m_depth t) as [|d].
    - by destruct Hwf as (_ & ? & _).
    - destruct Hwf as (_ & _ & _ & HF). simpl in HF. apply Forall_cons in HF as [[_ Hc] _].
      simpl in Hcs. apply app_nil in Hcs as [? _]. done. }
  unfold iter_end. cbn [iter_deref]. rewrite He. split; [done|]. split; [done|].
  destruct n as [|n]; [done|]. cbn [iterate iter_deref]. by rewrite He.
Qed.

(** C32. Sampling: for every position below the total size, [get] and [remove]
    return the entry that a linear roulette-wheel scan over all entries picks;
    [remove] deletes exactly that one and keeps order, invariant and the sizes of
    the others. *)
Theorem sumtree_sampling_naive pos t :
  wf_tree t -> 0 <= pos < get_size t ->
  exists i e t', pick pos (tree_elements t) = Some i /\ tree_elements t !! i = Some e /\
    get pos t = Some e /\ remove pos t = Some (e, t') /\ wf_tree t' /\
    tree_elements t' = delete i (tree_elements t) /\ get_size t' = get_size t - esize e.
Proof.
  intros Hwf Hp. destruct (sumtree_get_naive pos t Hwf Hp) as (i & e & Hi & He & Hg).
  destruct (sumtree_remove_naive pos t Hwf Hp) as (i' & e' & t' & Hi' & He' & Hr). simplify_eq. eauto 10.
Qed.
End sumtree.

Arguments SumTree T : clear implicits.

(** ** A concrete tree: entries that are their own sizes, two per bucket. *)
Module SumTreeDemo.
Definition esz (z : Z) : Z := z.
Definition demo : SumTree Z := foldl (fun t e => add esz 2 e t) new_SumTree [3; 1; 4; 1; 5].

Lemma tree_demo_wf : wf_tree esz 2 demo.
Proof.
  split; vm_compute; repeat split; try (intros E; discriminate E); repeat constructor;
    try (intros E; discriminate E).
Qed.

Example demo_shape : m_depth demo = 2%nat /\ tree_elements demo = [3; 1; 4; 1; 5].
Proof. vm_compute. auto. Qed.

Lemma sumtree_sampling_naive_witness :
  exists e t', get esz 7 demo = Some e /\ remove esz 7 demo = Some (e, t') /\ get_size t' = 14 - e.
Proof.
  destruct (sumtree_sampling_naive esz 2 7 demo tree_demo_wf) as (i & e & t' & _ & _ & Hg & Hr & _ & _ & Hs).
  - vm_compute. split; [intros E; discriminate E|reflexivity].
  - exists e, t'. split; [exact Hg|]. split; [exact Hr|exact Hs].
Defined.
End SumTreeDemo.
