(* ===== verification/SyncContainers.v ===== *)
(** * Synchronised containers

    [src/core/util/Synchronized{Queue,Map,Counter}.{hpp,cc}].  Every operation
    holds the container's mutex for its whole body, so it is one atomic step;
    an operation that would wait on a condition variable has no step ([None]). *)
From S2P Require Import Prelude.

(** ** SynchronizedQueue *)

Record SynchronizedQueue (T : Type) := mkSQ {
  m_queue : list T;
  capacity : nat;
  finished : bool
}.
Arguments mkSQ {T}.
Arguments m_queue {T}.
Arguments capacity {T}.
Arguments finished {T}.

Section queue.
Context {T : Type}.
Implicit Type q : SynchronizedQueue T.

Definition new_SynchronizedQueue (cap : nat) : SynchronizedQueue T := mkSQ [] cap false.

Definition queue_Size q : nat := length (m_queue q).

Definition Enqueue (data : T) q : option (SynchronizedQueue T) :=
  if negb (capacity q =? 0)%nat && (capacity q <=? length (m_queue q))%nat then None
  else Some (mkSQ (m_queue q ++ [data]) (capacity q) (finished q)).

(** The inner [option] is the default-constructed (null) result. *)
Definition Dequeue q : option (option T * SynchronizedQueue T) :=
  match m_queue q with
  | [] => if finished q then Some (None, q) else None
  | x :: rest => Some (Some x, mkSQ rest (capacity q) (finished q))
  end.

Definition Dequeue_nb q : option T * SynchronizedQueue T :=
  match m_queue q with
  | [] => (None, q)
  | x :: rest => (Some x, mkSQ rest (capacity q) (finished q))
  end.

Definition setIsFinished (value : bool) q : SynchronizedQueue T :=
  mkSQ (m_queue q) (capacity q) value.

Lemma Enqueue_Some x q q' : Enqueue x q = Some q' -> m_queue q' = m_queue q ++ [x].
Proof. unfold Enqueue. by case_match; intros; simplify_eq. Qed.

Lemma Enqueue_unbounded x q :
  capacity q = 0%nat -> Enqueue x q = Some (mkSQ (m_queue q ++ [x]) 0 (finished q)).
Proof. intros E. unfold Enqueue. by rewrite E. Qed.

(** What a bounded queue guarantees, whoever calls it. *)
Definition queue_ok q : Prop := capacity q = 0%nat \/ (length (m_queue q) <= capacity q)%nat.

Lemma Enqueue_ok x q q' : queue_ok q -> Enqueue x q = Some q' -> queue_ok q'.
Proof.
  unfold queue_ok, Enqueue. intros Hok. case_match eqn:E; intros; simplify_eq; simpl.
  rewrite length_app. simpl. apply andb_false_iff in E as [E|E]; bool_hyps; lia.
Qed.
End queue.

(** ** SynchronizedCounter: an [int] *)

Definition counter_increment (c : Z) : Z * Z := (s32 (c + 1), s32 (c + 1)).
Definition counter_decrement (c : Z) : Z * Z := (s32 (c - 1), s32 (c - 1)).
Definition counter_getValue (c : Z) : Z := c.

(** ** SynchronizedMap

    A [std::map] with [uint32_t] keys, as the list of its entries in key
    order. *)

Record SynchronizedMap (V : Type) := mkSM {
  m_map : list (Z * V);
  nextpick : nat
}.
Arguments mkSM {V}.
Arguments m_map {V}.
Arguments nextpick {V}.

Definition pick_window_size : nat := Z.to_nat 50000.

Section map.
Context {V : Type}.
Implicit Type m : SynchronizedMap V.

Definition new_SynchronizedMap : SynchronizedMap V := mkSM [] 0.
Definition map_Size m : nat := length (m_map m).

(** The loop that advances the iterator: the entry reached and the new
    [nextpick], reset when the end is hit.  [i] counts up to [np]. *)
Fixpoint pick_walk (all : list (Z * V)) (np : nat) (steps : nat) (it : list (Z * V))
    : list (Z * V) * nat :=
  match steps with
  | O => (it, np)
  | S steps =>
      match it with
      | [] => (all, O)
      | _ :: rest =>
          match rest with
          | [] => (all, O)
          | _ => pick_walk all np steps rest
          end
      end
  end.

Definition pickone m : option V * SynchronizedMap V :=
  match m_map m with
  | [] => (None, m)
  | _ =>
      let '(it, np) := pick_walk (m_map m) (nextpick m) (nextpick m) (m_map m) in
      let np1 := S np in
      let np2 := if (pick_window_size <=? np1)%nat then O else np1 in
      (snd <$> head it, mkSM (m_map m) np2)
  end.

Fixpoint map_find (k : Z) (l : list (Z * V)) : option V :=
  match l with
  | [] => None
  | (k', v) :: rest => if k =? k' then Some v else map_find k rest
  end.

Fixpoint map_put (k : Z) (v : V) (l : list (Z * V)) : list (Z * V) :=
  match l with
  | [] => [(k, v)]
  | (k', v') :: rest => if k <? k' then (k, v) :: l else (k', v') :: map_put k v rest
  end.

Fixpoint map_erase (k : Z) (l : list (Z * V)) : list (Z * V) :=
  match l with
  | [] => []
  | (k', v) :: rest => if k =? k' then rest else (k', v) :: map_erase k rest
  end.

Definition map_insert (key : Z) (value : V) m : bool * SynchronizedMap V :=
  match map_find key (m_map m) with
  | None => (true, mkSM (map_put key value (m_map m)) (nextpick m))
  | Some _ => (false, m)
  end.

Definition map_remove (key : Z) m : option V * SynchronizedMap V :=
  match map_find key (m_map m) with
  | Some v => (Some v, mkSM (map_erase key (m_map m)) (nextpick m))
  | None => (None, m)
  end.

Lemma map_put_Permutation k v l : map_put k v l ≡ₚ (k, v) :: l.
Proof.
  induction l as [|[k' v'] l IH]; simpl; [done|]. destruct (k <? k'); [done|].
  rewrite IH. apply perm_swap.
Qed.

Lemma map_find_elem k v l : map_find k l = Some v -> (k, v) ∈ l.
Proof.
  induction l as [|[k' v'] l IH]; simpl; [done|].
  destruct (Z.eqb_spec k k') as [->|]; [intros [= ->]|]; set_solver.
Qed.

Lemma map_find_None k l : map_find k l = None <-> k ∉ fst <$> l.
Proof.
  induction l as [|[k' v'] l IH]; simpl; [set_solver|].
  destruct (Z.eqb_spec k k') as [->|]; [split; [done|set_solver]|]. rewrite IH. set_solver.
Qed.

Lemma map_erase_Permutation k v l : map_find k l = Some v -> (k, v) :: map_erase k l ≡ₚ l.
Proof.
  induction l as [|[k' v'] l IH]; simpl; [done|].
  destruct (Z.eqb_spec k k') as [->|]; [by intros [= ->]|]. intros Hf.
  rewrite perm_swap. by rewrite (IH Hf).
Qed.

(** *** Round robin *)

Lemma pick_walk_spec all np k it :
  it ≠ [] ->
  pick_walk all np k it = if (k <? length it)%nat then (drop k it, np) else (all, O).
Proof.
  revert it. induction k as [|k IH]; intros it Hne; cbn [pick_walk].
  - destruct it as [|x it]; done.
  - destruct it as [|x [|y it]]; [done|done|]. rewrite IH by done. simpl.
    destruct (Nat.ltb_spec k (S (length it))), (Nat.ltb_spec (S k) (S (S (length it)))); (done || lia).
Qed.

(** A pick returns a stored value and changes only the position. *)
Lemma pickone_spec m o m' :
  pickone m = (o, m') ->
  m_map m' = m_map m /\
  match o with Some v => v ∈ (m_map m).*2 | None => m_map m = [] end.
Proof.
  unfold pickone. destruct (m_map m) as [|e l] eqn:El; [intros; by simplify_eq|].
  rewrite pick_walk_spec by done. intros E.
  assert (exists it e', it = e' :: tail it /\ e' ∈ e :: l /\ o = snd <$> head it /\ m_map m' = e :: l)
    as (it & e' & Hit & He' & -> & Hm').
  { destruct (Nat.ltb_spec (nextpick m) (length (e :: l))) as [Hlt|]; simplify_eq; cycle 1.
    { exists (e :: l), e. set_solver. }
    destruct (lookup_lt_is_Some_2 _ _ Hlt) as [e' He'].
    exists (drop (nextpick m) (e :: l)), e'. rewrite (drop_S _ _ _ He'). split_and!; try done.
    by eapply list_elem_of_lookup_2. }
  split; [done|]. rewrite Hit. cbn [fmap option_fmap option_map head]. apply list_elem_of_fmap. by exists e'.
Qed.

(** The number of entries a pick can reach. *)
Definition window m : nat := Nat.min (length (m_map m)) pick_window_size.

Lemma pickone_step m :
  m_map m ≠ [] -> (nextpick m <= window m)%nat -> (nextpick m < pick_window_size)%nat ->
  let k := (nextpick m mod window m)%nat in
  exists v np, pickone m = (Some v, mkSM (m_map m) np) /\ snd <$> m_map m !! k = Some v /\
    (np <= window m)%nat /\ (np < pick_window_size)%nat /\ (np mod window m = S k mod window m)%nat.
Proof.
  intros Hne Hnp Hlt k. subst k. unfold pickone, window in *.
  destruct (m_map m) as [|e l] eqn:El; [done|]. rewrite <- El in *.
  assert (0 < length (m_map m))%nat as Hlen by (rewrite El; simpl; lia).
  rewrite pick_walk_spec by (by rewrite El).
  remember (Nat.min (length (m_map m)) pick_window_size) as w eqn:Ew.
  assert (1 < pick_window_size)%nat as Hpw by (unfold pick_window_size; lia).
  generalize dependent pick_window_size. intros W Hlt Ew Hpw.
  destruct (Nat.ltb_spec (nextpick m) (length (m_map m))) as [Hin|Hout].
  - assert (nextpick m mod w = nextpick m)%nat as -> by (apply Nat.mod_small; lia).
    destruct (lookup_lt_is_Some_2 _ _ Hin) as [[kk v] Hv].
    exists v. eexists. rewrite (drop_S _ _ _ Hv). simpl. rewrite Hv. split; [done|]. split; [done|].
    destruct (Nat.leb_spec W (S (nextpick m))).
    + split_and!; [lia|lia|]. assert (w = S (nextpick m)) as -> by lia.
      by rewrite Nat.Div0.mod_same, Nat.Div0.mod_0_l.
    + split_and!; [lia|lia|done].
  - assert (nextpick m = w) as E by lia. rewrite E, Nat.Div0.mod_same.
    destruct (lookup_lt_is_Some_2 _ _ Hlen) as [[kk v] Hv].
    exists v. eexists. rewrite <- head_lookup in Hv. rewrite Hv. simpl. rewrite head_lookup in Hv.
    rewrite Hv. split; [done|]. split; [done|].
    destruct (Nat.leb_spec W 1); [lia|].
    split_and!; [lia|lia|done].
Qed.

(** [n] picks in a row. *)
Fixpoint picks (n : nat) m : list (option V) :=
  match n with
  | O => []
  | S n => let '(v, m') := pickone m in v :: picks n m'
  end.

Lemma picks_from n m i :
  m_map m ≠ [] -> (nextpick m <= window m)%nat -> (nextpick m < pick_window_size)%nat ->
  (i < n)%nat ->
  picks n m !! i = Some (snd <$> m_map m !! ((nextpick m + i) mod window m)%nat).
Proof.
  revert m i. induction n as [|n IH]; intros m i Hne Hnp Hlt Hi; [lia|].
  destruct (pickone_step m Hne Hnp Hlt) as (v & np & E & Hv & Hnp' & Hlt' & Hmod).
  cbn [picks]. rewrite E. destruct i as [|i]; simpl.
  - by rewrite Nat.add_0_r, Hv.
  - change (window m) with (window (mkSM (m_map m) np)) in *.
    rewrite (IH (mkSM (m_map m) np) i) by (done || lia). simpl. do 3 f_equal.
    rewrite <- Nat.Div0.add_mod_idemp_l, Hmod.
    change (window (mkSM (m_map m) np)) with (window m) in *.
    rewrite Nat.Div0.add_mod_idemp_l.
    replace (S (nextpick m mod window m) + i)%nat with (nextpick m mod window m + S i)%nat by lia.
    by rewrite Nat.Div0.add_mod_idemp_l.
Qed.

(** Picking a running job to resend is fair: as long as the set of running jobs
    does not change, successive picks go round robin through all entries in key
    order (through the first 50000 if there are more). *)
Theorem pickone_round_robin n m i :
  m_map m ≠ [] -> nextpick m = 0%nat -> (i < n)%nat ->
  picks n m !! i = Some (snd <$> m_map m !! (i mod window m)%nat) /\
  is_Some (m_map m !! (i mod window m)%nat).
Proof.
  intros Hne Hnp Hi.
  assert (0 < window m)%nat as Hw.
  { unfold window, pick_window_size. destruct (m_map m); [done|]. simpl length. lia. }
  rewrite (picks_from n m i) by (done || rewrite Hnp; unfold pick_window_size; lia).
  rewrite Hnp. split; [done|]. apply lookup_lt_is_Some_2.
  pose proof (Nat.mod_upper_bound i (window m)). unfold window in *. lia.
Qed.
End map.

Lemma pickone_round_robin_witness :
  picks 4 (mkSM [(1, 10%nat); (5, 50%nat); (9, 90%nat)] 0) !! 3%nat = Some (Some 10%nat).
Proof.
  destruct (pickone_round_robin 4 (mkSM [(1, 10%nat); (5, 50%nat); (9, 90%nat)] 0) 3) as [E _];
    [done|done|lia|].
  exact E.
Defined.
