(* ===== verification/JobServer.v ===== *)
(** * The campaign's job server

    [src/core/cpn/JobServer.{hpp,cc}], [src/core/cpn/CampaignManager.cc],
    [src/core/comm/ExperimentData.hpp], [src/core/comm/FailControlMessage.proto].

    The server hands the campaign's parameter sets to fault-injection clients
    and collects the results.  Two threads share it: the campaign thread
    ([addParam], [getDone], [setNoMoreExperiments], ...) and the communication
    thread, which runs one coroutine ([CommThread]) per client connection and
    switches between coroutines only where one of them waits for the network.
    A state of the model holds the server's queues, the objects the jobs are
    stored in, and for each connection the point its coroutine waits at; a step
    runs one thread up to its next such point.  (The campaign's operations touch
    the queues one synchronised call at a time and commute with the rest of a
    coroutine's segment, so segments are taken as atomic.)  What the network does
    is an argument of the step: messages arrive or fail, sends succeed or fail.
    Where [Enqueue] would wait for room in a queue of limited capacity the step is
    disabled; with the default configuration the queues are unlimited.

    Protocol buffers are third-party code: [M] is the type of an
    experiment-specific message. *)
From S2P Require Import Prelude SyncContainers.

Inductive Command := NEED_WORK | RESULT_FOLLOWS | WORK_FOLLOWS | COME_AGAIN | DIE.

Record FailControlMessage := mkCtrl {
  command : Command;
  workloadid : list Z;
  build_id : Z;
  run_id : option Z;
  job_size : option Z
}.

#[export] Instance Command_eq_dec : EqDecision Command.
Proof. solve_decision. Defined.

Definition get_run_id (c : FailControlMessage) : Z := default 0 (run_id c).
Definition get_job_size (c : FailControlMessage) : Z := default 0 (job_size c).

(** The message that tells a client to terminate. *)
Definition die_message : FailControlMessage := mkCtrl DIE [] 42 None None.

(** Jobs are [ExperimentData] objects, named by a [nat] that is never reused. *)
Abbreviation Job := nat (only parsing).

Record ExperimentData (M : Type) := mkED { getMessage : M; getWorkloadID : Z }.
Arguments mkED {M}.
Arguments getMessage {M}.
Arguments getWorkloadID {M}.

Definition setWorkloadID {M} (id : Z) (e : ExperimentData M) : ExperimentData M :=
  mkED (getMessage e) id.
Definition store_message {M} (m : M) (e : ExperimentData M) : ExperimentData M :=
  mkED m (getWorkloadID e).

Record JobServer := mkJS {
  m_runid : Z;
  m_DoneCount : Z;
  m_TotalCount : option Z;
  m_inOutCounter : Z;
  m_counter : Z;
  m_runningJobs : SynchronizedMap Job;
  m_undoneJobs : SynchronizedQueue Job;
  m_doneJobs : SynchronizedQueue Job;
  redundant_results : Z;
  noMoreExps : bool
}.

Definition new_JobServer (cap : nat) (runid : Z) : JobServer :=
  mkJS runid 0 None 0 0 new_SynchronizedMap (new_SynchronizedQueue cap)
    (new_SynchronizedQueue 0) 0 false.

(** Updates of one field. *)
Definition upd_running (r : SynchronizedMap Job) (js : JobServer) : JobServer :=
  mkJS (m_runid js) (m_DoneCount js) (m_TotalCount js) (m_inOutCounter js) (m_counter js)
    r (m_undoneJobs js) (m_doneJobs js) (redundant_results js) (noMoreExps js).
Definition upd_undone (q : SynchronizedQueue Job) (js : JobServer) : JobServer :=
  mkJS (m_runid js) (m_DoneCount js) (m_TotalCount js) (m_inOutCounter js) (m_counter js)
    (m_runningJobs js) q (m_doneJobs js) (redundant_results js) (noMoreExps js).
Definition upd_done (q : SynchronizedQueue Job) (js : JobServer) : JobServer :=
  mkJS (m_runid js) (m_DoneCount js) (m_TotalCount js) (m_inOutCounter js) (m_counter js)
    (m_runningJobs js) (m_undoneJobs js) q (redundant_results js) (noMoreExps js).
Definition upd_counters (dc : Z) (tc : option Z) (io cnt red : Z) (js : JobServer) : JobServer :=
  mkJS (m_runid js) dc tc io cnt
    (m_runningJobs js) (m_undoneJobs js) (m_doneJobs js) red (noMoreExps js).

(** ** The campaign's interface *)

Definition addParam (exp : Job) (js : JobServer) : option JobServer :=
  let js1 := upd_counters (m_DoneCount js) (m_TotalCount js)
               (snd (counter_increment (m_inOutCounter js))) (m_counter js)
               (redundant_results js) js in
  q ← Enqueue exp (m_undoneJobs js1);
  Some (upd_undone q js1).

Definition getDone (js : JobServer) : option (option Job * JobServer) :=
  '(exp, q) ← Dequeue (m_doneJobs js);
  let js1 := upd_done q js in
  Some (exp, match exp with
             | Some _ => upd_counters (m_DoneCount js1) (m_TotalCount js1)
                           (snd (counter_decrement (m_inOutCounter js1))) (m_counter js1)
                           (redundant_results js1) js1
             | None => js1
             end).

Definition noMoreExperiments (js : JobServer) : bool := noMoreExps js.

Definition setNoMoreExperiments (js : JobServer) : JobServer :=
  let js1 := mkJS (m_runid js) (m_DoneCount js) (m_TotalCount js) (m_inOutCounter js)
               (m_counter js) (m_runningJobs js) (setIsFinished true (m_undoneJobs js))
               (m_doneJobs js) (redundant_results js) true in
  if (queue_Size (m_undoneJobs js1) =? 0)%nat && (map_Size (m_runningJobs js1) =? 0)%nat
  then upd_done (setIsFinished true (m_doneJobs js1)) js1 else js1.

Definition setTotalCount (count : Z) (js : JobServer) : JobServer :=
  upd_counters (m_DoneCount js) (Some count) (m_inOutCounter js) (m_counter js)
    (redundant_results js) js.

Definition increaseTotalCount (count : Z) (js : JobServer) : JobServer :=
  upd_counters (m_DoneCount js) (Some (u64 (default 0 (m_TotalCount js) + count)))
    (m_inOutCounter js) (m_counter js) (redundant_results js) js.

Definition incDoneCount (js : JobServer) : JobServer :=
  upd_counters (u64 (m_DoneCount js + 1)) (m_TotalCount js) (m_inOutCounter js)
    (m_counter js) (redundant_results js) js.

Definition skipJobs (count : Z) (js : JobServer) : JobServer := incDoneCount js.

(** ** Connections *)

Inductive CommThread (M : Type) :=
  | RcvControl                                        (** waits for the client's request *)
  | SndDie                                            (** telling a client to die *)
  | SndControl (ctrlmsg : FailControlMessage) (exp : list Job)
                                                      (** announcing the jobs [exp] *)
  | SndJob (buf : M) (exp : list Job)                 (** sending the first of [exp] *)
  | SndAnswer (ctrlmsg : FailControlMessage) (temp_exp : option Job)
                                                      (** resend announcement, or no work *)
  | SndResent (buf : M)                               (** re-sending a running job *)
  | RcvResult (msgs : list (option Job * Z)) (recvd : list (Job * Z * bool)).
                                                      (** receiving the result of [head msgs] *)
Arguments RcvControl {M}.
Arguments SndDie {M}.
Arguments SndControl {M}.
Arguments SndJob {M}.
Arguments SndAnswer {M}.
Arguments SndResent {M}.
Arguments RcvResult {M}.

(** The whole system.  The last five fields are history: the jobs the campaign
    added and got back, the jobs a coroutine dropped, the jobs whose insertion
    into the running jobs failed, the number of jobs dispatched, and the
    message last received for each job. *)
Record System (M : Type) := mkSys {
  srv : JobServer;
  heap : gmap Job (ExperimentData M);
  conns : gmap nat (CommThread M);
  added : list Job;
  delivered : list Job;
  dropped : list Job;
  clashed : list Job;
  dispatched : Z;
  results : gmap Job M
}.
Arguments mkSys {M}.
Arguments srv {M}.
Arguments heap {M}.
Arguments conns {M}.
Arguments added {M}.
Arguments delivered {M}.
Arguments dropped {M}.
Arguments clashed {M}.
Arguments dispatched {M}.
Arguments results {M}.

(** A step continues, is not possible now (the thread waits), or touches an
    object that no longer exists. *)
Inductive Outcome (M : Type) := Next (s : System M) | Disabled | Crash.
Arguments Next {M}.
Arguments Disabled {M}.
Arguments Crash {M}.

Section server.
Context {M : Type}.
Implicit Types (s : System M) (js : JobServer).

Definition new_System (cap : nat) (runid : Z) : System M :=
  mkSys (new_JobServer cap runid) ∅ ∅ [] [] [] [] 0 ∅.

Definition upd_srv (js : JobServer) s : System M :=
  mkSys js (heap s) (conns s) (added s) (delivered s) (dropped s) (clashed s)
    (dispatched s) (results s).
Definition upd_heap (h : gmap Job (ExperimentData M)) s : System M :=
  mkSys (srv s) h (conns s) (added s) (delivered s) (dropped s) (clashed s)
    (dispatched s) (results s).

(** The coroutine of connection [c] waits at [t], or has returned. *)
Definition wait (c : nat) (t : CommThread M) s : System M :=
  mkSys (srv s) (heap s) (<[c := t]> (conns s)) (added s) (delivered s) (dropped s)
    (clashed s) (dispatched s) (results s).
Definition finish (c : nat) s : System M :=
  mkSys (srv s) (heap s) (delete c (conns s)) (added s) (delivered s) (dropped s)
    (clashed s) (dispatched s) (results s).
Definition drop_jobs (l : list Job) s : System M :=
  mkSys (srv s) (heap s) (conns s) (added s) (delivered s) (dropped s ++ l)
    (clashed s) (dispatched s) (results s).

Definition run_insert (w : Z) (j : Job) s : System M :=
  let '(ok, r) := map_insert w j (m_runningJobs (srv s)) in
  mkSys (upd_running r (srv s)) (heap s) (conns s) (added s) (delivered s) (dropped s)
    (if ok then clashed s else clashed s ++ [j]) (dispatched s) (results s).

(** *** Sending work *)

(** One job leaves the queue and gets its workload id. *)
Definition dispatch (j : Job) (q : SynchronizedQueue Job) s : Z * System M :=
  let '(v, cnt) := counter_increment (m_counter (srv s)) in
  let workloadID := u32 v in
  let js := upd_undone q (srv s) in
  (workloadID,
   mkSys (upd_counters (m_DoneCount js) (m_TotalCount js) (m_inOutCounter js) cnt
            (redundant_results js) js)
     (alter (setWorkloadID workloadID) j (heap s)) (conns s) (added s) (delivered s)
     (dropped s) (clashed s) (dispatched s + 1) (results s)).

(** The loop [for (i = 0; i < m_job_size; i++)]: the workload ids and jobs
    taken; [None] when a job's object is gone. *)
Fixpoint take_jobs (n : nat) s : option (list Z * list Job * System M) :=
  match n with
  | O => Some ([], [], s)
  | S n =>
      match Dequeue_nb (m_undoneJobs (srv s)) with
      | (Some temp_exp, q) =>
          _ ← heap s !! temp_exp;
          let '(workloadID, s1) := dispatch temp_exp q s in
          '(ids, exp, s2) ← take_jobs n s1;
          Some (workloadID :: ids, temp_exp :: exp, s2)
      | (None, _) => Some ([], [], s)
      end
  end.

Definition sendPendingExperimentData (c : nat) (m_job_size : Z) s : Outcome M :=
  match take_jobs (Z.to_nat m_job_size) s with
  | None => Crash
  | Some (ids, ((_ :: _) as exp), s1) =>
      Next (wait c (SndControl (mkCtrl WORK_FOLLOWS ids 42 (Some (m_runid (srv s1)))
                                  (Some (u32 (Z.of_nat (length exp))))) exp) s1)
  | Some (ids, [], s1) =>
      let '(temp_exp, r) := pickone (m_runningJobs (srv s1)) in
      let s2 := upd_srv (upd_running r (srv s1)) s1 in
      match temp_exp with
      | Some j =>
          match heap s2 !! j with
          | None => Crash
          | Some e =>
              Next (wait c (SndAnswer (mkCtrl WORK_FOLLOWS [getWorkloadID e] 42
                                         (Some (m_runid (srv s2))) (Some 1)) (Some j)) s2)
          end
      | None =>
          let cmd := if noMoreExperiments (srv s2) then DIE else COME_AGAIN in
          Next (wait c (SndAnswer (mkCtrl cmd [] 42 (Some (m_runid (srv s2))) None) None) s2)
      end
  end.

(** The send loop is at its head with [exp] left: serialise and send the first
    job, or return. *)
Definition send_loop (c : nat) (exp : list Job) s : Outcome M :=
  match exp with
  | [] => Next (finish c s)
  | j :: _ =>
      match heap s !! j with
      | None => Crash
      | Some e => Next (wait c (SndJob (getMessage e) exp) s)
      end
  end.

(** The remaining jobs go back to the queue. *)
Fixpoint requeue (exp : list Job) s : option (System M) :=
  match exp with
  | [] => Some s
  | j :: exp =>
      q ← Enqueue j (m_undoneJobs (srv s));
      requeue exp (upd_srv (upd_undone q (srv s)) s)
  end.

(** *** Receiving results *)

Fixpoint remove_running (ids : list Z) js : list (option Job * Z) * JobServer :=
  match ids with
  | [] => ([], js)
  | id :: ids =>
      let '(exp, r) := map_remove id (m_runningJobs js) in
      let '(msgs, js1) := remove_running ids (upd_running r js) in
      ((exp, id) :: msgs, js1)
  end.

(** The loop over [recvd] at the end. *)
Fixpoint store_results (recvd : list (Job * Z * bool)) s : option (System M) :=
  match recvd with
  | [] => Some s
  | (exp, w_id, received) :: recvd =>
      s1 ← (if received
            then q ← Enqueue exp (m_doneJobs (srv s)); Some (upd_srv (upd_done q (srv s)) s)
            else Some (run_insert w_id exp s));
      store_results recvd s1
  end.

Definition all_complete js : bool :=
  (queue_Size (m_undoneJobs js) =? 0)%nat && noMoreExperiments js &&
  (map_Size (m_runningJobs js) =? 0)%nat.

Definition check_complete js : JobServer :=
  if all_complete js then upd_done (setIsFinished true (m_doneJobs js)) js else js.

(** The receive loop is at its head with [msgs] left. *)
Definition receive_loop (c : nat) (msgs : list (option Job * Z)) (recvd : list (Job * Z * bool)) s
    : Outcome M :=
  match msgs with
  | (Some _, _) :: _ => Next (wait c (RcvResult msgs recvd) s)
  | (None, _) :: _ =>
      let js := srv s in
      Next (wait c (RcvResult msgs recvd)
              (upd_srv (upd_counters (m_DoneCount js) (m_TotalCount js) (m_inOutCounter js)
                          (m_counter js) (u64 (redundant_results js + 1)) js) s))
  | [] =>
      match store_results recvd s with
      | None => Disabled
      | Some s1 => Next (finish c (upd_srv (check_complete (srv s1)) s1))
      end
  end.

Definition receiveExperimentResults (c : nat) (ctrlmsg : FailControlMessage) s : Outcome M :=
  let '(msgs, js) := remove_running (workloadid ctrlmsg) (srv s) in
  receive_loop c msgs [] (upd_srv js s).

(** *** A coroutine's segments *)

(** The request has arrived ([None]: it has not). *)
Definition on_control (c : nat) (m : option FailControlMessage) s : Outcome M :=
  match m with
  | None => Next (finish c s)
  | Some ctrlmsg =>
      match command ctrlmsg with
      | NEED_WORK =>
          match run_id ctrlmsg with
          | Some r =>
              if negb (r =? 0) && negb (r =? m_runid (srv s)) then Next (wait c SndDie s)
              else sendPendingExperimentData c (get_job_size ctrlmsg) s
          | None => Next (wait c SndDie s)
          end
      | RESULT_FOLLOWS =>
          match run_id ctrlmsg with
          | Some r =>
              if negb (r =? m_runid (srv s)) then Next (finish c s)
              else receiveExperimentResults c ctrlmsg s
          | None => Next (finish c s)
          end
      | _ => Next (wait c SndDie s)
      end
  end.

(** A [sendMsg] has returned. *)
Definition on_sent (c : nat) (t : CommThread M) (ok : bool) s : Outcome M :=
  match t with
  | SndDie | SndResent _ => Next (finish c s)
  | SndControl _ exp =>
      if ok then send_loop c exp s else Next (finish c (drop_jobs exp s))
  | SndJob _ (j :: exp) =>
      if ok then
        match heap s !! j with
        | None => Crash
        | Some e => send_loop c exp (run_insert (getWorkloadID e) j s)
        end
      else match requeue (j :: exp) s with None => Disabled | Some s1 => Next (finish c s1) end
  | SndAnswer _ temp_exp =>
      match temp_exp, ok with
      | Some j, true =>
          match heap s !! j with
          | None => Crash
          | Some e => Next (wait c (SndResent (getMessage e)) s)
          end
      | _, _ => Next (finish c s)
      end
  | _ => Disabled
  end.

(** A [rcvMsg] or [dropMsg] has returned.  [m] is what the job's message holds
    now if the call wrote to it: parsing may fail half-way. *)
Definition on_received (c : nat) (t : CommThread M) (m : option M) (success : bool) s : Outcome M :=
  match t with
  | RcvResult ((Some exp, w_id) :: msgs) recvd =>
      match heap s !! exp, m, success with
      | None, _, _ => Crash
      | _, None, true => Disabled           (* a successful call has parsed the message *)
      | Some e, _, _ =>
          let h := match m with Some m => <[exp := store_message m e]> (heap s) | None => heap s end in
          let res := match m, success with
                     | Some m, true => <[exp := m]> (results s)
                     | _, _ => results s
                     end in
          receive_loop c msgs (recvd ++ [(exp, w_id, success)])
            (mkSys (incDoneCount (srv s)) h (conns s) (added s) (delivered s) (dropped s)
               (clashed s) (dispatched s) res)
      end
  | RcvResult ((None, _) :: msgs) recvd => receive_loop c msgs recvd s
  | _ => Disabled
  end.

(** ** The system's steps *)

Inductive Label :=
  | AddParam (j : Job) (m : M)
  | GetDone
  | DeleteJob (j : Job)                     (** the campaign deletes a job it got back *)
  | NoMore
  | SetTotal (n : Z) | IncreaseTotal (n : Z) | SkipJobs (n : Z)
  | Accept (c : nat)
  | Control (c : nat) (m : option FailControlMessage)
  | Sent (c : nat) (ok : bool)
  | Received (c : nat) (m : option M) (ok : bool).

Definition step (l : Label) s : Outcome M :=
  match l with
  | AddParam j m =>
      if bool_decide (j ∈ added s) then Disabled
      else match addParam j (srv s) with
           | None => Disabled
           | Some js => Next (mkSys js (<[j := mkED m 0]> (heap s)) (conns s) (added s ++ [j])
                                (delivered s) (dropped s) (clashed s) (dispatched s) (results s))
           end
  | GetDone =>
      match getDone (srv s) with
      | None => Disabled
      | Some (None, js) => Next (upd_srv js s)
      | Some (Some j, js) =>
          Next (mkSys js (heap s) (conns s) (added s) (delivered s ++ [j]) (dropped s)
                  (clashed s) (dispatched s) (results s))
      end
  | DeleteJob j =>
      if bool_decide (j ∈ delivered s) then Next (upd_heap (delete j (heap s)) s) else Disabled
  | NoMore => Next (upd_srv (setNoMoreExperiments (srv s)) s)
  | SetTotal n => Next (upd_srv (setTotalCount n (srv s)) s)
  | IncreaseTotal n => Next (upd_srv (increaseTotalCount n (srv s)) s)
  | SkipJobs n => Next (upd_srv (skipJobs n (srv s)) s)
  | Accept c =>
      match conns s !! c with Some _ => Disabled | None => Next (wait c RcvControl s) end
  | Control c m =>
      match conns s !! c with Some RcvControl => on_control c m s | _ => Disabled end
  | Sent c ok =>
      match conns s !! c with Some t => on_sent c t ok s | None => Disabled end
  | Received c m ok =>
      match conns s !! c with Some t => on_received c t m ok s | None => Disabled end
  end.

Fixpoint run (ls : list Label) s : Outcome M :=
  match ls with
  | [] => Next s
  | l :: ls => match step l s with Next s1 => run ls s1 | o => o end
  end.

Inductive reachable (cap : nat) (runid : Z) : System M -> Prop :=
  | reach_init : reachable cap runid (new_System cap runid)
  | reach_step s l s' : reachable cap runid s -> step l s = Next s' -> reachable cap runid s'.
End server.
