(* ===== verification/JobServerTheorems.v ===== *)
(** * Correctness of the job server

    The invariant of the server and its connections, and the theorems on which
    jobs reach the campaign. *)
From S2P Require Import Prelude SyncContainers JobServer.

Section invariant.
Context {M : Type}.
Implicit Types (s : System M) (t : CommThread M) (h : gmap nat (ExperimentData M)).

(** The jobs a coroutine keeps in its local variables and nobody else has. *)
Definition held t : list Job :=
  match t with
  | SndControl _ exp | SndJob _ exp => exp
  | RcvResult msgs recvd => omap fst msgs ++ (fst ∘ fst <$> recvd)
  | _ => []
  end.

Definition all_held (cs : gmap nat (CommThread M)) : list Job :=
  map_to_list cs ≫= held ∘ snd.

Definition undone s : list Job := m_queue (m_undoneJobs (srv s)).
Definition running s : list (Z * Job) := m_map (m_runningJobs (srv s)).
Definition done_jobs s : list Job := m_queue (m_doneJobs (srv s)).

Definition wid h (j : Job) : Z := from_option getWorkloadID 0 (h !! j).

(** [j]'s object holds the message last received for it. *)
Definition content h (res : gmap nat M) (j : Job) : Prop :=
  exists m, res !! j = Some m /\ getMessage <$> h !! j = Some m.

Definition ok_thread h (res : gmap nat M) (add : list Job) t : Prop :=
  match t with
  | RcvResult msgs recvd =>
      (forall j w, (Some j, w) ∈ msgs -> wid h j = w) /\
      (forall j w b, (j, w, b) ∈ recvd -> wid h j = w /\ (b = true -> content h res j))
  | SndAnswer _ (Some j) => j ∈ add
  | _ => True
  end.

(** The invariant while a coroutine runs that has the jobs [own] in its local
    variables, and the others wait as [cs] says. *)
Record winv (cs : gmap nat (CommThread M)) (own : list Job) s : Prop := mkWinv {
  wi_jobs : added s ≡ₚ undone s ++ (running s).*2 ++ done_jobs s ++ delivered s ++
              own ++ all_held cs ++ dropped s ++ clashed s;
  wi_nodup : NoDup (added s);
  wi_heap : forall j, j ∈ added s -> j ∉ delivered s -> is_Some (heap s !! j);
  wi_keys : forall w j, (w, j) ∈ running s -> wid (heap s) j = w;
  wi_threads : map_Forall (fun _ => ok_thread (heap s) (results s) (added s)) cs;
  wi_content : forall j, j ∈ done_jobs s -> content (heap s) (results s) j;
  wi_unbounded : capacity (m_doneJobs (srv s)) = 0%nat;
  wi_finished : finished (m_doneJobs (srv s)) = true -> noMoreExps (srv s) = true;
  wi_count : 0 <= dispatched s;
  wi_ids : dispatched s < 2 ^ 31 ->
    m_counter (srv s) = dispatched s /\ clashed s = [] /\
    let ids := wid (heap s) <$> ((running s).*2 ++ own ++ all_held cs) in
    NoDup ids /\ Forall (fun w => 1 <= w <= dispatched s) ids
}.

(** Between steps: no coroutine runs. *)
Definition inv s : Prop := winv (conns s) [] s.

(** ** Opening and closing a coroutine *)

Lemma all_held_delete cs c t :
  cs !! c = Some t -> all_held cs ≡ₚ held t ++ all_held (delete c cs).
Proof.
  intros Hc. unfold all_held. by rewrite <- (map_to_list_delete cs c t Hc).
Qed.

Lemma all_held_insert cs c t :
  all_held (<[c := t]> cs) ≡ₚ held t ++ all_held (delete c cs).
Proof.
  rewrite (all_held_delete _ c t) by apply lookup_insert_eq. by rewrite delete_insert_eq.
Qed.

Lemma winv_own_perm cs own own' s : own ≡ₚ own' -> winv cs own s -> winv cs own' s.
Proof.
  intros Hp [Hj ? ? ? ? ? ? ? ? Hids]. split; try done.
  - by rewrite <- Hp.
  - intros Hd. destruct (Hids Hd) as (? & ? & Hnd & Hall). simpl in *. split_and!; [done|done|..].
    + by rewrite <- Hp.
    + by rewrite <- Hp.
Qed.

Lemma winv_open c t s :
  inv s -> conns s !! c = Some t ->
  winv (delete c (conns s)) (held t) s /\ ok_thread (heap s) (results s) (added s) t.
Proof.
  intros [Hj ? ? ? Ht ? ? ? ? Hids] Hc. pose proof (all_held_delete _ _ _ Hc) as Hp.
  split; [|by apply (map_Forall_lookup_1 _ _ c t Ht)]. split; try done.
  - rewrite Hj, Hp. simpl. solve_Permutation.
  - by apply map_Forall_delete.
  - intros Hd. destruct (Hids Hd) as (? & ? & Hnd & Hall). simpl in *.
    split_and!; [done|done|by rewrite <- Hp|by rewrite <- Hp].
Qed.

Lemma winv_wait c t s :
  winv (delete c (conns s)) (held t) s -> ok_thread (heap s) (results s) (added s) t ->
  inv (wait c t s).
Proof.
  intros [Hj ? ? ? Ht ? ? ? ? Hids] Hok. pose proof (all_held_insert (conns s) c t) as Hp.
  split; try done.
  - simpl. unfold undone, running, done_jobs in *. simpl. rewrite Hj, Hp. simpl. solve_Permutation.
  - simpl. rewrite <- insert_delete_eq. by apply map_Forall_insert_2.
  - intros Hd. destruct (Hids Hd) as (? & ? & Hnd & Hall). simpl in *.
    split_and!; [done|done|by rewrite Hp|by rewrite Hp].
Qed.

Lemma winv_finish c s : winv (delete c (conns s)) [] s -> inv (finish c s).
Proof. by intros [? ? ? ? ? ? ? ? ? ?]. Qed.

(** ** Ownership *)

Lemma winv_own_excl cs j own s :
  winv cs (j :: own) s ->
  j ∈ added s /\ j ∉ undone s ++ (running s).*2 ++ done_jobs s ++ delivered s ++ own ++ all_held cs.
Proof.
  intros W. pose proof (wi_nodup _ _ _ W) as Hnd. rewrite (wi_jobs _ _ _ W) in Hnd |- *.
  split; [set_solver|].
  assert (NoDup (j :: (undone s ++ (running s).*2 ++ done_jobs s ++ delivered s ++ own ++
            all_held cs) ++ dropped s ++ clashed s)) as Hnd'.
  { refine (proj1 (NoDup_Permutation_proper _ _ _) Hnd). simpl. solve_Permutation. }
  apply NoDup_cons in Hnd' as [Hni _]. set_solver.
Qed.

Lemma winv_own_heap cs j own s : winv cs own s -> j ∈ own -> is_Some (heap s !! j).
Proof.
  intros W Hj. apply elem_of_Permutation in Hj as [own' Hp].
  apply (winv_own_perm _ _ _ _ Hp) in W. destruct (winv_own_excl _ _ _ _ W) as [Ha Hx].
  apply (wi_heap _ _ _ W); [done|set_solver].
Qed.

Lemma ok_thread_frame h h' (res res' : gmap nat M) add add' t :
  (forall j, j ∈ held t -> h' !! j = h !! j /\ res' !! j = res !! j) -> add ⊆ add' ->
  ok_thread h res add t -> ok_thread h' res' add' t.
Proof.
  intros Hfr Hadd. destruct t as [| | | | ?  [j|] | | msgs recvd]; simpl; try done; [set_solver|].
  intros [H1 H2]. unfold wid, content in *. split.
  - intros j w Hin. destruct (Hfr j) as [-> _]; [|by apply H1].
    simpl. apply elem_of_app. left. apply list_elem_of_omap. by exists (Some j, w).
  - intros j w b Hin. destruct (Hfr j) as [-> ->]; [|by apply (H2 j w b)].
    simpl. apply elem_of_app. right. apply list_elem_of_fmap. by exists (j, w, b).
Qed.

Lemma all_held_elem cs c t j : cs !! c = Some t -> j ∈ held t -> j ∈ all_held cs.
Proof. intros Hc Hj. rewrite (all_held_delete _ _ _ Hc). set_solver. Qed.

(** The objects' contents may change where nobody relies on them. *)
Definition upd_objects h (res : gmap nat M) (add : list Job) s : System M :=
  mkSys (srv s) h (conns s) add (delivered s) (dropped s) (clashed s) (dispatched s) res.

Lemma wid_fmap_ext h h' (l : list Job) :
  (forall j, j ∈ l -> wid h' j = wid h j) -> wid h' <$> l = wid h <$> l.
Proof. intros Hl. apply list_fmap_ext. intros i j Hi. apply Hl. by eapply list_elem_of_lookup_2. Qed.

Lemma winv_objects cs own h' res' s :
  winv cs own s ->
  (forall j, j ∈ (running s).*2 ++ done_jobs s ++ all_held cs ->
     h' !! j = heap s !! j /\ res' !! j = results s !! j) ->
  (forall j, j ∈ own -> wid h' j = wid (heap s) j) ->
  (forall j, j ∈ added s -> j ∉ delivered s -> is_Some (h' !! j)) ->
  winv cs own (upd_objects h' res' (added s) s).
Proof.
  intros [Hj ? ? Hk Ht Hc ? ? ? Hids] Hfr Hown Hheap. split; try done; simpl.
  - intros w j Hin. rewrite <- (Hk w j Hin). unfold wid.
    destruct (Hfr j) as [-> _]; [|done].
    apply elem_of_app. left. apply list_elem_of_fmap. by exists (w, j).
  - intros c t Hct. eapply ok_thread_frame; [|done|by apply (map_Forall_lookup_1 _ _ _ _ Ht Hct)].
    intros j Hjt. apply Hfr. pose proof (all_held_elem _ _ _ _ Hct Hjt). set_solver.
  - intros j Hin. unfold content. destruct (Hfr j) as [-> ->]; [set_solver|]. by apply Hc.
  - intros Hd. rewrite (wid_fmap_ext (heap s) h'); [by apply Hids|].
    intros j Hin. rewrite !elem_of_app in Hin. destruct Hin as [Hin|[Hin|Hin]].
    + unfold wid. destruct (Hfr j) as [-> _]; [set_solver|done].
    + by apply Hown.
    + unfold wid. destruct (Hfr j) as [-> _]; [set_solver|done].
Qed.

(** ** The operations' effect on ownership *)

Lemma running_keys cs own s :
  winv cs own s -> (running s).*1 = wid (heap s) <$> (running s).*2.
Proof.
  intros W. rewrite <- list_fmap_compose. apply list_fmap_ext. intros i [w j] Hi. simpl.
  symmetry. apply (wi_keys _ _ _ W). by eapply list_elem_of_lookup_2.
Qed.

(** A coroutine hands one of its jobs to the running jobs. *)
Lemma run_insert_inv cs j own s :
  winv cs (j :: own) s -> winv cs own (run_insert (wid (heap s) j) j s).
Proof.
  intros W. pose proof (running_keys _ _ _ W) as Hkeys. destruct W as [Hj ? ? Hk ? ? ? ? ? Hids].
  unfold run_insert, map_insert. unfold running in *.
  destruct (map_find _ _) eqn:Hf.
  - (* the id is taken: excluded while the counter has not wrapped *)
    split; try done; unfold undone, running, done_jobs in *; simpl in *.
    + rewrite Hj. simpl. solve_Permutation.
    + intros Hd. exfalso. destruct (Hids Hd) as (_ & _ & Hnd & _).
      apply map_find_elem in Hf. rewrite fmap_app in Hnd. simpl in Hnd.
      apply NoDup_app in Hnd as (_ & Hdis & _). apply (Hdis (wid (heap s) j)); [|set_solver].
      rewrite <- Hkeys. apply list_elem_of_fmap. by exists (wid (heap s) j, n).
  - pose proof (map_put_Permutation (wid (heap s) j) j (m_map (m_runningJobs (srv s)))) as Hp.
    split; try done; unfold undone, running, done_jobs in *; simpl in *.
    + rewrite Hj, Hp. simpl. solve_Permutation.
    + intros w j'. rewrite Hp. rewrite elem_of_cons. intros [[= -> ->]|Hin]; [done|by apply Hk].
    + intros Hd. destruct (Hids Hd) as (? & ? & Hnd & Hall). split_and!; [done|done|..].
      * rewrite Hp. simpl. by rewrite <- Permutation_middle in Hnd.
      * rewrite Hp. simpl. by rewrite <- Permutation_middle in Hall.
Qed.

Lemma wid_alter_ne h w j j' : j ≠ j' -> wid (alter (setWorkloadID w) j h) j' = wid h j'.
Proof. intros Hne. unfold wid. by rewrite lookup_alter_ne. Qed.

Lemma counter_next n : 0 <= n < 2 ^ 31 - 1 -> u32 (s32 (n + 1)) = n + 1 /\ s32 (n + 1) = n + 1.
Proof.
  intros Hn. split; [apply u32_s32_small; lia|].
  unfold s32, wrap. rewrite Z.mod_small; lia.
Qed.

(** A queued job is not in use elsewhere. *)
Lemma winv_undone_excl cs own j q s :
  winv cs own s -> undone s = j :: q ->
  j ∈ added s /\ j ∉ q ++ (running s).*2 ++ done_jobs s ++ delivered s ++ own ++ all_held cs.
Proof.
  intros W Hu. pose proof (wi_nodup _ _ _ W) as Hnd. rewrite (wi_jobs _ _ _ W), Hu in Hnd |- *.
  split; [set_solver|]. simpl in Hnd. apply NoDup_cons in Hnd as [Hni _]. set_solver.
Qed.

(** The running coroutine takes a job from the queue, under a fresh id. *)
Lemma dispatch_inv cs own j q s w s' :
  winv cs own s -> m_queue (m_undoneJobs (srv s)) = j :: q ->
  dispatch j (mkSQ q (capacity (m_undoneJobs (srv s))) (finished (m_undoneJobs (srv s)))) s = (w, s') ->
  winv cs (own ++ [j]) s' /\ wid (heap s') j = w.
Proof.
  intros W Hu Hdis. destruct (winv_undone_excl _ _ _ _ _ W Hu) as [Ha Hx].
  assert (is_Some (heap s !! j)) as [e He] by (apply (wi_heap _ _ _ W); set_solver).
  unfold dispatch in Hdis. simpl in Hdis.
  remember (u32 (s32 (m_counter (srv s) + 1))) as w' eqn:Ew. simplify_eq Hdis.
  intros <- <-. clear Hdis. simpl. split; cycle 1.
  { unfold wid. rewrite lookup_alter_eq, He. done. }
  apply (winv_objects _ _ (alter (setWorkloadID w') j (heap s)) (results s)) in W; cycle 1.
  { intros j' Hj'. rewrite lookup_alter_ne; [done|set_solver]. }
  { intros j' Hj'. apply wid_alter_ne. set_solver. }
  { intros j' ? ?. destruct (decide (j = j')) as [->|];
      [rewrite lookup_alter_eq, He; by eexists|rewrite lookup_alter_ne by done; by apply (wi_heap _ _ _ W)]. }
  destruct W as [Hj ? ? Hk ? ? ? ? ? Hids]. unfold undone, running, done_jobs in *; simpl in *.
  split; try done; unfold undone, running, done_jobs in *; simpl in *.
  - rewrite Hj, Hu. simpl. solve_Permutation.
  - lia.
  - intros Hd. destruct Hids as (Hcnt & ? & Hnd & Hall); [lia|].
    destruct (counter_next (dispatched s)) as [E1 E2]; [lia|]. rewrite Hcnt, E1 in Ew. subst w'.
    split_and!; [by rewrite Hcnt, E2|done|..].
    + assert (forall l : list nat, (m_map (m_runningJobs (srv s))).*2 ++ (own ++ [j]) ++ l ≡ₚ
        j :: (m_map (m_runningJobs (srv s))).*2 ++ own ++ l) as -> by (intros; solve_Permutation).
      rewrite fmap_cons. apply NoDup_cons. split; [|done].
      intros Hin. rewrite Forall_forall in Hall. apply Hall in Hin.
      unfold wid in Hin. rewrite lookup_alter_eq, He in Hin. simpl in Hin. lia.
    + assert (forall l : list nat, (m_map (m_runningJobs (srv s))).*2 ++ (own ++ [j]) ++ l ≡ₚ
        j :: (m_map (m_runningJobs (srv s))).*2 ++ own ++ l) as -> by (intros; solve_Permutation).
      rewrite fmap_cons. constructor; [|eapply Forall_impl; [done|intros; simpl in *; lia]].
      unfold wid. rewrite lookup_alter_eq, He. simpl. lia.
Qed.

(** The request loop takes the first jobs of the queue; what else it leaves
    alone. *)
Lemma take_jobs_inv cs n own s :
  winv cs own s ->
  exists ids exp s', take_jobs n s = Some (ids, exp, s') /\ winv cs (own ++ exp) s' /\
    undone s = exp ++ undone s' /\ exp = take n (undone s) /\
    ids = wid (heap s') <$> exp /\
    conns s' = conns s /\ running s' = running s /\ noMoreExps (srv s') = noMoreExps (srv s) /\
    m_runid (srv s') = m_runid (srv s) /\
    (forall j, j ∉ exp -> heap s' !! j = heap s !! j) /\
    (n = O \/ undone s = [] -> s' = s).
Proof.
  revert own s. induction n as [|n IH]; intros own s W; cbn [take_jobs].
  { exists [], [], s. rewrite app_nil_r. split_and!; done. }
  unfold Dequeue_nb. destruct (m_queue (m_undoneJobs (srv s))) as [|j q] eqn:Hq.
  { exists [], [], s. unfold undone. rewrite app_nil_r, Hq. split_and!; done. }
  destruct (winv_undone_excl _ _ _ _ _ W Hq) as [Ha Hx].
  assert (is_Some (heap s !! j)) as [e He] by (apply (wi_heap _ _ _ W); set_solver).
  rewrite He. obind.
  destruct (dispatch j _ s) as [w s1] eqn:Hd.
  destruct (dispatch_inv _ _ _ _ _ _ _ W Hq Hd) as [W1 Hw].
  destruct (IH _ _ W1) as (ids & exp & s' & E & W' & Hu & He' & Hi & Hc & Hr & Hn & Hrun & Hh & Hs).
  rewrite E. obind. exists (w :: ids), (j :: exp), s'.
  unfold dispatch in Hd. simpl in Hd. simplify_eq Hd. intros <- <-.
  unfold undone, running in *. simpl in *. rewrite Hq.
  assert (j ∉ exp).
  { rewrite He'. intros Hin. apply (subseteq_take n q) in Hin. set_solver. }
  split_and!; try done.
  - by rewrite <- app_assoc in W'.
  - simpl. by f_equal.
  - simpl. by f_equal.
  - simpl. rewrite Hi. f_equal. rewrite <- Hw. unfold wid. by rewrite Hh.
  - intros j' Hj'. rewrite Hh by set_solver. apply lookup_alter_ne. set_solver.
  - intros [?|?]; done.
Qed.

(** After a failed send the remaining jobs are queued again. *)
Lemma requeue_inv cs exp own s s' :
  winv cs (exp ++ own) s -> requeue exp s = Some s' ->
  winv cs own s' /\ conns s' = conns s /\ undone s' = undone s ++ exp.
Proof.
  revert s. induction exp as [|j exp IH]; intros s W E; cbn [requeue] in E.
  { simplify_eq. by rewrite app_nil_r. }
  destruct (Enqueue j (m_undoneJobs (srv s))) as [q|] eqn:Hq; [|done]. cbn in E.
  apply Enqueue_Some in Hq.
  apply IH in E as (W' & Hc & Hu); [|clear IH E].
  { split_and!; [done|done|]. rewrite Hu. unfold undone. simpl. rewrite Hq. by rewrite <- app_assoc. }
  destruct W as [Hj ? ? ? ? ? ? ? ? Hids].
  split; try done; unfold undone, running, done_jobs in *; simpl in *.
  - rewrite Hj, Hq. simpl. solve_Permutation.
  - intros Hd. destruct (Hids Hd) as (? & ? & Hnd & Hall). split_and!; [done|done|..].
    + rewrite <- Permutation_middle in Hnd. by apply NoDup_cons in Hnd as [_ ?].
    + rewrite <- Permutation_middle in Hall. by apply Forall_cons in Hall as [_ ?].
Qed.

(** A result message takes the running jobs it names from the map. *)
Lemma remove_running_inv cs ids own s msgs js :
  winv cs own s -> remove_running ids (srv s) = (msgs, js) ->
  winv cs (own ++ omap fst msgs) (upd_srv js s) /\ msgs.*2 = ids /\
  (forall j w, (Some j, w) ∈ msgs -> wid (heap s) j = w) /\
  m_undoneJobs js = m_undoneJobs (srv s) /\ m_doneJobs js = m_doneJobs (srv s) /\
  noMoreExps js = noMoreExps (srv s).
Proof.
  revert own s msgs js. induction ids as [|id ids IH]; intros own s msgs js W E; cbn [remove_running] in E.
  { simplify_eq. simpl. rewrite app_nil_r. split_and!; try done; [by destruct s|set_solver]. }
  unfold map_remove in E. destruct (map_find id (m_map (m_runningJobs (srv s)))) as [j|] eqn:Hf;
    destruct (remove_running ids _) as [msgs' js'] eqn:E'; simplify_eq.
  - pose proof (map_erase_Permutation _ _ _ Hf) as Hp.
    assert (wid (heap s) j = id) as Hw.
    { apply (wi_keys _ _ _ W). by apply map_find_elem. }
    set (s1 := upd_srv (upd_running (mkSM (map_erase id (m_map (m_runningJobs (srv s))))
                 (nextpick (m_runningJobs (srv s)))) (srv s)) s).
    assert (winv cs (own ++ [j]) s1) as W1.
    { destruct W as [Hj ? ? Hk ? ? ? ? ? Hids].
      split; try done; unfold undone, running, done_jobs in *; simpl in *.
      - rewrite Hj. rewrite <- Hp at 1. simpl. solve_Permutation.
      - intros w j' Hin. apply Hk. rewrite <- Hp. set_solver.
      - intros Hd. destruct (Hids Hd) as (? & ? & Hnd & Hall).
        rewrite <- Hp in Hnd, Hall. simpl in Hnd, Hall. split_and!; [done|done|..].
        + rewrite <- app_assoc. simpl. rewrite (app_assoc _ own), <- Permutation_middle.
          by rewrite <- app_assoc.
        + rewrite <- app_assoc. simpl. rewrite (app_assoc _ own), <- Permutation_middle.
          by rewrite <- app_assoc. }
    destruct (IH _ _ _ _ W1 E') as (W' & Hi & Hm & ? & ? & ?). simpl.
    rewrite <- app_assoc in W'. split_and!; try done; [by f_equal|].
    intros j' w'. rewrite elem_of_cons. intros [[= -> ->]|Hin]; [done|by apply (Hm j' w')].
  - destruct (m_runningJobs (srv s)) as [mm np] eqn:Em.
    assert (upd_running (mkSM mm np) (srv s) = srv s) as Es by (rewrite <- Em; by destruct (srv s)).
    rewrite Es in E'.
    destruct (IH _ _ _ _ W E') as (W' & Hi & Hm & ? & ? & ?). simpl.
    split_and!; try done; [by f_equal|].
    intros j' w'. rewrite elem_of_cons. intros [[=]|Hin]. by apply (Hm j' w').
Qed.

(** At the end received jobs go to the campaign, the others run on. *)
Lemma store_results_inv cs recvd own s :
  winv cs ((fst ∘ fst <$> recvd) ++ own) s ->
  (forall j w b, (j, w, b) ∈ recvd ->
     wid (heap s) j = w /\ (b = true -> content (heap s) (results s) j)) ->
  exists s', store_results recvd s = Some s' /\ winv cs own s' /\ conns s' = conns s /\
    undone s' = undone s /\ noMoreExps (srv s') = noMoreExps (srv s) /\
    added s' = added s /\ delivered s' = delivered s.
Proof.
  revert s. induction recvd as [|[[j w] b] recvd IH]; intros s W Hok; cbn [store_results].
  { by exists s. }
  destruct (Hok j w b) as [Hw Hcon]; [set_solver|]. destruct b.
  - rewrite Enqueue_unbounded by (apply (wi_unbounded _ _ _ W)). obind.
    edestruct IH as (s' & E & W' & Hs'); [..|exists s'; split; [exact E|split; [exact W'|exact Hs']]].
    + simpl in W. destruct W as [Hj ? ? ? ? Hc ? ? ? Hids].
      split; try done; unfold undone, running, done_jobs in *; simpl in *.
      * rewrite Hj. solve_Permutation.
      * intros j'. rewrite elem_of_app, elem_of_cons. intros [?|[->|?]]; [by apply Hc|by apply Hcon|set_solver].
      * intros Hd. destruct (Hids Hd) as (? & ? & Hnd & Hall). split_and!; [done|done|..].
        -- rewrite <- Permutation_middle in Hnd. by apply NoDup_cons in Hnd as [_ ?].
        -- rewrite <- Permutation_middle in Hall. by apply Forall_cons in Hall as [_ ?].
    + intros j' w' b' Hin. apply (Hok j' w' b'). set_solver.
  - obind. assert (wid (heap (run_insert w j s)) = wid (heap s) /\ heap (run_insert w j s) = heap s
      /\ results (run_insert w j s) = results s /\ conns (run_insert w j s) = conns s
      /\ undone (run_insert w j s) = undone s
      /\ noMoreExps (srv (run_insert w j s)) = noMoreExps (srv s)
      /\ added (run_insert w j s) = added s /\ delivered (run_insert w j s) = delivered s)
      as (Ew & Eh & Er & Ec & Eu & En & Ea & Ed).
    { unfold run_insert. destruct (map_insert _ _ _); done. }
    edestruct (IH (run_insert w j s)) as (s' & E & W' & Hs').
    + rewrite <- Hw. by apply run_insert_inv.
    + intros j' w' b' Hin. rewrite Eh, Er. apply (Hok j' w' b'). set_solver.
    + exists s'. split; [exact E|]. split; [exact W'|]. by rewrite <- Ec, <- Eu, <- En, <- Ea, <- Ed.
Qed.

Lemma check_complete_inv cs own s :
  winv cs own s -> winv cs own (upd_srv (check_complete (srv s)) s).
Proof.
  intros [? ? ? ? ? ? ? ? ? ?]. unfold check_complete. destruct (all_complete (srv s)) eqn:E; split; try done.
  simpl. unfold all_complete, noMoreExperiments in E. intros _. bool_hyps. done.
Qed.

(** ** A coroutine's segments preserve the invariant *)

(** Changes to the statistics are irrelevant. *)
Lemma winv_srv cs own s js :
  winv cs own s ->
  m_undoneJobs js = m_undoneJobs (srv s) -> m_map (m_runningJobs js) = running s ->
  m_doneJobs js = m_doneJobs (srv s) -> noMoreExps js = noMoreExps (srv s) ->
  m_counter js = m_counter (srv s) -> winv cs own (upd_srv js s).
Proof.
  intros [? ? ? ? ? ? ? ? ? ?] E1 E2 E3 E4 E5.
  split; unfold undone, running, done_jobs in *; simpl in *; rewrite ?E1, ?E2, ?E3, ?E4, ?E5; done.
Qed.

Lemma send_loop_inv c exp s :
  winv (delete c (conns s)) exp s -> exists s', send_loop c exp s = Next s' /\ inv s'.
Proof.
  intros W. destruct exp as [|j exp]; simpl.
  - eexists. split; [done|]. by apply winv_finish.
  - destruct (winv_own_heap _ j _ _ W) as [e He]; [set_solver|]. rewrite He.
    eexists. split; [done|]. by apply winv_wait.
Qed.

Lemma receive_loop_inv c msgs recvd s :
  winv (delete c (conns s)) (held (RcvResult msgs recvd : CommThread M)) s ->
  ok_thread (heap s) (results s) (added s) (RcvResult msgs recvd) ->
  exists s', receive_loop c msgs recvd s = Next s' /\ inv s'.
Proof.
  intros W Hok. destruct msgs as [|[[j|] w] msgs]; simpl.
  - destruct Hok as [_ Hok]. simpl in W.
    destruct (store_results_inv (delete c (conns s)) recvd [] s) as (s1 & E & W1 & Hc & _).
    { by rewrite app_nil_r. } { done. }
    rewrite E. eexists. split; [done|]. apply winv_finish. simpl. rewrite Hc. by apply check_complete_inv.
  - eexists. split; [done|]. by apply winv_wait.
  - eexists. split; [done|]. apply winv_wait; [|done]. by apply winv_srv.
Qed.

Lemma sendPending_inv c sz s :
  winv (delete c (conns s)) [] s ->
  exists s', sendPendingExperimentData c sz s = Next s' /\ inv s'.
Proof.
  intros W. unfold sendPendingExperimentData.
  destruct (take_jobs_inv _ (Z.to_nat sz) _ _ W)
    as (ids & exp & s1 & E & W1 & _ & _ & _ & Hc & _). rewrite E. rewrite <- Hc in W1.
  destruct exp as [|j exp]; cycle 1.
  { eexists. split; [done|]. by apply winv_wait. }
  destruct (pickone (m_runningJobs (srv s1))) as [o r] eqn:Hp.
  apply pickone_spec in Hp as [Hm Hp].
  assert (winv (delete c (conns s1)) [] (upd_srv (upd_running r (srv s1)) s1)) as W2
    by (by apply winv_srv).
  destruct o as [j|]; cycle 1.
  { eexists. split; [done|]. by apply winv_wait. }
  assert (j ∈ added s1 /\ j ∉ delivered s1) as [Ha Hd].
  { apply list_elem_of_fmap in Hp as ([w j'] & -> & Hin). simpl.
    destruct (list_elem_of_split _ _ Hin) as (l1 & l2 & Hl).
    pose proof (wi_nodup _ _ _ W1) as Hnd. rewrite (wi_jobs _ _ _ W1) in Hnd |- *.
    unfold running in *. rewrite Hl in Hnd |- *. rewrite fmap_app in Hnd |- *. simpl in *.
    rewrite !elem_of_app. split; [set_solver|].
    apply NoDup_app in Hnd as (_ & _ & Hnd). apply NoDup_app in Hnd as (_ & Hdis & _).
    intros Hin'. apply (Hdis j'); set_solver. }
  destruct (wi_heap _ _ _ W1 j Ha Hd) as [e He]. simpl. rewrite He.
  eexists. split; [done|]. by apply winv_wait.
Qed.

Lemma on_control_inv c m s :
  inv s -> conns s !! c = Some RcvControl -> exists s', on_control c m s = Next s' /\ inv s'.
Proof.
  intros I Hc. destruct (winv_open _ _ _ I Hc) as [W _]. simpl in W.
  assert (inv (finish c s)) as Hfin by (by apply winv_finish).
  assert (inv (wait c SndDie s)) as Hdie by (by apply winv_wait).
  destruct m as [m|]; [|by eexists]. unfold on_control.
  destruct (command m); [| |by eexists..]; (destruct (run_id m) as [r|]; [|by eexists]); case_match; try by eexists.
  - by apply sendPending_inv.
  - unfold receiveExperimentResults. destruct (remove_running _ _) as [msgs js] eqn:E.
    destruct (remove_running_inv _ _ _ _ _ _ W E) as (W' & _ & Hm & _).
    apply receive_loop_inv; simpl; [by rewrite app_nil_r|]. split; [done|set_solver].
Qed.

(** The only access to a job that no longer exists is the resend of a job the
    campaign has already got back and deleted. *)
Definition resend_hazard (l : Label (M := M)) s : Prop :=
  exists c ctrlmsg j, l = Sent c true /\ conns s !! c = Some (SndAnswer ctrlmsg (Some j)) /\
    j ∈ delivered s /\ heap s !! j = None.

Lemma run_insert_conns w j s : conns (run_insert w j s) = conns s.
Proof. unfold run_insert. by destruct (map_insert _ _ _). Qed.

Lemma on_sent_spec c t ok s :
  inv s -> conns s !! c = Some t ->
  match on_sent c t ok s with
  | Next s' => inv s' | Disabled => True | Crash => resend_hazard (Sent c ok) s
  end.
Proof.
  intros I Hc. destruct (winv_open _ _ _ I Hc) as [W Hok].
  assert (held t = [] -> inv (finish c s)) as Hfin by (intros E; apply winv_finish; by rewrite E in W).
  destruct t as [| |ctrl exp|buf [|j exp]|ctrl o|buf|msgs recvd]; simpl in *; try by auto.
  - destruct ok.
    + destruct (send_loop_inv _ _ _ W) as (s' & -> & ?). done.
    + apply winv_finish. destruct W as [Hj ? ? ? ? ? ? ? ? Hids]. split; try done; simpl.
      * unfold undone, running, done_jobs in *; simpl. rewrite Hj. solve_Permutation.
      * intros Hd. destruct (Hids Hd) as (? & ? & Hnd & Hall). split_and!; [done|done|..].
        -- unfold running in *. simpl. rewrite (app_assoc _ exp), (Permutation_app_comm _ exp), <- app_assoc, fmap_app in Hnd.
           by apply NoDup_app in Hnd as (_ & _ & ?).
        -- unfold running in *. simpl. rewrite (app_assoc _ exp), (Permutation_app_comm _ exp), <- app_assoc, fmap_app in Hall.
           by apply Forall_app in Hall as [_ ?].
  - destruct ok.
    + destruct (winv_own_heap _ j _ _ W) as [e He]; [set_solver|]. rewrite He.
      assert (getWorkloadID e = wid (heap s) j) as -> by (unfold wid; by rewrite He).
      apply run_insert_inv in W. rewrite <- (run_insert_conns (wid (heap s) j) j s) in W.
      by destruct (send_loop_inv _ _ _ W) as (s' & -> & ?).
    + destruct (requeue (j :: exp) s) as [s'|] eqn:E; simpl in E; rewrite E; [|done].
      destruct (requeue_inv _ (j :: exp) [] _ s' ltac:(rewrite app_nil_r; exact W) E) as (W' & Hc' & _).
      apply winv_finish. by rewrite Hc'.
  - destruct o as [j|]; [|by auto]. destruct ok; [|by auto].
    destruct (heap s !! j) as [e|] eqn:He.
    + by apply winv_wait.
    + exists c, ctrl, j. split_and!; try done.
      destruct (decide (j ∈ delivered s)) as [|Hnd]; [done|].
      by destruct (wi_heap _ _ _ I j Hok Hnd); simplify_eq.
Qed.

(** The message received for an owned job is stored in its object. *)
Lemma receive_objects cs j own s e m (ok : bool) :
  winv cs (j :: own) s -> heap s !! j = Some e ->
  (m = None -> ok = false) ->
  let h' := match m with Some m => <[j := store_message m e]> (heap s) | None => heap s end in
  let res' := match m, ok with Some m, true => <[j := m]> (results s) | _, _ => results s end in
  winv cs (j :: own) (upd_objects h' res' (added s) s) /\
  (forall j', wid h' j' = wid (heap s) j') /\
  (forall j', j' ≠ j -> h' !! j' = heap s !! j' /\ res' !! j' = results s !! j') /\
  (ok = true -> content h' res' j).
Proof.
  intros W He Hm h' res'.
  assert (forall j', wid h' j' = wid (heap s) j') as Hw.
  { intros j'. unfold h', wid. destruct m as [m|]; [|done].
    destruct (decide (j = j')) as [<-|]; [by rewrite lookup_insert_eq, He|by rewrite lookup_insert_ne]. }
  assert (forall j', j' ≠ j -> h' !! j' = heap s !! j' /\ res' !! j' = results s !! j') as Hne.
  { intros j' Hj. unfold h', res'. destruct m as [m|], ok; by rewrite ?lookup_insert_ne. }
  split_and!; [|done|done|].
  - destruct (winv_own_excl _ _ _ _ W) as [_ Hx]. apply winv_objects; [done|..].
    + intros j' Hj'. apply Hne. set_solver.
    + done.
    + intros j' Ha Hd. unfold h'. destruct m as [m|]; [|by apply (wi_heap _ _ _ W)].
      apply lookup_insert_is_Some'. right. by apply (wi_heap _ _ _ W).
  - intros ->. destruct m as [m|]; [|by discriminate Hm]. exists m. unfold h', res'.
    by rewrite !lookup_insert_eq.
Qed.

Lemma on_received_inv c t m ok s :
  inv s -> conns s !! c = Some t ->
  match on_received c t m ok s with Next s' => inv s' | Disabled => True | Crash => False end.
Proof.
  intros I Hc. destruct (winv_open _ _ _ I Hc) as [W Hok].
  destruct t as [| | | | | |[|[[j|] w] msgs] recvd]; simpl; try done; cycle 1.
  { destruct Hok as [Hm Hr]. destruct (receive_loop_inv c msgs recvd s) as (s' & -> & ?); [done| |done].
    split; [|done]. intros j w' Hin. apply Hm. set_solver. }
  simpl in W. destruct (winv_own_heap _ j _ _ W) as [e He]; [set_solver|]. rewrite He.
  destruct (decide (m = None /\ ok = true)) as [[-> ->]|Hn]; [done|].
  destruct (receive_objects _ _ _ _ _ m ok W He) as (W' & Hw & Hne & Hcon).
  { intros ->. destruct ok; [|done]. by destruct Hn. }
  destruct (winv_own_excl _ _ _ _ W) as [_ Hx].
  match goal with |- match (match m with _ => _ end) with _ => _ end =>
    assert (forall A B : Outcome M, (match m, ok with None, true => A | _, _ => B end) = B) as Hsel
      by (intros; destruct m, ok; try done; by destruct Hn)
  end.
  rewrite Hsel. clear Hsel.
  match goal with |- context [receive_loop c msgs ?r ?s1] =>
    destruct (receive_loop_inv c msgs r s1) as (s' & -> & ?); [..|done]; simpl
  end.
  - apply (winv_srv _ _ _ (incDoneCount (srv s))) in W'; [|done..].
    eapply winv_own_perm; [|exact W']. rewrite fmap_app. simpl. solve_Permutation.
  - destruct Hok as [Hm Hr]. split.
    + intros j' w' Hin. rewrite Hw. apply Hm. set_solver.
    + intros j' w' b'. rewrite elem_of_app, list_elem_of_singleton. intros [Hin|[= -> -> ->]].
      * destruct (Hr j' w' b' Hin) as [Hw' Hc']. split; [by rewrite Hw|].
        unfold content. destruct (Hne j') as [-> ->]; [|done].
        intros ->. apply Hx. rewrite !elem_of_app. do 4 right. left. right.
        apply list_elem_of_fmap. by exists (j, w', b').
      * split; [rewrite Hw; apply Hm; set_solver|done].
Qed.

(** ** The campaign's operations *)

Lemma add_inv j m js s :
  inv s -> j ∉ added s -> addParam j (srv s) = Some js ->
  inv (mkSys js (<[j := mkED m 0]> (heap s)) (conns s) (added s ++ [j]) (delivered s)
         (dropped s) (clashed s) (dispatched s) (results s)).
Proof.
  intros I Hj E. unfold addParam in E. simpl in E.
  destruct (Enqueue j (m_undoneJobs (srv s))) as [q|] eqn:Hq; [|done]. cbn in E. simplify_eq E.
  intros <-. apply Enqueue_Some in Hq.
  assert (forall j', j' ∈ (running s).*2 ++ done_jobs s ++ all_held (conns s) -> j ≠ j') as Hfresh.
  { intros j' Hin <-. apply Hj. rewrite (wi_jobs _ _ _ I). set_solver. }
  apply (winv_objects _ _ (<[j := mkED m 0]> (heap s)) (results s)) in I; cycle 1.
  { intros j' Hin. rewrite lookup_insert_ne; [done|by apply Hfresh]. }
  { set_solver. }
  { intros j' ? ?. apply lookup_insert_is_Some'. right. by apply (wi_heap _ _ _ I). }
  destruct I as [Hp Hnd Hh Hk Ht ? ? ? ? ?].
  unfold inv. split; try done; unfold undone, running, done_jobs in *; simpl in *.
  - rewrite Hp, Hq. solve_Permutation.
  - apply NoDup_app. split_and!; [done|set_solver|apply NoDup_singleton].
  - intros j' [Hin|Hin]%elem_of_app Hd; [by apply Hh|].
    apply list_elem_of_singleton in Hin as ->. rewrite lookup_insert_eq. by eexists.
  - intros c t Hct. eapply ok_thread_frame; [done| |exact (Ht c t Hct)]. set_solver.
Qed.

Lemma getDone_spec js s o :
  inv s -> getDone (srv s) = Some (o, js) ->
  match o with
  | Some j =>
      inv (mkSys js (heap s) (conns s) (added s) (delivered s ++ [j]) (dropped s) (clashed s)
             (dispatched s) (results s)) /\
      j ∈ added s /\ (j ∉ delivered s) /\ content (heap s) (results s) j
  | None => js = srv s /\ done_jobs s = [] /\ finished (m_doneJobs (srv s)) = true
  end.
Proof.
  intros I. unfold getDone, Dequeue. unfold done_jobs.
  destruct (m_queue (m_doneJobs (srv s))) as [|j q] eqn:Hq.
  - destruct (finished (m_doneJobs (srv s))) eqn:Hf; obind; [|done]. intros [= <- <-].
    by destruct (srv s).
  - obind. intros [= <- <-].
    pose proof (wi_nodup _ _ _ I) as Hnd. rewrite (wi_jobs _ _ _ I) in Hnd.
    unfold done_jobs in *. rewrite Hq in Hnd.
    destruct I as [Hp ? ? ? ? Hc ? ? ? ?]. unfold inv.
    split_and!; [|rewrite Hp; unfold done_jobs; rewrite Hq; set_solver|..].
    + split; try done; unfold undone, running, done_jobs in *; simpl in *.
      * rewrite Hp, Hq. simpl. solve_Permutation.
      * intros j' Hin Hd. set_solver.
      * intros j' Hin. apply Hc. rewrite Hq. set_solver.
    + apply NoDup_app in Hnd as (_ & _ & Hnd). apply NoDup_app in Hnd as (_ & _ & Hnd).
      simpl in Hnd. apply NoDup_cons in Hnd as [Hnd _]. set_solver.
    + apply Hc. unfold done_jobs. rewrite Hq. set_solver.
Qed.

Lemma delete_inv j s : inv s -> j ∈ delivered s -> inv (upd_heap (delete j (heap s)) s).
Proof.
  intros I Hj. pose proof (wi_nodup _ _ _ I) as Hnd.
  assert (forall j', j' ∈ (running s).*2 ++ done_jobs s ++ all_held (conns s) -> j ≠ j') as Hother.
  { intros j' Hin <-. rewrite (wi_jobs _ _ _ I) in Hnd. rewrite !elem_of_app in Hin.
    apply NoDup_app in Hnd as (_ & _ & Hnd). apply NoDup_app in Hnd as (_ & Hr & Hnd).
    apply NoDup_app in Hnd as (_ & Hd & Hnd). apply NoDup_app in Hnd as (_ & Hh & _).
    destruct Hin as [Hin|[Hin|Hin]].
    - apply (Hr j Hin). set_solver.
    - apply (Hd j Hin). set_solver.
    - apply (Hh j Hj). set_solver. }
  apply (winv_objects _ _ (delete j (heap s)) (results s)) in I; [exact I|..].
  - intros j' Hin. rewrite lookup_delete_ne; [done|by apply Hother].
  - set_solver.
  - intros j' ? ?. rewrite lookup_delete_ne by set_solver. by apply (wi_heap _ _ _ I).
Qed.

Lemma noMore_inv s : inv s -> inv (upd_srv (setNoMoreExperiments (srv s)) s).
Proof.
  intros I. unfold setNoMoreExperiments. simpl. destruct I. case_match; by split.
Qed.

(** Every step keeps the invariant; what it can touch in vain is known. *)
Lemma step_spec l s :
  inv s ->
  match step l s with Next s' => inv s' | Disabled => True | Crash => resend_hazard l s end.
Proof.
  intros I. destruct l as [j m| |j| |n|n|n|c|c m|c ok|c m ok]; simpl; try (by apply winv_srv).
  - case_bool_decide; [done|]. destruct (addParam j (srv s)) as [js|] eqn:E; [|done]. by apply add_inv.
  - destruct (getDone (srv s)) as [[[j|] js]|] eqn:E; [..|done]; apply (getDone_spec _ _ _ I) in E.
    + apply E.
    + destruct E as [-> _]. by apply winv_srv.
  - case_bool_decide; [|done]. by apply delete_inv.
  - by apply noMore_inv.
  - destruct (conns s !! c) eqn:Hc; [done|]. apply winv_wait; [|done]. by rewrite delete_id.
  - destruct (conns s !! c) as [[]|] eqn:Hc; try done. by destruct (on_control_inv c m s I Hc) as (s' & -> & ?).
  - destruct (conns s !! c) as [t|] eqn:Hc; [|done]. by apply on_sent_spec.
  - destruct (conns s !! c) as [t|] eqn:Hc; [|done].
    pose proof (on_received_inv c t m ok s I Hc) as Hrec. by destruct (on_received c t m ok s).
Qed.

Lemma inv_init cap runid : inv (new_System cap runid).
Proof.
  unfold inv. split; try done; simpl; try set_solver.
  - apply NoDup_nil_2.
  - intros _. split_and!; [done|done|apply NoDup_nil_2|by apply Forall_nil].
Qed.

Lemma reachable_inv cap runid s : reachable cap runid s -> inv s.
Proof.
  induction 1 as [|s l s' _ IH Hs]; [apply inv_init|].
  pose proof (step_spec l s IH) as Hspec. by rewrite Hs in Hspec.
Qed.

(** ** What no step undoes *)

Definition settled s : list Job := done_jobs s ++ delivered s.

(** From [s] to [s'] no job is added, settled jobs stay settled and dropped
    ones dropped, and the end of the results is announced only when neither
    queued nor running jobs are left. *)
Record quiet s s' : Prop := mkQuiet {
  qu_added : added s' = added s;
  qu_settled : settled s ⊆ settled s';
  qu_dropped : dropped s ⊆ dropped s';
  qu_finished : finished (m_doneJobs (srv s')) = finished (m_doneJobs (srv s)) \/
                (undone s' = [] /\ running s' = [])
}.

(** Most operations touch none of it. *)
Definition same s s' : Prop :=
  added s' = added s /\ m_doneJobs (srv s') = m_doneJobs (srv s) /\ delivered s' = delivered s /\
  dropped s' = dropped s.

Lemma same_trans s1 s2 s3 : same s1 s2 -> same s2 s3 -> same s1 s3.
Proof. unfold same. intuition congruence. Qed.

Lemma same_quiet s s' : same s s' -> quiet s s'.
Proof.
  intros (E1 & E2 & E3 & E4). split; [done| |by rewrite E4|left; by rewrite E2].
  unfold settled, done_jobs. by rewrite E2, E3.
Qed.

Lemma same_quiet_trans s1 s2 s3 : same s1 s2 -> quiet s2 s3 -> quiet s1 s3.
Proof.
  intros (E1 & E2 & E3 & E4) [? ? ? ?]. unfold settled, done_jobs in *.
  split; unfold settled, done_jobs; [congruence|by rewrite <- E2, <- E3|by rewrite <- E4|by rewrite <- E2].
Qed.

Lemma take_jobs_quiet n s ids exp s' :
  take_jobs n s = Some (ids, exp, s') ->
  same s s'.
Proof.
  revert s ids exp. induction n as [|n IH]; intros s ids exp E; cbn [take_jobs] in E; [by simplify_eq|].
  destruct (Dequeue_nb (m_undoneJobs (srv s))) as [[j|] q] eqn:Hq; [|by simplify_eq].
  destruct (heap s !! j); [|done]. cbn [mbind option_bind] in E.
  destruct (dispatch j q s) as [w s1] eqn:Hd. unfold dispatch in Hd. simpl in Hd. simplify_eq Hd. intros <- <-.
  destruct (take_jobs n _) as [[[ids' exp'] s2]|] eqn:E'; [|done]. cbn [mbind option_bind] in E. simplify_eq.
  by apply IH in E'.
Qed.

Lemma requeue_quiet exp s s' :
  requeue exp s = Some s' ->
  same s s'.
Proof.
  revert s. induction exp as [|j exp IH]; intros s E; cbn [requeue] in E; [by simplify_eq|].
  destruct (Enqueue j (m_undoneJobs (srv s))); [|done]. cbn [mbind option_bind] in E. by apply IH in E.
Qed.

Lemma remove_running_quiet ids js msgs js' :
  remove_running ids js = (msgs, js') -> m_doneJobs js' = m_doneJobs js.
Proof.
  revert js msgs. induction ids as [|id ids IH]; intros js msgs E; cbn [remove_running] in E; [by simplify_eq|].
  destruct (map_remove id (m_runningJobs js)) as [exp r].
  destruct (remove_running ids _) as [msgs1 js1] eqn:E1. simplify_eq. by apply IH in E1.
Qed.

Lemma run_insert_quiet w j s :
  same s (run_insert w j s).
Proof. unfold run_insert. by destruct (map_insert _ _ _). Qed.

Lemma store_results_quiet recvd s s' :
  store_results recvd s = Some s' ->
  added s' = added s /\ done_jobs s ⊆ done_jobs s' /\ delivered s' = delivered s /\
  dropped s' = dropped s /\ finished (m_doneJobs (srv s')) = finished (m_doneJobs (srv s)).
Proof.
  revert s. induction recvd as [|[[j w] b] recvd IH]; intros s E; cbn [store_results] in E; [by simplify_eq|].
  destruct b.
  - destruct (Enqueue j (m_doneJobs (srv s))) as [q|] eqn:Hq; [|done].
    cbn [mbind option_bind] in E. apply IH in E as (? & Hd & ? & ? & Hf). split_and!; try done.
    + etrans; [|exact Hd]. unfold done_jobs. simpl. rewrite (Enqueue_Some _ _ _ Hq). set_solver.
    + rewrite Hf. unfold Enqueue in Hq. case_match; by simplify_eq.
  - cbn [mbind option_bind] in E. apply IH in E. unfold done_jobs in *.
    destruct (run_insert_quiet w j s) as (<- & <- & <- & <-). done.
Qed.

Lemma send_loop_quiet c exp s s' :
  send_loop c exp s = Next s' ->
  same s s'.
Proof.
  unfold send_loop. destruct exp as [|j exp]; [by intros [= <-]|].
  destruct (heap s !! j); [by intros [= <-]|done].
Qed.

Lemma receive_loop_quiet c msgs recvd s s' :
  receive_loop c msgs recvd s = Next s' -> quiet s s'.
Proof.
  unfold receive_loop. destruct msgs as [|[[j|] w] msgs]; [|by intros [= <-]; apply same_quiet..].
  destruct (store_results recvd s) as [s1|] eqn:E; [|done]. intros [= <-].
  apply store_results_quiet in E as (Ha & Hd & He & Hdr & Hf).
  split; simpl; [done| |by rewrite Hdr|].
  - unfold settled, done_jobs, check_complete in *. simpl. rewrite He. destruct (all_complete (srv s1)); set_solver.
  - unfold check_complete. destruct (all_complete (srv s1)) eqn:Hall; simpl; [|by left].
    right. unfold all_complete, queue_Size, map_Size in Hall. bool_hyps.
    unfold undone, running. simpl. split; by apply length_zero_iff_nil.
Qed.

Lemma sendPending_quiet c sz s s' :
  sendPendingExperimentData c sz s = Next s' -> same s s'.
Proof.
  unfold sendPendingExperimentData. destruct (take_jobs (Z.to_nat sz) s) as [[[ids exp] s1]|] eqn:E; [|done].
  apply take_jobs_quiet in E. destruct exp as [|j exp]; [|intros [= <-]; exact E].
  destruct (pickone (m_runningJobs (srv s1))) as [[j|] r]; [|intros [= <-]; exact E].
  simpl. destruct (heap s1 !! j); [intros [= <-]; exact E|done].
Qed.

Lemma on_control_quiet c m s s' : on_control c m s = Next s' -> quiet s s'.
Proof.
  unfold on_control. destruct m as [m|]; [|intros [= <-]; by apply same_quiet].
  destruct (command m); try (intros [= <-]; by apply same_quiet);
    (destruct (run_id m); [|intros [= <-]; by apply same_quiet]);
    (case_match; [intros [= <-]; by apply same_quiet|]).
  - intros E. apply same_quiet. by apply sendPending_quiet in E.
  - unfold receiveExperimentResults. destruct (remove_running _ _) as [msgs js] eqn:E.
    apply remove_running_quiet in E. intros Hr. apply receive_loop_quiet in Hr.
    by apply (same_quiet_trans _ (upd_srv js s)).
Qed.

Lemma on_sent_quiet c t ok s s' : on_sent c t ok s = Next s' -> quiet s s'.
Proof.
  destruct t as [| |ctrl exp|buf [|j exp]|ctrl o|buf|msgs recvd]; cbn [on_sent]; try done;
    try (intros [= <-]; by apply same_quiet).
  - destruct ok.
    + intros E. apply same_quiet. by apply send_loop_quiet in E.
    + intros [= <-]. split; try done; [simpl; set_solver|by left].
  - destruct ok.
    + destruct (heap s !! j) as [e|]; [|done]. intros E. apply same_quiet.
      apply send_loop_quiet in E. eapply same_trans, E. apply run_insert_quiet.
    + destruct (requeue (j :: exp) s) as [s1|] eqn:E; [|done]. intros [= <-].
      apply same_quiet. by apply requeue_quiet in E.
  - destruct o as [j|]; [|intros [= <-]; by apply same_quiet].
    destruct ok; [|intros [= <-]; by apply same_quiet].
    destruct (heap s !! j); [intros [= <-]; by apply same_quiet|done].
Qed.

Lemma on_received_quiet c t m ok s s' : on_received c t m ok s = Next s' -> quiet s s'.
Proof.
  destruct t as [| | | | | |[|[[j|] w] msgs] recvd]; simpl; try done; [|by apply receive_loop_quiet].
  destruct (heap s !! j) as [e|]; [|done].
  destruct m, ok; try done; intros E; apply receive_loop_quiet in E; (eapply same_quiet_trans; [|exact E]); done.
Qed.

Lemma step_quiet l s s' :
  (forall j m, l ≠ AddParam j m) -> step l s = Next s' -> quiet s s'.
Proof.
  intros Hl. destruct l as [j m| |j| |n|n|n|c|c m|c ok|c m ok]; simpl;
    try (intros [= <-]; by apply same_quiet).
  - by destruct (Hl j m).
  - destruct (getDone (srv s)) as [[o js]|] eqn:E; [|done]. unfold getDone, Dequeue in E.
    destruct (m_queue (m_doneJobs (srv s))) as [|j q] eqn:Hq.
    + destruct (finished (m_doneJobs (srv s))) eqn:Hf; [|done]. cbn in E. simplify_eq E. intros <- <-.
      intros [= <-]. by apply same_quiet.
    + cbn in E. simplify_eq E. intros <- <-. intros [= <-]. split; try done; [|by left].
      unfold settled, done_jobs. simpl. rewrite Hq. set_solver.
  - case_bool_decide; [|done]. intros [= <-]. by apply same_quiet.
  - intros [= <-]. unfold setNoMoreExperiments. simpl. case_match eqn:E; [|by apply same_quiet].
    split; try done. right. unfold queue_Size, map_Size in E. simpl in E. bool_hyps.
    unfold undone, running. simpl. split; by apply length_zero_iff_nil.
  - destruct (conns s !! c); [done|]. intros [= <-]. by apply same_quiet.
  - destruct (conns s !! c) as [[]|]; try done. apply on_control_quiet.
  - destruct (conns s !! c); [|done]. apply on_sent_quiet.
  - destruct (conns s !! c); [|done]. apply on_received_quiet.
Qed.

Lemma label_cases (l : Label (M := M)) :
  (exists j m, l = AddParam j m) \/ (forall j m, l ≠ AddParam j m).
Proof. destruct l; naive_solver. Qed.

Lemma step_finishes l s s' :
  step l s = Next s' ->
  finished (m_doneJobs (srv s)) = false -> finished (m_doneJobs (srv s')) = true ->
  undone s' = [] /\ running s' = [].
Proof.
  intros E Hf Hf'. destruct (label_cases l) as [(j & m & ->)|Hl].
  - simpl in E. case_bool_decide; [done|]. unfold addParam in E. simpl in E.
    destruct (Enqueue j _); [|done]. cbn in E. simplify_eq. simpl in *. congruence.
  - destruct (step_quiet _ _ _ Hl E) as [_ _ _ [E'|E']]; [congruence|done].
Qed.

Lemma step_dropped l s s' : step l s = Next s' -> dropped s ⊆ dropped s'.
Proof.
  intros E. destruct (label_cases l) as [(j & m & ->)|Hl].
  - simpl in E. case_bool_decide; [done|]. destruct (addParam j (srv s)); by simplify_eq.
  - apply (qu_dropped _ _ (step_quiet _ _ _ Hl E)).
Qed.

(** ** Theorems *)

(** C3. No job gets lost or duplicated: in every reachable state of server, campaign and
    any number of clients, each job the campaign added is in exactly one place: queued,
    running, done, handed back, in the local variables of one connection's coroutine,
    or dropped after its announcement could not be sent.  Until 2^31 jobs have been
    dispatched workload ids are unique, so that no insertion into the running jobs
    fails. *)
Theorem jobs_conserved cap runid s :
  reachable cap runid s ->
  added s ≡ₚ undone s ++ (running s).*2 ++ done_jobs s ++ delivered s ++
             all_held (conns s) ++ dropped s ++ clashed s /\
  NoDup (added s) /\
  (dispatched s < 2 ^ 31 -> clashed s = [] /\ NoDup (running s).*1).
Proof.
  intros I%reachable_inv. split; [exact (wi_jobs _ _ _ I)|]. split; [exact (wi_nodup _ _ _ I)|].
  intros Hd. destruct (wi_ids _ _ _ I Hd) as (_ & ? & Hnd & _). split; [done|].
  rewrite (running_keys _ _ _ I). rewrite fmap_app in Hnd. by apply NoDup_app in Hnd as [? _].
Qed.

(** A result is handed to the campaign at most once per job, only for a job the
    campaign added, and the returned object holds the message that was received
    for this job from a client. *)
Theorem getDone_returns_result cap runid s j js :
  reachable cap runid s -> getDone (srv s) = Some (Some j, js) ->
  j ∈ added s /\ (j ∉ delivered s) /\
  exists e, heap s !! j = Some e /\ results s !! j = Some (getMessage e).
Proof.
  intros I%reachable_inv E. destruct (getDone_spec _ _ _ I E) as (_ & Ha & Hd & m & Hr & Hm).
  split; [done|]. split; [done|]. destruct (heap s !! j) as [e|]; [|done]. exists e. simplify_option_eq. done.
Qed.

(** Memory safety up to one race: in every reachable state the only step that
    accesses a deleted job is the resend of a job whose result arrived, was fetched
    and deleted by the campaign after the coroutine picked it. *)
Theorem only_resend_dangles cap runid s l :
  reachable cap runid s -> step l s = Crash ->
  exists c ctrlmsg j, l = Sent c true /\ conns s !! c = Some (SndAnswer ctrlmsg (Some j)) /\
    j ∈ delivered s /\ heap s !! j = None.
Proof.
  intros I%reachable_inv E. pose proof (step_spec l s I) as Hs. by rewrite E in Hs.
Qed.

Lemma run_quiet ls s s' :
  (forall j m, AddParam j m ∉ ls) -> run ls s = Next s' -> added s' = added s /\ settled s ⊆ settled s'.
Proof.
  revert s. induction ls as [|l ls IH]; intros s Hls E; simpl in E; [by simplify_eq|].
  destruct (step l s) as [s1| |] eqn:Hs; try done.
  apply step_quiet in Hs as [Ha Hst _ _]; [|intros j m ->; apply (Hls j m); set_solver].
  apply IH in E as [Ha' Hst']; [|set_solver]. split; [congruence|by etrans].
Qed.

Lemma run_reachable cap runid ls s s' : reachable cap runid s -> run ls s = Next s' -> reachable cap runid s'.
Proof.
  revert s. induction ls as [|l ls IH]; intros s R E; simpl in E; [by simplify_eq|].
  destruct (step l s) as [s1| |] eqn:Hs; try done. eapply IH; [|done]. by eapply reach_step.
Qed.

(** The end of the results is announced correctly when no connection is in the middle
    of a transfer: if at that step no coroutine holds a job and none was dropped
    before, then whatever happens afterwards (short of new jobs) [getDone] returns NULL
    only after every job's result has been handed over. *)
Theorem finish_announcement_sound cap runid s l s' ls s'' js :
  reachable cap runid s -> step l s = Next s' ->
  finished (m_doneJobs (srv s)) = false -> finished (m_doneJobs (srv s')) = true ->
  all_held (conns s') = [] -> dropped s' = [] -> dispatched s' < 2 ^ 31 ->
  (forall j m, AddParam j m ∉ ls) -> run ls s' = Next s'' ->
  getDone (srv s'') = Some (None, js) ->
  delivered s'' ≡ₚ added s''.
Proof.
  intros R Hs Hf Hf' Hh Hdr Hdisp Hls Hrun Hget.
  assert (reachable cap runid s') as R' by (by eapply reach_step).
  destruct (step_finishes _ _ _ Hs Hf Hf') as [Hu Hr].
  pose proof (reachable_inv _ _ _ R') as I'. destruct (wi_ids _ _ _ I' Hdisp) as (_ & Hcl & _).
  pose proof (wi_jobs _ _ _ I') as Hp. rewrite Hu, Hr, Hh, Hdr, Hcl in Hp. simpl in Hp.
  destruct (run_quiet _ _ _ Hls Hrun) as [Ha Hst].
  pose proof (reachable_inv _ _ _ (run_reachable _ _ _ _ _ R' Hrun)) as I''.
  destruct (getDone_spec _ _ _ I'' Hget) as (_ & Hd & _).
  pose proof (wi_jobs _ _ _ I'') as Hp''. pose proof (wi_nodup _ _ _ I'') as Hnd.
  assert (NoDup (delivered s'')) as Hnd'.
  { rewrite Hp'', Hd in Hnd. apply NoDup_app in Hnd as (_ & _ & Hnd).
    apply NoDup_app in Hnd as (_ & _ & Hnd). simpl in Hnd. by apply NoDup_app in Hnd as [? _]. }
  apply NoDup_Permutation; [done|done|]. intros j. split.
  - intros Hj. rewrite Hp''. set_solver.
  - intros Hj. rewrite Ha, Hp in Hj. unfold settled in Hst. rewrite Hd in Hst. simpl in Hst. set_solver.
Qed.

(** Jobs whose announcement could not be sent are lost: they are never queued again, and
    in no continuation does the campaign get a result for them. *)
Theorem failed_announcement_loses_jobs cap runid s c ctrlmsg exp s' ls s'' j :
  reachable cap runid s -> conns s !! c = Some (SndControl ctrlmsg exp) ->
  step (Sent c false) s = Next s' -> run ls s' = Next s'' -> j ∈ exp ->
  j ∈ dropped s'' /\ j ∉ undone s'' ++ done_jobs s'' ++ delivered s''.
Proof.
  intros R Hc Hs Hrun Hj.
  assert (reachable cap runid s') as R' by (by eapply reach_step).
  assert (j ∈ dropped s') as Hd.
  { simpl in Hs. rewrite Hc in Hs. simpl in Hs. simplify_eq. simpl. set_solver. }
  clear R Hs Hc. assert (j ∈ dropped s'') as Hd''.
  { revert s' R' Hrun Hd. induction ls as [|l ls IH]; intros s' R' Hrun Hd; simpl in Hrun; [by simplify_eq|].
    destruct (step l s') as [s1| |] eqn:Hs; try done. eapply IH; [by eapply reach_step|done|].
    by apply (step_dropped _ _ _ Hs). }
  split; [done|]. pose proof (reachable_inv _ _ _ (run_reachable _ _ _ _ _ R' Hrun)) as I.
  pose proof (wi_nodup _ _ _ I) as Hnd. rewrite (wi_jobs _ _ _ I) in Hnd.
  rewrite !elem_of_app. repeat (apply NoDup_app in Hnd as (? & ? & Hnd)).
  set_solver.
Qed.

(** The answer a waiting coroutine is about to send. *)
Definition answer s (c : nat) : option FailControlMessage :=
  match conns s !! c with
  | Some (SndControl m _) | Some (SndAnswer m _) => Some m
  | Some SndDie => Some die_message
  | _ => None
  end.

(** A request for [n] jobs is answered by the first [n] queued jobs (all, if there are
    fewer), announced under their ids in order; with no queued job by one of the running
    jobs under its id; with neither by COME_AGAIN or, once the campaign is over, DIE.  A
    client of another server run is told to die. *)
Theorem need_work_answer cap runid s c m :
  reachable cap runid s -> conns s !! c = Some RcvControl ->
  command m = NEED_WORK -> 0 < get_job_size m < 2 ^ 32 ->
  exists s', step (Control c (Some m)) s = Next s' /\
  if bool_decide (run_id m = Some 0 \/ run_id m = Some (m_runid (srv s))) then
    match undone s with
    | _ :: _ =>
        let exp := take (Z.to_nat (get_job_size m)) (undone s) in
        undone s = exp ++ undone s' /\
        exists a, conns s' !! c = Some (SndControl a exp) /\ command a = WORK_FOLLOWS /\
          workloadid a = wid (heap s') <$> exp /\
          Z.to_nat (get_job_size a) = length (workloadid a)
    | [] =>
        undone s' = [] /\
        match running s with
        | _ :: _ => exists j w a, (w, j) ∈ running s /\
            conns s' !! c = Some (SndAnswer a (Some j)) /\ command a = WORK_FOLLOWS /\
            workloadid a = [w]
        | [] => command <$> answer s' c = Some (if noMoreExps (srv s) then DIE else COME_AGAIN)
        end
    end
  else answer s' c = Some die_message.
Proof.
  intros R Hc Hm Hsz. apply reachable_inv in R as I. destruct (winv_open _ _ _ I Hc) as [W _].
  assert (exists s', on_control c (Some m) s = Next s') as [s' E]
    by (destruct (on_control_inv c (Some m) s I Hc) as (s' & E & _); by exists s').
  exists s'. simpl. rewrite Hc. split; [exact E|].
  unfold on_control in E. rewrite Hm in E. case_bool_decide as Hrun; cycle 1.
  { destruct (run_id m) as [r|].
    - destruct (Z.eqb_spec r 0); [subst; naive_solver|]. destruct (Z.eqb_spec r (m_runid (srv s))); [subst; naive_solver|].
      simpl in E. simplify_eq. unfold answer. simpl. by rewrite lookup_insert_eq.
    - simplify_eq. unfold answer. simpl. by rewrite lookup_insert_eq. }
  assert (sendPendingExperimentData c (get_job_size m) s = Next s') as E'.
  { destruct Hrun as [Hr|Hr]; rewrite Hr in E; rewrite ?Z.eqb_refl in E; simpl in E; [exact E|].
    by rewrite andb_false_r in E. }
  clear E Hrun. unfold sendPendingExperimentData in E'.
  destruct (take_jobs_inv _ (Z.to_nat (get_job_size m)) _ _ W)
    as (ids & exp & s1 & Et & W1 & Hu & He & Hi & Hcn & Hr & Hn & _ & _ & Hsame). rewrite Et in E'.
  destruct (Z.to_nat (get_job_size m)) as [|n] eqn:En; [lia|].
  destruct (undone s) as [|j q] eqn:Hq; cycle 1.
  { destruct exp as [|j' exp]; [done|]. simplify_eq E'. intros <-. rewrite <- He.
    split; [exact Hu|]. eexists. simpl. rewrite lookup_insert_eq. split_and!; try done.
    assert (length (j' :: exp) <= S n)%nat as Hlen by (rewrite He, length_take; lia).
    unfold get_job_size. cbn [job_size workloadid default from_option].
    rewrite Hi, length_fmap, u32_small; [apply Nat2Z.id|].
    cbn [length] in *. lia. }
  rewrite Hsame in * by (by right). simpl in He. subst exp.
  destruct (pickone (m_runningJobs (srv s))) as [o r] eqn:Hp. apply pickone_spec in Hp as [Hmap Hp].
  unfold running, answer in *. destruct o as [j|].
  - simpl in E'. destruct (heap s !! j) as [e|] eqn:He; [|done]. simplify_eq E'. intros <-. split; [done|].
    destruct (m_map (m_runningJobs (srv s))) as [|en l] eqn:Hml; [set_solver|]. rewrite <- Hml in *.
    apply list_elem_of_fmap in Hp as ([w j'] & -> & Hin). simpl in *. exists j', w. eexists.
    split; [done|]. rewrite lookup_insert_eq. split; [done|]. split; [done|]. simpl.
    rewrite <- (wi_keys _ _ _ I w j' Hin). unfold wid. by rewrite He.
  - simplify_eq E'. intros <-. rewrite Hp. split; [done|]. simpl. rewrite lookup_insert_eq.
    simpl. unfold noMoreExperiments. simpl. by destruct (noMoreExps (srv s)).
Qed.
End invariant.

(** ** Concrete runs *)

Module JobServerDemo.

(** A client on connection [c] fetches one job; it announces results for the
    workload ids [ws]. *)
Definition fetch (c : nat) : list (Label (M := nat)) :=
  [Accept c; Control c (Some (mkCtrl NEED_WORK [] 42 (Some 0) (Some 1))); Sent c true; Sent c true].
Definition report (c : nat) (ws : list Z) : list (Label (M := nat)) :=
  [Accept c; Control c (Some (mkCtrl RESULT_FOLLOWS ws 42 (Some 7) None))].

Definition start : System nat := new_System 0 7.

Definition after (ls : list (Label (M := nat))) : System nat :=
  match run ls start with Next s => s | _ => start end.

Lemma after_reachable ls : reachable 0 7 (after ls).
Proof.
  unfold after. destruct (run ls start) eqn:E; [|by constructor..].
  eapply run_reachable; [|exact E]. constructor.
Qed.

(** Two jobs, one running and one queued, one result on its way. *)
Definition two_jobs : list (Label (M := nat)) := [AddParam 1%nat 10%nat; AddParam 2%nat 20%nat].
Definition busy : list (Label (M := nat)) := two_jobs ++ fetch 5 ++ report 6 [1].

Lemma jobs_conserved_witness :
  added (after busy) ≡ₚ [2%nat] ++ [] ++ [] ++ [] ++ [1%nat] ++ [] ++ [].
Proof. exact (proj1 (jobs_conserved 0 7 (after busy) (after_reachable busy))). Defined.

Definition reported : list (Label (M := nat)) := busy ++ [Received 6 (Some 99%nat) true].

Lemma getDone_returns_result_witness :
  exists e, heap (after reported) !! 1%nat = Some e /\ getMessage e = 99%nat.
Proof.
  destruct (getDone_returns_result 0 7 (after reported) 1%nat
    (srv (after (reported ++ [GetDone]))) (after_reachable reported))
    as (_ & _ & e & He & Hr); [vm_compute; reflexivity|].
  exists e. split; [exact He|].
  assert (results (after reported) !! 1%nat = Some 99%nat) as Hx by (vm_compute; reflexivity).
  congruence.
Defined.

(** A resend is picked, then the job's result arrives, is fetched and deleted. *)
Definition racing : list (Label (M := nat)) :=
  [AddParam 1%nat 10%nat] ++ fetch 5 ++
  [Accept 6; Control 6 (Some (mkCtrl NEED_WORK [] 42 (Some 7) (Some 1)))] ++
  report 8 [1] ++ [Received 8 (Some 99%nat) true; GetDone; DeleteJob 1%nat].

Lemma only_resend_dangles_witness : heap (after racing) !! 1%nat = None.
Proof.
  destruct (only_resend_dangles 0 7 (after racing) (Sent 6 true) (after_reachable racing))
    as (c & m & j & Hl & Hc & _ & Hh); [vm_compute; reflexivity|].
  injection Hl as <-. vm_compute in Hc. injection Hc as _ <-. exact Hh.
Defined.

(** The race of a resend with the job's result is real: a run exists in which the server
    serialises a job that the campaign has already deleted. *)
Theorem resend_after_delete : exists ls, run ls start = Crash.
Proof. exists (racing ++ [Sent 6 true]). vm_compute. reflexivity. Qed.

(** One job is fetched, the campaign says that was all, and the result comes in. *)
Definition last_report : list (Label (M := nat)) :=
  [AddParam 1%nat 10%nat; NoMore] ++ fetch 5 ++ report 6 [1].

Lemma finish_announcement_sound_witness :
  delivered (after (last_report ++ [Received 6 (Some 99%nat) true; GetDone])) ≡ₚ [1%nat].
Proof.
  eapply (finish_announcement_sound 0 7 (after last_report) (Received 6 (Some 99%nat) true)
    (after (last_report ++ [Received 6 (Some 99%nat) true])) [GetDone]
    (after (last_report ++ [Received 6 (Some 99%nat) true; GetDone])));
    [apply after_reachable|vm_compute; reflexivity..|set_solver|vm_compute; reflexivity|vm_compute; reflexivity].
Defined.

(** Two fetched jobs, and the result of the second overtakes that of the first. *)
Definition overtaking : list (Label (M := nat)) :=
  two_jobs ++ [NoMore] ++ fetch 5 ++ fetch 6 ++ report 7 [1] ++ report 8 [2] ++
  [Received 8 (Some 99%nat) true; GetDone].

(** The end of the results can be announced too early: two results are being received on
    two connections, and when the faster one completes, [getDone] hands out that
    result and then NULL, although the other result is still arriving. *)
Theorem premature_finish :
  exists ls s js, run ls start = Next s /\ getDone (srv s) = Some (None, js) /\
    added s = [1%nat; 2%nat] /\ delivered s = [2%nat] /\ all_held (conns s) = [1%nat].
Proof.
  exists overtaking, (after overtaking), (srv (after overtaking)).
  split_and!; vm_compute; reflexivity.
Qed.

(** The announcement to the client on connection 5 fails. *)
Definition announcing : list (Label (M := nat)) := two_jobs ++ take 2 (fetch 5).

Lemma failed_announcement_loses_jobs_witness :
  1%nat ∈ dropped (after (announcing ++ [Sent 5 false; NoMore])).
Proof.
  eapply (failed_announcement_loses_jobs 0 7 (after announcing) 5 _ [1%nat]
    (after (announcing ++ [Sent 5 false])) [NoMore]
    (after (announcing ++ [Sent 5 false; NoMore])) 1%nat);
    [apply after_reachable|vm_compute; reflexivity..|set_solver].
Defined.

Lemma need_work_answer_witness :
  exists s', step (Control 5 (Some (mkCtrl NEED_WORK [] 42 (Some 0) (Some 1))))
               (after (two_jobs ++ [Accept 5])) = Next s' /\ undone s' = [2%nat].
Proof.
  destruct (need_work_answer 0 7 (after (two_jobs ++ [Accept 5])) 5
    (mkCtrl NEED_WORK [] 42 (Some 0) (Some 1))) as (s' & E & H);
    [apply after_reachable|vm_compute; reflexivity..|split; vm_compute; reflexivity|].
  exists s'. split; [exact E|]. vm_compute in E. injection E as <-. reflexivity.
Defined.
End JobServerDemo.
