(* ===== verification/JobPool.v ===== *)
(** * What the job server promises to a campaign

    An abstract machine, the pool: jobs are submitted, messages of clients arrive
    for them, each job is resolved at most once with the message that arrived
    last for it, and resolved jobs are handed back in the order they were
    resolved in.  The server with any number of connections
    refines it ([server_refines_pool]), and with clients that complete their
    sessions every job is resolved ([every_job_completes]). *)
From S2P Require Import Prelude SyncContainers JobServer JobServerTheorems.

(** ** The specification *)

Record Pool (M : Type) := mkPool {
  submitted : list Job;
  arrived : gmap Job M;            (** the message that arrived last for a job *)
  ready : list (Job * M);          (** resolved, not handed back yet *)
  handed : list Job;
  closed : bool
}.
Arguments mkPool {M}.
Arguments submitted {M}.
Arguments arrived {M}.
Arguments ready {M}.
Arguments handed {M}.
Arguments closed {M}.

(** What the campaign does and sees, and what clients send. *)
Inductive Visible (M : Type) :=
  | Submit (j : Job)
  | Receive (j : Job) (m : M)       (** a client's message for [j] has arrived *)
  | Deliver (j : Job) (m : M)
  | Close
  | End.                            (** [getDone] returned NULL *)
Arguments Submit {M}.
Arguments Receive {M}.
Arguments Deliver {M}.
Arguments Close {M}.
Arguments End {M}.

Section pool.
Context {M : Type}.

Definition new_Pool : Pool M := mkPool [] ∅ [] [] false.

Inductive pool_step : Pool M -> option (Visible M) -> Pool M -> Prop :=
  | pool_submit sub arr rdy hd cl j :
      j ∉ sub -> pool_step (mkPool sub arr rdy hd cl) (Some (Submit j)) (mkPool (sub ++ [j]) arr rdy hd cl)
  | pool_receive sub arr rdy hd cl j m :
      j ∈ sub -> j ∉ rdy.*1 -> j ∉ hd ->
      pool_step (mkPool sub arr rdy hd cl) (Some (Receive j m)) (mkPool sub (<[j := m]> arr) rdy hd cl)
  | pool_resolve sub arr rdy hd cl j m :
      j ∈ sub -> j ∉ rdy.*1 -> j ∉ hd -> arr !! j = Some m ->
      pool_step (mkPool sub arr rdy hd cl) None (mkPool sub arr (rdy ++ [(j, m)]) hd cl)
  | pool_deliver sub arr rdy hd cl j m :
      pool_step (mkPool sub arr ((j, m) :: rdy) hd cl) (Some (Deliver j m)) (mkPool sub arr rdy (hd ++ [j]) cl)
  | pool_close sub arr rdy hd cl :
      pool_step (mkPool sub arr rdy hd cl) (Some Close) (mkPool sub arr rdy hd true)
  | pool_end sub arr hd :
      pool_step (mkPool sub arr [] hd true) (Some End) (mkPool sub arr [] hd true).

(** Runs with their visible actions. *)
Inductive pool_run : Pool M -> list (Visible M) -> Pool M -> Prop :=
  | pool_done p : pool_run p [] p
  | pool_tau p p1 p2 vs : pool_step p None p1 -> pool_run p1 vs p2 -> pool_run p vs p2
  | pool_visible p p1 p2 v vs : pool_step p (Some v) p1 -> pool_run p1 vs p2 -> pool_run p (v :: vs) p2.

Lemma pool_run_app p vs1 p1 vs2 p2 : pool_run p vs1 p1 -> pool_run p1 vs2 p2 -> pool_run p (vs1 ++ vs2) p2.
Proof.
  induction 1 as [| p p1' p2' vs Hs _ IH | p p1' p2' v vs Hs _ IH]; intros H2; [done|..].
  - eapply pool_tau; [done | by apply IH].
  - simpl. eapply pool_visible; [done | by apply IH].
Qed.

Lemma pool_run_visible p v p1 : pool_step p (Some v) p1 -> pool_run p [v] p1.
Proof. intros. eapply pool_visible; [done | constructor]. Qed.

(** Several jobs are resolved one after another. *)
Lemma pool_resolve_all sub arr rdy hd cl new :
  NoDup (rdy.*1 ++ new.*1) -> (forall j, j ∈ new.*1 -> j ∈ sub /\ j ∉ hd) ->
  (forall j m, (j, m) ∈ new -> arr !! j = Some m) ->
  pool_run (mkPool sub arr rdy hd cl) [] (mkPool sub arr (rdy ++ new) hd cl).
Proof.
  revert rdy. induction new as [|[j m] new IH]; intros rdy Hnd Hin Harr; [rewrite app_nil_r; constructor|].
  simpl in *. destruct (Hin j) as [Hsub Hhd]; [set_solver|].
  eapply pool_tau.
  - apply (pool_resolve sub arr rdy hd cl j m); [done | | done | apply Harr; set_solver].
    apply NoDup_app in Hnd as (_ & Hd & _). intros Hj. apply (Hd j Hj). set_solver.
  - replace (rdy ++ (j, m) :: new) with ((rdy ++ [(j, m)]) ++ new) by (by rewrite <- app_assoc).
    apply IH; [|intros; apply Hin; set_solver | intros; apply Harr; set_solver].
    rewrite fmap_app. simpl. by rewrite <- app_assoc.
Qed.

(** *** What a pool's runs guarantee *)

(** The message of the last [Receive] for [j]. *)
Fixpoint last_received (j : Job) (vs : list (Visible M)) : option M :=
  match vs with
  | [] => None
  | Receive j' m :: vs =>
      match last_received j vs with
      | Some m' => Some m'
      | None => if bool_decide (j' = j) then Some m else None
      end
  | _ :: vs => last_received j vs
  end.

Lemma last_received_app j vs1 vs2 :
  last_received j (vs1 ++ vs2)
  = match last_received j vs2 with Some m => Some m | None => last_received j vs1 end.
Proof.
  induction vs1 as [|v vs1 IH]; simpl; [by destruct (last_received j vs2)|].
  destruct v; try done. rewrite IH. by destruct (last_received j vs2).
Qed.

(** A job is ready or handed back once, after it was submitted and with the
    message that arrived last for it. *)
Record pool_ok (vs : list (Visible M)) (p : Pool M) : Prop := mkPoolOk {
  po_once : NoDup ((ready p).*1 ++ handed p);
  po_submitted : forall j, j ∈ (ready p).*1 ++ handed p -> j ∈ submitted p;
  po_submits : forall j, j ∈ submitted p -> Submit j ∈ vs;
  po_arrived : forall j, arrived p !! j = last_received j vs;
  po_ready : forall j m, (j, m) ∈ ready p -> arrived p !! j = Some m;
  po_handed : forall j m, Deliver j m ∈ vs -> j ∈ handed p
}.

Lemma pool_ok_new : pool_ok [] new_Pool.
Proof. split; simpl; try set_solver. constructor. Qed.

Lemma pool_step_ok vs p o p' :
  pool_ok vs p -> pool_step p o p' -> pool_ok (vs ++ option_list o) p'.
Proof.
  intros [H1 H2 H3 H4 H5 H6].
  destruct 1 as [sub arr rdy hd cl j Hj | sub arr rdy hd cl j m Hj Hr Hh | sub arr rdy hd cl j m Hj Hr Hh Ha
                | sub arr rdy hd cl j m | sub arr rdy hd cl | sub arr hd]; simpl in *; split; simpl; try rewrite app_nil_r; try done;
    try (intros j'; rewrite last_received_app; simpl; done);
    try (intros j' Hin; apply elem_of_app; left; by apply H3);
    try (intros j' m' [Hin | Hin%list_elem_of_singleton]%elem_of_app; [by eapply H6 | done]).
  - intros j' Hin. apply elem_of_app. left. by apply H2.
  - intros j' [Hin | ->%list_elem_of_singleton]%elem_of_app; apply elem_of_app; [left; by apply H3 | right; set_solver].
  - intros j'. rewrite last_received_app. simpl. case_bool_decide as E.
    + subst. by rewrite lookup_insert_eq.
    + by rewrite lookup_insert_ne.
  - intros j' m' Hin. rewrite lookup_insert_ne; [by apply H5|].
    intros ->. apply Hr. apply list_elem_of_fmap. by exists (j', m').
  - rewrite fmap_app. simpl. rewrite <- app_assoc. simpl. rewrite <- Permutation_middle.
    apply NoDup_cons. split; [|done]. by intros [?|?]%elem_of_app.
  - intros j'. rewrite fmap_app. simpl. intros [[Hin | ->%list_elem_of_singleton]%elem_of_app | Hin]%elem_of_app;
      [|done|]; apply H2, elem_of_app; auto.
  - intros j' m' [Hin | [= -> ->]%list_elem_of_singleton]%elem_of_app; [by apply H5 | done].
  - rewrite app_assoc, (comm (++) _ [j]). done.
  - intros j' Hin. apply H2. rewrite app_assoc, (comm (++) _ [j]) in Hin. done.
  - intros j' m' Hin. apply H5. by right.
  - intros j' m' [Hin | [= -> ->]%list_elem_of_singleton]%elem_of_app; apply elem_of_app;
      [left; by eapply H6 | right; set_solver].
Qed.

(** Each [Deliver] of a run follows the job's [Submit], hands back the message
    that arrived last for the job, and is the first one for it. *)
Lemma pool_run_delivers p vs p' pre vs1 j m vs2 :
  pool_run p vs p' -> pool_ok pre p -> vs = vs1 ++ Deliver j m :: vs2 ->
  Submit j ∈ pre ++ vs1 /\ last_received j (pre ++ vs1) = Some m /\
  forall m', Deliver j m' ∉ pre ++ vs1.
Proof.
  intros Hrun. revert pre vs1. induction Hrun as [p | p p1 p2 vs Hs _ IH | p p1 p2 v vs Hs _ IH]; intros pre vs1 Hok E.
  - by destruct vs1.
  - apply (IH pre vs1); [|done]. rewrite <- (app_nil_r pre). by apply (pool_step_ok pre p None).
  - destruct vs1 as [|v1 vs1]; simpl in E; injection E as -> ->.
    + destruct Hok as [H1 H2 H3 H4 H5 H6]. inversion Hs; subst; simpl in *. rewrite app_nil_r.
      split; [apply H3, H2; set_solver|]. split; [rewrite <- H4; apply H5; set_solver|].
      intros m' Hin. apply H6 in Hin. apply NoDup_cons in H1 as [H1 _]. set_solver.
    + pose proof (IH (pre ++ [v1]) vs1 (pool_step_ok pre p (Some v1) p1 Hok Hs) eq_refl) as Hi.
      by rewrite <- app_assoc in Hi.
Qed.

End pool.

(** ** Refinement *)

Section refinement.
Context {M : Type}.
Implicit Types (s : System M).

(** The pool a state of the server stands for. *)
Definition message_of s (j : Job) : option (Job * M) := (fun m => (j, m)) <$> results s !! j.

Definition pool_of s : Pool M :=
  mkPool (added s) (results s) (omap (message_of s) (done_jobs s)) (delivered s) (noMoreExps (srv s)).

(** What the campaign does or sees in a step, and the message a client sends: it
    arrives for the job whose result the coroutine waits for. *)
Definition observe (l : Label (M := M)) s : list (Visible M) :=
  match l with
  | AddParam j m => [Submit j]
  | NoMore => [Close]
  | GetDone =>
      match getDone (srv s) with
      | Some (Some j, _) =>
          match heap s !! j with Some e => [Deliver j (getMessage e)] | None => [] end
      | Some (None, _) => [End]
      | None => []
      end
  | Received c (Some m) true =>
      match conns s !! c with Some (RcvResult ((Some j, _) :: _) _) => [Receive j m] | _ => [] end
  | _ => []
  end.

Fixpoint observes (ls : list (Label (M := M))) s : list (Visible M) :=
  match ls with
  | [] => []
  | l :: ls => observe l s ++ match step l s with Next s1 => observes ls s1 | _ => [] end
  end.

(** *** What connections leave alone *)

Record frame s s' : Prop := mkFrame {
  fr_added : added s' = added s;
  fr_delivered : delivered s' = delivered s;
  fr_closed : noMoreExps (srv s') = noMoreExps (srv s);
  fr_results : results s' = results s;
  fr_done : exists new, done_jobs s' = done_jobs s ++ new
}.

#[local] Instance frame_preorder : PreOrder frame.
Proof.
  split.
  - intros s. split; try done. exists []. by rewrite app_nil_r.
  - intros s1 s2 s3 [E1 E2 E3 E4 [n1 E5]] [F1 F2 F3 F4 [n2 F5]]. split; try congruence.
    exists (n1 ++ n2). by rewrite F5, E5, app_assoc.
Qed.

(** Steps that do not touch the done jobs. *)
Ltac frame_same := split; try done; exists []; by rewrite app_nil_r.

Lemma take_jobs_frame n s ids exp s' : take_jobs n s = Some (ids, exp, s') -> frame s s'.
Proof.
  revert s ids exp. induction n as [|n IH]; intros s ids exp E; cbn [take_jobs] in E; [by simplify_eq|].
  destruct (Dequeue_nb (m_undoneJobs (srv s))) as [[j|] q]; [|by simplify_eq].
  destruct (heap s !! j); [|done]. cbn [mbind option_bind] in E.
  destruct (dispatch j q s) as [w s1] eqn:Hd. unfold dispatch in Hd. simpl in Hd. simplify_eq Hd. intros <- <-.
  destruct (take_jobs n _) as [[[ids' exp'] s2]|] eqn:E'; [|done]. cbn [mbind option_bind] in E. simplify_eq.
  apply IH in E'. etrans; [|exact E']. frame_same.
Qed.

Lemma requeue_frame exp s s' : requeue exp s = Some s' -> frame s s'.
Proof.
  revert s. induction exp as [|j exp IH]; intros s E; cbn [requeue] in E; [by simplify_eq|].
  destruct (Enqueue j (m_undoneJobs (srv s))); [|done]. cbn [mbind option_bind] in E. apply IH in E.
  etrans; [|exact E]. frame_same.
Qed.

Lemma remove_running_frame ids js msgs js' :
  remove_running ids js = (msgs, js') -> m_doneJobs js' = m_doneJobs js /\ noMoreExps js' = noMoreExps js.
Proof.
  revert js msgs. induction ids as [|id ids IH]; intros js msgs E; cbn [remove_running] in E; [by simplify_eq|].
  destruct (map_remove id (m_runningJobs js)) as [exp r].
  destruct (remove_running ids _) as [msgs1 js1] eqn:E1. simplify_eq. by apply IH in E1.
Qed.

Lemma run_insert_frame w j s : frame s (run_insert w j s).
Proof. unfold run_insert. destruct (map_insert _ _ _). frame_same. Qed.

Lemma store_results_frame recvd s s' : store_results recvd s = Some s' -> frame s s'.
Proof.
  revert s. induction recvd as [|[[j w] b] recvd IH]; intros s E; cbn [store_results] in E; [by simplify_eq|].
  destruct b.
  - destruct (Enqueue j (m_doneJobs (srv s))) as [q|] eqn:Hq; [|done].
    cbn [mbind option_bind] in E. apply IH in E. etrans; [|exact E]. split; try done.
    exists [j]. unfold done_jobs. simpl. by apply Enqueue_Some.
  - cbn [mbind option_bind] in E. apply IH in E. etrans; [apply run_insert_frame | exact E].
Qed.

Lemma send_loop_frame c exp s s' : send_loop c exp s = Next s' -> frame s s'.
Proof.
  unfold send_loop. destruct exp as [|j exp]; [intros [= <-]; frame_same|].
  destruct (heap s !! j); [intros [= <-]; frame_same | done].
Qed.

Lemma receive_loop_frame c msgs recvd s s' : receive_loop c msgs recvd s = Next s' -> frame s s'.
Proof.
  unfold receive_loop. destruct msgs as [|[[j|] w] msgs]; [|intros [= <-]; frame_same..].
  destruct (store_results recvd s) as [s1|] eqn:E; [|done]. intros [= <-].
  apply store_results_frame in E. etrans; [exact E|].
  unfold check_complete. destruct (all_complete (srv s1)); frame_same.
Qed.

Lemma sendPending_frame c sz s s' : sendPendingExperimentData c sz s = Next s' -> frame s s'.
Proof.
  unfold sendPendingExperimentData. destruct (take_jobs (Z.to_nat sz) s) as [[[ids exp] s1]|] eqn:E; [|done].
  apply take_jobs_frame in E. destruct exp as [|j exp]; [|intros [= <-]; etrans; [exact E | frame_same]].
  destruct (pickone (m_runningJobs (srv s1))) as [[j|] r]; [|intros [= <-]; etrans; [exact E | frame_same]].
  simpl. destruct (heap s1 !! j); [intros [= <-]; etrans; [exact E | frame_same] | done].
Qed.

Lemma on_control_frame c m s s' : on_control c m s = Next s' -> frame s s'.
Proof.
  unfold on_control. destruct m as [m|]; [|intros [= <-]; frame_same].
  destruct (command m); try (intros [= <-]; frame_same);
    (destruct (run_id m); [|intros [= <-]; frame_same]); (case_match; [intros [= <-]; frame_same|]).
  - apply sendPending_frame.
  - unfold receiveExperimentResults. destruct (remove_running _ _) as [msgs js] eqn:E.
    apply remove_running_frame in E as [E1 E2]. intros Hr. apply receive_loop_frame in Hr.
    etrans; [|exact Hr]. split; try done. exists []. unfold done_jobs. simpl. by rewrite E1, app_nil_r.
Qed.

Lemma on_sent_frame c t ok s s' : on_sent c t ok s = Next s' -> frame s s'.
Proof.
  destruct t as [| |ctrl exp|buf [|j exp]|ctrl o|buf|msgs recvd]; cbn [on_sent]; try done;
    try (intros [= <-]; frame_same).
  - destruct ok; [apply send_loop_frame | intros [= <-]; frame_same].
  - destruct ok.
    + destruct (heap s !! j) as [e|]; [|done]. intros E. apply send_loop_frame in E.
      etrans; [apply run_insert_frame | exact E].
    + destruct (requeue (j :: exp) s) as [s1|] eqn:E; [|done]. intros [= <-].
      apply requeue_frame in E. etrans; [exact E | frame_same].
  - destruct o as [j|]; [|intros [= <-]; frame_same]. destruct ok; [|intros [= <-]; frame_same].
    destruct (heap s !! j); [intros [= <-]; frame_same | done].
Qed.

(** *** Simulation *)

Lemma messages_fst s (l : list Job) :
  (forall j, j ∈ l -> is_Some (results s !! j)) -> (omap (message_of s) l).*1 = l.
Proof.
  induction l as [|j l IH]; intros Hl; [done|]. unfold message_of at 1. simpl.
  destruct (Hl j) as [m ->]; [set_solver|]. simpl. f_equal. apply IH. set_solver.
Qed.

Lemma messages_ext s s' (l : list Job) :
  (forall j, j ∈ l -> results s' !! j = results s !! j) -> omap (message_of s') l = omap (message_of s) l.
Proof.
  induction l as [|j l IH]; intros Hl; [done|]. simpl.
  assert (message_of s' j = message_of s j) as -> by (unfold message_of; rewrite Hl by set_solver; done).
  destruct (message_of s j); [f_equal|]; apply IH; set_solver.
Qed.

Lemma done_content s j : inv s -> j ∈ done_jobs s -> is_Some (results s !! j).
Proof. intros I Hj. destruct (wi_content _ _ _ I j Hj) as (m & -> & _). by eexists. Qed.

Lemma message_result s (l : list Job) j m : (j, m) ∈ omap (message_of s) l -> results s !! j = Some m.
Proof.
  intros (j' & _ & E)%list_elem_of_omap. unfold message_of in E.
  destruct (results s !! j') eqn:E'; simpl in E; by simplify_eq.
Qed.

(** A connection's step resolves the jobs it puts into the queue of done jobs. *)
Lemma frame_refines s s' : inv s' -> frame s s' -> pool_run (pool_of s) [] (pool_of s').
Proof.
  intros I' [Ha Hd Hc Hr [new Hn]]. unfold pool_of. rewrite Ha, Hd, Hc, Hn, omap_app.
  rewrite (messages_ext s s' (done_jobs s)), Hr by (by rewrite Hr).
  pose proof (wi_nodup _ _ _ I') as Hnd. rewrite (wi_jobs _ _ _ I'), Hn in Hnd.
  apply NoDup_app in Hnd as (_ & _ & Hnd). apply NoDup_app in Hnd as (_ & _ & Hnd).
  apply NoDup_app in Hnd as (Hnd & Hdis & _).
  assert (forall j, j ∈ done_jobs s ++ new -> is_Some (results s' !! j)) as Hsome
    by (intros j Hj; apply (done_content s' j I'); by rewrite Hn).
  assert ((omap (message_of s') new).*1 = new) as Hnew by (apply messages_fst; set_solver).
  apply pool_resolve_all; [rewrite Hnew..|].
  - rewrite messages_fst; [done|]. intros j Hj. rewrite <- Hr. apply Hsome. set_solver.
  - intros j Hj. split.
    + rewrite <- Ha, (wi_jobs _ _ _ I'), Hn. set_solver.
    + rewrite <- Hd. intros Hj'. apply (Hdis j); set_solver.
  - intros j m Hin. rewrite <- Hr. by eapply message_result.
Qed.

(** A job a coroutine holds is neither done nor delivered. *)
Lemma held_open c t s j :
  inv s -> conns s !! c = Some t -> j ∈ held t ->
  j ∈ added s /\ (j ∉ done_jobs s) /\ (j ∉ delivered s).
Proof.
  intros I Hc Hj. pose proof (all_held_elem _ _ _ _ Hc Hj) as Hh.
  pose proof (wi_nodup _ _ _ I) as Hnd. rewrite (wi_jobs _ _ _ I) in Hnd.
  split; [rewrite (wi_jobs _ _ _ I); set_solver|].
  apply NoDup_app in Hnd as (_ & _ & Hnd). apply NoDup_app in Hnd as (_ & _ & Hnd).
  apply NoDup_app in Hnd as (_ & Hdis & Hnd). apply NoDup_app in Hnd as (_ & Hdis' & _).
  split; intros Hin; [apply (Hdis j Hin) | apply (Hdis' j Hin)]; set_solver.
Qed.

Lemma on_received_refines c t m ok s s' :
  inv s -> inv s' -> conns s !! c = Some t -> on_received c t m ok s = Next s' ->
  pool_run (pool_of s) (observe (Received c m ok) s) (pool_of s').
Proof.
  intros I I' Hc. unfold observe. rewrite Hc.
  destruct t as [| | | | | |[|[[j|] w] msgs] recvd]; simpl; try done; cycle 1.
  { intros E. apply receive_loop_frame in E. destruct m, ok; by apply frame_refines. }
  destruct (heap s !! j) as [e|]; [|done].
  destruct (held_open c _ s j I Hc) as (Ha & Hj & Hdl); [simpl; set_solver|].
  destruct m as [m|], ok; try done; intros E; apply receive_loop_frame in E;
    [|apply frame_refines; [done|]; etrans; [|exact E]; frame_same ..].
  eapply pool_visible; [|by apply frame_refines; [|exact E]].
  unfold pool_of. simpl. rewrite (messages_ext s (mkSys _ _ _ _ _ _ _ _ (<[j := m]> (results s))) (done_jobs s))
    by (intros j' Hj'; apply lookup_insert_ne; set_solver).
  apply pool_receive; [done | | done]. rewrite messages_fst; [done|]. intros. by apply done_content.
Qed.

Lemma step_refines l s s' :
  inv s -> step l s = Next s' -> pool_run (pool_of s) (observe l s) (pool_of s').
Proof.
  intros I E. pose proof (step_spec l s I) as I'. rewrite E in I'.
  destruct l as [j m| |j| |n|n|n|c|c m|c ok|c m ok]; simpl in E |- *;
    try (injection E as <-; apply frame_refines; [done | split; try done; exists []; by rewrite app_nil_r]).
  - case_bool_decide as Hj; [done|]. destruct (addParam j (srv s)) as [js|] eqn:Ea; [|done]. injection E as <-.
    unfold addParam in Ea. simpl in Ea. destruct (Enqueue _ _); [|done]. cbn in Ea. injection Ea as <-.
    apply pool_run_visible. by constructor.
  - destruct (getDone (srv s)) as [[[j|] js]|] eqn:Eg; [..|done]; injection E as <-;
      pose proof (getDone_spec _ _ _ I Eg) as Hg.
    + destruct Hg as (_ & _ & _ & m & Hm & Hh). destruct (heap s !! j) as [e|]; [|done]. simpl in Hh. injection Hh as <-.
      unfold getDone, Dequeue in Eg. destruct (m_queue (m_doneJobs (srv s))) as [|j' q] eqn:Hq;
        [by destruct (finished _)|]. cbn in Eg. injection Eg as -> <-.
      apply pool_run_visible. unfold pool_of, done_jobs. simpl. rewrite Hq. simpl.
      unfold message_of at 1. rewrite Hm. simpl. constructor.
    + destruct Hg as (-> & Hd & Hf). pose proof (wi_finished _ _ _ I Hf) as Hc.
      apply pool_run_visible. unfold pool_of, done_jobs in *. simpl. rewrite Hd, Hc. constructor.
  - case_bool_decide; [|done]. injection E as <-.
    apply frame_refines; [done | split; try done; exists []; by rewrite app_nil_r].
  - injection E as <-. apply pool_run_visible. unfold setNoMoreExperiments.
    case_match; unfold pool_of, done_jobs; simpl; constructor.
  - destruct (conns s !! c); [done|]. injection E as <-.
    apply frame_refines; [done | split; try done; exists []; by rewrite app_nil_r].
  - destruct (conns s !! c) as [[]|]; try done. apply on_control_frame in E. by apply frame_refines.
  - destruct (conns s !! c); [|done]. apply on_sent_frame in E. by apply frame_refines.
  - destruct (conns s !! c) as [t|] eqn:Hc; [|done].
    pose proof (on_received_refines c t m ok s s' I I' Hc E) as Hr. simpl in Hr. by rewrite Hc in Hr.
Qed.

Lemma run_refines ls s s' :
  inv s -> run ls s = Next s' -> pool_run (pool_of s) (observes ls s) (pool_of s').
Proof.
  revert s. induction ls as [|l ls IH]; intros s I E; simpl in *; [injection E as <-; constructor|].
  destruct (step l s) as [s1| |] eqn:Hs; try done.
  eapply pool_run_app; [by eapply step_refines|]. apply IH; [|done].
  pose proof (step_spec l s I) as I'. by rewrite Hs in I'.
Qed.

(** C7. Refinement: whatever campaign, clients and network do, what the campaign
    observes of the server and what clients send to it is a run of the pool:
    resolved jobs are handed back in the order they were resolved in, and the end
    is reported only after the campaign announced it and with nothing left to
    hand back.  In particular a job is handed back at most once, after it was
    added, and with the message that was received last for it from a
    client. *)
Theorem server_refines_pool cap runid ls s :
  run ls (new_System cap runid) = Next s ->
  pool_run new_Pool (observes ls (new_System cap runid)) (pool_of s) /\
  forall vs1 j m vs2, observes ls (new_System cap runid) = vs1 ++ Deliver j m :: vs2 ->
    Submit j ∈ vs1 /\ last_received j vs1 = Some m /\ forall m', Deliver j m' ∉ vs1.
Proof.
  intros E. pose proof (run_refines ls (new_System cap runid) s (inv_init cap runid) E) as Hr.
  split; [exact Hr|]. intros vs1 j m vs2 Ho.
  apply (pool_run_delivers _ _ _ [] vs1 j m vs2 Hr pool_ok_new Ho).
Qed.

End refinement.

(** ** Liveness *)

Section liveness.
Context {M : Type}.
Implicit Types (s : System M).

(** The jobs without a result that a client can still get. *)
Definition pending s : nat := (length (undone s) + length (running s))%nat.

(** A client's session on connection [c]: fetch one job, report the message
    [m] for the workload id the server announced. *)
Definition need_work (runid : Z) : FailControlMessage := mkCtrl NEED_WORK [] 42 (Some runid) (Some 1).
Definition result_follows (runid : Z) (ws : list Z) : FailControlMessage :=
  mkCtrl RESULT_FOLLOWS ws 42 (Some runid) None.

Definition announced (c : nat) s : list Z :=
  match conns s !! c with
  | Some (SndControl ctrl _) | Some (SndAnswer ctrl _) => workloadid ctrl
  | _ => []
  end.

Definition fetch_steps (c : nat) s : list (Label (M := M)) :=
  [Accept c; Control c (Some (need_work (m_runid (srv s))))].
Definition report_steps (c : nat) (runid : Z) (ws : list Z) (m : M) : list (Label (M := M)) :=
  [Accept c; Control c (Some (result_follows runid ws)); Received c (Some m) true].

Definition session (c : nat) (m : M) s : Outcome M :=
  match run (fetch_steps c s) s with
  | Next s1 => run (Sent c true :: Sent c true :: report_steps c (m_runid (srv s1)) (announced c s1) m) s1
  | o => o
  end.

Fixpoint sessions (c : nat) (ms : list M) s : Outcome M :=
  match ms with
  | [] => Next s
  | m :: ms => match session c m s with Next s1 => sessions c ms s1 | o => o end
  end.

(** What a session's parts leave alone. *)
Record kept s s' : Prop := mkKept {
  kp_conns : conns s' = conns s;
  kp_added : added s' = added s;
  kp_delivered : delivered s' = delivered s;
  kp_dropped : dropped s' = dropped s;
  kp_runid : m_runid (srv s') = m_runid (srv s);
  kp_budget : dispatched s' + Z.of_nat (length (undone s')) <= dispatched s + Z.of_nat (length (undone s))
}.

#[local] Instance kept_preorder : PreOrder kept.
Proof.
  split.
  - intros s. by split.
  - intros s1 s2 s3 [? ? ? ? ? ?] [? ? ? ? ? ?]. split; (congruence || lia).
Qed.

Lemma run_inv ls s s' : inv s -> run ls s = Next s' -> inv s'.
Proof.
  revert s. induction ls as [|l ls IH]; intros s I E; simpl in E; [by injection E as <-|].
  destruct (step l s) as [s1| |] eqn:Hs; try done. eapply IH; [|done].
  pose proof (step_spec l s I) as I'. by rewrite Hs in I'.
Qed.

Lemma run_app ls1 ls2 s s1 : run ls1 s = Next s1 -> run (ls1 ++ ls2) s = run ls2 s1.
Proof.
  revert s. induction ls1 as [|l ls1 IH]; intros s E; simpl in *; [by injection E as <-|].
  destruct (step l s); try done. by apply IH.
Qed.

Lemma running_heap s w j : inv s -> (w, j) ∈ running s -> exists e, heap s !! j = Some e /\ getWorkloadID e = w.
Proof.
  intros I Hin. pose proof (wi_keys _ _ _ I w j Hin) as Hw.
  assert (j ∈ (running s).*2) as Hj by (apply list_elem_of_fmap; by exists (w, j)).
  destruct (wi_heap _ _ _ I j) as [e He].
  - rewrite (wi_jobs _ _ _ I). set_solver.
  - pose proof (wi_nodup _ _ _ I) as Hnd. rewrite (wi_jobs _ _ _ I) in Hnd.
    apply NoDup_app in Hnd as (_ & _ & Hnd). apply NoDup_app in Hnd as (_ & Hdis & _).
    intros Hd. apply (Hdis j Hj). set_solver.
  - exists e. split; [done|]. unfold wid in Hw. by rewrite He in Hw.
Qed.

(** A report for a running job resolves one job. *)
Lemma report_resolves c s w m :
  inv s -> conns s !! c = None -> w ∈ (running s).*1 ->
  exists s' j, run (report_steps c (m_runid (srv s)) [w] m) s = Next s' /\ kept s s' /\
    done_jobs s' = done_jobs s ++ [j] /\ undone s' = undone s /\ S (length (running s')) = length (running s).
Proof.
  intros I Hc Hw.
  assert (exists j, map_find w (running s) = Some j) as [j Hj].
  { destruct (map_find w (running s)) eqn:E; [by eexists|]. by apply map_find_None in E. }
  destruct (running_heap s w j I (map_find_elem _ _ _ Hj)) as (e & He & _).
  pose proof (Permutation_length (map_erase_Permutation _ _ _ Hj)) as Hlen. simpl in Hlen.
  pose proof (wi_unbounded _ _ _ I) as Hun. unfold running in *.
  unfold report_steps. cbn [run step]. rewrite Hc. cbn [conns wait]. rewrite lookup_insert_eq.
  cbn [on_control result_follows command run_id srv wait]. rewrite Z.eqb_refl. cbn [negb].
  unfold receiveExperimentResults. cbn [workloadid result_follows remove_running srv wait].
  unfold map_remove at 1. rewrite Hj. cbn [receive_loop conns wait upd_srv run step].
  rewrite lookup_insert_eq. cbn [on_received heap wait upd_srv]. rewrite He.
  cbn [app receive_loop store_results srv wait upd_srv incDoneCount upd_counters upd_running m_doneJobs].
  rewrite (Enqueue_unbounded _ _ Hun). cbn [mbind option_bind].
  eexists _, j. split; [reflexivity|].
  unfold check_complete. case_match; unfold undone, running, done_jobs; simpl; (split; [|split; [done | split; [done | lia]]]);
    (split; simpl; try done); rewrite delete_insert_eq, delete_insert_eq, delete_id; done.
Qed.


(** Fetching a queued job makes it a running one. *)
Lemma fetch_queued c s j q :
  inv s -> conns s !! c = None -> undone s = j :: q -> dispatched s + 1 < 2 ^ 31 ->
  exists s1 s2 w, run (fetch_steps c s) s = Next s1 /\ announced c s1 = [w] /\
    m_runid (srv s1) = m_runid (srv s) /\
    run [Sent c true; Sent c true] s1 = Next s2 /\ kept s s2 /\ w ∈ (running s2).*1 /\
    done_jobs s2 = done_jobs s /\ pending s2 = pending s.
Proof.
  intros I Hc Hq Hd. pose proof (wi_heap _ _ _ I j) as Hh.
  destruct (winv_undone_excl _ _ _ _ _ I Hq) as [Ha Hx].
  destruct Hh as [e He]; [done | set_solver|].
  destruct (wi_ids _ _ _ I) as (Hcnt & _ & _ & Hall); [lia|]. pose proof (wi_count _ _ _ I) as Hpos.
  destruct (counter_next (dispatched s)) as [E1 E2]; [lia|].
  assert (map_find (dispatched s + 1) (m_map (m_runningJobs (srv s))) = None) as Hfresh.
  { apply map_find_None. change (m_map _) with (running s). rewrite (running_keys _ _ _ I). intros Hin.
    rewrite !fmap_app in Hall. apply Forall_app in Hall as [Hall _].
    rewrite Forall_forall in Hall. apply Hall in Hin. lia. }
  unfold undone in Hq. unfold fetch_steps. cbn [run step]. rewrite Hc. cbn [conns wait]. rewrite lookup_insert_eq.
  cbn [on_control need_work command run_id srv wait]. rewrite Z.eqb_refl, andb_false_r.
  unfold sendPendingExperimentData. change (Z.to_nat (get_job_size (need_work (m_runid (srv s))))) with 1%nat.
  cbn [take_jobs srv wait]. unfold Dequeue_nb at 1. rewrite Hq. cbn [heap wait]. rewrite He.
  cbn [mbind option_bind dispatch counter_increment srv wait heap conns added delivered dropped clashed dispatched results].
  rewrite Hcnt, E1. eexists _, _, (dispatched s + 1). split; [reflexivity|].
  split; [unfold announced; simpl; by rewrite lookup_insert_eq|]. split; [done|].
  cbn [run step conns wait]. rewrite lookup_insert_eq. cbn [on_sent send_loop heap wait].
  rewrite lookup_alter_eq, He. cbn [fmap option_fmap option_map conns wait]. rewrite lookup_insert_eq. cbn [on_sent heap wait].
  rewrite lookup_alter_eq, He. cbn [fmap option_fmap option_map setWorkloadID getWorkloadID].
  unfold run_insert. cbn [srv wait m_runningJobs upd_counters upd_undone]. unfold map_insert. rewrite Hfresh.
  cbn [send_loop]. split; [reflexivity|].
  unfold pending, undone, running, done_jobs. simpl. rewrite Hq.
  pose proof (map_put_Permutation (dispatched s + 1) j (m_map (m_runningJobs (srv s)))) as Hp.
  split; [|split; [|split; [done|]]].
  - split; simpl; try done; [by rewrite !delete_insert_eq, delete_id|]. unfold undone. simpl. rewrite Hq. simpl. lia.
  - rewrite Hp. set_solver.
  - rewrite Hp. simpl. lia.
Qed.

(** With an empty queue a running job is sent again. *)
Lemma fetch_running c s :
  inv s -> conns s !! c = None -> undone s = [] -> running s <> [] ->
  exists s1 s2 w, run (fetch_steps c s) s = Next s1 /\ announced c s1 = [w] /\
    m_runid (srv s1) = m_runid (srv s) /\
    run [Sent c true; Sent c true] s1 = Next s2 /\ kept s s2 /\ w ∈ (running s2).*1 /\
    done_jobs s2 = done_jobs s /\ pending s2 = pending s.
Proof.
  intros I Hc Hq Hr. destruct (pickone (m_runningJobs (srv s))) as [o r] eqn:Hp.
  pose proof (pickone_spec _ _ _ Hp) as [Hm Ho]. destruct o as [j|]; [|done].
  apply list_elem_of_fmap in Ho as ([w j'] & -> & Hin). simpl in Hp.
  destruct (running_heap s w j' I Hin) as (e & He & Hw).
  unfold undone in Hq. unfold fetch_steps. cbn [run step]. rewrite Hc. cbn [conns wait]. rewrite lookup_insert_eq.
  cbn [on_control need_work command run_id srv wait]. rewrite Z.eqb_refl, andb_false_r.
  unfold sendPendingExperimentData. change (Z.to_nat (get_job_size (need_work (m_runid (srv s))))) with 1%nat.
  cbn [take_jobs srv wait]. unfold Dequeue_nb at 1. rewrite Hq. cbn [srv wait]. rewrite Hp.
  cbn [heap upd_srv wait]. rewrite He. eexists _, _, w. split; [reflexivity|].
  split; [unfold announced; simpl; rewrite lookup_insert_eq; simpl; by rewrite Hw|]. split; [done|].
  cbn [run step conns wait upd_srv]. rewrite lookup_insert_eq. cbn [on_sent heap wait upd_srv]. rewrite He.
  cbn [conns wait upd_srv]. rewrite lookup_insert_eq. cbn [on_sent]. split; [reflexivity|].
  unfold pending, undone, running, done_jobs. simpl. rewrite Hm.
  split; [|split; [|done]].
  - split; simpl; try done. by rewrite !delete_insert_eq, delete_id.
  - apply list_elem_of_fmap. by exists (w, j').
Qed.

(** A completed session resolves one job. *)
Lemma session_resolves c m s :
  inv s -> conns s !! c = None -> pending s <> 0%nat -> dispatched s + Z.of_nat (length (undone s)) < 2 ^ 31 ->
  exists s' j, session c m s = Next s' /\ inv s' /\ kept s s' /\
    done_jobs s' = done_jobs s ++ [j] /\ S (pending s') = pending s.
Proof.
  intros I Hc Hp Hd.
  assert (exists s1 s2 w, run (fetch_steps c s) s = Next s1 /\ announced c s1 = [w] /\
    m_runid (srv s1) = m_runid (srv s) /\
    run [Sent c true; Sent c true] s1 = Next s2 /\ kept s s2 /\ w ∈ (running s2).*1 /\
    done_jobs s2 = done_jobs s /\ pending s2 = pending s)
    as (s1 & s2 & w & E1 & Hw & Hrid & E2 & Hk & Hin & Hdone & Hpend).
  { destruct (undone s) as [|j q] eqn:Hq.
    - apply fetch_running; try done. intros Hr. apply Hp. unfold pending. by rewrite Hq, Hr.
    - apply (fetch_queued c s j q); try done. simpl in Hd. lia. }
  pose proof (run_inv _ _ _ (run_inv _ _ _ I E1) E2) as I2.
  destruct (report_resolves c s2 w m I2) as (s3 & j & E3 & Hk3 & Hd3 & Hu3 & Hr3).
  { by rewrite (kp_conns _ _ Hk). } { done. }
  exists s3, j. unfold session. rewrite E1, Hw, Hrid, <- (kp_runid _ _ Hk).
  change (Sent c true :: Sent c true :: ?ls) with ([Sent c true; Sent c true] ++ ls).
  rewrite (run_app _ _ _ _ E2). split; [exact E3|]. split; [by eapply run_inv|].
  split; [by etrans|]. split; [by rewrite Hd3, Hdone|]. unfold pending in *. rewrite Hu3. lia.
Qed.

Lemma sessions_resolve c ms s :
  inv s -> conns s !! c = None -> (length ms <= pending s)%nat ->
  dispatched s + Z.of_nat (length (undone s)) < 2 ^ 31 ->
  exists s' js, sessions c ms s = Next s' /\ inv s' /\ kept s s' /\
    done_jobs s' = done_jobs s ++ js /\ length js = length ms /\
    (pending s' + length ms)%nat = pending s.
Proof.
  revert s. induction ms as [|m ms IH]; intros s I Hc Hp Hd; simpl in *.
  { exists s, []. rewrite app_nil_r. split; [done|]. split; [done|]. split; [done|]. split; [done|]. split; [done | lia]. }
  destruct (session_resolves c m s I Hc ltac:(lia) Hd) as (s1 & j & -> & I1 & Hk1 & Hd1 & Hp1).
  pose proof (kp_budget _ _ Hk1). destruct (IH s1) as (s2 & js & -> & I2 & Hk2 & Hd2 & Hl2 & Hp2);
    [done | by rewrite (kp_conns _ _ Hk1) | lia | lia |].
  exists s2, (j :: js). split; [done|]. split; [done|]. split; [by etrans|].
  split; [by rewrite Hd2, Hd1, <- app_assoc|]. simpl. split; lia.
Qed.

(** The campaign fetches what is done. *)
Lemma drain s js rest :
  done_jobs s = js ++ rest ->
  exists s', run (replicate (length js) GetDone) s = Next s' /\ added s' = added s /\
    delivered s' = delivered s ++ js /\ done_jobs s' = rest /\ undone s' = undone s /\ running s' = running s /\
    conns s' = conns s /\ dropped s' = dropped s /\ dispatched s' = dispatched s.
Proof.
  revert s. induction js as [|j js IH]; intros s Hd; cbn [length replicate run step].
  { exists s. rewrite app_nil_r. done. }
  unfold getDone, Dequeue. unfold done_jobs in Hd. rewrite Hd. cbn [app mbind option_bind].
  match goal with |- context [run _ ?x] => destruct (IH x) as (s' & E & Ha & Hdl & Hdn & Hu & Hr & Hc & Hdr & Hds) end.
  { done. }
  exists s'. split; [exact E|]. rewrite Ha, Hdl, Hdn, Hu, Hr, Hc, Hdr, Hds. simpl.
  rewrite <- app_assoc. done.
Qed.

(** C31. Progress: from every reachable state in which no connection is open and no
    job was dropped, as many completed client sessions as there are jobs without
    a result, with whatever messages, followed by the campaign's
    [getDone] calls, deliver every job that was ever added. *)
Theorem every_job_completes cap runid s c ms :
  reachable cap runid s -> conns s = ∅ -> dropped s = [] ->
  dispatched s + Z.of_nat (length (undone s)) < 2 ^ 31 -> length ms = pending s ->
  exists s1 s2, sessions c ms s = Next s1 /\
    run (replicate (length (done_jobs s1)) GetDone) s1 = Next s2 /\ delivered s2 ≡ₚ added s.
Proof.
  intros I%reachable_inv Hc Hdr Hd Hms.
  destruct (sessions_resolve c ms s I) as (s1 & js & E1 & I1 & Hk & Hdone & Hl & Hp);
    [by rewrite Hc, lookup_empty | lia | done |].
  destruct (drain s1 (done_jobs s1) []) as (s2 & E2 & Ha & Hdl & _); [by rewrite app_nil_r|].
  exists s1, s2. split; [done|]. split; [done|].
  pose proof (wi_jobs _ _ _ I1) as Hj. pose proof (wi_count _ _ _ I1). pose proof (kp_budget _ _ Hk).
  destruct (wi_ids _ _ _ I1) as (_ & Hcl & _); [lia|].
  assert (undone s1 = [] /\ running s1 = []) as [Hu Hr].
  { unfold pending in *. split; apply nil_length_inv; lia. }
  rewrite (kp_conns _ _ Hk), Hc, (kp_dropped _ _ Hk), Hdr, Hcl, Hu, Hr, (kp_added _ _ Hk) in Hj.
  rewrite Hj, Hdl. unfold all_held. rewrite map_to_list_empty. simpl. rewrite app_nil_r. solve_Permutation.
Qed.

End liveness.

Module JobPoolDemo.
Import JobServerDemo.

Lemma server_refines_pool_witness :
  observes (reported ++ [GetDone]) (new_System 0 7)
    = [Submit 1%nat; Submit 2%nat; Receive 1%nat 99%nat; Deliver 1%nat 99%nat] /\
  pool_run new_Pool [Submit 1%nat; Submit 2%nat; Receive 1%nat 99%nat; Deliver 1%nat 99%nat]
    (pool_of (after (reported ++ [GetDone]))).
Proof.
  assert (observes (reported ++ [GetDone]) (new_System 0 7)
    = [Submit 1%nat; Submit 2%nat; Receive 1%nat 99%nat; Deliver 1%nat 99%nat]) as E by (vm_compute; reflexivity).
  split; [exact E|]. rewrite <- E.
  apply (server_refines_pool 0 7 (reported ++ [GetDone])). vm_compute. reflexivity.
Defined.

Lemma every_job_completes_witness :
  exists s1 s2, sessions 5 [77%nat; 88%nat] (after two_jobs) = Next s1 /\
    run (replicate (length (done_jobs s1)) GetDone) s1 = Next s2 /\ delivered s2 ≡ₚ [1%nat; 2%nat].
Proof.
  apply (every_job_completes 0 7 (after two_jobs) 5 [77%nat; 88%nat]).
  - apply after_reachable.
  - reflexivity.
  - reflexivity.
  - vm_compute. reflexivity.
  - reflexivity.
Defined.

End JobPoolDemo.
