(* ===== verification/JobClient.v ===== *)
(** * The client's side of the job protocol

    [src/core/efw/JobClient.{hpp,cc}] and the message framing both sides use
    ([sendMsg], [rcvMsg] of [JobClient.cc] and [cpn/JobServer.cc]).

    The client runs in one thread and blocks on the network.  What the network
    and the clock do is a script, a list of [NetEvent]s the operations consume
    in order; what the client sends is collected.  An operation has no result
    ([None], for the retry loop [NoAnswer]) when the script does not continue the way the
    operation needs. *)
From S2P Require Import Prelude JobServer.

(** ** Framing

    A message travels as its length, a 32-bit number in network byte order,
    followed by its serialisation.  Bytes are numbers in [0, 256). *)

Definition htonl_bytes (n : Z) : list Z :=
  [Z.land (Z.shiftr n 24) 255; Z.land (Z.shiftr n 16) 255;
   Z.land (Z.shiftr n 8) 255; Z.land n 255].

Definition ntohl_bytes (b : list Z) : Z :=
  fold_left (fun acc x => Z.lor (Z.shiftl acc 8) x) b 0.

(** [read] of exactly [n] bytes. *)
Definition read_bytes (n : nat) (s : list Z) : option (list Z * list Z) :=
  if (n <=? length s)%nat then Some (take n s, drop n s) else None.

Section framing.
Context {M : Type} (serialize : M -> list Z) (parse : list Z -> option M).

(** The bytes [sendMsg] writes. *)
Definition sendMsg (msg : M) : list Z :=
  htonl_bytes (Z.of_nat (length (serialize msg))) ++ serialize msg.

Definition rcvMsg (s : list Z) : option (M * list Z) :=
  '(size, s1) ← read_bytes 4 s;
  '(buf, s2) ← read_bytes (Z.to_nat (ntohl_bytes size)) s1;
  msg ← parse buf;
  Some (msg, s2).

(** [dropMsg] reads a frame without parsing it. *)
Definition dropMsg (s : list Z) : option (list Z) :=
  '(size, s1) ← read_bytes 4 s;
  '(_, s2) ← read_bytes (Z.to_nat (ntohl_bytes size)) s1;
  Some s2.

Fixpoint rcvMsgs (n : nat) (s : list Z) : option (list M * list Z) :=
  match n with
  | O => Some ([], s)
  | S n => '(m, s1) ← rcvMsg s; '(ms, s2) ← rcvMsgs n s1; Some (m :: ms, s2)
  end.

End framing.

Lemma lor_shiftl8 a b : 0 <= b < 256 -> Z.lor (Z.shiftl a 8) b = a * 256 + b.
Proof.
  intros Hb. assert (Z.land (Z.shiftl a 8) b = 0) as Hl.
  { apply Z.bits_inj'. intros i Hi. rewrite Z.land_spec, Z.bits_0, Z.shiftl_spec by done.
    destruct (Z.ltb_spec i 8); [by rewrite Z.testbit_neg_r by lia|].
    rewrite (Z.bits_above_log2 b i); [apply andb_false_r|lia|].
    destruct (decide (b = 0)) as [->|]; [simpl; lia|]. apply Z.log2_lt_pow2; [lia|].
    pose proof (Z.pow_le_mono_r 2 8 i). lia. }
  pose proof (Z.add_lor_land (Z.shiftl a 8) b) as E. rewrite Hl, Z.shiftl_mul_pow2 in E by lia.
  rewrite Z.shiftl_mul_pow2 by lia. lia.
Qed.

Lemma ntohl_htonl n : 0 <= n < 2 ^ 32 -> ntohl_bytes (htonl_bytes n) = n.
Proof.
  intros Hn. unfold ntohl_bytes, htonl_bytes. cbn [fold_left].
  change 255 with (Z.ones 8). rewrite !Z.land_ones by lia. rewrite !Z.shiftr_div_pow2 by lia.
  change (2 ^ 8) with 256. change (2 ^ 16) with 65536. change (2 ^ 24) with 16777216.
  rewrite !lor_shiftl8 by (apply Z.mod_pos_bound; lia).
  Z.to_euclidean_division_equations. lia.
Qed.

Section framing_lemmas.
Context {M : Type} (serialize : M -> list Z) (parse : list Z -> option M).

(** What the protocol relies on: a serialised message parses back, and its
    length fits the frame header. *)
Hypothesis parse_serialize : forall m, parse (serialize m) = Some m.
Hypothesis serialize_short : forall m, Z.of_nat (length (serialize m)) < 2 ^ 32.

Lemma read_bytes_app l s : read_bytes (length l) (l ++ s) = Some (l, s).
Proof.
  unfold read_bytes. rewrite (proj2 (Nat.leb_le _ _)) by (rewrite length_app; lia).
  by rewrite take_app_length, drop_app_length.
Qed.

Lemma read_header m s :
  read_bytes 4 (sendMsg serialize m ++ s) =
    Some (htonl_bytes (Z.of_nat (length (serialize m))), serialize m ++ s) /\
  Z.to_nat (ntohl_bytes (htonl_bytes (Z.of_nat (length (serialize m))))) = length (serialize m).
Proof.
  split.
  - unfold sendMsg. rewrite <- app_assoc. by apply (read_bytes_app (htonl_bytes _)).
  - rewrite ntohl_htonl by (pose proof (serialize_short m); lia). by rewrite Nat2Z.id.
Qed.

Lemma rcvMsg_sendMsg m s : rcvMsg parse (sendMsg serialize m ++ s) = Some (m, s).
Proof.
  unfold rcvMsg. destruct (read_header m s) as [-> Hn]. obind. rewrite Hn, read_bytes_app. obind.
  by rewrite parse_serialize.
Qed.

(** Framing is transparent: the messages sent over a connection are received in order and
    unchanged, however many were sent and whatever follows them, and dropping a
    message skips exactly its frame. *)
Theorem framing_roundtrip ms s :
  rcvMsgs parse (length ms) ((ms ≫= sendMsg serialize) ++ s) = Some (ms, s) /\
  forall m, dropMsg (sendMsg serialize m ++ s) = Some s.
Proof.
  split.
  - induction ms as [|m ms IH]; [done|]. cbn [length rcvMsgs]. rewrite bind_cons, <- app_assoc, rcvMsg_sendMsg. obind.
    by rewrite IH.
  - intros m. unfold dropMsg. destruct (read_header m s) as [-> Hn]. obind.
    by rewrite Hn, read_bytes_app.
Qed.
End framing_lemmas.

(** Messages that are two numbers, one byte each. *)
Lemma framing_roundtrip_witness :
  rcvMsgs (fun l => match l with [a; b] => Some (a, b) | _ => None end) 2
    (([(1, 2); (3, 4)] ≫= sendMsg (fun '(a, b) => [a; b])) ++ [9]) = Some ([(1, 2); (3, 4)], [9]).
Proof.
  refine (proj1 (framing_roundtrip (fun '(a, b) => [a; b])
    (fun l => match l with [a; b] => Some (a, b) | _ => None end) _ _ [(1, 2); (3, 4)] [9])).
  - by intros [a b].
  - intros [a b]. simpl. lia.
Defined.

(** ** The client *)

(** What becomes of an unbounded loop: it ends, the script has no answer to its
    next request, or it has used up the rounds it was given. *)
Inductive LoopResult (A : Type) := Ended (a : A) | NoAnswer | OutOfFuel.
Arguments Ended {A}.
Arguments NoAnswer {A}.
Arguments OutOfFuel {A}.

Definition ended {A} (l : LoopResult A) : option A := match l with Ended a => Some a | _ => None end.

(** [config/FailConfig.hpp.in] with the defaults of [config/CMakeLists.txt]. *)
Definition CLIENT_RETRY_COUNT : nat := 3.
Definition CLIENT_JOB_INITIAL : Z := 1.
Definition CLIENT_JOB_LIMIT : Z := 1000.

Record JobClient (M : Type) := mkJC {
  m_server_runid : Z;
  m_job_throughput : Z;
  m_job_total : Z;
  m_parameters : list (ExperimentData M);
  m_results : list (ExperimentData M);
  m_connect_failed : bool;
  has_endpoint : bool
}.
Arguments mkJC {M}.
Arguments m_server_runid {M}.
Arguments m_job_throughput {M}.
Arguments m_job_total {M}.
Arguments m_parameters {M}.
Arguments m_results {M}.
Arguments m_connect_failed {M}.
Arguments has_endpoint {M}.

(** What the environment answers to each request of the client. *)
Inductive NetEvent (M : Type) :=
  | Resolved (ok : bool)                        (** the server's name *)
  | Connected (ok : bool)
  | SentMsg (ok : bool)
  | RcvdControl (m : option FailControlMessage)
  | RcvdJob (m : option M)
  | TimeIsUp (over : bool)                      (** [CLIENT_JOB_REQUEST_SEC < m_job_runtime] *)
  | Throughput (n : Z).                         (** the new [m_job_throughput], before clamping *)
Arguments Resolved {M}.
Arguments Connected {M}.
Arguments SentMsg {M}.
Arguments RcvdControl {M}.
Arguments RcvdJob {M}.
Arguments TimeIsUp {M}.
Arguments Throughput {M}.

(** What the client has put on the wire, with the outcome. *)
Inductive Output (M : Type) := OutControl (m : FailControlMessage) | OutResult (m : M).
Arguments OutControl {M}.
Arguments OutResult {M}.

Section client.
Context {M : Type}.
Implicit Types (c : JobClient M) (net : list (NetEvent M)).

Definition new_JobClient : JobClient M := mkJC 0 CLIENT_JOB_INITIAL 0 [] [] false false.

Definition upd_connection (failed ep : bool) c : JobClient M :=
  mkJC (m_server_runid c) (m_job_throughput c) (m_job_total c) (m_parameters c) (m_results c)
    failed ep.
Definition upd_parameters (ps : list (ExperimentData M)) c : JobClient M :=
  mkJC (m_server_runid c) (m_job_throughput c) (m_job_total c) ps (m_results c)
    (m_connect_failed c) (has_endpoint c).
Definition upd_results (rs : list (ExperimentData M)) c : JobClient M :=
  mkJC (m_server_runid c) (m_job_throughput c) (m_job_total c) (m_parameters c) rs
    (m_connect_failed c) (has_endpoint c).
Definition upd_runid (r : Z) c : JobClient M :=
  mkJC r (m_job_throughput c) (m_job_total c) (m_parameters c) (m_results c)
    (m_connect_failed c) (has_endpoint c).
Definition upd_throughput (t total : Z) c : JobClient M :=
  mkJC (m_server_runid c) t total (m_parameters c) (m_results c)
    (m_connect_failed c) (has_endpoint c).

(** The loop [for (int tries = CLIENT_RETRY_COUNT + 1; tries > 0; --tries)]:
    success, and whether the endpoint is known now. *)
Fixpoint connect_loop (tries : nat) (ep : bool) net : option (bool * bool * list (NetEvent M)) :=
  match tries with
  | O => Some (false, ep, net)
  | S tries =>
      '(ep1, net1) ← (if ep then Some (true, net)
                      else match net with Resolved ok :: net1 => Some (ok, net1) | _ => None end);
      if ep1 : bool then
        match net1 with
        | Connected true :: net2 => Some (true, true, net2)
        | Connected false :: net2 => connect_loop tries true net2
        | _ => None
        end
      else connect_loop tries false net1
  end.

Definition connectToServer c net : option (bool * JobClient M * list (NetEvent M)) :=
  if m_connect_failed c then Some (false, c, net)
  else
    '(ok, ep, net1) ← connect_loop (CLIENT_RETRY_COUNT + 1) (has_endpoint c) net;
    Some (ok, upd_connection (negb ok) ep c, net1).

(** The loop over the announced jobs.  The result is whether the function goes
    on (rather than returning COME_AGAIN) and the jobs received. *)
Fixpoint recv_jobs (i : nat) (n : nat) (ids : list Z) (params : list (ExperimentData M)) net
    : option (bool * list (ExperimentData M) * list (NetEvent M)) :=
  match n with
  | O => Some (true, params, net)
  | S n =>
      match net with
      | RcvdJob None :: net1 =>
          if (length params =? 0)%nat then Some (false, params, net1) else Some (true, params, net1)
      | RcvdJob (Some m) :: net1 =>
          id ← ids !! i;
          recv_jobs (S i) n ids (params ++ [mkED m id]) net1
      | _ => None
      end
  end.

(** What [exp] holds afterwards, if it was written, and the command returned. *)
Definition next_parameter (cmd : Command) c : Command * option (ExperimentData M) * JobClient M :=
  match m_parameters c with
  | e :: rest => (WORK_FOLLOWS, Some e, upd_parameters rest c)
  | [] => (cmd, None, c)
  end.

Definition work_request c : FailControlMessage :=
  mkCtrl NEED_WORK [] 42 (Some (m_server_runid c)) (Some (u32 (m_job_throughput c))).

Definition tryToGetExperimentData c net
    : option (Command * option (ExperimentData M) * JobClient M * list (Output M) * list (NetEvent M)) :=
  if negb (length (m_parameters c) =? 0)%nat then
    let '(cmd, exp, c1) := next_parameter NEED_WORK c in Some (cmd, exp, c1, [], net)
  else
    '(ok, c1, net1) ← connectToServer c net;
    if negb ok then Some (DIE, None, c1, [], net1)
    else match net1 with
    | SentMsg false :: net2 => Some (COME_AGAIN, None, c1, [], net2)
    | SentMsg true :: RcvdControl None :: net2 =>
        Some (COME_AGAIN, None, c1, [OutControl (work_request c1)], net2)
    | SentMsg true :: RcvdControl (Some ctrlmsg) :: net2 =>
        let out := [OutControl (work_request c1)] in
        let c2 := upd_runid (get_run_id ctrlmsg) c1 in
        match command ctrlmsg with
        | WORK_FOLLOWS =>
            '(goes_on, params, net3) ←
              recv_jobs 0 (Z.to_nat (get_job_size ctrlmsg)) (workloadid ctrlmsg) [] net2;
            if goes_on : bool then
              let '(cmd, exp, c3) := next_parameter WORK_FOLLOWS (upd_parameters params c2) in
              Some (cmd, exp, c3, out, net3)
            else Some (COME_AGAIN, None, c2, out, net3)
        | cmd => Some (cmd, None, c2, out, net2)
        end
    | _ => None
    end.

(** [while (1)], cut off after [fuel] rounds. *)
Fixpoint getParam_loop (fuel : nat) c net
    : LoopResult (bool * option (ExperimentData M) * JobClient M * list (Output M) * list (NetEvent M)) :=
  match fuel with
  | O => OutOfFuel
  | S fuel =>
      match tryToGetExperimentData c net with
      | None => NoAnswer
      | Some (cmd, exp, c1, out, net1) =>
          match cmd with
          | WORK_FOLLOWS => Ended (true, exp, c1, out, net1)
          | COME_AGAIN =>
              match getParam_loop fuel c1 net1 with
              | Ended (b, exp2, c2, out2, net2) => Ended (b, exp2, c2, out ++ out2, net2)
              | l => l
              end
          | _ => Ended (false, exp, c1, out, net1)
          end
      end
  end.

(** One round more than the script has events is enough ([getParam_terminates]). *)
Definition getParam c net :=
  if m_connect_failed c then Ended (false, None, c, [], net)
  else getParam_loop (S (length net)) c net.

(** Sending the results' messages one by one until one fails. *)
Fixpoint send_results (rs : list (ExperimentData M)) net
    : option (bool * list (ExperimentData M) * list (Output M) * list (NetEvent M)) :=
  match rs with
  | [] => Some (true, [], [], net)
  | e :: rest =>
      match net with
      | SentMsg false :: net1 => Some (false, rs, [], net1)
      | SentMsg true :: net1 =>
          '(ok, rs1, out, net2) ← send_results rest net1;
          Some (ok, rs1, OutResult (getMessage e) :: out, net2)
      | _ => None
      end
  end.

Definition result_announcement c : FailControlMessage :=
  mkCtrl RESULT_FOLLOWS (getWorkloadID <$> m_results c) 42 (Some (m_server_runid c))
    (Some (u32 (Z.of_nat (length (m_results c))))).

Definition sendResultsToServer c net
    : option (bool * JobClient M * list (Output M) * list (NetEvent M)) :=
  if (length (m_results c) =? 0)%nat then Some (true, c, [], net)
  else
    '(ok, c1, net1) ← connectToServer c net;
    if negb ok then Some (false, upd_results [] c1, [], net1)
    else match net1 with
    | SentMsg false :: net2 => Some (false, c1, [], net2)
    | SentMsg true :: net2 =>
        '(ok2, rs, out, net3) ← send_results (m_results c1) net2;
        Some (ok2, upd_results rs c1, OutControl (result_announcement c1) :: out, net3)
    | _ => None
    end.

Definition clamp_throughput (n : Z) : Z :=
  if n >? CLIENT_JOB_LIMIT then CLIENT_JOB_LIMIT else if n <? 1 then 1 else n.

Definition sendResult (result : ExperimentData M) c net
    : option (bool * JobClient M * list (Output M) * list (NetEvent M)) :=
  let c1 := upd_results (m_results c ++ [result]) c in
  let total := s32 (m_job_total c1 + Z.of_nat (length (m_results c1))) in
  if negb (length (m_parameters c1) =? 0)%nat then
    match net with
    | TimeIsUp true :: net1 => sendResultsToServer (upd_throughput (m_job_throughput c1) total c1) net1
    | TimeIsUp false :: net1 => Some (true, c1, [], net1)
    | _ => None
    end
  else match net with
  | Throughput n :: net1 => sendResultsToServer (upd_throughput (clamp_throughput n) 0 c1) net1
  | _ => None
  end.

(** The destructor sends what is left. *)
Definition destroy_JobClient c net := sendResultsToServer c net.

Definition getNumberOfUndoneJobs c : Z := Z.of_nat (length (m_parameters c)).

(** ** Fetching jobs *)

(** The announced jobs, as far as their messages arrived. *)
Definition announced (ids : list Z) (ms : list M) : list (ExperimentData M) :=
  zip_with (fun id m => mkED m id) ids ms.

Lemma recv_jobs_some ids ms : forall i n params net,
  (i + length ms <= length ids)%nat -> (length ms <= n)%nat ->
  recv_jobs i n ids params ((RcvdJob ∘ Some <$> ms) ++ net) =
  recv_jobs (i + length ms) (n - length ms) ids (params ++ announced (drop i ids) ms) net.
Proof.
  induction ms as [|m ms IH]; intros i n params net Hi Hn; simpl in *.
  { unfold announced. by rewrite zip_with_nil_r, app_nil_r, Nat.add_0_r, Nat.sub_0_r. }
  destruct n as [|n]; [lia|]. destruct (lookup_lt_is_Some_2 ids i) as [id Hid]; [lia|].
  cbn [recv_jobs]. rewrite Hid. obind. rewrite IH by lia.
  rewrite (drop_S _ _ _ Hid). unfold announced. simpl. rewrite <- app_assoc. simpl.
  replace (i + S (length ms))%nat with (S i + length ms)%nat by lia. done.
Qed.

(** [n] calls of [getParam] in a row: the jobs the experiment got. *)
Fixpoint get_params (n : nat) c net : option (list (ExperimentData M) * JobClient M * list (NetEvent M)) :=
  match n with
  | O => Some ([], c, net)
  | S n =>
      '(ok, exp, c1, _, net1) ← ended (getParam c net);
      match ok, exp with
      | true, Some e => '(es, c2, net2) ← get_params n c1 net1; Some (e :: es, c2, net2)
      | _, _ => None
      end
  end.

(** Jobs fetched in advance are handed out in order, without the network. *)
Lemma get_params_queued c net :
  m_connect_failed c = false ->
  get_params (length (m_parameters c)) c net = Some (m_parameters c, upd_parameters [] c, net).
Proof.
  intros Hc. remember (m_parameters c) as ps eqn:Hps. revert c Hc Hps.
  induction ps as [|e ps IH]; intros c Hc Hps; cbn [length get_params].
  { do 2 f_equal. destruct c. simpl in *. by subst. }
  unfold getParam. rewrite Hc. cbn [getParam_loop].
  unfold tryToGetExperimentData. rewrite <- Hps. cbn [length Nat.eqb negb].
  unfold next_parameter. rewrite <- Hps. cbn [ended]. obind.
  rewrite (IH (upd_parameters ps c)) by done. done.
Qed.

Lemma connectToServer_spec c net ok c1 net1 :
  connectToServer c net = Some (ok, c1, net1) ->
  (exists ep, c1 = upd_connection (negb ok) ep c) /\ (length net1 <= length net)%nat.
Proof.
  unfold connectToServer. destruct (m_connect_failed c) eqn:Hf.
  { intros [= <- <- <-]. split; [|done]. exists (has_endpoint c). destruct c. simpl in *. by subst. }
  destruct (connect_loop _ _ _) as [[[ok' ep] net']|] eqn:E; [|done]. obind. intros [= <- <- <-].
  split; [by exists ep|]. revert E. generalize (has_endpoint c) (CLIENT_RETRY_COUNT + 1)%nat. intros b n.
  revert b net. induction n as [|n IH]; intros b net; cbn [connect_loop]; [by intros [= <- <- <-]|].
  destruct b; obind.
  - destruct net as [|[| [] | | | | |] net]; try done; [by intros [= <- <- <-]; simpl; lia|].
    intros E. apply IH in E. simpl. lia.
  - destruct net as [|[ok1| | | | | |] net]; try done. obind. destruct ok1.
    + destruct net as [|[| [] | | | | |] net]; try done; [by intros [= <- <- <-]; simpl; lia|].
      intros E. apply IH in E. simpl. lia.
    + intros E. apply IH in E. simpl. lia.
Qed.

(** The experiment gets exactly the jobs the server announced, in order, each with its
    announced workload id, as far as their messages arrived: all of them, or those before
    the first failed receive.  The client then speaks for this server run. *)
Theorem client_gets_announced_jobs c net c1 a ms tail rest :
  m_connect_failed c = false -> m_parameters c = [] ->
  connectToServer c net =
    Some (true, c1, SentMsg true :: RcvdControl (Some a) :: (RcvdJob ∘ Some <$> ms) ++ tail) ->
  command a = WORK_FOLLOWS -> length (workloadid a) = Z.to_nat (get_job_size a) -> ms ≠ [] ->
  (length ms = length (workloadid a) /\ tail = rest) \/
  ((length ms < length (workloadid a))%nat /\ tail = RcvdJob None :: rest) ->
  exists c2, get_params (length ms) c net = Some (announced (workloadid a) ms, c2, rest) /\
    m_parameters c2 = [] /\ m_results c2 = m_results c /\ m_server_runid c2 = get_run_id a /\
    m_connect_failed c2 = false.
Proof.
  intros Hf Hp Hconn Hcmd Hsz Hne Hrest.
  destruct (connectToServer_spec _ _ _ _ _ Hconn) as [[ep Hc1] _].
  assert (recv_jobs 0 (Z.to_nat (get_job_size a)) (workloadid a) [] ((RcvdJob ∘ Some <$> ms) ++ tail)
          = Some (true, announced (workloadid a) ms, rest)) as Hrecv.
  { rewrite recv_jobs_some, <- Hsz by (rewrite <- ?Hsz; lia). rewrite drop_0. cbn [app].
    assert (length (announced (workloadid a) ms) = length ms) as Hlen.
    { unfold announced. rewrite length_zip_with. lia. }
    destruct Hrest as [[El ->]|[Hlt ->]].
    - rewrite El, Nat.sub_diag. done.
    - destruct (length (workloadid a) - length ms)%nat eqn:En; [lia|]. cbn [recv_jobs].
      destruct ms; [done|]. by rewrite Hlen. }
  destruct ms as [|m ms]; [done|]. destruct (workloadid a) as [|id ids] eqn:Hids; [simpl in Hrest; lia|].
  set (c2 := upd_parameters (announced ids ms) (upd_runid (get_run_id a) c1)).
  assert (getParam c net = Ended (true, Some (mkED m id), c2, [OutControl (work_request c1)], rest)) as Hget.
  { unfold getParam. rewrite Hf. cbn [getParam_loop]. unfold tryToGetExperimentData. rewrite Hp.
    cbn [length Nat.eqb negb]. rewrite Hconn. cbn [mbind option_bind negb].
    rewrite Hcmd, Hids, Hrecv. done. }
  exists (upd_parameters [] c2). cbn [length get_params]. rewrite Hget. cbn [ended]. obind.
  assert (length ms = length (m_parameters c2)) as ->.
  { unfold c2. simpl. unfold announced. rewrite length_zip_with. simpl in Hrest. lia. }
  rewrite get_params_queued by (unfold c2; simpl; by rewrite Hc1). obind.
  split_and!; try done; unfold c2; simpl; by rewrite Hc1.
Qed.

(** ** Termination *)

Lemma recv_jobs_length n : forall i ids params net b ps net1,
  recv_jobs i n ids params net = Some (b, ps, net1) -> (length net1 <= length net)%nat.
Proof.
  induction n as [|n IH]; intros i ids params net b ps net1; cbn [recv_jobs]; [by intros [= <- <- <-]|].
  destruct net as [|[| | | | [m|] | |] net]; try done.
  - destruct (ids !! i); [|done]. obind. intros E. apply IH in E. simpl. lia.
  - case_match; intros [= <- <- <-]; simpl; lia.
Qed.

(** A round that has to be repeated used up part of the script. *)
Lemma tryToGet_again c net exp c1 out net1 :
  tryToGetExperimentData c net = Some (COME_AGAIN, exp, c1, out, net1) ->
  (length net1 < length net)%nat.
Proof.
  unfold tryToGetExperimentData. case_match.
  { unfold next_parameter. destruct (m_parameters c); intros [=]. }
  destruct (connectToServer c net) as [[[ok c'] net']|] eqn:Ec; [|done].
  apply connectToServer_spec in Ec as [_ Hlen]. obind. destruct ok; [cbn [negb]|done].
  destruct net' as [|[| |[]| | | |] net']; try done.
  - destruct net' as [|[| | |[a|]| | |] net']; try done.
    + simpl in Hlen. destruct (command a); try done.
      * destruct (recv_jobs _ _ _ _ _) as [[[b ps] net2]|] eqn:Er; [|done]. obind.
        apply recv_jobs_length in Er. destruct b.
        -- unfold next_parameter. simpl. destruct ps; intros [=].
        -- intros [= <- <- <- <-]. lia.
      * intros [= <- <- <- <-]. lia.
    + intros [= <- <- <- <-]. simpl in Hlen. lia.
  - intros [= <- <- <- <-]. simpl in Hlen. lia.
Qed.

(** [n] rounds in a row that the loop has to repeat. *)
Inductive retries : nat -> JobClient M -> list (NetEvent M) -> list (Output M) -> JobClient M -> list (NetEvent M) -> Prop :=
  | retries_none c net : retries 0 c net [] c net
  | retries_more n c net exp c1 out net1 outs c2 net2 :
      tryToGetExperimentData c net = Some (COME_AGAIN, exp, c1, out, net1) ->
      retries n c1 net1 outs c2 net2 -> retries (S n) c net (out ++ outs) c2 net2.

(** The loop repeats rounds until one does not say COME_AGAIN or has no answer. *)
Lemma getParam_loop_spec fuel : forall c net, (length net < fuel)%nat ->
  exists n outs c2 net2, retries n c net outs c2 net2 /\ (n + length net2 <= length net)%nat /\
    match tryToGetExperimentData c2 net2 with
    | None => getParam_loop fuel c net = NoAnswer
    | Some (cmd, exp, c3, out, net3) =>
        cmd <> COME_AGAIN /\
        getParam_loop fuel c net = Ended (bool_decide (cmd = WORK_FOLLOWS), exp, c3, outs ++ out, net3)
    end.
Proof.
  induction fuel as [|fuel IH]; intros c net Hf; [lia|]. cbn [getParam_loop].
  destruct (tryToGetExperimentData c net) as [[[[[cmd exp] c1] out] net1]|] eqn:Et; cycle 1.
  { exists 0%nat, [], c, net. rewrite Et. split; [constructor|]. split; [lia | done]. }
  destruct (decide (cmd = COME_AGAIN)) as [->|Hcmd]; cycle 1.
  { exists 0%nat, [], c, net. rewrite Et. split; [constructor|]. split; [lia|]. split; [done|]. by destruct cmd. }
  pose proof (tryToGet_again _ _ _ _ _ _ Et) as Hlen.
  destruct (IH c1 net1) as (n & outs & c2 & net2 & Hr & Hn & Hres); [lia|].
  exists (S n), (out ++ outs), c2, net2. split; [by econstructor|]. split; [lia|].
  destruct (tryToGetExperimentData c2 net2) as [[[[[cmd2 exp2] c3] out2] net3]|].
  - destruct Hres as [Hc ->]. by rewrite app_assoc.
  - by rewrite Hres.
Qed.

(** The rounds do not depend on the bound. *)
Lemma getParam_loop_fuel fuel fuel' c net :
  (length net < fuel)%nat -> (length net < fuel')%nat -> getParam_loop fuel c net = getParam_loop fuel' c net.
Proof.
  revert fuel' c net. induction fuel as [|fuel IH]; intros [|fuel'] c net H1 H2; try lia. cbn [getParam_loop].
  destruct (tryToGetExperimentData c net) as [[[[[cmd exp] c1] out] net1]|] eqn:Et; [|done].
  destruct cmd; try done. apply tryToGet_again in Et. by rewrite (IH fuel' c1 net1) by lia.
Qed.

(** C29. [getParam] ends.  Whatever the network does, only finitely many rounds are
    repeated, at most as many as the network does things, and no bound on the rounds
    above this number changes anything: the call never loops on its own.  It ends with
    the first round that does not say COME_AGAIN, with [true] exactly for WORK_FOLLOWS
    and with what this round put into [exp], unless the network stops answering
    before.  If the server cannot be reached it returns [false] without another round,
    and at once in every later call. *)
Theorem getParam_terminates c net :
  m_connect_failed c = false ->
  (exists n outs c2 net2, retries n c net outs c2 net2 /\ (n + length net2 <= length net)%nat /\
    match tryToGetExperimentData c2 net2 with
    | None => getParam c net = NoAnswer
    | Some (cmd, exp, c3, out, net3) =>
        cmd <> COME_AGAIN /\
        getParam c net = Ended (bool_decide (cmd = WORK_FOLLOWS), exp, c3, outs ++ out, net3)
    end) /\
  (forall fuel, (length net < fuel)%nat -> getParam_loop fuel c net = getParam c net) /\
  getParam c net <> OutOfFuel /\
  (forall c1 net1, m_parameters c = [] -> connectToServer c net = Some (false, c1, net1) ->
    getParam c net = Ended (false, None, c1, [], net1) /\
    forall net', getParam c1 net' = Ended (false, None, c1, [], net')).
Proof.
  intros Hf. unfold getParam. rewrite Hf.
  destruct (getParam_loop_spec (S (length net)) c net) as (n & outs & c2 & net2 & Hr & Hn & Hres); [lia|].
  split; [by exists n, outs, c2, net2|]. split; [intros fuel Hfuel; apply getParam_loop_fuel; lia|]. split.
  - destruct (tryToGetExperimentData c2 net2) as [[[[[? ?] ?] ?] ?]|]; [destruct Hres as [_ ->] | rewrite Hres]; done.
  - intros c1 net1 Hp Hc. cbn [getParam_loop]. unfold tryToGetExperimentData. rewrite Hp. cbn [length Nat.eqb negb].
    rewrite Hc. split; [done|]. apply connectToServer_spec in Hc as [[ep ->] _]. done.
Qed.

(** ** Reporting results *)

Lemma send_results_spec rs : forall net ok rs1 out net1,
  send_results rs net = Some (ok, rs1, out, net1) ->
  exists sent, rs = sent ++ rs1 /\ out = (OutResult ∘ getMessage <$> sent) /\
    (ok = true <-> rs1 = []).
Proof.
  induction rs as [|e rs IH]; intros net ok rs1 out net1; cbn [send_results].
  { intros [= <- <- <- <-]. by exists []. }
  destruct net as [|[| |[]| | | |] net]; try done.
  - destruct (send_results rs net) as [[[[ok' rs'] out'] net']|] eqn:E; [|done]. obind.
    intros [= <- <- <- <-]. apply IH in E as (sent & -> & -> & Hok). by exists (e :: sent).
  - intros [= <- <- <- <-]. by exists [].
Qed.


(** ** The number of jobs asked for *)

Inductive client_op := GetParam | SendResult (e : ExperimentData M) | Destroy.

Definition client_step (o : client_op) c net : option (JobClient M) :=
  match o with
  | GetParam => '(_, _, c1, _, _) ← ended (getParam c net); Some c1
  | SendResult e => '(_, c1, _, _) ← sendResult e c net; Some c1
  | Destroy => '(_, c1, _, _) ← destroy_JobClient c net; Some c1
  end.

Lemma tryToGet_throughput c net cmd exp c1 out net1 :
  tryToGetExperimentData c net = Some (cmd, exp, c1, out, net1) -> m_job_throughput c1 = m_job_throughput c.
Proof.
  assert (forall cm c2 cm2 exp2 c3, next_parameter cm c2 = (cm2, exp2, c3) ->
    m_job_throughput c3 = m_job_throughput c2) as Hnext.
  { intros ? c2 ? ? ?. unfold next_parameter. destruct (m_parameters c2); by intros [= <- <- <-]. }
  unfold tryToGetExperimentData. case_match.
  { destruct (next_parameter NEED_WORK c) as [[cmd' exp'] c'] eqn:E. intros [= <- <- <- <- <-]. by eapply Hnext. }
  destruct (connectToServer c net) as [[[ok c'] net']|] eqn:Ec; [|done].
  apply connectToServer_spec in Ec as [[ep ->] _]. cbn [mbind option_bind]. destruct ok; cbn [negb];
    [|by intros [= <- <- <- <- <-]].
  destruct net' as [|[| |[]| | | |] net']; try done; [|by intros [= <- <- <- <- <-]].
  destruct net' as [|[| | |[a|]| | |] net']; try done; [|by intros [= <- <- <- <- <-]].
  destruct (command a); try by intros [= <- <- <- <- <-].
  destruct (recv_jobs _ _ _ _ _) as [[[b ps] net2]|]; [|done]. cbn [mbind option_bind].
  destruct b; [|by intros [= <- <- <- <- <-]].
  destruct (next_parameter _ _) as [[cmd' exp'] c'] eqn:E. intros [= <- <- <- <- <-]. by apply Hnext in E.
Qed.

Lemma getParam_throughput c net ok exp c1 out net1 :
  getParam c net = Ended (ok, exp, c1, out, net1) -> m_job_throughput c1 = m_job_throughput c.
Proof.
  unfold getParam. case_match; [by intros [= <- <- <- <- <-]|]. clear H. generalize (S (length net)). intros n.
  revert c net ok exp c1 out net1. induction n as [|n IH]; intros c net ok exp c1 out net1; cbn [getParam_loop]; [done|].
  destruct (tryToGetExperimentData c net) as [[[[[cmd e] c'] o] net']|] eqn:E; [|done].
  apply tryToGet_throughput in E.
  destruct cmd; try by intros [= <- <- <- <- <-].
  destruct (getParam_loop n c' net') as [[[[[b e2] c2] o2] net2]| |] eqn:E2; [|done|done].
  intros [= <- <- <- <- <-]. apply IH in E2. congruence.
Qed.

Lemma sendResults_throughput c net ok c1 out net1 :
  sendResultsToServer c net = Some (ok, c1, out, net1) -> m_job_throughput c1 = m_job_throughput c.
Proof.
  unfold sendResultsToServer. case_match; [by intros [= <- <- <- <-]|].
  destruct (connectToServer c net) as [[[cok c'] net']|] eqn:Ec; [|done].
  apply connectToServer_spec in Ec as [[ep ->] _]. cbn [mbind option_bind].
  destruct cok; cbn [negb]; [|by intros [= <- <- <- <-]].
  destruct net' as [|[| |[]| | | |] net']; try done; [|by intros [= <- <- <- <-]].
  destruct (send_results _ net') as [[[[ok2 rs] out2] net3]|]; [|done]. by intros [= <- <- <- <-].
Qed.

Inductive client_reachable : JobClient M -> Prop :=
  | creach_init : client_reachable new_JobClient
  | creach_step c o net c1 :
      client_reachable c -> client_step o c net = Some c1 -> client_reachable c1.

(** C30. Whatever the measured run times, the client always asks for at least one and at most
    [CLIENT_JOB_LIMIT] jobs. *)
Theorem job_request_bounded c :
  client_reachable c ->
  1 <= m_job_throughput c <= CLIENT_JOB_LIMIT /\
  get_job_size (work_request c) = m_job_throughput c.
Proof.
  intros R. assert (1 <= m_job_throughput c <= CLIENT_JOB_LIMIT) as Hb.
  { induction R as [|c o net c1 _ IH E]; [unfold CLIENT_JOB_LIMIT; simpl; unfold CLIENT_JOB_INITIAL; lia|].
    destruct o as [|e|]; simpl in E.
    - destruct (getParam c net) as [[[[[? ?] ?] ?] ?]| |] eqn:Eg; [|done|done]. cbn in E. simplify_eq.
      by rewrite (getParam_throughput _ _ _ _ _ _ _ Eg).
    - destruct (sendResult e c net) as [[[[? ?] ?] ?]|] eqn:Eg; [|done]. cbn in E. simplify_eq.
      unfold sendResult in Eg. case_match.
      + destruct net as [|[| | | | |[]|] net]; try done; [|by simplify_eq].
        by rewrite (sendResults_throughput _ _ _ _ _ _ Eg).
      + destruct net as [|[| | | | | |n] net]; try done.
        rewrite (sendResults_throughput _ _ _ _ _ _ Eg). simpl. unfold clamp_throughput, CLIENT_JOB_LIMIT.
        destruct (n >? 1000) eqn:?; [lia|]. destruct (Z.ltb_spec n 1); lia.
    - destruct (destroy_JobClient c net) as [[[[? ?] ?] ?]|] eqn:Eg; [|done]. cbn in E. simplify_eq.
      by rewrite (sendResults_throughput _ _ _ _ _ _ Eg). }
  split; [done|]. simpl. apply u32_small. unfold CLIENT_JOB_LIMIT in Hb. lia.
Qed.
End client.

(** ** Concrete runs *)

Module JobClientDemo.

Definition client : JobClient nat := new_JobClient.

(** The server is found at the second try and announces three jobs, of which
    two arrive. *)
Definition announcement : FailControlMessage := mkCtrl WORK_FOLLOWS [4; 5; 6] 42 (Some 7) (Some 3).
Definition rest : list (NetEvent nat) := [Throughput 5000; Connected true; SentMsg true].
Definition script : list (NetEvent nat) :=
  [Resolved true; Connected false; Connected true; SentMsg true; RcvdControl (Some announcement);
   RcvdJob (Some 40%nat); RcvdJob (Some 50%nat); RcvdJob None] ++ rest.

Lemma client_gets_announced_jobs_witness :
  exists c2, get_params 2 client script = Some ([mkED 40%nat 4; mkED 50%nat 5], c2, rest).
Proof.
  destruct (client_gets_announced_jobs client script (upd_connection false true client) announcement
    [40%nat; 50%nat] (RcvdJob None :: rest) rest) as (c2 & E & _);
    [reflexivity..|discriminate|right; split; [simpl; lia|reflexivity]|].
  exists c2. exact E.
Defined.

(** Told to come again once, then to die. *)
Definition dying : list (NetEvent nat) :=
  [Resolved true; Connected true; SentMsg true; RcvdControl (Some (mkCtrl COME_AGAIN [] 42 (Some 7) None));
   Connected true; SentMsg true; RcvdControl (Some (mkCtrl DIE [] 42 (Some 7) None))].

Definition unreachable : list (NetEvent nat) :=
  [Resolved false; Resolved true; Connected false; Connected false; Connected false].

Lemma getParam_terminates_witness :
  (exists c out, getParam_loop 100 client dying = Ended (false, None, c, out, [])) /\
  exists c, getParam client unreachable = Ended (false, None, c, [], []).
Proof.
  split.
  - rewrite (proj1 (proj2 (getParam_terminates client dying eq_refl)) 100%nat) by (simpl; lia).
    eexists _, _. vm_compute. reflexivity.
  - destruct (getParam_terminates client unreachable eq_refl) as (_ & _ & _ & H).
    eexists. apply H; reflexivity.
Defined.

(** Two results, the second of which cannot be sent. *)
Definition reporting : JobClient nat := upd_results [mkED 40%nat 4; mkED 50%nat 5] client.


(** A job is fetched and its result sent back; the measurement says 5000. *)
Definition finished_client : JobClient nat :=
  mkJC 7 1000 0 [] [] false true.

Lemma job_request_bounded_witness :
  1 <= m_job_throughput finished_client <= CLIENT_JOB_LIMIT.
Proof.
  apply (job_request_bounded finished_client).
  eapply (creach_step (mkJC 7 1 0 [] [] false true) (SendResult (mkED 41%nat 4))
            [Throughput 5000; Connected true; SentMsg true; SentMsg true]); [|reflexivity].
  eapply (creach_step client GetParam
            [Resolved true; Connected true; SentMsg true;
             RcvdControl (Some (mkCtrl WORK_FOLLOWS [4] 42 (Some 7) (Some 1))); RcvdJob (Some 40%nat)]);
    [constructor|reflexivity].
Defined.
End JobClientDemo.
