(* ===== verification/MemoryMap.v ===== *)
(** * Memory maps

    [src/core/util/MemoryMap.{hpp,cc}]: a set of addresses with holes.  The
    class wraps [boost::icl::interval_set], third-party code that is an
    interface here: its operations and the laws the wrapper relies on. *)
From S2P Require Import Prelude Events.

(** A set of integers that is built from closed intervals. *)
Class IntervalSet (S : Type) := {
  is_empty : S;
  is_add : Z -> Z -> S -> S;
  is_intersects : Z -> Z -> S -> bool;
  is_elements : S -> list Z
}.

Class IntervalSetLaws (S : Type) `{IntervalSet S} := {
  is_empty_spec a : a ∉ is_elements (is_empty (S := S));
  is_add_spec lo hi s a : a ∈ is_elements (is_add lo hi s) <-> lo <= a <= hi \/ a ∈ is_elements s;
  is_intersects_spec lo hi s :
    is_intersects lo hi s = true <-> exists a, lo <= a <= hi /\ a ∈ is_elements s;
  is_elements_nodup s : NoDup (is_elements s)
}.

Section memory_map.
Context `{SalConfig} {S : Type} `{!IntervalSet S}.

Definition MemoryMap : Type := S.

Definition mm_clear (mm : MemoryMap) : MemoryMap := is_empty.

(** The upper bound of the range that starts at [addr]. *)
Definition range_end (addr size : Z) : Z := wrap addr_bits (addr + size - 1).

Definition mm_add (addr size : Z) (mm : MemoryMap) : MemoryMap := is_add addr (range_end addr size) mm.

Definition mm_isMatching (addr size : Z) (mm : MemoryMap) : bool :=
  is_intersects addr (range_end addr size) mm.

(** What [begin] and [end] enumerate. *)
Definition mm_addresses (mm : MemoryMap) : list Z := is_elements mm.

(** The parsed lines of a memory-map file are added one after another; an empty
    file fails an assertion. *)
Definition readFromFile (entries : list (Z * Z)) (mm : MemoryMap) : option MemoryMap :=
  match entries with
  | [] => None
  | _ => Some (fold_left (fun mm '(addr, len) => mm_add (wrap addr_bits (u32 addr)) (s32 (u32 len)) mm) entries mm)
  end.
End memory_map.

Section laws.
Context `{SalConfig} {S : Type} `{!IntervalSet S, !IntervalSetLaws S}.

Lemma range_end_small addr size :
  0 <= addr -> 0 < size -> addr + size <= 2 ^ addr_bits -> range_end addr size = addr + size - 1.
Proof. intros. apply wrap_small. unfold in_range. lia. Qed.

(** Matching a single byte is membership. *)
Lemma mm_isMatching_1 a (mm : S) :
  in_range addr_bits a -> mm_isMatching a 1 mm = true <-> a ∈ mm_addresses mm.
Proof.
  intros [? ?]. unfold mm_isMatching, mm_addresses.
  rewrite range_end_small, is_intersects_spec by lia. split.
  - intros (a' & Ha & Hin). by replace a with a' by lia.
  - intros Hin. exists a. split; [lia|done].
Qed.

Lemma elem_of_mm_add addr size (mm : S) a :
  0 <= addr -> 0 < size -> addr + size <= 2 ^ addr_bits ->
  a ∈ mm_addresses (mm_add addr size mm) <-> addr <= a < addr + size \/ a ∈ mm_addresses mm.
Proof.
  intros. unfold mm_add, mm_addresses. rewrite is_add_spec, range_end_small by done. split; intros [?|?]; auto; left; lia.
Qed.

Definition in_ranges (ranges : list (Z * Z)) (x : Z) : Prop :=
  exists a n, (a, n) ∈ ranges /\ a <= x < a + n.

Definition valid_ranges (ranges : list (Z * Z)) : Prop :=
  forall a n, (a, n) ∈ ranges -> 0 <= a /\ 0 < n /\ a + n <= 2 ^ addr_bits.

Definition add_ranges (ranges : list (Z * Z)) (mm : S) : S :=
  fold_left (fun mm '(a, n) => mm_add a n mm) ranges mm.

Lemma elem_of_add_ranges ranges : forall mm x,
  valid_ranges ranges ->
  x ∈ mm_addresses (add_ranges ranges mm) <-> in_ranges ranges x \/ x ∈ mm_addresses mm.
Proof.
  unfold in_ranges. induction ranges as [|[a n] ranges IH]; intros mm x Hr; simpl.
  - split; [by right|]. intros [(a & n & Hin & _)|?]; [set_solver|done].
  - rewrite IH by (intros a' n' ?; apply Hr; set_solver).
    rewrite elem_of_mm_add by (apply (Hr a n); set_solver). split.
    + intros [(a' & n' & Hin & ?)|[?|?]]; [left; exists a', n'; set_solver|left; exists a, n; set_solver|by right].
    + intros [(a' & n' & [[= -> ->]|Hin]%elem_of_cons & ?)|?]; [by right; left|left; eauto|by right; right].
Qed.

(** After any sequence of additions to an empty map an access of [size] bytes hits the
    map exactly if one of its bytes belongs to one of the added ranges, and iterating
    over the map yields every added address once. *)
Theorem memory_map_correct (ranges : list (Z * Z)) addr size :
  valid_ranges ranges -> 0 <= addr -> 0 < size -> addr + size <= 2 ^ addr_bits ->
  let mm := add_ranges ranges (mm_clear is_empty) in
  (mm_isMatching addr size mm = true <-> exists x, addr <= x < addr + size /\ in_ranges ranges x) /\
  (forall x, x ∈ mm_addresses mm <-> in_ranges ranges x) /\ NoDup (mm_addresses mm).
Proof.
  intros Hr Ha Hs Has mm.
  assert (forall x, x ∈ mm_addresses mm <-> in_ranges ranges x) as Hel.
  { intros x. unfold mm. rewrite elem_of_add_ranges by done. split; [|by left].
    intros [?|Hin]; [done|]. by apply is_empty_spec in Hin. }
  split_and!; [|done|apply is_elements_nodup].
  unfold mm_isMatching. rewrite range_end_small, is_intersects_spec by done. split.
  - intros (x & ? & Hin%Hel). exists x. split; [lia|done].
  - intros (x & ? & Hin%Hel). exists x. split; [lia|exact Hin].
Qed.
End laws.

(** ** An instance

    Duplicate-free lists of addresses satisfy the interface. *)
Module ListSet.

#[export] Instance list_interval_set : IntervalSet (list Z) := {
  is_empty := [];
  is_add lo hi s := list_union (seqZ lo (hi - lo + 1)) s;
  is_intersects lo hi s := bool_decide (Exists (fun a => lo <= a <= hi) s);
  is_elements s := remove_dups s
}.

#[export] Instance list_interval_set_laws : IntervalSetLaws (list Z).
Proof.
  split; simpl.
  - intros a. simpl. set_solver.
  - intros lo hi s a. rewrite !elem_of_remove_dups, list_elem_of_union, elem_of_seqZ. split; intros [?|?]; auto; left; lia.
  - intros lo hi s. rewrite bool_decide_eq_true, Exists_exists. split.
    + intros (a & Hin & ?). exists a. by rewrite elem_of_remove_dups.
    + intros (a & ? & Hin). exists a. by rewrite elem_of_remove_dups in Hin.
  - intros s. apply NoDup_remove_dups.
Qed.

(** Two ranges; an access that ends in the second one. *)
Lemma memory_map_correct_witness :
  let mm := add_ranges (H := sal_32) [(10, 4); (20, 2)] (mm_clear []) in
  mm_isMatching (H := sal_32) 18 4 mm = true.
Proof.
  destruct (memory_map_correct (H := sal_32) (S := list Z) [(10, 4); (20, 2)] 18 4) as [Hm _].
  - intros a n. rewrite !elem_of_cons. intros [[= -> ->]|[[= -> ->]|?]]; [..|set_solver]; simpl; lia.
  - lia.
  - lia.
  - simpl. lia.
  - apply Hm. exists 20. split; [lia|]. exists 20, 2. split; [set_solver|lia].
Defined.
End ListSet.
