(* ===== verification/Importer.v ===== *)
(** * Trace import: equivalence classes of the fault space

    [tools/import-trace/Importer.{hpp,cc}] and [MemoryImporter.cc].  An
    execution trace is turned into rows of the database's trace table.  A row
    stands for a class of equivalent fault locations: one byte of memory and
    the interval of dynamic instructions (and of time) that ends with the next
    access to that byte.

    The table is the list of inserted rows; whether the database accepts a row
    is a parameter.  [Importer]'s virtual functions are the class
    [ImporterHooks], of which [MemoryImporter] is an instance; the other
    importers are in [Importers] and [AdvancedImporter].  Operations return [None]
    when an assertion fails or an exception is not caught. *)
From S2P Require Import Prelude Events MemoryMap SyncContainers.

(** ** Trace events ([comm/TracePlugin.proto]) *)

Inductive AccessType := READ | WRITE.

#[export] Instance AccessType_eq_dec : EqDecision AccessType.
Proof. solve_decision. Defined.

Record Trace_Event_Extended := mkExt {
  ext_data : Z;
  ext_registers : list (Z * option Z * option Z)     (** id, value, value_deref *)
}.

Record Trace_Event := mkTE {
  te_ip : Z;
  te_time_delta : option Z;
  te_memaddr : option Z;
  te_width : Z;
  te_accesstype : AccessType;
  te_trace_ext : option Trace_Event_Extended
}.

(** ** The importer *)

Record margin_info_t := mkMargin { dyninstr : Z; mi_ip : Z; mi_time : Z }.
Record access_info_t := mkAccess { access_type : AccessType; data_address : Z; data_width : Z }.

Definition no_margin : margin_info_t := mkMargin 0 0 0.

(** A row of the trace table. *)
Record Row := mkRow {
  variant_id : Z;
  instr1 : Z;
  instr1_absolute : option Z;
  instr2 : Z;
  instr2_absolute : option Z;
  time1 : Z;
  time2 : Z;
  row_address : Z;
  row_width : Z;
  row_access : AccessType;
  row_ext : option (Z * list (option Z * option Z));
  row_columns : list (option Z)                       (** of derived importers *)
}.

(** Options ([set_*]) and state. *)
Record Options (S : Type) := mkOptions {
  m_variant_id : Z;
  m_mm : option S;
  m_faultspace_rightmargin : AccessType;
  m_sanitychecks : bool;
  m_import_write_ecs : bool;
  m_extended_trace : bool;
  m_extended_trace_regs : list Z
}.
Arguments mkOptions {S}.
Arguments m_variant_id {S}.
Arguments m_mm {S}.
Arguments m_faultspace_rightmargin {S}.
Arguments m_sanitychecks {S}.
Arguments m_import_write_ecs {S}.
Arguments m_extended_trace {S}.
Arguments m_extended_trace_regs {S}.

(** Members of derived importers: [AdvancedMemoryImporter]'s and the rows of
    [FullTraceImporter]'s own table. *)
Record DelayedTraceEntry := mkDelayed {
  d_curtime : Z;
  d_instr : Z;
  d_ev : Trace_Event;
  d_opcode : Z;
  branches_before : Z
}.

Record Derived := mkDerived {
  has_disas : bool;                                   (** [disas] is set *)
  m_last_was_conditional_branch : bool;
  m_ip_jump_not_taken : Z;
  branches_taken : list bool;
  delayed_entries : list DelayedTraceEntry;
  m_cur_branchmask : Z;
  fulltrace : list (Z * Z * Z)
}.

Definition new_Derived : Derived := mkDerived false false 0 [] [] 0 [].

Record Importer := mkImporter {
  trace : list Row;
  m_row_count : Z;
  m_time_trace_start : Z;
  m_open_ecs : list (Z * margin_info_t);        (** a [std::map], in address order *)
  m_last_ip : Z;
  m_last_instr : Z;
  m_last_time : Z;
  derived : Derived
}.

Definition new_Importer : Importer := mkImporter [] 0 0 [] 0 0 0 new_Derived.

Definition upd_trace (rows : list Row) (count : Z) (s : Importer) : Importer :=
  mkImporter rows count (m_time_trace_start s) (m_open_ecs s) (m_last_ip s) (m_last_instr s)
    (m_last_time s) (derived s).
Definition upd_open_ecs (ecs : list (Z * margin_info_t)) (s : Importer) : Importer :=
  mkImporter (trace s) (m_row_count s) (m_time_trace_start s) ecs (m_last_ip s) (m_last_instr s)
    (m_last_time s) (derived s).
Definition upd_trace_start (t : Z) (s : Importer) : Importer :=
  mkImporter (trace s) (m_row_count s) t (m_open_ecs s) (m_last_ip s) (m_last_instr s)
    (m_last_time s) (derived s).
Definition upd_last (ip instr time : Z) (s : Importer) : Importer :=
  mkImporter (trace s) (m_row_count s) (m_time_trace_start s) (m_open_ecs s) ip instr time (derived s).
Definition upd_derived (d : Derived) (s : Importer) : Importer :=
  mkImporter (trace s) (m_row_count s) (m_time_trace_start s) (m_open_ecs s) (m_last_ip s) (m_last_instr s)
    (m_last_time s) d.

(** [m[k] = v] on a [std::map]. *)
Fixpoint map_set {V} (k : Z) (v : V) (l : list (Z * V)) : list (Z * V) :=
  match l with
  | [] => [(k, v)]
  | (k', v') :: rest =>
      if k =? k' then (k, v) :: rest
      else if k <? k' then (k, v) :: l
      else (k', v') :: map_set k v rest
  end.

(** [m_open_ecs[data_address]] creates a missing entry; a time of 0 is
    replaced in the result only. *)
Definition getOpenEC (a : Z) (s : Importer) : margin_info_t * Importer :=
  let '(ec, s1) := match map_find a (m_open_ecs s) with
                   | Some ec => (ec, s)
                   | None => (no_margin, upd_open_ecs (map_set a no_margin (m_open_ecs s)) s)
                   end in
  (mkMargin (dyninstr ec) (mi_ip ec)
     (if mi_time ec =? 0 then m_time_trace_start s1 else mi_time ec), s1).

Definition newOpenEC (a time instr ip : Z) (s : Importer) : Importer :=
  upd_open_ecs (map_set a (mkMargin instr ip time) (m_open_ecs s)) s.

(** The values an extended row carries for the traced registers: the last
    record of a register counts. *)
Definition register_value (id : Z) (regs : list (Z * option Z * option Z)) : option Z * option Z :=
  match list_find (fun r => r.1.1 = id) (rev regs) with
  | Some (_, (_, v, d)) => (u32 <$> v, u32 <$> d)
  | None => (None, None)
  end.

(** ** Sanity checks

    The queries [copy_to_database] ends with, for the interval [lo, hi] of a
    row (instructions or time).  Each lists offenders; a check passes when
    there are none. *)

Section sanity.
Context (lo hi : Row -> Z).

Definition min_of (f : Row -> Z) (rows : list Row) : Z :=
  match rows with [] => 0 | r :: rest => fold_left (fun m r => Z.min m (f r)) rest (f r) end.
Definition max_of (f : Row -> Z) (rows : list Row) : Z :=
  match rows with [] => 0 | r :: rest => fold_left (fun m r => Z.max m (f r)) rest (f r) end.
Definition sum_of (f : Row -> Z) (rows : list Row) : Z := foldr (fun r n => f r + n) 0 rows.

Definition rows_at (a : Z) (rows : list Row) : list Row := filter (fun r => row_address r = a) rows.

(** The pairs of rows that overlap; the second disjunct of the first line
    compares a column with itself, as the query does. *)
Definition overlaps (rows : list Row) : list (Row * Row) :=
  filter (fun '(t1, t2) =>
    row_address t1 = row_address t2 /\
    (lo t1 <> lo t2 \/ hi t2 <> hi t2) /\
    ((lo t2 <= lo t1 /\ lo t1 <= hi t2) \/ (lo t2 <= hi t1 /\ hi t1 <= hi t2) \/
     (lo t1 < lo t2 /\ hi t2 < hi t1)))
    (t1 ← rows; t2 ← rows; [(t1, t2)]).

(** The addresses whose intervals do not add up to the width of the table. *)
Definition uncovered (rows : list Row) : list Z :=
  filter (fun a => (max_of hi rows - min_of lo rows + 1)
                   - sum_of (fun r => hi r - lo r + 1) (rows_at a rows) <> 0)
    (row_address <$> rows).

(** The addresses whose extent differs from that of the table. *)
Definition ragged (rows : list Row) : list Z :=
  filter (fun a => min_of lo (rows_at a rows) <> min_of lo rows \/
                   max_of hi (rows_at a rows) <> max_of hi rows)
    (row_address <$> rows).

Definition sanity_ok (rows : list Row) : bool :=
  bool_decide (overlaps rows = []) && bool_decide (uncovered rows = []) &&
  bool_decide (ragged rows = []).
End sanity.

Definition sanitychecks (rows : list Row) : bool :=
  sanity_ok instr1 instr2 rows && sanity_ok time1 time2 rows.

Section importer.
Context `{SalConfig} {S : Type} `{!IntervalSet S}.
(** [Database::insert_multiple] succeeds for this row. *)
Context (accepts : Row -> bool).
Implicit Type (opt : Options S).

Definition row_of opt (b e : margin_info_t) (ev : Trace_Event) (is_fake : bool) (columns : list (option Z)) : Row :=
  mkRow (m_variant_id opt)
    (dyninstr b) (if (mi_ip b =? 0) || is_fake then None else Some (mi_ip b))
    (dyninstr e) (if (mi_ip e =? 0) || is_fake then None else Some (mi_ip e))
    (mi_time b) (mi_time e)
    (u32 (default 0 (te_memaddr ev))) 1 (te_accesstype ev)
    (match te_trace_ext ev with
     | Some x =>
         if m_extended_trace opt
         then Some (u32 (ext_data x), (fun id => register_value id (ext_registers x)) <$> m_extended_trace_regs opt)
         else None
     | None => None
     end) columns.

(** The types of [database_insert_data] and [add_trace_event]. *)
Definition InsertData : Type := Trace_Event -> bool -> Importer -> option (list (option Z)).
Definition AddEvent : Type :=
  Options S -> margin_info_t -> margin_info_t -> Trace_Event -> bool -> Importer -> option (bool * Importer).

Definition no_columns : InsertData := fun _ _ _ => Some [].

Definition add_trace_event (database_insert_data : InsertData) : AddEvent := fun opt b e ev is_fake s =>
  if negb (m_import_write_ecs opt) && bool_decide (te_accesstype ev = WRITE) then Some (true, s)
  else
    columns ← database_insert_data ev is_fake s;
    let row := row_of opt b e ev is_fake columns in
    if accepts row then Some (true, upd_trace (trace s ++ [row]) (u32 (m_row_count s + 1)) s)
    else Some (false, s).

(** The variant that takes an [access_info_t]. *)
Definition add_access (add : AddEvent) opt (b e : margin_info_t) (acc : access_info_t) (is_fake : bool) (s : Importer)
    : option (bool * Importer) :=
  add opt b e (mkTE (mi_ip e) None (Some (data_address acc)) (data_width acc) (access_type acc) None) is_fake s.

Definition open_if_unused (s : Importer) (a : Z) : Importer :=
  match map_find a (m_open_ecs s) with
  | None => newOpenEC a (m_time_trace_start s) 0 0 s
  | Some _ => s
  end.

Definition open_unused_ec_intervals opt (s : Importer) : Importer :=
  match m_mm opt with
  | Some mm => fold_left open_if_unused (mm_addresses mm) s
  | None => s
  end.

(** The loop over the open intervals. *)
Fixpoint close_loop (add : AddEvent) opt (ecs : list (Z * margin_info_t)) (s : Importer) : option (bool * Importer) :=
  match ecs with
  | [] => Some (true, s)
  | (a, left_margin) :: ecs =>
      let access := mkAccess (m_faultspace_rightmargin opt) a 1 in
      let right_margin := mkMargin (m_last_instr s) (m_last_ip s) (m_last_time s) in
      if dyninstr left_margin >? dyninstr right_margin then close_loop add opt ecs s
      else
        '(ok, s1) ← add_access add opt left_margin right_margin access true s;
        if ok : bool then close_loop add opt ecs s1 else Some (false, s1)
  end.

Definition close_ec_intervals (add : AddEvent) opt (s : Importer) : option (bool * Importer) :=
  close_loop add opt (m_open_ecs s) s.

(** ** The virtual functions *)

Class ImporterHooks := {
  v_add_trace_event : AddEvent;
  v_open_unused_ec_intervals : Options S -> Importer -> Importer;
  handle_ip_event : Options S -> Z -> Z -> Trace_Event -> Importer -> option (bool * Importer);
  handle_mem_event : Options S -> Z -> Z -> Trace_Event -> Importer -> option (bool * Importer);
  trace_end_reached : Options S -> Importer -> option (bool * Importer)
}.

(** *** MemoryImporter *)

(** The loop over the accessed bytes; [n] of them are left. *)
Fixpoint mem_loop (add : AddEvent) opt (curtime instr : Z) (ev : Trace_Event) (a : Z) (n : nat) (s : Importer)
    : option (bool * Importer) :=
  match n with
  | O => Some (true, s)
  | Datatypes.S n =>
      let next := mem_loop add opt curtime instr ev (wrap addr_bits (a + 1)) n in
      if match m_mm opt with Some mm => negb (mm_isMatching a 1 mm) | None => false end then next s
      else
        let '(left_margin, s1) := getOpenEC a s in
        let right_margin := mkMargin instr (te_ip ev) curtime in
        if dyninstr left_margin >? dyninstr right_margin then next s1
        else
          let ev1 := mkTE (te_ip ev) (te_time_delta ev) (Some a) 1 (te_accesstype ev) (te_trace_ext ev) in
          '(ok, s2) ← add opt left_margin right_margin ev1 false s1;
          if ok : bool then next (newOpenEC a (u64 (curtime + 1)) (u32 (instr + 1)) (te_ip ev) s2)
          else Some (false, s2)
  end.

Definition MemoryImporter_handle_mem_event (add : AddEvent) opt (curtime instr : Z) (ev : Trace_Event) (s : Importer)
    : option (bool * Importer) :=
  let memaddr := default 0 (te_memaddr ev) in
  let from := wrap addr_bits memaddr in
  let to := wrap addr_bits (u64 (memaddr + te_width ev)) in
  mem_loop add opt curtime instr ev from (Z.to_nat (to - from)) s.

Definition MemoryImporter : ImporterHooks := {|
  v_add_trace_event := add_trace_event no_columns;
  v_open_unused_ec_intervals := open_unused_ec_intervals;
  handle_ip_event opt curtime instr ev s := Some (true, s);
  handle_mem_event := MemoryImporter_handle_mem_event (add_trace_event no_columns);
  trace_end_reached opt s := Some (true, s)
|}.

(** ** The import loop *)

Section copy.
Context {hooks : ImporterHooks}.

Record Loop := mkLoop { curtime : Z; instr : Z; instr_memaccess : Z; last_ev : Trace_Event }.

(** One event.  [None] is a failed assertion, [Some (false, _)] an error return. *)
Definition import_event opt (ev : Trace_Event) (l : Loop) (s : Importer) : option (bool * Loop * Importer) :=
  '(ct, s1) ← match te_time_delta ev with
              | Some d =>
                  if d >=? 0 then
                    Some (u64 (curtime l + d),
                          if m_time_trace_start s =? 0 then upd_trace_start (u64 d) s else s)
                  else None
              | None => Some (curtime l, s)
              end;
  match te_memaddr ev with
  | None =>
      if instr l =? 2 ^ 32 - 1 then Some (false, l, s1)
      else
        '(ok, s2) ← handle_ip_event opt ct (instr l) ev s1;
        if ok : bool then Some (true, mkLoop ct (u32 (instr l + 1)) (instr l) ev, s2)
        else Some (false, l, s2)
  | Some _ =>
      '(ok, s2) ← handle_mem_event opt ct (instr_memaccess l) ev s1;
      if ok : bool then Some (true, mkLoop ct (instr l) (instr_memaccess l) ev, s2)
      else Some (false, l, s2)
  end.

Fixpoint import_events opt (evs : list Trace_Event) (l : Loop) (s : Importer)
    : option (bool * Loop * Importer) :=
  match evs with
  | [] => Some (true, l, s)
  | ev :: evs =>
      '(ok, l1, s1) ← import_event opt ev l s;
      if ok : bool then import_events opt evs l1 s1 else Some (false, l1, s1)
  end.

Definition no_event : Trace_Event := mkTE 0 None None 0 READ None.

(** [None]: failed assertion.  The table holds this variant's rows only. *)
Definition copy_to_database opt (evs : list Trace_Event) (s : Importer) : option (bool * Importer) :=
  '(ok, l, s1) ← import_events opt evs (mkLoop 0 0 0 no_event) s;
  if negb ok then Some (false, s1)
  else
    '(ok, s2) ← trace_end_reached opt s1;
    if negb ok then Some (false, s2)
    else
      let s3 := upd_last (te_ip (last_ev l)) (u32 (instr l - 1)) (curtime l) s2 in
      let s4 := v_open_unused_ec_intervals opt s3 in
      '(ok, s5) ← close_ec_intervals v_add_trace_event opt s4;
      if negb ok then Some (false, s5)
      else if m_sanitychecks opt && negb (sanitychecks (trace s5)) then Some (false, s5)
      else Some (true, s5).
End copy.
End importer.
