(* ===== verification/ImporterTheorems.v ===== *)
(** * Correctness of the trace import

    The rows of one address form a chain of adjacent intervals; what follows
    from that for the whole table, and that [MemoryImporter] establishes it. *)
From S2P Require Import Prelude Events MemoryMap SyncContainers Importer.

(** ** Chains of intervals *)

Section chains.
Context (lo hi : Row -> Z).

(** Adjacent, non-empty intervals that cover [s, e]. *)
Fixpoint chain (s e : Z) (rows : list Row) : Prop :=
  match rows with
  | [] => e = s - 1
  | r :: rest => lo r = s /\ s <= hi r /\ chain (hi r + 1) e rest
  end.

Lemma chain_snoc rows : forall s e r,
  chain s e (rows ++ [r]) <-> chain s (lo r - 1) rows /\ lo r <= hi r /\ e = hi r.
Proof.
  induction rows as [|r' rows IH]; intros s e r; simpl.
  - split; [intros (? & ? & ?)|intros (? & ? & ?)]; lia.
  - rewrite IH. tauto.
Qed.

Lemma chain_bounds rows : forall s e r,
  chain s e rows -> r ∈ rows -> s <= lo r /\ lo r <= hi r /\ hi r <= e.
Proof.
  assert (forall rows s e, chain s e rows -> s - 1 <= e) as Hle.
  { intros l. induction l as [|r' l IH]; simpl; [intros; lia|]. intros s e (? & ? & Hc). apply IH in Hc. lia. }
  induction rows as [|r' rows IH]; intros s e r Hc Hin; [set_solver|]. simpl in Hc.
  destruct Hc as (Hlo & Hle' & Hc). apply elem_of_cons in Hin as [->|Hin].
  - apply Hle in Hc. lia.
  - destruct (IH _ _ _ Hc Hin). lia.
Qed.

Definition covers (x : Z) (r : Row) : Prop := lo r <= x <= hi r.

#[export] Instance covers_dec x r : Decision (covers x r).
Proof. unfold covers. apply _. Defined.

(** Every point is in exactly one interval. *)
Lemma chain_covers rows : forall s e x,
  chain s e rows -> s <= x <= e -> exists r, filter (covers x) rows = [r].
Proof.
  induction rows as [|r rows IH]; intros s e x Hc Hx; simpl in Hc; [lia|].
  destruct Hc as (Hlo & Hle & Hc). destruct (decide (covers x r)) as [Hcov|Hn].
  - exists r. rewrite filter_cons_True by done. f_equal. apply list_filter_none.
    intros r' Hin [? ?]. unfold covers in Hcov. destruct (chain_bounds _ _ _ _ Hc Hin). lia.
  - rewrite filter_cons_False by done. apply (IH _ e _ Hc). unfold covers in Hn. lia.
Qed.

Lemma chain_sum rows : forall s e,
  chain s e rows -> sum_of (fun r => hi r - lo r + 1) rows = e - s + 1.
Proof.
  induction rows as [|r rows IH]; intros s e Hc; simpl in *; [lia|].
  destruct Hc as (? & ? & Hc). unfold sum_of in *. simpl. rewrite (IH _ _ Hc). lia.
Qed.

Lemma chain_disjoint rows : forall s e r1 r2,
  chain s e rows -> r1 ∈ rows -> r2 ∈ rows -> lo r1 <> lo r2 -> hi r1 < lo r2 \/ hi r2 < lo r1.
Proof.
  induction rows as [|r rows IH]; intros s e r1 r2 Hc H1 H2 Hne; [set_solver|].
  simpl in Hc. destruct Hc as (Hlo & Hle & Hc).
  apply elem_of_cons in H1 as [->|H1]; apply elem_of_cons in H2 as [->|H2]; [done|..|by eapply IH].
  - destruct (chain_bounds _ _ _ _ Hc H2). lia.
  - destruct (chain_bounds _ _ _ _ Hc H1). lia.
Qed.

Lemma min_of_spec (f : Row -> Z) rows m :
  rows ≠ [] -> (forall r, r ∈ rows -> m <= f r) -> (exists r, r ∈ rows /\ f r = m) -> min_of f rows = m.
Proof.
  destruct rows as [|r0 rows]; [done|]. intros _ Hall (r & Hin & Hr). unfold min_of.
  assert (forall l n, (forall r, r ∈ l -> m <= f r) -> m <= n -> (n = m \/ exists r, r ∈ l /\ f r = m) ->
    fold_left (fun m r => Z.min m (f r)) l n = m) as Hfold.
  { clear. intros l. induction l as [|r l IH]; intros n Hl Hn Hex; simpl.
    - destruct Hex as [?|(r & Hin & _)]; [done|set_solver].
    - pose proof (Hl r ltac:(set_solver)). apply IH; [set_solver|lia|].
      destruct Hex as [->|(r' & [->|Hin]%elem_of_cons & Hr)]; [left; lia|left; lia|by right; exists r']. }
  apply Hfold; [set_solver|apply Hall; set_solver|].
  apply elem_of_cons in Hin as [->|Hin]; [by left|right; eauto].
Qed.

Lemma max_of_spec (f : Row -> Z) rows m :
  rows ≠ [] -> (forall r, r ∈ rows -> f r <= m) -> (exists r, r ∈ rows /\ f r = m) -> max_of f rows = m.
Proof.
  destruct rows as [|r0 rows]; [done|]. intros _ Hall (r & Hin & Hr). unfold max_of.
  assert (forall l n, (forall r, r ∈ l -> f r <= m) -> n <= m -> (n = m \/ exists r, r ∈ l /\ f r = m) ->
    fold_left (fun m r => Z.max m (f r)) l n = m) as Hfold.
  { clear. intros l. induction l as [|r l IH]; intros n Hl Hn Hex; simpl.
    - destruct Hex as [?|(r & Hin & _)]; [done|set_solver].
    - pose proof (Hl r ltac:(set_solver)). apply IH; [set_solver|lia|].
      destruct Hex as [->|(r' & [->|Hin]%elem_of_cons & Hr)]; [left; lia|left; lia|by right; exists r']. }
  apply Hfold; [set_solver|apply Hall; set_solver|].
  apply elem_of_cons in Hin as [->|Hin]; [by left|right; eauto].
Qed.

Lemma chain_ends rows s e :
  chain s e rows -> s <= e ->
  rows ≠ [] /\ (exists r, r ∈ rows /\ lo r = s) /\ (exists r, r ∈ rows /\ hi r = e).
Proof.
  intros Hc Hse. destruct rows as [|r rows] using rev_ind; [simpl in Hc; lia|]. clear IHrows.
  split; [by destruct rows|]. split.
  - destruct rows as [|r' rows]; simpl in Hc; destruct Hc as (? & _); [exists r|exists r']; set_solver.
  - apply chain_snoc in Hc as (_ & _ & ->). exists r. set_solver.
Qed.

(** A table whose addresses all have a chain over the same range passes the
    three checks. *)
Lemma chains_sanity_ok rows s e :
  s <= e -> (forall r, r ∈ rows -> chain s e (rows_at (row_address r) rows)) ->
  sanity_ok lo hi rows = true.
Proof.
  intros Hse Hc. unfold sanity_ok.
  assert (forall r, r ∈ rows -> r ∈ rows_at (row_address r) rows) as Hat.
  { intros r Hr. by apply list_elem_of_filter. }
  assert (forall r, r ∈ rows -> s <= lo r /\ lo r <= hi r /\ hi r <= e) as Hb.
  { intros r Hr. eapply chain_bounds; eauto. }
  assert (forall r, r ∈ rows -> min_of lo rows = s /\ max_of hi rows = e /\
    min_of lo (rows_at (row_address r) rows) = s /\ max_of hi (rows_at (row_address r) rows) = e) as Hmm.
  { intros r Hr. destruct (chain_ends _ _ _ (Hc r Hr) Hse) as (Hne & (r1 & H1 & ?) & (r2 & H2 & ?)).
    assert (forall r', r' ∈ rows_at (row_address r) rows -> r' ∈ rows) as Hsub
      by (intros r' Hin; by apply list_elem_of_filter in Hin as [_ ?]).
    assert (rows ≠ []) by (intros ->; set_solver).
    split_and!; [apply min_of_spec|apply max_of_spec|apply min_of_spec|apply max_of_spec];
      try done; try (intros r' Hin; try apply Hsub in Hin; apply Hb in Hin; lia); eauto. }
  rewrite !andb_true_iff, !bool_decide_eq_true. split_and!.
  - apply list_filter_none. intros [t1 t2] Hin (Ha & Hne & Hov).
    apply list_elem_of_bind in Hin as (t1' & Hin & H1). apply list_elem_of_bind in Hin as (t2' & Hin & H2).
    apply list_elem_of_singleton in Hin as [= -> ->].
    destruct Hne as [Hne|]; [|done]. pose proof (Hat _ H1) as H1'. pose proof (Hat _ H2) as H2'. rewrite <- Ha in H2'.
    pose proof (Hb _ H1). pose proof (Hb _ H2).
    destruct (chain_disjoint _ _ _ _ _ (Hc _ H1) H1' H2' Hne); lia.
  - apply list_filter_none. intros a Hin Hn. apply list_elem_of_fmap in Hin as (r & -> & Hr).
    destruct (Hmm r Hr) as (E1 & E2 & _). rewrite E1, E2, (chain_sum _ _ _ (Hc r Hr)) in Hn. lia.
  - apply list_filter_none. intros a Hin Hn. apply list_elem_of_fmap in Hin as (r & -> & Hr).
    destruct (Hmm r Hr) as (? & ? & ? & ?). lia.
Qed.
End chains.

(** ** The map of open intervals *)

Section std_map.
Context {V : Type}.
Implicit Type l : list (Z * V).

Lemma map_find_set k v l k' : map_find k' (map_set k v l) = if k' =? k then Some v else map_find k' l.
Proof.
  induction l as [|[k0 v0] l IH]; simpl; [by destruct (k' =? k)|].
  destruct (Z.eqb_spec k k0) as [->|]; simpl; [by destruct (k' =? k0)|].
  destruct (k <? k0); simpl; [by destruct (k' =? k)|]. rewrite IH.
  destruct (Z.eqb_spec k' k0), (Z.eqb_spec k' k); congruence.
Qed.

Lemma elem_of_map_set_keys k v l a : a ∈ (map_set k v l).*1 <-> a = k \/ a ∈ l.*1.
Proof.
  induction l as [|[k0 v0] l IH]; simpl; [set_solver|].
  destruct (Z.eqb_spec k k0) as [->|]; simpl; [set_solver|].
  destruct (k <? k0); simpl; [set_solver|]. rewrite !elem_of_cons, IH. tauto.
Qed.

Lemma map_set_sorted k v l : StronglySorted Z.lt l.*1 -> StronglySorted Z.lt (map_set k v l).*1.
Proof.
  induction l as [|[k0 v0] l IH]; simpl; intros Hs; [repeat constructor|].
  apply StronglySorted_inv in Hs as [Hs Hall].
  destruct (Z.eqb_spec k k0) as [->|Hne]; simpl; [by constructor|].
  destruct (Z.ltb_spec k k0) as [Hlt|Hge]; simpl.
  - constructor; [by constructor|]. constructor; [done|]. eapply Forall_impl; [exact Hall|]. simpl. lia.
  - constructor; [by apply IH|]. rewrite Forall_forall in Hall |- *. intros a Ha%elem_of_map_set_keys.
    destruct Ha as [->|Ha]; [lia|by apply Hall].
Qed.

Lemma sorted_nodup (l : list Z) : StronglySorted Z.lt l -> NoDup l.
Proof.
  induction 1 as [|a l Hs IH Hall]; constructor; [|done].
  intros Hin. rewrite Forall_forall in Hall. apply Hall in Hin. lia.
Qed.

Lemma map_find_Some_key k v l : map_find k l = Some v -> k ∈ l.*1.
Proof. intros Hf. apply map_find_elem in Hf. apply list_elem_of_fmap. by exists (k, v). Qed.

Lemma map_find_nodup k v l : NoDup l.*1 -> (k, v) ∈ l -> map_find k l = Some v.
Proof.
  induction l as [|[k0 v0] l IH]; simpl; intros Hnd Hin; [set_solver|].
  apply NoDup_cons in Hnd as [Hni Hnd]. apply elem_of_cons in Hin as [[= -> ->]|Hin]; [by rewrite Z.eqb_refl|].
  destruct (Z.eqb_spec k k0) as [->|]; [|by apply IH].
  destruct Hni. apply list_elem_of_fmap. by exists (k0, v).
Qed.
End std_map.

Lemma rows_at_snoc a rows r :
  rows_at a (rows ++ [r]) = if bool_decide (row_address r = a) then rows_at a rows ++ [r] else rows_at a rows.
Proof.
  unfold rows_at. rewrite filter_app. case_bool_decide.
  - by rewrite filter_cons_True.
  - rewrite filter_cons_False by done. by rewrite filter_nil, app_nil_r.
Qed.

(** ** The invariant of the import *)

Section import.
Context `{SalConfig} {S : Type} `{!IntervalSet S, !IntervalSetLaws S}.
Context (accepts : Row -> bool) (opt : Options S).

(** The byte at [a] belongs to the fault space to be imported. *)
Definition hit (a : Z) : bool :=
  match m_mm opt with Some mm => mm_isMatching a 1 mm | None => true end.

(** The instruction the open interval of [a] starts with. *)
Definition open_at (a : Z) (s : Importer) : Z := from_option dyninstr 0 (map_find a (m_open_ecs s)).

(** [acc]: the accesses so far, as pairs of dynamic instruction and address.
    The rows of [a] end with accesses to it and contain no other access; the
    open interval begins after the last access. *)
Record addr_inv (acc : list (Z * Z)) (a : Z) (rows : list Row) (o : Z) : Prop := mkAddrInv {
  ai_nonneg : 0 <= o;
  ai_before : forall i, (i, a) ∈ acc -> i < o;
  ai_last : o = 0 \/ (o - 1, a) ∈ acc;
  ai_chain : chain instr1 instr2 0 (o - 1) rows;
  ai_rows : forall r, r ∈ rows ->
    (instr2 r, a) ∈ acc /\ forall i, instr1 r <= i < instr2 r -> (i, a) ∉ acc
}.

(** With [timed], instruction [i] ends at time [T i]. *)
Context (timed : Prop) (T : Z -> Z).

Definition left_time (i : Z) : Z := if i =? 0 then T 0 else T (i - 1) + 1.

Record iinv (acc : list (Z * Z)) (s : Importer) : Prop := mkIinv {
  ii_sorted : StronglySorted Z.lt (m_open_ecs s).*1;
  ii_keys : forall a, a ∈ (m_open_ecs s).*1 <-> exists i, (i, a) ∈ acc;
  ii_rows : forall r, r ∈ trace s -> row_address r ∈ (m_open_ecs s).*1;
  ii_range : forall i a, (i, a) ∈ acc -> 0 <= i /\ 0 <= a < 2 ^ 32;
  ii_addr : forall a, addr_inv acc a (rows_at a (trace s)) (open_at a s);
  ii_time_rows : timed -> forall r, r ∈ trace s ->
    time2 r = T (instr2 r) /\ time1 r = left_time (instr1 r);
  ii_time_open : timed -> forall a ec, map_find a (m_open_ecs s) = Some ec ->
    mi_time ec = if dyninstr ec =? 0 then 0 else T (dyninstr ec - 1) + 1
}.

(** An access at instruction [m], after all others. *)
Lemma addr_inv_other acc a rows o m b :
  a ≠ b -> addr_inv acc a rows o -> addr_inv (acc ++ [(m, b)]) a rows o.
Proof.
  intros Hne [? Hb Hl ? Hr].
  assert (forall i, (i, a) ∈ acc ++ [(m, b)] <-> (i, a) ∈ acc) as Hiff.
  { intros i. rewrite elem_of_app, list_elem_of_singleton. split; [|by left].
    intros [?|?]; [done|simplify_eq]. }
  split; [done|intros i; rewrite Hiff; apply Hb|by rewrite Hiff|done|].
  intros r Hin. rewrite Hiff. destruct (Hr r Hin) as [? Hn]. split; [done|]. intros i Hi. rewrite Hiff. by apply Hn.
Qed.

Lemma addr_inv_again acc a rows o m :
  (forall i, (i, a) ∈ acc -> i <= m) -> m < o ->
  addr_inv acc a rows o -> 0 <= m -> addr_inv (acc ++ [(m, a)]) a rows o.
Proof.
  intros Hm Hlt [? Hb Hl ? Hr] Hm0. assert ((m, a) ∈ acc) as Hin.
  { destruct Hl as [->|Hl]; [lia|]. by replace m with (o - 1) by (apply Hm in Hl; lia). }
  assert (forall i, (i, a) ∈ acc ++ [(m, a)] <-> (i, a) ∈ acc) as Hiff.
  { intros i. rewrite elem_of_app, list_elem_of_singleton. split; [|by left].
    intros [?|?]; [done|by simplify_eq]. }
  split; [done|intros i; rewrite Hiff; apply Hb|by rewrite Hiff|done|].
  intros r Hin'. rewrite Hiff. destruct (Hr r Hin') as [? Hn]. split; [done|]. intros i Hi. rewrite Hiff. by apply Hn.
Qed.

Lemma addr_inv_new acc a rows o m r :
  o <= m -> addr_inv acc a rows o -> instr1 r = o -> instr2 r = m ->
  addr_inv (acc ++ [(m, a)]) a (rows ++ [r]) (m + 1).
Proof.
  intros Hle [? Hb Hl Hc Hr] E1 E2. split.
  - lia.
  - intros i. rewrite elem_of_app, list_elem_of_singleton. intros [Hin|[= ->]]; [apply Hb in Hin|]; lia.
  - right. replace (m + 1 - 1) with m by lia. set_solver.
  - apply chain_snoc. rewrite E1, E2. split_and!; [done|lia|lia].
  - intros r'. rewrite elem_of_app, list_elem_of_singleton. intros [Hin| ->].
    + destruct (Hr r' Hin) as [Hi Hn]. split; [set_solver|]. intros i Hi'.
      rewrite elem_of_app, list_elem_of_singleton. intros [Hin'|[= ->]]; [by apply (Hn i)|].
      apply Hb in Hi. lia.
    + rewrite E1, E2. split; [set_solver|]. intros i Hi.
      rewrite elem_of_app, list_elem_of_singleton. intros [Hin'|[= ->]]; [apply Hb in Hin'|]; lia.
Qed.

(** *** One byte *)

Hypothesis accepts_all : forall r, accepts r = true.
Hypothesis write_ecs : m_import_write_ecs opt = true.
Hypothesis wide_addresses : 32 <= addr_bits.

Lemma add_trace_event_ok b e ev f s :
  add_trace_event accepts no_columns opt b e ev f s =
  Some (true, upd_trace (trace s ++ [row_of opt b e ev f []]) (u32 (m_row_count s + 1)) s).
Proof. unfold add_trace_event. rewrite write_ecs. cbn [negb andb no_columns mbind option_bind]. by rewrite accepts_all. Qed.

(** What the time of an event at instruction [m] has to satisfy. *)
Definition time_ok (m ct start : Z) : Prop :=
  timed -> ct = T m /\ start = T 0 /\ ct < 2 ^ 64 - 1 /\ forall i, 0 <= i <= m -> 0 < T i.

Lemma iinv_skip acc s m a :
  iinv acc s -> (forall i b, (i, b) ∈ acc -> i <= m) -> 0 <= m -> m < open_at a s ->
  iinv (acc ++ [(m, a)]) s /\ map_find a (m_open_ecs s) ≠ None.
Proof.
  intros [Hs Hk Hr Hrg Ha Ht1 Ht2] Hm Hm0 Hlt.
  assert ((m, a) ∈ acc) as Hin.
  { destruct (Ha a) as [_ _ [E|Hl] _ _]; [lia|]. replace m with (open_at a s - 1) by (apply Hm in Hl; lia). done. }
  split.
  - split; try done.
    + intros b. rewrite Hk. split; intros [i Hi]; exists i; [set_solver|].
      apply elem_of_app in Hi as [?|Hi]; [done|]. apply list_elem_of_singleton in Hi as [= -> ->]. done.
    + intros i b. rewrite elem_of_app, list_elem_of_singleton. intros [?|[= -> ->]]; [by apply Hrg|by apply Hrg].
    + intros b. destruct (decide (b = a)) as [->|]; [|by apply addr_inv_other].
      apply addr_inv_again; [intros i; apply Hm|done|done|done].
  - intros Hf. unfold open_at in Hlt. rewrite Hf in Hlt. simpl in Hlt. lia.
Qed.

(** Looking up the open interval of [a] changes nothing but, possibly, adding
    an empty entry for [a]. *)
Lemma getOpenEC_spec a s left s1 :
  getOpenEC a s = (left, s1) -> StronglySorted Z.lt (m_open_ecs s).*1 ->
  exists ec, ec = default no_margin (map_find a (m_open_ecs s)) /\
    trace s1 = trace s /\ m_time_trace_start s1 = m_time_trace_start s /\
    StronglySorted Z.lt (m_open_ecs s1).*1 /\
    (forall b, b ∈ (m_open_ecs s1).*1 <-> b = a \/ b ∈ (m_open_ecs s).*1) /\
    (forall b, b ≠ a -> map_find b (m_open_ecs s1) = map_find b (m_open_ecs s)) /\
    left = mkMargin (dyninstr ec) (mi_ip ec)
             (if mi_time ec =? 0 then m_time_trace_start s else mi_time ec) /\
    dyninstr ec = open_at a s.
Proof.
  intros Hget Hs. unfold getOpenEC in Hget. eexists. split; [done|]. unfold open_at.
  destruct (map_find a (m_open_ecs s)) as [e|] eqn:Hf; simpl in *; simplify_eq; simpl.
  - split_and!; try done. intros b. split; [by right|]. intros [->|?]; [by eapply map_find_Some_key|done].
  - split_and!; try done; [by apply map_set_sorted|intros b; apply elem_of_map_set_keys|].
    intros b Hb. rewrite map_find_set. by destruct (Z.eqb_spec b a).
Qed.

Lemma iinv_row acc s m a ct ev :
  iinv acc s -> (forall i b, (i, b) ∈ acc -> i <= m) -> 0 <= m < 2 ^ 32 - 1 -> 0 <= a < 2 ^ 32 ->
  open_at a s <= m -> time_ok m ct (m_time_trace_start s) -> te_memaddr ev = Some a ->
  forall s1 left, getOpenEC a s = (left, s1) ->
  iinv (acc ++ [(m, a)])
    (newOpenEC a (u64 (ct + 1)) (u32 (m + 1)) (te_ip ev)
      (upd_trace (trace s1 ++ [row_of opt left (mkMargin m (te_ip ev) ct) ev false []])
         (u32 (m_row_count s1 + 1)) s1)) /\
  dyninstr left = open_at a s /\ m_time_trace_start s1 = m_time_trace_start s.
Proof.
  intros [Hs Hk Hr Hrg Ha Ht1 Ht2] Hm Hm0 Ha0 Hle Htime Hev s1 left Hget.
  destruct (getOpenEC_spec _ _ _ _ Hget Hs) as (ec & Hec & Etr & Ets & Hs1 & Hk1 & Hf1 & -> & Hd).
  split; [|done]. rewrite Etr. clear Hget.
  set (row := row_of opt _ _ ev false []).
  assert (row_address row = a /\ instr1 row = open_at a s /\ instr2 row = m) as (Era & Er1 & Er2).
  { unfold row, row_of. simpl. rewrite Hev. simpl. split_and!; [by apply u32_small|done|done]. }
  assert (u32 (m + 1) = m + 1) as Eu by (apply u32_small; lia). rewrite Eu. split; simpl.
  - by apply map_set_sorted.
  - intros b. rewrite elem_of_map_set_keys, Hk1, Hk. split.
    + intros [->|[->|[i Hi]]]; [exists m|exists m|exists i]; set_solver.
    + intros [i Hi]. apply elem_of_app in Hi as [?|Hi]; [by right; right; exists i|].
      apply list_elem_of_singleton in Hi as [= -> ->]. by left.
  - intros r. rewrite elem_of_app, list_elem_of_singleton, elem_of_map_set_keys, Hk1.
    intros [Hin| ->]; [right; right; by apply Hr|by left].
  - intros i b. rewrite elem_of_app, list_elem_of_singleton. intros [?|[= -> ->]]; [by apply Hrg|lia].
  - intros b. unfold open_at. simpl. rewrite map_find_set, rows_at_snoc, Era.
    destruct (Z.eqb_spec b a) as [->|Hne].
    + rewrite bool_decide_true by done. simpl. by apply (addr_inv_new _ _ _ (open_at a s)).
    + rewrite bool_decide_false by done. rewrite Hf1 by done. by apply addr_inv_other.
  - intros Hq r. rewrite elem_of_app, list_elem_of_singleton. intros [Hin| ->]; [by apply Ht1|].
    destruct (Htime Hq) as (-> & Hstart & _ & Hpos). rewrite Er1, Er2. split; [done|].
    unfold row, row_of, left_time. simpl. rewrite <- Hd.
    destruct (map_find a (m_open_ecs s)) as [e|] eqn:Hf; simpl in Hec; subst ec; simpl; [|done].
    rewrite (Ht2 Hq a e Hf). destruct (Z.eqb_spec (dyninstr e) 0); [done|].
    destruct (Ha a) as [Ho _ _ _ _]. unfold open_at in Ho, Hle. rewrite Hf in Ho, Hle. simpl in Ho, Hle.
    pose proof (Hpos (dyninstr e - 1)). destruct (Z.eqb_spec (T (dyninstr e - 1) + 1) 0); [lia|done].
  - intros Hq b ec'. rewrite map_find_set. destruct (Z.eqb_spec b a) as [->|Hne].
    + intros [= <-]. simpl. destruct (Z.eqb_spec (m + 1) 0); [lia|]. destruct (Htime Hq) as (-> & _ & Hlt & Hpos).
      replace (m + 1 - 1) with m by lia. apply u64_small. pose proof (Hpos m). lia.
    + rewrite Hf1 by done. by apply Ht2.
Qed.

(** *** One memory access *)

Definition at_instr (m : Z) (bytes : list Z) : list (Z * Z) :=
  pair m <$> filter (fun a => hit a = true) bytes.

Lemma elem_of_at_instr m bytes i a : (i, a) ∈ at_instr m bytes <-> i = m /\ a ∈ bytes /\ hit a = true.
Proof using Type.
  unfold at_instr. rewrite list_elem_of_fmap. setoid_rewrite list_elem_of_filter. split.
  - intros (b & [= -> ->] & ? & ?). done.
  - intros (-> & ? & ?). by exists a.
Qed.

Lemma at_instr_cons m a bytes :
  at_instr m (a :: bytes) = (if hit a then [(m, a)] else []) ++ at_instr m bytes.
Proof using Type.
  unfold at_instr. destruct (hit a) eqn:Hh.
  - by rewrite filter_cons_True.
  - rewrite filter_cons_False by congruence. done.
Qed.

Lemma mem_loop_inv ct m ev n : forall a acc s,
  iinv acc s -> (forall i b, (i, b) ∈ acc -> i <= m) -> 0 <= m < 2 ^ 32 - 1 ->
  0 <= a -> a + Z.of_nat n < 2 ^ 32 -> time_ok m ct (m_time_trace_start s) ->
  exists s', mem_loop (add_trace_event accepts no_columns) opt ct m ev a n s = Some (true, s') /\
    iinv (acc ++ at_instr m (seqZ a (Z.of_nat n))) s' /\
    m_time_trace_start s' = m_time_trace_start s.
Proof.
  induction n as [|n IH]; intros a acc s I Hm Hm0 Ha Han Ht.
  { exists s. split; [done|]. by rewrite app_nil_r. }
  rewrite seqZ_cons by lia. rewrite at_instr_cons.
  replace (Z.pred (Z.of_nat (Datatypes.S n))) with (Z.of_nat n) by lia.
  assert (wrap addr_bits (a + 1) = a + 1) as Ew.
  { apply wrap_small. unfold in_range. pose proof (Z.pow_le_mono_r 2 32 addr_bits). lia. }
  cbn [mem_loop]. rewrite Ew.
  replace (match m_mm opt with Some mm => negb (mm_isMatching a 1 mm) | None => false end) with (negb (hit a))
    by (unfold hit; by destruct (m_mm opt)).
  destruct (hit a) eqn:Hh; cbn [negb]; cycle 1.
  { replace (a + 1) with (Z.succ a) by lia. apply IH; try done; lia. }
  assert (forall i b, (i, b) ∈ acc ++ [(m, a)] -> i <= m) as Hm'.
  { intros i b. rewrite elem_of_app, list_elem_of_singleton. intros [?|[= -> ->]]; [by eapply Hm|lia]. }
  destruct (getOpenEC a s) as [left s1] eqn:Hget. cbn [dyninstr].
  destruct (getOpenEC_spec _ _ _ _ Hget (ii_sorted _ _ I)) as (ec & Hec & _ & _ & _ & _ & _ & Hleft & Hd).
  assert (dyninstr left = open_at a s) as El by (by rewrite Hleft). rewrite El.
  destruct (Z.gtb_spec (open_at a s) m) as [Hgt|Hle].
  - destruct (iinv_skip _ _ m a I Hm) as [I' Hf]; [lia|done|].
    assert (s1 = s) as -> by (unfold getOpenEC in Hget; destruct (map_find a (m_open_ecs s)); by simplify_eq).
    destruct (IH (a + 1) _ _ I' Hm') as (s' & E & I'' & Es); [lia|lia|lia|done|].
    exists s'. split; [exact E|]. split; [|done]. by rewrite <- app_assoc in I''.
  - edestruct (iinv_row acc s m a ct (mkTE (te_ip ev) (te_time_delta ev) (Some a) 1 (te_accesstype ev) (te_trace_ext ev)))
      as (I' & _ & Es1); [done|done|done|lia|done|done|done|exact Hget|].
    rewrite add_trace_event_ok. cbn [te_ip mbind option_bind] in I' |- *.
    destruct (IH (a + 1) _ _ I' Hm') as (s' & E & I'' & Es); [lia|lia|lia|simpl; by rewrite Es1|].
    exists s'. split; [exact E|]. split; [by rewrite <- app_assoc in I''|]. rewrite Es. exact Es1.
Qed.

(** ** Traces *)

Definition event_bytes (ev : Trace_Event) : list Z :=
  match te_memaddr ev with Some a => seqZ a (te_width ev) | None => [] end.

(** The accesses to the fault space: dynamic instruction and address.  [n]
    instructions have started, memory accesses belong to instruction [m]. *)
Fixpoint accesses (evs : list Trace_Event) (n m : Z) : list (Z * Z) :=
  match evs with
  | [] => []
  | ev :: evs =>
      match te_memaddr ev with
      | None => accesses evs (n + 1) n
      | Some _ => at_instr m (event_bytes ev) ++ accesses evs n m
      end
  end.

Definition is_instr (ev : Trace_Event) : bool := bool_decide (te_memaddr ev = None).

Definition instr_count (evs : list Trace_Event) : Z := Z.of_nat (length (filter (fun ev => is_instr ev = true) evs)).

(** Addresses fit the table, time does not go backwards. *)
Definition valid_event (ev : Trace_Event) : Prop :=
  (forall a, te_memaddr ev = Some a -> 0 <= a /\ 0 <= te_width ev /\ a + te_width ev < 2 ^ 32) /\
  (forall d, te_time_delta ev = Some d -> 0 <= d).

(** Every instruction takes time, its memory accesses happen at its end:
    instruction [i] ends at [T i]. *)
Fixpoint timed_from (n t : Z) (evs : list Trace_Event) : Prop :=
  match evs with
  | [] => True
  | ev :: evs =>
      match te_memaddr ev with
      | None => exists d, te_time_delta ev = Some d /\ 0 < d /\ T n = t + d /\ t + d < 2 ^ 64 - 1 /\
                  timed_from (n + 1) (t + d) evs
      | Some _ => 0 < n /\ default 0 (te_time_delta ev) = 0 /\ timed_from n t evs
      end
  end.

(** The state of the loop fits the time. *)
Definition clock_ok (l : Loop) (s : Importer) : Prop :=
  timed -> (instr l = 0 /\ curtime l = 0 /\ m_time_trace_start s = 0) \/
    (0 < instr l /\ instr_memaccess l = instr l - 1 /\ curtime l = T (instr l - 1) /\
     m_time_trace_start s = T 0 /\ curtime l < 2 ^ 64 - 1 /\
     (forall i, 0 <= i < instr l -> 0 < T i) /\ forall i j, 0 <= i < j -> j < instr l -> T i < T j).

Record loop_ok (acc : list (Z * Z)) (l : Loop) (s : Importer) : Prop := mkLoopOk {
  lo_inv : iinv acc s;
  lo_acc : forall i a, (i, a) ∈ acc -> i <= instr_memaccess l;
  lo_mem : 0 <= instr_memaccess l < 2 ^ 32 - 1;
  lo_instr : 0 <= instr l /\ instr_memaccess l <= Z.max 0 (instr l - 1);
  lo_clock : clock_ok l s
}.

(** The state after the time stamp of [ev] was processed. *)
Lemma event_time ev l s (evs : list Trace_Event) :
  valid_event ev -> clock_ok l s -> (timed -> timed_from (instr l) (curtime l) (ev :: evs)) ->
  exists ct s1,
    match te_time_delta ev with
    | Some d => if d >=? 0 then Some (u64 (curtime l + d),
                  if m_time_trace_start s =? 0 then upd_trace_start (u64 d) s else s) else None
    | None => Some (curtime l, s)
    end = Some (ct, s1) /\
    trace s1 = trace s /\ m_open_ecs s1 = m_open_ecs s /\
    (timed ->
       match te_memaddr ev with
       | None => clock_ok (mkLoop ct (instr l + 1) (instr l) ev) s1 /\ timed_from (instr l + 1) ct evs
       | Some _ => time_ok (instr_memaccess l) ct (m_time_trace_start s1) /\
                   clock_ok (mkLoop ct (instr l) (instr_memaccess l) ev) s1 /\ timed_from (instr l) ct evs
       end).
Proof.
  intros [_ Hd] Hc Ht.
  destruct (te_time_delta ev) as [d|] eqn:Ed.
  - destruct (Z.geb_spec d 0) as [Hd0|?]; [|pose proof (Hd d eq_refl); lia]. eexists _, _. split; [done|].
    split; [by case_match|]. split; [by case_match|]. intros Hq. specialize (Ht Hq). simpl in Ht.
    destruct (te_memaddr ev).
    + destruct Ht as (Hn & Hz & Ht). simpl in Hz. rewrite Ed in Hz. simpl in Hz. subst d.
      destruct (Hc Hq) as [[? _]|(Hn' & Em & Et & Es & Hb & Hp & Hinc)]; [lia|].
      pose proof (Hp 0 ltac:(lia)). pose proof (Hp (instr l - 1) ltac:(lia)).
      destruct (Z.eqb_spec (m_time_trace_start s) 0); [lia|].
      rewrite Z.add_0_r, u64_small by lia. rewrite Em. split_and!; [|intros _; right; by split_and!|done].
      intros _. split_and!; [done|done|done|]. intros i Hi. apply Hp. lia.
    + destruct Ht as (d' & Ed' & Hpos & HT & Hb & Ht). rewrite Ed in Ed'. injection Ed' as <-.
      destruct (Hc Hq) as [(En & Et & Es)|(Hn' & Em & Et & Es & Hb' & Hp & Hinc)].
      * rewrite Es, Et in *. simpl. rewrite u64_small by lia. rewrite En in *. simpl in *. split; [|done].
        intros _. right. simpl. rewrite u64_small by lia. split_and!; try lia; try done.
        intros i Hi. replace i with 0 by lia. lia.
      * pose proof (Hp 0 ltac:(lia)). pose proof (Hp (instr l - 1) ltac:(lia)).
        destruct (Z.eqb_spec (m_time_trace_start s) 0); [lia|]. rewrite u64_small by lia. split; [|done].
        intros _. right. simpl. replace (instr l + 1 - 1) with (instr l) by lia. split_and!; try lia; try done.
        -- intros i Hi. destruct (decide (i = instr l)) as [->|]; [lia|apply Hp; lia].
        -- intros i j Hij Hj. destruct (decide (j = instr l)) as [->|]; [|apply Hinc; lia].
           destruct (decide (i = instr l - 1)) as [->|]; [lia|]. pose proof (Hinc i (instr l - 1)). lia.
  - eexists _, _. split; [done|]. split; [done|]. split; [done|]. intros Hq. specialize (Ht Hq). simpl in Ht.
    destruct (te_memaddr ev).
    + destruct Ht as (Hn & _ & Ht). destruct (Hc Hq) as [[? _]|(Hn' & Em & Et & Es & Hb & Hp & Hinc)]; [lia|].
      rewrite Em. split_and!; [|intros _; right; by split_and!|done].
      intros _. split_and!; [done|done|done|]. intros i Hi. apply Hp. lia.
    + destruct Ht as (d' & Ed' & _). congruence.
Qed.

Lemma iinv_same acc s s1 :
  trace s1 = trace s -> m_open_ecs s1 = m_open_ecs s -> iinv acc s -> iinv acc s1.
Proof.
  intros E1 E2 [? ? ? ? ? ? ?]. split; rewrite ?E1, ?E2; try done. intros a. unfold open_at. by rewrite E2.
Qed.

Lemma import_event_ok acc ev evs l s :
  loop_ok acc l s -> valid_event ev -> (te_memaddr ev = None -> instr l < 2 ^ 32 - 1) ->
  (timed -> timed_from (instr l) (curtime l) (ev :: evs)) ->
  exists l' s', import_event (hooks := MemoryImporter accepts) opt ev l s = Some (true, l', s') /\
    last_ev l' = ev /\
    (timed -> timed_from (instr l') (curtime l') evs) /\
    match te_memaddr ev with
    | None => loop_ok acc l' s' /\ instr l' = instr l + 1 /\ instr_memaccess l' = instr l
    | Some _ => loop_ok (acc ++ at_instr (instr_memaccess l) (event_bytes ev)) l' s' /\
                instr l' = instr l /\ instr_memaccess l' = instr_memaccess l
    end.
Proof.
  intros [I Hacc Hmem [Hi0 Hle] Hc] Hv Hn Ht.
  destruct (event_time ev l s evs Hv Hc Ht) as (ct & s1 & Et & E1 & E2 & Htime).
  apply (iinv_same _ _ s1 E1 E2) in I. unfold import_event. rewrite Et. cbn [mbind option_bind]. unfold event_bytes.
  destruct Hv as [Hv _]. destruct (te_memaddr ev) as [a|] eqn:Ea; simpl.
  - destruct (Hv a eq_refl) as (Ha & Hw & Haw). unfold MemoryImporter_handle_mem_event. rewrite Ea. cbn [default from_option].
    assert (forall x, 0 <= x < 2 ^ 32 -> wrap addr_bits x = x) as Hwr.
    { intros x Hx. apply wrap_small. unfold in_range. pose proof (Z.pow_le_mono_r 2 32 addr_bits). lia. }
    unfold u64, id. rewrite (wrap_small 64) by (unfold in_range; lia). rewrite !Hwr by lia.
    replace (a + te_width ev - a) with (te_width ev) by lia.
    destruct (mem_loop_inv ct (instr_memaccess l) ev (Z.to_nat (te_width ev)) a acc s1 I)
      as (s' & E & I' & Es); [done|done|done|lia|intros Hq; by apply (Htime Hq)|].
    rewrite E. cbn [mbind option_bind]. rewrite Z2Nat.id in I' by lia. eexists _, _. split; [done|]. split; [done|].
    split; [intros Hq; apply (Htime Hq)|]. split; [|done]. split; try done; simpl.
    + intros i b. rewrite elem_of_app, elem_of_at_instr. intros [?|[-> _]]; [by eapply Hacc|lia].
    + unfold clock_ok. simpl. rewrite Es. intros Hq. destruct (Htime Hq) as (_ & Hck & _). by apply Hck.
  - specialize (Hn eq_refl). destruct (Z.eqb_spec (instr l) (2 ^ 32 - 1)); [lia|].
    cbn [mbind option_bind]. rewrite u32_small by lia. eexists _, _. split; [done|]. split; [done|].
    split; [intros Hq; apply (Htime Hq)|]. split; [|done]. split; try done; simpl; [|lia|].
    + intros i b Hin. apply Hacc in Hin. lia.
    + intros Hq. by apply (Htime Hq).
Qed.

Lemma instr_count_cons ev evs :
  instr_count (ev :: evs) = match te_memaddr ev with Some _ => 0 | None => 1 end + instr_count evs.
Proof using Type.
  unfold instr_count, is_instr. destruct (te_memaddr ev) eqn:E.
  - rewrite filter_cons_False; [done|]. rewrite bool_decide_eq_true. congruence.
  - rewrite filter_cons_True by (by rewrite bool_decide_eq_true). simpl length. lia.
Qed.

Lemma import_events_ok evs : forall acc l s,
  loop_ok acc l s -> Forall valid_event evs -> instr l + instr_count evs < 2 ^ 32 ->
  (timed -> timed_from (instr l) (curtime l) evs) ->
  exists l' s', import_events (hooks := MemoryImporter accepts) opt evs l s = Some (true, l', s') /\
    loop_ok (acc ++ accesses evs (instr l) (instr_memaccess l)) l' s' /\
    instr l' = instr l + instr_count evs.
Proof.
  induction evs as [|ev evs IH]; intros acc l s L Hv Hn Ht.
  { exists l, s. simpl. rewrite app_nil_r. split_and!; [done|done|]. unfold instr_count. simpl. lia. }
  apply Forall_cons in Hv as [Hv Hvs]. rewrite instr_count_cons in Hn |- *.
  assert (0 <= instr_count evs) by (unfold instr_count; lia).
  destruct (import_event_ok acc ev evs l s L Hv) as (l1 & s1 & E & _ & Ht1 & Hl1).
  { intros Ea. rewrite Ea in Hn. lia. } { done. }
  cbn [import_events accesses]. rewrite E. cbn [mbind option_bind].
  destruct (te_memaddr ev) as [a|]; destruct Hl1 as (L1 & Ei & Em).
  - destruct (IH _ _ _ L1 Hvs) as (l' & s' & E' & L' & Ei'); [lia|done|].
    exists l', s'. split; [exact E'|]. rewrite Ei, Em, <- app_assoc in L'. split; [done|lia].
  - destruct (IH _ _ _ L1 Hvs) as (l' & s' & E' & L' & Ei'); [lia|done|].
    exists l', s'. split; [exact E'|]. rewrite Ei, Em in L'. split; [done|lia].
Qed.

(** ** The end of the trace *)

Definition mm_space : list Z := match m_mm opt with Some mm => mm_addresses mm | None => [] end.

(** The open intervals when they are closed: those of the accessed addresses,
    and for the other addresses of the memory map intervals from the start. *)
Record open_ok (acc : list (Z * Z)) (s s' : Importer) : Prop := mkOpenOk {
  oo_sorted : StronglySorted Z.lt (m_open_ecs s').*1;
  oo_trace : trace s' = trace s;
  oo_last : m_last_instr s' = m_last_instr s /\ m_last_time s' = m_last_time s /\
            m_time_trace_start s' = m_time_trace_start s;
  oo_left : forall a ec, map_find a (m_open_ecs s') = Some ec ->
    dyninstr ec = open_at a s /\ (timed -> mi_time ec = left_time (dyninstr ec))
}.

Lemma iinv_open_ok acc s : iinv acc s -> open_ok acc s s.
Proof.
  intros I. pose proof (ii_sorted _ _ I). split; try done. intros a ec Hf. unfold open_at. rewrite Hf. split; [done|].
  intros Hq. rewrite (ii_time_open _ _ I Hq a ec Hf). unfold left_time.
  destruct (proj1 (ii_keys _ _ I a)) as [i Hi]; [by eapply map_find_Some_key|].
  pose proof (ai_before _ _ _ _ (ii_addr _ _ I a) i Hi) as Hlt. apply (ii_range _ _ I) in Hi.
  unfold open_at in Hlt. rewrite Hf in Hlt. simpl in Hlt. simpl. destruct (Z.eqb_spec (dyninstr ec) 0); [lia|done].
Qed.

Lemma open_loop_ok acc s l : forall s1,
  (timed -> m_time_trace_start s = T 0) -> open_ok acc s s1 ->
  (forall a, map_find a (m_open_ecs s1) = None -> open_at a s = 0) ->
  open_ok acc s (fold_left open_if_unused l s1) /\
  forall a, a ∈ (m_open_ecs (fold_left open_if_unused l s1)).*1 <-> a ∈ (m_open_ecs s1).*1 \/ a ∈ l.
Proof.
  induction l as [|a l IH]; intros s1 Hstart O Hz; [split; [done|set_solver]|]. cbn [fold_left].
  unfold open_if_unused at 2 4. destruct (map_find a (m_open_ecs s1)) as [ec|] eqn:Hf.
  - destruct (IH s1 Hstart O Hz) as [O' Hk]. split; [exact O'|]. intros b. rewrite Hk, elem_of_cons.
    apply map_find_Some_key in Hf. naive_solver.
  - destruct O as [Hs Ht (? & ? & Hst) Hl].
    destruct (IH (newOpenEC a (m_time_trace_start s1) 0 0 s1) Hstart) as [O' Hk].
    + split; simpl; [by apply map_set_sorted|done|done|].
      intros b ec. rewrite map_find_set. destruct (Z.eqb_spec b a) as [->|]; [|by apply Hl].
      intros [= <-]. simpl. split; [by rewrite Hz|]. intros Hq. rewrite Hst. by apply Hstart.
    + intros b. simpl. rewrite map_find_set. destruct (b =? a); [done|apply Hz].
    + split; [exact O'|]. intros b. rewrite Hk. simpl. rewrite elem_of_map_set_keys, elem_of_cons. tauto.
Qed.

Lemma open_unused_ok acc s :
  iinv acc s -> (timed -> m_time_trace_start s = T 0) ->
  open_ok acc s (open_unused_ec_intervals opt s) /\
  forall a, a ∈ (m_open_ecs (open_unused_ec_intervals opt s)).*1 <-> a ∈ (m_open_ecs s).*1 \/ a ∈ mm_space.
Proof.
  intros I Hstart. unfold open_unused_ec_intervals, mm_space.
  destruct (m_mm opt) as [mm|]; [|split; [by apply iinv_open_ok|set_solver]].
  apply open_loop_ok; [done|by apply iinv_open_ok|]. intros a Hf. unfold open_at. by rewrite Hf.
Qed.

(** The row that closes an open interval, unless it is empty. *)
Definition closing_row (last ip time : Z) (x : Z * margin_info_t) : option Row :=
  if dyninstr x.2 >? last then None
  else Some (row_of opt x.2 (mkMargin last ip time)
               (mkTE ip None (Some x.1) 1 (m_faultspace_rightmargin opt) None) true []).

Lemma closing_row_spec last ip time a ec r :
  0 <= a < 2 ^ 32 -> closing_row last ip time (a, ec) = Some r ->
  dyninstr ec <= last /\ row_address r = a /\ instr1 r = dyninstr ec /\ instr2 r = last /\
  row_access r = m_faultspace_rightmargin opt /\ time1 r = mi_time ec /\ time2 r = time.
Proof.
  intros Ha. unfold closing_row. cbn [fst snd]. destruct (Z.gtb_spec (dyninstr ec) last); [done|].
  intros [= <-]. simpl. split_and!; try done. by apply u32_small.
Qed.

Lemma close_loop_ok ecs : forall s,
  exists s', close_loop (add_trace_event accepts no_columns) opt ecs s = Some (true, s') /\
    trace s' = trace s ++ omap (closing_row (m_last_instr s) (m_last_ip s) (m_last_time s)) ecs /\
    m_open_ecs s' = m_open_ecs s /\ m_last_instr s' = m_last_instr s.
Proof.
  induction ecs as [|[a ec] ecs IH]; intros s; cbn [close_loop].
  { exists s. simpl. by rewrite app_nil_r. }
  unfold closing_row at 1. simpl. destruct (dyninstr ec >? m_last_instr s).
  - apply IH.
  - unfold add_access. rewrite add_trace_event_ok. cbn [mbind option_bind].
    edestruct IH as (s' & -> & Et & Eo & El). exists s'. split; [done|]. rewrite Et, Eo, El. simpl.
    by rewrite <- app_assoc.
Qed.

Lemma closing_rows_at last ip time ecs a :
  NoDup ecs.*1 -> Forall (fun x => 0 <= x.1 < 2 ^ 32) ecs ->
  rows_at a (omap (closing_row last ip time) ecs) =
  match map_find a ecs with
  | Some ec => option_list (closing_row last ip time (a, ec))
  | None => []
  end.
Proof.
  induction ecs as [|[b ec] ecs IH]; intros Hnd Hall; [done|].
  apply NoDup_cons in Hnd as [Hni Hnd]. apply Forall_cons in Hall as [Hb Hall]. specialize (IH Hnd Hall).
  simpl in Hb. assert (b ∉ ecs.*1) as Hni' by exact Hni. apply map_find_None in Hni'.
  change (omap (closing_row last ip time) ((b, ec) :: ecs)) with
    (match closing_row last ip time (b, ec) with
     | Some r => r :: omap (closing_row last ip time) ecs
     | None => omap (closing_row last ip time) ecs
     end).
  assert (forall r, closing_row last ip time (b, ec) = Some r -> row_address r = b) as Hr.
  { unfold closing_row. cbn [fst snd]. intros r. destruct (dyninstr ec >? last); intros [= <-]. simpl. by apply u32_small. }
  cbn [map_find]. destruct (Z.eqb_spec a b) as [->|Hne].
  - rewrite Hni' in IH. destruct (closing_row last ip time (b, ec)) as [r|]; [|exact IH].
    unfold rows_at in *. rewrite filter_cons_True by (by apply Hr). by rewrite IH.
  - destruct (closing_row last ip time (b, ec)) as [r|]; [|exact IH].
    unfold rows_at in *. rewrite filter_cons_False; [exact IH|]. rewrite (Hr r eq_refl). congruence.
Qed.

(** ** The table *)

Definition in_space (evs : list Trace_Event) (a : Z) : Prop :=
  (exists i, (i, a) ∈ accesses evs 0 0) \/ a ∈ mm_space.

(** What a row says about the accesses [acc] to its byte: none before its last
    instruction; there is one, or the row is the last one of its byte. *)
Definition row_sound (acc : list (Z * Z)) (last : Z) (r : Row) : Prop :=
  (forall i, instr1 r <= i < instr2 r -> (i, row_address r) ∉ acc) /\
  ((instr2 r, row_address r) ∈ acc \/
   instr2 r = last /\ row_access r = m_faultspace_rightmargin opt /\ (last, row_address r) ∉ acc).

Definition row_timed (r : Row) : Prop := time2 r = T (instr2 r) /\ time1 r = left_time (instr1 r).

Lemma iinv_init : loop_ok [] (mkLoop 0 0 0 no_event) new_Importer.
Proof.
  split; simpl; [|set_solver|lia|lia|by left; split_and!].
  split; simpl; try done; try set_solver.
  - constructor.
  - intros a. split; [done|set_solver|by left|done|set_solver].
Qed.

(** The state [s2] in which the open intervals are closed; [s] is the state at
    the end of the trace, [last] the last instruction. *)
Record closing (acc : list (Z * Z)) (last : Z) (s s2 : Importer) : Prop := mkClosing {
  cl_inv : iinv acc s;
  cl_nodup : NoDup (m_open_ecs s2).*1;
  cl_space : forall a, a ∈ (m_open_ecs s2).*1 <-> (exists i, (i, a) ∈ acc) \/ a ∈ mm_space;
  cl_range : Forall (fun x => 0 <= x.1 < 2 ^ 32) (m_open_ecs s2);
  cl_trace : trace s2 = trace s;
  cl_last : m_last_instr s2 = last /\ (timed -> m_last_time s2 = T last);
  cl_left : forall a ec, map_find a (m_open_ecs s2) = Some ec ->
    dyninstr ec = open_at a s /\ (timed -> mi_time ec = left_time (dyninstr ec));
  cl_open : forall a, open_at a s <= last + 1
}.

Lemma loop_closing acc l s :
  loop_ok acc l s -> 0 < instr l -> instr l < 2 ^ 32 -> Forall (fun a => 0 <= a < 2 ^ 32) mm_space ->
  closing acc (instr l - 1) s
    (open_unused_ec_intervals opt (upd_last (te_ip (last_ev l)) (u32 (instr l - 1)) (curtime l) s)).
Proof.
  intros [I Hacc Hmem [_ Hle] Hclock] Hpos Hlt Hmm.
  set (s1 := upd_last _ _ _ s). assert (iinv acc s1) as I1 by (by apply (iinv_same _ s)).
  assert (timed -> m_time_trace_start s1 = T 0 /\ m_last_time s1 = T (instr l - 1)) as Ht1.
  { intros Hq. destruct (Hclock Hq) as [[? _]|(_ & _ & Ec & Es & _)]; [lia|]. done. }
  destruct (open_unused_ok acc s1 I1) as [[Hs Htr (El1 & El2 & _) Hleft] Hkeys]; [intros Hq; by apply Ht1|].
  assert (forall a, a ∈ (m_open_ecs (open_unused_ec_intervals opt s1)).*1 <->
    (exists i, (i, a) ∈ acc) \/ a ∈ mm_space) as Hspace.
  { intros a. by rewrite Hkeys, (ii_keys _ _ I1 a). }
  split; try done.
  - by apply sorted_nodup.
  - apply Forall_forall. intros [a ec] Hin. simpl.
    assert (a ∈ (m_open_ecs (open_unused_ec_intervals opt s1)).*1) as Ha
      by (apply list_elem_of_fmap; by exists (a, ec)).
    apply Hspace in Ha as [[i Hi]|Ha]; [apply (ii_range _ _ I1) in Hi; lia|by apply (proj1 (Forall_forall _ _) Hmm)].
  - rewrite El1, El2. split; [apply u32_small; lia|]. intros Hq. by apply Ht1.
  - intros a. destruct (ai_last _ _ _ _ (ii_addr _ _ I a)) as [->|Hl]; [lia|]. apply Hacc in Hl. lia.
Qed.

Lemma closing_chain acc last s s2 ip time a ec :
  closing acc last s s2 -> map_find a (m_open_ecs s2) = Some ec ->
  chain instr1 instr2 0 last
    (rows_at a (trace s ++ omap (closing_row last ip time) (m_open_ecs s2))).
Proof.
  intros [I Hnd _ Hr _ _ Hleft Hopen] Hf. unfold rows_at. rewrite filter_app.
  fold (rows_at a (trace s)). fold (rows_at a (omap (closing_row last ip time) (m_open_ecs s2))).
  rewrite closing_rows_at, Hf by done. destruct (Hleft a ec Hf) as [Ed _].
  pose proof (ai_chain _ _ _ _ (ii_addr _ _ I a)) as Hc. rewrite <- Ed in Hc.
  unfold closing_row. cbn [fst snd]. destruct (Z.gtb_spec (dyninstr ec) last) as [Hgt|Hle].
  - simpl. rewrite app_nil_r. pose proof (Hopen a). by replace last with (dyninstr ec - 1) by lia.
  - apply chain_snoc. simpl. split_and!; [done|lia|done].
Qed.

(** A synthetic row follows the last access to its byte. *)
Lemma closing_row_sound acc last s s2 ip a ec r :
  closing acc last s s2 -> (a, ec) ∈ m_open_ecs s2 ->
  closing_row last ip (m_last_time s2) (a, ec) = Some r ->
  row_address r = a /\ row_sound acc last r /\ (timed -> row_timed r).
Proof.
  intros [I Hnd _ Hr _ [_ Ht] Hleft _] Hin Hrow.
  destruct (closing_row_spec _ _ _ _ _ _ (proj1 (Forall_forall _ _) Hr _ Hin) Hrow)
    as (Hle & Ea & E1 & E2 & Eacc & Et1 & Et2).
  destruct (Hleft a ec) as [Ed Et]; [by apply map_find_nodup|].
  assert (forall i, instr1 r <= i -> (i, row_address r) ∉ acc) as Hno.
  { intros i Hi Hin'. rewrite Ea in Hin'. apply (ai_before _ _ _ _ (ii_addr _ _ I a)) in Hin'. lia. }
  split_and!; [done| |].
  - split; [intros i Hi; apply Hno; lia|]. right. split_and!; [done|done|]. apply Hno. lia.
  - intros Hq. split; [rewrite Et2, E2; by apply Ht|]. rewrite Et1, E1. by apply Et.
Qed.

(** The closed table from the state at the end of the trace. *)
Lemma closed_table acc last s s2 s' :
  closing acc last s s2 -> close_ec_intervals (add_trace_event accepts no_columns) opt s2 = Some (true, s') ->
  m_last_instr s' = last /\
  (forall r, r ∈ trace s' -> (exists i, (i, row_address r) ∈ acc) \/ row_address r ∈ mm_space) /\
  (forall a, (exists i, (i, a) ∈ acc) \/ a ∈ mm_space -> chain instr1 instr2 0 last (rows_at a (trace s'))) /\
  (forall r, r ∈ trace s' -> row_sound acc last r /\ (timed -> row_timed r)).
Proof.
  intros C Hclose. destruct (cl_last _ _ _ _ C) as [El _].
  destruct (close_loop_ok (m_open_ecs s2) s2) as (s3 & E3 & Et3 & _ & El3).
  unfold close_ec_intervals in Hclose. rewrite E3 in Hclose. simplify_eq Hclose. intros <-. clear E3 Hclose.
  rewrite (cl_trace _ _ _ _ C), El in Et3. pose proof (cl_inv _ _ _ _ C) as I.
  split_and!.
  - by rewrite El3.
  - intros r. rewrite Et3, elem_of_app, list_elem_of_omap. rewrite <- (cl_space _ _ _ _ C). intros [Hin|([a ec] & Hin & Hr)].
    + apply (cl_space _ _ _ _ C). left. by apply (ii_keys _ _ I), (ii_rows _ _ I).
    + destruct (closing_row_sound _ _ _ _ _ _ _ _ C Hin Hr) as [-> _]. apply list_elem_of_fmap. by exists (a, ec).
  - intros a Ha. apply (cl_space _ _ _ _ C) in Ha. rewrite Et3.
    destruct (map_find a (m_open_ecs s2)) as [ec|] eqn:Hf; [by eapply closing_chain|by apply map_find_None in Hf].
  - intros r. rewrite Et3, elem_of_app, list_elem_of_omap. intros [Hin|([a ec] & Hin & Hr)].
    + split; [|intros Hq; by apply (ii_time_rows _ _ I Hq)].
      destruct (ai_rows _ _ _ _ (ii_addr _ _ I (row_address r)) r) as [? ?]; [by apply list_elem_of_filter|].
      split; [done|by left].
    + by apply (closing_row_sound _ _ _ _ _ _ _ _ C Hin Hr).
Qed.

Lemma accesses_bound evs : forall n m i a,
  (i, a) ∈ accesses evs n m -> m < Z.max 1 (n + instr_count evs) -> i < Z.max 1 (n + instr_count evs).
Proof using Type.
  clear accepts_all write_ecs wide_addresses IntervalSetLaws0 accepts.
  induction evs as [|ev evs IH]; intros n m i a Hin Hm; simpl in Hin; [set_solver|].
  rewrite instr_count_cons in *. destruct (te_memaddr ev).
  - apply elem_of_app in Hin as [Hin|Hin]; [apply elem_of_at_instr in Hin as [-> _]; lia|].
    apply IH in Hin; lia.
  - assert (0 <= instr_count evs) by (unfold instr_count; lia). apply IH in Hin; lia.
Qed.

(** The whole import. *)
Lemma import_table evs :
  Forall valid_event evs -> 0 < instr_count evs < 2 ^ 32 -> Forall (fun a => 0 <= a < 2 ^ 32) mm_space ->
  (timed -> timed_from 0 0 evs) ->
  exists s, copy_to_database (hooks := MemoryImporter accepts) opt evs new_Importer =
      Some (negb (m_sanitychecks opt && negb (sanitychecks (trace s))), s) /\
    let last := instr_count evs - 1 in
    m_last_instr s = last /\
    (forall r, r ∈ trace s -> in_space evs (row_address r)) /\
    (forall a, in_space evs a -> chain instr1 instr2 0 last (rows_at a (trace s))) /\
    (forall r, r ∈ trace s -> row_sound (accesses evs 0 0) last r /\ (timed -> row_timed r)) /\
    (timed -> (forall i j, 0 <= i < j -> j <= last -> T i < T j)).
Proof.
  intros Hv Hn Hmm Ht.
  destruct (import_events_ok evs [] _ _ iinv_init Hv) as (l & s1 & E & L & En); [simpl; lia|exact Ht|].
  simpl in L, En. unfold copy_to_database. rewrite E. cbn [mbind option_bind negb]. simpl trace_end_reached. cbn [negb].
  cbn [mbind option_bind v_add_trace_event v_open_unused_ec_intervals MemoryImporter].
  assert (exists s2, close_ec_intervals (add_trace_event accepts no_columns) opt
            (open_unused_ec_intervals opt (upd_last (te_ip (last_ev l)) (u32 (instr l - 1)) (curtime l) s1)) = Some (true, s2)) as [s2 Ec].
  { unfold close_ec_intervals. edestruct close_loop_ok as (s2 & E' & _). by exists s2. }
  rewrite Ec. cbn [mbind option_bind].
  destruct (closed_table _ _ _ _ s2 (loop_closing _ _ _ L ltac:(lia) ltac:(lia) Hmm) Ec) as (H1 & H2 & H3 & H4).
  rewrite En in *. exists s2. split; [cbn [negb]; by destruct (m_sanitychecks opt && negb (sanitychecks (trace s2)))|].
  split_and!; try done. intros Hq i j Hij Hj.
  destruct (lo_clock _ _ _ L Hq) as [[? _]|(_ & _ & _ & _ & _ & _ & Hinc)]; [lia|]. apply Hinc; lia.
Qed.

(** Chains of instructions are chains of time. *)
Lemma chain_timed rows : forall s e,
  chain instr1 instr2 s e rows -> 0 <= s -> (rows = [] -> 0 < s) -> (forall r, r ∈ rows -> row_timed r) ->
  (forall i j, 0 <= i < j -> j <= e -> T i < T j) ->
  chain time1 time2 (left_time s) (T e) rows.
Proof using Type.
  clear accepts_all write_ecs wide_addresses IntervalSetLaws0 accepts opt.
  induction rows as [|r rows IH]; intros s e Hc Hs Hne Hr Hinc; simpl in *.
  - specialize (Hne eq_refl). subst e. unfold left_time. destruct (Z.eqb_spec s 0); lia.
  - destruct Hc as (Hlo & Hle & Hc). destruct (Hr r) as [E2 E1]; [set_solver|]. rewrite E1, E2, Hlo.
    assert (instr2 r <= e) as He.
    { pose proof (chain_bounds instr1 instr2 (r :: rows) s e r) as Hb. simpl in Hb. apply Hb; [done|set_solver]. }
    split; [done|]. split.
    + unfold left_time. destruct (Z.eqb_spec s 0) as [->|].
      * destruct (decide (instr2 r = 0)) as [->|]; [lia|]. pose proof (Hinc 0 (instr2 r)). lia.
      * pose proof (Hinc (s - 1) (instr2 r)). lia.
    + replace (T (instr2 r) + 1) with (left_time (instr2 r + 1)).
      * apply IH; [done|lia|intros _; lia|set_solver|done].
      * unfold left_time. destruct (Z.eqb_spec (instr2 r + 1) 0); [lia|]. by replace (instr2 r + 1 - 1) with (instr2 r) by lia.
Qed.
End import.

(** ** Theorems *)

Section theorems.
Context `{SalConfig} {S : Type} `{!IntervalSet S, !IntervalSetLaws S}.
Context (accepts : Row -> bool) (opt : Options S) (evs : list Trace_Event).

(** A database that takes every row, all equivalence classes wanted, addresses
    wide enough, and a trace the table can hold. *)
Record importable : Prop := mkImportable {
  im_accepts : forall r, accepts r = true;
  im_writes : m_import_write_ecs opt = true;
  im_bits : 32 <= addr_bits;
  im_events : Forall valid_event evs;
  im_count : 0 < instr_count evs < 2 ^ 32;
  im_space : Forall (fun a => 0 <= a < 2 ^ 32) (mm_space opt)
}.

Definition import : option (bool * Importer) :=
  copy_to_database (hooks := MemoryImporter accepts) opt evs new_Importer.

(** C4. The import partitions the fault space: for every byte that is accessed or in the
    memory map, every dynamic instruction of the trace belongs to exactly one row, no row
    reaches beyond the trace, and no row belongs to any other byte. *)
Theorem fault_space_partitioned :
  importable ->
  exists ok s, import = Some (ok, s) /\
    (forall a i, in_space opt evs a -> 0 <= i < instr_count evs ->
       exists r, filter (covers instr1 instr2 i) (rows_at a (trace s)) = [r]) /\
    (forall r, r ∈ trace s -> in_space opt evs (row_address r) /\
       0 <= instr1 r /\ instr1 r <= instr2 r /\ instr2 r < instr_count evs).
Proof.
  intros [Ha Hw Hb Hv Hn Hmm].
  destruct (import_table accepts opt False (fun _ => 0) Ha Hw Hb evs Hv Hn Hmm) as (s & E & _ & Hsp & Hc & _); [done|].
  eexists _, s. split; [exact E|]. split.
  - intros a i Hin Hi. apply (chain_covers _ _ _ 0 (instr_count evs - 1)); [by apply Hc|lia].
  - intros r Hr. split; [by apply Hsp|].
    destruct (chain_bounds _ _ _ _ _ r (Hc _ (Hsp r Hr))) as (? & ? & ?); [by apply list_elem_of_filter|]. lia.
Qed.

(** C27. Def/use pruning is sound: inside a row its byte is not accessed before the row's
    last instruction; the row ends with an access, or it is the synthetic last row
    of its byte (of the configured kind), which no access to the byte follows or ends. *)
Theorem rows_are_equivalence_classes :
  importable ->
  exists ok s, import = Some (ok, s) /\
    forall r, r ∈ trace s ->
      (forall i, instr1 r <= i < instr2 r -> (i, row_address r) ∉ accesses opt evs 0 0) /\
      ((instr2 r, row_address r) ∈ accesses opt evs 0 0 \/
       (instr2 r = instr_count evs - 1 /\ row_access r = m_faultspace_rightmargin opt /\
        forall i, instr1 r <= i -> (i, row_address r) ∉ accesses opt evs 0 0)).
Proof.
  intros [Ha Hw Hb Hv Hn Hmm].
  destruct (import_table accepts opt False (fun _ => 0) Ha Hw Hb evs Hv Hn Hmm) as (s & E & _ & _ & _ & Hs & _); [done|].
  eexists _, s. split; [exact E|]. intros r Hr. destruct (Hs r Hr) as [[Hno [Hin|(El & Em & Hl)]] _]; [by split; [|left]|].
  split; [done|]. right. split_and!; [done|done|]. intros i Hi Hacc.
  destruct (decide (i < instr2 r)); [by apply (Hno i)|].
  destruct (decide (i = instr2 r)) as [->|]; [by rewrite El in Hacc|].
  pose proof (accesses_bound opt evs 0 0 i (row_address r) Hacc ltac:(lia)). lia.
Qed.

(** On a trace in which every instruction takes time and its memory accesses carry its
    time stamp, the imported table passes all six sanity checks (intervals of
    instructions and of time are disjoint, add up and form a rectangle), so that the import
    with checks enabled succeeds. *)
Theorem sanity_checks_pass (T : Z -> Z) :
  importable -> timed_from T 0 0 evs ->
  exists s, import = Some (true, s) /\ sanitychecks (trace s) = true.
Proof.
  intros [Ha Hw Hb Hv Hn Hmm] Ht.
  destruct (import_table accepts opt True T Ha Hw Hb evs Hv Hn Hmm (fun _ => Ht)) as (s & E & _ & Hsp & Hc & Hs & Hinc).
  exists s. assert (sanitychecks (trace s) = true) as Hok.
  { assert (forall r, r ∈ trace s -> chain instr1 instr2 0 (instr_count evs - 1) (rows_at (row_address r) (trace s))) as Hch
      by (intros r Hr; by apply Hc, Hsp).
    unfold sanitychecks. rewrite (chains_sanity_ok _ _ _ 0 (instr_count evs - 1)) by (done || lia). simpl.
    assert (T 0 <= T (instr_count evs - 1)) as HT.
    { destruct (decide (instr_count evs = 1)) as [->|]; [done|]. pose proof (Hinc I 0 (instr_count evs - 1)). lia. }
    apply (chains_sanity_ok _ _ _ (T 0) (T (instr_count evs - 1))); [done|]. intros r Hr.
    apply (chain_timed T (rows_at (row_address r) (trace s)) 0); [by apply Hch|done| | |by apply Hinc].
    - intros Hnil. assert (r ∈ rows_at (row_address r) (trace s)) as Hin by (by apply list_elem_of_filter).
      rewrite Hnil in Hin. set_solver.
    - intros r' Hr'. apply list_elem_of_filter in Hr' as [_ Hr']. by apply (Hs r' Hr'). }
  split; [|done]. unfold import. rewrite E, Hok. simpl. by rewrite andb_false_r.
Qed.
End theorems.

(** ** A concrete trace *)

Module ImporterDemo.

Import ListSet.
#[local] Existing Instance sal_32.

Definition instruction (ip d : Z) : Trace_Event := mkTE ip (Some d) None 0 READ None.
Definition access (ip a w : Z) (t : AccessType) : Trace_Event := mkTE ip None (Some a) w t None.

(** Three instructions: a two-byte read, a read-modify-write of one of the two
    bytes, and one that touches no memory. *)
Definition evs : list Trace_Event :=
  [instruction 1000 5; access 1000 100 2 READ; instruction 1004 1; access 1004 101 1 READ;
   access 1004 101 1 WRITE; instruction 1008 2].

(** Bytes 100 to 103 are the fault space. *)
Definition opt : Options (list Z) := mkOptions 1 (Some [100; 101; 102; 103]) WRITE true true false [].

Definition T (i : Z) : Z := if i =? 0 then 5 else if i =? 1 then 6 else 8.

Definition table : list Row :=
  match import (fun _ => true) opt evs with Some (_, s) => trace s | None => [] end.

Example table_intervals :
  (fun r => (row_address r, instr1 r, instr2 r)) <$> table =
  [(100, 0, 0); (101, 0, 0); (101, 1, 1); (100, 1, 2); (101, 2, 2); (102, 0, 2); (103, 0, 2)].
Proof. vm_compute. reflexivity. Qed.

Lemma space_demo : mm_space opt = [100; 101; 102; 103].
Proof. vm_compute. reflexivity. Qed.

Lemma in_space_demo : in_space opt evs 103.
Proof. right. rewrite space_demo, !elem_of_cons. auto. Qed.

Lemma count_demo : instr_count evs = 3.
Proof. vm_compute. reflexivity. Qed.

Lemma importable_demo : importable (fun _ => true) opt evs.
Proof.
  split; [done|done|simpl; lia| |vm_compute; done|].
  - repeat apply Forall_cons_2; try apply Forall_nil_2;
      (split; [intros a Ha; simpl in Ha; simplify_eq; simpl; lia|intros d Hd; simpl in Hd; simplify_eq; lia]).
  - rewrite space_demo. repeat apply Forall_cons_2; try apply Forall_nil_2; lia.
Qed.

Lemma fault_space_partitioned_witness :
  exists ok s, import (fun _ => true) opt evs = Some (ok, s) /\
    exists r, filter (covers instr1 instr2 2) (rows_at 103 (trace s)) = [r].
Proof.
  destruct (fault_space_partitioned (fun _ => true) opt evs importable_demo) as (ok & s & E & Hp & _).
  exists ok, s. split; [exact E|]. refine (Hp 103 2 in_space_demo _). rewrite count_demo. lia.
Defined.

Lemma rows_are_equivalence_classes_witness :
  exists ok s, import (fun _ => true) opt evs = Some (ok, s) /\
    forall r, r ∈ trace s -> forall i, instr1 r <= i < instr2 r -> (i, row_address r) ∉ accesses opt evs 0 0.
Proof.
  destruct (rows_are_equivalence_classes (fun _ => true) opt evs importable_demo) as (ok & s & E & Hr).
  exists ok, s. split; [exact E|]. intros r Hin. exact (proj1 (Hr r Hin)).
Defined.

Lemma sanity_checks_pass_witness :
  exists s, import (fun _ => true) opt evs = Some (true, s).
Proof.
  destruct (sanity_checks_pass (fun _ => true) opt evs T importable_demo) as (s & E & _).
  - simpl. exists 5. split_and!; try done. exists 1. split_and!; try done. exists 2. split_and!; done.
  - exists s. exact E.
Defined.
End ImporterDemo.
