(* ===== verification/SmartHops.v ===== *)
(** * Hop chains

    [core/util/smarthops/TraceReader.{hpp,cc}], [SmartHops.{hpp,cc}], the
    command-line variant of the same algorithm in [tools/compute-hops]
    ([SmartAlgorithm.cc], [SimpleAlgorithm.cc], [ResultCollector.cc]) and the injection points of
    [core/cpn/InjectionPoint*].

    A hop chain is a list of breakpoints and watchpoints; waiting for each in
    turn brings a machine from the start of the trace to a given dynamic
    instruction.  The chain for a position is computed from that for the
    position before, in one pass over the trace.

    Vectors that the code walks with reverse iterators ([m_result]) are kept
    newest first.  A [None] is an access to an empty or too short vector or
    through a null pointer. *)
From S2P Require Import Prelude Events Importer.

(** ** Trace reader *)

Inductive mem_access_type_e :=
  ACCESS_NONE | ACCESS_READ | ACCESS_WRITE | ACCESS_READORWRITE | ACCESS_CHECKPOINT.

#[export] Instance mem_access_type_e_eq_dec : EqDecision mem_access_type_e.
Proof. solve_decision. Defined.

#[export] Instance mem_access_type_e_countable : Countable mem_access_type_e.
Proof.
  refine (inj_countable'
    (fun t => match t with ACCESS_NONE => 0%nat | ACCESS_READ => 1%nat | ACCESS_WRITE => 2%nat
                      | ACCESS_READORWRITE => 3%nat | ACCESS_CHECKPOINT => 4%nat end)
    (fun n => match n with 0%nat => ACCESS_NONE | 1%nat => ACCESS_READ | 2%nat => ACCESS_WRITE
                      | 3%nat => ACCESS_READORWRITE | _ => ACCESS_CHECKPOINT end) _).
  by intros [].
Defined.

Definition trace_event_tuple_t : Type := Z * mem_access_type_e.
Definition result_tuple : Type := trace_event_tuple_t * Z.

Record TraceReader := mkReader {
  m_current_position : Z;
  ps : list Trace_Event;             (** what the protobuf stream still holds *)
  m_max_num_inst : Z;
  rd_ev : Trace_Event;
  ev_avail : bool
}.

Definition openTraceFile (evs : list Trace_Event) (num_inst : Z) : TraceReader :=
  mkReader 1 evs num_inst no_event false.

Section smarthops.
Context `{SalConfig}.

(** One tuple per accessed byte. *)
Definition access_bytes (ev : Trace_Event) : list trace_event_tuple_t :=
  (fun i => (wrap addr_bits (u64 (default 0 (te_memaddr ev) + Z.of_nat i)),
             match te_accesstype ev with READ => ACCESS_READ | WRITE => ACCESS_WRITE end))
    <$> seq 0 (Z.to_nat (te_width ev)).

Definition instr_tuple (ev : Trace_Event) : trace_event_tuple_t :=
  (wrap addr_bits (te_ip ev), ACCESS_NONE).

(** The memory accesses that follow, the instruction event read ahead and
    the rest of the stream. *)
Fixpoint read_accesses (evs : list Trace_Event)
    : list trace_event_tuple_t * option Trace_Event * list Trace_Event :=
  match evs with
  | [] => ([], None, [])
  | ev :: rest =>
      match te_memaddr ev with
      | None => ([], Some ev, rest)
      | Some _ => let '(tes, next, rest') := read_accesses rest in (access_bytes ev ++ tes, next, rest')
      end
  end.

(** The very first event is fetched before the loop that reads ahead. *)
Definition read_first (r : TraceReader) : option TraceReader :=
  if m_current_position r =? 1 then
    match ps r with
    | [] => None
    | ev :: rest => Some (mkReader (m_current_position r) rest (m_max_num_inst r) ev true)
    end
  else Some r.

(** Returns success, [trace_pos], [trace_events] and the reader. *)
Definition getNextTraceEvents (trace_pos : Z) (trace_events : list trace_event_tuple_t) (r : TraceReader)
    : bool * Z * list trace_event_tuple_t * TraceReader :=
  if (m_max_num_inst r >? 0) && (m_current_position r >? m_max_num_inst r)
  then (false, trace_pos, trace_events, r)
  else
    let trace_pos := m_current_position r in
    match read_first r with
    | None => (false, trace_pos, [], r)
    | Some r =>
        if negb (ev_avail r) then (false, trace_pos, [], r)
        else
          let '(tes, next, rest) := read_accesses (ps r) in
          (true, trace_pos, instr_tuple (rd_ev r) :: tes,
           mkReader (u32 (m_current_position r + 1)) rest (m_max_num_inst r)
             (default (rd_ev r) next) (bool_decide (is_Some next)))
    end.

(** ** Hop computation *)

Definition COST_CHANGE : Z := 1.
Definition COST_NO_CHANGE : Z := 2.

Record Config := mkConfig {
  m_use_watchpoints : bool;
  m_use_weights : bool;
  m_use_checkpoints : bool;
  m_cp_thresh : Z;
  m_cost_cp : Z;
  m_rollback_thresh : nat
}.

(** What [SmartHops]'s constructor sets. *)
Definition SmartHops_config : Config := mkConfig true true false 0 0 0.

Record SmartHops := mkHops {
  m_trace_pos : Z;
  m_costs : Z;
  m_trace_reader : TraceReader;
  m_next_cp_id : Z;
  m_last_positions : gmap trace_event_tuple_t Z;
  m_checkpoints : list (Z * list result_tuple);
  m_trace_events : list trace_event_tuple_t;
  m_result : list result_tuple
}.

Definition init (evs : list Trace_Event) : SmartHops :=
  mkHops 0 0 (openTraceFile evs 0) 0 ∅ [] [] [].

(** *** The events of one position *)

Record Scan := mkScan {
  sc_positions : gmap trace_event_tuple_t Z;
  best_te : option trace_event_tuple_t;
  last_pos : Z;
  hop_found : bool;
  sc_result : list result_tuple;
  sc_costs : Z
}.

Definition usable (cfg : Config) (te : trace_event_tuple_t) : bool :=
  m_use_watchpoints cfg || bool_decide (te.2 = ACCESS_NONE).

Definition scan_event (cfg : Config) (pos : Z) (sc : Scan) (te : trace_event_tuple_t) : Scan :=
  if negb (usable cfg te) then sc
  else
    match sc_positions sc !! te with
    | None =>
        let positions := <[te := pos]> (sc_positions sc) in
        if negb (hop_found sc)
        then mkScan positions (best_te sc) (last_pos sc) true [(te, pos)] COST_CHANGE
        else mkScan positions (best_te sc) (last_pos sc) true (sc_result sc) (sc_costs sc)
    | Some lp =>
        let positions := <[te := pos]> (sc_positions sc) in
        if lp <? last_pos sc
        then mkScan positions (Some te) lp (hop_found sc) (sc_result sc) (sc_costs sc)
        else mkScan positions (best_te sc) (last_pos sc) (hop_found sc) (sc_result sc) (sc_costs sc)
    end.

Definition scan_events (cfg : Config) (pos : Z) (tes : list trace_event_tuple_t) (s : SmartHops) : Scan :=
  fold_left (scan_event cfg pos) tes
    (mkScan (m_last_positions s) None (2 ^ 32 - 1) false (m_result s) (m_costs s)).

(** *** Deletion of unnecessary hops *)

(** The new hop must still wait behind [pre]: the loop stops. *)
Definition keeps (cfg : Config) (best : trace_event_tuple_t) (lp : Z) (pre : result_tuple) : bool :=
  (negb (m_use_weights cfg) && negb (lp <=? pre.2)) ||
  (m_use_weights cfg && negb (lp <? pre.2)) ||
  ((lp =? pre.2) && bool_decide (pre.1 <> best)).

Definition hop_cost (a b : trace_event_tuple_t) : Z :=
  if bool_decide (a = b) then COST_NO_CHANGE else COST_CHANGE.

(** Result: the shortened chain, its costs and [checkpoint_forbidden].  The
    chain before a checkpoint replaces it when the checkpoint is deleted. *)
Fixpoint delete_hops (fuel : nat) (cfg : Config) (cps : list (Z * list result_tuple))
    (best : trace_event_tuple_t) (lp : Z) (result : list result_tuple) (costs : Z)
    : option (list result_tuple * Z * bool) :=
  match fuel with
  | O => None
  | S fuel =>
      let delete (lst pre : result_tuple) (shorter : list result_tuple) :=
        if keeps cfg best lp pre then Some (result, costs, false)
        else if bool_decide (lst.1.2 = ACCESS_CHECKPOINT) then
          cp ← cps !! Z.to_nat lst.1.1;
          delete_hops fuel cfg cps best lp cp.2 cp.1
        else delete_hops fuel cfg cps best lp shorter (u32 (costs - hop_cost pre.1 lst.1)) in
      match result with
      | [] => Some (result, costs, false)
      | [lst] =>
          if bool_decide (lst.1.2 = ACCESS_CHECKPOINT) then
            cp ← cps !! Z.to_nat lst.1.1;
            match cp.2 with
            | [] => Some (result, costs, false)
            | pre :: _ =>
                rb ← cp.2 !! m_rollback_thresh cfg;
                if (rb : result_tuple).2 <? lp then Some (result, costs, true)
                else delete lst pre []
            end
          else Some (result, costs, false)
      | lst :: ((pre :: _) as shorter) => delete lst pre shorter
      end
  end.

(** Each hop is looked at once, as are those recorded with checkpoints. *)
Definition delete_fuel (cps : list (Z * list result_tuple)) (result : list result_tuple) : nat :=
  S (length result + sum_list ((fun cp => S (length cp.2)) <$> cps)).

(** *** One position *)

Definition hop_step (cfg : Config) (s : SmartHops) : option SmartHops :=
  let pos := m_trace_pos s in
  let sc := scan_events cfg pos (m_trace_events s) s in
  if hop_found sc then
    Some (mkHops pos (sc_costs sc) (m_trace_reader s) (m_next_cp_id s) (sc_positions sc)
            (m_checkpoints s) (m_trace_events s) (sc_result sc))
  else
    match best_te sc with
    | None => None
    | Some best =>
        '(result, costs, checkpoint_forbidden) ←
          delete_hops (delete_fuel (m_checkpoints s) (m_result s)) cfg (m_checkpoints s) best
            (last_pos sc) (m_result s) (m_costs s);
        back ← head result;
        let costs := u32 (costs + hop_cost best (back : result_tuple).1) in
        if m_use_checkpoints cfg && (costs >? m_cp_thresh cfg) && negb checkpoint_forbidden then
          Some (mkHops pos (m_cost_cp cfg) (m_trace_reader s) (u32 (m_next_cp_id s + 1)) (sc_positions sc)
                  (m_checkpoints s ++ [(costs, result)]) (m_trace_events s)
                  [((m_next_cp_id s, ACCESS_CHECKPOINT), pos)])
        else
          Some (mkHops pos costs (m_trace_reader s) (m_next_cp_id s) (sc_positions sc)
                  (m_checkpoints s) (m_trace_events s) ((best, pos) :: result))
    end.

(** The assignments by which the reader's results reach the state. *)
Definition read_position (s : SmartHops) : bool * SmartHops :=
  let '(ok, pos, tes, r) := getNextTraceEvents (m_trace_pos s) (m_trace_events s) (m_trace_reader s) in
  (ok, mkHops pos (m_costs s) r (m_next_cp_id s) (m_last_positions s) (m_checkpoints s) tes (m_result s)).

(** ** Messages *)

Inductive HopAccessType := HOP_EXECUTE | HOP_READ | HOP_WRITE.

Record InjectionPointMessage := mkIPM {
  ipm_costs : option Z;
  checkpoint_id : option Z;
  target_trace_position : option Z;
  hops : list (Z * HopAccessType)
}.

(** [None] is the exit on an access type that a hop cannot have. *)
Definition hop_of (h : result_tuple) : option (Z * HopAccessType) :=
  match h.1.2 with
  | ACCESS_NONE => Some (h.1.1, HOP_EXECUTE)
  | ACCESS_READ => Some (h.1.1, HOP_READ)
  | ACCESS_WRITE => Some (h.1.1, HOP_WRITE)
  | ACCESS_READORWRITE | ACCESS_CHECKPOINT => None
  end.

(** A checkpoint at the beginning of the chain. *)
Definition split_checkpoint (chain : list result_tuple) : option Z * list result_tuple :=
  match chain with
  | ((id, ACCESS_CHECKPOINT), _) :: rest => (Some (u32 id), rest)
  | _ => (None, chain)
  end.

Definition convertToIPM (result : list result_tuple) (costs : Z) : option InjectionPointMessage :=
  let chain := rev result in
  let '(cp, chain') := split_checkpoint chain in
  let target := match result with
                | back :: _ => if bool_decide (back.1.2 <> ACCESS_CHECKPOINT) then back.2 else 0
                | [] => 0
                end in
  hs ← mapM hop_of chain';
  Some (mkIPM (Some costs) cp (Some target) hs).

(** ** [calculateFollowingHop] *)

(** [while (m_trace_pos < instruction_offset)]; [Some (false, _)] is the end of the trace. *)
Fixpoint follow_loop (fuel : nat) (cfg : Config) (offset : Z) (s : SmartHops) : option (bool * SmartHops) :=
  if m_trace_pos s <? offset then
    match fuel with
    | O => None
    | S fuel =>
        let '(ok, s1) := read_position s in
        if ok : bool then s2 ← hop_step cfg s1; follow_loop fuel cfg offset s2
        else Some (false, s1)
    end
  else Some (true, s).

(** Every position read takes at least one event from the stream or the
    event that was read ahead. *)
Definition follow_fuel (s : SmartHops) : nat := S (S (length (ps (m_trace_reader s)))).

Definition calculateFollowingHop (cfg : Config) (offset : Z) (ip : InjectionPointMessage) (s : SmartHops)
    : option (bool * InjectionPointMessage * SmartHops) :=
  if offset =? 0 then
    let s := mkHops (m_trace_pos s) 0 (m_trace_reader s) (m_next_cp_id s) (m_last_positions s)
               (m_checkpoints s) (m_trace_events s) [] in
    ip ← convertToIPM (m_result s) (m_costs s);
    Some (true, ip, s)
  else
    '(ok, s) ← follow_loop (follow_fuel s) cfg offset s;
    if ok : bool then ip ← convertToIPM (m_result s) (m_costs s); Some (true, ip, s)
    else Some (false, ip, s).

(** ** The command-line tool *)

(** [ResultCollector.cc]: the cost model on a finished chain. *)
Fixpoint change_costs (chain : list result_tuple) : Z :=
  match chain with
  | a :: ((b :: _) as rest) => hop_cost a.1 b.1 + change_costs rest
  | _ => 0
  end.

Definition calculate_costs (chain : list result_tuple) : Z := COST_CHANGE + change_costs chain.

(** What the collector is given for every position. *)
Record Collected := mkCollected {
  co_results : list (list result_tuple * Z);
  co_checkpoints : list Z
}.

Definition addResult (res : list result_tuple) (costs : Z) (c : Collected) : Collected :=
  mkCollected (co_results c ++ [(res, if costs =? 0 then calculate_costs res else costs)])
    (co_checkpoints c).

Definition addCheckpoint (pos : Z) (c : Collected) : Collected :=
  mkCollected (co_results c) (co_checkpoints c ++ [pos]).

(** [SmartAlgorithm::calculateAllHops], whose loop body is that of
    [SmartHops] with the global settings. *)
Fixpoint SmartAlgorithm_loop (fuel : nat) (cfg : Config) (s : SmartHops) (c : Collected)
    : option (SmartHops * Collected) :=
  match fuel with
  | O => None
  | S fuel =>
      let '(ok, s1) := read_position s in
      if ok : bool then
        s2 ← hop_step cfg s1;
        let c := if bool_decide (m_next_cp_id s2 = m_next_cp_id s1) then c
                 else addCheckpoint (m_trace_pos s2) c in
        SmartAlgorithm_loop fuel cfg s2 (addResult (rev (m_result s2)) (m_costs s2) c)
      else Some (s1, c)
  end.

Definition SmartAlgorithm_calculateAllHops (cfg : Config) (trace : TraceReader) : option Collected :=
  let s := mkHops 0 0 trace 0 ∅ [] [] [] in
  snd <$> SmartAlgorithm_loop (S (follow_fuel s)) cfg s (mkCollected [] []).

(** [SimpleAlgorithm]: every chain repeats the rarest event. *)
Record Occurrences := mkOcc {
  m_occurences : gmap trace_event_tuple_t Z;
  m_occ_cp : gmap trace_event_tuple_t Z;
  candidate : option trace_event_tuple_t;
  num_hops : Z
}.

Definition count_event (cfg : Config) (o : Occurrences) (te : trace_event_tuple_t) : Occurrences :=
  if negb (usable cfg te) then o
  else
    let occ_cp := <[te := match m_occ_cp o !! te with None => 1 | Some n => u64 (n + 1) end]> (m_occ_cp o) in
    match m_occurences o !! te with
    | None => mkOcc (<[te := 1]> (m_occurences o)) occ_cp (Some te) 1
    | Some n =>
        let n := u64 (n + 1) in
        let occ := <[te := n]> (m_occurences o) in
        if n <? num_hops o then mkOcc occ occ_cp (Some te) n
        else mkOcc occ occ_cp (candidate o) (num_hops o)
    end.

(** [None] is the exit with an error message. *)
Definition count_position (cfg : Config) (pos : Z) (tes : list trace_event_tuple_t) (o : Occurrences) (c : Collected)
    : option (Occurrences * Collected) :=
  let o := fold_left (count_event cfg) tes (mkOcc (m_occurences o) (m_occ_cp o) None (2 ^ 64 - 1)) in
  cand ← candidate o;
  let costs := u32 (1 + 2 * (num_hops o - 1)) in
  if m_use_checkpoints cfg && (costs >? m_cp_thresh cfg) then
    n ← m_occ_cp o !! cand;
    let costs := u32 (1 + 2 * (n - 1) + m_cost_cp cfg) in
    if costs >? m_cp_thresh cfg then
      Some (mkOcc (m_occurences o) ∅ (candidate o) (num_hops o),
            addResult [] (m_cost_cp cfg) (addCheckpoint pos c))
    else Some (o, addResult [] costs c)
  else Some (o, addResult [] costs c).

Fixpoint SimpleAlgorithm_loop (fuel : nat) (cfg : Config) (pos : Z) (tes : list trace_event_tuple_t)
    (trace : TraceReader) (o : Occurrences) (c : Collected) : option Collected :=
  match fuel with
  | O => None
  | S fuel =>
      let '(ok, pos, tes, trace) := getNextTraceEvents pos tes trace in
      if ok : bool then
        '(o, c) ← count_position cfg pos tes o c;
        SimpleAlgorithm_loop fuel cfg pos tes trace o c
      else Some c
  end.

Definition SimpleAlgorithm_calculateAllHops (cfg : Config) (trace : TraceReader) : option Collected :=
  SimpleAlgorithm_loop (S (S (S (length (ps trace))))) cfg 0 [] trace (mkOcc ∅ ∅ None 0) (mkCollected [] []).

(** ** Injection points *)

Record InjectionPointHops := mkIPH {
  m_sa : option SmartHops;            (** [None] before [init] *)
  m_curr_instr1 : Z;
  m_curr_instr2 : Z;
  m_results : list InjectionPointMessage;
  m_ip : option InjectionPointMessage
}.

Definition new_InjectionPointHops : InjectionPointHops := mkIPH None (-1) (-1) [] None.

(** The index of the last result that is too old. *)
Fixpoint delete_index (instr1 : Z) (i : nat) (found : option nat) (rs : list InjectionPointMessage)
    : option (option nat) :=
  match rs with
  | [] => Some found
  | r :: rs =>
      t ← target_trace_position r;
      delete_index instr1 (S i) (if t <? instr1 then Some i else found) rs
  end.

(** [while ((long)instr2 > m_curr_instr2)] *)
Fixpoint calculate_results (fuel : nat) (instr1 instr2 : Z) (sa : SmartHops) (curr1 curr2 : Z)
    (rs : list InjectionPointMessage) : option (SmartHops * Z * Z * list InjectionPointMessage) :=
  if instr2 >? curr2 then
    match fuel with
    | O => None
    | S fuel =>
        let '(curr1, next) := if instr1 >? curr2 then (instr1, instr1) else (curr1, u32 (curr2 + 1)) in
        '(ok, m, sa) ← calculateFollowingHop SmartHops_config next (mkIPM None None None []) sa;
        if ok : bool then calculate_results fuel instr1 instr2 sa curr1 next (rs ++ [m])
        else None
    end
  else Some (sa, curr1, curr2, rs).

(** The first message of least costs; [None] if one carries no costs. *)
Fixpoint choose_minimum (rs : list InjectionPointMessage) (min : option InjectionPointMessage) (min_costs : Z)
    : option InjectionPointMessage :=
  match rs with
  | [] => min
  | r :: rs =>
      c ← ipm_costs r;
      if c <? min_costs then choose_minimum rs (Some r) c else choose_minimum rs min min_costs
  end.

(** [None]: exit with an error, or an access outside [m_results].  [evs] is
    the trace that [init] opens. *)
Definition InjectionPointHops_parseFromInjectionInstr (evs : list Trace_Event) (instr1 instr2 : Z)
    (ip : InjectionPointHops) : option InjectionPointHops :=
  let sa := default (init evs) (m_sa ip) in
  del ← delete_index instr1 0 None (m_results ip);
  let '(rs, curr1) := match del with
                      | Some i => (drop i (m_results ip), instr1)
                      | None => (m_results ip, m_curr_instr1 ip)
                      end in
  '(sa, curr1, curr2, rs) ←
    calculate_results (Z.to_nat (instr2 - m_curr_instr2 ip)) instr1 instr2 sa curr1 (m_curr_instr2 ip) rs;
  let search := instr1 - curr1 in
  let search_end := instr2 - curr1 in
  if search <? 0 then None
  else
    m ← (if search =? search_end then rs !! Z.to_nat search
         else if search_end <? search then None
         else if Z.of_nat (length rs) <? search_end then None
         else choose_minimum (take (Z.to_nat (search_end - search)) (drop (Z.to_nat search) rs)) None (2 ^ 32 - 1));
    Some (mkIPH (Some sa) curr1 curr2 rs (Some m)).

(** [InjectionPointSteps]: the message holds the instruction offset. *)
Definition InjectionPointSteps_parseFromInjectionInstr (instr1 instr2 : Z) : Z := instr2.

End smarthops.
