(* ===== verification/HopTheorems.v ===== *)
(** * Theorems on hop chains

    What a chain is for: [navigate] waits for each hop in turn.  The chains
    that [SmartHops] computes lead to the requested position of every
    trace, at the costs the cost model assigns to them.  Then the loop over
    checkpoints, and which chain an injection point receives. *)
From S2P Require Import Prelude Events Importer SmartHops.

Section hops.
Context `{SalConfig}.

(** ** The positions of a trace *)

(** An instruction with its memory accesses, byte by byte; the first event
    always counts as an instruction. *)
Fixpoint positions_from (cur : list trace_event_tuple_t) (evs : list Trace_Event)
    : list (list trace_event_tuple_t) :=
  match evs with
  | [] => [cur]
  | ev :: evs =>
      match te_memaddr ev with
      | Some _ => positions_from (cur ++ access_bytes ev) evs
      | None => cur :: positions_from [instr_tuple ev] evs
      end
  end.

Definition positions (evs : list Trace_Event) : list (list trace_event_tuple_t) :=
  match evs with
  | [] => []
  | ev :: evs => positions_from [instr_tuple ev] evs
  end.

(** ** Navigation *)

(** The events of a run in order, with their positions. *)
Fixpoint flat (n : Z) (pss : list (list trace_event_tuple_t)) : list (Z * trace_event_tuple_t) :=
  match pss with
  | [] => []
  | l :: pss => ((fun te => (n, te)) <$> l) ++ flat (n + 1) pss
  end.

(** Run until [te] occurs. *)
Fixpoint wait_for (te : trace_event_tuple_t) (run : list (Z * trace_event_tuple_t))
    : option (Z * list (Z * trace_event_tuple_t)) :=
  match run with
  | [] => None
  | (n, te') :: run => if bool_decide (te = te') then Some (n, run) else wait_for te run
  end.

Fixpoint navigate (chain : list trace_event_tuple_t) (n : Z) (run : list (Z * trace_event_tuple_t))
    : option (Z * list (Z * trace_event_tuple_t)) :=
  match chain with
  | [] => Some (n, run)
  | te :: chain => '(n, run) ← wait_for te run; navigate chain n run
  end.

(** What a hop of a message waits for. *)
Definition hop_event (h : Z * HopAccessType) : trace_event_tuple_t :=
  (h.1, match h.2 with HOP_EXECUTE => ACCESS_NONE | HOP_READ => ACCESS_READ | HOP_WRITE => ACCESS_WRITE end).

(** The position a chain leads to, from the start of the trace. *)
Definition arrives (evs : list Trace_Event) (hs : list (Z * HopAccessType)) : option Z :=
  fst <$> navigate (hop_event <$> hs) 0 (flat 1 (positions evs)).

Lemma navigate_snoc chain te n run :
  navigate (chain ++ [te]) n run = '(n, run) ← navigate chain n run; wait_for te run.
Proof.
  revert n run. induction chain as [|te' chain IH]; intros n run; simpl.
  { destruct (wait_for te run) as [[??]|]; done. }
  destruct (wait_for te' run) as [[??]|]; simpl; [apply IH | done].
Qed.

(** What is left of a position after the first [te]. *)
Fixpoint after_first (te : trace_event_tuple_t) (l : list trace_event_tuple_t) : list trace_event_tuple_t :=
  match l with
  | [] => []
  | te' :: l => if bool_decide (te = te') then l else after_first te l
  end.

Lemma after_first_incl te te' l : te' ∈ after_first te l -> te' ∈ l.
Proof. induction l as [|x l IH]; simpl; [done|]. case_bool_decide; set_solver. Qed.

Lemma after_first_tail te te' l : te' ∈ after_first te l -> te' ∈ tail l.
Proof.
  destruct l as [|x l]; simpl; [done|]. case_bool_decide; [done|]. apply after_first_incl.
Qed.

Lemma after_first_NoDup te l : NoDup l -> te ∉ after_first te l.
Proof.
  induction 1 as [|x l Hx Hnd IH]; simpl; [set_solver|]. case_bool_decide; [by subst|done].
Qed.

Lemma wait_for_skip te n l run :
  te ∉ l -> wait_for te (((fun te => (n, te)) <$> l) ++ run) = wait_for te run.
Proof.
  induction l as [|x l IH]; intros Hni; simpl; [done|].
  rewrite bool_decide_eq_false_2 by set_solver. apply IH. set_solver.
Qed.

Lemma wait_for_here te n l run :
  te ∈ l ->
  wait_for te (((fun te => (n, te)) <$> l) ++ run)
  = Some (n, ((fun te => (n, te)) <$> after_first te l) ++ run).
Proof.
  induction l as [|x l IH]; intros Hin; simpl; [set_solver|].
  case_bool_decide; [done|]. apply IH. set_solver.
Qed.

(** Waiting crosses the positions without the event. *)
Lemma wait_for_flat te pss n l :
  pss !! n = Some l -> te ∈ l ->
  (forall i l', (i < n)%nat -> pss !! i = Some l' -> te ∉ l') ->
  forall k, wait_for te (flat k pss)
  = Some (k + Z.of_nat n, ((fun te => (k + Z.of_nat n, te)) <$> after_first te l)
                          ++ flat (k + Z.of_nat n + 1) (drop (S n) pss)).
Proof.
  revert n. induction pss as [|l0 pss IH]; intros n Hl Hin Hbefore k; [done|].
  destruct n as [|n]; simpl in *.
  - simplify_eq. rewrite Z.add_0_r. rewrite drop_0. by apply wait_for_here.
  - rewrite wait_for_skip by (eapply (Hbefore 0%nat); [lia | done]).
    rewrite (IH n Hl Hin) by (intros i l' Hi Hl'; apply (Hbefore (S i)); [lia | done]).
    by replace (k + Z.of_nat (S n)) with (k + 1 + Z.of_nat n) by lia.
Qed.

(** ** Chains that lead to their positions *)

Definition at_pos (pss : list (list trace_event_tuple_t)) (p : Z) : list trace_event_tuple_t :=
  default [] (pss !! Z.to_nat (p - 1)).

(** No [te] at the positions above [p] and below [q]. *)
Definition absent (pss : list (list trace_event_tuple_t)) (te : trace_event_tuple_t) (p q : Z) : Prop :=
  forall i, p < i < q -> te ∉ at_pos pss i.

(** A chain (newest hop first): each hop's event is the next of its kind
    behind the hop before. *)
Fixpoint leads (pss : list (list trace_event_tuple_t)) (r : list result_tuple) : Prop :=
  match r with
  | [] => True
  | (b, q) :: r =>
      match r with
      | [] => 1 <= q /\ b ∈ at_pos pss q /\ absent pss b 0 q
      | (a, p) :: _ =>
          p < q /\ b ∈ at_pos pss q /\ absent pss b p q /\ (b ∉ after_first a (at_pos pss p)) /\ leads pss r
      end
  end.

Lemma at_pos_lookup pss p te : te ∈ at_pos pss p -> pss !! Z.to_nat (p - 1) = Some (at_pos pss p).
Proof. unfold at_pos. destruct (pss !! _); simpl; [done | set_solver]. Qed.

Lemma wait_for_position pss te p q :
  0 <= p < q -> te ∈ at_pos pss q -> absent pss te p q ->
  wait_for te (flat (p + 1) (drop (Z.to_nat p) pss))
  = Some (q, ((fun te => (q, te)) <$> after_first te (at_pos pss q))
             ++ flat (q + 1) (drop (Z.to_nat q) pss)).
Proof.
  intros Hpq Hin Habs. pose proof (at_pos_lookup _ _ _ Hin) as Hl.
  rewrite (wait_for_flat te _ (Z.to_nat (q - 1 - p)) (at_pos pss q)).
  - rewrite drop_drop. replace (p + 1 + Z.of_nat (Z.to_nat (q - 1 - p))) with q by lia.
    by replace (Z.to_nat p + S (Z.to_nat (q - 1 - p)))%nat with (Z.to_nat q) by lia.
  - rewrite lookup_drop. by replace (Z.to_nat p + Z.to_nat (q - 1 - p))%nat with (Z.to_nat (q - 1)) by lia.
  - done.
  - intros i l' Hi Hl'. rewrite lookup_drop in Hl'.
    specialize (Habs (p + 1 + Z.of_nat i) ltac:(lia)). unfold at_pos in Habs.
    replace (Z.to_nat (p + 1 + Z.of_nat i - 1)) with (Z.to_nat p + i)%nat in Habs by lia.
    by rewrite Hl' in Habs.
Qed.

Lemma leads_pos pss b q r : leads pss ((b, q) :: r) -> 1 <= q.
Proof.
  revert b q. induction r as [|[a p] r IH]; intros b q; simpl; [tauto|].
  intros (Hpq & _ & _ & _ & Hr). specialize (IH a p Hr). lia.
Qed.

Lemma leads_navigate pss b q r :
  leads pss ((b, q) :: r) ->
  navigate (fst <$> rev ((b, q) :: r)) 0 (flat 1 pss)
  = Some (q, ((fun te => (q, te)) <$> after_first b (at_pos pss q)) ++ flat (q + 1) (drop (Z.to_nat q) pss)).
Proof.
  revert b q. induction r as [|[a p] r IH]; intros b q.
  - intros (Hq & Hin & Habs).
    assert (wait_for b (flat 1 pss) = Some (q, ((fun te => (q, te)) <$> after_first b (at_pos pss q))
             ++ flat (q + 1) (drop (Z.to_nat q) pss))) as Hw.
    { rewrite <- (wait_for_position pss b 0 q) by (done || lia). done. }
    simpl. by rewrite Hw.
  - intros (Hpq & Hin & Habs & Hni & Hr). pose proof (leads_pos _ _ _ _ Hr).
    cbn [rev]. rewrite fmap_app.
    change (fst <$> [(b, q)]) with [b]. rewrite navigate_snoc.
    change (rev r ++ [(a, p)]) with (rev ((a, p) :: r)). rewrite (IH a p Hr).
    cbn [mbind option_bind]. rewrite wait_for_skip by done. apply wait_for_position; done || lia.
Qed.

(** ** The scan over one position *)

Section scan.
Context (cfg : Config) (pos : Z) (m : gmap trace_event_tuple_t Z) (res : list result_tuple) (costs : Z).
Hypothesis m_below : forall te p, m !! te = Some p -> p < pos.
Hypothesis pos_small : pos < 2 ^ 32.

Definition scan_start : Scan := mkScan m None (2 ^ 32 - 1) false res costs.

(** [b] is the first of the events with the smallest last position. *)
Definition best_of (l : list trace_event_tuple_t) (b : trace_event_tuple_t) (lp : Z) : Prop :=
  exists l1 l2, l = l1 ++ b :: l2 /\ usable cfg b = true /\ m !! b = Some lp /\
    (forall te p, te ∈ l -> usable cfg te = true -> m !! te = Some p -> lp <= p) /\
    (forall te p, te ∈ l1 -> usable cfg te = true -> m !! te = Some p -> lp < p).

Definition scanned (l : list trace_event_tuple_t) (sc : Scan) : Prop :=
  (forall te, sc_positions sc !! te
     = if usable cfg te && bool_decide (te ∈ l) then Some pos else m !! te) /\
  (if hop_found sc
   then exists t, t ∈ l /\ usable cfg t = true /\ m !! t = None /\
          sc_result sc = [(t, pos)] /\ sc_costs sc = COST_CHANGE
   else sc_result sc = res /\ sc_costs sc = costs /\
        (forall te, te ∈ l -> usable cfg te = true -> is_Some (m !! te)) /\
        match best_te sc with
        | None => last_pos sc = 2 ^ 32 - 1 /\ forall te, te ∈ l -> usable cfg te = false
        | Some b => best_of l b (last_pos sc)
        end).

Lemma best_of_snoc l b lp x :
  best_of l b lp -> (forall p, usable cfg x = true -> m !! x = Some p -> lp <= p) -> best_of (l ++ [x]) b lp.
Proof.
  intros (l1 & l2 & -> & Hu & Hm & Hle & Hlt) Hx. exists l1, (l2 ++ [x]).
  rewrite <- app_assoc. split; [done|]. split; [done|]. split; [done|]. split; [|done].
  intros te p Hin Hute Hmte. apply elem_of_app in Hin as [Hin|Hin].
  - apply (Hle te p); set_solver.
  - apply elem_of_app in Hin as [Hin|Hin]; [apply (Hle te p); set_solver|].
    apply list_elem_of_singleton in Hin as ->. by apply Hx.
Qed.

Lemma best_of_new l x lp :
  usable cfg x = true -> m !! x = Some lp ->
  (forall te p, te ∈ l -> usable cfg te = true -> m !! te = Some p -> lp < p) -> best_of (l ++ [x]) x lp.
Proof.
  intros Hu Hm Hlt. exists l, []. split; [done|]. split; [done|]. split; [done|]. split; [|done].
  intros te p Hin Hute Hmte. apply elem_of_app in Hin as [Hin|Hin].
  - specialize (Hlt te p Hin Hute Hmte). lia.
  - apply list_elem_of_singleton in Hin as ->. rewrite Hm in Hmte. injection Hmte as <-. lia.
Qed.

Lemma positions_snoc l sc x :
  (forall te, sc_positions sc !! te
     = if usable cfg te && bool_decide (te ∈ l) then Some pos else m !! te) ->
  usable cfg x = true ->
  forall te, <[x := pos]> (sc_positions sc) !! te
     = if usable cfg te && bool_decide (te ∈ l ++ [x]) then Some pos else m !! te.
Proof.
  intros Hp Hx te. destruct (decide (x = te)) as [->|Hne].
  - rewrite lookup_insert_eq, Hx, bool_decide_eq_true_2 by set_solver. done.
  - rewrite lookup_insert_ne, Hp by done.
    by rewrite (bool_decide_ext (te ∈ l ++ [x]) (te ∈ l)) by set_solver.
Qed.

Lemma forall_snoc (P : trace_event_tuple_t -> Prop) l x :
  (forall te, te ∈ l -> P te) -> P x -> forall te, te ∈ l ++ [x] -> P te.
Proof. intros Hl Hx te [Hin|Hin]%elem_of_app; [auto|]. by apply list_elem_of_singleton in Hin as ->. Qed.

Lemma scanned_unusable l sc x : usable cfg x = false -> scanned l sc -> scanned (l ++ [x]) sc.
Proof.
  intros Hx [Hp Hf]. split.
  - intros te. rewrite Hp. destruct (usable cfg te) eqn:Hte; [|done]. simpl.
    replace (bool_decide (te ∈ l ++ [x])) with (bool_decide (te ∈ l)); [done|].
    apply bool_decide_ext. rewrite elem_of_app, list_elem_of_singleton.
    split; [by left | intros [?| ->]; [done | congruence]].
  - destruct (hop_found sc).
    + destruct Hf as (t & Ht & Hf). exists t. split; [set_solver | done].
    + destruct Hf as (Hr & Hc & Hs & Hb). split; [done|]. split; [done|]. split.
      { apply (forall_snoc (fun te => usable cfg te = true -> is_Some (m !! te))); [done | congruence]. }
      destruct (best_te sc).
      * apply best_of_snoc; [done | congruence].
      * destruct Hb as [Hb1 Hb2]. split; [done|]. by apply (forall_snoc (fun te => usable cfg te = false)).
Qed.

Lemma best_below l b lp : best_of l b lp -> lp < pos.
Proof. intros (? & ? & _ & _ & Hmb & _). eauto. Qed.

(** An event with a last position becomes the best one or does not. *)
Lemma scanned_known l sc x px :
  scanned l sc -> hop_found sc = false -> usable cfg x = true -> m !! x = Some px ->
  let lp := if bool_decide (x ∈ l) then pos else px in
  scanned (l ++ [x])
    (if lp <? last_pos sc
     then mkScan (<[x := pos]> (sc_positions sc)) (Some x) lp false (sc_result sc) (sc_costs sc)
     else mkScan (<[x := pos]> (sc_positions sc)) (best_te sc) (last_pos sc) false (sc_result sc) (sc_costs sc)).
Proof.
  intros [Hp Hf] Hhf Hx Hmx lp. rewrite Hhf in Hf. destruct Hf as (Hr & Hc & Hs & Hb).
  pose proof (positions_snoc l sc x Hp Hx) as Hp'. pose proof (m_below _ _ Hmx).
  assert (forall te, te ∈ l ++ [x] -> usable cfg te = true -> is_Some (m !! te)) as Hs'
    by (apply (forall_snoc (fun te => usable cfg te = true -> is_Some (m !! te))); eauto).
  destruct (Z.ltb_spec lp (last_pos sc)) as [Hlt|Hge]; (split; [exact Hp'|]); simpl;
    (split; [done|]); (split; [done|]); (split; [done|]).
  - assert (lp = px) as ->.
    { unfold lp in *. case_bool_decide; [|done]. exfalso.
      destruct (best_te sc) as [b|]; [apply best_below in Hb; lia|].
      destruct Hb as [_ Hb]. rewrite Hb in Hx; done. }
    apply best_of_new; [done|done|]. intros te p Hin Hu Hm.
    destruct (best_te sc) as [b|]; [|destruct Hb as [_ Hb]; rewrite Hb in Hu; done].
    destruct Hb as (? & ? & ? & ? & ? & Hle & _). specialize (Hle te p Hin Hu Hm). lia.
  - destruct (best_te sc) as [b|]; cycle 1.
    { destruct Hb as [Hb1 Hb2]. unfold lp in *. case_bool_decide as Hxl; [|lia].
      rewrite (Hb2 x Hxl) in Hx. done. }
    apply best_of_snoc; [done|]. intros p _ Hp2. unfold lp in *. case_bool_decide as Hxl.
    + destruct Hb as (? & ? & ? & ? & ? & Hle & _). by apply (Hle x p).
    + simplify_eq. lia.
Qed.

Lemma scanned_step l sc x : scanned l sc -> scanned (l ++ [x]) (scan_event cfg pos sc x).
Proof.
  intros Hsc. unfold scan_event. destruct (usable cfg x) eqn:Hx; simpl; [|by apply scanned_unusable].
  pose proof Hsc as [Hp Hf].
  pose proof (positions_snoc l sc x Hp Hx) as Hp'. pose proof (Hp x) as Hpx. rewrite Hx in Hpx. simpl in Hpx.
  destruct (hop_found sc) eqn:Hhf.
  - destruct Hf as (t & Ht & Hf).
    destruct (sc_positions sc !! x); [destruct (_ <? _)|]; (split; [exact Hp'|]); exists t;
      (split; [set_solver | done]).
  - rewrite Hpx. destruct (m !! x) as [px|] eqn:Hmx.
    + pose proof (scanned_known l sc x px Hsc Hhf Hx Hmx) as Hk. simpl in Hk.
      case_bool_decide; [|exact Hk]. exact Hk.
    + destruct Hf as (_ & _ & Hs & _). case_bool_decide as Hxl.
      { destruct (Hs x Hxl Hx). congruence. }
      split; [exact Hp'|]. exists x. split; [set_solver | done].
Qed.

Lemma scanned_all l : scanned l (fold_left (scan_event cfg pos) l scan_start).
Proof.
  induction l as [|x l IH] using rev_ind.
  - split; [intros te; by rewrite bool_decide_eq_false_2, andb_false_r by set_solver|].
    simpl. split; [done|]. split; [done|]. split; [set_solver|]. split; [done | set_solver].
  - rewrite fold_left_app. simpl. by apply scanned_step.
Qed.

End scan.

(** ** Reading the positions *)

Lemma read_accesses_positions evs cur :
  positions_from cur evs
  = let '(tes, next, rest) := read_accesses evs in
    (cur ++ tes) :: match next with Some ev => positions (ev :: rest) | None => [] end.
Proof.
  revert cur. induction evs as [|ev evs IH]; intros cur; simpl; [by rewrite app_nil_r|].
  destruct (te_memaddr ev); simpl; [|by rewrite app_nil_r].
  rewrite IH. destruct (read_accesses evs) as [[tes next] rest]. by rewrite app_assoc.
Qed.

(** The reader has delivered the first [n] positions. *)
Definition reader_at (evs : list Trace_Event) (n : nat) (r : TraceReader) : Prop :=
  m_max_num_inst r = 0 /\ m_current_position r = Z.of_nat n + 1 /\
  match n with
  | O => ps r = evs
  | S _ => drop n (positions evs) = if ev_avail r then positions (rd_ev r :: ps r) else []
  end.

Lemma reader_remaining evs n r :
  reader_at evs n r -> (length (drop n (positions evs)) <= S (length (ps r)))%nat.
Proof.
  assert (forall cur l, length (positions_from cur l) <= S (length l))%nat as Hlen.
  { intros cur l. revert cur. induction l as [|ev l IH]; intros cur; simpl; [lia|].
    destruct (te_memaddr ev); simpl; [specialize (IH (cur ++ access_bytes ev)) | specialize (IH [instr_tuple ev])]; lia. }
  intros (_ & _ & Hr). destruct n as [|n].
  - rewrite drop_0, <- Hr. destruct (ps r) as [|ev l]; simpl; [lia|]. specialize (Hlen [instr_tuple ev] l). lia.
  - rewrite Hr. destruct (ev_avail r); simpl; [apply Hlen | lia].
Qed.

Lemma reader_first evs n r :
  reader_at evs n r ->
  match read_first r with
  | Some r1 => m_max_num_inst r1 = 0 /\ m_current_position r1 = Z.of_nat n + 1 /\
               drop n (positions evs) = if ev_avail r1 then positions (rd_ev r1 :: ps r1) else []
  | None => positions evs !! n = None
  end.
Proof.
  intros (Hmax & Hcur & Hr). unfold read_first. rewrite Hcur, Hmax. destruct n as [|n].
  - rewrite drop_0. change (Z.of_nat 0 + 1 =? 1) with true. cbn iota. subst evs.
    by destruct (ps r) as [|ev rest].
  - rewrite (proj2 (Z.eqb_neq _ _)) by lia. done.
Qed.

Lemma reader_next evs n r p0 t0 :
  reader_at evs n r -> Z.of_nat n + 2 < 2 ^ 32 ->
  match positions evs !! n with
  | Some l => exists r', getNextTraceEvents p0 t0 r = (true, Z.of_nat n + 1, l, r') /\ reader_at evs (S n) r'
  | None => exists r', getNextTraceEvents p0 t0 r = (false, Z.of_nat n + 1, [], r')
  end.
Proof.
  intros Hr Hn. pose proof (reader_first _ _ _ Hr) as Hf. destruct Hr as (Hmax & Hcur & _).
  unfold getNextTraceEvents. rewrite Hmax, Hcur. cbn [Z.gtb Z.compare andb].
  destruct (read_first r) as [r1|]; [|rewrite Hf; eauto].
  destruct Hf as (Hmax1 & Hcur1 & Hdrop).
  pose proof (lookup_drop (positions evs) n 0) as Hl. rewrite Nat.add_0_r in Hl. rewrite <- Hl, Hdrop. clear Hl.
  destruct (ev_avail r1); simpl; [|eauto].
  rewrite read_accesses_positions. destruct (read_accesses (ps r1)) as [[tes next] rest] eqn:Hra. simpl.
  eexists. split; [reflexivity|]. rewrite Hcur1, Hmax1. unfold reader_at. simpl.
  split; [done|]. split; [rewrite u32_small; lia|].
  replace (S n) with (n + 1)%nat by lia. rewrite <- drop_drop, Hdrop. simpl.
  rewrite read_accesses_positions, Hra. simpl. rewrite drop_0. by destruct next.
Qed.

(** An instruction first, then its accesses. *)
Definition shaped (l : list trace_event_tuple_t) : Prop :=
  exists a tl, l = (a, ACCESS_NONE) :: tl /\ Forall (fun te => te.2 = ACCESS_READ \/ te.2 = ACCESS_WRITE) tl.

Lemma positions_shaped evs l : l ∈ positions evs -> shaped l.
Proof.
  assert (forall evs cur, shaped cur -> forall l, l ∈ positions_from cur evs -> shaped l) as Hfrom.
  { clear evs l. induction evs as [|ev evs IH]; intros cur Hcur l; simpl.
    - intros ->%list_elem_of_singleton. done.
    - destruct (te_memaddr ev).
      + apply IH. destruct Hcur as (a & tl & -> & Htl). exists a, (tl ++ access_bytes ev). split; [done|].
        apply Forall_app. split; [done|]. apply Forall_fmap, Forall_true. intros i. simpl.
        destruct (te_accesstype ev); auto.
      + intros [->|Hin]%elem_of_cons; [done|]. eapply IH; [|exact Hin]. by eexists _, [].  }
  destruct evs as [|ev evs]; simpl; [set_solver|]. apply Hfrom. by eexists _, [].
Qed.

(** ** Costs *)

Lemma hop_cost_comm a b : hop_cost a b = hop_cost b a.
Proof. unfold hop_cost. by rewrite (bool_decide_ext (a = b) (b = a)). Qed.

Lemma change_costs_snoc2 l a b :
  change_costs (l ++ [a; b]) = change_costs (l ++ [a]) + hop_cost a.1 b.1.
Proof.
  induction l as [|x [|y l] IH]; simpl in *; [lia | lia|]. lia.
Qed.

(** Costs do not depend on the direction a chain is read in. *)
Lemma change_costs_rev r : change_costs (rev r) = change_costs r.
Proof.
  induction r as [|a [|b r] IH]; [done | done |].
  cbn [rev] in *. rewrite <- app_assoc. cbn [app]. rewrite change_costs_snoc2.
  rewrite IH. cbn [change_costs]. rewrite hop_cost_comm. lia.
Qed.

Lemma hop_cost_range a b : 1 <= hop_cost a b <= 2.
Proof. unfold hop_cost, COST_CHANGE, COST_NO_CHANGE. case_bool_decide; lia. Qed.

Lemma change_costs_range r : 0 <= change_costs r <= 2 * Z.of_nat (length r).
Proof.
  induction r as [|a [|b r] IH]; simpl in *; [lia | lia|]. pose proof (hop_cost_range a.1 b.1). lia.
Qed.

(** ** Deletion without checkpoints *)

Definition plain (r : list result_tuple) : Prop := Forall (fun h => h.1.2 <> ACCESS_CHECKPOINT) r.

Lemma delete_hops_plain cfg cps best lp r fuel :
  plain r -> r <> [] -> (length r < fuel)%nat -> Z.of_nat (length r) < 2 ^ 30 ->
  exists d r', r = d ++ r' /\ r' <> [] /\
    delete_hops fuel cfg cps best lp r (1 + change_costs r) = Some (r', 1 + change_costs r', false) /\
    (d = [] \/ exists a p r'', r' = (a, p) :: r'' /\
                 (lp < p \/ (lp = p /\ a = best /\ m_use_weights cfg = false))).
Proof.
  revert fuel. induction r as [|lst r IH]; intros fuel Hpl Hne Hfuel Hlen; [done|].
  apply Forall_cons in Hpl as [Hl Hpl]. destruct fuel as [|fuel]; [simpl in *; lia|].
  destruct r as [|[a p] r].
  - exists [], [lst]. simpl. rewrite bool_decide_eq_false_2 by done. auto.
  - cbn [delete_hops]. destruct (keeps cfg best lp (a, p)) eqn:Hk.
    { exists [], (lst :: (a, p) :: r). auto. }
    rewrite bool_decide_eq_false_2 by done.
    pose proof (change_costs_range (lst :: (a, p) :: r)). pose proof (change_costs_range ((a, p) :: r)).
    replace (u32 _) with (1 + change_costs ((a, p) :: r)); cycle 1.
    { cbn [change_costs] in *. rewrite hop_cost_comm. rewrite u32_small; simpl in *; lia. }
    destruct (IH fuel Hpl) as (d & r' & Heq & Hne' & Hdel & Hlast); [done | simpl in *; lia..|].
    exists (lst :: d), r'. split; [by rewrite Heq|]. split; [done|]. split; [exact Hdel|]. right.
    destruct Hlast as [->|Hlast]; [|done]. simpl in Heq. subst r'. exists a, p, r. split; [done|].
    unfold keeps in Hk. simpl in Hk. destruct (m_use_weights cfg); simpl in Hk.
    + destruct (Z.ltb_spec lp p); [by left | done].
    + destruct (Z.leb_spec lp p); simpl in Hk; [|done].
      destruct (Z.eqb_spec lp p); simpl in Hk; [|left; lia].
      case_bool_decide as Hba; [done|]. right. split; [done|]. split; [|done]. destruct (decide (a = best)); naive_solver.
Qed.

Lemma leads_suffix pss d r : leads pss (d ++ r) -> leads pss r.
Proof.
  induction d as [|[b q] d IH]; simpl; [done|]. intros Hl. apply IH.
  destruct (d ++ r) as [|[a p] l]; [done | tauto].
Qed.

Lemma leads_in pss r h : leads pss r -> h ∈ r -> h.1 ∈ at_pos pss h.2.
Proof.
  induction r as [|[b q] r IH]; [set_solver|]. intros Hl [->|Hin]%elem_of_cons.
  - destruct r as [|[a p] r]; simpl in *; tauto.
  - apply IH; [|done]. by apply (leads_suffix pss [(b, q)]).
Qed.

(** Positions in a chain grow, so that it is no longer than its last position. *)
Lemma leads_length pss b q r : leads pss ((b, q) :: r) -> Z.of_nat (length ((b, q) :: r : list result_tuple)) <= q.
Proof.
  revert b q. induction r as [|[a p] r IH]; intros b q.
  - simpl. lia.
  - intros (Hpq & _ & _ & _ & Hr). specialize (IH a p Hr). simpl in *. lia.
Qed.

Lemma leads_before pss b q r : leads pss ((b, q) :: r) -> forall h, h ∈ r -> h.2 <= q.
Proof.
  revert b q. induction r as [|[a p] r IH]; intros b q; [set_solver|].
  intros (Hpq & _ & _ & _ & Hr) h [->|Hin]%elem_of_cons; [simpl; lia|]. specialize (IH a p Hr h Hin). lia.
Qed.

(** ** The state after [n] positions *)

Definition known (cfg : Config) (pss : list (list trace_event_tuple_t)) (n : Z)
    (m : gmap trace_event_tuple_t Z) : Prop :=
  forall te, match m !! te with
  | Some p => usable cfg te = true /\ 1 <= p <= n /\ te ∈ at_pos pss p /\ absent pss te p (n + 1)
  | None => usable cfg te = true -> absent pss te 0 (n + 1)
  end.

(** Chains without weights may wait for the event they stand on, which must
    then occur once per position. *)
Definition distinct (cfg : Config) (pss : list (list trace_event_tuple_t)) : Prop :=
  m_use_weights cfg = true \/ Forall NoDup pss.

Definition chain_at (pss : list (list trace_event_tuple_t)) (n : Z) (s : SmartHops) : Prop :=
  if n =? 0 then m_result s = [] /\ m_costs s = 0
  else leads pss (m_result s) /\ m_costs s = 1 + change_costs (m_result s) /\
       exists b r, m_result s = (b, n) :: r.

Definition hops_at (cfg : Config) (evs : list Trace_Event) (n : nat) (s : SmartHops) : Prop :=
  m_trace_pos s = Z.of_nat n /\ reader_at evs n (m_trace_reader s) /\
  known cfg (positions evs) (Z.of_nat n) (m_last_positions s) /\
  chain_at (positions evs) (Z.of_nat n) s.

Lemma hops_at_init cfg evs : hops_at cfg evs 0 (init evs).
Proof.
  split; [done|]. split; [done|]. split; [|done].
  intros te. simpl. rewrite lookup_empty. intros _ i Hi. lia.
Qed.

Lemma known_next cfg evs n l m m' :
  known cfg (positions evs) (Z.of_nat n) m -> positions evs !! n = Some l ->
  (forall te, m' !! te = if usable cfg te && bool_decide (te ∈ l) then Some (Z.of_nat n + 1) else m !! te) ->
  known cfg (positions evs) (Z.of_nat (S n)) m'.
Proof.
  intros Hk Hl Hm te. rewrite Hm. specialize (Hk te).
  assert (at_pos (positions evs) (Z.of_nat n + 1) = l) as Hat.
  { unfold at_pos. replace (Z.to_nat (Z.of_nat n + 1 - 1)) with n by lia. by rewrite Hl. }
  destruct (usable cfg te) eqn:Hu; simpl.
  - case_bool_decide as Hin.
    + split; [done|]. split; [lia|]. rewrite Hat. split; [done|]. intros i Hi. lia.
    + assert (forall p, absent (positions evs) te p (Z.of_nat n + 1) -> absent (positions evs) te p (Z.of_nat (S n) + 1)) as Hext.
      { intros p Hp i Hi. destruct (decide (i = Z.of_nat n + 1)) as [->|]; [by rewrite Hat | apply Hp; lia]. }
      destruct (m !! te) as [p|]; [|auto]. destruct Hk as (? & ? & ? & ?). split; [done|]. split; [lia|]. auto.
  - destruct (m !! te) as [p|]; [|done]. destruct Hk as (? & ? & ? & ?). congruence.
Qed.

(** If all events of this position were also at the one before, the
    breakpoint on the instruction is the best. *)
Lemma best_is_instruction cfg evs n l m b lp :
  known cfg (positions evs) (Z.of_nat n) m -> positions evs !! n = Some l ->
  (forall te, te ∈ l -> usable cfg te = true -> is_Some (m !! te)) ->
  best_of cfg m l b lp -> lp = Z.of_nat n -> b.2 = ACCESS_NONE.
Proof.
  intros Hk Hl Hs (l1 & l2 & Heq & _ & _ & _ & Hlt) ->.
  destruct (positions_shaped evs l) as (a & tl & -> & _); [by eapply list_elem_of_lookup_2|].
  destruct l1 as [|h l1]; simpl in Heq; [by simplify_eq|]. exfalso.
  injection Heq as <- Heq.
  assert (usable cfg (a, ACCESS_NONE) = true) as Hu by apply orb_true_r.
  destruct (Hs (a, ACCESS_NONE) ltac:(set_solver) Hu) as [p Hp].
  specialize (Hlt (a, ACCESS_NONE) p ltac:(set_solver) Hu Hp). specialize (Hk (a, ACCESS_NONE)). rewrite Hp in Hk. lia.
Qed.

Lemma instruction_once evs q b : b.2 = ACCESS_NONE -> forall a, b ∉ after_first a (at_pos (positions evs) q).
Proof.
  intros Hb a Hin%after_first_tail. unfold at_pos in Hin.
  destruct (positions evs !! _) as [l|] eqn:Hl; simpl in Hin; [|set_solver].
  destruct (positions_shaped evs l) as (x & tl & -> & Htl); [by eapply list_elem_of_lookup_2|].
  simpl in Hin. rewrite Forall_forall in Htl. apply Htl in Hin. destruct Hin; congruence.
Qed.

Lemma at_pos_next evs n l : positions evs !! n = Some l -> at_pos (positions evs) (Z.of_nat n + 1) = l.
Proof. intros Hl. unfold at_pos. replace (Z.to_nat (Z.of_nat n + 1 - 1)) with n by lia. by rewrite Hl. Qed.

(** The new hop continues what the deletion loop leaves of the chain. *)
Lemma leads_push cfg evs n l m a p r b lp :
  distinct cfg (positions evs) ->
  known cfg (positions evs) (Z.of_nat n) m -> positions evs !! n = Some l ->
  (forall te, te ∈ l -> usable cfg te = true -> is_Some (m !! te)) ->
  best_of cfg m l b lp -> leads (positions evs) ((a, p) :: r) -> p <= Z.of_nat n ->
  (p = Z.of_nat n \/ lp < p \/ (lp = p /\ a = b /\ m_use_weights cfg = false)) ->
  leads (positions evs) ((b, Z.of_nat n + 1) :: (a, p) :: r).
Proof.
  intros Hd Hk Hl Hs Hb Hr Hp Hlast.
  pose proof (at_pos_next _ _ _ Hl) as Hat.
  pose proof Hb as (l1 & l2 & Heq & Hu & Hm & _). pose proof (Hk b) as Hkb. rewrite Hm in Hkb.
  destruct Hkb as (_ & Hlp & Hin & Habs).
  split; [lia|]. split; [rewrite Hat, Heq; set_solver|].
  assert (lp < p -> b ∉ after_first a (at_pos (positions evs) p)) as Hbelow.
  { intros Hlt Hin'%after_first_incl. apply (Habs p); [lia | done]. }
  split; [intros i Hi; apply Habs; lia|]. split; [|done].
  destruct Hlast as [->|[Hlt|(-> & -> & Hw)]]; [|by apply Hbelow|].
  - destruct (decide (lp < Z.of_nat n)); [by apply Hbelow|].
    apply instruction_once. eapply best_is_instruction; eauto. lia.
  - destruct Hd as [Hd|Hd]; [congruence|]. apply after_first_NoDup.
    rewrite Forall_forall in Hd. apply Hd. eapply list_elem_of_lookup_2. by eapply at_pos_lookup.
Qed.

Lemma chain_plain evs r : leads (positions evs) r -> plain r.
Proof.
  intros Hr. apply Forall_forall. intros [[x t] q] Hh. pose proof (leads_in _ _ _ Hr Hh) as Hin.
  pose proof (at_pos_lookup _ _ _ Hin) as Hl. simpl in *.
  destruct (positions_shaped evs _ (list_elem_of_lookup_2 _ _ _ Hl)) as (a & tl & Heq & Htl).
  rewrite Heq in Hin. apply elem_of_cons in Hin as [Hh1|Hin]; [by simplify_eq|].
  rewrite Forall_forall in Htl. apply Htl in Hin. simpl in Hin. by destruct Hin as [->| ->].
Qed.

(** Deletion and the new hop, on a chain that leads to [n]. *)
Lemma delete_push cfg evs n l m b0 r0 b lp cps :
  distinct cfg (positions evs) ->
  known cfg (positions evs) (Z.of_nat n) m -> positions evs !! n = Some l -> Z.of_nat n + 1 < 2 ^ 29 ->
  (forall te, te ∈ l -> usable cfg te = true -> is_Some (m !! te)) ->
  best_of cfg m l b lp -> leads (positions evs) ((b0, Z.of_nat n) :: r0) ->
  exists r' h, delete_hops (delete_fuel cps ((b0, Z.of_nat n) :: r0)) cfg cps b lp
      ((b0, Z.of_nat n) :: r0) (1 + change_costs ((b0, Z.of_nat n) :: r0))
    = Some (r', 1 + change_costs r', false) /\ head r' = Some h /\
    leads (positions evs) ((b, Z.of_nat n + 1) :: r') /\
    u32 (1 + change_costs r' + hop_cost b h.1) = 1 + change_costs ((b, Z.of_nat n + 1) :: r').
Proof.
  intros Hd Hk Hl Hn Hs Hb Hr. pose proof (leads_length _ _ _ _ Hr) as Hlen.
  destruct (delete_hops_plain cfg cps b lp ((b0, Z.of_nat n) :: r0) (delete_fuel cps ((b0, Z.of_nat n) :: r0)))
    as (d & r' & Hdr & Hne & Hdel & Hlast);
    [by eapply chain_plain | done | unfold delete_fuel; lia | lia |].
  destruct r' as [|[a p] r']; [done|].
  pose proof Hr as Hr'. rewrite Hdr in Hr'. apply leads_suffix in Hr'.
  assert (p <= Z.of_nat n) as Hp.
  { destruct d as [|x d]; simplify_eq/=; [done|]. clear Hdel Hlast Hlen Hne.
    apply (leads_before _ _ _ _ Hr (a, p)). set_solver. }
  exists ((a, p) :: r'), (a, p). split; [exact Hdel|]. split; [done|]. split.
  - apply (leads_push cfg evs n l m a p r' b lp); try done.
    destruct Hlast as [->|(a' & p' & r'' & Heq & Hlast)]; simplify_eq/=; auto.
  - pose proof (leads_length _ _ _ _ Hr'). pose proof (change_costs_range ((a, p) :: r')).
    pose proof (hop_cost_range b a). rewrite u32_small by (simpl in *; lia). simpl. lia.
Qed.

(** ** One position *)

Lemma hop_step_at cfg evs n l s :
  m_use_checkpoints cfg = false -> distinct cfg (positions evs) ->
  positions evs !! n = Some l -> Z.of_nat n + 1 < 2 ^ 29 ->
  m_trace_pos s = Z.of_nat n + 1 -> m_trace_events s = l -> reader_at evs (S n) (m_trace_reader s) ->
  known cfg (positions evs) (Z.of_nat n) (m_last_positions s) -> chain_at (positions evs) (Z.of_nat n) s ->
  exists s', hop_step cfg s = Some s' /\ hops_at cfg evs (S n) s'.
Proof.
  intros Hcp Hd Hl Hn Hpos Hte Hrd Hk Hch. pose proof (at_pos_next _ _ _ Hl) as Hat.
  unfold hop_step, scan_events. rewrite Hpos, Hte.
  destruct (scanned_all cfg (Z.of_nat n + 1) (m_last_positions s) (m_result s) (m_costs s)
    ltac:(intros te p Hp; specialize (Hk te); rewrite Hp in Hk; lia) ltac:(lia) l) as [Hm Hf].
  unfold scan_start in Hm, Hf. set (sc := fold_left _ l _) in *. clearbody sc.
  pose proof (known_next _ _ _ _ _ _ Hk Hl Hm) as Hk'.
  assert ((Z.of_nat (S n) =? 0) = false) as Hnz by (apply Z.eqb_neq; lia).
  destruct (hop_found sc).
  - destruct Hf as (t & Htl & Hu & Hmt & Hr & Hc). eexists. split; [done|].
    split; [simpl; lia|]. split; [done|]. split; [exact Hk'|].
    unfold chain_at. rewrite Hnz. simpl. rewrite Hr, Hc. split; [|split; [done|]].
    + split; [lia|]. rewrite Hat. split; [done|]. specialize (Hk t). rewrite Hmt in Hk. by apply Hk.
    + exists t, []. do 2 f_equal. lia.
  - destruct Hf as (_ & _ & Hs & Hb).
    destruct (best_te sc) as [b|]; cycle 1.
    { exfalso. destruct (positions_shaped evs l) as (a & tl & -> & _); [by eapply list_elem_of_lookup_2|].
      destruct Hb as [_ Hb]. specialize (Hb (a, ACCESS_NONE) ltac:(set_solver)).
      unfold usable in Hb. simpl in Hb. by rewrite orb_true_r in Hb. }
    pose proof Hb as (_ & _ & _ & _ & Hmb & _). pose proof (Hk b) as Hkb. rewrite Hmb in Hkb.
    unfold chain_at in Hch. rewrite (proj2 (Z.eqb_neq _ _)) in Hch by lia.
    destruct Hch as (Hr & Hc & (b0 & r0 & Hres)). rewrite Hres in Hr, Hc. rewrite Hres, Hc.
    destruct (delete_push cfg evs n l (m_last_positions s) b0 r0 b (last_pos sc) (m_checkpoints s))
      as (r' & h & Hdel & Hh & Hpush & Hcost); try done.
    cbn [mbind option_bind]. rewrite Hdel. cbn [mbind option_bind]. rewrite Hh, Hcp. cbn [andb mbind option_bind].
    eexists. split; [done|]. split; [simpl; lia|]. split; [done|]. split; [exact Hk'|].
    unfold chain_at. rewrite Hnz. simpl m_result. simpl m_costs. split; [exact Hpush|].
    split; [exact Hcost|]. exists b, r'. do 2 f_equal. lia.
Qed.

(** ** Whole computations *)

Lemma elem_of_rev {A} (x : A) (l : list A) : x ∈ rev l <-> x ∈ l.
Proof. by rewrite <- (Permutation_rev l). Qed.


Lemma follow_loop_at cfg evs offset :
  m_use_checkpoints cfg = false -> distinct cfg (positions evs) -> offset + 2 < 2 ^ 29 ->
  forall fuel n s, hops_at cfg evs n s -> Z.of_nat n <= offset ->
  (length (drop n (positions evs)) < fuel)%nat ->
  if offset <=? Z.of_nat (length (positions evs))
  then exists s', follow_loop fuel cfg offset s = Some (true, s') /\ hops_at cfg evs (Z.to_nat offset) s'
  else exists s', follow_loop fuel cfg offset s = Some (false, s').
Proof.
  intros Hcp Hd Ho. induction fuel as [|fuel IH]; intros n s Hs Hn Hfuel; [lia|].
  pose proof Hs as (Hpos & Hrd & Hk & Hch). cbn [follow_loop]. rewrite Hpos.
  destruct (Z.ltb_spec (Z.of_nat n) offset) as [Hlt|Hge]; cycle 1.
  { assert (offset = Z.of_nat n) as -> by lia. rewrite Nat2Z.id.
    destruct (Z.leb_spec (Z.of_nat n) (Z.of_nat (length (positions evs)))) as [_|Hgt]; [eauto|].
    exfalso. destruct Hs as (_ & Hr & _ & Hc). unfold chain_at in Hc.
    rewrite (proj2 (Z.eqb_neq _ _)) in Hc by lia. destruct Hc as (Hl & _ & b & r & Heq). rewrite Heq in Hl.
    assert (b ∈ at_pos (positions evs) (Z.of_nat n)) as Hin
      by (apply (leads_in _ _ (b, Z.of_nat n) Hl); set_solver).
    apply at_pos_lookup, lookup_lt_Some in Hin. lia. }
  unfold read_position.
  pose proof (reader_next evs n (m_trace_reader s) (m_trace_pos s) (m_trace_events s) Hrd ltac:(lia)) as Hnext.
  destruct (positions evs !! n) as [l|] eqn:Hl.
  - destruct Hnext as (r' & -> & Hr'). cbn iota.
    destruct (hop_step_at cfg evs n l (mkHops (Z.of_nat n + 1) (m_costs s) r' (m_next_cp_id s) (m_last_positions s)
      (m_checkpoints s) l (m_result s))) as (s' & -> & Hs'); try done; [lia|].
    cbn [mbind option_bind]. apply (IH (S n)); [done | lia |].
    rewrite length_drop in *. apply lookup_lt_Some in Hl. lia.
  - destruct Hnext as (r' & ->). cbn iota. apply lookup_ge_None in Hl.
    rewrite (proj2 (Z.leb_gt _ _)) by lia. eauto.
Qed.

Lemma hops_of_chain evs r :
  leads (positions evs) r ->
  exists hs, mapM hop_of (rev r) = Some hs /\ hop_event <$> hs = fst <$> rev r.
Proof.
  intros Hr.
  assert (forall h, h ∈ rev r -> exists x, hop_of h = Some x /\ hop_event x = h.1) as Hall.
  { intros [[x t] q] Hh. rewrite elem_of_rev in Hh. pose proof (leads_in _ _ _ Hr Hh) as Hin.
    pose proof (at_pos_lookup _ _ _ Hin) as Hl. simpl in *.
    destruct (positions_shaped evs _ (list_elem_of_lookup_2 _ _ _ Hl)) as (a & tl & Heq & Htl).
    rewrite Heq in Hin. apply elem_of_cons in Hin as [Hh1|Hin]; [simplify_eq; by eexists|].
    rewrite Forall_forall in Htl. apply Htl in Hin. simpl in Hin. destruct Hin as [->| ->]; by eexists. }
  clear Hr. induction (rev r) as [|h l IH]; [by exists []|].
  destruct (Hall h ltac:(set_solver)) as (x & Hx & He).
  destruct IH as (hs & Hhs & Hes); [intros; apply Hall; set_solver|].
  exists (x :: hs). simpl. rewrite Hx. simpl. rewrite Hhs. split; [done|].
  change (hop_event x :: (hop_event <$> hs) = h.1 :: (fst <$> l)). by rewrite He, Hes.
Qed.

(** A message that serves a request for position [off]. *)
Definition serves (evs : list Trace_Event) (off : Z) (ip : InjectionPointMessage) : Prop :=
  arrives evs (hops ip) = Some off /\
  target_trace_position ip = Some off /\
  checkpoint_id ip = None /\ Z.of_nat (length (hops ip)) <= off /\
  ipm_costs ip = Some (if off =? 0 then 0 else calculate_costs ((fun h => (hop_event h, 0)) <$> hops ip)).

Lemma change_costs_fst (r r' : list result_tuple) : fst <$> r = fst <$> r' -> change_costs r = change_costs r'.
Proof.
  revert r'. induction r as [|[a p] r IH]; intros [|[a' p'] r'] Heq; try done.
  injection Heq as <- Hr. specialize (IH r' Hr).
  destruct r as [|[b q] r], r' as [|[b' q'] r']; try done. injection Hr as <- Hr.
  simpl in *. by rewrite IH.
Qed.

Lemma plain_rev r : plain r -> plain (rev r).
Proof. unfold plain. by rewrite <- (Permutation_rev r). Qed.

Lemma split_plain chain : plain chain -> split_checkpoint chain = (None, chain).
Proof.
  destruct chain as [|[[id t] q] l]; [done|]. intros [Ht _]%Forall_cons. by destruct t.
Qed.

Lemma message_serves cfg evs n s :
  hops_at cfg evs n s ->
  exists ip, convertToIPM (m_result s) (m_costs s) = Some ip /\ serves evs (Z.of_nat n) ip.
Proof.
  intros (_ & _ & _ & Hch). unfold chain_at in Hch. destruct (Z.eqb_spec (Z.of_nat n) 0) as [Hn|Hn].
  { destruct Hch as [-> ->]. rewrite Hn. by eexists. }
  destruct Hch as (Hr & Hc & b & r & Heq). rewrite Heq in *.
  pose proof (chain_plain _ _ Hr) as Hpl. destruct (hops_of_chain _ _ Hr) as (hs & Hhs & Hes).
  exists (mkIPM (Some (m_costs s)) None (Some (Z.of_nat n)) hs). split.
  - unfold convertToIPM.
    rewrite split_plain by (by apply plain_rev).
    rewrite Hhs. simpl. rewrite bool_decide_eq_true_2; [done|].
    apply Forall_cons in Hpl as [Hb _]. done.
  - unfold serves, arrives. cbn [hops target_trace_position checkpoint_id ipm_costs].
    rewrite Hes, leads_navigate by done. split; [done|]. split; [done|]. split; [done|]. split.
    { apply length_mapM in Hhs. rewrite <- Hhs, length_rev. by eapply leads_length. }
    rewrite (proj2 (Z.eqb_neq _ _)) by lia. rewrite Hc. unfold calculate_costs, COST_CHANGE.
    do 2 f_equal. rewrite <- change_costs_rev. apply change_costs_fst.
    rewrite <- Hes, <- list_fmap_compose. done.
Qed.

(** One request. *)
Lemma calculate_at cfg evs n s o ip0 :
  m_use_checkpoints cfg = false -> distinct cfg (positions evs) ->
  hops_at cfg evs n s -> Z.of_nat n <= o <= Z.of_nat (length (positions evs)) ->
  Z.of_nat (length (positions evs)) + 2 < 2 ^ 29 ->
  exists ip s', calculateFollowingHop cfg o ip0 s = Some (true, ip, s') /\
    serves evs o ip /\ hops_at cfg evs (Z.to_nat o) s'.
Proof.
  intros Hcp Hd Hs Ho Hlen. unfold calculateFollowingHop. destruct (Z.eqb_spec o 0) as [Ho0|Ho0].
  - assert (n = 0%nat) as -> by lia. pose proof Hs as (Hp & Hrd & Hk & Hres & Hcost).
    assert (hops_at cfg evs 0 (mkHops (m_trace_pos s) 0 (m_trace_reader s) (m_next_cp_id s) (m_last_positions s)
               (m_checkpoints s) (m_trace_events s) [])) as Hs' by done.
    destruct (message_serves _ _ _ _ Hs') as (ip & Hip & Hserv).
    cbn [m_result m_costs] in *. rewrite Hip, Ho0. cbn [mbind option_bind]. eauto.
  - pose proof (follow_loop_at cfg evs o Hcp Hd ltac:(lia) (follow_fuel s) n s Hs ltac:(lia)) as Hf.
    rewrite (proj2 (Z.leb_le _ _)) in Hf by lia. destruct Hf as (s' & -> & Hs').
    { pose proof (reader_remaining _ _ _ (proj1 (proj2 Hs))). unfold follow_fuel. lia. }
    destruct (message_serves _ _ _ _ Hs') as (ip & Hip & Hserv). cbn [mbind option_bind]. rewrite Hip.
    rewrite Z2Nat.id in Hserv by lia. cbn [mbind option_bind]. eauto.
Qed.

(** Successive requests, as a campaign makes them. *)
Fixpoint requests (cfg : Config) (offs : list Z) (s : SmartHops) : option (list (bool * InjectionPointMessage)) :=
  match offs with
  | [] => Some []
  | off :: offs =>
      '(ok, ip, s) ← calculateFollowingHop cfg off (mkIPM None None None []) s;
      rest ← requests cfg offs s;
      Some ((ok, ip) :: rest)
  end.

Lemma requests_serve cfg evs offs n s :
  m_use_checkpoints cfg = false -> distinct cfg (positions evs) ->
  hops_at cfg evs n s -> Z.of_nat (length (positions evs)) + 2 < 2 ^ 29 ->
  Forall (fun o => Z.of_nat n <= o <= Z.of_nat (length (positions evs))) offs -> StronglySorted Z.le offs ->
  exists answers, requests cfg offs s = Some answers /\
    Forall2 (fun o a => a.1 = true /\ serves evs o a.2) offs answers.
Proof.
  intros Hcp Hd Hs Hlen Hr Hso. revert n s Hs Hr. induction Hso as [|o offs Hso IH Hle]; intros n s Hs Hr.
  { by exists []. }
  apply Forall_cons in Hr as [Ho Hr]. simpl.
  destruct (calculate_at cfg evs n s o (mkIPM None None None [])) as (ip & s' & -> & Hserv & Hs'); try done.
  destruct (IH (Z.to_nat o) _ Hs') as (ans & Hans & Hall).
  { rewrite Forall_forall in *. intros x Hx. specialize (Hr x Hx). specialize (Hle x Hx). lia. }
  simpl. rewrite Hans. simpl. eexists. split; [done|]. by constructor.
Qed.

(** C6. The chains lead where they should: for every trace and every ascending
    sequence of requested positions, following the hops of the answer from the
    start of the trace stops exactly at the requested position, which is also
    the recorded target, and the recorded costs, which are computed
    incrementally, are those of the cost model. *)
Theorem smarthops_chains_arrive cfg evs offs :
  m_use_checkpoints cfg = false ->
  (m_use_weights cfg = true \/ Forall NoDup (positions evs)) ->
  Z.of_nat (length (positions evs)) + 2 < 2 ^ 29 ->
  Forall (fun o => 0 <= o <= Z.of_nat (length (positions evs))) offs -> StronglySorted Z.le offs ->
  exists answers, requests cfg offs (init evs) = Some answers /\
    Forall2 (fun o a => a.1 = true /\ serves evs o a.2) offs answers.
Proof.
  intros Hcp Hd Hlen Hr Hso. apply (requests_serve cfg evs offs 0); try done. apply hops_at_init.
Qed.

(** A request beyond the end of the trace is refused. *)
Theorem smarthops_end_of_trace cfg evs off ip :
  m_use_checkpoints cfg = false ->
  (m_use_weights cfg = true \/ Forall NoDup (positions evs)) ->
  Z.of_nat (length (positions evs)) < off < 2 ^ 29 - 2 ->
  exists s', calculateFollowingHop cfg off ip (init evs) = Some (false, ip, s').
Proof.
  intros Hcp Hd Hoff. unfold calculateFollowingHop. rewrite (proj2 (Z.eqb_neq _ _)) by lia.
  pose proof (follow_loop_at cfg evs off Hcp Hd ltac:(lia) (follow_fuel (init evs)) 0 (init evs)
    (hops_at_init _ _) ltac:(lia)) as Hf.
  rewrite (proj2 (Z.leb_gt _ _)) in Hf by lia. destruct Hf as (s' & ->).
  { pose proof (reader_remaining evs 0 (m_trace_reader (init evs)) (proj1 (proj2 (hops_at_init cfg evs)))).
    unfold follow_fuel. lia. }
  simpl. eauto.
Qed.

(** ** The command-line tool *)

(** What the tool reports for position [i]. *)
Definition reported (evs : list Trace_Event) (i : Z) (x : list result_tuple * Z) : Prop :=
  fst <$> navigate (fst <$> x.1) 0 (flat 1 (positions evs)) = Some i /\ x.2 = calculate_costs x.1.

Fixpoint reported_from (evs : list Trace_Event) (i : Z) (xs : list (list result_tuple * Z)) : Prop :=
  match xs with
  | [] => True
  | x :: xs => reported evs i x /\ reported_from evs (i + 1) xs
  end.

Lemma reported_snoc evs i xs x :
  reported_from evs i xs -> reported evs (i + Z.of_nat (length xs)) x -> reported_from evs i (xs ++ [x]).
Proof.
  revert i. induction xs as [|x0 xs IH]; intros i; simpl.
  - rewrite Z.add_0_r. auto.
  - intros [Hx0 Hxs] Hx. split; [done|]. apply IH; [done|].
    by replace (i + 1 + Z.of_nat (length xs)) with (i + Z.of_nat (S (length xs))) by lia.
Qed.

Lemma hop_step_next_cp cfg s s' :
  m_use_checkpoints cfg = false -> hop_step cfg s = Some s' -> m_next_cp_id s' = m_next_cp_id s.
Proof.
  intros Hcp. unfold hop_step. destruct (hop_found _); [by intros [= <-]|]. destruct (best_te _); [|done].
  destruct (delete_hops _ _ _ _ _ _ _) as [[[r c] f]|]; [|done]. cbn [mbind option_bind].
  destruct (head r); [|done]. cbn [mbind option_bind]. rewrite Hcp. by intros [= <-].
Qed.

Lemma SmartAlgorithm_loop_at cfg evs :
  m_use_checkpoints cfg = false -> distinct cfg (positions evs) ->
  Z.of_nat (length (positions evs)) + 2 < 2 ^ 29 ->
  forall fuel n s c, hops_at cfg evs n s -> (length (drop n (positions evs)) < fuel)%nat ->
  (n <= length (positions evs))%nat ->
  length (co_results c) = n -> reported_from evs 1 (co_results c) -> co_checkpoints c = [] ->
  exists s' c', SmartAlgorithm_loop fuel cfg s c = Some (s', c') /\
    length (co_results c') = length (positions evs) /\ reported_from evs 1 (co_results c') /\ co_checkpoints c' = [].
Proof.
  intros Hcp Hd Hlen. induction fuel as [|fuel IH]; intros n s c Hs Hfuel Hn Hc Hrep Hck; [lia|].
  pose proof Hs as (Hpos & Hrd & Hk & Hch). cbn [SmartAlgorithm_loop]. unfold read_position.
  pose proof (reader_next evs n (m_trace_reader s) (m_trace_pos s) (m_trace_events s) Hrd ltac:(lia)) as Hnext.
  destruct (positions evs !! n) as [l|] eqn:Hl; cycle 1.
  { destruct Hnext as (r' & ->). cbn iota. apply lookup_ge_None in Hl. eexists _, c. split; [done|].
    split; [lia | done]. }
  destruct Hnext as (r' & -> & Hr'). cbn iota. pose proof (lookup_lt_Some _ _ _ Hl).
  destruct (hop_step_at cfg evs n l (mkHops (Z.of_nat n + 1) (m_costs s) r' (m_next_cp_id s) (m_last_positions s)
    (m_checkpoints s) l (m_result s))) as (s' & Hstep & Hs'); try done; [lia|].
  rewrite Hstep. cbn [mbind option_bind]. apply hop_step_next_cp in Hstep; [|done].
  rewrite bool_decide_eq_true_2 by done. rewrite length_drop in Hfuel.
  destruct Hs' as (Hp' & Hr2 & Hk2 & Hch2) eqn:HsE. pose proof Hch2 as Hch3. unfold chain_at in Hch3.
  rewrite (proj2 (Z.eqb_neq _ _)) in Hch3 by lia. destruct Hch3 as (Hld & Hcost & b & r & Hres).
  apply (IH (S n)); [done | rewrite length_drop; lia | lia | | | done].
  - simpl. rewrite length_app. simpl. lia.
  - apply reported_snoc; [done|]. rewrite Hc. rewrite Hcost, Hres in *.
    assert ((m_costs s' =? 0) = false) as Hz.
    { apply Z.eqb_neq. rewrite Hcost. pose proof (change_costs_range ((b, Z.of_nat (S n)) :: r)). lia. }
    unfold reported. cbn [fst snd].
    rewrite leads_navigate by done. split; [simpl; f_equal; lia|].
    unfold calculate_costs, COST_CHANGE. rewrite change_costs_rev.
    rewrite Hcost in Hz. by rewrite Hz.
Qed.

(** [compute-hops] without checkpoints: one chain per instruction of the
    trace, each leading to its instruction, with the costs of the model. *)
Theorem compute_hops_reports cfg evs :
  m_use_checkpoints cfg = false ->
  (m_use_weights cfg = true \/ Forall NoDup (positions evs)) ->
  Z.of_nat (length (positions evs)) + 2 < 2 ^ 29 ->
  exists c, SmartAlgorithm_calculateAllHops cfg (openTraceFile evs 0) = Some c /\
    length (co_results c) = length (positions evs) /\ reported_from evs 1 (co_results c) /\ co_checkpoints c = [].
Proof.
  intros Hcp Hd Hlen. unfold SmartAlgorithm_calculateAllHops.
  destruct (SmartAlgorithm_loop_at cfg evs Hcp Hd Hlen (S (follow_fuel (init evs))) 0 (init evs) (mkCollected [] []))
    as (s' & c' & Heq & Hall); try done; [apply hops_at_init | | lia |].
  - pose proof (reader_remaining evs 0 (m_trace_reader (init evs)) (proj1 (proj2 (hops_at_init cfg evs)))).
    unfold follow_fuel. lia.
  - exists c'. unfold init in Heq. rewrite Heq. done.
Qed.

(** *** The simple algorithm *)

Definition occ (te : trace_event_tuple_t) (run : list (Z * trace_event_tuple_t)) : nat :=
  length (filter (fun x => x.2 = te) run).

Lemma occ_app te run1 run2 : occ te (run1 ++ run2) = (occ te run1 + occ te run2)%nat.
Proof. unfold occ. by rewrite filter_app, length_app. Qed.

Lemma occ_single te n te' : occ te [(n, te')] = if bool_decide (te = te') then 1%nat else 0%nat.
Proof. unfold occ. rewrite filter_cons. simpl. repeat case_decide; repeat case_bool_decide; simplify_eq; done. Qed.

(** Waiting for the same event again and again. *)
Lemma navigate_replicate te n n0 run post :
  navigate (replicate (S (occ te run)) te) n0 (run ++ (n, te) :: post) = Some (n, post).
Proof.
  revert n0. induction run as [|[n1 te1] run IH]; intros n0; simpl.
  - by rewrite bool_decide_eq_true_2.
  - pose proof (occ_app te [(n1, te1)] run) as Ho. simpl in Ho. rewrite Ho, occ_single.
    case_bool_decide; subst; simpl.
    + apply (IH n1).
    + specialize (IH n0). simpl in IH. exact IH.
Qed.

(** The events of the first [n] positions. *)
Definition before (pss : list (list trace_event_tuple_t)) (n : nat) : list (Z * trace_event_tuple_t) :=
  flat 1 (take n pss).

Lemma flat_app k pss1 pss2 : flat k (pss1 ++ pss2) = flat k pss1 ++ flat (k + Z.of_nat (length pss1)) pss2.
Proof.
  revert k. induction pss1 as [|l pss1 IH]; intros k; simpl; [by rewrite Z.add_0_r|].
  rewrite IH, app_assoc. do 2 f_equal. lia.
Qed.

Lemma before_S pss n l :
  pss !! n = Some l -> before pss (S n) = before pss n ++ ((fun te => (Z.of_nat n + 1, te)) <$> l).
Proof.
  intros Hl. unfold before. rewrite (take_S_r _ _ _ Hl), flat_app. simpl. rewrite app_nil_r.
  rewrite length_take_le by (apply lookup_lt_Some in Hl; lia). by rewrite (Z.add_comm 1).
Qed.

Definition counted (cfg : Config) (run : list (Z * trace_event_tuple_t)) (m : gmap trace_event_tuple_t Z) : Prop :=
  forall te, usable cfg te = true ->
  m !! te = if decide (occ te run = 0%nat) then None else Some (Z.of_nat (occ te run)).

Lemma counted_snoc cfg run m n x :
  counted cfg run m -> usable cfg x = true -> counted cfg (run ++ [(n, x)]) (<[x := Z.of_nat (occ x run) + 1]> m).
Proof.
  intros Hm Hx te Hu. rewrite occ_app, occ_single. case_bool_decide as Heq.
  - subst. rewrite lookup_insert_eq. rewrite decide_False by lia. f_equal. lia.
  - rewrite lookup_insert_ne, Nat.add_0_r by done. by apply Hm.
Qed.

(** The candidate after the events [l] of position [n]. *)
Definition rare (cfg : Config) (run : list (Z * trace_event_tuple_t)) (n : Z) (l : list trace_event_tuple_t)
    (o : Occurrences) : Prop :=
  match candidate o with
  | None => num_hops o = 2 ^ 64 - 1 /\ forall te, te ∈ l -> usable cfg te = false
  | Some te => exists a b, l = a ++ te :: b /\
      num_hops o = Z.of_nat (S (occ te (run ++ ((fun te => (n, te)) <$> a))))
  end.

Lemma rare_step cfg run n l o x :
  Z.of_nat (length (run ++ ((fun te => (n, te)) <$> l))) + 1 < 2 ^ 31 ->
  counted cfg (run ++ ((fun te => (n, te)) <$> l)) (m_occurences o) -> rare cfg run n l o ->
  counted cfg (run ++ ((fun te => (n, te)) <$> (l ++ [x]))) (m_occurences (count_event cfg o x)) /\
  rare cfg run n (l ++ [x]) (count_event cfg o x).
Proof.
  intros Hlen Hm Hr. rewrite fmap_app, app_assoc. set (run' := run ++ _) in *.
  change ((fun te => (n, te)) <$> [x]) with [(n, x)].
  assert (Z.of_nat (occ x run') + 1 < 2 ^ 31) as Hocc.
  { unfold occ. pose proof (length_filter (fun y : Z * trace_event_tuple_t => y.2 = x) run'). lia. }
  assert (forall te a b, l = a ++ te :: b -> l ++ [x] = a ++ te :: (b ++ [x])) as Hsnoc.
  { intros te a b ->. by rewrite <- app_assoc. }
  unfold count_event. destruct (usable cfg x) eqn:Hx; simpl; cycle 1.
  { split.
    - intros te Hu. rewrite occ_app, occ_single, bool_decide_eq_false_2 by congruence.
      rewrite Nat.add_0_r. by apply Hm.
    - unfold rare in *. destruct (candidate o); [naive_solver|]. destruct Hr as [? Hr]. split; [done|].
      intros te [Hin|Hin]%elem_of_app; [by apply Hr|]. by apply list_elem_of_singleton in Hin as ->. }
  pose proof (Hm x Hx) as Hmx. pose proof (counted_snoc _ _ _ n x Hm Hx) as Hm'.
  case_decide as Hz; rewrite Hmx.
  - rewrite Hz in Hm'. split; [exact Hm'|]. exists l, []. fold run'. rewrite Hz. done.
  - rewrite u64_small by lia.
    destruct (Z.ltb_spec (Z.of_nat (occ x run') + 1) (num_hops o)) as [Hlt|Hge]; simpl; (split; [exact Hm'|]).
    + exists l, []. fold run'. split; [done|]. simpl. lia.
    + unfold rare in *. simpl. destruct (candidate o); [naive_solver|]. lia.
Qed.

Lemma rare_all cfg run n l o :
  Z.of_nat (length (run ++ ((fun te => (n, te)) <$> l))) < 2 ^ 31 ->
  counted cfg run (m_occurences o) -> candidate o = None -> num_hops o = 2 ^ 64 - 1 ->
  counted cfg (run ++ ((fun te => (n, te)) <$> l)) (m_occurences (fold_left (count_event cfg) l o)) /\
  rare cfg run n l (fold_left (count_event cfg) l o).
Proof.
  intros Hlen Hm Hc Hn. induction l as [|x l IH] using rev_ind.
  - simpl. rewrite app_nil_r. split; [done|]. unfold rare. rewrite Hc. split; [done | set_solver].
  - rewrite fold_left_app. simpl. rewrite fmap_app, !length_app in Hlen. simpl in Hlen.
    destruct IH as [IH1 IH2]; [rewrite length_app; lia|]. apply rare_step; [rewrite length_app; lia | done..].
Qed.

(** The costs reported for position [i] are those of a chain that waits [k]
    times for one event and arrives at [i]. *)
Definition repeats (evs : list Trace_Event) (i : Z) (costs : Z) : Prop :=
  exists te k, fst <$> navigate (replicate k te) 0 (flat 1 (positions evs)) = Some i /\
    costs = calculate_costs (replicate k (te, 0)).

Lemma change_costs_replicate te k : change_costs (replicate (S k) (te, 0)) = 2 * Z.of_nat k.
Proof.
  induction k as [|k IH]; [done|]. cbn [replicate change_costs] in *. rewrite IH.
  unfold hop_cost. rewrite bool_decide_eq_true_2 by done. unfold COST_NO_CHANGE. lia.
Qed.

Fixpoint repeats_from (evs : list Trace_Event) (i : Z) (xs : list (list result_tuple * Z)) : Prop :=
  match xs with
  | [] => True
  | x :: xs => repeats evs i x.2 /\ repeats_from evs (i + 1) xs
  end.

Lemma repeats_snoc evs i xs x :
  repeats_from evs i xs -> repeats evs (i + Z.of_nat (length xs)) x.2 -> repeats_from evs i (xs ++ [x]).
Proof.
  revert i. induction xs as [|x0 xs IH]; intros i; simpl.
  - rewrite Z.add_0_r. auto.
  - intros [Hx0 Hxs] Hx. split; [done|]. apply IH; [done|].
    by replace (i + 1 + Z.of_nat (length xs)) with (i + Z.of_nat (S (length xs))) by lia.
Qed.

Lemma count_position_at cfg evs n l o c :
  m_use_checkpoints cfg = false -> Z.of_nat (length (flat 1 (positions evs))) < 2 ^ 31 ->
  positions evs !! n = Some l -> counted cfg (before (positions evs) n) (m_occurences o) ->
  exists o' costs, count_position cfg (Z.of_nat n + 1) l o c = Some (o', addResult [] costs c) /\
    counted cfg (before (positions evs) (S n)) (m_occurences o') /\ costs <> 0 /\
    repeats evs (Z.of_nat n + 1) costs.
Proof.
  intros Hcp Hlen Hl Hm. unfold count_position. rewrite Hcp. cbn [andb].
  assert (flat 1 (positions evs) = before (positions evs) (S n) ++ flat (1 + Z.of_nat (S n)) (drop (S n) (positions evs)))
    as Hsplit.
  { rewrite <- (take_drop (S n) (positions evs)) at 1. rewrite flat_app. unfold before. do 2 f_equal.
    rewrite length_take_le; [done|]. apply lookup_lt_Some in Hl. lia. }
  rewrite (before_S _ _ _ Hl) in *. rewrite Hsplit, length_app in Hlen.
  destruct (rare_all cfg (before (positions evs) n) (Z.of_nat n + 1) l
    (mkOcc (m_occurences o) (m_occ_cp o) None (2 ^ 64 - 1))) as [Hm' Hr]; [lia | done.. |].
  set (o' := fold_left _ _ _) in *. clearbody o'. unfold rare in Hr.
  destruct (candidate o') as [te|]; cycle 1.
  { exfalso. destruct (positions_shaped evs l) as (a & tl & -> & _); [by eapply list_elem_of_lookup_2|].
    destruct Hr as [_ Hr]. specialize (Hr (a, ACCESS_NONE) ltac:(set_solver)).
    unfold usable in Hr. simpl in Hr. by rewrite orb_true_r in Hr. }
  destruct Hr as (a & b & -> & Hn). set (run := before _ _ ++ _) in Hn.
  assert (Z.of_nat (occ te run) < 2 ^ 31) as Hocc.
  { unfold occ. pose proof (length_filter (fun y : Z * trace_event_tuple_t => y.2 = te) run).
    unfold run in *. rewrite !length_app, fmap_app, !length_app in *. lia. }
  cbn [mbind option_bind]. rewrite Hn. eexists _, _. split; [done|]. split; [done|].
  rewrite u32_small by lia. split; [lia|].
  exists te, (S (occ te run)). split.
  - rewrite Hsplit, fmap_app, fmap_cons, (app_assoc (before _ _)). fold run. rewrite <- app_assoc. simpl.
    set (rest := _ ++ flat _ _). pose proof (navigate_replicate te (Z.of_nat n + 1) 0 run rest) as Hnav.
    simpl in Hnav. by rewrite Hnav.
  - unfold calculate_costs, COST_CHANGE. rewrite change_costs_replicate. lia.
Qed.

Lemma SimpleAlgorithm_loop_at cfg evs :
  m_use_checkpoints cfg = false -> Z.of_nat (length (flat 1 (positions evs))) < 2 ^ 31 ->
  Z.of_nat (length (positions evs)) + 2 < 2 ^ 32 ->
  forall fuel n p t r o c, reader_at evs n r -> counted cfg (before (positions evs) n) (m_occurences o) ->
  (length (drop n (positions evs)) < fuel)%nat -> (n <= length (positions evs))%nat ->
  length (co_results c) = n -> repeats_from evs 1 (co_results c) ->
  exists c', SimpleAlgorithm_loop fuel cfg p t r o c = Some c' /\
    length (co_results c') = length (positions evs) /\ repeats_from evs 1 (co_results c').
Proof.
  intros Hcp Hlen Hlen2. induction fuel as [|fuel IH]; intros n p t r o c Hr Hm Hfuel Hn Hc Hrep; [lia|].
  cbn [SimpleAlgorithm_loop].
  pose proof (reader_next evs n r p t Hr ltac:(lia)) as Hnext.
  destruct (positions evs !! n) as [l|] eqn:Hl; cycle 1.
  { destruct Hnext as (r' & ->). apply lookup_ge_None in Hl. exists c. split; [done|]. split; [lia | done]. }
  destruct Hnext as (r' & -> & Hr'). pose proof (lookup_lt_Some _ _ _ Hl). rewrite length_drop in Hfuel.
  destruct (count_position_at cfg evs n l o c) as (o' & costs & -> & Hm' & Hnz & Hrp); [done..|].
  cbn [mbind option_bind]. apply (IH (S n)); [done | done | rewrite length_drop; lia | lia | |].
  - simpl. rewrite length_app. simpl. lia.
  - apply repeats_snoc; [done|]. rewrite Hc. cbn [snd]. rewrite (proj2 (Z.eqb_neq _ _)) by done.
    by rewrite Z.add_comm.
Qed.

(** The simple algorithm's costs, too, are those of a chain that arrives
    at the position: one that waits for the same event as often as needed. *)
Theorem simple_hops_reports cfg evs :
  m_use_checkpoints cfg = false -> Z.of_nat (length (flat 1 (positions evs))) < 2 ^ 31 ->
  Z.of_nat (length (positions evs)) + 2 < 2 ^ 32 ->
  exists c, SimpleAlgorithm_calculateAllHops cfg (openTraceFile evs 0) = Some c /\
    length (co_results c) = length (positions evs) /\ repeats_from evs 1 (co_results c).
Proof.
  intros Hcp Hlen Hlen2. apply (SimpleAlgorithm_loop_at cfg evs Hcp Hlen Hlen2 _ 0); try done.
  - pose proof (reader_remaining evs 0 (openTraceFile evs 0) (proj1 (proj2 (hops_at_init cfg evs)))).
    simpl in *. lia.
  - lia.
Qed.

(** ** Injection points *)

Lemma SmartHops_config_ok evs : m_use_checkpoints SmartHops_config = false /\ distinct SmartHops_config (positions evs).
Proof. split; [done | by left]. Qed.

(** Messages for the positions from [i] on. *)
Fixpoint serve_from (evs : list Trace_Event) (i : Z) (ms : list InjectionPointMessage) : Prop :=
  match ms with
  | [] => True
  | m :: ms => serves evs i m /\ serve_from evs (i + 1) ms
  end.

Lemma serve_from_snoc evs i ms m :
  serve_from evs i ms -> serves evs (i + Z.of_nat (length ms)) m -> serve_from evs i (ms ++ [m]).
Proof.
  revert i. induction ms as [|m0 ms IH]; intros i; simpl.
  - rewrite Z.add_0_r. auto.
  - intros [Hm0 Hms] Hm. split; [done|]. apply IH; [done|].
    by replace (i + 1 + Z.of_nat (length ms)) with (i + Z.of_nat (S (length ms))) by lia.
Qed.

(** The loop, once it has passed [instr1]. *)
Lemma calculate_results_at evs instr1 instr2 curr1 :
  instr2 <= Z.of_nat (length (positions evs)) -> Z.of_nat (length (positions evs)) + 2 < 2 ^ 29 ->
  forall fuel curr2 sa rs, hops_at SmartHops_config evs (Z.to_nat curr2) sa ->
  0 <= instr1 <= curr2 -> curr2 <= instr2 -> (Z.to_nat (instr2 - curr2) <= fuel)%nat ->
  exists sa' ms, calculate_results fuel instr1 instr2 sa curr1 curr2 rs = Some (sa', curr1, instr2, rs ++ ms) /\
    hops_at SmartHops_config evs (Z.to_nat instr2) sa' /\
    length ms = Z.to_nat (instr2 - curr2) /\ serve_from evs (curr2 + 1) ms.
Proof.
  intros Hi2 Hlen. destruct (SmartHops_config_ok evs) as [Hcp Hd].
  induction fuel as [|fuel IH]; intros curr2 sa rs Hs H1 H2 Hfuel; cbn [calculate_results];
    destruct (Z.gtb_spec instr2 curr2) as [Hgt|Hle].
  1: lia.
  1,3: assert (curr2 = instr2) as -> by lia; exists sa, []; rewrite app_nil_r, Z.sub_diag; done.
  rewrite (Z.gtb_ltb instr1), (proj2 (Z.ltb_ge _ _)) by lia.
  rewrite u32_small by lia.
  destruct (calculate_at SmartHops_config evs (Z.to_nat curr2) sa (curr2 + 1) (mkIPM None None None []))
    as (ip & s' & -> & Hserv & Hs'); try done; [lia|].
  cbn [mbind option_bind]. destruct (IH (curr2 + 1) s' (rs ++ [ip])) as (sa' & ms & -> & Hs2 & Hl & Hms); try done; [lia..|].
  exists sa', (ip :: ms). rewrite <- app_assoc. split; [done|]. split; [done|]. split; [simpl; lia | done].
Qed.

(** The loop when all results so far end before [instr1]. *)
Lemma calculate_results_jump evs instr1 instr2 curr1 curr2 n sa rs :
  hops_at SmartHops_config evs n sa -> Z.of_nat n <= instr1 -> 0 <= instr1 <= instr2 -> curr2 < instr1 ->
  instr2 <= Z.of_nat (length (positions evs)) -> Z.of_nat (length (positions evs)) + 2 < 2 ^ 29 ->
  exists sa' ms,
    calculate_results (Z.to_nat (instr2 - curr2)) instr1 instr2 sa curr1 curr2 rs
      = Some (sa', instr1, instr2, rs ++ ms) /\
    hops_at SmartHops_config evs (Z.to_nat instr2) sa' /\
    length ms = S (Z.to_nat (instr2 - instr1)) /\ serve_from evs instr1 ms.
Proof.
  intros Hs Hn Hi Hc Hi2 Hlen. destruct (SmartHops_config_ok evs) as [Hcp Hd].
  destruct (Z.to_nat (instr2 - curr2)) as [|fuel] eqn:Hf; [lia|]. cbn [calculate_results].
  rewrite !Z.gtb_ltb, !(proj2 (Z.ltb_lt _ _)) by lia.
  destruct (calculate_at SmartHops_config evs n sa instr1 (mkIPM None None None []))
    as (ip & s' & -> & Hserv & Hs'); try done; [lia|].
  cbn [mbind option_bind].
  destruct (calculate_results_at evs instr1 instr2 instr1 Hi2 Hlen fuel instr1 s' (rs ++ [ip]))
    as (sa' & ms & -> & Hs2 & Hl & Hms); try done; [lia..|].
  exists sa', (ip :: ms). rewrite <- app_assoc. split; [done|]. split; [done|]. split; [simpl; lia | done].
Qed.

Lemma serve_from_lookup evs i ms k m : serve_from evs i ms -> ms !! k = Some m -> serves evs (i + Z.of_nat k) m.
Proof.
  revert i k. induction ms as [|m0 ms IH]; intros i k; [done|]. intros [Hm0 Hms]. destruct k as [|k]; simpl.
  - intros [= ->]. by rewrite Z.add_0_r.
  - intros Hk. specialize (IH _ _ Hms Hk). by replace (i + Z.of_nat (S k)) with (i + 1 + Z.of_nat k) by lia.
Qed.

(** The search returns a message of least costs. *)
Lemma choose_minimum_least ms min c0 :
  Forall (fun m => exists c, ipm_costs m = Some c) ms ->
  (forall m, min = Some m -> ipm_costs m = Some c0) ->
  match choose_minimum ms min c0 with
  | Some m => (min = Some m \/ m ∈ ms) /\ exists c, ipm_costs m = Some c /\ c <= c0 /\
                Forall (fun m' => forall c', ipm_costs m' = Some c' -> c <= c') ms
  | None => min = None /\ Forall (fun m => forall c, ipm_costs m = Some c -> c0 <= c) ms
  end.
Proof.
  revert min c0. induction ms as [|m ms IH]; intros min c0 Hall Hmin; simpl.
  - destruct min as [m|]; [|done]. split; [by left|]. exists c0. split; [by apply Hmin|]. split; [lia | constructor].
  - apply Forall_cons in Hall as [[c Hc] Hall]. rewrite Hc. simpl. destruct (Z.ltb_spec c c0) as [Hlt|Hge].
    + specialize (IH (Some m) c Hall ltac:(by intros m' [= <-])).
      destruct (choose_minimum ms (Some m) c) as [m1|]; [|by destruct IH].
      destruct IH as [Hin (c1 & Hc1 & Hle & Hls)]. split; [right; destruct Hin as [[= ->]|]; set_solver|].
      exists c1. split; [done|]. split; [lia|]. constructor; [|done]. intros c' Hc'. simplify_eq. lia.
    + specialize (IH min c0 Hall Hmin). destruct (choose_minimum ms min c0) as [m1|].
      * destruct IH as [Hin (c1 & Hc1 & Hle & Hls)]. split; [destruct Hin; [by left | right; set_solver]|].
        exists c1. split; [done|]. split; [lia|]. constructor; [|done]. intros c' Hc'. simplify_eq. lia.
      * destruct IH as [? Hls]. split; [done|]. constructor; [|done]. intros c' Hc'. simplify_eq. lia.
Qed.

Lemma serves_costs evs i m : serves evs i m -> exists c, ipm_costs m = Some c /\ c <= 2 * i + 1.
Proof.
  intros (_ & _ & _ & Hlen & ->). eexists. split; [done|]. unfold calculate_costs, COST_CHANGE.
  pose proof (change_costs_range ((fun h => (hop_event h, 0)) <$> hops m)) as Hr. rewrite length_fmap in Hr.
  destruct (Z.eqb_spec i 0); lia.
Qed.

Lemma serve_from_costs evs i ms : serve_from evs i ms -> Forall (fun m => exists c, ipm_costs m = Some c) ms.
Proof.
  revert i. induction ms as [|m ms IH]; intros i; [by constructor|]. intros [Hm Hms].
  destruct (serves_costs _ _ _ Hm) as (c & Hc & _).
  constructor; [eauto | by eapply IH].
Qed.

(** The first injection point of a campaign: of the positions of the
    equivalence class one is chosen whose chain has least costs, and the
    message's chain leads there.  (The last position of a class with more than
    one is not considered.) *)
Theorem injection_point_first evs i1 i2 :
  0 <= i1 <= i2 -> i2 <= Z.of_nat (length (positions evs)) -> Z.of_nat (length (positions evs)) + 2 < 2 ^ 29 ->
  exists ip m k c, InjectionPointHops_parseFromInjectionInstr evs i1 i2 new_InjectionPointHops = Some ip /\
    m_ip ip = Some m /\ serves evs k m /\ ipm_costs m = Some c /\ i1 <= k <= i2 /\ (i1 < i2 -> k < i2) /\
    forall j, i1 <= j < i2 -> exists m' c', serves evs j m' /\ ipm_costs m' = Some c' /\ c <= c'.
Proof.
  intros Hi Hi2 Hlen. unfold InjectionPointHops_parseFromInjectionInstr. simpl.
  destruct (calculate_results_jump evs i1 i2 (-1) (-1) 0 (init evs) []) as (sa & ms & -> & Hs & Hl & Hms);
    try done; [apply hops_at_init | lia..|].
  cbn [mbind option_bind app]. rewrite Z.sub_diag. cbn [Z.ltb Z.compare].
  destruct (Z.eqb_spec 0 (i2 - i1)) as [Heq|Hne].
  - simpl. destruct ms as [|m ms]; [done|]. destruct Hms as [Hm _].
    destruct (serves_costs _ _ _ Hm) as (c & Hc & _). simpl.
    eexists _, m, i1, c. split; [done|]. split; [done|]. split; [done|]. split; [done|]. repeat split; lia.
  - rewrite !(proj2 (Z.ltb_ge _ _)) by lia. rewrite Z.sub_0_r, drop_0.
    pose proof (choose_minimum_least (take (Z.to_nat (i2 - i1)) ms) None (2 ^ 32 - 1)
      ltac:(apply Forall_take; by eapply serve_from_costs) ltac:(done)) as Hmin.
    destruct ms as [|m0 ms0] eqn:Hms0; [done|]. rewrite <- Hms0 in *.
    destruct (choose_minimum _ _ _) as [m|]; cycle 1.
    { exfalso. destruct Hmin as [_ Hmin]. rewrite Hms0 in *. destruct (Z.to_nat (i2 - i1)) eqn:Hz; [lia|].
      apply Forall_cons in Hmin as [Hmin _]. destruct Hms as [Hm0 _].
      destruct (serves_costs _ _ _ Hm0) as (c & Hc & Hb). specialize (Hmin c Hc). lia. }
    destruct Hmin as [[?|Hin] (c & Hc & _ & Hmin)]; [done|].
    apply list_elem_of_lookup in Hin as [k Hk]. apply lookup_take_Some in Hk as [Hk Hki].
    cbn [mbind option_bind]. eexists _, m, (i1 + Z.of_nat k), c. split; [done|]. split; [done|].
    split; [by eapply serve_from_lookup|]. split; [done|]. split; [lia|]. split; [lia|].
    intros j Hj. destruct (lookup_lt_is_Some_2 ms (Z.to_nat (j - i1))) as [m' Hm']; [lia|].
    pose proof (serve_from_lookup _ _ _ _ _ Hms Hm') as Hsv.
    replace (i1 + Z.of_nat (Z.to_nat (j - i1))) with j in Hsv by lia.
    destruct (serves_costs _ _ _ Hsv) as (c' & Hc' & _). exists m', c'. split; [done|]. split; [done|].
    rewrite Forall_forall in Hmin. apply (Hmin m'); [|done].
    apply list_elem_of_lookup. exists (Z.to_nat (j - i1)). apply lookup_take_Some. split; [done | lia].
Qed.

(** From the second injection point on the message may be that of an
    older class: the results before [instr1] are erased except the newest of
    them, which the search then takes for that of [instr1].  For two classes of one
    instruction each, the second receives the first one's chain. *)
Theorem injection_point_stale evs a b :
  0 <= a < b -> b <= Z.of_nat (length (positions evs)) -> Z.of_nat (length (positions evs)) + 2 < 2 ^ 29 ->
  exists ip1 ip2 m, InjectionPointHops_parseFromInjectionInstr evs a a new_InjectionPointHops = Some ip1 /\
    InjectionPointHops_parseFromInjectionInstr evs b b ip1 = Some ip2 /\
    m_ip ip1 = Some m /\ m_ip ip2 = Some m /\ serves evs a m.
Proof.
  intros Hab Hb Hlen. unfold InjectionPointHops_parseFromInjectionInstr at 1. simpl.
  destruct (calculate_results_jump evs a a (-1) (-1) 0 (init evs) []) as (sa & ms & -> & Hs & Hl & Hms);
    try done; [apply hops_at_init | lia..|].
  rewrite Z.sub_diag in Hl. destruct ms as [|m [|]]; try done. destruct Hms as [Hm _].
  cbn [mbind option_bind app]. rewrite Z.sub_diag. simpl. eexists _. 
  destruct (calculate_results_jump evs b b b a (Z.to_nat a) sa [m]) as (sa' & ms' & Hcalc & Hs' & Hl' & Hms');
    try done; [lia..|].
  exists (mkIPH (Some sa') b b ([m] ++ ms') (Some m)), m. split; [done|]. split; [|done].
  unfold InjectionPointHops_parseFromInjectionInstr. simpl.
  destruct Hm as (Ha & Ht & Hm). rewrite Ht. simpl. rewrite (proj2 (Z.ltb_lt _ _)) by lia. simpl.
  rewrite Hcalc. simpl. by rewrite Z.sub_diag.
Qed.

End hops.

(** ** Examples *)

Section examples.
#[local] Existing Instance sal_32.

Definition exec (ip : Z) : Trace_Event := mkTE ip None None 0 READ None.
Definition load (ip a : Z) : Trace_Event := mkTE ip None (Some a) 1 READ None.

(** A loop of two instructions, the second of which reads a byte. *)
Definition loop_trace : list Trace_Event :=
  [exec 10; exec 20; load 20 100; exec 10; exec 20; load 20 100; exec 10; exec 20; load 20 101].

Lemma smarthops_chains_arrive_witness :
  exists answers, requests SmartHops_config [0; 2; 5; 6] (init loop_trace) = Some answers /\
    Forall2 (fun o a => a.1 = true /\ serves loop_trace o a.2) [0; 2; 5; 6] answers.
Proof.
  apply smarthops_chains_arrive.
  - reflexivity.
  - left. reflexivity.
  - vm_compute. reflexivity.
  - repeat constructor; vm_compute; discriminate.
  - repeat constructor; lia.
Defined.

Lemma smarthops_end_of_trace_witness :
  exists s', calculateFollowingHop SmartHops_config 7 (mkIPM None None None []) (init loop_trace)
    = Some (false, mkIPM None None None [], s').
Proof.
  apply smarthops_end_of_trace.
  - reflexivity.
  - left. reflexivity.
  - split; vm_compute; reflexivity.
Defined.

Lemma compute_hops_reports_witness :
  exists c, SmartAlgorithm_calculateAllHops (mkConfig true false false 0 0 0) (openTraceFile loop_trace 0) = Some c /\
    length (co_results c) = length (positions loop_trace) /\ reported_from loop_trace 1 (co_results c) /\
    co_checkpoints c = [].
Proof.
  apply compute_hops_reports.
  - reflexivity.
  - right. apply (bool_decide_unpack _). vm_compute. exact I.
  - vm_compute. reflexivity.
Defined.

Lemma simple_hops_reports_witness :
  exists c, SimpleAlgorithm_calculateAllHops (mkConfig true true false 0 0 0) (openTraceFile loop_trace 0) = Some c /\
    length (co_results c) = length (positions loop_trace) /\ repeats_from loop_trace 1 (co_results c).
Proof. apply simple_hops_reports; vm_compute; reflexivity. Defined.

Lemma injection_point_first_witness :
  exists ip m k c, InjectionPointHops_parseFromInjectionInstr loop_trace 3 6 new_InjectionPointHops = Some ip /\
    m_ip ip = Some m /\ serves loop_trace k m /\ ipm_costs m = Some c /\ 3 <= k <= 6 /\ (3 < 6 -> k < 6) /\
    forall j, 3 <= j < 6 -> exists m' c', serves loop_trace j m' /\ ipm_costs m' = Some c' /\ c <= c'.
Proof.
  apply injection_point_first.
  - lia.
  - vm_compute. discriminate.
  - vm_compute. reflexivity.
Defined.

Lemma injection_point_stale_witness :
  exists ip1 ip2 m, InjectionPointHops_parseFromInjectionInstr loop_trace 3 3 new_InjectionPointHops = Some ip1 /\
    InjectionPointHops_parseFromInjectionInstr loop_trace 5 5 ip1 = Some ip2 /\
    m_ip ip1 = Some m /\ m_ip ip2 = Some m /\ serves loop_trace 3 m.
Proof.
  apply injection_point_stale.
  - lia.
  - vm_compute. discriminate.
  - vm_compute. reflexivity.
Defined.

(** The chain for the fifth position, and where it leads. *)
Example loop_chain :
  (fun p => hops p.1.2) <$> calculateFollowingHop SmartHops_config 5 (mkIPM None None None []) (init loop_trace)
  = Some [(20, HOP_EXECUTE); (10, HOP_EXECUTE); (20, HOP_EXECUTE); (10, HOP_EXECUTE)].
Proof. vm_compute. reflexivity. Qed.

End examples.
