(* ===== verification/Pruners.v ===== *)
(** * Fault-space pruning

    [tools/prune-trace]: the steps between trace import and campaign.  A pruner
    chooses which rows of the trace table are injected (pilots) and records
    which rows a pilot's outcome stands for (groups).

    Tables are lists of rows, an SQL statement is the list function it denotes.
    A query fails on a duplicate primary key of [fspgroup] (rows inserted before
    stay, as with MyISAM); other database errors are not modelled.  How the server
    orders rows that agree in the [ORDER BY] column is a parameter. *)
From S2P Require Import Prelude Importer SumTree.

(** ** Tables ([Pruner.cc], [create_database]) *)

Record PilotRow := mkPilot {
  p_id : Z;
  known_outcome : Z;
  p_variant_id : Z;
  p_instr2 : Z;
  injection_instr : Z;
  injection_instr_absolute : option Z;
  p_data_address : Z;
  data_width : Z;
  p_fspmethod_id : Z
}.

Record GroupRow := mkGroup {
  g_variant_id : Z;
  g_instr2 : Z;
  g_data_address : Z;
  g_fspmethod_id : Z;
  g_pilot_id : Z;
  g_weight : option Z
}.

Record Database := mkDB {
  db_trace : list Row;
  fsppilot : list PilotRow;
  fspgroup : list GroupRow;
  auto_increment : Z
}.

Definition trace_key (t : Row) : Z * Z * Z := (variant_id t, row_address t, instr2 t).
Definition pilot_key (p : PilotRow) : Z * Z * Z := (p_variant_id p, p_data_address p, p_instr2 p).
Definition group_key (g : GroupRow) : Z * Z * Z * Z :=
  (g_variant_id g, g_data_address g, g_instr2 g, g_fspmethod_id g).

(** [INSERT INTO fsppilot]: rows get consecutive ids. *)
Fixpoint insert_pilots (ps : list (Z -> PilotRow)) (db : Database) : Database :=
  match ps with
  | [] => db
  | p :: ps =>
      insert_pilots ps (mkDB (db_trace db) (fsppilot db ++ [p (auto_increment db)]) (fspgroup db)
                          (auto_increment db + 1))
  end.

Fixpoint insert_groups (gs : list GroupRow) (db : Database) : bool * Database :=
  match gs with
  | [] => (true, db)
  | g :: gs =>
      if bool_decide (group_key g ∈ group_key <$> fspgroup db) then (false, db)
      else insert_groups gs (mkDB (db_trace db) (fsppilot db) (fspgroup db ++ [g]) (auto_increment db))
  end.

(** [REPLACE INTO fspgroup] *)
Fixpoint replace_groups (gs : list GroupRow) (db : Database) : Database :=
  match gs with
  | [] => db
  | g :: gs =>
      replace_groups gs (mkDB (db_trace db) (fsppilot db)
        (filter (fun g' => group_key g' <> group_key g) (fspgroup db) ++ [g]) (auto_increment db))
  end.

(** ** [Pruner] *)

(** [init]: variants with existing pruning data are skipped; [None] when none is left. *)
Definition already_pruned (method : Z) (db : Database) (v : Z) : Prop :=
  v ∈ p_variant_id <$> filter (fun p => p_fspmethod_id p = method) (fsppilot db) \/
  v ∈ g_variant_id <$> filter (fun g => g_fspmethod_id g = method) (fspgroup db).

#[export] Instance already_pruned_dec method db v : Decision (already_pruned method db v).
Proof. unfold already_pruned. apply _. Defined.

Definition Pruner_init (method : Z) (overwrite incremental : bool) (variants : list Z) (db : Database)
    : option (list Z) :=
  let vs := if negb overwrite && negb incremental
            then filter (fun v => ~ already_pruned method db v) variants else variants in
  if (length vs =? 0)%nat then None else Some vs.

Definition clear_database (method : Z) (variants : list Z) (db : Database) : Database :=
  mkDB (db_trace db)
    (filter (fun p => ~ (p_variant_id p ∈ variants /\ p_fspmethod_id p = method)) (fsppilot db))
    (filter (fun g => ~ (g_variant_id g ∈ variants /\ g_fspmethod_id g = method)) (fspgroup db))
    (auto_increment db).

Section pruners.
(** [ORDER BY instr2 ASC] *)
Context (order_by_instr2 : list Row -> list Row).

(** ** [BasicPruner] *)

Definition basic_pilot (use_instr1 : bool) (method known : Z) (t : Row) (id : Z) : PilotRow :=
  mkPilot id known (variant_id t) (instr2 t)
    (if use_instr1 then instr1 t else instr2 t)
    (if use_instr1 then instr1_absolute t else instr2_absolute t)
    (row_address t) (row_width t) method.

Definition reads_of (variants : list Z) (db : Database) : list Row :=
  filter (fun t => variant_id t ∈ variants /\ row_access t = READ) (db_trace db).

Definition writes_of (variants : list Z) (db : Database) : list Row :=
  filter (fun t => variant_id t ∈ variants /\ row_access t = WRITE) (db_trace db).

(** One pilot of known outcome per variant: the first write. *)
Fixpoint known_pilots (use_instr1 : bool) (method : Z) (variants : list Z) (db : Database) : Database :=
  match variants with
  | [] => db
  | v :: variants =>
      known_pilots use_instr1 method variants
        (insert_pilots (basic_pilot use_instr1 method 1 <$> take 1 (order_by_instr2 (writes_of [v] db))) db)
  end.

(** The two joins of pilots and trace entries. *)
Definition read_groups (method : Z) (variants : list Z) (db : Database) : list GroupRow :=
  p ← filter (fun p => known_outcome p = 0 /\ p_fspmethod_id p = method /\ p_variant_id p ∈ variants) (fsppilot db);
  t ← filter (fun t => trace_key t = pilot_key p) (db_trace db);
  [mkGroup (p_variant_id p) (p_instr2 p) (p_data_address p) (p_fspmethod_id p) (p_id p) None].

Definition write_groups (method : Z) (variants : list Z) (db : Database) : list GroupRow :=
  p ← filter (fun p => p_fspmethod_id p = method /\ known_outcome p = 1) (fsppilot db);
  t ← filter (fun t => variant_id t = p_variant_id p) (writes_of variants db);
  [mkGroup (variant_id t) (instr2 t) (row_address t) (p_fspmethod_id p) (p_id p) None].

Definition BasicPruner_prune_all (use_instr1 : bool) (method : Z) (variants : list Z) (db : Database)
    : bool * Database :=
  let db := insert_pilots (basic_pilot use_instr1 method 0 <$> reads_of variants db) db in
  let db := known_pilots use_instr1 method variants db in
  let '(ok, db) := insert_groups (read_groups method variants db) db in
  if ok then insert_groups (write_groups method variants db) db else (false, db).

(** ** Random numbers *)

(** [while (limit >> bitpos) bitpos++]; shifting a [uint64_t] by 64 is
    undefined. *)
Fixpoint bitpos_loop (fuel : nat) (limit bitpos : Z) : option Z :=
  match fuel with
  | O => None
  | S fuel =>
      if bitpos >=? 64 then None
      else if Z.shiftr limit bitpos =? 0 then Some bitpos else bitpos_loop fuel limit (bitpos + 1)
  end.

(** [urandom] is what the device delivers; [None] if that is not enough. *)
Fixpoint draw (mask limit : Z) (urandom : list Z) : option (Z * list Z) :=
  match urandom with
  | [] => None
  | r :: urandom =>
      let retval := Z.land r mask in
      if retval >? limit then draw mask limit urandom else Some (retval, urandom)
  end.

Definition my_rand (limit : Z) (urandom : list Z) : option (Z * list Z) :=
  bitpos ← bitpos_loop 65 limit 0;
  draw (Z.shiftl 1 bitpos - 1) limit urandom.

(** ** [FESamplingPruner]: sampling without replacement *)

(** The template's default. *)
Definition BUCKETSIZE : nat := 1024.

(** A [Pilot]: the union of [id] and [instr2_absolute] is one field. *)
Record Pilot := mkSample {
  duration : Z;
  s_instr2 : Z;
  s_id_or_absolute : Z;
  s_data_address : Z
}.

Definition duration_of (weighting : bool) (t : Row) : Z :=
  if weighting then u64 (time2 t - time1 t + 1) else 1.

(** The address column is given to [strtoul]; if it is NULL this is a null
    pointer ([None]). *)
Definition trace_sample (weighting : bool) (t : Row) : option Pilot :=
  abs ← instr2_absolute t;
  Some (mkSample (duration_of weighting t) (instr2 t) abs (row_address t)).

Definition population {P : Type} (size : P -> Z) (ps : list P) : SumTree P :=
  fold_left (fun t p => add size BUCKETSIZE p t) ps new_SumTree.

Fixpoint sample_without (n : nat) (pop : SumTree Pilot) (urandom : list Z)
    : option (list Pilot * SumTree Pilot * list Z) :=
  match n with
  | O => Some ([], pop, urandom)
  | S n =>
      '(pos, urandom) ← my_rand (u64 (get_size pop - 1)) urandom;
      '(p, pop) ← remove duration pos pop;
      '(ps, pop, urandom) ← sample_without n pop urandom;
      Some (p :: ps, pop, urandom)
  end.

Definition sampled_pilot (method v : Z) (p : Pilot) (id : Z) : PilotRow :=
  mkPilot id 0 v (s_instr2 p) (s_instr2 p) (Some (s_id_or_absolute p)) (s_data_address p) 1 method.

(** Existing pilots of the basic method, with their durations. *)
Definition basic_samples (weighting : bool) (basic v : Z) (db : Database) : list Pilot :=
  p ← filter (fun p => p_fspmethod_id p = basic /\ p_variant_id p = v /\ known_outcome p = 0) (fsppilot db);
  t ← filter (fun t => trace_key t = pilot_key p) (db_trace db);
  [mkSample (duration_of weighting t) (p_instr2 p) (p_id p) (p_data_address p)].

(** [basic] is the id of the basic method; [None] is undefined behaviour or a
    lack of random numbers. *)
Definition FESampling_prune (use_known weighting : bool) (samplesize method basic v : Z) (urandom : list Z)
    (db : Database) : option (bool * Database * list Z) :=
  samples ← (if use_known then Some (basic_samples weighting basic v db)
             else mapM (trace_sample weighting) (reads_of [v] db));
  let samplerows := Z.to_nat (Z.min (Z.of_nat (length samples)) samplesize) in
  '(ps, _, urandom) ← sample_without samplerows (population duration samples) urandom;
  let '(ok, db, known_method) :=
    if use_known then
      (* the result of [insert_multiple] is not looked at *)
      (true, (insert_groups ((fun p => mkGroup v (s_instr2 p) (s_data_address p) method (s_id_or_absolute p) None) <$> ps) db).2,
       basic)
    else
      let db := insert_pilots (sampled_pilot method v <$> ps) db in
      let db := insert_pilots (basic_pilot false method 1 <$> take 1 (order_by_instr2 (writes_of [v] db))) db in
      let '(ok, db) := insert_groups
        ((fun p => mkGroup (p_variant_id p) (p_instr2 p) (p_data_address p) (p_fspmethod_id p) (p_id p) None) <$>
           filter (fun p => known_outcome p = 0 /\ p_fspmethod_id p = method /\ p_variant_id p = v) (fsppilot db)) db in
      (ok, db, method) in
  if negb ok then Some (false, db, urandom)
  else
    let '(ok, db) := insert_groups
      ((fun p => mkGroup (p_variant_id p) (p_instr2 p) (p_data_address p) method (p_id p) None) <$>
         filter (fun p => p_variant_id p = v /\ known_outcome p = 1 /\ p_fspmethod_id p = known_method) (fsppilot db)) db in
    Some (ok, db, urandom).

(** ** [SamplingPruner]: sampling with replacement

    The tree's elements are updated through references: they are indices into
    the list of pilots. *)

Record WeightedPilot := mkWeighted {
  w_duration : Z;
  w_id : Z;
  w_instr2 : Z;
  w_instr2_absolute : Z;
  w_data_address : Z;
  weight : Z
}.

(** The group of this method for a trace entry ([LEFT JOIN]); its key is unique. *)
Definition group_of (method v : Z) (a i2 : Z) (db : Database) : option GroupRow :=
  head (filter (fun g => group_key g = (v, a, i2, method)) (fspgroup db)).

Definition weighted_trace (weighting incremental : bool) (method : Z) (db : Database) (t : Row)
    : option WeightedPilot :=
  abs ← instr2_absolute t;
  let g := if incremental then group_of method (variant_id t) (row_address t) (instr2 t) db else None in
  Some (mkWeighted (duration_of weighting t) (from_option g_pilot_id 0 g) (instr2 t) abs (row_address t)
          (from_option (fun g => default 0 (g_weight g)) 0 g)).

(** [instr2_absolute] is not set in this mode, nor read. *)
Definition weighted_basic (weighting incremental : bool) (method basic v : Z) (db : Database) : list WeightedPilot :=
  p ← filter (fun p => p_fspmethod_id p = basic /\ p_variant_id p = v /\ known_outcome p = 0) (fsppilot db);
  t ← filter (fun t => trace_key t = pilot_key p) (db_trace db);
  let g := if incremental then group_of method (variant_id t) (row_address t) (instr2 t) db else None in
  [mkWeighted (duration_of weighting t) (p_id p) (p_instr2 p) 0 (p_data_address p)
     (from_option (fun g => default 0 (g_weight g)) 0 g)].

Definition weighted_size (ps : list WeightedPilot) (i : nat) : Z := from_option w_duration 0 (ps !! i).

Definition inc_weight (p : WeightedPilot) : WeightedPilot :=
  mkWeighted (w_duration p) (w_id p) (w_instr2 p) (w_instr2_absolute p) (w_data_address p) (u32 (weight p + 1)).

(** The loop: pilots with their new weights, and the indices of those sampled
    for the first time. *)
Fixpoint sample_with (n : nat) (size : nat -> Z) (pop : SumTree nat) (ps : list WeightedPilot) (urandom : list Z)
    : option (list WeightedPilot * list nat * list Z) :=
  match n with
  | O => Some (ps, [], urandom)
  | S n =>
      '(pos, urandom) ← my_rand (u64 (get_size pop - 1)) urandom;
      i ← get size pos pop;
      p ← ps !! i;
      let p := inc_weight p in
      '(ps, first, urandom) ← sample_with n size pop (<[i := p]> ps) urandom;
      Some (ps, if weight p =? 1 then i :: first else first, urandom)
  end.

(** [UPDATE fspgroup SET weight] *)
Definition update_weight (method v : Z) (p : WeightedPilot) (db : Database) : Database :=
  mkDB (db_trace db) (fsppilot db)
    ((fun g => if bool_decide (group_key g = (v, w_data_address p, w_instr2 p, method))
               then mkGroup (g_variant_id g) (g_instr2 g) (g_data_address g) (g_fspmethod_id g) (g_pilot_id g)
                      (Some (weight p))
               else g) <$> fspgroup db)
    (auto_increment db).

Definition Sampling_prune (use_known weighting incremental : bool) (samplesize method basic v : Z)
    (urandom : list Z) (db : Database) : option (bool * Database * list Z) :=
  ps ← (if use_known then Some (weighted_basic weighting incremental method basic v db)
        else mapM (weighted_trace weighting incremental method db) (reads_of [v] db));
  let size := weighted_size ps in
  let pop := population size (seq 0 (length ps)) in
  '(ps, first, urandom) ← sample_with (Z.to_nat samplesize) size pop ps urandom;
  if negb use_known then
    let db := insert_pilots
      ((fun p => sampled_pilot method v (mkSample 0 (w_instr2 p) (w_instr2_absolute p) (w_data_address p))) <$>
         omap (fun i => ps !! i) first) db in
    let gs := (fun p => mkGroup (p_variant_id p) (p_instr2 p) (p_data_address p) method (p_id p) (Some 1)) <$>
                filter (fun p => known_outcome p = 0 /\ p_fspmethod_id p = method /\ p_variant_id p = v) (fsppilot db) in
    let '(ok, db) := if incremental then (true, replace_groups gs db) else insert_groups gs db in
    if ok then
      visited ← iterate (length ps) (iter_begin pop);
      Some (true, fold_left (fun db p => update_weight method v p db)
                    (filter (fun p => 1 < weight p) (omap (fun i => ps !! i) visited)) db, urandom)
    else Some (false, db, urandom)
  else
    visited ← iterate (length ps) (iter_begin pop);
    let gs := (fun p => mkGroup v (w_instr2 p) (w_data_address p) method (w_id p) (Some (weight p))) <$>
                filter (fun p => weight p <> 0) (omap (fun i => ps !! i) visited) in
    Some (true, if incremental then replace_groups gs db else (insert_groups gs db).2, urandom).

End pruners.

(** ** [BasicBlockPruner], [CallRegionPruner] *)

Record trace_event_t := mkBB { static_instr : Z; dynamic_instr : Z; dynamic_time : Z }.

(** [trace_stream::next] on the whole trace; [None] is the failed assertion. *)
Fixpoint instruction_events (evs : list Trace_Event) (instr curtime : Z) : option (list trace_event_t) :=
  match evs with
  | [] => Some []
  | ev :: evs =>
      curtime ← match te_time_delta ev with
                | Some d => if d >=? 0 then Some (u64 (curtime + d)) else None
                | None => Some curtime
                end;
      match te_memaddr ev with
      | Some _ => instruction_events evs instr curtime
      | None =>
          rest ← instruction_events evs (u32 (instr + 1)) curtime;
          Some (mkBB (te_ip ev) instr curtime :: rest)
      end
  end.

(** The virtual function that tells regions apart. *)
Class RegionKind := { inSameRegion : Z -> Z -> option bool }.

Section regions.
(** [instructions]: address to width, from the objdump table; [at] throws
    ([None]) for an unknown address. *)
Context (instructions : gmap Z Z).

Definition BasicBlocks : RegionKind := {|
  inSameRegion previous next := w ← instructions !! previous; Some (u64 (previous + w) =? next)
|}.

(** The second look-up is only for an error message, but throws all the same. *)
Definition CallRegions (call_or_ret : gset Z) : RegionKind := {|
  inSameRegion previous next :=
    if bool_decide (previous ∈ call_or_ret) then _ ← instructions !! previous; Some false else Some true
|}.

Context `{!RegionKind}.

(** The loop of [findRegionLeaders]; an instruction within the previous one and its successor are
    passed over. *)
Fixpoint leaders_loop (fuel : nat) (previous : trace_event_t) (evs : list trace_event_t) (leaders : gset Z)
    : option (gset Z) :=
  match fuel with
  | O => None
  | S fuel =>
      match evs with
      | [] => Some leaders
      | next :: evs =>
          let l := static_instr previous in
          w ← instructions !! l;
          if (l <? static_instr next) && (static_instr next <? u64 (l + w)) then
            match evs with
            | [] => Some leaders
            | next :: evs => leaders_loop fuel next evs leaders
            end
          else
            same ← inSameRegion l (static_instr next);
            leaders_loop fuel next evs
              (if same : bool then leaders else {[static_instr next; u64 (l + w)]} ∪ leaders)
      end
  end.

Definition findRegionLeaders (evs : list trace_event_t) : option (gset Z) :=
  match evs with
  | [] => None
  | first :: evs => leaders_loop (S (length evs)) first evs {[static_instr first]}
  end.

Record region := mkRegion {
  reg_id : Z;
  reg_begin : trace_event_t;
  reg_end : trace_event_t;
  instruction_count : Z
}.

Definition appendInstruction (e : trace_event_t) (r : region) : region :=
  mkRegion (reg_id r) (reg_begin r) e (u32 (instruction_count r + 1)).

(** The inner loop: [r] is the current region. *)
Fixpoint regions_loop (leaders : gset Z) (dynamic_regions : Z) (r : region) (evs : list trace_event_t) : list region :=
  match evs with
  | [] => [r]
  | e :: evs =>
      if bool_decide (static_instr e ∈ leaders)
      then r :: regions_loop leaders (u32 (dynamic_regions + 1))
                  (appendInstruction e (mkRegion dynamic_regions e e 0)) evs
      else regions_loop leaders dynamic_regions (appendInstruction e r) evs
  end.

Definition findRegions (leaders : gset Z) (evs : list trace_event_t) : list region :=
  match evs with
  | [] => []
  | e :: evs => regions_loop leaders 1 (appendInstruction e (mkRegion 0 e e 0)) evs
  end.

End regions.

(** [exportRegions]: what is read within a region is inner or outer, depending
    on whether it also ends there. *)
Record RegionRow := mkRegionRow {
  rr_id : Z; rr_tag : Z; rr_instr1 : Z; rr_instr2 : Z; rr_time1 : Z; rr_time2 : Z;
  weight_inner : Z; weight_outer : Z; count_inner : Z; count_outer : Z
}.

Definition export_region (v : Z) (db : Database) (r : region) : RegionRow :=
  let t1 := dynamic_time (reg_begin r) in
  let t2 := dynamic_time (reg_end r) in
  let ts := filter (fun t => row_access t = READ /\ variant_id t = v /\ t1 <= time1 t <= t2) (db_trace db) in
  let inner := filter (fun t => time2 t <= t2) ts in
  let outer := filter (fun t => t2 < time2 t) ts in
  mkRegionRow (reg_id r) (static_instr (reg_begin r)) (dynamic_instr (reg_begin r)) (dynamic_instr (reg_end r)) t1 t2
    (sum_of (fun t => time2 t - time1 t + 1) inner) (sum_of (fun t => time2 t - time1 t + 1) outer)
    (Z.of_nat (length inner)) (Z.of_nat (length outer)).

Definition BasicBlockPruner_prune (instructions : gmap Z Z) (kind : RegionKind) (v : Z) (evs : list Trace_Event)
    (db : Database) : option (list RegionRow) :=
  if bool_decide (instructions = ∅) then None
  else
    es ← instruction_events evs 0 0;
    leaders ← findRegionLeaders instructions es;
    Some (export_region v db <$> findRegions leaders es).

(** *** Several variants *)

(** A row of the objdump table; [opcode] is in hexadecimal. *)
Record ObjdumpRow := mkObjdump { instr_address : Z; opcode : string; disassemble : string }.

(** [instr_width_t] is a byte. *)
Definition opcode_width (r : ObjdumpRow) : Z := wrap 8 (Z.of_nat (String.length (opcode r)) / 2).

(** Into the map that [prune_all] has cleared. *)
Definition importObjdump (rows : list ObjdumpRow) : gmap Z Z :=
  fold_left (fun m r => <[instr_address r := opcode_width r]> m) rows ∅.

Definition is_call_or_ret (r : ObjdumpRow) : bool :=
  String.prefix "call" (disassemble r) || String.prefix "ret" (disassemble r) ||
  String.prefix "repz ret" (disassemble r).

(** Into the set as it is. *)
Definition record_calls (rows : list ObjdumpRow) (call_or_ret : gset Z) : gset Z :=
  fold_left (fun s r => if is_call_or_ret r then {[instr_address r]} ∪ s else s) rows call_or_ret.

(** The same trace file is read for every variant. *)
Fixpoint BasicBlockPruner_prune_all (evs : list Trace_Event) (db : Database) (variants : list (Z * list ObjdumpRow))
    : option (list (Z * list RegionRow)) :=
  match variants with
  | [] => Some []
  | (v, rows) :: variants =>
      let instructions := importObjdump rows in
      rs ← BasicBlockPruner_prune instructions (BasicBlocks instructions) v evs db;
      rest ← BasicBlockPruner_prune_all evs db variants;
      Some ((v, rs) :: rest)
  end.

Fixpoint CallRegionPruner_prune_all (evs : list Trace_Event) (db : Database) (call_or_ret : gset Z)
    (variants : list (Z * list ObjdumpRow)) : option (list (Z * list RegionRow)) :=
  match variants with
  | [] => Some []
  | (v, rows) :: variants =>
      let instructions := importObjdump rows in
      let call_or_ret := record_calls rows call_or_ret in
      rs ← BasicBlockPruner_prune instructions (CallRegions instructions call_or_ret) v evs db;
      rest ← CallRegionPruner_prune_all evs db call_or_ret variants;
      Some ((v, rs) :: rest)
  end.
