(* ===== verification/PrunerTheorems.v ===== *)
(** * Theorems on pruning

    Every trace entry is accounted for by exactly one group of the basic method;
    sampling draws what it should; regions partition the run. *)
From S2P Require Import Prelude Events MemoryMap Importer ImporterTheorems SumTree Pruners.

(** ** Tables *)

Section tables.
Implicit Types (db : Database) (ps : list (Z -> PilotRow)) (gs : list GroupRow).

(** The rows an insertion adds, numbered from [n] on. *)
Fixpoint numbered (n : Z) ps : list PilotRow :=
  match ps with
  | [] => []
  | p :: ps => p n :: numbered (n + 1) ps
  end.

Lemma insert_pilots_spec ps db :
  insert_pilots ps db = mkDB (db_trace db) (fsppilot db ++ numbered (auto_increment db) ps) (fspgroup db)
                          (auto_increment db + Z.of_nat (length ps)).
Proof.
  revert db. induction ps as [|p ps IH]; intros db; simpl.
  - rewrite app_nil_r, Z.add_0_r. by destruct db.
  - rewrite IH. simpl. f_equal; [by rewrite <- app_assoc | lia].
Qed.

(** Insertion succeeds if all keys are new and distinct. *)
Lemma insert_groups_spec gs db :
  NoDup ((group_key <$> fspgroup db) ++ (group_key <$> gs)) ->
  insert_groups gs db = (true, mkDB (db_trace db) (fsppilot db) (fspgroup db ++ gs) (auto_increment db)).
Proof.
  revert db. induction gs as [|g gs IH]; intros db Hnd; simpl.
  - rewrite app_nil_r. by destruct db.
  - simpl in Hnd. rewrite bool_decide_eq_false_2; cycle 1.
    { apply NoDup_app in Hnd as (_ & Hd & _). intros Hin. apply (Hd _ Hin). set_solver. }
    rewrite IH; simpl; [by rewrite <- app_assoc|]. rewrite fmap_app. simpl. by rewrite <- app_assoc.
Qed.

Lemma numbered_app n ps1 ps2 :
  numbered n (ps1 ++ ps2) = numbered n ps1 ++ numbered (n + Z.of_nat (length ps1)) ps2.
Proof.
  revert n. induction ps1 as [|p ps1 IH]; intros n; simpl; [by rewrite Z.add_0_r|].
  rewrite IH. do 3 f_equal. lia.
Qed.

Lemma insert_pilots_app ps1 ps2 db : insert_pilots (ps1 ++ ps2) db = insert_pilots ps2 (insert_pilots ps1 db).
Proof. revert db. induction ps1 as [|p ps1 IH]; intros db; simpl; [done | apply IH]. Qed.

Lemma numbered_ids n ps : (forall p i, p ∈ ps -> p_id (p i) = i) -> p_id <$> numbered n ps = seqZ n (Z.of_nat (length ps)).
Proof.
  revert n. induction ps as [|p ps IH]; intros n Hid; [done|]. cbn [numbered length].
  rewrite Nat2Z.inj_succ, seqZ_cons by lia. rewrite Z.pred_succ. simpl. f_equal; [apply Hid; set_solver|].
  apply IH. intros; apply Hid; set_solver.
Qed.

Lemma numbered_fmap {A B} (f : PilotRow -> B) (g : A -> B) (mk : A -> Z -> PilotRow) n (l : list A) :
  (forall a i, f (mk a i) = g a) -> f <$> numbered n (mk <$> l) = g <$> l.
Proof.
  intros Hf. revert n. induction l as [|a l IH]; intros n; simpl; [done|]. by rewrite Hf, IH.
Qed.

Lemma numbered_all {A} (P : PilotRow -> Prop) (mk : A -> Z -> PilotRow) n (l : list A) :
  (forall a i, a ∈ l -> P (mk a i)) -> Forall P (numbered n (mk <$> l)).
Proof.
  revert n. induction l as [|a l IH]; intros n Hp; simpl; constructor; [apply Hp; set_solver|].
  apply IH. intros; apply Hp; set_solver.
Qed.
End tables.

(** ** The basic pruner *)

Section basic.
Context (order_by_instr2 : list Row -> list Row).
(** What [ORDER BY instr2] guarantees. *)
Hypothesis order_permutes : forall l, order_by_instr2 l ≡ₚ l.
Context (use_instr1 : bool) (method : Z) (variants : list Z) (db : Database).
Hypothesis variants_distinct : NoDup variants.
Hypothesis keys_distinct : NoDup (trace_key <$> db_trace db).
(** Nothing of this method yet: the variants were filtered or cleared. *)
Hypothesis fresh_pilots : Forall (fun p => p_fspmethod_id p <> method \/ p_variant_id p ∉ variants) (fsppilot db).
Hypothesis fresh_groups : Forall (fun g => g_fspmethod_id g <> method \/ g_variant_id g ∉ variants) (fspgroup db).

Definition read_pilots : list PilotRow :=
  numbered (auto_increment db) (basic_pilot use_instr1 method 0 <$> reads_of variants db).

(** The first write of each variant that has one. *)
Definition first_writes (vs : list Z) : list Row :=
  v ← vs; take 1 (order_by_instr2 (writes_of [v] db)).

Lemma known_pilots_spec vs db1 :
  db_trace db1 = db_trace db ->
  known_pilots order_by_instr2 use_instr1 method vs db1
  = insert_pilots (basic_pilot use_instr1 method 1 <$> first_writes vs) db1.
Proof.
  revert db1. induction vs as [|v vs IH]; intros db1 Ht; [done|]. cbn [known_pilots].
  rewrite IH by (rewrite insert_pilots_spec; done).
  assert (writes_of [v] db1 = writes_of [v] db) as -> by (unfold writes_of; by rewrite Ht).
  unfold first_writes. rewrite bind_cons, fmap_app, insert_pilots_app. done.
Qed.

Definition write_pilots : list PilotRow :=
  numbered (auto_increment db + Z.of_nat (length (reads_of variants db)))
    (basic_pilot use_instr1 method 1 <$> first_writes variants).

Definition pruned_pilots : list PilotRow := fsppilot db ++ read_pilots ++ write_pilots.

Lemma read_pilots_all : Forall (fun p => known_outcome p = 0 /\ p_fspmethod_id p = method /\ p_variant_id p ∈ variants) read_pilots.
Proof.
  apply numbered_all. intros t i Ht. simpl. split; [done|]. split; [done|].
  unfold reads_of in Ht. apply list_elem_of_filter in Ht. tauto.
Qed.

Lemma write_pilots_all : Forall (fun p => known_outcome p = 1 /\ p_fspmethod_id p = method) write_pilots.
Proof. by apply numbered_all. Qed.

Lemma first_writes_in vs t : t ∈ first_writes vs -> t ∈ db_trace db /\ row_access t = WRITE /\ variant_id t ∈ vs.
Proof.
  unfold first_writes. intros (v & Ht & Hv)%list_elem_of_bind.
  apply (subseteq_take 1) in Ht. rewrite order_permutes in Ht.
  unfold writes_of in Ht. apply list_elem_of_filter in Ht. set_solver.
Qed.

(** A list of rows with distinct keys holds one row of each key. *)
Lemma filter_key (l : list Row) t :
  NoDup (trace_key <$> l) -> t ∈ l -> filter (fun t' => trace_key t' = trace_key t) l = [t].
Proof.
  clear. induction l as [|x l IH]; intros Hnd Ht; [set_solver|]. simpl in Hnd.
  apply NoDup_cons in Hnd as [Hx Hnd]. apply elem_of_cons in Ht as [->|Ht].
  - rewrite filter_cons_True by done. f_equal. apply list_filter_none. intros y Hy Heq.
    apply Hx. rewrite <- Heq. apply list_elem_of_fmap. eauto.
  - rewrite filter_cons_False; [by apply IH|]. intros Heq. apply Hx. rewrite Heq. apply list_elem_of_fmap. eauto.
Qed.

Definition read_group (p : PilotRow) : GroupRow :=
  mkGroup (p_variant_id p) (p_instr2 p) (p_data_address p) (p_fspmethod_id p) (p_id p) None.

Lemma read_groups_spec db1 :
  db_trace db1 = db_trace db -> fsppilot db1 = pruned_pilots ->
  read_groups method variants db1 = read_group <$> read_pilots.
Proof.
  intros Ht Hp. unfold read_groups. rewrite Hp, Ht. unfold pruned_pilots. rewrite !filter_app.
  rewrite (list_filter_none _ (fsppilot db)); cycle 1.
  { rewrite Forall_forall in fresh_pilots. intros p Hin (_ & Hm & Hv). destruct (fresh_pilots p Hin); tauto. }
  rewrite (list_filter_none _ write_pilots); cycle 1.
  { pose proof write_pilots_all as Hw. rewrite Forall_forall in Hw. intros p Hin (Hk & _). destruct (Hw p Hin). lia. }
  rewrite list_filter_all by (pose proof read_pilots_all as Hr; rewrite Forall_forall in Hr; exact Hr).
  rewrite app_nil_r. simpl. unfold read_pilots. generalize (auto_increment db). intros n.
  assert (forall t, t ∈ reads_of variants db -> t ∈ db_trace db) as Hsub
    by (intros t Hin; unfold reads_of in Hin; apply list_elem_of_filter in Hin; tauto).
  induction (reads_of variants db) as [|t l IH] in n, Hsub |- *; [done|]. cbn [fmap list_fmap numbered].
  rewrite bind_cons. rewrite IH by set_solver.
  change (pilot_key (basic_pilot use_instr1 method 0 t n)) with (trace_key t).
  rewrite filter_key by (done || set_solver). done.
Qed.

Lemma filter_in_cons (l : list Row) v vs :
  v ∉ vs -> filter (fun t => variant_id t ∈ v :: vs) l
  ≡ₚ filter (fun t => variant_id t = v) l ++ filter (fun t => variant_id t ∈ vs) l.
Proof.
  clear. intros Hv. induction l as [|t l IH]; [done|].
  destruct (decide (variant_id t = v)) as [He|He].
  - rewrite filter_cons_True by set_solver. rewrite filter_cons_True by done.
    rewrite (filter_cons_False _ t) by set_solver. rewrite IH. done.
  - rewrite (filter_cons_False (fun t => variant_id t = v)) by done.
    destruct (decide (variant_id t ∈ vs)).
    + rewrite !filter_cons_True by set_solver. rewrite IH. solve_Permutation.
    + rewrite !filter_cons_False by set_solver. exact IH.
Qed.

(** Splitting rows by variant. *)
Lemma by_variant (l : list Row) vs :
  NoDup vs -> (vs ≫= fun v => filter (fun t => variant_id t = v) l) ≡ₚ filter (fun t => variant_id t ∈ vs) l.
Proof.
  clear. induction vs as [|v vs IH]; intros Hnd.
  - rewrite list_filter_none; [done | set_solver].
  - apply NoDup_cons in Hnd as [Hv Hnd]. rewrite bind_cons, filter_in_cons by done. by rewrite IH.
Qed.

(** The writes a variant's known pilot stands for. *)
Lemma first_writes_variants vs :
  NoDup vs -> vs ⊆ variants ->
  ((variant_id <$> first_writes vs) ≫= fun v => filter (fun t => variant_id t = v) (writes_of variants db))
  ≡ₚ filter (fun t => variant_id t ∈ vs) (writes_of variants db).
Proof.
  intros Hnd Hsub. rewrite <- by_variant by done. clear Hnd.
  induction vs as [|v vs IH]; [done|]. unfold first_writes in *. rewrite !bind_cons, fmap_app, bind_app.
  rewrite IH by set_solver. apply Permutation_app_tail.
  assert (filter (fun t => variant_id t = v) (writes_of variants db) = writes_of [v] db) as Hw.
  { unfold writes_of. rewrite list_filter_filter. apply list_filter_iff. set_solver. }
  rewrite Hw. pose proof (order_permutes (writes_of [v] db)) as Hp.
  destruct (order_by_instr2 (writes_of [v] db)) as [|t l] eqn:Ho.
  - simpl. apply Permutation_nil_l in Hp. by rewrite Hp.
  - assert (variant_id t = v) as Hv.
    { assert (t ∈ writes_of [v] db) as Ht by (rewrite <- Hp; set_solver).
      unfold writes_of in Ht. apply list_elem_of_filter in Ht. set_solver. }
    simpl. rewrite Hv, Hw, app_nil_r. done.
Qed.

Definition write_group (p : PilotRow) (t : Row) : GroupRow :=
  mkGroup (variant_id t) (instr2 t) (row_address t) (p_fspmethod_id p) (p_id p) None.

Lemma write_groups_spec db1 :
  db_trace db1 = db_trace db -> fsppilot db1 = pruned_pilots ->
  write_groups method variants db1
  = p ← write_pilots; write_group p <$> filter (fun t => variant_id t = p_variant_id p) (writes_of variants db).
Proof.
  intros Ht Hp. unfold write_groups. rewrite Hp.
  assert (writes_of variants db1 = writes_of variants db) as -> by (unfold writes_of; by rewrite Ht).
  assert (forall p, (t ← filter (fun t => variant_id t = p_variant_id p) (writes_of variants db);
     [mkGroup (variant_id t) (instr2 t) (row_address t) (p_fspmethod_id p) (p_id p) None])
     = write_group p <$> filter (fun t => variant_id t = p_variant_id p) (writes_of variants db)) as Hin.
  { intros p. generalize (filter (fun t => variant_id t = p_variant_id p) (writes_of variants db)).
    clear. intros l. induction l as [|t l IH]; [done|]. rewrite bind_cons, IH. done. }
  unfold pruned_pilots. rewrite !filter_app, !bind_app.
  rewrite (list_filter_none _ read_pilots); cycle 1.
  { pose proof read_pilots_all as Hr. rewrite Forall_forall in Hr. intros p Hpin (_ & Hk). destruct (Hr p Hpin). lia. }
  rewrite (list_filter_all _ write_pilots); cycle 1.
  { pose proof write_pilots_all as Hw. rewrite Forall_forall in Hw. intros p Hpin. destruct (Hw p Hpin). done. }
  set (old := filter _ (fsppilot db)).
  assert (forall p, p ∈ old -> p_variant_id p ∉ variants) as Hold.
  { unfold old. intros p [Hm Hpin]%list_elem_of_filter. rewrite Forall_forall in fresh_pilots.
    destruct (fresh_pilots p Hpin); tauto. }
  clearbody old. replace (old ≫= _) with (@nil GroupRow); cycle 1.
  { induction old as [|p old IH]; [done|]. rewrite bind_cons, <- IH by set_solver. rewrite Hin, app_nil_r.
    rewrite list_filter_none; [done|]. intros t Hwt Hv. unfold writes_of in Hwt. apply list_elem_of_filter in Hwt as [[Hwv _] _].
    apply (Hold p); [set_solver | congruence]. }
  simpl. apply list_bind_ext; [|done]. intros p. apply Hin.
Qed.

(** The coordinates of a group's trace entry. *)
Definition group_row (g : GroupRow) : Z * Z * Z := (g_variant_id g, g_data_address g, g_instr2 g).

Lemma write_groups_rows :
  group_row <$> (p ← write_pilots; write_group p <$> filter (fun t => variant_id t = p_variant_id p) (writes_of variants db))
  ≡ₚ trace_key <$> writes_of variants db.
Proof.
  assert (forall ps : list PilotRow,
    group_row <$> (p ← ps; write_group p <$> filter (fun t => variant_id t = p_variant_id p) (writes_of variants db))
    = trace_key <$> ((p_variant_id <$> ps) ≫= fun v => filter (fun t => variant_id t = v) (writes_of variants db))) as Heq.
  { clear. induction ps as [|p ps IH]; [done|]. rewrite fmap_cons, !bind_cons, !fmap_app, IH. f_equal.
    rewrite <- list_fmap_compose. done. }
  rewrite Heq. unfold write_pilots.
  rewrite (numbered_fmap p_variant_id variant_id) by done.
  rewrite first_writes_variants by done. rewrite list_filter_all; [done|].
  intros t Ht. unfold writes_of in Ht. apply list_elem_of_filter in Ht. tauto.
Qed.

Lemma reads_writes :
  reads_of variants db ++ writes_of variants db ≡ₚ filter (fun t => variant_id t ∈ variants) (db_trace db).
Proof.
  unfold reads_of, writes_of. clear. induction (db_trace db) as [|t l IH]; [done|].
  destruct (decide (variant_id t ∈ variants)).
  - rewrite (filter_cons_True (fun t => variant_id t ∈ variants)) by done. destruct (row_access t) eqn:Ha.
    + rewrite filter_cons_True, filter_cons_False by intuition congruence. simpl. by rewrite IH.
    + rewrite filter_cons_False, filter_cons_True by intuition congruence. rewrite <- Permutation_middle. by rewrite IH.
  - rewrite !filter_cons_False by tauto. exact IH.
Qed.

Lemma basic_groups_keys gs :
  Forall (fun g => g_fspmethod_id g = method) gs ->
  group_row <$> gs ≡ₚ trace_key <$> filter (fun t => variant_id t ∈ variants) (db_trace db) ->
  NoDup ((group_key <$> fspgroup db) ++ (group_key <$> gs)) <-> NoDup (group_key <$> fspgroup db).
Proof.
  intros Hm Hk.
  assert (group_key <$> gs = (fun k => (k, method)) <$> (group_row <$> gs)) as Hgk.
  { rewrite <- list_fmap_compose. apply list_fmap_ext. intros i g Hg. simpl.
    rewrite Forall_forall in Hm. unfold group_key, group_row. by rewrite (Hm g) by (by eapply list_elem_of_lookup_2). }
  split; [by intros [? _]%NoDup_app|]. intros Hnd. apply NoDup_app. split; [done|]. split.
  - intros k (g & -> & Hg)%list_elem_of_fmap Hin. rewrite Hgk, Hk in Hin.
    apply list_elem_of_fmap in Hin as (k' & Heq & (t & -> & Ht)%list_elem_of_fmap).
    apply list_elem_of_filter in Ht as [Hv _]. unfold group_key, trace_key in Heq. simplify_eq.
    rewrite Forall_forall in fresh_groups. destruct (fresh_groups g Hg); [done | congruence].
  - rewrite Hgk. apply NoDup_fmap; [by intros ?? [= ->]|]. rewrite Hk.
    eapply sublist_NoDup; [exact keys_distinct|]. apply fmap_sublist, sublist_filter.
Qed.

(** What one group says: its pilot belongs to the method and variant, and is
    either the entry itself (reads) or the variant's known outcome (writes). *)
Definition stands_for (pilots : list PilotRow) (g : GroupRow) : Prop :=
  exists p t, p ∈ pilots /\ t ∈ db_trace db /\ p_id p = g_pilot_id g /\ p_fspmethod_id p = g_fspmethod_id g /\
    group_row g = trace_key t /\ p_variant_id p = variant_id t /\
    ((row_access t = READ /\ known_outcome p = 0 /\ pilot_key p = trace_key t) \/
     (row_access t = WRITE /\ known_outcome p = 1)).

Lemma read_group_stands : Forall (stands_for pruned_pilots) (read_group <$> read_pilots).
Proof.
  apply Forall_fmap, Forall_forall. intros p Hp. unfold stands_for. simpl.
  assert (Forall (fun p => exists t, t ∈ reads_of variants db /\ pilot_key p = trace_key t /\ known_outcome p = 0) read_pilots) as Hall.
  { apply numbered_all. intros t i Ht. by exists t. }
  rewrite Forall_forall in Hall. destruct (Hall p Hp) as (t & Ht & Hk & Ho).
  unfold reads_of in Ht. apply list_elem_of_filter in Ht as [[_ Ha] Ht].
  exists p, t. split; [unfold pruned_pilots; set_solver|]. split; [done|]. split; [done|]. split; [done|].
  split; [exact Hk|]. split; [by injection Hk|]. left. done.
Qed.

Lemma write_group_stands :
  Forall (stands_for pruned_pilots)
    (p ← write_pilots; write_group p <$> filter (fun t => variant_id t = p_variant_id p) (writes_of variants db)).
Proof.
  apply Forall_forall. intros g (p & Hg & Hp)%list_elem_of_bind.
  apply list_elem_of_fmap in Hg as (t & -> & [Hv Ht]%list_elem_of_filter).
  unfold writes_of in Ht. apply list_elem_of_filter in Ht as [[_ Ha] Ht].
  pose proof write_pilots_all as Hw. rewrite Forall_forall in Hw. destruct (Hw p Hp) as [Hk _].
  exists p, t. simpl. split; [unfold pruned_pilots; set_solver|]. split; [done|]. split; [done|]. split; [done|].
  split; [done|]. split; [done|]. right. done.
Qed.

Lemma basic_pruner_result :
  NoDup (group_key <$> fspgroup db) ->
  exists gs n, BasicPruner_prune_all order_by_instr2 use_instr1 method variants db
      = (true, mkDB (db_trace db) pruned_pilots (fspgroup db ++ gs) n) /\
    group_row <$> gs ≡ₚ trace_key <$> filter (fun t => variant_id t ∈ variants) (db_trace db) /\
    Forall (fun g => g_fspmethod_id g = method /\ stands_for pruned_pilots g) gs.
Proof.
  intros Hnd. unfold BasicPruner_prune_all. rewrite known_pilots_spec by (by rewrite insert_pilots_spec).
  rewrite !insert_pilots_spec. cbn [db_trace fsppilot fspgroup auto_increment]. rewrite <- app_assoc, length_fmap.
  fold read_pilots. fold write_pilots. fold pruned_pilots.
  rewrite read_groups_spec by done.
  set (gr := read_group <$> read_pilots).
  set (gw := p ← write_pilots; write_group p <$> filter (fun t => variant_id t = p_variant_id p) (writes_of variants db)).
  assert (group_row <$> (gr ++ gw) ≡ₚ trace_key <$> filter (fun t => variant_id t ∈ variants) (db_trace db)) as Hrows.
  { rewrite fmap_app. unfold gw. rewrite write_groups_rows.
    unfold gr. rewrite <- list_fmap_compose. unfold read_pilots.
    rewrite (numbered_fmap (group_row ∘ read_group) trace_key) by done.
    rewrite <- fmap_app. by rewrite reads_writes. }
  assert (Forall (fun g => g_fspmethod_id g = method) (gr ++ gw)) as Hm.
  { apply Forall_app. split.
    - apply Forall_fmap. eapply Forall_impl; [apply read_pilots_all|]. simpl. tauto.
    - apply Forall_forall. intros g (p & Hg & Hp)%list_elem_of_bind. apply list_elem_of_fmap in Hg as (t & -> & _).
      pose proof write_pilots_all as Hw. rewrite Forall_forall in Hw. by destruct (Hw p Hp). }
  pose proof (proj2 (basic_groups_keys _ Hm Hrows) Hnd) as Hall.
  rewrite insert_groups_spec; cycle 1.
  { cbn [fspgroup]. rewrite fmap_app, app_assoc in Hall. by apply NoDup_app in Hall as [? _]. }
  rewrite write_groups_spec by done. fold gw.
  rewrite insert_groups_spec; cycle 1.
  { cbn [fspgroup]. by rewrite fmap_app, <- app_assoc, <- fmap_app. }
  cbn [fspgroup db_trace fsppilot auto_increment]. rewrite <- app_assoc. eexists (gr ++ gw), _. split; [done|].
  split; [done|]. apply Forall_and. split; [done|]. apply Forall_app. split; [apply read_group_stands | apply write_group_stands].
Qed.

End basic.

(** The basic method accounts for the whole trace: after pruning, the groups
    of the method are exactly one per trace entry of the chosen variants; the
    group of a read names a pilot with the entry's own coordinates that is to be
    injected, that of a write names a pilot of its variant with known outcome; as
    many injections are planned as there are reads. *)
Theorem basic_pruner_covers (order : list Row -> list Row) use_instr1 method variants db :
  (forall l, order l ≡ₚ l) -> NoDup variants -> NoDup (trace_key <$> db_trace db) ->
  Forall (fun p => p_fspmethod_id p <> method \/ p_variant_id p ∉ variants) (fsppilot db) ->
  Forall (fun g => g_fspmethod_id g <> method \/ g_variant_id g ∉ variants) (fspgroup db) ->
  NoDup (group_key <$> fspgroup db) ->
  exists ps gs n, BasicPruner_prune_all order use_instr1 method variants db
      = (true, mkDB (db_trace db) (fsppilot db ++ ps) (fspgroup db ++ gs) n) /\
    group_row <$> gs ≡ₚ trace_key <$> filter (fun t => variant_id t ∈ variants) (db_trace db) /\
    Forall (fun g => g_fspmethod_id g = method /\ stands_for db (fsppilot db ++ ps) g) gs /\
    length (filter (fun p => known_outcome p = 0) ps) = length (reads_of variants db).
Proof.
  intros Ho Hv Hk Hp Hg Hn.
  destruct (basic_pruner_result order Ho use_instr1 method variants db Hv Hk Hp Hg Hn) as (gs & n & E & Hrows & Hall).
  exists (read_pilots use_instr1 method variants db ++ write_pilots order use_instr1 method variants db), gs, n.
  split; [exact E|]. split; [done|]. split; [done|]. rewrite filter_app, length_app.
  pose proof (read_pilots_all use_instr1 method variants db) as Hr.
  pose proof (write_pilots_all order use_instr1 method variants db) as Hw. rewrite Forall_forall in Hr, Hw.
  rewrite list_filter_all by (intros p Hin; by apply Hr).
  rewrite (list_filter_none _ (write_pilots _ _ _ _ _)) by (intros p Hin Hz; destruct (Hw p Hin); lia).
  simpl. rewrite Nat.add_0_r. unfold read_pilots. generalize (auto_increment db).
  induction (reads_of variants db) as [|t l IH]; intros m; simpl; [done|]. by rewrite IH.
Qed.

(** ** From the trace to the pilots *)

Section end_to_end.
Context `{SalConfig} {S : Type} `{!IntervalSet S, !IntervalSetLaws S}.
Context (accepts : Row -> bool) (opt : Options S) (evs : list Trace_Event).

(** All rows belong to the variant that is imported. *)
Definition of_variant (s : Importer) : Prop := Forall (fun r => variant_id r = m_variant_id opt) (trace s).

Lemma add_trace_event_variant b e ev f s ok s' :
  of_variant s -> add_trace_event accepts no_columns opt b e ev f s = Some (ok, s') -> of_variant s'.
Proof.
  intros Hs. unfold add_trace_event. case_match; [by intros [= <- <-]|]. cbn [no_columns mbind option_bind].
  case_match; [|by intros [= <- <-]]. intros [= <- <-]. apply Forall_app. split; [done|]. by apply Forall_singleton.
Qed.

Lemma mem_loop_variant ct i ev n : forall a s ok s',
  of_variant s -> mem_loop (add_trace_event accepts no_columns) opt ct i ev a n s = Some (ok, s') -> of_variant s'.
Proof.
  induction n as [|n IH]; intros a s ok s' Hs; cbn [mem_loop]; [by intros [= <- <-]|].
  destruct (match m_mm opt with Some mm => negb (mm_isMatching a 1 mm) | None => false end); [by apply IH|].
  destruct (getOpenEC a s) as [l s1] eqn:Eg.
  assert (of_variant s1) as Hs1.
  { unfold getOpenEC in Eg. destruct (SyncContainers.map_find a (m_open_ecs s)); by simplify_eq. }
  destruct (_ >? _); [by apply IH|]. intros ([ok1 s2] & Ea & E)%bind_Some. revert E.
  apply add_trace_event_variant in Ea; [|done]. destruct ok1; [|by intros [= <- <-]]. by apply IH.
Qed.

Lemma close_loop_variant ecs : forall s ok s',
  of_variant s -> close_loop (add_trace_event accepts no_columns) opt ecs s = Some (ok, s') -> of_variant s'.
Proof.
  induction ecs as [|[a l] ecs IH]; intros s ok s' Hs; cbn [close_loop]; [by intros [= <- <-]|].
  destruct (_ >? _); [by apply IH|]. intros ([ok1 s1] & Ea & E)%bind_Some. revert E.
  apply add_trace_event_variant in Ea; [|done]. destruct ok1; [by apply IH | by intros [= <- <-]].
Qed.

Lemma start_variant (b : bool) d s : of_variant s -> of_variant (if b then upd_trace_start d s else s).
Proof. by destruct b. Qed.

Lemma import_events_variant es : forall l s ok l' s',
  of_variant s -> import_events (hooks := MemoryImporter accepts) opt es l s = Some (ok, l', s') -> of_variant s'.
Proof.
  induction es as [|ev es IH]; intros l s ok l' s' Hs; cbn [import_events]; [by intros [= <- <- <-]|].
  destruct (import_event (hooks := MemoryImporter accepts) opt ev l s) as [[[ok1 l1] s1]|] eqn:E; [|done]. cbn [mbind option_bind].
  assert (of_variant s1) as Hs1.
  { unfold import_event in E.
    assert (forall ct s0, of_variant s0 ->
      match te_memaddr ev with
      | None => if instr l =? 2 ^ 32 - 1 then Some (false, l, s0)
                else Some (true, mkLoop ct (u32 (instr l + 1)) (instr l) ev, s0)
      | Some _ => '(ok, s2) ← MemoryImporter_handle_mem_event (add_trace_event accepts no_columns) opt ct (instr_memaccess l) ev s0;
                  if ok : bool then Some (true, mkLoop ct (instr l) (instr_memaccess l) ev, s2) else Some (false, l, s2)
      end = Some (ok1, l1, s1) -> of_variant s1) as Hstep.
    { intros ct s0 Hs0. destruct (te_memaddr ev); [|case_match; by intros [= <- <- <-]].
      intros ([ok2 s2] & E2 & E3)%bind_Some. apply mem_loop_variant in E2; [|done]. destruct ok2; by simplify_eq. }
    destruct (te_time_delta ev) as [d|]; [destruct (d >=? 0); [|done]|]; cbn [mbind option_bind] in E.
    - eapply Hstep; [|exact E]. by apply start_variant.
    - eapply Hstep; [|exact E]. done. }
  destruct ok1; [by apply IH | by intros [= <- <- <-]].
Qed.

Lemma open_unused_variant s : of_variant s -> of_variant (open_unused_ec_intervals opt s).
Proof.
  unfold open_unused_ec_intervals. destruct (m_mm opt) as [mm|]; [|done]. generalize (mm_addresses mm). intros l.
  revert s. induction l as [|a l IH]; intros s Hs; simpl; [done|]. apply IH. unfold open_if_unused. by case_match.
Qed.

Lemma import_variant ok s : import accepts opt evs = Some (ok, s) -> of_variant s.
Proof.
  unfold import, copy_to_database. destruct (import_events _ _ _ _) as [[[ok1 l] s1]|] eqn:E; [|done]. cbn [mbind option_bind].
  apply import_events_variant in E; [|by constructor]. destruct ok1; simpl; [|by intros [= <- <-]].
  intros ([ok2 s2] & Ec & Eq)%bind_Some. revert Eq. unfold close_ec_intervals in Ec. apply close_loop_variant in Ec; [|by apply open_unused_variant].
  destruct ok2; simpl; [|by intros [= <- <-]]. case_match; by intros [= <- <-].
Qed.

(** Rows of one byte end at different instructions. *)
Lemma chain_ends_distinct rows : forall s e, chain instr1 instr2 s e rows -> NoDup (instr2 <$> rows).
Proof.
  induction rows as [|r rows IH]; intros s e Hc; [constructor|]. destruct Hc as (Hlo & Hle & Hc). simpl.
  apply NoDup_cons. split; [|by eapply IH]. intros (r' & Heq & Hr')%list_elem_of_fmap.
  destruct (chain_bounds _ _ _ _ _ _ Hc Hr'). lia.
Qed.

Lemma keys_distinct_from (rows : list Row) :
  (forall r, r ∈ rows -> NoDup (instr2 <$> rows_at (row_address r) rows)) -> NoDup (trace_key <$> rows).
Proof.
  induction rows as [|r rows IH]; intros Hr; [constructor|]. simpl. apply NoDup_cons. split.
  - intros (r' & Heq & Hr')%list_elem_of_fmap. unfold trace_key in Heq. injection Heq as _ Ha Hi.
    specialize (Hr r ltac:(set_solver)). unfold rows_at in Hr. rewrite filter_cons_True in Hr by done. simpl in Hr.
    apply NoDup_cons in Hr as [Hni _]. apply Hni. rewrite Hi. apply list_elem_of_fmap. exists r'. split; [done|].
    apply list_elem_of_filter. split; [congruence | done].
  - apply IH. intros r' Hr'. specialize (Hr r' ltac:(set_solver)). unfold rows_at in *. rewrite filter_cons in Hr.
    case_decide; [|done]. simpl in Hr. by apply NoDup_cons in Hr as [_ ?].
Qed.

Lemma imported_keys ok s :
  importable accepts opt evs -> import accepts opt evs = Some (ok, s) -> NoDup (trace_key <$> trace s).
Proof.
  intros [Ha Hw Hb Hv Hn Hmm] E.
  destruct (import_table accepts opt False (fun _ => 0) Ha Hw Hb evs Hv Hn Hmm) as (s' & E' & _ & Hsp & Hc & _); [done|].
  unfold import in E. rewrite E' in E. injection E as _ <-.
  apply keys_distinct_from. intros r Hr. eapply chain_ends_distinct. apply Hc, Hsp, Hr.
Qed.

Lemma filter_group (gs : list GroupRow) r :
  NoDup (group_row <$> gs) -> trace_key r ∈ group_row <$> gs ->
  exists g, filter (fun g => group_row g = trace_key r) gs = [g].
Proof.
  induction gs as [|x gs IH]; intros Hnd Hin; simpl in *; [set_solver|].
  apply NoDup_cons in Hnd as [Hx Hnd]. destruct (decide (group_row x = trace_key r)) as [He|He].
  - exists x. rewrite filter_cons_True by done. f_equal. apply list_filter_none. intros y Hy Heq.
    apply Hx. rewrite He, <- Heq. apply list_elem_of_fmap. eauto.
  - rewrite filter_cons_False by done. apply IH; [done | set_solver].
Qed.

(** C5. End to end: a trace is imported into an empty database and pruned with the
    basic method.  Then every fault, a byte of the fault space at a dynamic
    instruction of the run, lies in exactly one trace entry, and that entry has
    exactly one group, whose pilot stands for it. *)
Theorem every_fault_has_one_pilot (order : list Row -> list Row) use_instr1 method ok s :
  (forall l, order l ≡ₚ l) -> importable accepts opt evs -> import accepts opt evs = Some (ok, s) ->
  exists db', BasicPruner_prune_all order use_instr1 method [m_variant_id opt] (mkDB (trace s) [] [] 1) = (true, db') /\
    forall a i, in_space opt evs a -> 0 <= i < instr_count evs ->
      exists r g, filter (covers instr1 instr2 i) (rows_at a (trace s)) = [r] /\
        filter (fun g => group_row g = trace_key r) (fspgroup db') = [g] /\
        stands_for (mkDB (trace s) [] [] 1) (fsppilot db') g.
Proof.
  intros Ho Him E. pose proof (imported_keys _ _ Him E) as Hk. pose proof (import_variant _ _ E) as Hvar.
  destruct (basic_pruner_result order Ho use_instr1 method [m_variant_id opt] (mkDB (trace s) [] [] 1))
    as (gs & n & Hp & Hrows & Hall); try done; [apply NoDup_singleton | by constructor..|].
  eexists. split; [exact Hp|]. intros a i Ha Hi.
  destruct Him as [Hac Hw Hb Hv Hn Hmm].
  destruct (import_table accepts opt False (fun _ => 0) Hac Hw Hb evs Hv Hn Hmm) as (s' & E' & _ & Hsp & Hc & _); [done|].
  unfold import in E. rewrite E' in E. injection E as _ ->.
  destruct (chain_covers _ _ _ 0 (instr_count evs - 1) i (Hc a Ha)) as [r Hr]; [lia|]. exists r.
  assert (r ∈ trace s) as Hrin.
  { assert (r ∈ filter (covers instr1 instr2 i) (rows_at a (trace s))) as Hf by (rewrite Hr; set_solver).
    apply list_elem_of_filter in Hf as [_ Hf]. unfold rows_at in Hf. apply list_elem_of_filter in Hf. tauto. }
  rewrite list_filter_all in Hrows; cycle 1.
  { intros t Ht. unfold of_variant in Hvar. rewrite Forall_forall in Hvar. rewrite (Hvar t Ht). set_solver. }
  destruct (filter_group gs r) as [g Hg].
  { by rewrite Hrows. } { rewrite Hrows. apply list_elem_of_fmap. by exists r. }
  exists g. split; [done|]. split; [done|]. cbn [fsppilot].
  assert (g ∈ gs) as Hgin by (apply (list_elem_of_filter (fun g => group_row g = trace_key r)); rewrite Hg; set_solver).
  rewrite Forall_forall in Hall. by destruct (Hall g Hgin).
Qed.

End end_to_end.

(** ** Random numbers *)

Lemma bitpos_loop_spec limit fuel b :
  0 <= limit < 2 ^ 63 -> 0 <= b <= 63 -> (64 - Z.to_nat b < fuel)%nat -> (0 < b -> 2 ^ (b - 1) <= limit) ->
  exists b', bitpos_loop fuel limit b = Some b' /\ 0 <= b' <= 63 /\ limit < 2 ^ b' /\ (0 < b' -> 2 ^ (b' - 1) <= limit).
Proof.
  intros Hl. revert b. induction fuel as [|fuel IH]; intros b Hb Hf Hmin; [lia|]. cbn [bitpos_loop].
  rewrite Z.geb_leb, (proj2 (Z.leb_gt _ _)) by lia. rewrite Z.shiftr_div_pow2 by lia.
  assert (0 < 2 ^ b) by lia. destruct (Z.eqb_spec (limit / 2 ^ b) 0) as [Hz|Hz].
  - exists b. split; [done|]. split; [lia|]. split; [|done]. apply Z.div_small_iff in Hz; lia.
  - assert (2 ^ b <= limit) as Hle.
    { destruct (Z.le_gt_cases (2 ^ b) limit); [done|]. exfalso. apply Hz. apply Z.div_small. lia. }
    assert (b <> 63) by (intros ->; lia).
    apply IH; [lia | lia |]. by replace (b + 1 - 1) with b by lia.
Qed.

Lemma draw_spec b limit us :
  0 <= b -> 0 <= limit < 2 ^ b ->
  match draw (Z.shiftl 1 b - 1) limit us with
  | Some (v, us') => exists rej r, us = rej ++ r :: us' /\ v = r mod 2 ^ b /\ 0 <= v <= limit /\
                       Forall (fun r => limit < r mod 2 ^ b) rej
  | None => Forall (fun r => limit < r mod 2 ^ b) us
  end.
Proof.
  intros Hb Hl.
  assert (forall r, Z.land r (Z.shiftl 1 b - 1) = r mod 2 ^ b) as Hmask.
  { intros r. rewrite Z.shiftl_1_l, <- Z.land_ones by done. f_equal. rewrite Z.ones_equiv. lia. }
  induction us as [|r us IH]; cbn [draw]; [constructor|]. rewrite Hmask.
  pose proof (Z.mod_pos_bound r (2 ^ b) ltac:(lia)). rewrite Z.gtb_ltb.
  destruct (Z.ltb_spec limit (r mod 2 ^ b)) as [Hgt|Hle].
  - destruct (draw _ limit us) as [[v us']|]; [|by constructor].
    destruct IH as (rej & r' & -> & Hv & Hr & Hrej). exists (r :: rej), r'. split; [done|]. split; [done|]. split; [done|].
    by constructor.
  - exists [], r. split; [done|]. split; [done|]. split; [lia | constructor].
Qed.

(** The number of random bits that are used for [limit]. *)
Definition bits_for (limit b : Z) : Prop := 0 <= b /\ limit < 2 ^ b /\ limit + 1 > 2 ^ b / 2.

(** Uniform random numbers: the least number [b] of bits is used, so that more
    than half of their values are at most the limit; the first [b]-bit value of
    the source that is gets returned. *)
Lemma my_rand_spec limit us :
  0 <= limit < 2 ^ 63 ->
  exists b, bits_for limit b /\
    match my_rand limit us with
    | Some (v, us') => exists rej r, us = rej ++ r :: us' /\ v = r mod 2 ^ b /\ 0 <= v <= limit /\
                         Forall (fun r => limit < r mod 2 ^ b) rej
    | None => Forall (fun r => limit < r mod 2 ^ b) us
    end.
Proof.
  intros Hl. unfold my_rand.
  destruct (bitpos_loop_spec limit 65 0) as (b & -> & Hb & Hlt & Hmin); [done | lia | lia | lia |].
  exists b. split.
  - split; [lia|]. split; [done|]. destruct (decide (b = 0)) as [->|].
    + change (2 ^ 0 / 2) with 0. lia.
    + specialize (Hmin ltac:(lia)). replace b with (Z.succ (b - 1)) by lia. rewrite Z.pow_succ_r by lia.
      rewrite Z.mul_comm, Z.div_mul by lia. lia.
  - cbn [mbind option_bind]. apply draw_spec; lia.
Qed.

(** From 2^63 on the search for [b] shifts by 64 bits. *)
Lemma my_rand_undefined limit us : 2 ^ 63 <= limit < 2 ^ 64 -> my_rand limit us = None.
Proof.
  intros Hl. unfold my_rand.
  assert (forall fuel b, 0 <= b <= 64 -> bitpos_loop fuel limit b = None) as Hn.
  { induction fuel as [|fuel IH]; intros b Hb; [done|]. cbn [bitpos_loop]. rewrite Z.geb_leb.
    destruct (Z.leb_spec 64 b); [done|]. rewrite Z.shiftr_div_pow2 by lia.
    assert (limit / 2 ^ b <> 0) as Hz.
    { intros Hz. apply Z.div_small_iff in Hz; [|lia]. pose proof (Z.pow_le_mono_r 2 b 63). lia. }
    rewrite (proj2 (Z.eqb_neq _ _)) by done. apply IH. lia. }
  by rewrite Hn by lia.
Qed.

Lemma draw_app mask limit us more :
  draw mask limit (us ++ more)
  = match draw mask limit us with Some (v, us') => Some (v, us' ++ more) | None => draw mask limit more end.
Proof.
  induction us as [|r us IH]; simpl; [done|]. destruct (_ >? _); [apply IH | done].
Qed.

(** A source that goes on long enough yields a number; what was read is not
    needed again. *)
Lemma my_rand_progress limit us :
  0 <= limit < 2 ^ 63 ->
  exists more v us', 0 <= v <= limit /\ forall us2, my_rand limit (us ++ more ++ us2) = Some (v, us' ++ us2).
Proof.
  intros Hl. unfold my_rand.
  destruct (bitpos_loop_spec limit 65 0) as (b & -> & Hb & Hlt & Hmin); [done | lia | lia | lia |].
  cbn [mbind option_bind]. pose proof (draw_spec b limit us ltac:(lia) ltac:(lia)) as Hd.
  destruct (draw _ limit us) as [[v us']|] eqn:E.
  - destruct Hd as (_ & _ & _ & _ & Hv & _). exists [], v, us'. split; [done|]. intros us2. simpl. by rewrite draw_app, E.
  - exists [0], 0, []. split; [lia|]. intros us2. rewrite draw_app, E. cbn [draw app].
    by rewrite Z.land_0_l, Z.gtb_ltb, (proj2 (Z.ltb_ge limit 0)) by lia.
Qed.

(** ** Populations *)

Section population.
Context {P : Type} (size : P -> Z).

Lemma add_all_spec ps : forall t,
  wf_tree size BUCKETSIZE t -> Forall (fun p => 0 < size p) ps ->
  sum_sizes size (tree_elements t) + sum_sizes size ps < 2 ^ 64 ->
  let t' := fold_left (fun t p => add size BUCKETSIZE p t) ps t in
  wf_tree size BUCKETSIZE t' /\ tree_elements t' = tree_elements t ++ ps.
Proof.
  induction ps as [|p ps IH]; intros t Hwf Hpos Hsum; simpl in *; [by rewrite app_nil_r|].
  apply Forall_cons in Hpos as [Hp Hpos]. pose proof (sum_sizes_nonneg size ps Hpos).
  destruct (sumtree_add size BUCKETSIZE p t) as (Hwf' & _ & He);
    [apply (Nat.leb_le 2 BUCKETSIZE); reflexivity | done | lia | lia |].
  rewrite (proj2 (Z.eqb_neq _ _)) in He by lia.
  destruct (IH _ Hwf' Hpos) as [Hw Hel].
  { rewrite He, sum_sizes_app. simpl. lia. }
  split; [done|]. rewrite Hel, He, <- app_assoc. done.
Qed.

Lemma empty_tree_wf : wf_tree size BUCKETSIZE new_SumTree.
Proof. split; simpl; [|constructor | lia]. split; [done|]. split; [done|]. simpl. lia. Qed.

Lemma population_spec ps :
  Forall (fun p => 0 < size p) ps -> sum_sizes size ps < 2 ^ 64 ->
  wf_tree size BUCKETSIZE (population size ps) /\ tree_elements (population size ps) = ps.
Proof. intros Hpos Hsum. by apply (add_all_spec ps new_SumTree empty_tree_wf Hpos). Qed.

Lemma tree_size t : wf_tree size BUCKETSIZE t -> get_size t = sum_sizes size (tree_elements t).
Proof. intros Hwf. apply (wf_node_size size BUCKETSIZE (m_depth t)). apply (wt_node _ _ _ Hwf). Qed.

(** The limit handed to the random numbers. *)
Lemma size_limit t :
  wf_tree size BUCKETSIZE t -> tree_elements t <> [] -> sum_sizes size (tree_elements t) <= 2 ^ 63 ->
  0 <= u64 (get_size t - 1) < 2 ^ 63 /\ u64 (get_size t - 1) < get_size t.
Proof.
  intros Hwf Hne Hs. rewrite (tree_size t Hwf).
  pose proof (sum_sizes_pos size (tree_elements t) (wt_pos _ _ _ Hwf) Hne).
  rewrite u64_small by lia. lia.
Qed.
End population.

(** ** Sampling without replacement *)

(** However the random source begins, it can go on such that the sample is
    drawn; sample and rest together are the population. *)
Lemma sample_without_spec n : forall pop us,
  wf_tree duration BUCKETSIZE pop -> (n <= length (tree_elements pop))%nat ->
  sum_sizes duration (tree_elements pop) <= 2 ^ 63 ->
  exists more ps pop' us', length ps = n /\ ps ++ tree_elements pop' ≡ₚ tree_elements pop /\
    forall us2, sample_without n pop (us ++ more ++ us2) = Some (ps, pop', us' ++ us2).
Proof.
  induction n as [|n IH]; intros pop us Hwf Hn Hs.
  { exists [], [], pop, us. done. }
  assert (tree_elements pop <> []) as Hne by (intros He; rewrite He in Hn; simpl in Hn; lia).
  destruct (size_limit duration pop Hwf Hne Hs) as [Hlim Hlt].
  destruct (my_rand_progress (u64 (get_size pop - 1)) us Hlim) as (more1 & v & us1 & Hv & Hr).
  destruct (sumtree_remove_naive duration BUCKETSIZE v pop Hwf ltac:(lia)) as (i & p & pop1 & _ & Hp & Hrm & Hwf1 & Hel & _).
  assert (p :: tree_elements pop1 ≡ₚ tree_elements pop) as Hperm.
  { rewrite Hel. symmetry. by apply delete_Permutation. }
  assert (sum_sizes duration (tree_elements pop) = duration p + sum_sizes duration (tree_elements pop1)) as Hsum.
  { assert (forall l l' : list Pilot, l ≡ₚ l' -> sum_sizes duration l = sum_sizes duration l') as Hp'.
    { induction 1; simpl; lia. }
    by rewrite <- (Hp' _ _ Hperm). }
  assert (0 < duration p) as Hpos.
  { pose proof (wt_pos _ _ _ Hwf) as Hall. rewrite Forall_forall in Hall. apply Hall.
    change (p ∈ tree_elements pop). rewrite <- Hperm. set_solver. }
  destruct (IH pop1 us1 Hwf1) as (more2 & ps & pop' & us' & Hlen & Hps & Hrun).
  { apply Permutation_length in Hperm. simpl in Hperm. lia. } { lia. }
  exists (more1 ++ more2), (p :: ps), pop', us'. split; [simpl; lia|]. split.
  - simpl. by rewrite Hps.
  - intros us2. cbn [sample_without]. rewrite <- app_assoc, Hr. cbn [mbind option_bind].
    rewrite Hrm. cbn [mbind option_bind]. rewrite Hrun. done.
Qed.

(** ** Fault-expansion sampling *)

Section fesampling.
Context (order_by_instr2 : list Row -> list Row).
Hypothesis order_permutes : forall l, order_by_instr2 l ≡ₚ l.
Context (weighting : bool) (method v : Z) (db : Database).
Hypothesis keys_distinct : NoDup (trace_key <$> db_trace db).
Hypothesis fresh_pilots : Forall (fun p => p_fspmethod_id p <> method \/ p_variant_id p <> v) (fsppilot db).
Hypothesis fresh_groups : Forall (fun g => g_fspmethod_id g <> method \/ g_variant_id g <> v) (fspgroup db).
Hypothesis groups_distinct : NoDup (group_key <$> fspgroup db).

(** A trace entry as a sample, where its address is known. *)
Definition sample_of (t : Row) : Pilot :=
  mkSample (duration_of weighting t) (instr2 t) (default 0 (instr2_absolute t)) (row_address t).

Lemma trace_samples (l : list Row) :
  Forall (fun t => is_Some (instr2_absolute t)) l -> mapM (trace_sample weighting) l = Some (sample_of <$> l).
Proof.
  induction l as [|t l IH]; intros Hl; [done|]. apply Forall_cons in Hl as [[a Ha] Hl].
  assert (trace_sample weighting t = Some (sample_of t)) as Ht by (unfold trace_sample, sample_of; by rewrite Ha).
  cbn [mapM]. rewrite Ht. cbn [mbind option_bind]. by rewrite IH.
Qed.

Definition first_write : list Row := take 1 (order_by_instr2 (writes_of [v] db)).

(** Coordinates of sampled reads and of the first write are distinct. *)
Lemma sampled_keys picked rest :
  picked ++ rest ≡ₚ reads_of [v] db -> NoDup (trace_key <$> (picked ++ first_write)).
Proof.
  intros Hp. pose proof (reads_writes [v] db) as Hrw.
  assert (exists rest2, first_write ++ rest2 ≡ₚ writes_of [v] db) as [rest2 Hw].
  { exists (drop 1 (order_by_instr2 (writes_of [v] db))). unfold first_write. rewrite take_drop. apply order_permutes. }
  assert (NoDup (trace_key <$> ((picked ++ first_write) ++ rest ++ rest2))) as Hnd.
  { rewrite <- Hp, <- Hw in Hrw.
    assert ((picked ++ first_write) ++ rest ++ rest2 ≡ₚ (picked ++ rest) ++ first_write ++ rest2) as -> by solve_Permutation.
    rewrite Hrw. eapply sublist_NoDup; [exact keys_distinct|]. apply fmap_sublist, sublist_filter. }
  rewrite fmap_app in Hnd. by apply NoDup_app in Hnd as [? _].
Qed.

Lemma new_keys (gs : list GroupRow) :
  Forall (fun g => g_fspmethod_id g = method /\ g_variant_id g = v) gs -> NoDup (group_row <$> gs) ->
  NoDup ((group_key <$> fspgroup db) ++ (group_key <$> gs)).
Proof.
  intros Hm Hnd. rewrite Forall_forall in Hm, fresh_groups. apply NoDup_app. split; [done|]. split.
  - intros k (g & -> & Hg)%list_elem_of_fmap (g' & Heq & Hg')%list_elem_of_fmap.
    destruct (Hm g' Hg') as [Hgm Hgv]. unfold group_key in Heq. injection Heq as Hv _ _ Hme.
    destruct (fresh_groups g Hg); congruence.
  - clear Hm. induction gs as [|g gs IH]; simpl in *; [constructor|]. apply NoDup_cons in Hnd as [Hg Hnd].
    apply NoDup_cons. split; [|by apply IH]. intros (g' & Heq & Hg')%list_elem_of_fmap. apply Hg.
    apply list_elem_of_fmap. exists g'. split; [|done]. unfold group_key, group_row in *. congruence.
Qed.

Lemma filter_fresh (k : Z) (ps : list PilotRow) :
  filter (fun p => known_outcome p = k /\ p_fspmethod_id p = method /\ p_variant_id p = v) (fsppilot db ++ ps)
  = filter (fun p => known_outcome p = k /\ p_fspmethod_id p = method /\ p_variant_id p = v) ps.
Proof.
  rewrite filter_app, (list_filter_none _ (fsppilot db)); [done|]. rewrite Forall_forall in fresh_pilots.
  intros p Hp (_ & ? & ?). destruct (fresh_pilots p Hp); done.
Qed.

Definition pilots_of (n : Z) (picked : list Row) : list PilotRow :=
  numbered n (sampled_pilot method v <$> (sample_of <$> picked)).
Definition write_pilot (n : Z) : list PilotRow := numbered n (basic_pilot false method 1 <$> first_write).

Lemma picked_variant picked rest : picked ++ rest ≡ₚ reads_of [v] db -> Forall (fun t => variant_id t = v) picked.
Proof.
  intros Hp. apply Forall_forall. intros t Ht. assert (t ∈ reads_of [v] db) as Hin by (rewrite <- Hp; set_solver).
  unfold reads_of in Hin. apply list_elem_of_filter in Hin. set_solver.
Qed.

Lemma first_write_variant : Forall (fun t => variant_id t = v) first_write.
Proof.
  apply Forall_forall. intros t Ht. apply (subseteq_take 1) in Ht. rewrite order_permutes in Ht.
  unfold writes_of in Ht. apply list_elem_of_filter in Ht. set_solver.
Qed.

(** The groups of pilots, as both queries select them. *)
Definition pilot_group (p : PilotRow) : GroupRow :=
  mkGroup (p_variant_id p) (p_instr2 p) (p_data_address p) (p_fspmethod_id p) (p_id p) None.

Lemma pilots_rows n picked rest :
  picked ++ rest ≡ₚ reads_of [v] db -> group_row <$> (pilot_group <$> pilots_of n picked) = trace_key <$> picked.
Proof.
  intros Hp. pose proof (picked_variant _ _ Hp) as Hv. rewrite <- list_fmap_compose. unfold pilots_of.
  rewrite <- list_fmap_compose.
  rewrite (numbered_fmap (group_row ∘ pilot_group) (fun t => (v, row_address t, instr2 t))) by done.
  apply list_fmap_ext. intros i t Ht. unfold trace_key. rewrite Forall_forall in Hv.
  by rewrite (Hv t) by (by eapply list_elem_of_lookup_2).
Qed.

Lemma write_rows n : group_row <$> (pilot_group <$> write_pilot n) = trace_key <$> first_write.
Proof.
  rewrite <- list_fmap_compose. unfold write_pilot. by rewrite (numbered_fmap (group_row ∘ pilot_group) trace_key).
Qed.

Lemma pilots_of_all n picked :
  Forall (fun p => known_outcome p = 0 /\ p_fspmethod_id p = method /\ p_variant_id p = v) (pilots_of n picked).
Proof. unfold pilots_of. by apply numbered_all. Qed.

Lemma write_pilot_all n :
  Forall (fun p => known_outcome p = 1 /\ p_fspmethod_id p = method /\ p_variant_id p = v) (write_pilot n).
Proof.
  apply numbered_all. intros t i Ht. pose proof first_write_variant as Hv. rewrite Forall_forall in Hv.
  split; [done|]. split; [done|]. by apply Hv.
Qed.

(** The whole step for one variant, given the sample. *)
Lemma FESampling_tables samplesize basic picked rest us us' pop' :
  Forall (fun t => is_Some (instr2_absolute t)) (reads_of [v] db) ->
  picked ++ rest ≡ₚ reads_of [v] db ->
  sample_without (Z.to_nat (Z.min (Z.of_nat (length (reads_of [v] db))) samplesize))
    (population duration (sample_of <$> reads_of [v] db)) us = Some (sample_of <$> picked, pop', us') ->
  exists n, FESampling_prune order_by_instr2 false weighting samplesize method basic v us db
    = Some (true, mkDB (db_trace db) (fsppilot db ++ pilots_of (auto_increment db) picked ++
                                        write_pilot (auto_increment db + Z.of_nat (length picked)))
                    (fspgroup db ++ (pilot_group <$> pilots_of (auto_increment db) picked) ++
                       (pilot_group <$> write_pilot (auto_increment db + Z.of_nat (length picked)))) n, us').
Proof.
  intros Habs Hp Hs. unfold FESampling_prune. rewrite trace_samples by done. cbn [mbind option_bind].
  rewrite length_fmap, Hs. cbn [mbind option_bind]. rewrite !insert_pilots_spec.
  cbn [db_trace fsppilot fspgroup auto_increment]. rewrite !length_fmap, <- app_assoc. unfold writes_of at 1.
  cbn [db_trace]. fold (writes_of [v] db). fold first_write. fold (pilots_of (auto_increment db) picked).
  fold (write_pilot (auto_increment db + Z.of_nat (length picked))).
  set (R := pilots_of _ picked). set (W := write_pilot _).
  pose proof (pilots_of_all (auto_increment db) picked) as HR. fold R in HR.
  pose proof (write_pilot_all (auto_increment db + Z.of_nat (length picked))) as HW. fold W in HW.
  rewrite Forall_forall in HR, HW.
  rewrite filter_fresh, filter_app, (list_filter_all _ R) by exact HR.
  rewrite (list_filter_none _ W) by (intros p Hin (Hz & _); destruct (HW p Hin); lia).
  rewrite app_nil_r. fold pilot_group.
  change (fun p => mkGroup (p_variant_id p) (p_instr2 p) (p_data_address p) (p_fspmethod_id p) (p_id p) None) with pilot_group.
  assert (Forall (fun g => g_fspmethod_id g = method /\ g_variant_id g = v) ((pilot_group <$> R) ++ (pilot_group <$> W))) as Hgs.
  { apply Forall_app. split; apply Forall_fmap, Forall_forall; intros p Hin; [destruct (HR p Hin) | destruct (HW p Hin)]; done. }
  assert (NoDup ((group_key <$> fspgroup db) ++ (group_key <$> ((pilot_group <$> R) ++ (pilot_group <$> W))))) as Hnd.
  { apply new_keys; [done|]. rewrite fmap_app. unfold R, W. rewrite (pilots_rows _ _ _ Hp), write_rows.
    rewrite <- fmap_app. by eapply sampled_keys. }
  rewrite insert_groups_spec; cycle 1.
  { cbn [fspgroup]. rewrite fmap_app, app_assoc in Hnd. by apply NoDup_app in Hnd as [? _]. }
  cbn [negb db_trace fsppilot fspgroup auto_increment].
  rewrite (list_filter_iff _ (fun p => known_outcome p = 1 /\ p_fspmethod_id p = method /\ p_variant_id p = v)) by tauto.
  rewrite filter_fresh, filter_app, (list_filter_all _ W) by exact HW.
  rewrite (list_filter_none _ R) by (intros p Hin (Hz & _); destruct (HR p Hin); lia). cbn [app].
  assert ((fun p => mkGroup (p_variant_id p) (p_instr2 p) (p_data_address p) method (p_id p) None) <$> W = pilot_group <$> W) as ->.
  { apply list_fmap_ext. intros i p Hin. unfold pilot_group. destruct (HW p) as (_ & -> & _); [|done].
    by eapply list_elem_of_lookup_2. }
  rewrite insert_groups_spec; cycle 1.
  { cbn [fspgroup]. by rewrite fmap_app, <- app_assoc, <- fmap_app. }
  eexists. cbn [db_trace fsppilot fspgroup auto_increment]. by rewrite <- app_assoc.
Qed.

End fesampling.

(** Sampling with fault expansion: however the random source begins, it can
    go on such that the step succeeds (it never gets stuck or leaves the
    population); then as many reads as asked for, all of them if there are
    fewer, have been drawn without repetition, and the new groups are exactly
    those of the drawn reads and of the first write. *)
Theorem fesampling_draws (order : list Row -> list Row) weighting samplesize method basic v db us :
  (forall l, order l ≡ₚ l) -> NoDup (trace_key <$> db_trace db) ->
  Forall (fun p => p_fspmethod_id p <> method \/ p_variant_id p <> v) (fsppilot db) ->
  Forall (fun g => g_fspmethod_id g <> method \/ g_variant_id g <> v) (fspgroup db) ->
  NoDup (group_key <$> fspgroup db) ->
  Forall (fun t => is_Some (instr2_absolute t) /\ 0 < duration_of weighting t) (reads_of [v] db) ->
  sum_of (duration_of weighting) (reads_of [v] db) <= 2 ^ 63 -> 0 <= samplesize ->
  exists more us' picked rest ps gs n,
    FESampling_prune order false weighting samplesize method basic v (us ++ more) db
      = Some (true, mkDB (db_trace db) (fsppilot db ++ ps) (fspgroup db ++ gs) n, us') /\
    picked ++ rest ≡ₚ reads_of [v] db /\
    length picked = Z.to_nat (Z.min (Z.of_nat (length (reads_of [v] db))) samplesize) /\
    group_row <$> gs = trace_key <$> picked ++ take 1 (order (writes_of [v] db)) /\
    pilot_key <$> ps = trace_key <$> picked ++ take 1 (order (writes_of [v] db)).
Proof.
  intros Ho Hk Hp Hg Hn Habs Hsum Hss. rewrite Forall_and in Habs. destruct Habs as [Habs Hdur].
  assert (sum_sizes duration (sample_of weighting <$> reads_of [v] db) = sum_of (duration_of weighting) (reads_of [v] db)) as Hse.
  { clear. unfold sum_sizes, sum_of. induction (reads_of [v] db) as [|t l IH]; [done|].
    cbn [fmap list_fmap foldr]. by rewrite <- IH. }
  destruct (population_spec duration (sample_of weighting <$> reads_of [v] db)) as [Hwf Hel];
    [by apply Forall_fmap | rewrite Hse; lia |].
  destruct (sample_without_spec (Z.to_nat (Z.min (Z.of_nat (length (reads_of [v] db))) samplesize)) _ us Hwf)
    as (more & ss & pop' & us' & Hlen & Hperm & Hrun).
  { rewrite Hel, length_fmap. lia. } { rewrite Hel, Hse. done. }
  rewrite Hel in Hperm. specialize (Hrun []). rewrite app_nil_r in Hrun.
  destruct (Permutation_map_inv _ _ Hperm) as (l & Heq & Hl).
  symmetry in Heq. apply fmap_app_inv in Heq as (picked & rest & -> & _ & ->).
  destruct (FESampling_tables order Ho weighting method v db Hk Hp Hg Hn samplesize basic picked rest _ _ _ Habs (Permutation_sym Hl) Hrun)
    as (n & E).
  exists more, (us' ++ []), picked, rest.
  eexists _, _, n. apply Permutation_sym in Hl.
  assert (group_row <$> (pilot_group <$> pilots_of weighting method v (auto_increment db) picked) = trace_key <$> picked) as Hrows
    by (eapply pilots_rows; eauto).
  split; [exact E|]. split; [done|]. split; [by rewrite length_fmap in Hlen|]. split.
  - rewrite !fmap_app. f_equal; [exact Hrows | apply write_rows].
  - rewrite !fmap_app. change (take 1 (order (writes_of [v] db))) with (first_write order v db).
    rewrite <- (write_rows order method v db (auto_increment db + Z.of_nat (length picked))), <- Hrows.
    rewrite <- !list_fmap_compose. done.
Qed.

(** ** Sampling with replacement *)

Definition total_weight (ps : list WeightedPilot) : Z := foldr (fun p n => weight p + n) 0 ps.

Lemma total_weight_insert ps i p q :
  ps !! i = Some p -> total_weight (<[i := q]> ps) = total_weight ps - weight p + weight q.
Proof.
  revert i. induction ps as [|x ps IH]; intros [|i] Hi; simpl in *; simplify_eq; [lia|]. rewrite (IH i Hi). lia.
Qed.

Lemma weight_below ps i p :
  Forall (fun p => 0 <= weight p) ps -> ps !! i = Some p -> 0 <= weight p <= total_weight ps.
Proof.
  revert i. induction ps as [|x ps IH]; intros [|i] Hall Hi; simpl in *; simplify_eq; apply Forall_cons in Hall as [Hx Hall].
  - assert (0 <= total_weight ps) by (clear -Hall; induction Hall; simpl; lia). lia.
  - specialize (IH i Hall Hi). lia.
Qed.

(** Only weights change. *)
Definition same_entry (p q : WeightedPilot) : Prop :=
  w_duration q = w_duration p /\ w_id q = w_id p /\ w_instr2 q = w_instr2 p /\
  w_instr2_absolute q = w_instr2_absolute p /\ w_data_address q = w_data_address p /\ weight p <= weight q.

#[local] Instance same_entry_preorder : PreOrder same_entry.
Proof. split; [intros p; repeat split; lia|]. unfold same_entry. intros p q r Hp Hq. intuition (congruence || lia). Qed.

(** The entries of [first] are those that had no weight and have one. *)
Definition first_hits (ps ps' : list WeightedPilot) (first : list nat) : Prop :=
  NoDup first /\ (forall i, i ∈ first -> (i < length ps)%nat) /\
  forall i p p', ps !! i = Some p -> ps' !! i = Some p' -> i ∈ first <-> weight p = 0 /\ weight p' <> 0.

(** One hit. *)
Section hit.
Context (ps : list WeightedPilot) (i : nat) (p : WeightedPilot).
Hypothesis hit_entry : ps !! i = Some p.
Hypothesis hit_weight : 0 <= weight p < 2 ^ 32 - 1.

Lemma inc_weight_value : weight (inc_weight p) = weight p + 1.
Proof. simpl. apply u32_small. lia. Qed.

Lemma hit_lookup : <[i := inc_weight p]> ps !! i = Some (inc_weight p).
Proof. apply list_lookup_insert_eq. by eapply lookup_lt_Some. Qed.

Lemma hit_same : Forall2 same_entry ps (<[i := inc_weight p]> ps).
Proof.
  apply Forall2_same_length_lookup_2; [by rewrite length_insert|]. intros j q q' Hq Hq'.
  destruct (decide (i = j)) as [<-|Hij].
  - rewrite hit_lookup in Hq'. simplify_eq. unfold same_entry. rewrite inc_weight_value. simpl. lia.
  - rewrite list_lookup_insert_ne in Hq' by done. by simplify_eq.
Qed.

Lemma hit_first ps' first :
  Forall2 same_entry (<[i := inc_weight p]> ps) ps' -> first_hits (<[i := inc_weight p]> ps) ps' first ->
  first_hits ps ps' (if weight (inc_weight p) =? 1 then i :: first else first).
Proof.
  intros Hsame (Hnd & Hin & Hf).
  destruct (Forall2_lookup_l _ _ _ i (inc_weight p) Hsame hit_lookup) as (p1 & Hp1 & Hse).
  assert (weight p + 1 <= weight p1) as Hge by (rewrite <- inc_weight_value; apply Hse).
  assert (i ∉ first) as Hni.
  { intros Hc. apply (Hf i (inc_weight p) p1 hit_lookup Hp1) in Hc. rewrite inc_weight_value in Hc. lia. }
  rewrite inc_weight_value. split; [|split].
  - destruct (_ =? 1); [by constructor | done].
  - intros j Hj. assert (j = i \/ j ∈ first) as [->|Hj'] by (destruct (_ =? 1); set_solver).
    + by eapply lookup_lt_Some.
    + apply Hin in Hj'. by rewrite length_insert in Hj'.
  - intros j q q' Hq Hq'. destruct (decide (i = j)) as [<-|Hij].
    + rewrite hit_entry in Hq. simplify_eq. destruct (Z.eqb_spec (weight q + 1) 1); [|split; [done | lia]].
      split; [lia|]. intros _. apply elem_of_cons. by left.
    + assert (j ∈ (if weight p + 1 =? 1 then i :: first else first) <-> j ∈ first) as ->
        by (destruct (_ =? 1); set_solver).
      apply (Hf j q q'); [by rewrite list_lookup_insert_ne | done].
Qed.
End hit.

Lemma sample_with_spec size pop n : forall ps us,
  wf_tree size BUCKETSIZE pop -> tree_elements pop <> [] -> sum_sizes size (tree_elements pop) <= 2 ^ 63 ->
  (forall i, i ∈ tree_elements pop -> (i < length ps)%nat) ->
  Forall (fun p => 0 <= weight p) ps -> total_weight ps + Z.of_nat n < 2 ^ 32 ->
  exists more ps' first us',
    total_weight ps' = total_weight ps + Z.of_nat n /\ Forall2 same_entry ps ps' /\ first_hits ps ps' first /\
    forall us2, sample_with n size pop ps (us ++ more ++ us2) = Some (ps', first, us' ++ us2).
Proof.
  induction n as [|n IH]; intros ps us Hwf Hne Hs Hin Hpos Htot.
  { exists [], ps, [], us. split; [lia|]. split; [done|]. split; [|done].
    split; [constructor|]. split; [set_solver|]. intros i p p' H1 H2. simplify_eq. split; [set_solver | tauto]. }
  destruct (size_limit size pop Hwf Hne Hs) as [Hlim Hlt].
  destruct (my_rand_progress (u64 (get_size pop - 1)) us Hlim) as (more1 & v & us1 & Hv & Hr).
  destruct (sumtree_get_naive size BUCKETSIZE v pop Hwf ltac:(lia)) as (k & i & _ & Hi & Hget).
  destruct (lookup_lt_is_Some_2 ps i) as [p Hp]; [apply Hin; by eapply list_elem_of_lookup_2|].
  pose proof (weight_below ps i p Hpos Hp) as Hw.
  assert (0 <= weight p < 2 ^ 32 - 1) as Hb by lia. pose proof (inc_weight_value p Hb) as Hinc.
  destruct (IH (<[i := inc_weight p]> ps) us1) as (more2 & ps' & first & us' & Ht & Hsame & Hfirst & Hrun); try done.
  { intros j Hj. rewrite length_insert. by apply Hin. }
  { apply Forall_insert; [done|]. rewrite Hinc. lia. }
  { rewrite (total_weight_insert _ _ _ _ Hp), Hinc. lia. }
  exists (more1 ++ more2), ps', (if weight (inc_weight p) =? 1 then i :: first else first), us'.
  split; [rewrite Ht, (total_weight_insert _ _ _ _ Hp), Hinc; lia|].
  split; [etrans; [by apply (hit_same ps i p)|exact Hsame]|]. split; [by apply hit_first|].
  intros us2. cbn [sample_with]. rewrite <- app_assoc, Hr. cbn [mbind option_bind]. rewrite Hget. cbn [mbind option_bind].
  rewrite Hp. cbn [mbind option_bind]. rewrite Hrun. done.
Qed.

(** *** Weights of the groups *)

Definition weighted_key (v : Z) (p : WeightedPilot) : Z * Z * Z := (v, w_data_address p, w_instr2 p).

Definition set_weight (w : Z) (g : GroupRow) : GroupRow :=
  mkGroup (g_variant_id g) (g_instr2 g) (g_data_address g) (g_fspmethod_id g) (g_pilot_id g) (Some w).

Definition update_group (method v : Z) (p : WeightedPilot) (g : GroupRow) : GroupRow :=
  if bool_decide (group_key g = (v, w_data_address p, w_instr2 p, method)) then set_weight (weight p) g else g.

Lemma update_weights method v ps db :
  fold_left (fun db p => update_weight method v p db) ps db
  = mkDB (db_trace db) (fsppilot db) ((fun g => fold_left (fun g p => update_group method v p g) ps g) <$> fspgroup db)
      (auto_increment db).
Proof.
  revert db. induction ps as [|p ps IH]; intros db; simpl.
  - rewrite list_fmap_id. by destruct db.
  - rewrite IH. unfold update_weight. simpl. f_equal. rewrite <- list_fmap_compose. done.
Qed.

Lemma update_group_key method v p g : group_key (update_group method v p g) = group_key g.
Proof. unfold update_group. by case_bool_decide. Qed.

(** A group that none of the pilots concerns stays as it is ... *)
Lemma update_unmatched method v ps g :
  (forall p, p ∈ ps -> group_key g <> (v, w_data_address p, w_instr2 p, method)) ->
  fold_left (fun g p => update_group method v p g) ps g = g.
Proof.
  induction ps as [|p ps IH]; intros Hno; simpl; [done|]. unfold update_group at 2.
  rewrite bool_decide_eq_false_2 by (apply Hno; set_solver). apply IH. intros; apply Hno; set_solver.
Qed.

(** ... the others get the weight of their pilot. *)
Lemma update_matched method v ps p g :
  NoDup (weighted_key v <$> ps) -> p ∈ ps -> group_key g = (v, w_data_address p, w_instr2 p, method) ->
  fold_left (fun g p => update_group method v p g) ps g = set_weight (weight p) g.
Proof.
  revert g. induction ps as [|q ps IH]; intros g Hnd Hp Hk; [set_solver|]. simpl in *.
  apply NoDup_cons in Hnd as [Hq Hnd]. destruct (decide (weighted_key v q = weighted_key v p)) as [He|He].
  - assert (q = p) as ->.
    { apply elem_of_cons in Hp as [->|Hp]; [done|]. destruct Hq. rewrite He. apply list_elem_of_fmap. eauto. }
    unfold update_group at 2. rewrite bool_decide_eq_true_2 by done. apply update_unmatched. intros r Hr Hk2.
    apply Hq. apply list_elem_of_fmap. exists r. split; [|done]. unfold weighted_key, group_key, set_weight in *. simpl in *. congruence.
  - unfold update_group at 2. rewrite bool_decide_eq_false_2; [|intros Hk2; apply He; unfold weighted_key; congruence].
    apply IH; [done | | done]. apply elem_of_cons in Hp as [->|Hp]; done.
Qed.

(** The sizes are those of the entries. *)
Lemma weighted_sizes (ps : list WeightedPilot) (P : Z -> Prop) :
  Forall (fun p => P (w_duration p)) ps -> Forall (fun i => P (weighted_size ps i)) (seq 0 (length ps)).
Proof.
  intros Hall. apply Forall_seq. intros i Hi. destruct (lookup_lt_is_Some_2 ps i ltac:(lia)) as [p Hp].
  unfold weighted_size. rewrite Hp. by apply (Forall_lookup_1 _ _ _ _ Hall Hp).
Qed.

Lemma weighted_sum (ps : list WeightedPilot) :
  sum_sizes (weighted_size ps) (seq 0 (length ps)) = foldr (fun p n => w_duration p + n) 0 ps.
Proof.
  enough (forall pre ps, sum_sizes (weighted_size (pre ++ ps)) (seq (length pre) (length ps))
          = foldr (fun p n => w_duration p + n) 0 ps) as Hg by apply (Hg []).
  clear ps. intros pre ps. revert pre. induction ps as [|p ps IH]; intros pre; [done|]. cbn [length seq].
  unfold sum_sizes in *. cbn [fmap list_fmap foldr].
  assert (weighted_size (pre ++ p :: ps) (length pre) = w_duration p) as ->.
  { unfold weighted_size. by rewrite list_lookup_middle. }
  f_equal. specialize (IH (pre ++ [p])). rewrite <- app_assoc, length_app, Nat.add_1_r in IH. apply IH.
Qed.

Lemma omap_seq {A} (l : list A) : omap (fun i => l !! i) (seq 0 (length l)) = l.
Proof.
  enough (forall pre l : list A, omap (fun i => (pre ++ l) !! i) (seq (length pre) (length l)) = l) as Hg by apply (Hg []).
  clear l. intros pre l. revert pre. induction l as [|x l IH]; intros pre; [done|]. simpl.
  rewrite list_lookup_middle by done. f_equal. specialize (IH (pre ++ [x])).
  rewrite <- app_assoc, length_app, Nat.add_1_r in IH. apply IH.
Qed.

Lemma omap_app {A B} (f : A -> option B) l1 l2 : omap f (l1 ++ l2) = omap f l1 ++ omap f l2.
Proof. induction l1 as [|x l1 IH]; [done|]. simpl. destruct (f x); [simpl; by f_equal | done]. Qed.

(** A choice of indices chooses entries; [k] are the other indices. *)
Lemma choose_entries {A} (l : list A) (first : list nat) :
  NoDup first -> (forall i, i ∈ first -> (i < length l)%nat) ->
  exists k, NoDup (first ++ k) /\ first ++ k ≡ₚ seq 0 (length l) /\
    omap (fun i => l !! i) first ++ omap (fun i => l !! i) k ≡ₚ l.
Proof.
  intros Hnd Hlt.
  assert (first ⊆+ seq 0 (length l)) as [k Hk]%submseteq_Permutation.
  { apply NoDup_submseteq; [done|]. intros i Hi. apply elem_of_seq. specialize (Hlt i Hi). lia. }
  exists k. split; [rewrite <- Hk; apply NoDup_seq|]. split; [done|]. rewrite <- omap_app, <- Hk. by rewrite omap_seq.
Qed.

Lemma numbered_fmap_in {A B} (f : PilotRow -> B) (g : A -> B) (mk : A -> Z -> PilotRow) n (l : list A) :
  (forall a i, a ∈ l -> f (mk a i) = g a) -> f <$> numbered n (mk <$> l) = g <$> l.
Proof.
  revert n. induction l as [|a l IH]; intros n Hf; simpl; [done|]. rewrite Hf by set_solver. f_equal.
  apply IH. intros; apply Hf; set_solver.
Qed.

Lemma total_weight_perm ps qs : ps ≡ₚ qs -> total_weight ps = total_weight qs.
Proof. induction 1; simpl; lia. Qed.

Lemma total_weight_zero ps : Forall (fun p => weight p = 0) ps -> total_weight ps = 0.
Proof. induction 1; simpl; lia. Qed.

Section sampling.
Context (weighting : bool) (method v : Z) (db : Database).
Hypothesis keys_distinct : NoDup (trace_key <$> db_trace db).
Hypothesis fresh_pilots : Forall (fun p => p_fspmethod_id p <> method \/ p_variant_id p <> v) (fsppilot db).
Hypothesis fresh_groups : Forall (fun g => g_fspmethod_id g <> method \/ g_variant_id g <> v) (fspgroup db).
Hypothesis groups_distinct : NoDup (group_key <$> fspgroup db).

Definition weighted_of (t : Row) : WeightedPilot :=
  mkWeighted (duration_of weighting t) 0 (instr2 t) (default 0 (instr2_absolute t)) (row_address t) 0.

Lemma weighted_traces (l : list Row) :
  Forall (fun t => is_Some (instr2_absolute t)) l ->
  mapM (weighted_trace weighting false method db) l = Some (weighted_of <$> l).
Proof.
  induction l as [|t l IH]; intros Hl; [done|]. apply Forall_cons in Hl as [[a Ha] Hl].
  assert (weighted_trace weighting false method db t = Some (weighted_of t)) as Ht
    by (unfold weighted_trace, weighted_of; by rewrite Ha).
  cbn [mapM]. rewrite Ht. cbn [mbind option_bind]. by rewrite IH.
Qed.

(** The entries after sampling have the coordinates of the reads. *)
Lemma sampled_lookup ps' i t p :
  Forall2 same_entry (weighted_of <$> reads_of [v] db) ps' -> reads_of [v] db !! i = Some t -> ps' !! i = Some p ->
  weighted_key v p = trace_key t.
Proof.
  intros Hsame Ht Hp. assert ((weighted_of <$> reads_of [v] db) !! i = Some (weighted_of t)) as Hw by (by rewrite list_lookup_fmap, Ht).
  destruct (Forall2_lookup_lr _ _ _ _ _ _ Hsame Hw Hp) as (_ & _ & Hi & _ & Ha & _). simpl in *.
  unfold weighted_key, trace_key. rewrite Hi, Ha. f_equal. f_equal. apply list_elem_of_lookup_2 in Ht.
  unfold reads_of in Ht. apply list_elem_of_filter in Ht. set_solver.
Qed.

Lemma sampled_weighted_keys ps' :
  Forall2 same_entry (weighted_of <$> reads_of [v] db) ps' -> weighted_key v <$> ps' = trace_key <$> reads_of [v] db.
Proof.
  intros Hsame. pose proof (Forall2_length _ _ _ Hsame) as Hlen. rewrite length_fmap in Hlen.
  apply list_eq_same_length with (length ps'); [by rewrite length_fmap | by rewrite length_fmap|].
  intros i k1 k2 _ Hk1 Hk2. apply list_lookup_fmap_Some in Hk1 as (p & -> & Hp). apply list_lookup_fmap_Some in Hk2 as (t & -> & Ht).
  by eapply sampled_lookup.
Qed.

Lemma chosen_keys ps' (first : list nat) :
  Forall2 same_entry (weighted_of <$> reads_of [v] db) ps' ->
  weighted_key v <$> omap (fun i => ps' !! i) first = trace_key <$> omap (fun i => reads_of [v] db !! i) first.
Proof.
  intros Hsame. pose proof (Forall2_length _ _ _ Hsame) as Hlen. rewrite length_fmap in Hlen.
  induction first as [|i first IH]; [done|]. simpl.
  destruct (ps' !! i) as [p|] eqn:Hp, (reads_of [v] db !! i) as [t|] eqn:Ht; [| | |done].
  - simpl. f_equal; [by eapply sampled_lookup | exact IH].
  - apply lookup_lt_Some in Hp. apply lookup_ge_None in Ht. lia.
  - apply lookup_lt_Some in Ht. apply lookup_ge_None in Hp. lia.
Qed.

Lemma reads_keys : NoDup (trace_key <$> reads_of [v] db).
Proof. eapply sublist_NoDup; [exact keys_distinct|]. apply fmap_sublist, sublist_filter. Qed.

(** The entries chosen first, with their final weights. *)
Section chosen.
Context (ps' : list WeightedPilot) (first : list nat).
Hypothesis chosen_same : Forall2 same_entry (weighted_of <$> reads_of [v] db) ps'.
Hypothesis chosen_first : first_hits (weighted_of <$> reads_of [v] db) ps' first.
Let picked : list Row := omap (fun i => reads_of [v] db !! i) first.
Let chosen : list WeightedPilot := omap (fun i => ps' !! i) first.

Lemma chosen_length : length ps' = length (reads_of [v] db).
Proof. apply Forall2_length in chosen_same. by rewrite length_fmap in chosen_same. Qed.

Lemma hit_iff i p : ps' !! i = Some p -> i ∈ first <-> weight p <> 0.
Proof.
  intros Hp. destruct chosen_first as (_ & _ & Hf).
  destruct (lookup_lt_is_Some_2 (reads_of [v] db) i) as [t Ht]; [rewrite <- chosen_length; by eapply lookup_lt_Some|].
  rewrite (Hf i (weighted_of t) p); [simpl; tauto | by rewrite list_lookup_fmap, Ht | done].
Qed.

Lemma first_bound i : i ∈ first -> (i < length ps')%nat.
Proof. destruct chosen_first as (_ & Hb & _). intros Hi. apply Hb in Hi. rewrite length_fmap in Hi. by rewrite chosen_length. Qed.

Lemma picked_rest : exists rest, picked ++ rest ≡ₚ reads_of [v] db.
Proof.
  destruct (choose_entries (reads_of [v] db) first) as (k & _ & _ & Hp); [apply chosen_first | |by eexists].
  intros i Hi. rewrite <- chosen_length. by apply first_bound.
Qed.

Lemma chosen_total : total_weight chosen = total_weight ps'.
Proof.
  destruct (choose_entries ps' first) as (k & Hnd & Hk & Hp); [apply chosen_first | apply first_bound|].
  rewrite <- (total_weight_perm _ _ Hp).
  assert (forall l1 l2, total_weight (l1 ++ l2) = total_weight l1 + total_weight l2) as ->.
  { intros l1 l2. induction l1; simpl; lia. }
  rewrite (total_weight_zero (omap _ k)); [unfold chosen; lia|]. apply Forall_forall. intros p Hin.
  apply list_elem_of_omap in Hin as (i & Hi & Hpi). destruct (decide (weight p = 0)) as [|Hw]; [done|].
  apply (hit_iff i p Hpi) in Hw. apply NoDup_app in Hnd as (_ & Hd & _). by destruct (Hd i Hw).
Qed.

Lemma chosen_in p : p ∈ chosen -> p ∈ ps' /\ weight p <> 0.
Proof.
  unfold chosen. intros (i & Hi & Hp)%list_elem_of_omap. split; [by eapply list_elem_of_lookup_2 | by apply (hit_iff i p Hp)].
Qed.

Lemma chosen_nodup : NoDup (weighted_key v <$> chosen).
Proof.
  unfold chosen. rewrite (chosen_keys ps' first chosen_same). destruct picked_rest as [rest Hr].
  pose proof reads_keys as Hk. rewrite <- Hr, fmap_app in Hk. by apply NoDup_app in Hk as [? _].
Qed.

Definition new_pilots : list PilotRow :=
  numbered (auto_increment db)
    ((fun p => sampled_pilot method v (mkSample 0 (w_instr2 p) (w_instr2_absolute p) (w_data_address p))) <$> chosen).

Definition first_group (p : PilotRow) : GroupRow :=
  mkGroup (p_variant_id p) (p_instr2 p) (p_data_address p) method (p_id p) (Some 1).

Definition final_group (g : GroupRow) : GroupRow :=
  fold_left (fun g p => update_group method v p g) (filter (fun p => 1 < weight p) ps') g.

Lemma new_pilots_all : Forall (fun p => known_outcome p = 0 /\ p_fspmethod_id p = method /\ p_variant_id p = v) new_pilots.
Proof. by apply numbered_all. Qed.

Lemma new_pilots_keys : pilot_key <$> new_pilots = trace_key <$> picked.
Proof.
  unfold new_pilots. rewrite (numbered_fmap pilot_key (weighted_key v)) by done. apply chosen_keys, chosen_same.
Qed.

Lemma final_group_row g : group_row (final_group g) = group_row g /\ g_fspmethod_id (final_group g) = g_fspmethod_id g.
Proof.
  unfold final_group. generalize (filter (fun p => 1 < weight p) ps') as l. intros l. revert g.
  induction l as [|p l IH]; intros g; simpl; [done|]. destruct (IH (update_group method v p g)) as [-> ->].
  unfold update_group. by case_bool_decide.
Qed.

(** In the end each group has the weight of its entry. *)
Lemma final_weight p n : Forall (fun p => 0 <= weight p) ps' -> p ∈ chosen ->
  g_weight (final_group (first_group (sampled_pilot method v (mkSample 0 (w_instr2 p) (w_instr2_absolute p) (w_data_address p)) n)))
  = Some (weight p).
Proof.
  intros Hpos Hp. destruct (chosen_in p Hp) as [Hin Hw]. rewrite Forall_forall in Hpos. specialize (Hpos p Hin).
  pose proof reads_keys as Hnd. rewrite <- (sampled_weighted_keys ps' chosen_same) in Hnd.
  unfold final_group. destruct (decide (1 < weight p)) as [Hgt|Hle].
  - rewrite (update_matched method v _ p); [done | | by apply list_elem_of_filter | done].
    eapply sublist_NoDup; [exact Hnd | apply fmap_sublist, sublist_filter].
  - rewrite update_unmatched; [simpl; f_equal; lia|]. intros q [Hq Hqin]%list_elem_of_filter Hk. simpl in Hk.
    assert (p = q) as <-; [|lia]. apply list_elem_of_lookup in Hin as [i Hi], Hqin as [j Hj].
    assert (i = j) as ->; [|congruence].
    apply (NoDup_lookup (weighted_key v <$> ps') i j (weighted_key v p)); [done | by rewrite list_lookup_fmap, Hi |].
    rewrite list_lookup_fmap, Hj. simpl. f_equal. unfold weighted_key, group_key in *. simpl in Hk. congruence.
Qed.

Lemma final_old : final_group <$> fspgroup db = fspgroup db.
Proof.
  rewrite <- (list_fmap_id (fspgroup db)) at 2. apply list_fmap_ext. intros i g Hg. simpl. apply update_unmatched. intros p _ Hk.
  apply list_elem_of_lookup_2 in Hg. rewrite Forall_forall in fresh_groups. unfold group_key in Hk.
  injection Hk as ? ? ? ?. by destruct (fresh_groups g Hg).
Qed.
End chosen.

(** The whole step for one variant, given the outcome of the loop. *)
Lemma Sampling_tables samplesize basic ps' first us us' :
  let pop := population (weighted_size (weighted_of <$> reads_of [v] db)) (seq 0 (length (weighted_of <$> reads_of [v] db))) in
  Forall (fun t => is_Some (instr2_absolute t)) (reads_of [v] db) ->
  Forall2 same_entry (weighted_of <$> reads_of [v] db) ps' ->
  first_hits (weighted_of <$> reads_of [v] db) ps' first ->
  sample_with (Z.to_nat samplesize) (weighted_size (weighted_of <$> reads_of [v] db)) pop
    (weighted_of <$> reads_of [v] db) us = Some (ps', first, us') ->
  iterate (length ps') (iter_begin pop) = Some (seq 0 (length ps')) ->
  exists n, Sampling_prune false weighting false samplesize method basic v us db
    = Some (true, mkDB (db_trace db) (fsppilot db ++ new_pilots ps' first)
                    (fspgroup db ++ (final_group ps' <$> (first_group <$> new_pilots ps' first))) n, us').
Proof.
  intros pop Habs Hsame Hfirst Hs Hit. unfold Sampling_prune. rewrite weighted_traces by done. cbn [mbind option_bind].
  fold pop. rewrite Hs. cbn [mbind option_bind negb]. rewrite insert_pilots_spec. fold (new_pilots ps' first).
  cbn [db_trace fsppilot fspgroup auto_increment].
  pose proof (new_pilots_all ps' first) as Hall. rewrite (filter_fresh method v db fresh_pilots).
  rewrite (list_filter_all _ (new_pilots ps' first)) by (intros p Hp; by rewrite Forall_forall in Hall; apply Hall).
  change (fun p => mkGroup (p_variant_id p) (p_instr2 p) (p_data_address p) method (p_id p) (Some 1)) with first_group.
  rewrite insert_groups_spec; cycle 1.
  { cbn [fspgroup]. apply (new_keys method v db fresh_groups groups_distinct).
    - apply Forall_fmap. eapply Forall_impl; [exact Hall|]. intros p (_ & _ & Hv). done.
    - rewrite <- list_fmap_compose. change (group_row ∘ first_group) with pilot_key. rewrite (new_pilots_keys _ _ Hsame).
      rewrite <- (chosen_keys _ _ Hsame). by apply chosen_nodup. }
  rewrite Hit. cbn [mbind option_bind]. rewrite omap_seq, update_weights. cbn [db_trace fsppilot fspgroup auto_increment].
  eexists. do 3 f_equal. f_equal. rewrite fmap_app. f_equal. apply final_old.
Qed.
End sampling.

Definition group_weights (gs : list GroupRow) : Z := foldr (fun g n => default 0 (g_weight g) + n) 0 gs.

Lemma group_weights_of gs (ps : list WeightedPilot) :
  g_weight <$> gs = (fun p => Some (weight p)) <$> ps -> Forall (fun p => 1 <= weight p) ps ->
  Forall (fun g => exists w, g_weight g = Some w /\ 1 <= w) gs /\ group_weights gs = total_weight ps.
Proof.
  revert ps. induction gs as [|g gs IH]; intros [|p ps] Heq Hall; [split; [constructor | done] | done | done |].
  apply Forall_cons in Hall as [Hp Hall]. injection Heq as Hg Heq. destruct (IH ps Heq Hall) as [IH1 IH2].
  split; [constructor; [by exists (weight p) | done]|]. simpl. rewrite Hg, IH2. done.
Qed.

(** Sampling with replacement: however the random source begins, it can go on
    such that the step succeeds; then the new groups are those of distinct reads,
    each of a weight of at least one, and the weights add up to the number of
    samples asked for. *)
Theorem sampling_counts weighting samplesize method basic v db us :
  NoDup (trace_key <$> db_trace db) ->
  Forall (fun p => p_fspmethod_id p <> method \/ p_variant_id p <> v) (fsppilot db) ->
  Forall (fun g => g_fspmethod_id g <> method \/ g_variant_id g <> v) (fspgroup db) ->
  NoDup (group_key <$> fspgroup db) ->
  Forall (fun t => is_Some (instr2_absolute t) /\ 0 < duration_of weighting t) (reads_of [v] db) ->
  sum_of (duration_of weighting) (reads_of [v] db) <= 2 ^ 63 -> reads_of [v] db <> [] -> 0 <= samplesize < 2 ^ 32 ->
  exists more us' picked rest ps gs n,
    Sampling_prune false weighting false samplesize method basic v (us ++ more) db
      = Some (true, mkDB (db_trace db) (fsppilot db ++ ps) (fspgroup db ++ gs) n, us') /\
    picked ++ rest ≡ₚ reads_of [v] db /\
    pilot_key <$> ps = trace_key <$> picked /\ group_row <$> gs = trace_key <$> picked /\
    Forall (fun g => exists w, g_weight g = Some w /\ 1 <= w) gs /\ group_weights gs = samplesize.
Proof.
  intros Hk Hp Hg Hn Habs Hsum Hne Hss. rewrite Forall_and in Habs. destruct Habs as [Habs Hdur].
  set (ps0 := weighted_of weighting <$> reads_of [v] db). set (size := weighted_size ps0).
  assert (sum_sizes size (seq 0 (length ps0)) = sum_of (duration_of weighting) (reads_of [v] db)) as Hse.
  { unfold size. rewrite weighted_sum. unfold ps0, sum_of. clear. induction (reads_of [v] db) as [|t l IH]; [done|].
    cbn [fmap list_fmap foldr]. by rewrite <- IH. }
  assert (length ps0 <> 0)%nat as Hlen0.
  { unfold ps0. rewrite length_fmap. by intros ?%nil_length_inv. }
  destruct (population_spec size (seq 0 (length ps0))) as [Hwf Hel];
    [apply weighted_sizes, Forall_fmap, Hdur | rewrite Hse; lia |].
  assert (seq 0 (length ps0) <> []) as Hseq by (destruct (length ps0); done).
  destruct (sample_with_spec size (population size (seq 0 (length ps0))) (Z.to_nat samplesize) ps0 us)
    as (more & ps' & first & us' & Ht & Hsame & Hfirst & Hrun); rewrite ?Hel; try done.
  { lia. } { intros i Hi. apply elem_of_seq in Hi. lia. }
  { apply Forall_fmap, Forall_true. intros t. simpl. lia. }
  { rewrite total_weight_zero; [lia|]. by apply Forall_fmap, Forall_true. }
  rewrite (total_weight_zero ps0) in Ht by (by apply Forall_fmap, Forall_true).
  specialize (Hrun []). rewrite !app_nil_r in Hrun. pose proof (Forall2_length _ _ _ Hsame) as Hlen.
  pose proof (sumtree_iterator_complete size BUCKETSIZE _ Hwf) as Hit. rewrite Hel, length_seq in Hit. specialize (Hit Hseq).
  destruct (Sampling_tables weighting method v db Hk Hp Hg Hn samplesize basic ps' first _ _ Habs Hsame Hfirst Hrun)
    as (n & E); [by rewrite <- Hlen |].
  destruct (picked_rest weighting v db ps' first Hsame Hfirst) as [rest Hrest].
  eexists more, us', _, rest, _, _, n. split; [exact E|]. split; [exact Hrest|].
  assert (pilot_key <$> new_pilots method v db ps' first = trace_key <$> omap (fun i => reads_of [v] db !! i) first) as Hkeys
    by (eapply new_pilots_keys; eassumption). split; [exact Hkeys|]. split.
  { rewrite <- Hkeys, <- !list_fmap_compose. apply list_fmap_ext. intros i p _. simpl. apply final_group_row. }
  assert (Forall (fun p => 0 <= weight p) ps') as Hpos.
  { apply Forall_lookup. intros i p Hi. destruct (Forall2_lookup_r _ _ _ i p Hsame Hi) as (q & Hq & _ & _ & _ & _ & _ & Hle).
    unfold ps0 in Hq. apply list_lookup_fmap_Some in Hq as (t & -> & _). done. }
  assert (g_weight <$> (final_group method v ps' <$> (first_group method <$> new_pilots method v db ps' first))
          = (fun p => Some (weight p)) <$> omap (fun i => ps' !! i) first) as Hw.
  { rewrite <- !list_fmap_compose. apply numbered_fmap_in. intros p i Hp'. simpl. eapply final_weight; eassumption. }
  destruct (group_weights_of _ _ Hw) as [Hge ->].
  { apply Forall_forall. intros p Hin. assert (p ∈ ps' /\ weight p <> 0) as [Hin' Hnz] by (eapply chosen_in; eassumption).
    rewrite Forall_forall in Hpos. specialize (Hpos p Hin'). lia. }
  split; [exact Hge|]. rewrite (chosen_total weighting v db ps' first Hsame Hfirst), Ht. lia.
Qed.

(** What makes sampling fail. *)

Lemma mapM_none {A B} (f : A -> option B) (l : list A) x : x ∈ l -> f x = None -> mapM f l = None.
Proof.
  induction l as [|y l IH]; intros Hx Hf; [set_solver|]. simpl. destruct (f y) as [z|] eqn:E; [|done].
  apply elem_of_cons in Hx as [->|Hx]; [congruence|]. simpl. by rewrite IH.
Qed.

(** Sampling from a variant without reads asks for a random number up to 2^64 - 1,
    which shifts by the width of the type; a read whose address column is NULL,
    as the import leaves it at the right margin, hands a null pointer to
    [strtoul], in both samplers.  Whatever the random source delivers, there is
    no defined result. *)
Theorem sampling_undefined (order : list Row -> list Row) weighting incremental samplesize method basic v db us :
  (reads_of [v] db = [] -> 0 < samplesize ->
     Sampling_prune false weighting incremental samplesize method basic v us db = None) /\
  ((exists t, t ∈ reads_of [v] db /\ instr2_absolute t = None) ->
     Sampling_prune false weighting incremental samplesize method basic v us db = None /\
     FESampling_prune order false weighting samplesize method basic v us db = None).
Proof.
  split.
  - intros Hr Hs. unfold Sampling_prune. rewrite Hr. cbn [mapM mret option_ret mbind option_bind].
    destruct (Z.to_nat samplesize) as [|n] eqn:En; [lia|]. cbn [sample_with].
    by rewrite my_rand_undefined by (vm_compute; split; [intros ?; discriminate | reflexivity]).
  - intros (t & Ht & Ha). split.
    + unfold Sampling_prune. rewrite (mapM_none _ _ t Ht); [done|]. unfold weighted_trace. by rewrite Ha.
    + unfold FESampling_prune. rewrite (mapM_none _ _ t Ht); [done|]. unfold trace_sample. by rewrite Ha.
Qed.

(** ** Regions *)

Section region_theorems.
Context (instructions : gmap Z Z) `{!RegionKind}.
Implicit Types (evs seg : list trace_event_t) (leaders : gset Z).

(** Successive instructions. *)
Fixpoint steps (P : trace_event_t -> trace_event_t -> Prop) evs : Prop :=
  match evs with
  | e1 :: ((e2 :: _) as evs') => P e1 e2 /\ steps P evs'
  | _ => True
  end.

(** Instructions of known width, none within the one before. *)
Definition disjoint_step (p n : trace_event_t) : Prop :=
  exists w, instructions !! static_instr p = Some w /\
    ~ (static_instr p < static_instr n < u64 (static_instr p + w)) /\
    is_Some (inSameRegion (static_instr p) (static_instr n)).

(** A change of region has a leader behind it. *)
Definition led leaders (p n : trace_event_t) : Prop :=
  inSameRegion (static_instr p) (static_instr n) = Some true \/ static_instr n ∈ leaders.

Lemma led_mono leaders leaders' evs : leaders ⊆ leaders' -> steps (led leaders) evs -> steps (led leaders') evs.
Proof.
  intros Hs. induction evs as [|e1 [|e2 evs] IH]; [done | done |]. intros [H1 H2]. split; [|by apply IH].
  unfold led in *. set_solver.
Qed.

Lemma leaders_loop_spec fuel evs : forall p leaders,
  (length evs < fuel)%nat -> steps disjoint_step (p :: evs) ->
  exists leaders', leaders_loop instructions fuel p evs leaders = Some leaders' /\ leaders ⊆ leaders' /\
    steps (led leaders') (p :: evs).
Proof.
  revert evs. induction fuel as [|fuel IH]; intros [|n evs] p leaders Hf Hd; simpl in Hf; try lia.
  - exists leaders. done.
  - destruct Hd as [(w & Hw & Hno & [same Hs]) Hd]. cbn [leaders_loop]. rewrite Hw. cbn [mbind option_bind].
    destruct (Z.ltb_spec (static_instr p) (static_instr n)), (Z.ltb_spec (static_instr n) (u64 (static_instr p + w)));
      [lia|..]; cbn [andb]; rewrite Hs; cbn [mbind option_bind];
      (destruct (IH evs n (if same then leaders else {[static_instr n; u64 (static_instr p + w)]} ∪ leaders))
         as (leaders' & -> & Hsub & Hl); [lia | done |];
       exists leaders'; split; [done|]; split; [destruct same; set_solver|]; split; [|exact Hl];
       destruct same; [by left | right; set_solver]).
Qed.

Lemma findRegionLeaders_spec e evs :
  steps disjoint_step (e :: evs) ->
  exists leaders, findRegionLeaders instructions (e :: evs) = Some leaders /\ static_instr e ∈ leaders /\
    steps (led leaders) (e :: evs).
Proof.
  intros Hd. destruct (leaders_loop_spec (S (length evs)) evs e {[static_instr e]}) as (l & E & Hs & Hl); [lia | done|].
  exists l. split; [exact E|]. split; [set_solver | done].
Qed.

(** The instructions of a region. *)
Definition region_of leaders (r : region) seg : Prop :=
  exists e rest, seg = e :: rest /\ reg_begin r = e /\ last seg = Some (reg_end r) /\
    instruction_count r = Z.of_nat (length seg) /\ static_instr e ∈ leaders /\
    Forall (fun e => static_instr e ∉ leaders) rest.

Lemma region_append leaders r seg e :
  region_of leaders r seg -> static_instr e ∉ leaders -> Z.of_nat (length seg) + 1 < 2 ^ 32 ->
  region_of leaders (appendInstruction e r) (seg ++ [e]).
Proof.
  intros (b & rest & -> & Hb & Hl & Hc & Hin & Hrest) He Hlen. exists b, (rest ++ [e]). split; [done|]. split; [done|].
  split; [by rewrite last_snoc|]. split; [|split; [done|]].
  - simpl. rewrite Hc, u32_small; rewrite ?length_app; simpl in *; lia.
  - apply Forall_app. by repeat constructor.
Qed.

Lemma region_single leaders id e : static_instr e ∈ leaders -> region_of leaders (appendInstruction e (mkRegion id e e 0)) [e].
Proof. intros He. exists e, []. repeat split; done || constructor. Qed.

Lemma regions_loop_spec leaders evs : forall d r seg,
  region_of leaders r seg -> reg_id r + 1 = d -> 0 <= d -> d + Z.of_nat (length evs) < 2 ^ 32 ->
  Z.of_nat (length seg + length evs) < 2 ^ 32 ->
  exists segs, concat segs = seg ++ evs /\ Forall2 (region_of leaders) (regions_loop leaders d r evs) segs /\
    reg_id <$> regions_loop leaders d r evs = seqZ (reg_id r) (Z.of_nat (length segs)).
Proof.
  induction evs as [|e evs IH]; intros d r seg Hr Hd Hd0 Hbound Hlen; simpl.
  - exists [seg]. split; [done|]. split; [by repeat constructor | done].
  - simpl in Hbound, Hlen. case_bool_decide as He.
    + destruct (IH (u32 (d + 1)) (appendInstruction e (mkRegion d e e 0)) [e]) as (segs & Hc & Hall & Hids);
        [by apply region_single | simpl; rewrite u32_small by lia; lia | rewrite u32_small by lia; lia
        | rewrite u32_small by lia; lia | simpl; lia |].
      exists (seg :: segs). split; [simpl; by rewrite Hc|]. split; [by constructor|].
      rewrite fmap_cons, Hids. cbn [reg_id appendInstruction length]. rewrite (seqZ_cons (reg_id r)) by lia. f_equal. f_equal; lia.
    + destruct (IH d (appendInstruction e r) (seg ++ [e])) as (segs & Hc & Hall & Hids);
        [apply region_append; [done | done | lia] | done | done | lia | rewrite length_app; simpl; lia |].
      exists segs. split; [by rewrite Hc, <- app_assoc|]. done.
Qed.

Lemma findRegions_spec leaders e evs :
  static_instr e ∈ leaders -> Z.of_nat (length (e :: evs)) < 2 ^ 32 ->
  exists segs, concat segs = e :: evs /\ Forall2 (region_of leaders) (findRegions leaders (e :: evs)) segs /\
    reg_id <$> findRegions leaders (e :: evs) = seqZ 0 (Z.of_nat (length segs)).
Proof.
  intros He Hlen. simpl in Hlen. apply (regions_loop_spec leaders evs 1 (appendInstruction e (mkRegion 0 e e 0)) [e]); simpl; [by apply region_single | lia..].
Qed.

(** Within a region every instruction follows from the one before. *)
Lemma region_steps leaders r seg :
  region_of leaders r seg -> steps (led leaders) seg ->
  steps (fun p n => inSameRegion (static_instr p) (static_instr n) = Some true) seg.
Proof.
  intros (e & rest & -> & _ & _ & _ & _ & Hrest). revert e. induction Hrest as [|n rest Hn Hrest IH]; intros e Hl; [done|].
  destruct Hl as [[H1|H1] H2]; [|done]. split; [done | by apply IH].
Qed.

Lemma steps_app P l1 l2 : steps P (l1 ++ l2) -> steps P l1 /\ steps P l2.
Proof.
  induction l1 as [|x [|y l1] IH]; intros Hs; [done | |].
  - split; [done|]. destruct l2; [done | apply Hs].
  - destruct Hs as [H1 H2]. destruct (IH H2). done.
Qed.

Lemma steps_concat P segs : steps P (concat segs) -> Forall (steps P) segs.
Proof.
  induction segs as [|s segs IH]; intros Hs; constructor; simpl in Hs; apply steps_app in Hs as [? ?]; auto.
Qed.
End region_theorems.

(** Regions partition the run: on a trace of known, non-overlapping
    instructions the regions found are numbered runs of successive instructions
    that together are the whole trace; each begins with a leader, contains no
    other, and inside it every instruction is in the same region as the one
    before, so that basic blocks are straight-line code. *)
Theorem regions_partition_run (instructions : gmap Z Z) (kind : RegionKind) e evs :
  steps (disjoint_step instructions) (e :: evs) -> Z.of_nat (length (e :: evs)) < 2 ^ 32 ->
  exists leaders segs,
    findRegionLeaders instructions (e :: evs) = Some leaders /\ concat segs = e :: evs /\
    Forall2 (region_of leaders) (findRegions leaders (e :: evs)) segs /\
    reg_id <$> findRegions leaders (e :: evs) = seqZ 0 (Z.of_nat (length segs)) /\
    Forall (steps (fun p n => inSameRegion (static_instr p) (static_instr n) = Some true)) segs.
Proof.
  intros Hd Hlen. destruct (findRegionLeaders_spec instructions e evs Hd) as (leaders & E & He & Hl).
  destruct (findRegions_spec leaders e evs He Hlen) as (segs & Hc & Hall & Hids). exists leaders, segs.
  split; [done|]. split; [done|]. split; [done|]. split; [done|].
  rewrite <- Hc in Hl. apply steps_concat in Hl. clear -Hall Hl.
  induction Hall as [|r seg rs segs Hr Hall IH]; [constructor|]. apply Forall_cons in Hl as [H1 H2].
  constructor; [by eapply region_steps | by apply IH].
Qed.

(** ** Concrete runs *)

Module PrunerDemo.
Import ListSet.
#[local] Existing Instance sal_32.

(** The database after the import of the example trace. *)
Definition db : Database := mkDB ImporterDemo.table [] [] 1.

Lemma db_keys : NoDup (trace_key <$> db_trace db).
Proof. refine (bool_decide_eq_true_1 _ _). vm_compute. reflexivity. Qed.

Definition basic_rows (db' : Database) : list (Z * Z * Z) * list (Z * Z) :=
  (group_row <$> fspgroup db', (fun p => (p_id p, known_outcome p)) <$> fsppilot db').

Example basic_run :
  basic_rows (BasicPruner_prune_all id false 7 [1] db).2 =
  ([(1, 100, 0); (1, 101, 0); (1, 101, 1); (1, 100, 2); (1, 101, 2); (1, 102, 2); (1, 103, 2)],
   [(1, 0); (2, 0); (3, 0); (4, 1)]).
Proof. vm_compute. reflexivity. Qed.

Lemma basic_pruner_covers_witness :
  exists ps gs n, BasicPruner_prune_all id false 7 [1] db = (true, mkDB (db_trace db) ([] ++ ps) ([] ++ gs) n) /\
    length (filter (fun p => known_outcome p = 0) ps) = length (reads_of [1] db).
Proof.
  destruct (basic_pruner_covers id false 7 [1] db) as (ps & gs & n & E & _ & _ & Hl).
  - done.
  - apply NoDup_singleton.
  - exact db_keys.
  - constructor.
  - constructor.
  - constructor.
  - exists ps, gs, n. split; [exact E | exact Hl].
Defined.

Lemma every_fault_has_one_pilot_witness :
  exists ok s db', import (fun _ => true) ImporterDemo.opt ImporterDemo.evs = Some (ok, s) /\
    BasicPruner_prune_all id false 7 [1] (mkDB (trace s) [] [] 1) = (true, db') /\
    exists r g, filter (covers instr1 instr2 2) (rows_at 103 (trace s)) = [r] /\
      filter (fun g => group_row g = trace_key r) (fspgroup db') = [g].
Proof.
  destruct (import (fun _ => true) ImporterDemo.opt ImporterDemo.evs) as [[ok s]|] eqn:E; [|vm_compute in E; discriminate].
  destruct (every_fault_has_one_pilot (fun _ => true) ImporterDemo.opt ImporterDemo.evs id false 7 ok s) as (db' & Ep & Hf).
  - done.
  - exact ImporterDemo.importable_demo.
  - exact E.
  - exists ok, s, db'. split; [reflexivity|]. split; [exact Ep|].
    destruct (Hf 103 2 ImporterDemo.in_space_demo) as (r & g & Hr & Hg & _); [rewrite ImporterDemo.count_demo; lia|].
    exists r, g. split; [exact Hr | exact Hg].
Defined.

Lemma db_reads : Forall (fun t => is_Some (instr2_absolute t) /\ 0 < duration_of true t) (reads_of [1] db).
Proof. refine (bool_decide_eq_true_1 _ _). vm_compute. reflexivity. Qed.

Lemma fesampling_draws_witness :
  exists more us' picked rest ps gs n,
    FESampling_prune id false true 2 8 7 1 ([5; 1] ++ more) db
      = Some (true, mkDB (db_trace db) ([] ++ ps) ([] ++ gs) n, us') /\
    picked ++ rest ≡ₚ reads_of [1] db /\ length picked = 2%nat.
Proof.
  destruct (fesampling_draws id true 2 8 7 1 db [5; 1]) as (more & us' & picked & rest & ps & gs & n & E & Hp & Hl & _).
  - done.
  - exact db_keys.
  - constructor.
  - constructor.
  - constructor.
  - exact db_reads.
  - vm_compute. intros ?; discriminate.
  - lia.
  - exists more, us', picked, rest, ps, gs, n. split; [exact E|]. split; [exact Hp|]. exact Hl.
Defined.

Lemma sampling_counts_witness :
  exists more us' ps gs n,
    Sampling_prune false true false 5 8 7 1 ([5; 1] ++ more) db
      = Some (true, mkDB (db_trace db) ([] ++ ps) ([] ++ gs) n, us') /\ group_weights gs = 5.
Proof.
  destruct (sampling_counts true 5 8 7 1 db [5; 1]) as (more & us' & picked & rest & ps & gs & n & E & _ & _ & _ & _ & Hw).
  - exact db_keys.
  - constructor.
  - constructor.
  - constructor.
  - exact db_reads.
  - vm_compute. intros ?; discriminate.
  - vm_compute. discriminate.
  - lia.
  - exists more, us', ps, gs, n. split; [exact E | exact Hw].
Defined.

(** The same trace, with a right margin of reads. *)
Definition opt_reads : Options (list Z) := mkOptions 1 (Some [100; 101; 102; 103]) READ true true false [].

Definition db_margin : Database :=
  mkDB (match import (fun _ => true) opt_reads ImporterDemo.evs with Some (_, s) => trace s | None => [] end) [] [] 1.

Lemma sampling_undefined_witness :
  Sampling_prune false true false 5 8 7 1 [] (mkDB [] [] [] 1) = None /\
  FESampling_prune id false true 5 8 7 1 [0; 1] db_margin = None.
Proof.
  split.
  - apply (proj1 (sampling_undefined id true false 5 8 7 1 (mkDB [] [] [] 1) [])); [reflexivity | lia].
  - apply (proj2 (sampling_undefined id true false 5 8 7 1 db_margin [0; 1])).
    apply (Exists_exists (fun t => instr2_absolute t = None)). refine (bool_decide_eq_true_1 _ _). vm_compute. reflexivity.
Defined.

(** A loop of two instructions that is left in the second round. *)
Definition code : gmap Z Z := {[1000 := 4; 1004 := 4; 1008 := 2]}.
Definition run : list trace_event_t :=
  [mkBB 1000 0 0; mkBB 1004 1 1; mkBB 1000 2 2; mkBB 1004 3 3; mkBB 1008 4 4].

Lemma run_steps : steps (disjoint_step (H := BasicBlocks code) code) run.
Proof.
  repeat split; try exact I; exists 4; (split; [vm_compute; reflexivity|]);
    (split; [vm_compute; intuition discriminate | eexists; vm_compute; reflexivity]).
Qed.

Lemma regions_partition_run_witness :
  exists leaders segs, findRegionLeaders (H := BasicBlocks code) code run = Some leaders /\ concat segs = run /\
    Forall2 (region_of leaders) (findRegions leaders run) segs.
Proof.
  destruct (regions_partition_run code (BasicBlocks code) (mkBB 1000 0 0)
              [mkBB 1004 1 1; mkBB 1000 2 2; mkBB 1004 3 3; mkBB 1008 4 4]) as (leaders & segs & E & Hc & Hall & _).
  - exact run_steps.
  - simpl. lia.
  - exists leaders, segs. split; [exact E|]. split; [exact Hc | exact Hall].
Defined.

Example run_regions :
  (fun r => (dynamic_instr (reg_begin r), dynamic_instr (reg_end r))) <$>
    findRegions (default ∅ (findRegionLeaders (H := BasicBlocks code) code run)) run = [(0, 1); (2, 3); (4, 4)].
Proof. vm_compute. reflexivity. Qed.

(** Two variants: what is a call in the first is none in the second, and yet
    splits a region there, because the set of calls is not cleared. *)
Definition objdump1 : list ObjdumpRow :=
  [mkObjdump 1000 "e8000000" "call f"; mkObjdump 1004 "90909090" "nop"; mkObjdump 1008 "c3c3" "ret"].
Definition objdump2 : list ObjdumpRow :=
  [mkObjdump 1000 "90909090" "nop"; mkObjdump 1004 "90909090" "nop"; mkObjdump 1008 "c3c3" "ret"].

Definition region_count (rs : option (list (Z * list RegionRow))) : list (Z * nat) :=
  (fun x => (x.1, length x.2)) <$> default [] rs.

Example stale_calls :
  region_count (CallRegionPruner_prune_all ImporterDemo.evs db ∅ [(2, objdump2)]) = [(2, 1%nat)] /\
  region_count (CallRegionPruner_prune_all ImporterDemo.evs db ∅ [(1, objdump1); (2, objdump2)]) = [(1, 2%nat); (2, 2%nat)].
Proof. vm_compute. split; reflexivity. Qed.
End PrunerDemo.
