(* ===== verification/Registers.v ===== *)
(** * Registers

    [core/sal/Register.{hpp,cc}], [CPU.{hpp,cc}], the register tables of
    [x86/X86Architecture] and [arm/ArmArchitecture], and the mapping between
    a disassembler's registers and linear data addresses
    ([util/llvmdisassembler], [util/capstonedisassembler]).

    Register objects are shared by pointer: a pointer is an index into the list
    of created objects, [NULL] is [None].  Operations return [None] when an
    assertion fails or an index is out of range.

    A CPU's contents are back-end code: class [CPUState] has the two virtual
    functions, [CPUStateLaws] what their documentation promises. *)
From S2P Require Import Prelude.
From stdpp Require Import pretty.
Open Scope Z_scope.

(** ** Register sets *)

Inductive RegisterType :=
  RT_NONE | RT_GP | RT_FPU | RT_VECTOR | RT_IP | RT_ST | RT_CONTROL | RT_SEGMENT | RT_TRACE.

#[export] Instance RegisterType_eq_dec : EqDecision RegisterType.
Proof. solve_decision. Defined.

Record Register := mkRegister { m_Id : Z; m_Width : Z; m_Name : string }.

#[export] Instance Register_eq_dec : EqDecision Register.
Proof. solve_decision. Defined.

Record UniformRegisterSet := mkURS { m_Type : RegisterType; m_Regs : list nat }.

Definition set_getRegister (i : nat) (s : UniformRegisterSet) : option nat := m_Regs s !! i.

Definition m_add (p : nat) (s : UniformRegisterSet) : option UniformRegisterSet :=
  if bool_decide (p ∈ m_Regs s) then None else Some (mkURS (m_Type s) (m_Regs s ++ [p])).

Record CPUArchitecture := mkArch {
  objects : list Register;
  m_Registers : list (option nat);
  m_RegisterSubsets : list UniformRegisterSet
}.

Definition new_CPUArchitecture : CPUArchitecture := mkArch [] [] [].

Definition getRegisterSetOfType (t : RegisterType) (a : CPUArchitecture) : option (nat * UniformRegisterSet) :=
  list_find (fun s => m_Type s = t) (m_RegisterSubsets a).

Definition m_addRegister (p : nat) (t : RegisterType) (a : CPUArchitecture) : option CPUArchitecture :=
  reg ← objects a !! p;
  let id := Z.to_nat (m_Id reg) in
  let regs := if Z.of_nat (length (m_Registers a)) <? u32 (m_Id reg + 1)
              then resize (Z.to_nat (u32 (m_Id reg + 1))) None (m_Registers a) else m_Registers a in
  _ ← regs !! id;
  let regs := <[id := Some p]> regs in
  let '(i, urs, subsets) := match getRegisterSetOfType t a with
                            | Some (i, urs) => (i, urs, m_RegisterSubsets a)
                            | None => (length (m_RegisterSubsets a), mkURS t [], m_RegisterSubsets a ++ [mkURS t []])
                            end in
  urs ← m_add p urs;
  Some (mkArch (objects a) regs (<[i := urs]> subsets)).

Definition getRegister (i : Z) (a : CPUArchitecture) : option nat :=
  p ← mjoin (m_Registers a !! Z.to_nat i);
  reg ← objects a !! p;
  if m_Id reg =? i then Some p else None.

Definition getRegisterSet (i : nat) (a : CPUArchitecture) : option UniformRegisterSet := m_RegisterSubsets a !! i.

(** [new Register], [setName], [m_addRegister] *)
Definition add_new (r : Register) (t : RegisterType) (a : CPUArchitecture) : option CPUArchitecture :=
  m_addRegister (length (objects a)) t (mkArch (objects a ++ [r]) (m_Registers a) (m_RegisterSubsets a)).

Fixpoint add_all (rs : list (Register * RegisterType)) (a : CPUArchitecture) : option CPUArchitecture :=
  match rs with
  | [] => Some a
  | (r, t) :: rs => a ← add_new r t a; add_all rs a
  end.

(** The registers of the extended trace are registers added before. *)
Fixpoint add_traced (ids : list Z) (a : CPUArchitecture) : option CPUArchitecture :=
  match ids with
  | [] => Some a
  | id :: ids => p ← getRegister id a; a ← m_addRegister p RT_TRACE a; add_traced ids a
  end.

(** ** x86 ([sim64]: [SIM_SUPPORT_64]) *)

Definition RID_CAX : Z := 0.
Definition RID_CCX : Z := 1.
Definition RID_CDX : Z := 2.
Definition RID_CBX : Z := 3.
Definition RID_CSP : Z := 4.
Definition RID_CBP : Z := 5.
Definition RID_CSI : Z := 6.
Definition RID_CDI : Z := 7.
Definition RID_R8 : Z := 8.
Definition RID_LAST_GP_ID : Z := 16.
Definition RID_PC : Z := RID_LAST_GP_ID.
Definition RID_FLAGS : Z := RID_PC + 1.
Definition RID_CS : Z := RID_FLAGS + 1.
Definition RID_DS : Z := RID_CS + 1.
Definition RID_ES : Z := RID_CS + 2.
Definition RID_FS : Z := RID_CS + 3.
Definition RID_GS : Z := RID_CS + 4.
Definition RID_SS : Z := RID_CS + 5.
Definition RID_CR0 : Z := RID_SS + 1.
Definition RID_CR2 : Z := RID_CR0 + 2.
Definition RID_CR3 : Z := RID_CR0 + 3.
Definition RID_CR4 : Z := RID_CR0 + 4.
Definition RID_FSW : Z := RID_CR4 + 1.
Definition RID_FCW : Z := RID_FSW + 1.
Definition RID_FTW : Z := RID_FSW + 2.
Definition RID_FPR0_LO : Z := RID_FSW + 3.
Definition RID_FPR0_HI : Z := RID_FPR0_LO + 1.
Definition RID_XMM0_LO : Z := RID_FPR0_LO + 16.
Definition RID_XMM0_HI : Z := RID_XMM0_LO + 1.
Definition xmm_count (sim64 : bool) : nat := if sim64 then 16 else 8.
Definition RID_MXCSR (sim64 : bool) : Z := RID_XMM0_LO + 2 * Z.of_nat (xmm_count sim64).

Definition gp_names (sim64 : bool) : list string :=
  if sim64 then ["RAX"; "RCX"; "RDX"; "RBX"; "RSP"; "RBP"; "RSI"; "RDI"; "R8"; "R9"; "R10"; "R11"; "R12"; "R13";
                 "R14"; "R15"]
  else ["EAX"; "ECX"; "EDX"; "EBX"; "ESP"; "EBP"; "ESI"; "EDI"].

(** A register in two halves. *)
Definition halves (name : string) (lo hi wlo whi : Z) (t : RegisterType) (i : nat) : list (Register * RegisterType) :=
  [(mkRegister (lo + Z.of_nat i * 2) wlo (name +:+ pretty i +:+ "_LO"), t);
   (mkRegister (hi + Z.of_nat i * 2) whi (name +:+ pretty i +:+ "_HI"), t)].

Definition x86_registers (sim64 : bool) : list (Register * RegisterType) :=
  let w := if sim64 then 64 else 32 in
  imap (fun i name => (mkRegister (Z.of_nat i) w name, RT_GP)) (gp_names sim64) ++
  [(mkRegister RID_PC w (if sim64 then "RIP" else "EIP"), RT_IP); (mkRegister RID_FLAGS 32 "EFLAGS", RT_ST);
   (mkRegister RID_CR0 32 "CR0", RT_CONTROL); (mkRegister RID_CR2 32 "CR2", RT_CONTROL);
   (mkRegister RID_CR3 32 "CR3", RT_CONTROL); (mkRegister RID_CR4 32 "CR4", RT_CONTROL);
   (mkRegister RID_CS 16 "CS", RT_SEGMENT); (mkRegister RID_DS 16 "DS", RT_SEGMENT);
   (mkRegister RID_ES 16 "ES", RT_SEGMENT); (mkRegister RID_FS 16 "FS", RT_SEGMENT);
   (mkRegister RID_GS 16 "GS", RT_SEGMENT); (mkRegister RID_SS 16 "SS", RT_SEGMENT);
   (mkRegister RID_FSW 16 "FSW", RT_FPU); (mkRegister RID_FCW 16 "FCW", RT_FPU); (mkRegister RID_FTW 16 "FTW", RT_FPU)] ++
  (seq 0 8 ≫= halves "FPR" RID_FPR0_LO RID_FPR0_HI 64 16 RT_FPU) ++
  [(mkRegister (RID_MXCSR sim64) 16 "MXCSR", RT_VECTOR)] ++
  (seq 0 (xmm_count sim64) ≫= halves "XMM" RID_XMM0_LO RID_XMM0_HI 64 64 RT_VECTOR).

Definition x86_traced : list Z := [RID_CAX; RID_CBX; RID_CCX; RID_CDX; RID_CSI; RID_CDI; RID_CSP; RID_CBP; RID_FLAGS].

Definition X86Architecture (sim64 : bool) : option CPUArchitecture :=
  a ← add_all (x86_registers sim64) new_CPUArchitecture; add_traced x86_traced a.

(** ** ARM *)

Definition RI_IP : Z := 15.

Definition arm_registers : list (Register * RegisterType) :=
  ((fun i => (mkRegister (Z.of_nat i) 32 ("R" +:+ pretty (S i)), RT_GP)) <$> seq 0 15) ++
  [(mkRegister RI_IP 32 "IP", RT_IP)].

Definition ArmArchitecture : option CPUArchitecture :=
  a ← add_all arm_registers new_CPUArchitecture; add_traced (Z.of_nat <$> seq 0 15) a.

(** ** Register contents *)

(** [regdata_t] has 64 bits. *)
Class CPUState (C : Type) := {
  cpu_get : Register -> C -> Z;
  cpu_set : Register -> Z -> C -> C
}.

(** [plain]: registers whose contents are just stored; [known]: the back-end's
    registers. *)
Class CPUStateLaws (C : Type) `{!CPUState C} (plain known : Register -> Prop) := {
  plain_known r : plain r -> known r;
  cpu_get_range r c : in_range 64 (cpu_get r c);
  cpu_get_set r v c : plain r -> in_range 64 v -> wrap (m_Width r) (cpu_get r (cpu_set r v c)) = wrap (m_Width r) v;
  cpu_get_other r r' v c : plain r -> known r' -> m_Id r <> m_Id r' -> cpu_get r' (cpu_set r v c) = cpu_get r' c
}.

(** ** Registers as data addresses *)

Record reginfo_t := mkInfo { ri_id : Z; ri_width : Z; ri_mask : Z; ri_offset : Z }.

#[export] Instance reginfo_eq_dec : EqDecision reginfo_t.
Proof. solve_decision. Defined.

Definition reginfo (id width offs : Z) : reginfo_t :=
  mkInfo id width
    (if width >=? 64 then u64 (-1) else u64 (Z.shiftl (u64 (Z.shiftl 1 width - 1)) offs)) offs.

Definition toDataAddress (r : reginfo_t) : Z := s32 (Z.lor (Z.shiftl (ri_id r) 4) (ri_offset r / 8)).

Definition fromDataAddress (addr width : Z) : reginfo_t :=
  reginfo (Z.shiftr addr 4) (width * 8) (wrap 8 (Z.land addr 15 * 8)).

Section translator.
Context `{CPUState C}.

Definition getRegisterContent (a : CPUArchitecture) (r : reginfo_t) (c : C) : option Z :=
  p ← getRegister (ri_id r) a;
  reg ← objects a !! p;
  Some (Z.shiftr (Z.land (cpu_get reg c) (ri_mask r)) (ri_offset r)).

Definition setRegisterContent (a : CPUArchitecture) (r : reginfo_t) (value : Z) (c : C) : option C :=
  p ← getRegister (ri_id r) a;
  reg ← objects a !! p;
  let origval := Z.land (cpu_get reg c) (u64 (Z.lnot (ri_mask r))) in
  let value := Z.land (u64 (Z.shiftl value (ri_offset r))) (ri_mask r) in
  Some (cpu_set reg (Z.lor value origval) c).
End translator.

(** The names of x86 registers and what they denote ([LLVMtoFailBochs.cpp]). *)
Definition x86_reg_names : list (string * reginfo_t) :=
  let gp (names : string * string * string * string * string) (id : Z) :=
    let '(h, l, x, e, r) := names in
    [(h, reginfo id 8 8); (l, reginfo id 8 0); (x, reginfo id 16 0); (e, reginfo id 32 0); (r, reginfo id 64 0)] in
  let numbered (i : nat) :=
    let n := "R" +:+ pretty i in let id := RID_R8 + Z.of_nat i - 8 in
    [(n, reginfo id 64 0); (n +:+ "D", reginfo id 32 0); (n +:+ "W", reginfo id 16 0); (n +:+ "B", reginfo id 8 0)] in
  let index (l x e r : string) (id : Z) :=
    [(l, reginfo id 8 0); (x, reginfo id 16 0); (e, reginfo id 32 0); (r, reginfo id 64 0)] in
  gp ("AH", "AL", "AX", "EAX", "RAX") RID_CAX ++ gp ("BH", "BL", "BX", "EBX", "RBX") RID_CBX ++
  gp ("CH", "CL", "CX", "ECX", "RCX") RID_CCX ++ gp ("DH", "DL", "DX", "EDX", "RDX") RID_CDX ++
  (seq 8 8 ≫= numbered) ++
  index "DIL" "DI" "EDI" "RDI" RID_CDI ++ index "BPL" "BP" "EBP" "RBP" RID_CBP ++
  [("EFLAGS", reginfo RID_FLAGS 32 0); ("RFLAGS", reginfo RID_FLAGS 64 0);
   ("EIP", reginfo RID_PC 32 0); ("RIP", reginfo RID_PC 64 0)] ++
  index "SIL" "SI" "ESI" "RSI" RID_CSI ++ index "SPL" "SP" "ESP" "RSP" RID_CSP ++
  [("CR0", reginfo RID_CR0 32 0); ("CR2", reginfo RID_CR2 32 0); ("CR3", reginfo RID_CR3 32 0);
   ("CR4", reginfo RID_CR4 32 0); ("CS", reginfo RID_CS 16 0); ("DS", reginfo RID_DS 16 0);
   ("ES", reginfo RID_ES 16 0); ("FS", reginfo RID_FS 16 0); ("GS", reginfo RID_GS 16 0); ("SS", reginfo RID_SS 16 0)].

(** ARM ([LLVMtoFailGem5.cpp]). *)
Definition arm_reg_names : list (string * reginfo_t) :=
  ((fun i => ("R" +:+ pretty i, reginfo (Z.of_nat i) 32 0)) <$> seq 0 13) ++
  [("SP", reginfo 13 32 0); ("LR", reginfo 14 32 0); ("PC", reginfo RI_IP 32 0)].

Definition name_info (names : list (string * reginfo_t)) (n : string) : option reginfo_t :=
  snd ∘ snd <$> list_find (fun x => x.1 = n) names.

(** The disassembler's registers, by number ([regs] are their names). *)
Definition to_fail_map (names : list (string * reginfo_t)) (regs : list string) : gmap Z reginfo_t :=
  fold_left (fun m '(i, n) => match name_info names n with Some r => <[i := r]> m | None => m end)
    (imap (fun i n => (Z.of_nat i, n)) regs) ∅.

(** [None] is [notfound]. *)
Definition getFailRegisterInfo (m : gmap Z reginfo_t) (regid : Z) : option reginfo_t := m !! regid.

(** [None]: the maximum of an empty map is dereferenced. *)
Definition getMaxFailRegisterID (m : gmap Z reginfo_t) : option Z :=
  match map_to_list m with
  | [] => None
  | (_, r) :: rest => Some (fold_left (fun n x => Z.max n (ri_id x.2)) rest (ri_id r))
  end.

Definition getMaxDataAddress (m : gmap Z reginfo_t) : option Z :=
  n ← getMaxFailRegisterID m; Some (toDataAddress (reginfo (n + 1) 32 0) - 1).
