(* ===== verification/RegisterTheorems.v ===== *)
(** * Theorems on registers

    Register tables are consistent; registers map to data addresses and back;
    sub-registers overlap exactly where their bits do; reading and writing a
    sub-register touches exactly its bits. *)
From S2P Require Import Prelude Registers.

(** ** Register tables *)

Record arch_ok (a : CPUArchitecture) : Prop := mkArchOk {
  ao_id : forall i p, m_Registers a !! i = Some (Some p) ->
    exists r, objects a !! p = Some r /\ m_Id r = Z.of_nat i;
  ao_objects : forall r, r ∈ objects a -> 0 <= m_Id r < 2 ^ 32 - 1;
  ao_types : NoDup (m_Type <$> m_RegisterSubsets a);
  ao_sets : forall s p, s ∈ m_RegisterSubsets a -> p ∈ m_Regs s -> (p < length (objects a))%nat;
  ao_nodup : forall s, s ∈ m_RegisterSubsets a -> NoDup (m_Regs s)
}.

(** The registers of a type. *)
Definition regs_of (t : RegisterType) (a : CPUArchitecture) : list nat :=
  from_option (m_Regs ∘ snd) [] (getRegisterSetOfType t a).

Lemma new_arch_ok : arch_ok new_CPUArchitecture.
Proof. split; simpl; [done | set_solver | constructor | set_solver | set_solver]. Qed.

Lemma getRegister_ok a i p r :
  arch_ok a -> m_Registers a !! i = Some (Some p) -> objects a !! p = Some r -> getRegister (Z.of_nat i) a = Some p.
Proof.
  intros Hok Hp Hr. destruct (ao_id a Hok i p Hp) as (r' & Hr' & Hid). simplify_eq. unfold getRegister.
  rewrite Nat2Z.id, Hp. cbn [mjoin option_join mbind option_bind]. rewrite Hr. cbn [mbind option_bind].
  by rewrite (proj2 (Z.eqb_eq _ _)) by done.
Qed.

Lemma regs_of_bound a t q : arch_ok a -> q ∈ regs_of t a -> (q < length (objects a))%nat.
Proof.
  intros Hok. unfold regs_of. destruct (getRegisterSetOfType t a) as [[i s0]|] eqn:E; [|set_solver].
  apply list_find_Some in E as (Hi & _ & _). simpl. intros Hq. apply (ao_sets a Hok s0 q); [by eapply list_elem_of_lookup_2 | done].
Qed.

Section add.
Context (a : CPUArchitecture) (p : nat) (t : RegisterType) (r : Register).
Hypothesis Hok : arch_ok a.
Hypothesis Hr : objects a !! p = Some r.
Hypothesis Hnew : p ∉ regs_of t a.
Let id := Z.to_nat (m_Id r).

Lemma id_range : 0 <= m_Id r < 2 ^ 32 - 1.
Proof. apply (ao_objects a Hok). by eapply list_elem_of_lookup_2. Qed.

(** The vector after resizing. *)
Definition resized : list (option nat) :=
  if Z.of_nat (length (m_Registers a)) <? u32 (m_Id r + 1)
  then resize (Z.to_nat (u32 (m_Id r + 1))) None (m_Registers a) else m_Registers a.

Lemma resized_lookup i : i <> id -> mjoin (resized !! i) = mjoin (m_Registers a !! i).
Proof.
  intros Hi. unfold resized. case_match eqn:E; [|done]. apply Z.ltb_lt in E. pose proof id_range.
  rewrite u32_small in * by lia. destruct (decide (i < length (m_Registers a))%nat) as [Hlt|Hge].
  - rewrite lookup_resize by lia. done.
  - rewrite (lookup_ge_None_2 (m_Registers a)) by lia.
    destruct (decide (i < Z.to_nat (m_Id r + 1))%nat) as [Hlt|Hge'].
    + rewrite lookup_resize_new by lia. done.
    + rewrite lookup_resize_old by lia. done.
Qed.

Lemma resized_id : (id < length resized)%nat.
Proof.
  unfold resized. pose proof id_range. case_match eqn:E.
  - rewrite length_resize, u32_small by lia. unfold id. lia.
  - apply Z.ltb_ge in E. rewrite u32_small in E by lia. unfold id. lia.
Qed.

(** The subsets after the addition. *)
Definition grown : list UniformRegisterSet :=
  match getRegisterSetOfType t a with
  | Some (i, s) => <[i := mkURS t (m_Regs s ++ [p])]> (m_RegisterSubsets a)
  | None => m_RegisterSubsets a ++ [mkURS t [p]]
  end.

Lemma m_addRegister_result :
  m_addRegister p t a = Some (mkArch (objects a) (<[id := Some p]> resized) grown).
Proof.
  unfold m_addRegister. rewrite Hr. cbn [mbind option_bind]. fold resized. fold id.
  destruct (lookup_lt_is_Some_2 _ _ resized_id) as [x ->]. cbn [mbind option_bind].
  unfold grown. unfold regs_of in Hnew. destruct (getRegisterSetOfType t a) as [[i s]|] eqn:E.
  - cbn in Hnew. unfold m_add. rewrite bool_decide_eq_false_2 by done. apply list_find_Some in E as (_ & Ht & _).
    cbn [mbind option_bind]. by rewrite Ht.
  - unfold m_add. cbn [m_Regs]. rewrite bool_decide_eq_false_2 by set_solver. cbn [mbind option_bind m_Type app]. do 2 f_equal.
    rewrite insert_app_r_alt by lia. by rewrite Nat.sub_diag.
Qed.

Lemma grown_elem s : s ∈ grown -> s ∈ m_RegisterSubsets a \/ (m_Type s = t /\ m_Regs s = regs_of t a ++ [p]).
Proof.
  unfold grown, regs_of. destruct (getRegisterSetOfType t a) as [[i s0]|] eqn:E; simpl.
  - intros Hs. apply list_elem_of_lookup in Hs as [j Hj]. destruct (decide (i = j)) as [<-|Hne].
    + assert (i < length (m_RegisterSubsets a))%nat as Hlt.
      { apply lookup_lt_Some in Hj. by rewrite length_insert in Hj. }
      rewrite list_lookup_insert_eq in Hj by done. injection Hj as <-. by right.
    + rewrite list_lookup_insert_ne in Hj by done. left. by eapply list_elem_of_lookup_2.
  - intros [Hs|Hs]%elem_of_app; [by left|]. apply list_elem_of_singleton in Hs as ->. by right.
Qed.

Lemma grown_types : NoDup (m_Type <$> grown).
Proof.
  pose proof (ao_types a Hok) as Hnd. unfold grown. destruct (getRegisterSetOfType t a) as [[i s0]|] eqn:E.
  - apply list_find_Some in E as (Hi & Ht & _). rewrite list_fmap_insert. cbn [m_Type].
    rewrite list_insert_id; [done|]. by rewrite list_lookup_fmap, Hi, <- Ht.
  - rewrite fmap_app. apply NoDup_app. split; [done|]. split; [|apply NoDup_singleton].
    intros ty Hty Hin. simpl in Hin. apply list_elem_of_singleton in Hin as ->.
    apply list_elem_of_fmap in Hty as (s & Hs & Hin). apply (list_find_None _ _) in E.
    rewrite Forall_forall in E. by apply (E s Hin).
Qed.

Lemma m_addRegister_ok : arch_ok (mkArch (objects a) (<[id := Some p]> resized) grown).
Proof.
  assert (p < length (objects a))%nat as Hp by (by eapply lookup_lt_Some). split; simpl.
  - intros i q Hi. destruct (decide (i = id)) as [->|Hne].
    + rewrite list_lookup_insert_eq in Hi by apply resized_id. injection Hi as <-. exists r.
      split; [done|]. pose proof id_range. unfold id. lia.
    + rewrite list_lookup_insert_ne in Hi by done. apply (ao_id a Hok).
      pose proof (resized_lookup i Hne) as Hj. rewrite Hi in Hj. simpl in Hj.
      destruct (m_Registers a !! i) as [[?|]|]; simpl in Hj; by simplify_eq.
  - apply Hok.
  - apply grown_types.
  - intros s q [Hs|[_ Hs]]%grown_elem Hq; [by eapply ao_sets|]. rewrite Hs in Hq.
    apply elem_of_app in Hq as [Hq|Hq]; [by eapply regs_of_bound|]. by apply list_elem_of_singleton in Hq as ->.
  - intros s [Hs|[_ Hs]]%grown_elem; [by eapply ao_nodup|]. rewrite Hs. apply NoDup_app. split.
    + unfold regs_of. destruct (getRegisterSetOfType t a) as [[i s0]|] eqn:E; [|constructor].
      apply list_find_Some in E as (Hi & _ & _). apply (ao_nodup a Hok). by eapply list_elem_of_lookup_2.
    + split; [|apply NoDup_singleton]. intros q Hq ->%list_elem_of_singleton. done.
Qed.
End add.

(** The sets of the other types stay. *)
Lemma find_grown_other a p t t' :
  t' <> t -> from_option (m_Regs ∘ snd) [] (list_find (fun s => m_Type s = t') (grown a p t)) = regs_of t' a.
Proof.
  intros Hne. unfold regs_of, getRegisterSetOfType, grown.
  destruct (getRegisterSetOfType t a) as [[i s]|] eqn:Et.
  - apply list_find_Some in Et as (Hi & Ht & _).
    assert (list_find (fun s => m_Type s = t') (<[i:=mkURS t (m_Regs s ++ [p])]> (m_RegisterSubsets a))
            = list_find (fun s => m_Type s = t') (m_RegisterSubsets a)) as ->; [|done].
    revert i Hi. induction (m_RegisterSubsets a) as [|x l IH]; intros [|i] Hi; simpl in *; simplify_eq.
    + by rewrite !decide_False by congruence.
    + case_decide; [done|]. by rewrite (IH i Hi).
  - destruct (list_find (fun s => m_Type s = t') (m_RegisterSubsets a)) as [[j x]|] eqn:E'.
    + by rewrite (list_find_app_l _ _ _ _ _ E').
    + rewrite list_find_app_r by done. simpl. by rewrite decide_False.
Qed.

(** The set of the type has grown by the register. *)
Lemma find_grown_same a p t :
  from_option (m_Regs ∘ snd) [] (list_find (fun s => m_Type s = t) (grown a p t)) = regs_of t a ++ [p].
Proof.
  unfold regs_of, grown. destruct (getRegisterSetOfType t a) as [[i s]|] eqn:Et.
  - apply list_find_Some in Et as (Hi & Ht & Hb).
    assert (list_find (fun s0 => m_Type s0 = t) (<[i:=mkURS t (m_Regs s ++ [p])]> (m_RegisterSubsets a))
            = Some (i, mkURS t (m_Regs s ++ [p]))) as ->; [|done].
    apply list_find_Some. split; [apply list_lookup_insert_eq; by eapply lookup_lt_Some|]. split; [done|].
    intros j y Hj Hlt. rewrite list_lookup_insert_ne in Hj by lia. by eapply Hb.
  - rewrite list_find_app_r by done. simpl. by rewrite decide_True.
Qed.

(** What an addition does. *)
Lemma m_addRegister_spec a p t r :
  arch_ok a -> objects a !! p = Some r -> p ∉ regs_of t a ->
  exists a', m_addRegister p t a = Some a' /\ arch_ok a' /\ objects a' = objects a /\
    getRegister (m_Id r) a' = Some p /\
    (forall i, 0 <= i -> i <> m_Id r -> getRegister i a' = getRegister i a) /\
    (forall t', regs_of t' a' = regs_of t' a ++ if decide (t' = t) then [p] else []).
Proof.
  intros Hok Hr Hnew. pose proof (m_addRegister_result a p t r Hok Hr Hnew) as E.
  pose proof (m_addRegister_ok a p t r Hok Hr Hnew) as Hok'. pose proof (id_range a p r Hok Hr) as Hid.
  eexists. split; [exact E|]. split; [exact Hok'|]. split; [done|]. split; [|split].
  - replace (m_Id r) with (Z.of_nat (Z.to_nat (m_Id r))) at 1 by lia. eapply getRegister_ok; [done | | exact Hr].
    simpl. apply list_lookup_insert_eq. by eapply resized_id.
  - intros i Hi Hne. unfold getRegister. simpl. rewrite list_lookup_insert_ne by lia.
    rewrite (resized_lookup a p r Hok Hr) by lia. done.
  - intros t'. case_decide as Hd; [subst t'; apply find_grown_same | rewrite app_nil_r; by apply find_grown_other].
Qed.

(** *** Whole tables *)

Definition table := list (Register * RegisterType).

Definition table_ok (rs : table) : Prop :=
  NoDup (m_Id <$> rs.*1) /\ Forall (fun r => 0 <= m_Id r < 2 ^ 32 - 1) rs.*1 /\ RT_TRACE ∉ rs.*2.

(** The table is what the architecture offers. *)
Record built (rs : table) (a : CPUArchitecture) : Prop := mkBuilt {
  bt_ok : arch_ok a;
  bt_objects : objects a = rs.*1;
  bt_get : forall p r, rs.*1 !! p = Some r -> getRegister (m_Id r) a = Some p;
  bt_none : forall i, 0 <= i -> i ∉ m_Id <$> rs.*1 -> getRegister i a = None;
  bt_sets : forall t p, t <> RT_TRACE -> p ∈ regs_of t a <-> rs.*2 !! p = Some t
}.

Lemma built_empty : built [] new_CPUArchitecture.
Proof.
  split; [apply new_arch_ok | done | done | done |]. intros t p _. split; [unfold regs_of; simpl; set_solver | done].
Qed.

Lemma built_add rs a r t :
  built rs a -> table_ok (rs ++ [(r, t)]) -> exists a', add_new r t a = Some a' /\ built (rs ++ [(r, t)]) a' /\
    regs_of RT_TRACE a' = regs_of RT_TRACE a.
Proof.
  intros [Hok Hobj Hget Hnone Hsets] (Hnd & Hrange & Htr). unfold add_new.
  set (a1 := mkArch (objects a ++ [r]) (m_Registers a) (m_RegisterSubsets a)).
  assert (arch_ok a1) as Hok1.
  { destruct Hok as [Hi Ho Ht Hs Hn]. split; simpl; [| |done| |done].
    - intros i p Hp. destruct (Hi i p Hp) as (r0 & Hr0 & Hid). exists r0. split; [by apply lookup_app_l_Some | done].
    - intros r0 [Hr0|Hr0]%elem_of_app; [by apply Ho|]. apply list_elem_of_singleton in Hr0 as ->.
      rewrite Forall_forall in Hrange. apply Hrange. rewrite fmap_app. set_solver.
    - intros s p Hs' Hp. rewrite length_app. specialize (Hs s p Hs' Hp). lia. }
  assert (forall i, getRegister i a1 = getRegister i a) as Hsame.
  { intros i. unfold getRegister. simpl. destruct (mjoin (m_Registers a !! Z.to_nat i)) as [p|] eqn:E; [|done]. simpl.
    assert (p < length (objects a))%nat as Hlt.
    { destruct (m_Registers a !! Z.to_nat i) as [[q|]|] eqn:Eq; simpl in E; simplify_eq.
      destruct (ao_id a Hok _ _ Eq) as (r0 & Hr0 & _). by eapply lookup_lt_Some. }
    by rewrite lookup_app_l by done. }
  destruct (m_addRegister_spec a1 (length (objects a)) t r Hok1) as (a' & E & Hok' & Ho' & Hg & Hother & Hregs).
  { simpl. by rewrite list_lookup_middle. }
  { intros Hin. pose proof (regs_of_bound a t (length (objects a)) Hok Hin). lia. }
  rewrite fmap_app, fmap_app in Hnd. simpl in Hnd. apply NoDup_app in Hnd as (_ & Hfresh & _).
  assert (t <> RT_TRACE) as Hne. { intros ->. apply Htr. rewrite fmap_app. set_solver. }
  exists a'. split; [exact E|]. split; [split; [done | | | |] |].
  - rewrite Ho', fmap_app. simpl. by rewrite Hobj.
  - intros p r0 Hp. rewrite fmap_app in Hp. apply lookup_app_Some in Hp as [Hp|[Hge Hp]].
    + rewrite Hother, Hsame; [by apply Hget | |].
      * rewrite Forall_forall in Hrange. apply Hrange. rewrite fmap_app. apply elem_of_app. left. by eapply list_elem_of_lookup_2.
      * intros Heq. apply (Hfresh (m_Id r0)); [|by rewrite Heq; set_solver].
        apply list_elem_of_fmap. exists r0. split; [done|]. by eapply list_elem_of_lookup_2.
    + apply list_lookup_singleton_Some in Hp as [Hz Heq]. simpl in Heq. subst r0. rewrite Hg. f_equal. rewrite Hobj. lia.
  - intros i Hi Hnin. rewrite fmap_app, fmap_app in Hnin. simpl in Hnin. rewrite Hother, Hsame; [|done|set_solver].
    apply Hnone; [done | set_solver].
  - intros t' p Ht'. rewrite Hregs, fmap_app. rewrite lookup_app_Some, elem_of_app. rewrite <- (Hsets t' p Ht'). simpl.
    change (regs_of t' a1) with (regs_of t' a). split.
    + intros [?|Hin]; [by left|]. right. case_decide as Hd; [|set_solver]. apply list_elem_of_singleton in Hin as ->. subst.
      rewrite Hobj, !length_fmap, Nat.sub_diag. done.
    + intros [?|[Hge Hl]]; [by left|]. right. apply list_lookup_singleton_Some in Hl as [Hz <-]. rewrite decide_True by done.
      apply list_elem_of_singleton. rewrite Hobj, !length_fmap in *. lia.
  - rewrite Hregs, decide_False by done. by rewrite app_nil_r.
Qed.

Lemma built_all rs2 : forall rs a,
  built rs a -> table_ok (rs ++ rs2) -> exists a', add_all rs2 a = Some a' /\ built (rs ++ rs2) a' /\
    regs_of RT_TRACE a' = regs_of RT_TRACE a.
Proof.
  induction rs2 as [|[r t] rs2 IH]; intros rs a Hb Hok.
  - exists a. by rewrite app_nil_r.
  - replace (rs ++ (r, t) :: rs2) with ((rs ++ [(r, t)]) ++ rs2) in * by (by rewrite <- app_assoc).
    destruct (built_add rs a r t Hb) as (a1 & E1 & Hb1 & Htr1).
    { destruct Hok as (Hnd & Hr & Ht). rewrite !fmap_app in Hnd. rewrite !fmap_app in Hr. rewrite fmap_app in Ht. split; [|split].
      - rewrite !fmap_app. by apply NoDup_app in Hnd as [? _].
      - rewrite !fmap_app. by apply Forall_app in Hr as [? _].
      - intros Hc. apply Ht, elem_of_app. by left. }
    destruct (IH _ _ Hb1 Hok) as (a2 & E2 & Hb2 & Htr2). exists a2. cbn [add_all]. rewrite E1. cbn [mbind option_bind].
    split; [exact E2|]. split; [exact Hb2 | congruence].
Qed.

Lemma built_traced rs ids : forall a,
  built rs a -> table_ok rs -> NoDup ids -> (forall i, i ∈ ids -> i ∈ m_Id <$> rs.*1) ->
  (forall p r, p ∈ regs_of RT_TRACE a -> rs.*1 !! p = Some r -> m_Id r ∉ ids) ->
  exists a', add_traced ids a = Some a' /\ built rs a' /\
    (fun p => m_Id <$> rs.*1 !! p) <$> regs_of RT_TRACE a' =
      ((fun p => m_Id <$> rs.*1 !! p) <$> regs_of RT_TRACE a) ++ (Some <$> ids).
Proof.
  induction ids as [|id ids IH]; intros a Hb Hok Hnd Hin Hfresh.
  - exists a. by rewrite app_nil_r.
  - apply NoDup_cons in Hnd as [Hid Hnd].
    assert (id ∈ m_Id <$> rs.*1) as Hx by (apply Hin; set_solver). apply list_elem_of_fmap in Hx as (r & -> & Hr).
    apply list_elem_of_lookup in Hr as [p Hp]. cbn [add_traced]. rewrite (bt_get _ _ Hb p r Hp). cbn [mbind option_bind].
    assert (objects a !! p = Some r) as Hobj by (by rewrite (bt_objects _ _ Hb)).
    destruct (m_addRegister_spec a p RT_TRACE r (bt_ok _ _ Hb) Hobj) as (a1 & E & Hok1 & Ho1 & Hg1 & Hother & Hregs).
    { intros Hc. apply (Hfresh p r Hc Hp). set_solver. }
    rewrite E. cbn [mbind option_bind].
    assert (built rs a1) as Hb1.
    { destruct Hb as [? Hobjs Hget Hnone Hsets]. split; [done | congruence | | |].
      - intros q r' Hq. destruct (decide (m_Id r' = m_Id r)) as [He|He].
        + assert (p = q) as <-.
          { apply (NoDup_lookup (m_Id <$> rs.*1) p q (m_Id r)); [apply Hok | |]; rewrite list_lookup_fmap, ?Hp, ?Hq; simpl; congruence. }
          by rewrite He.
        + rewrite Hother; [by apply Hget | |done]. destruct Hok as (_ & Hr & _). rewrite Forall_forall in Hr.
          apply Hr. by eapply list_elem_of_lookup_2.
      - intros i Hi Hni. rewrite Hother; [by apply Hnone | done|]. intros ->. apply Hni, list_elem_of_fmap. exists r.
        split; [done|]. by eapply list_elem_of_lookup_2.
      - intros t q Ht. rewrite Hregs, decide_False by done. rewrite app_nil_r. by apply Hsets. }
    destruct (IH a1 Hb1 Hok Hnd) as (a2 & E2 & Hb2 & Ht2).
    { intros i Hi. apply Hin. set_solver. }
    { intros q r' Hq Hqr. rewrite Hregs, decide_True in Hq by done. apply elem_of_app in Hq as [Hq|Hq].
      - intros Hc. apply (Hfresh q r' Hq Hqr). set_solver.
      - apply list_elem_of_singleton in Hq as ->. rewrite Hp in Hqr. by injection Hqr as <-. }
    exists a2. split; [exact E2|]. split; [exact Hb2|]. rewrite Ht2, Hregs, decide_True by done.
    rewrite fmap_app, <- app_assoc. simpl. by rewrite Hp.
Qed.

#[local] Instance table_ok_dec rs : Decision (table_ok rs).
Proof. unfold table_ok. apply _. Defined.

Lemma tables_built rs ids :
  table_ok rs -> NoDup ids -> Forall (fun i => i ∈ m_Id <$> rs.*1) ids ->
  exists a, (a ← add_all rs new_CPUArchitecture; add_traced ids a) = Some a /\ built rs a /\
    (fun p => m_Id <$> rs.*1 !! p) <$> regs_of RT_TRACE a = Some <$> ids.
Proof.
  intros Hok Hnd Hin. destruct (built_all rs [] new_CPUArchitecture built_empty Hok) as (a1 & E1 & Hb1 & Ht1).
  destruct (built_traced rs ids a1 Hb1 Hok Hnd) as (a2 & E2 & Hb2 & Ht2).
  { intros i Hi. rewrite Forall_forall in Hin. by apply Hin. }
  { intros p r Hp. rewrite Ht1 in Hp. unfold regs_of in Hp. simpl in Hp. set_solver. }
  exists a2. rewrite E1. split; [exact E2|]. split; [done|]. rewrite Ht2, Ht1. done.
Qed.

(** The register tables are consistent: the constructors of both
    architectures, in both widths, pass their assertions; [getRegister] then
    returns exactly the registers of the table under their ids, each register
    is in the set of its type and no other, and the set for extended traces
    lists the registers named there. *)
Theorem register_tables :
  (forall sim64, exists a, X86Architecture sim64 = Some a /\ built (x86_registers sim64) a /\
    (fun p => m_Id <$> (x86_registers sim64).*1 !! p) <$> regs_of RT_TRACE a = Some <$> x86_traced) /\
  (exists a, ArmArchitecture = Some a /\ built arm_registers a /\
    (fun p => m_Id <$> arm_registers.*1 !! p) <$> regs_of RT_TRACE a = Some <$> (Z.of_nat <$> seq 0 15)).
Proof.
  split.
  - intros sim64. apply tables_built; refine (bool_decide_eq_true_1 _ _); destruct sim64; vm_compute; reflexivity.
  - apply tables_built; refine (bool_decide_eq_true_1 _ _); vm_compute; reflexivity.
Qed.

(** ** Sub-registers *)

(** A sub-register: bits [offset, offset + width) of a 64-bit value. *)
Definition valid_info (r : reginfo_t) : Prop :=
  r = reginfo (ri_id r) (ri_width r) (ri_offset r) /\ 0 < ri_width r /\ 0 <= ri_offset r /\
  ri_offset r + ri_width r <= 64.

Definition has_bit (r : reginfo_t) (k : Z) : bool := (ri_offset r <=? k) && (k <? ri_offset r + ri_width r).

Lemma u64_testbit z k : 0 <= k -> Z.testbit (u64 z) k = (k <? 64) && Z.testbit z k.
Proof.
  intros Hk. unfold u64, wrap. destruct (Z.ltb_spec k 64).
  - by rewrite Z.mod_pow2_bits_low by lia.
  - by rewrite Z.mod_pow2_bits_high by lia.
Qed.

Lemma ones_shift w : Z.shiftl 1 w - 1 = Z.ones w.
Proof. rewrite Z.shiftl_1_l, Z.ones_equiv. lia. Qed.

Lemma mask_testbit r k : valid_info r -> 0 <= k -> Z.testbit (ri_mask r) k = has_bit r k.
Proof.
  intros (Hr & Hw & Ho & Hs) Hk. rewrite Hr. unfold has_bit. cbn [reginfo ri_mask ri_offset ri_width].
  clear Hr. generalize dependent (ri_offset r). generalize dependent (ri_width r). intros w Hw o Ho Hs.
  destruct (Z.geb_spec w 64) as [Hge|Hlt].
  - rewrite u64_testbit, Z.bits_m1, andb_true_r by done.
    destruct (Z.ltb_spec k 64), (Z.leb_spec o k), (Z.ltb_spec k (o + w)); lia.
  - rewrite u64_testbit, Z.shiftl_spec by done.
    destruct (Z.leb_spec o k) as [Hge'|Hlt']; [|by rewrite (Z.testbit_neg_r _ (k - o)), andb_false_r by lia].
    rewrite u64_testbit, ones_shift by lia. cbn [andb].
    destruct (Z.ltb_spec k (o + w)).
    + rewrite Z.ones_spec_low by lia. destruct (Z.ltb_spec k 64), (Z.ltb_spec (k - o) 64); lia.
    + rewrite Z.ones_spec_high by lia. by rewrite !andb_false_r.
Qed.

Lemma in_range_testbit w z k : 0 <= w -> in_range w z -> w <= k -> Z.testbit z k = false.
Proof.
  intros Hw [Hz Hlt] Hk. destruct (Z.eq_dec z 0) as [->|]; [apply Z.testbit_0_l|].
  apply Z.bits_above_log2; [lia|]. apply Z.log2_lt_pow2; [lia|]. pose proof (Z.pow_le_mono_r 2 w k). lia.
Qed.

Lemma getRegisterContent_bits `{CPUState C} (a : CPUArchitecture) r reg p (c : C) :
  in_range 64 (cpu_get reg c) -> valid_info r -> getRegister (ri_id r) a = Some p -> objects a !! p = Some reg ->
  exists v, getRegisterContent a r c = Some v /\ in_range (ri_width r) v /\
    forall k, 0 <= k < ri_width r -> Z.testbit v k = Z.testbit (cpu_get reg c) (k + ri_offset r).
Proof.
  intros Hrange Hv Hp Ho. unfold getRegisterContent. rewrite Hp. cbn [mbind option_bind].
  rewrite Ho. cbn [mbind option_bind]. eexists. split; [done|].
  pose proof Hv as (_ & Hw & Hoff & _).
  assert (forall k, 0 <= k -> Z.testbit (Z.shiftr (Z.land (cpu_get reg c) (ri_mask r)) (ri_offset r)) k
          = Z.testbit (cpu_get reg c) (k + ri_offset r) && (k <? ri_width r)) as Hbits.
  { intros k Hk. rewrite Z.shiftr_spec, Z.land_spec, mask_testbit by (done || lia). f_equal. unfold has_bit.
    destruct (Z.leb_spec (ri_offset r) (k + ri_offset r)), (Z.ltb_spec (k + ri_offset r) (ri_offset r + ri_width r)),
      (Z.ltb_spec k (ri_width r)); simpl; lia. }
  split.
  - assert (0 <= Z.shiftr (Z.land (cpu_get reg c) (ri_mask r)) (ri_offset r)) as Hnn.
    { apply Z.shiftr_nonneg, Z.land_nonneg. left. apply Hrange. }
    split; [done|]. destruct (Z.le_gt_cases (2 ^ ri_width r) (Z.shiftr (Z.land (cpu_get reg c) (ri_mask r)) (ri_offset r))) as [Hge|]; [|done].
    exfalso. set (z := Z.shiftr _ _) in *. assert (0 < z) as Hz by lia.
    pose proof (Z.log2_le_mono _ _ Hge) as Hl. rewrite Z.log2_pow2 in Hl by lia.
    pose proof (Z.bit_log2 z Hz) as Hb. unfold z in Hb at 1. rewrite Hbits in Hb by apply Z.log2_nonneg.
    apply andb_true_iff in Hb as [_ Hb]. apply Z.ltb_lt in Hb. lia.
  - intros k Hk. rewrite Hbits by lia. destruct (Z.ltb_spec k (ri_width r)); [by rewrite andb_true_r | lia].
Qed.

(** The value written back: the register's old one but for the named bits. *)
Lemma merged_bits r v old :
  valid_info r -> in_range 64 old ->
  let val := Z.lor (Z.land (u64 (Z.shiftl v (ri_offset r))) (ri_mask r)) (Z.land old (u64 (Z.lnot (ri_mask r)))) in
  in_range 64 val /\
  forall j, 0 <= j < 64 -> Z.testbit val j = if has_bit r j then Z.testbit v (j - ri_offset r) else Z.testbit old j.
Proof.
  intros Hv Hold val. split.
  - assert (val = u64 val) as ->; [|apply u64_range]. apply Z.bits_inj'. intros j Hj. rewrite u64_testbit by done.
    destruct (Z.ltb_spec j 64); [done|]. unfold val. rewrite Z.lor_spec, !Z.land_spec, !u64_testbit by done.
    destruct (Z.ltb_spec j 64); [lia|]. simpl. by rewrite andb_false_r.
  - intros j Hj. unfold val. rewrite Z.lor_spec, !Z.land_spec, !u64_testbit, Z.shiftl_spec, Z.lnot_spec, mask_testbit by (done || lia).
    destruct (Z.ltb_spec j 64); [|lia]. destruct (has_bit r j); simpl; rewrite ?andb_true_r, ?andb_false_r, ?orb_false_r; done.
Qed.

Section access.
Context `{CPUStateLaws C plain known} (a : CPUArchitecture).

(** [r] names bits of [reg]. *)
Definition names_bits (r : reginfo_t) (reg : Register) : Prop :=
  valid_info r /\ plain reg /\ ri_offset r + ri_width r <= m_Width reg /\ m_Width reg <= 64 /\
  exists p, getRegister (ri_id r) a = Some p /\ objects a !! p = Some reg.

Lemma getRegisterContent_spec r reg c :
  names_bits r reg ->
  exists v, getRegisterContent a r c = Some v /\ in_range (ri_width r) v /\
    forall k, 0 <= k < ri_width r -> Z.testbit v k = Z.testbit (cpu_get reg c) (k + ri_offset r).
Proof. intros (Hv & _ & _ & _ & p & Hp & Ho). eapply getRegisterContent_bits; eauto using cpu_get_range. Qed.

Lemma setRegisterContent_spec r reg v c :
  names_bits r reg ->
  exists c', setRegisterContent a r v c = Some c' /\
    (forall k, 0 <= k < m_Width reg ->
       Z.testbit (cpu_get reg c') k = if has_bit r k then Z.testbit v (k - ri_offset r) else Z.testbit (cpu_get reg c) k) /\
    (forall reg', known reg' -> m_Id reg' <> m_Id reg -> cpu_get reg' c' = cpu_get reg' c).
Proof.
  intros (Hv & Hpl & Hle & H64 & p & Hp & Ho). unfold setRegisterContent. rewrite Hp. cbn [mbind option_bind].
  rewrite Ho. cbn [mbind option_bind]. eexists. split; [done|].
  destruct (merged_bits r v (cpu_get reg c) Hv (cpu_get_range reg c)) as [Hrange Hval].
  set (val := Z.lor _ _) in *. split.
  - intros k Hk. rewrite <- (Z.mod_pow2_bits_low _ (m_Width reg)) by lia. fold (wrap (m_Width reg) (cpu_get reg (cpu_set reg val c))).
    rewrite cpu_get_set by done. unfold wrap. rewrite Z.mod_pow2_bits_low by lia. apply Hval. lia.
  - intros reg' Hkn Hne. by apply cpu_get_other.
Qed.
End access.

(** ** Data addresses *)

Definition byte_aligned (r : reginfo_t) : Prop :=
  valid_info r /\ 0 <= ri_id r < 2 ^ 27 /\ (8 | ri_offset r) /\ (8 | ri_width r).

(** The addresses under which the importer records an access to [r]. *)
Definition data_addresses (r : reginfo_t) : list Z := seqZ (toDataAddress r) (ri_width r / 8).

Lemma lor_disjoint id j : 0 <= j < 16 -> Z.lor (Z.shiftl id 4) j = id * 16 + j.
Proof.
  intros Hj. rewrite <- Z.add_nocarry_lor; [rewrite Z.shiftl_mul_pow2; lia|].
  apply Z.bits_inj'. intros k Hk. rewrite Z.land_spec, Z.testbit_0_l. destruct (Z.lt_ge_cases k 4).
  - by rewrite Z.shiftl_spec_low.
  - rewrite (in_range_testbit 4 j k); [apply andb_false_r | lia | unfold in_range; lia | lia].
Qed.

Lemma toDataAddress_value r :
  0 <= ri_id r < 2 ^ 27 -> 0 <= ri_offset r < 128 -> toDataAddress r = ri_id r * 16 + ri_offset r / 8.
Proof.
  intros Hid Ho. unfold toDataAddress.
  assert (0 <= ri_offset r / 8 < 16) by (split; [apply Z.div_pos; lia | apply Z.div_lt_upper_bound; lia]).
  rewrite lor_disjoint by done. unfold s32, wrap. rewrite Z.mod_small by lia. lia.
Qed.

Lemma fromDataAddress_value addr n :
  fromDataAddress addr n = reginfo (addr / 16) (n * 8) (addr mod 16 * 8).
Proof.
  unfold fromDataAddress. rewrite Z.shiftr_div_pow2 by lia. change 15 with (Z.ones 4). rewrite Z.land_ones by lia.
  change (2 ^ 4) with 16. f_equal. unfold wrap. pose proof (Z.mod_pos_bound addr 16). apply Z.mod_small. lia.
Qed.

Lemma data_addresses_spec r x :
  byte_aligned r -> x ∈ data_addresses r <-> x / 16 = ri_id r /\ has_bit r (x mod 16 * 8) = true.
Proof.
  intros ((_ & Hw & Ho & Hs) & Hid & [o Hdo] & [w Hdw]). unfold data_addresses, has_bit.
  rewrite elem_of_seqZ, toDataAddress_value by lia. rewrite Hdo, Hdw, !Z.div_mul by lia.
  pose proof (Z.div_mod x 16 ltac:(lia)) as Hx. pose proof (Z.mod_pos_bound x 16 ltac:(lia)) as Hm.
  rewrite andb_true_iff, Z.leb_le, Z.ltb_lt. split.
  - intros Hr. assert (x / 16 = ri_id r) as Hq.
    { symmetry. apply (Z.div_unique x 16 (ri_id r) (x - ri_id r * 16)); lia. }
    split; [done|]. rewrite Hq in Hx. lia.
  - intros [Hq Hr]. rewrite Hq in Hx. lia.
Qed.

(** Registers as linear addresses: byte-aligned registers and the addresses
    stored in the database translate into each other without loss, and the
    address ranges of two registers intersect exactly if they are parts of the same
    register that share bits, as with AH, AX and EAX. *)
Theorem register_addresses :
  (forall id w j n, 0 <= id < 2 ^ 27 -> 0 <= j < 16 ->
     fromDataAddress (toDataAddress (reginfo id w (8 * j))) n = reginfo id (n * 8) (8 * j)) /\
  (forall addr n, 0 <= addr < 2 ^ 31 -> toDataAddress (fromDataAddress addr n) = addr) /\
  (forall r1 r2, byte_aligned r1 -> byte_aligned r2 ->
     (exists x, x ∈ data_addresses r1 /\ x ∈ data_addresses r2) <->
     ri_id r1 = ri_id r2 /\ exists k, has_bit r1 k = true /\ has_bit r2 k = true).
Proof.
  split; [|split].
  - intros id w j n Hid Hj. rewrite toDataAddress_value by (simpl; lia). cbn [reginfo ri_id ri_offset].
    rewrite fromDataAddress_value. replace (8 * j / 8) with j by (rewrite Z.mul_comm, Z.div_mul; lia).
    f_equal; [symmetry; apply (Z.div_unique _ 16 _ j); lia|].
    rewrite <- (Z.mod_unique (id * 16 + j) 16 id j); lia.
  - intros addr n Ha. rewrite fromDataAddress_value. pose proof (Z.div_mod addr 16 ltac:(lia)).
    pose proof (Z.mod_pos_bound addr 16 ltac:(lia)). rewrite toDataAddress_value; cbn [reginfo ri_id ri_offset].
    + rewrite Z.div_mul by lia. lia.
    + split; [apply Z.div_pos; lia | apply Z.div_lt_upper_bound; lia].
    + lia.
  - intros r1 r2 H1 H2. split.
    + intros (x & Hx1 & Hx2). rewrite data_addresses_spec in Hx1, Hx2 by done. destruct Hx1 as [E1 B1], Hx2 as [E2 B2].
      split; [congruence | eauto].
    + intros (Hid & k & B1 & B2). exists (ri_id r1 * 16 + k / 8). rewrite !data_addresses_spec by done.
      unfold has_bit in *. rewrite andb_true_iff, Z.leb_le, Z.ltb_lt in *.
      destruct H1 as ((_ & Hw1 & Ho1 & Hs1) & Hid1 & [o1 Hdo1] & [w1 Hdw1]), H2 as ((_ & Hw2 & Ho2 & Hs2) & Hid2 & [o2 Hdo2] & [w2 Hdw2]).
      pose proof (Z.div_mod k 8 ltac:(lia)) as Hk. pose proof (Z.mod_pos_bound k 8 ltac:(lia)) as Hkm.
      assert (0 <= k / 8 < 16) as Hk8 by lia.
      assert ((ri_id r1 * 16 + k / 8) / 16 = ri_id r1) as -> by (symmetry; apply (Z.div_unique _ 16 _ (k / 8)); lia).
      assert ((ri_id r1 * 16 + k / 8) mod 16 = k / 8) as -> by (symmetry; apply (Z.mod_unique _ 16 (ri_id r1)); lia).
      lia.
Qed.

Module RegisterDemo.
(** AH and AX share a byte. *)
Lemma register_addresses_witness :
  (exists x, x ∈ data_addresses (reginfo 0 8 8) /\ x ∈ data_addresses (reginfo 0 16 0)) /\
  toDataAddress (fromDataAddress 17 1) = 17.
Proof.
  split.
  - apply (proj2 (proj2 register_addresses) (reginfo 0 8 8) (reginfo 0 16 0)).
    + split; [split; [reflexivity | simpl; lia]|]. simpl. split; [lia|]. split; [exists 1; reflexivity | exists 1; reflexivity].
    + split; [split; [reflexivity | simpl; lia]|]. simpl. split; [lia|]. split; [exists 0; reflexivity | exists 2; reflexivity].
    + split; [reflexivity|]. exists 8. split; reflexivity.
  - apply (proj1 (proj2 register_addresses) 17 1). lia.
Defined.
End RegisterDemo.
