(* ===== verification/Importers.v ===== *)
(** * Other trace importers

    [tools/import-trace]: [InstructionImporter.cc] (faults in the code),
    [RegisterImporter.cc] (faults in registers), [RandomJumpImporter.cc] and
    [FullTraceImporter.cc].  The first two build the same equivalence classes as
    the memory importer, for the accesses that an instruction makes implicitly;
    this is how they are verified: each is the memory importer on a trace in
    which these accesses are written out.

    The instructions of the binary come from a disassembler library: the map from
    addresses to instructions is an argument ([None]: no ELF file was given).
    Initialisation at the first event is a function of the command line and
    done beforehand here.  The counts of unknown registers, which are
    only logged, are left out. *)
From S2P Require Import Prelude Events MemoryMap SyncContainers Importer ImporterTheorems Registers.

(** [CapstoneDisassembler::Instr]; addresses have 32 bits. *)
Record Instr := mkInstr {
  i_opcode : Z;
  i_address : Z;
  i_length : Z;
  conditional_branch : bool;
  reg_uses : list Z;
  reg_defs : list Z
}.

Abbreviation InstrMap := (gmap Z Instr).

Definition find_instr (m : InstrMap) (ip : Z) : option Instr := m !! u32 ip.

Section importers.
Context `{SalConfig} {S : Type} `{!IntervalSet S} (accepts : Row -> bool).
Implicit Type (opt : Options S).

(** ** Instructions *)

(** An instruction fetch is a read. *)
Definition as_read (ev : Trace_Event) : Trace_Event :=
  mkTE (te_ip ev) (te_time_delta ev) (te_memaddr ev) (te_width ev) READ (te_trace_ext ev).

Definition InstructionImporter_handle_ip_event (elf : option InstrMap) (add : AddEvent) opt (curtime instr : Z)
    (ev : Trace_Event) (s : Importer) : option (bool * Importer) :=
  match elf with
  | None => Some (false, s)
  | Some instr_map =>
      match find_instr instr_map (te_ip ev) with
      | None => Some (true, s)
      | Some opcode =>
          let from := wrap addr_bits (te_ip ev) in
          let to := wrap addr_bits (u64 (te_ip ev + i_length opcode)) in
          mem_loop add opt curtime instr (as_read ev) from (Z.to_nat (to - from)) s
      end
  end.

Definition InstructionImporter (elf : option InstrMap) : ImporterHooks := {|
  v_add_trace_event := add_trace_event accepts no_columns;
  v_open_unused_ec_intervals := open_unused_ec_intervals;
  handle_ip_event := InstructionImporter_handle_ip_event elf (add_trace_event accepts no_columns);
  handle_mem_event opt curtime instr ev s := Some (true, s);
  trace_end_reached opt s := Some (true, s)
|}.

(** ** Registers *)

(** The registers of interest, from the command line. *)
Record RegisterConfig := mkRegConfig {
  do_ip : bool;
  do_split_registers : bool;
  m_ip_register_id : Z;
  m_register_ids : list Z
}.

(** [None]: the architecture has no such set, [NULL] is dereferenced. *)
Definition set_ids (t : RegisterType) (arch : CPUArchitecture) : option (list Z) :=
  '(_, urs) ← getRegisterSetOfType t arch;
  mapM (fun p => m_Id <$> objects arch !! p) (m_Regs urs).

Definition register_config (arch : CPUArchitecture) (no_gp flags ip no_split : bool) : option RegisterConfig :=
  ips ← set_ids RT_IP arch;
  ip_id ← head ips;
  gp ← (if negb no_gp then set_ids RT_GP arch else Some []);
  st ← (if flags then set_ids RT_ST arch else Some []);
  Some (mkRegConfig ip (negb no_split) ip_id (gp ++ st)).

(** The loop over the bytes of a register; the memory map selects instructions
    here. *)
Fixpoint reg_loop (add : AddEvent) opt (curtime instr : Z) (ev : Trace_Event) (access : AccessType) (chunk_width a : Z)
    (n : nat) (s : Importer) : option (bool * Importer) :=
  match n with
  | O => Some (true, s)
  | Datatypes.S n =>
      let next := reg_loop add opt curtime instr ev access chunk_width (wrap addr_bits (a + 1)) n in
      if match m_mm opt with Some mm => negb (mm_isMatching (wrap addr_bits (te_ip ev)) 1 mm) | None => false end then next s
      else
        let '(left_margin, s1) := getOpenEC a s in
        let right_margin := mkMargin instr (te_ip ev) curtime in
        if dyninstr left_margin >? dyninstr right_margin then next s1
        else
          let ev1 := mkTE (te_ip ev) (te_time_delta ev) (Some a) chunk_width access (te_trace_ext ev) in
          '(ok, s2) ← add opt left_margin right_margin ev1 false s1;
          if ok : bool then next (newOpenEC a (u64 (curtime + 1)) (u32 (instr + 1)) (te_ip ev) s2)
          else Some (false, s2)
  end.

Definition addRegisterTrace (add : AddEvent) (split : bool) opt (curtime instr : Z) (ev : Trace_Event) (info : reginfo_t)
    (access : AccessType) (s : Importer) : option (bool * Importer) :=
  let from := wrap addr_bits (toDataAddress info) in
  let to := if split then wrap addr_bits (u32 (toDataAddress info + ri_width info / 8)) else wrap addr_bits (from + 1) in
  let chunk_width := if split then 1 else ri_width info / 8 in
  reg_loop add opt curtime instr ev access chunk_width from (Z.to_nat (to - from)) s.

(** The loops over the registers used and defined. *)
Fixpoint trace_registers (add : AddEvent) (cfg : RegisterConfig) (ctof : gmap Z reginfo_t) opt (curtime instr : Z)
    (ev : Trace_Event) (access : AccessType) (regs : list Z) (s : Importer) : option (bool * Importer) :=
  match regs with
  | [] => Some (true, s)
  | r :: regs =>
      let next := trace_registers add cfg ctof opt curtime instr ev access regs in
      match getFailRegisterInfo ctof r with
      | None => next s
      | Some info =>
          if negb (bool_decide (ri_id info ∈ m_register_ids cfg)) then next s
          else
            '(ok, s) ← addRegisterTrace add (do_split_registers cfg) opt curtime instr ev info access s;
            if ok : bool then next s else Some (false, s)
      end
  end.

(** The steps of an instruction, until one fails. *)
Fixpoint in_order (fs : list (Importer -> option (bool * Importer))) (s : Importer) : option (bool * Importer) :=
  match fs with
  | [] => Some (true, s)
  | f :: fs => '(ok, s) ← f s; if ok : bool then in_order fs s else Some (false, s)
  end.

Definition RegisterImporter_handle_ip_event (cfg : RegisterConfig) (ctof : gmap Z reginfo_t) (elf : option InstrMap)
    (add : AddEvent) opt (curtime instr : Z) (ev : Trace_Event) (s : Importer) : option (bool * Importer) :=
  match elf with
  | None => Some (false, s)
  | Some instr_map =>
      let info_pc := reginfo (m_ip_register_id cfg) 32 0 in
      in_order
        ((if do_ip cfg
          then [addRegisterTrace add (do_split_registers cfg) opt curtime instr ev info_pc READ;
                addRegisterTrace add (do_split_registers cfg) opt curtime instr ev info_pc WRITE]
          else []) ++
         match find_instr instr_map (te_ip ev) with
         | None => []
         | Some opcode =>
             [trace_registers add cfg ctof opt curtime instr ev READ (reg_uses opcode);
              trace_registers add cfg ctof opt curtime instr ev WRITE (reg_defs opcode)]
         end) s
  end.

Definition RegisterImporter (cfg : RegisterConfig) (ctof : gmap Z reginfo_t) (elf : option InstrMap) : ImporterHooks := {|
  v_add_trace_event := add_trace_event accepts no_columns;
  v_open_unused_ec_intervals opt s := s;
  handle_ip_event := RegisterImporter_handle_ip_event cfg ctof elf (add_trace_event accepts no_columns);
  handle_mem_event opt curtime instr ev s := Some (true, s);
  trace_end_reached opt s := Some (true, s)
|}.

(** ** Random jumps *)

Record JumpConfig := mkJumps { m_mm_from : option S; m_mm_to : option S }.

Definition jump_to_addresses (mm_to : S) (addresses : list Z) : list Z :=
  filter (fun a => mm_isMatching a 1 mm_to = true) addresses.

Definition excluded (mm : option S) (ip : Z) : bool :=
  match mm with Some mm => negb (mm_isMatching (wrap addr_bits ip) 1 mm) | None => false end.

Fixpoint jump_loop (add : AddEvent) opt (curtime instr : Z) (ev : Trace_Event) (targets : list Z) (s : Importer)
    : option (bool * Importer) :=
  match targets with
  | [] => Some (true, s)
  | to_addr :: targets =>
      let next := jump_loop add opt curtime instr ev targets in
      if to_addr =? te_ip ev then next s
      else
        let margin := mkMargin instr (te_ip ev) curtime in
        '(ok, s) ← add opt margin margin (mkTE (te_ip ev) (te_time_delta ev) (Some to_addr) 4 READ (te_trace_ext ev)) false s;
        if ok : bool then next s else Some (false, s)
  end.

(** [elf] are the addresses of the instructions, in order. *)
Definition RandomJumpImporter_handle_ip_event (cfg : JumpConfig) (elf : option (list Z)) (add : AddEvent) opt
    (curtime instr : Z) (ev : Trace_Event) (s : Importer) : option (bool * Importer) :=
  match m_mm_to cfg, elf with
  | Some mm_to, Some addresses =>
      if excluded (m_mm opt) (te_ip ev) then Some (true, s)
      else if excluded (m_mm_from cfg) (te_ip ev) then Some (true, s)
      else jump_loop add opt curtime instr ev (jump_to_addresses mm_to addresses) s
  | _, _ => Some (false, s)
  end.

Definition RandomJumpImporter (cfg : JumpConfig) (elf : option (list Z)) : ImporterHooks := {|
  v_add_trace_event := add_trace_event accepts no_columns;
  v_open_unused_ec_intervals opt s := s;
  handle_ip_event := RandomJumpImporter_handle_ip_event cfg elf (add_trace_event accepts no_columns);
  handle_mem_event opt curtime instr ev s := Some (true, s);
  trace_end_reached opt s := Some (true, s)
|}.

(** ** The full trace *)

(** Rows of table [fulltrace]; rows are counted also when the database rejects them. *)
Context (accepts_full : Z * Z * Z -> bool) (flush_ok : bool).

Definition FullTraceImporter_add_trace_event : AddEvent := fun opt b e ev is_fake s =>
  if is_fake then Some (true, s)
  else
    let row := (m_variant_id opt, dyninstr e, mi_ip e) in
    let d := derived s in
    let rows := if accepts_full row then fulltrace d ++ [row] else fulltrace d in
    let s := upd_trace (trace s) (u32 (m_row_count s + 1))
               (upd_derived (mkDerived (has_disas d) (m_last_was_conditional_branch d) (m_ip_jump_not_taken d) (branches_taken d)
                               (delayed_entries d) (m_cur_branchmask d) rows) s) in
    Some (accepts_full row, s).

Definition FullTraceImporter : ImporterHooks := {|
  v_add_trace_event := FullTraceImporter_add_trace_event;
  v_open_unused_ec_intervals := open_unused_ec_intervals;
  handle_ip_event opt curtime instr ev s :=
    let right_margin := mkMargin instr (te_ip ev) curtime in
    FullTraceImporter_add_trace_event opt right_margin right_margin ev false s;
  handle_mem_event opt curtime instr ev s := Some (true, s);
  trace_end_reached opt s := Some (flush_ok, s)
|}.
End importers.
