(* ===== verification/ImporterEquiv.v ===== *)
(** * What the other importers compute

    Instruction and register importer are shown equal to the memory importer on
    a trace that names the accesses each instruction makes to code bytes or to
    registers; so the theorems of [ImporterTheorems] hold for them. *)
From S2P Require Import Prelude Events MemoryMap SyncContainers Importer ImporterTheorems Registers Importers.

(** ** Explicit accesses *)

Section explicit.
Context `{SalConfig} {S : Type} `{!IntervalSet S} (accepts : Row -> bool).
Implicit Type (opt : Options S).

Abbreviation add := (add_trace_event (S := S) accepts no_columns).
Abbreviation Memory := (MemoryImporter (S := S) accepts).

(** A memory access of which only the time counts. *)
Definition silent (ev : Trace_Event) : Trace_Event := mkTE (te_ip ev) (te_time_delta ev) (Some 0) 0 READ None.

(** The trace in which instruction [ev] is followed by the accesses [expand ev],
    in place of those recorded. *)
Definition explicit (expand : Trace_Event -> list Trace_Event) (evs : list Trace_Event) : list Trace_Event :=
  evs ≫= fun ev => match te_memaddr ev with None => ev :: expand ev | Some _ => [silent ev] end.

(** An access of [ev]'s instruction, at its time. *)
Definition implied (ev e : Trace_Event) : Prop :=
  te_ip e = te_ip ev /\ te_time_delta e = None /\ is_Some (te_memaddr e).

Definition run_accesses opt (curtime instr : Z) (es : list Trace_Event) : Importer -> option (bool * Importer) :=
  in_order ((fun e => MemoryImporter_handle_mem_event add opt curtime instr e) <$> es).

Lemma in_order_app fs gs s :
  in_order (fs ++ gs) s = '(ok, s) ← in_order fs s; if ok : bool then in_order gs s else Some (false, s).
Proof.
  revert s. induction fs as [|f fs IH]; intros s; [done|]. cbn [in_order app].
  destruct (f s) as [[[] s1]|]; cbn [mbind option_bind]; [apply IH | done | done].
Qed.

Lemma silent_mem opt ct i ev s : MemoryImporter_handle_mem_event add opt ct i (silent ev) s = Some (true, s).
Proof. unfold MemoryImporter_handle_mem_event, silent, wrap. cbn. by rewrite !Zmod_0_l. Qed.

(** States of the loop that differ in the last event's details only. *)
Definition same_loop (l l' : Loop) : Prop :=
  curtime l' = curtime l /\ instr l' = instr l /\ instr_memaccess l' = instr_memaccess l /\
  te_ip (last_ev l') = te_ip (last_ev l).

Definition agree (r r' : option (bool * Loop * Importer)) : Prop :=
  match r, r' with
  | None, None => True
  | Some (ok, l, s), Some (ok', l', s') => ok' = ok /\ s' = s /\ (ok = true -> same_loop l l')
  | _, _ => False
  end.

(** Running implied accesses through the loop. *)
Lemma run_accesses_events opt ev es rest : forall l s,
  Forall (implied ev) es -> te_ip (last_ev l) = te_ip ev ->
  match run_accesses opt (curtime l) (instr_memaccess l) es s with
  | None => import_events (hooks := Memory) opt (es ++ rest) l s = None
  | Some (false, s1) => exists l1, import_events (hooks := Memory) opt (es ++ rest) l s = Some (false, l1, s1)
  | Some (true, s1) => exists l1, same_loop l l1 /\
      import_events (hooks := Memory) opt (es ++ rest) l s = import_events (hooks := Memory) opt rest l1 s1
  end.
Proof.
  induction es as [|e es IH]; intros l s Hes Hip; [by exists l|].
  apply Forall_cons in Hes as [(He & Ht & [a Ha]) Hes]. unfold run_accesses. cbn [fmap list_fmap in_order app import_events].
  unfold import_event at 1 2 3. rewrite Ht, Ha. cbn [mbind option_bind handle_mem_event MemoryImporter].
  destruct (MemoryImporter_handle_mem_event add opt (curtime l) (instr_memaccess l) e s) as [[[] s1]|]; cbn [mbind option_bind];
    [|by eexists|done].
  specialize (IH (mkLoop (curtime l) (instr l) (instr_memaccess l) e) s1 Hes He). cbn [curtime instr_memaccess] in IH.
  unfold run_accesses in IH. destruct (in_order _ s1) as [[[] s2]|]; [|exact IH|exact IH].
  destruct IH as (l1 & (H1 & H2 & H3 & H4) & ->). exists l1. split; [|done]. cbn in H1, H2, H3, H4.
  split_and!; [done | done | done | congruence].
Qed.

(** *** Simulation *)

Section simulation.
Context (h : ImporterHooks (S := S)) (opt opt' : Options S) (expand : Trace_Event -> list Trace_Event).

Hypothesis expand_implied : forall ev, Forall (implied ev) (expand ev).
Hypothesis ip_event : forall ct i ev s, te_memaddr ev = None ->
  handle_ip_event (ImporterHooks := h) opt ct i ev s = run_accesses opt' ct i (expand ev) s.
Hypothesis mem_event : forall ct i ev s, handle_mem_event (ImporterHooks := h) opt ct i ev s = Some (true, s).

Lemma import_events_agree evs : forall l l' s,
  same_loop l l' ->
  agree (import_events (hooks := h) opt evs l s) (import_events (hooks := Memory) opt' (explicit expand evs) l' s).
Proof.
  induction evs as [|ev evs IH]; intros l l' s Hl; [by split|].
  change (explicit expand (ev :: evs)) with
    ((match te_memaddr ev with None => ev :: expand ev | Some _ => [silent ev] end) ++ explicit expand evs).
  destruct Hl as (Ec & Ei & Em & Eip). cbn [import_events]. unfold import_event at 1.
  destruct (te_memaddr ev) as [a|] eqn:Ea.
  - cbn [app import_events]. unfold import_event at 1. cbn [te_time_delta te_memaddr silent]. rewrite Ec.
    destruct (match te_time_delta ev with Some d => _ | None => _ end) as [[ct s1]|]; cbn [mbind option_bind]; [|done].
    rewrite mem_event. cbn [mbind option_bind handle_mem_event MemoryImporter].
    change (mkTE (te_ip ev) (te_time_delta ev) (Some 0) 0 READ None) with (silent ev). rewrite silent_mem. cbn [mbind option_bind].
    apply IH. split_and!; try done. 
  - cbn [app import_events]. unfold import_event at 1. rewrite Ea, Ec.
    destruct (match te_time_delta ev with Some d => _ | None => _ end) as [[ct s1]|]; cbn [mbind option_bind]; [|done].
    rewrite Ei. destruct (instr l =? 2 ^ 32 - 1); [done|]. rewrite ip_event by done.
    cbn [handle_ip_event MemoryImporter mbind option_bind].
    pose proof (run_accesses_events opt' ev (expand ev) (explicit expand evs) (mkLoop ct (u32 (instr l + 1)) (instr l) ev) s1
                  (expand_implied ev) eq_refl) as Hrun. cbn [curtime instr_memaccess] in Hrun.
    destruct (run_accesses opt' ct (instr l) (expand ev) s1) as [[[] s2]|]; cbn [mbind option_bind].
    + destruct Hrun as (l1 & Hl1 & ->). by apply IH.
    + destruct Hrun as (l1 & ->). by split.
    + by rewrite Hrun.
Qed.

Hypothesis trace_end : forall s, trace_end_reached (ImporterHooks := h) opt s = Some (true, s).
Hypothesis open_unused : forall s, v_open_unused_ec_intervals (ImporterHooks := h) opt s = open_unused_ec_intervals opt' s.
Hypothesis closing_same : forall s,
  close_ec_intervals (v_add_trace_event (ImporterHooks := h)) opt s = close_ec_intervals add opt' s.
Hypothesis checks_same : m_sanitychecks opt' = m_sanitychecks opt.

Lemma import_explicit evs s :
  copy_to_database (hooks := h) opt evs s = copy_to_database (hooks := Memory) opt' (explicit expand evs) s.
Proof.
  unfold copy_to_database. pose proof (import_events_agree evs (mkLoop 0 0 0 no_event) (mkLoop 0 0 0 no_event) s) as Ha.
  specialize (Ha ltac:(done)).
  destruct (import_events (hooks := h) opt evs _ s) as [[[ok l] s1]|],
           (import_events (hooks := Memory) opt' _ _ s) as [[[ok' l'] s1']|]; try done.
  destruct Ha as (-> & -> & Hl). cbn [mbind option_bind]. destruct ok; cbn [negb]; [|done].
  destruct (Hl eq_refl) as (-> & -> & _ & ->). rewrite trace_end. cbn [mbind option_bind negb trace_end_reached MemoryImporter].
  rewrite open_unused, closing_same, checks_same. done.
Qed.
End simulation.
End explicit.

(** ** Instructions and registers *)

Section expansions.
Context `{SalConfig} {S : Type} `{!IntervalSet S} (accepts : Row -> bool).
Implicit Type (opt : Options S).

Abbreviation add := (add_trace_event (S := S) accepts no_columns).

(** Time and width of an event do not matter for its rows. *)
Lemma mem_loop_ext opt ct i ev ev' n : forall a s,
  te_ip ev' = te_ip ev -> te_accesstype ev' = te_accesstype ev -> te_trace_ext ev' = te_trace_ext ev ->
  mem_loop add opt ct i ev a n s = mem_loop add opt ct i ev' a n s.
Proof.
  induction n as [|n IH]; intros a s E1 E2 E3; [done|]. cbn [mem_loop].
  destruct (match m_mm opt with Some mm => negb (mm_isMatching a 1 mm) | None => false end); [by apply IH|].
  destruct (getOpenEC a s) as [l s1]. rewrite E1, E2, E3. cbn [dyninstr]. destruct (dyninstr l >? i); [by apply IH|].
  unfold add_trace_event, row_of. cbn [te_accesstype te_memaddr te_trace_ext].
  destruct (_ && _); cbn [mbind option_bind no_columns]; [by apply IH|].
  destruct (accepts _); cbn [mbind option_bind]; [by apply IH | done].
Qed.

Lemma in_order_one (f : Importer -> option (bool * Importer)) s : in_order [f] s = f s.
Proof. cbn [in_order]. by destruct (f s) as [[[] s1]|]. Qed.

(** The fetch of an instruction. *)
Definition fetch (m : InstrMap) (ev : Trace_Event) : list Trace_Event :=
  match find_instr m (te_ip ev) with
  | Some opcode => [mkTE (te_ip ev) None (Some (te_ip ev)) (i_length opcode) READ (te_trace_ext ev)]
  | None => []
  end.

Lemma fetch_implied m ev : Forall (implied ev) (fetch m ev).
Proof. unfold fetch. case_match; repeat constructor. by eexists. Qed.

Lemma instruction_event m opt ct i ev s :
  InstructionImporter_handle_ip_event (Some m) add opt ct i ev s = run_accesses accepts opt ct i (fetch m ev) s.
Proof.
  unfold InstructionImporter_handle_ip_event, fetch. destruct (find_instr m (te_ip ev)) as [opcode|]; [|done].
  unfold run_accesses. cbn [fmap list_fmap]. rewrite in_order_one. unfold MemoryImporter_handle_mem_event.
  cbn [te_memaddr te_width default from_option id]. by apply mem_loop_ext.
Qed.

(** The accesses to registers; the memory map selects instructions. *)
Definition register_access (ev : Trace_Event) (t : AccessType) (info : reginfo_t) : Trace_Event :=
  mkTE (te_ip ev) None (Some (toDataAddress info)) (ri_width info / 8) t (te_trace_ext ev).

Definition selected (cfg : RegisterConfig) (ctof : gmap Z reginfo_t) (r : Z) : option reginfo_t :=
  info ← getFailRegisterInfo ctof r;
  if bool_decide (ri_id info ∈ m_register_ids cfg) then Some info else None.

Definition register_accesses opt (cfg : RegisterConfig) (ctof : gmap Z reginfo_t) (m : InstrMap) (ev : Trace_Event)
    : list Trace_Event :=
  if excluded (m_mm opt) (te_ip ev) then []
  else
    let info_pc := reginfo (m_ip_register_id cfg) 32 0 in
    (if do_ip cfg then [register_access ev READ info_pc; register_access ev WRITE info_pc] else []) ++
    match find_instr m (te_ip ev) with
    | Some opcode => (register_access ev READ <$> omap (selected cfg ctof) (reg_uses opcode)) ++
                     (register_access ev WRITE <$> omap (selected cfg ctof) (reg_defs opcode))
    | None => []
    end.

Definition without_mm opt : Options S :=
  mkOptions (m_variant_id opt) None (m_faultspace_rightmargin opt) (m_sanitychecks opt) (m_import_write_ecs opt)
    (m_extended_trace opt) (m_extended_trace_regs opt).

Lemma reg_loop_excluded opt ct i ev t w n : forall a s,
  excluded (m_mm opt) (te_ip ev) = true -> reg_loop add opt ct i ev t w a n s = Some (true, s).
Proof. induction n as [|n IH]; intros a s He; [done|]. cbn [reg_loop]. unfold excluded in *. rewrite He. by apply IH. Qed.

Lemma reg_loop_mem opt ct i ev ev' t w n : forall a s,
  excluded (m_mm opt) (te_ip ev) = false ->
  te_ip ev' = te_ip ev -> te_accesstype ev' = t -> te_trace_ext ev' = te_trace_ext ev ->
  reg_loop add opt ct i ev t w a n s = mem_loop add (without_mm opt) ct i ev' a n s.
Proof.
  induction n as [|n IH]; intros a s He E1 E2 E3; [done|]. cbn [reg_loop mem_loop].
  pose proof He as He'. unfold excluded in He'. rewrite He'. cbn [m_mm without_mm].
  destruct (getOpenEC a s) as [l s1]. rewrite E1, E2, E3. cbn [dyninstr]. destruct (dyninstr l >? i); [by apply IH|].
  unfold add_trace_event, row_of. cbn [te_accesstype te_memaddr te_trace_ext].
  cbn [m_import_write_ecs m_variant_id m_extended_trace m_extended_trace_regs without_mm].
  destruct (_ && _); cbn [mbind option_bind no_columns]; [by apply IH|].
  destruct (accepts _); cbn [mbind option_bind]; [by apply IH | done].
Qed.

(** Registers whose addresses are small numbers. *)
Definition info_ok (info : reginfo_t) : Prop :=
  0 <= toDataAddress info /\ 0 <= ri_width info /\ toDataAddress info + ri_width info / 8 < 2 ^ 31.

Hypothesis wide_addresses : 32 <= addr_bits.

Lemma addRegisterTrace_mem opt ct i ev info t s :
  info_ok info ->
  addRegisterTrace add true opt ct i ev info t s =
  if excluded (m_mm opt) (te_ip ev) then Some (true, s)
  else MemoryImporter_handle_mem_event add (without_mm opt) ct i (register_access ev t info) s.
Proof.
  intros (H1 & H2 & H3). assert (0 <= ri_width info / 8) by (apply Z.div_pos; lia).
  unfold addRegisterTrace. destruct (excluded (m_mm opt) (te_ip ev)) eqn:E; [by apply reg_loop_excluded|].
  unfold MemoryImporter_handle_mem_event. cbn [te_memaddr te_width register_access default from_option id].
  rewrite u32_small, u64_small by lia. by apply reg_loop_mem.
Qed.

Lemma in_order_skip (f : Importer -> option (bool * Importer)) fs s : f s = Some (true, s) -> in_order (f :: fs) s = in_order fs s.
Proof. intros E. cbn [in_order]. by rewrite E. Qed.

(** One of the loops over registers. *)
Lemma trace_registers_mem opt cfg ctof ct i ev t regs : forall s,
  do_split_registers cfg = true -> (forall r info, ctof !! r = Some info -> info_ok info) ->
  trace_registers add cfg ctof opt ct i ev t regs s =
  if excluded (m_mm opt) (te_ip ev) then Some (true, s)
  else run_accesses accepts (without_mm opt) ct i (register_access ev t <$> omap (selected cfg ctof) regs) s.
Proof.
  induction regs as [|r regs IH]; intros s Hsp Hok; [cbn; by case_match|]. cbn [trace_registers].
  change (omap (selected cfg ctof) (r :: regs)) with
    (match selected cfg ctof r with Some x => x :: omap (selected cfg ctof) regs | None => omap (selected cfg ctof) regs end).
  unfold selected at 1. unfold getFailRegisterInfo. destruct (ctof !! r) as [info|] eqn:Er; cbn [mbind option_bind]; [|by apply IH].
  case_bool_decide; cbn [negb]; [|by apply IH]. rewrite Hsp, addRegisterTrace_mem by eauto.
  destruct (excluded (m_mm opt) (te_ip ev)) eqn:Eex.
  - cbn [mbind option_bind]. by apply IH.
  - unfold run_accesses. cbn [fmap list_fmap in_order].
    destruct (MemoryImporter_handle_mem_event _ _ _ _ _ _) as [[[] s1]|]; cbn [mbind option_bind]; [|done|done].
    by apply IH.
Qed.

Lemma register_event cfg ctof m opt ct i ev s :
  do_split_registers cfg = true -> (forall r info, ctof !! r = Some info -> info_ok info) ->
  info_ok (reginfo (m_ip_register_id cfg) 32 0) ->
  RegisterImporter_handle_ip_event cfg ctof (Some m) add opt ct i ev s =
  run_accesses accepts (without_mm opt) ct i (register_accesses opt cfg ctof m ev) s.
Proof.
  intros Hsp Hok Hpc. unfold RegisterImporter_handle_ip_event, register_accesses. rewrite in_order_app.
  assert (forall s, in_order (if do_ip cfg
      then [addRegisterTrace add (do_split_registers cfg) opt ct i ev (reginfo (m_ip_register_id cfg) 32 0) READ;
            addRegisterTrace add (do_split_registers cfg) opt ct i ev (reginfo (m_ip_register_id cfg) 32 0) WRITE]
      else []) s =
    if excluded (m_mm opt) (te_ip ev) then Some (true, s)
    else run_accesses accepts (without_mm opt) ct i
      (if do_ip cfg then [register_access ev READ (reginfo (m_ip_register_id cfg) 32 0);
                          register_access ev WRITE (reginfo (m_ip_register_id cfg) 32 0)] else []) s) as Hip.
  { intros s0. destruct (do_ip cfg); [|cbn; by case_match]. rewrite Hsp. unfold run_accesses. cbn [in_order fmap list_fmap].
    rewrite addRegisterTrace_mem by done. destruct (excluded (m_mm opt) (te_ip ev)) eqn:E.
    - cbn [mbind option_bind]. rewrite addRegisterTrace_mem, E by done. done.
    - destruct (MemoryImporter_handle_mem_event _ _ _ _ _ _) as [[[] s1]|]; cbn [mbind option_bind]; [|done|done].
      rewrite addRegisterTrace_mem, E by done. done. }
  rewrite Hip. destruct (excluded (m_mm opt) (te_ip ev)) eqn:E.
  - cbn [mbind option_bind]. destruct (find_instr m (te_ip ev)) as [opcode|]; [|done]. cbn [in_order].
    rewrite trace_registers_mem, E by done. cbn [mbind option_bind]. rewrite trace_registers_mem, E by done. done.
  - unfold run_accesses. rewrite fmap_app, in_order_app.
    destruct (in_order _ s) as [[[] s1]|]; cbn [mbind option_bind]; [|done|done].
    destruct (find_instr m (te_ip ev)) as [opcode|]; [|done]. rewrite fmap_app, in_order_app. cbn [in_order].
    rewrite trace_registers_mem, E by done. unfold run_accesses.
    destruct (in_order _ s1) as [[[] s2]|]; cbn [mbind option_bind]; [|done|done].
    rewrite trace_registers_mem, E by done. unfold run_accesses. by destruct (in_order _ s2) as [[[] s3]|].
Qed.

Lemma register_accesses_implied opt cfg ctof m ev : Forall (implied ev) (register_accesses opt cfg ctof m ev).
Proof.
  assert (forall t info, implied ev (register_access ev t info)) as Hi by (intros; split_and!; [done|done|by eexists]).
  unfold register_accesses. case_match; [done|]. apply Forall_app. split; [case_match; auto|].
  case_match; [|done]. apply Forall_app. split; apply Forall_fmap, Forall_true; intros info; apply Hi.
Qed.

Lemma close_without_mm opt s : close_ec_intervals add opt s = close_ec_intervals add (without_mm opt) s.
Proof.
  unfold close_ec_intervals. generalize (m_open_ecs s) as ecs. intros ecs. revert s.
  induction ecs as [|[a l] ecs IH]; intros s; [done|]. cbn [close_loop dyninstr]. destruct (dyninstr l >? m_last_instr s); [apply IH|].
  unfold add_access, add_trace_event, row_of. cbn [m_faultspace_rightmargin without_mm m_import_write_ecs m_variant_id
    m_extended_trace m_extended_trace_regs te_trace_ext].
  destruct (_ && _); cbn [mbind option_bind no_columns]; [apply IH|].
  destruct (accepts _); cbn [mbind option_bind]; [apply IH|done].
Qed.
End expansions.

(** ** Importers without equivalence classes *)

Section plain.
Context `{SalConfig} {S : Type} `{!IntervalSet S} (h : ImporterHooks (S := S)) (opt : Options S).

(** What each instruction adds to an observation [obs] of the state. *)
Context {A : Type} (obs : Importer -> list A) (adds : Z -> Trace_Event -> list A).

Hypothesis obs_start : forall t s, obs (upd_trace_start t s) = obs s.
Hypothesis ip_event : forall ct i ev s, in_range 32 i -> m_open_ecs s = [] ->
  exists s', handle_ip_event (ImporterHooks := h) opt ct i ev s = Some (true, s') /\ obs s' = obs s ++ adds i ev /\ m_open_ecs s' = [].
Hypothesis mem_event : forall ct i ev s, handle_mem_event (ImporterHooks := h) opt ct i ev s = Some (true, s).

(** What the instructions of a trace add, from the [i]-th on. *)
Fixpoint added (evs : list Trace_Event) (i : Z) : list A :=
  match evs with
  | [] => []
  | ev :: evs => match te_memaddr ev with None => adds i ev ++ added evs (i + 1) | Some _ => added evs i end
  end.

Lemma plain_events evs : forall l s,
  Forall valid_event evs -> 0 <= instr l -> instr l + instr_count evs < 2 ^ 32 -> m_open_ecs s = [] ->
  exists l' s', import_events (hooks := h) opt evs l s = Some (true, l', s') /\
    obs s' = obs s ++ added evs (instr l) /\ m_open_ecs s' = [].
Proof.
  induction evs as [|ev evs IH]; intros l s Hv Hi Hn Ho; [exists l, s; by rewrite app_nil_r|].
  apply Forall_cons in Hv as [[_ Hd] Hv]. rewrite instr_count_cons in Hn.
  assert (0 <= instr_count evs) by (unfold instr_count; lia).
  cbn [import_events added]. unfold import_event.
  assert (exists ct s1, match te_time_delta ev with
    | Some d => if d >=? 0 then Some (u64 (curtime l + d), if m_time_trace_start s =? 0 then upd_trace_start (u64 d) s else s) else None
    | None => Some (curtime l, s)
    end = Some (ct, s1) /\ obs s1 = obs s /\ m_open_ecs s1 = []) as (ct & s1 & -> & E1 & E2).
  { destruct (te_time_delta ev) as [d|]; [|by eexists _, _]. pose proof (Hd d eq_refl).
    rewrite (proj2 (Z.geb_le d 0)) by lia. eexists _, _. split; [done|].
    destruct (m_time_trace_start s =? 0); (split; [|exact Ho]); [apply obs_start | done]. }
  cbn [mbind option_bind]. rewrite <- E1. destruct (te_memaddr ev) as [a|].
  - rewrite mem_event. cbn [mbind option_bind]. by apply (IH (mkLoop ct (instr l) (instr_memaccess l) ev)).
  - rewrite (proj2 (Z.eqb_neq _ _)) by lia.
    destruct (ip_event ct (instr l) ev s1) as (s2 & -> & E3 & E4); [unfold in_range; lia | done|]. cbn [mbind option_bind].
    rewrite u32_small by lia.
    destruct (IH (mkLoop ct (instr l + 1) (instr l) ev) s2) as (l' & s' & -> & E5 & E6); cbn [instr]; [done|lia|lia|done|].
    exists l', s'. cbn [instr] in E5. by rewrite E5, E3, <- app_assoc.
Qed.
End plain.

(** Closing intervals that no row is inserted for. *)
Lemma close_unobserved {S A : Type} (add : AddEvent (S := S)) opt (obs : Importer -> list A) :
  (forall b e ev s, exists s', add opt b e ev true s = Some (true, s') /\ obs s' = obs s) ->
  forall s, exists s', close_ec_intervals add opt s = Some (true, s') /\ obs s' = obs s.
Proof.
  intros Hadd s. unfold close_ec_intervals. generalize (m_open_ecs s) as ecs. intros ecs. revert s.
  induction ecs as [|[a l] ecs IH]; intros s; [by exists s|]. cbn [close_loop dyninstr].
  destruct (dyninstr l >? m_last_instr s); [apply IH|]. unfold add_access.
  edestruct Hadd as (s1 & -> & E). cbn [mbind option_bind]. destruct (IH s1) as (s' & -> & E'). exists s'. by rewrite E', E.
Qed.

Section plain_importers.
Context `{SalConfig} {S : Type} `{!IntervalSet S} (opt : Options S).

(** *** The full trace *)

Lemma full_event (accepts_full : Z * Z * Z -> bool) b e ev s :
  accepts_full (m_variant_id opt, dyninstr e, mi_ip e) = true ->
  exists s', FullTraceImporter_add_trace_event accepts_full opt b e ev false s = Some (true, s') /\
    fulltrace (derived s') = fulltrace (derived s) ++ [(m_variant_id opt, dyninstr e, mi_ip e)] /\
    trace s' = trace s /\ m_open_ecs s' = m_open_ecs s.
Proof. intros Hr. unfold FullTraceImporter_add_trace_event. rewrite Hr. by eexists. Qed.

Lemma added_full evs : forall n,
  added (fun i ev => [(m_variant_id opt, i, te_ip ev)]) evs n =
  imap (fun k ip => (m_variant_id opt, n + Z.of_nat k, ip)) (te_ip <$> filter (fun ev => is_instr ev = true) evs).
Proof.
  induction evs as [|ev evs IH]; intros n; [done|]. cbn [added]. unfold is_instr in *. rewrite filter_cons.
  destruct (te_memaddr ev) eqn:E.
  - rewrite decide_False by (by rewrite bool_decide_eq_true). apply IH.
  - rewrite decide_True by (by rewrite bool_decide_eq_true). rewrite fmap_cons. cbn [imap app].
    f_equal; [f_equal; f_equal; lia|]. rewrite IH. apply imap_ext. intros k ip _. simpl. do 2 f_equal. lia.
Qed.

Lemma added_nothing {A} (evs : list Trace_Event) : forall n, added (fun _ _ => [] : list A) evs n = [].
Proof. induction evs as [|ev evs IH]; intros n; [done|]. cbn [added]. case_match; simpl; apply IH. Qed.

Lemma open_unused_obs {A} (obs : Importer -> list A) s :
  (forall ecs s, obs (upd_open_ecs ecs s) = obs s) -> obs (open_unused_ec_intervals opt s) = obs s.
Proof.
  intros Hobs. unfold open_unused_ec_intervals. destruct (m_mm opt) as [mm|]; [|done]. generalize (mm_addresses mm). intros l.
  revert s. induction l as [|a l IH]; intros s; [done|]. cbn [fold_left]. rewrite IH. unfold open_if_unused, newOpenEC.
  case_match; [done | apply Hobs].
Qed.

Lemma full_trace_import (accepts_full : Z * Z * Z -> bool) evs :
  (forall r, accepts_full r = true) -> Forall valid_event evs -> instr_count evs < 2 ^ 32 ->
  exists s, copy_to_database (hooks := FullTraceImporter accepts_full true) opt evs new_Importer = Some (true, s) /\
    fulltrace (derived s) = added (fun i ev => [(m_variant_id opt, i, te_ip ev)]) evs 0 /\ trace s = [].
Proof.
  intros Hacc Hv Hn. unfold copy_to_database.
  destruct (plain_events (FullTraceImporter accepts_full true) opt (fun s => fulltrace (derived s))
              (fun i ev => [(m_variant_id opt, i, te_ip ev)])) with (evs := evs) (l := mkLoop 0 0 0 no_event) (s := new_Importer)
    as (l & s1 & E & Ef & _); try done.
  { intros ct i ev s _ Ho. destruct (full_event accepts_full (mkMargin i (te_ip ev) ct) (mkMargin i (te_ip ev) ct) ev s) as (s' & E & E1 & _ & E2); [done|].
    exists s'. split; [exact E|]. split; [exact E1 | by rewrite E2]. }
  destruct (plain_events (FullTraceImporter accepts_full true) opt trace (fun i ev => [])) with (evs := evs)
    (l := mkLoop 0 0 0 no_event) (s := new_Importer) as (l0 & s0 & E0 & Et & _); try done.
  { intros ct i ev s _ Ho. destruct (full_event accepts_full (mkMargin i (te_ip ev) ct) (mkMargin i (te_ip ev) ct) ev s) as (s' & E' & _ & E1 & E2); [done|].
    exists s'. split; [exact E'|]. split; [by rewrite E1, app_nil_r | by rewrite E2]. }
  rewrite E in E0. injection E0 as <- <-. rewrite E. cbn [mbind option_bind negb trace_end_reached FullTraceImporter].
  cbn [v_open_unused_ec_intervals v_add_trace_event FullTraceImporter].
  set (s2 := open_unused_ec_intervals opt _).
  destruct (close_unobserved (FullTraceImporter_add_trace_event accepts_full) opt
              (fun s => (inl <$> fulltrace (derived s)) ++ (inr <$> trace s)) ltac:(intros; by eexists) s2) as (s3 & E3 & Eobs).
  rewrite E3. cbn [mbind option_bind negb].
  assert (fulltrace (derived s2) = fulltrace (derived s1)) as F2 by (unfold s2; by rewrite (open_unused_obs (fun s => fulltrace (derived s)))).
  assert (trace s2 = []) as T2 by (unfold s2; rewrite (open_unused_obs trace) by done; cbn [upd_last trace]; rewrite Et; apply added_nothing).
  rewrite T2, F2, app_nil_r in Eobs.
  assert (trace s3 = [] /\ fulltrace (derived s3) = fulltrace (derived s1)) as [T3 F3].
  { destruct (trace s3) as [|r rows] eqn:Er.
    - split; [done|]. rewrite app_nil_r in Eobs. by apply (inj (fmap inl)) in Eobs.
    - exfalso. assert (inr r ∈ (inl <$> fulltrace (derived s1) : list (Z * Z * Z + Row))) as Hin.
      { rewrite <- Eobs. apply elem_of_app. right. rewrite fmap_cons. left. }
      apply list_elem_of_fmap in Hin as (? & ? & _). done. }
  rewrite T3. exists s3. replace (sanitychecks []) with true by (by vm_compute). rewrite andb_false_r.
  split; [done|]. split; [rewrite F3, Ef; done | done].
Qed.

(** *** Random jumps *)

Section jumps.
Context (accepts : Row -> bool) (accepts_all : forall r, accepts r = true).

Definition jump_view (r : Row) : Z * Z * Z := (instr1 r, instr2 r, row_address r).

Lemma add_read_ok b e ev f s :
  te_accesstype ev = READ ->
  add_trace_event accepts no_columns opt b e ev f s =
    Some (true, upd_trace (trace s ++ [row_of opt b e ev f []]) (u32 (m_row_count s + 1)) s).
Proof.
  intros Hr. unfold add_trace_event. rewrite Hr, bool_decide_eq_false_2, andb_false_r by done.
  cbn [no_columns mbind option_bind]. by rewrite accepts_all.
Qed.

Lemma jump_loop_ok ct i ev targets : forall s,
  Forall (in_range 32) targets ->
  exists s', jump_loop (add_trace_event accepts no_columns) opt ct i ev targets s = Some (true, s') /\
    jump_view <$> trace s' = (jump_view <$> trace s) ++ ((fun t => (i, i, t)) <$> filter (fun t => t <> te_ip ev) targets) /\
    m_open_ecs s' = m_open_ecs s.
Proof.
  induction targets as [|t targets IH]; intros s Ht; [exists s; by rewrite app_nil_r|].
  apply Forall_cons in Ht as [Ht Hts]. cbn [jump_loop]. rewrite filter_cons.
  destruct (Z.eqb_spec t (te_ip ev)) as [He|He].
  - rewrite decide_False by (intros Hn; by apply Hn). by apply IH.
  - rewrite decide_True by done. rewrite add_read_ok by done. cbn [mbind option_bind].
    edestruct IH as (s' & -> & E1 & E2); [done|]. exists s'. split; [done|]. rewrite E1, E2. split; [|done].
    cbn [upd_trace trace]. rewrite fmap_app, <- app_assoc. f_equal. rewrite fmap_cons. cbn [fmap list_fmap app]. f_equal.
    unfold jump_view, row_of. cbn [instr1 instr2 row_address dyninstr te_memaddr default from_option id].
    by rewrite (u32_small t).
Qed.

Definition jumps (cfg : JumpConfig) (mm_to : S) (addresses : list Z) (i : Z) (ev : Trace_Event) : list (Z * Z * Z) :=
  if excluded (m_mm opt) (te_ip ev) || excluded (m_mm_from cfg) (te_ip ev) then []
  else (fun t => (i, i, t)) <$> filter (fun t => t <> te_ip ev) (jump_to_addresses mm_to addresses).

Lemma random_jump_import cfg mm_to addresses evs :
  m_mm_to cfg = Some mm_to -> Forall (in_range 32) addresses -> Forall valid_event evs -> instr_count evs < 2 ^ 32 ->
  exists ok s, copy_to_database (hooks := RandomJumpImporter accepts cfg (Some addresses)) opt evs new_Importer = Some (ok, s) /\
    jump_view <$> trace s = added (jumps cfg mm_to addresses) evs 0.
Proof.
  intros Hto Ha Hv Hn. unfold copy_to_database.
  destruct (plain_events (RandomJumpImporter accepts cfg (Some addresses)) opt (fun s => jump_view <$> trace s)
              (jumps cfg mm_to addresses)) with (evs := evs) (l := mkLoop 0 0 0 no_event) (s := new_Importer)
    as (l & s1 & E & Ej & Eo); try done.
  { intros ct i ev s _ Ho. cbn [handle_ip_event RandomJumpImporter]. unfold RandomJumpImporter_handle_ip_event, jumps. rewrite Hto.
    destruct (excluded (m_mm opt) (te_ip ev)); [by exists s; rewrite app_nil_r|].
    destruct (excluded (m_mm_from cfg) (te_ip ev)); [by exists s; rewrite app_nil_r|]. cbn [orb].
    destruct (jump_loop_ok ct i ev (jump_to_addresses mm_to addresses) s) as (s' & -> & E1 & E2); [|].
    { apply Forall_forall. intros t [_ Ht]%list_elem_of_filter. by eapply Forall_forall in Ha. }
    exists s'. split; [done|]. split; [exact E1 | by rewrite E2]. }
  rewrite E. cbn [mbind option_bind negb trace_end_reached v_open_unused_ec_intervals v_add_trace_event RandomJumpImporter].
  unfold close_ec_intervals. cbn [upd_last m_open_ecs]. rewrite Eo. cbn [close_loop mbind option_bind negb].
  case_match; eexists _, _; (split; [done|]); exact Ej.
Qed.
End jumps.
End plain_importers.

(** ** Theorems *)

Section theorems.
Context `{SalConfig} {S : Type} `{!IntervalSet S, !IntervalSetLaws S} (accepts : Row -> bool).

Lemma instruction_import m (opt : Options S) evs s :
  copy_to_database (hooks := InstructionImporter accepts (Some m)) opt evs s =
  copy_to_database (hooks := MemoryImporter accepts) opt (explicit (fetch m) evs) s.
Proof.
  apply import_explicit; try done.
  - apply fetch_implied.
  - intros ct i ev s0 _. apply instruction_event.
Qed.

Lemma register_import cfg ctof m (opt : Options S) evs s :
  32 <= addr_bits -> do_split_registers cfg = true -> (forall r info, ctof !! r = Some info -> info_ok info) ->
  info_ok (reginfo (m_ip_register_id cfg) 32 0) ->
  copy_to_database (hooks := RegisterImporter accepts cfg ctof (Some m)) opt evs s =
  copy_to_database (hooks := MemoryImporter accepts) (without_mm opt) (explicit (register_accesses opt cfg ctof m) evs) s.
Proof.
  intros Hb Hsp Hok Hpc. apply import_explicit; try done.
  - apply register_accesses_implied.
  - intros ct i ev s0 _. by apply register_event.
  - intros s0. cbn [v_add_trace_event RegisterImporter]. apply close_without_mm.
Qed.

(** The table partitions the fault space of a trace into equivalence classes. *)
Definition partitions (opt : Options S) (evs : list Trace_Event) (rows : list Row) : Prop :=
  (forall a i, in_space opt evs a -> 0 <= i < instr_count evs ->
     exists r, filter (covers instr1 instr2 i) (rows_at a rows) = [r]) /\
  (forall r, r ∈ rows -> in_space opt evs (row_address r)) /\
  (forall r i, r ∈ rows -> instr1 r <= i < instr2 r -> (i, row_address r) ∉ accesses opt evs 0 0).

Lemma import_partitions (opt : Options S) evs :
  importable accepts opt evs ->
  exists ok s, copy_to_database (hooks := MemoryImporter accepts) opt evs new_Importer = Some (ok, s) /\
    partitions opt evs (trace s).
Proof.
  intros [Ha Hw Hb Hv Hn Hmm].
  destruct (import_table accepts opt False (fun _ => 0) Ha Hw Hb evs Hv Hn Hmm) as (s & E & _ & Hsp & Hc & Hs & _); [done|].
  eexists _, s. split; [exact E|]. split_and!.
  - intros a i Hin Hi. apply (chain_covers _ _ _ 0 (instr_count evs - 1)); [by apply Hc|lia].
  - exact Hsp.
  - intros r i Hr Hi. by apply (Hs r Hr).
Qed.
End theorems.

(** C16. Faults in code and in registers: the instruction importer and the register
    importer (in its splitting mode) produce exactly the rows the memory importer
    gives for the trace in which every instruction is followed by the fetch of
    its bytes, or by its reads and writes of the selected registers' bytes.  So
    their tables, too, partition the fault space (code bytes or register bytes by
    dynamic instructions) into classes without an access before the last
    instruction. *)
Theorem implicit_access_importers `{SalConfig} {S : Type} `{!IntervalSet S, !IntervalSetLaws S} (accepts : Row -> bool)
    (opt : Options S) (evs : list Trace_Event) m cfg ctof :
  32 <= addr_bits -> do_split_registers cfg = true -> (forall r info, ctof !! r = Some info -> info_ok info) ->
  info_ok (reginfo (m_ip_register_id cfg) 32 0) ->
  let code := explicit (fetch m) evs in
  let regs := explicit (register_accesses opt cfg ctof m) evs in
  let instructions := copy_to_database (hooks := InstructionImporter accepts (Some m)) opt evs new_Importer in
  let registers := copy_to_database (hooks := RegisterImporter accepts cfg ctof (Some m)) opt evs new_Importer in
  instructions = import accepts opt code /\ registers = import accepts (without_mm opt) regs /\
  (importable accepts opt code -> exists ok s, instructions = Some (ok, s) /\ partitions opt code (trace s)) /\
  (importable accepts (without_mm opt) regs ->
     exists ok s, registers = Some (ok, s) /\ partitions (without_mm opt) regs (trace s)).
Proof.
  intros Hb Hsp Hok Hpc. cbv zeta. rewrite instruction_import, register_import by done.
  split; [done|]. split; [done|]. split; apply import_partitions.
Qed.

(** The full-trace table lists every instruction with its address; the random-jump
    table has a row for every selected instruction and every other jump target. *)
Theorem other_importers `{SalConfig} {S : Type} `{!IntervalSet S} (opt : Options S) evs (accepts : Row -> bool)
    (accepts_full : Z * Z * Z -> bool) cfg mm_to addresses :
  (forall r, accepts r = true) -> (forall r, accepts_full r = true) ->
  m_mm_to cfg = Some mm_to -> Forall (in_range 32) addresses -> Forall valid_event evs -> instr_count evs < 2 ^ 32 ->
  (exists s, copy_to_database (hooks := FullTraceImporter accepts_full true) opt evs new_Importer = Some (true, s) /\
     trace s = [] /\
     fulltrace (derived s) = imap (fun i ip => (m_variant_id opt, Z.of_nat i, ip))
                               (te_ip <$> filter (fun ev => is_instr ev = true) evs)) /\
  (exists ok s, copy_to_database (hooks := RandomJumpImporter accepts cfg (Some addresses)) opt evs new_Importer = Some (ok, s) /\
     jump_view <$> trace s = added (jumps opt cfg mm_to addresses) evs 0).
Proof.
  intros Hacc Hfull Hto Ha Hv Hn. split.
  - destruct (full_trace_import opt accepts_full evs Hfull Hv Hn) as (s & E & Ef & Et). exists s.
    split; [exact E|]. split; [exact Et|]. by rewrite Ef, added_full.
  - by apply random_jump_import.
Qed.

(** ** A concrete trace *)

Module ImporterEquivDemo.

Import ListSet ImporterDemo.
#[local] Existing Instance sal_32.

(** [ADD EAX, 1], two bytes long, at the first address. *)
Definition instrs : InstrMap := {[1000 := mkInstr 1 1000 2 false [19] [19]]}.
Definition eax : reginfo_t := reginfo RID_CAX 32 0.
Definition ctof : gmap Z reginfo_t := {[19 := eax]}.
Definition cfg : RegisterConfig := mkRegConfig false true RID_PC [RID_CAX].
Definition all_code : Options (list Z) := mkOptions 1 None WRITE true true false [].

Lemma ctof_ok r info : ctof !! r = Some info -> info_ok info.
Proof.
  unfold ctof. intros Hr. apply lookup_singleton_Some in Hr as [_ <-]. split_and!; vm_compute; congruence.
Qed.

Example code_rows :
  match copy_to_database (hooks := InstructionImporter (fun _ => true) (Some instrs)) all_code evs new_Importer with
  | Some (_, s) => (fun r => (row_address r, instr1 r, instr2 r)) <$> trace s
  | None => []
  end = [(1000, 0, 0); (1001, 0, 0); (1000, 1, 2); (1001, 1, 2)].
Proof. vm_compute. reflexivity. Qed.

Lemma importable_code : importable (fun _ => true) all_code (explicit (fetch instrs) evs).
Proof.
  split; [done|done|simpl; lia| |vm_compute; done|constructor].
  vm_compute explicit.
  repeat apply Forall_cons_2; try apply Forall_nil_2;
      (split; [intros a Ha; simpl in Ha; simplify_eq; simpl; lia|intros d Hd; simpl in Hd; simplify_eq; lia]).
Qed.

Lemma implicit_access_importers_witness :
  exists ok s,
    copy_to_database (hooks := InstructionImporter (fun _ => true) (Some instrs)) all_code evs new_Importer = Some (ok, s) /\
    partitions all_code (explicit (fetch instrs) evs) (trace s).
Proof.
  refine (proj1 (proj2 (proj2 (implicit_access_importers (fun _ => true) all_code evs instrs cfg ctof _ _ ctof_ok _))) importable_code).
  - simpl. lia.
  - reflexivity.
  - split_and!; vm_compute; congruence.
Defined.

End ImporterEquivDemo.
