(* ===== verification/AdvancedImporter.v ===== *)
(** * Memory import with branch history

    [tools/import-trace/AdvancedMemoryImporter.cc]: the memory importer with two more
    columns, the opcode of the accessing instruction and a mask of the 16 branch
    decisions before and the 16 after the access.  As the latter are not known
    yet, accesses are delayed until they are.

    The theorems: the delay is invisible.  The importer gives the table of one that
    knows all branch decisions in advance and never waits, and without the two
    columns it is the memory importer's table. *)
From S2P Require Import Prelude Events MemoryMap SyncContainers Importer ImporterTheorems Importers.

Definition BRANCH_WINDOW_SIZE : Z := 16.

(** The loop over [pos]; [None]: an index out of range. *)
Definition branchmask (branches : list bool) (before : Z) : option Z :=
  let pos := Z.max (- BRANCH_WINDOW_SIZE) (- s32 before) in
  let maxpos := Z.min BRANCH_WINDOW_SIZE (s32 (Z.of_nat (length branches)) - s32 before) in
  foldl (fun mask pos =>
           mask ← mask;
           taken ← branches !! Z.to_nat (u32 (before + pos));
           Some (Z.lor mask (u32 (Z.shiftl (Z.b2z taken) (16 - pos - 1)))))
    (Some 0) (seqZ pos (maxpos - pos)).

Definition upd_delayed (es : list DelayedTraceEntry) (d : Derived) : Derived :=
  mkDerived (has_disas d) (m_last_was_conditional_branch d) (m_ip_jump_not_taken d) (branches_taken d) es (m_cur_branchmask d)
    (fulltrace d).
Definition upd_branchmask (m : Z) (d : Derived) : Derived :=
  mkDerived (has_disas d) (m_last_was_conditional_branch d) (m_ip_jump_not_taken d) (branches_taken d) (delayed_entries d) m
    (fulltrace d).

(** The previous instruction's branch decision. *)
Definition note_branch (ip : Z) (d : Derived) : Derived :=
  if m_last_was_conditional_branch d
  then mkDerived (has_disas d) false (m_ip_jump_not_taken d)
         (branches_taken d ++ [negb (ip =? m_ip_jump_not_taken d)]) (delayed_entries d) (m_cur_branchmask d) (fulltrace d)
  else d.

(** The current instruction, after disassembling. *)
Definition note_instr (opcode : option Instr) (d : Derived) : Derived :=
  match opcode with
  | Some i =>
      if conditional_branch i
      then mkDerived true true (u32 (i_address i + i_length i)) (branches_taken d) (delayed_entries d) (m_cur_branchmask d) (fulltrace d)
      else mkDerived true (m_last_was_conditional_branch d) (m_ip_jump_not_taken d) (branches_taken d) (delayed_entries d)
             (m_cur_branchmask d) (fulltrace d)
  | None => mkDerived true (m_last_was_conditional_branch d) (m_ip_jump_not_taken d) (branches_taken d) (delayed_entries d)
              (m_cur_branchmask d) (fulltrace d)
  end.

Section advanced.
Context `{SalConfig} {S : Type} `{!IntervalSet S} (accepts : Row -> bool).
Implicit Type (opt : Options S).

Definition Advanced_database_insert_data : InsertData := fun ev is_fake s =>
  let entries := delayed_entries (derived s) in
  if is_fake then Some [None; None]
  else
    front ← head entries;
    if te_ip ev =? te_ip (d_ev front) then Some [Some (d_opcode front); Some (m_cur_branchmask (derived s))] else None.

Definition Advanced_add : AddEvent (S := S) := add_trace_event accepts Advanced_database_insert_data.

(** The loop over [delayed_entries], which loses its front at the end of each
    iteration.  The result of the upcall is ignored. *)
Fixpoint insert_delayed opt (finalizing : bool) (entries : list DelayedTraceEntry) (s : Importer) : option Importer :=
  match entries with
  | [] => Some s
  | it :: rest =>
      if (u32 (branches_before it + BRANCH_WINDOW_SIZE) <=? Z.of_nat (length (branches_taken (derived s)))) || finalizing then
        mask ← (if branches_before it =? 2 ^ 32 - 1 then Some (m_cur_branchmask (derived s))
                else branchmask (branches_taken (derived s)) (branches_before it));
        let s := upd_derived (upd_branchmask mask (derived s)) s in
        '(_, s) ← MemoryImporter_handle_mem_event Advanced_add opt (d_curtime it) (d_instr it) (d_ev it) s;
        insert_delayed opt finalizing rest (upd_derived (upd_delayed rest (derived s)) s)
      else Some s
  end.

Definition insert_delayed_entries opt (finalizing : bool) (s : Importer) : option Importer :=
  insert_delayed opt finalizing (delayed_entries (derived s)) s.

Definition Advanced_handle_ip_event (elf : option InstrMap) opt (curtime instr : Z) (ev : Trace_Event) (s : Importer)
    : option (bool * Importer) :=
  s ← insert_delayed_entries opt false (upd_derived (note_branch (te_ip ev) (derived s)) s);
  match elf with
  | None => Some (false, s)
  | Some instr_map => Some (true, upd_derived (note_instr (find_instr instr_map (te_ip ev)) (derived s)) s)
  end.

(** [None]: no disassembler yet, or [at] throws. *)
Definition Advanced_handle_mem_event (elf : option InstrMap) opt (curtime instr : Z) (ev : Trace_Event) (s : Importer)
    : option (bool * Importer) :=
  let d := derived s in
  if negb (has_disas d) then None
  else
    instr_map ← elf;
    opcode ← find_instr instr_map (te_ip ev);
    let entry := mkDelayed curtime instr ev (i_opcode opcode) (u32 (Z.of_nat (length (branches_taken d)))) in
    Some (true, upd_derived (upd_delayed (delayed_entries d ++ [entry]) d) s).

Definition AdvancedMemoryImporter (elf : option InstrMap) : ImporterHooks := {|
  v_add_trace_event := Advanced_add;
  v_open_unused_ec_intervals := open_unused_ec_intervals;
  handle_ip_event := Advanced_handle_ip_event elf;
  handle_mem_event := Advanced_handle_mem_event elf;
  trace_end_reached opt s := s ← insert_delayed_entries opt true s; Some (true, s)
|}.

(** ** The reference: all decisions [D] are known *)

(** The columns of a row for an access with this opcode and history. *)
Definition known_columns (opcode mask : Z) : InsertData :=
  fun _ is_fake _ => Some (if is_fake then [None; None] else [Some opcode; Some mask]).

Definition Oracle_handle_ip_event (m : InstrMap) opt (curtime instr : Z) (ev : Trace_Event) (s : Importer)
    : option (bool * Importer) :=
  Some (true, upd_derived (note_instr (find_instr m (te_ip ev)) (note_branch (te_ip ev) (derived s))) s).

Definition Oracle_handle_mem_event (D : list bool) (m : InstrMap) opt (curtime instr : Z) (ev : Trace_Event) (s : Importer)
    : option (bool * Importer) :=
  if negb (has_disas (derived s)) then None
  else
    opcode ← find_instr m (te_ip ev);
    mask ← branchmask D (Z.of_nat (length (branches_taken (derived s))));
    MemoryImporter_handle_mem_event (add_trace_event accepts (known_columns (i_opcode opcode) mask)) opt curtime instr ev s.

Definition Oracle (D : list bool) (m : InstrMap) : ImporterHooks := {|
  v_add_trace_event := add_trace_event accepts (known_columns 0 0);
  v_open_unused_ec_intervals := open_unused_ec_intervals;
  handle_ip_event := Oracle_handle_ip_event m;
  handle_mem_event := Oracle_handle_mem_event D m;
  trace_end_reached opt s := Some (true, s)
|}.

(** The branch decisions of a trace: those of its instructions' derived state. *)
Fixpoint decisions_from (m : InstrMap) (evs : list Trace_Event) (d : Derived) : list bool :=
  match evs with
  | [] => branches_taken d
  | ev :: evs =>
      match te_memaddr ev with
      | None => decisions_from m evs (note_instr (find_instr m (te_ip ev)) (note_branch (te_ip ev) d))
      | Some _ => decisions_from m evs d
      end
  end.

Definition decisions (m : InstrMap) (evs : list Trace_Event) : list bool := decisions_from m evs new_Derived.
End advanced.

(** ** The branch mask *)

Lemma mask_loop (branches : list bool) before n : forall p m0,
  0 <= before + p -> before + p + Z.of_nat n <= Z.of_nat (length branches) -> Z.of_nat (length branches) < 2 ^ 31 ->
  -16 <= p -> p + Z.of_nat n <= 16 -> in_range 32 m0 ->
  exists m, foldl (fun mask pos =>
           mask ← mask;
           taken ← branches !! Z.to_nat (u32 (before + pos));
           Some (Z.lor mask (u32 (Z.shiftl (Z.b2z taken) (16 - pos - 1)))))
    (Some m0) (seqZ p (Z.of_nat n)) = Some m /\ in_range 32 m /\
    forall k, 0 <= k -> Z.testbit m k =
      Z.testbit m0 k || ((p <=? 15 - k) && (15 - k <? p + Z.of_nat n) && default false (branches !! Z.to_nat (before + 15 - k))).
Proof.
  induction n as [|n IH]; intros p m0 Hlo Hhi Hlen Hp Hp' Hr.
  { exists m0. split; [done|]. split; [done|]. intros k Hk.
    change (Z.of_nat 0) with 0. rewrite Z.add_0_r.
    destruct (Z.leb_spec p (15 - k)), (Z.ltb_spec (15 - k) p); try lia; cbn [andb]; by rewrite orb_false_r. }
  rewrite seqZ_cons by lia. replace (Z.pred (Z.of_nat (S n))) with (Z.of_nat n) by lia. cbn [foldl mbind option_bind].
  rewrite u32_small by lia. destruct (lookup_lt_is_Some_2 branches (Z.to_nat (before + p))) as [taken Ht]; [lia|].
  rewrite Ht. cbn [mbind option_bind].
  set (bit := u32 (Z.shiftl (Z.b2z taken) (16 - p - 1))).
  assert (forall k, 0 <= k -> Z.testbit bit k = (k =? 15 - p) && taken) as Hbit.
  { intros k Hk. unfold bit. assert (in_range 32 (Z.shiftl (Z.b2z taken) (16 - p - 1))) as Hs.
    { unfold in_range. rewrite Z.shiftl_mul_pow2 by lia. pose proof (Z.pow_le_mono_r 2 (16 - p - 1) 31 ltac:(lia) ltac:(lia)).
      pose proof (Z.pow_pos_nonneg 2 (16 - p - 1) ltac:(lia) ltac:(lia)). destruct taken; simpl; lia. }
    unfold u32. rewrite wrap_small by done. rewrite Z.shiftl_spec by lia. destruct (Z.eqb_spec k (15 - p)) as [->|Hne].
    - replace (15 - p - (16 - p - 1)) with 0 by lia. apply Z.b2z_bit0.
    - destruct (Z.lt_ge_cases k (16 - p - 1)); [by rewrite Z.testbit_neg_r by lia|].
      destruct taken; simpl; [|apply Z.bits_0]. apply (Z.pow2_bits_false 0). lia. }
  assert (in_range 32 (Z.lor m0 bit)) as Hlor.
  { unfold in_range in *. split; [apply Z.lor_nonneg; split; [lia | apply u32_range]|].
    assert (Z.lor m0 bit = wrap 32 (Z.lor m0 bit)) as ->; [|apply u32_range].
    apply Z.bits_inj'. intros k Hk. unfold wrap. destruct (Z.lt_ge_cases k 32); [by rewrite Z.mod_pow2_bits_low|].
    rewrite Z.mod_pow2_bits_high by lia. rewrite Z.lor_spec, Hbit by lia. destruct (Z.eqb_spec k (15 - p)); [lia|].
    rewrite orb_false_r. destruct (decide (m0 = 0)) as [->|]; [apply Z.bits_0|].
    apply Z.bits_above_log2; [lia|]. apply Z.log2_lt_pow2; [lia|]. pose proof (Z.pow_le_mono_r 2 32 k). lia. }
  destruct (IH (Z.succ p) (Z.lor m0 bit)) as (m & -> & Hm & Hk); [lia|lia|lia|lia|lia|done|].
  exists m. split; [done|]. split; [done|]. intros k Hk0. rewrite Hk, Z.lor_spec, Hbit by done.
  destruct (Z.eqb_spec k (15 - p)) as [->|Hne].
  - replace (15 - (15 - p)) with p by lia. rewrite (proj2 (Z.leb_gt (Z.succ p) p)) by lia.
    rewrite Z.leb_refl, (proj2 (Z.ltb_lt p (p + Z.of_nat (S n)))) by lia. cbn [andb].
    replace (before + 15 - (15 - p)) with (before + p) by lia. rewrite Ht. simpl. by rewrite orb_false_r.
  - cbn [andb]. rewrite orb_false_r. f_equal. f_equal.
    destruct (Z.leb_spec (Z.succ p) (15 - k)), (Z.leb_spec p (15 - k)),
      (Z.ltb_spec (15 - k) (Z.succ p + Z.of_nat n)), (Z.ltb_spec (15 - k) (p + Z.of_nat (S n))); try done; lia.
Qed.

(** Bit [15 - j] is the decision of the [j]-th branch from the access on. *)
Lemma branchmask_spec branches before :
  0 <= before <= Z.of_nat (length branches) -> Z.of_nat (length branches) < 2 ^ 31 ->
  exists m, branchmask branches before = Some m /\ in_range 32 m /\
    forall k, 0 <= k < 32 -> Z.testbit m k = (0 <=? before + 15 - k) && default false (branches !! Z.to_nat (before + 15 - k)).
Proof.
  intros Hb Hl. unfold branchmask, BRANCH_WINDOW_SIZE, s32. rewrite !wrap_small by (unfold in_range; lia).
  replace (before + 2 ^ 31 - 2 ^ 31) with before by lia.
  replace (Z.of_nat (length branches) + 2 ^ 31 - 2 ^ 31) with (Z.of_nat (length branches)) by lia.
  set (p := Z.max (-(16)) (- before)). set (q := Z.min 16 (Z.of_nat (length branches) - before)).
  replace (q - p) with (Z.of_nat (Z.to_nat (q - p))) by lia.
  destruct (mask_loop branches before (Z.to_nat (q - p)) p 0) as (m & -> & Hm & Hk); [lia|lia|lia|lia|lia|unfold in_range; lia|].
  exists m. split; [done|]. split; [done|]. intros k Hk0. rewrite Hk, Z.bits_0 by lia. cbn [orb].
  destruct (Z.leb_spec p (15 - k)), (Z.ltb_spec (15 - k) (p + Z.of_nat (Z.to_nat (q - p)))), (Z.leb_spec 0 (before + 15 - k));
    cbn [andb]; try done; try lia.
  rewrite (lookup_ge_None_2 branches); [done|lia].
Qed.

(** Later decisions do not change a complete mask. *)
Lemma branchmask_prefix B D before :
  B `prefix_of` D -> 0 <= before <= Z.of_nat (length B) -> Z.of_nat (length D) < 2 ^ 31 ->
  before + BRANCH_WINDOW_SIZE <= Z.of_nat (length B) \/ B = D -> branchmask B before = branchmask D before.
Proof.
  intros [R ->] Hb Hl [Hw|He]; [|by rewrite <- He]. rewrite length_app in Hl. unfold BRANCH_WINDOW_SIZE in Hw.
  destruct (branchmask_spec B before) as (m & -> & Hm & Hk); [lia|lia|].
  destruct (branchmask_spec (B ++ R) before) as (m' & -> & Hm' & Hk'); [rewrite length_app; lia|rewrite length_app; lia|].
  f_equal. rewrite <- (wrap_small 32 m), <- (wrap_small 32 m') by done. apply Z.bits_inj'. intros k Hk0. unfold wrap.
  destruct (Z.lt_ge_cases k 32); [|by rewrite !Z.mod_pow2_bits_high by lia]. rewrite !Z.mod_pow2_bits_low by lia.
  rewrite Hk, Hk' by lia. destruct (Z.leb_spec 0 (before + 15 - k)); [|done]. cbn [andb]. by rewrite lookup_app_l by lia.
Qed.

(** ** Simulation *)

Section simulation.
Context `{SalConfig} {S : Type} `{!IntervalSet S} (accepts : Row -> bool) (accepts_all : forall r, accepts r = true).
Context (opt : Options S).

Abbreviation known opcode mask := (add_trace_event (S := S) accepts (known_columns opcode mask)).

Lemma getOpenEC_derived a d s :
  getOpenEC a (upd_derived d s) = ((getOpenEC a s).1, upd_derived d (getOpenEC a s).2).
Proof. unfold getOpenEC. cbn [m_open_ecs upd_derived]. by destruct (map_find a (m_open_ecs s)). Qed.

Lemma getOpenEC_keeps a s : derived (getOpenEC a s).2 = derived s /\ m_time_trace_start (getOpenEC a s).2 = m_time_trace_start s.
Proof. unfold getOpenEC. by destruct (map_find a (m_open_ecs s)). Qed.

(** A row of the front entry, in both importers. *)
Lemma advanced_add front rest b e ev s d :
  delayed_entries (derived s) = front :: rest -> te_ip ev = te_ip (d_ev front) ->
  exists s', Advanced_add accepts opt b e ev false s = Some (true, s') /\
    known (d_opcode front) (m_cur_branchmask (derived s)) opt b e ev false (upd_derived d s) = Some (true, upd_derived d s') /\
    derived s' = derived s /\ m_time_trace_start s' = m_time_trace_start s.
Proof.
  intros Hd He. unfold Advanced_add, add_trace_event. destruct (_ && _); [by exists s|].
  unfold Advanced_database_insert_data, known_columns. rewrite Hd, He. cbn [head mbind option_bind]. rewrite Z.eqb_refl.
  cbn [mbind option_bind]. rewrite !accepts_all. by eexists.
Qed.

Lemma advanced_mem_loop front rest ct i ev n : forall a s d,
  delayed_entries (derived s) = front :: rest -> te_ip ev = te_ip (d_ev front) ->
  exists s', mem_loop (Advanced_add accepts) opt ct i ev a n s = Some (true, s') /\
    mem_loop (known (d_opcode front) (m_cur_branchmask (derived s))) opt ct i ev a n (upd_derived d s)
      = Some (true, upd_derived d s') /\
    derived s' = derived s /\ m_time_trace_start s' = m_time_trace_start s.
Proof.
  induction n as [|n IH]; intros a s d Hd He; [by exists s|]. cbn [mem_loop].
  destruct (match m_mm opt with Some mm => negb (mm_isMatching a 1 mm) | None => false end); [by apply IH|].
  rewrite getOpenEC_derived. destruct (getOpenEC_keeps a s) as [Eg Et]. destruct (getOpenEC a s) as [l s1]. cbn [fst snd dyninstr] in *.
  rewrite <- Eg in Hd. destruct (dyninstr l >? i).
  - destruct (IH (wrap addr_bits (a + 1)) s1 d Hd He) as (s' & E1 & E2 & E3 & E4). exists s'. rewrite <- Eg, <- Et. auto.
  - destruct (advanced_add front rest l (mkMargin i (te_ip ev) ct)
      (mkTE (te_ip ev) (te_time_delta ev) (Some a) 1 (te_accesstype ev) (te_trace_ext ev)) s1 d Hd He) as (s2 & E1 & E2 & E3 & E4).
    rewrite <- Eg, <- Et. rewrite E1, E2. cbn [mbind option_bind].
    destruct (IH (wrap addr_bits (a + 1)) (newOpenEC a (u64 (ct + 1)) (u32 (i + 1)) (te_ip ev) s2) d) as (s' & E5 & E6 & E7 & E8);
      [cbn; by rewrite E3 | done |].
    exists s'. split; [exact E5|]. cbn [newOpenEC upd_open_ecs derived m_time_trace_start] in E6, E7, E8. rewrite E3 in E6.
    split; [exact E6|]. by rewrite E7, E8, E3, E4.
Qed.

(** The reference catches up with the delayed entries. *)
Fixpoint catch_up (D : list bool) (es : list DelayedTraceEntry) (t : Importer) : option Importer :=
  match es with
  | [] => Some t
  | it :: es =>
      mask ← branchmask D (branches_before it);
      '(_, t) ← MemoryImporter_handle_mem_event (known (d_opcode it) mask) opt (d_curtime it) (d_instr it) (d_ev it) t;
      catch_up D es t
  end.

Lemma catch_up_app D es es' t :
  catch_up D (es ++ es') t = t ← catch_up D es t; catch_up D es' t.
Proof.
  revert t. induction es as [|it es IH]; intros t; [done|]. cbn [catch_up app].
  destruct (branchmask D _) as [mask|]; cbn [mbind option_bind]; [|done].
  destruct (MemoryImporter_handle_mem_event _ _ _ _ _ _) as [[ok t1]|]; cbn [mbind option_bind]; [apply IH|done].
Qed.

(** What both importers know about branches. *)
Definition history (d : Derived) : bool * bool * Z * list bool :=
  (has_disas d, m_last_was_conditional_branch d, m_ip_jump_not_taken d, branches_taken d).

Lemma insert_delayed_sim D final es : forall s d t,
  delayed_entries (derived s) = es -> catch_up D es (upd_derived d s) = Some t ->
  branches_taken (derived s) `prefix_of` D -> Z.of_nat (length D) < 2 ^ 31 ->
  Forall (fun it => 0 <= branches_before it <= Z.of_nat (length (branches_taken (derived s)))) es ->
  (final = true -> branches_taken (derived s) = D) ->
  exists s', insert_delayed accepts opt final es s = Some s' /\
    catch_up D (delayed_entries (derived s')) (upd_derived d s') = Some t /\
    history (derived s') = history (derived s) /\ m_time_trace_start s' = m_time_trace_start s /\
    (final = true -> delayed_entries (derived s') = []) /\
    Forall (fun it => 0 <= branches_before it <= Z.of_nat (length (branches_taken (derived s')))) (delayed_entries (derived s')).
Proof.
  induction es as [|it es IH]; intros s d t Hd Hc Hp Hl Hb Hf.
  { exists s. rewrite Hd. split_and!; done. }
  pose proof (prefix_length _ _ Hp) as Hpl. pose proof Hb as Hball. apply Forall_cons in Hb as [Hit Hb].
  cbn [insert_delayed]. unfold BRANCH_WINDOW_SIZE. rewrite u32_small by lia.
  destruct ((branches_before it + 16 <=? Z.of_nat (length (branches_taken (derived s)))) || final) eqn:Ego.
  2:{ exists s. rewrite Hd. apply orb_false_iff in Ego as [_ ->]. split_and!; done. }
  rewrite (proj2 (Z.eqb_neq _ _)) by lia.
  assert (branches_before it + BRANCH_WINDOW_SIZE <= Z.of_nat (length (branches_taken (derived s))) \/ branches_taken (derived s) = D) as Hgo.
  { apply orb_true_iff in Ego as [Ego%Z.leb_le|Ego]; [by left | right; auto]. }
  rewrite (branchmask_prefix _ D) by done.
  cbn [catch_up] in Hc. apply bind_Some in Hc as (mask & Em & Hc). rewrite Em. cbn [mbind option_bind].
  apply bind_Some in Hc as ([ok t1] & Et & Hc).
  set (s1 := upd_derived (upd_branchmask mask (derived s)) s).
  unfold MemoryImporter_handle_mem_event in *. cbv zeta in Et |- *.
  destruct (advanced_mem_loop it es (d_curtime it) (d_instr it) (d_ev it)
      (Z.to_nat (wrap addr_bits (u64 (default 0 (te_memaddr (d_ev it)) + te_width (d_ev it))) - wrap addr_bits (default 0 (te_memaddr (d_ev it)))))
      (wrap addr_bits (default 0 (te_memaddr (d_ev it)))) s1 d Hd eq_refl) as (s2 & E1 & E2 & E3 & E4).
  rewrite E1. cbn [mbind option_bind].
  change (m_cur_branchmask (derived s1)) with mask in E2. change (upd_derived d s1) with (upd_derived d s) in E2.
  rewrite E2 in Et. injection Et as <- <-.
  destruct (IH (upd_derived (upd_delayed es (derived s2)) s2) d t) as (s' & E5 & E6 & E7 & E8 & E9 & E10).
  - done.
  - done.
  - cbn. by rewrite E3.
  - done.
  - cbn. by rewrite E3.
  - cbn. by rewrite E3.
  - exists s'. split; [exact E5|]. split; [exact E6|]. split; [rewrite E7; cbn; by rewrite E3|]. split; [by rewrite E8|]. done.
Qed.

(** The reference does not look at what derived classes know. *)
Lemma known_mem_loop o k ct i ev n : forall a s d,
  exists s', mem_loop (known o k) opt ct i ev a n s = Some (true, s') /\
    mem_loop (known o k) opt ct i ev a n (upd_derived d s) = Some (true, upd_derived d s') /\
    derived s' = derived s /\ m_time_trace_start s' = m_time_trace_start s.
Proof.
  induction n as [|n IH]; intros a s d; [by exists s|]. cbn [mem_loop].
  destruct (match m_mm opt with Some mm => negb (mm_isMatching a 1 mm) | None => false end); [apply IH|].
  rewrite getOpenEC_derived. destruct (getOpenEC_keeps a s) as [Eg Et]. destruct (getOpenEC a s) as [l s1]. cbn [fst snd dyninstr] in *.
  rewrite <- Eg, <- Et. destruct (dyninstr l >? i); [apply IH|].
  unfold add_trace_event, known_columns. destruct (_ && _); cbn [mbind option_bind].
  - destruct (IH (wrap addr_bits (a + 1)) (newOpenEC a (u64 (ct + 1)) (u32 (i + 1)) (te_ip ev) s1) d) as (s' & E1 & E2 & E3 & E4).
    exists s'. auto.
  - rewrite !accepts_all. cbn [mbind option_bind].
    match goal with |- context [newOpenEC a ?x ?y ?z (upd_trace ?r ?c s1)] =>
      destruct (IH (wrap addr_bits (a + 1)) (newOpenEC a x y z (upd_trace r c s1)) d) as (s' & E1 & E2 & E3 & E4) end.
    exists s'. auto.
Qed.

Lemma catch_up_derived D es : forall s t d,
  catch_up D es s = Some t -> catch_up D es (upd_derived d s) = Some (upd_derived d t).
Proof.
  induction es as [|it es IH]; intros s t d Hc; [by injection Hc as <-|]. cbn [catch_up] in *.
  apply bind_Some in Hc as (mask & -> & Hc). cbn [mbind option_bind]. apply bind_Some in Hc as ([ok t1] & Et & Hc).
  unfold MemoryImporter_handle_mem_event in *. cbv zeta in Et |- *.
  edestruct known_mem_loop as (s' & E1 & E2 & _). rewrite E1 in Et. injection Et as <- <-. rewrite E2. cbn [mbind option_bind].
  by apply IH.
Qed.

Lemma decisions_prefix m evs : forall d, branches_taken d `prefix_of` decisions_from m evs d.
Proof.
  induction evs as [|ev evs IH]; intros d; cbn [decisions_from]; [done|]. destruct (te_memaddr ev); [apply IH|].
  etrans; [|apply IH]. unfold note_instr, note_branch. repeat case_match; cbn; try done; apply prefix_app_r; done.
Qed.

Record sim (m : InstrMap) (D : list bool) (evs : list Trace_Event) (s t : Importer) : Prop := mkSim {
  sim_catch : catch_up D (delayed_entries (derived s)) (upd_derived (derived t) s) = Some t;
  sim_history : history (derived s) = history (derived t);
  sim_decisions : decisions_from m evs (derived t) = D;
  sim_before : Forall (fun it => 0 <= branches_before it <= Z.of_nat (length (branches_taken (derived s)))) (delayed_entries (derived s));
  sim_start : m_time_trace_start t = m_time_trace_start s
}.

Lemma history_eq d d' :
  history d = history d' ->
  has_disas d = has_disas d' /\ m_last_was_conditional_branch d = m_last_was_conditional_branch d' /\
  m_ip_jump_not_taken d = m_ip_jump_not_taken d' /\ branches_taken d = branches_taken d'.
Proof. unfold history. by intros [= -> -> -> ->]. Qed.

(** One access: delayed here, handled there. *)
Lemma mem_event_sim m D ev evs s t ct i :
  sim m D (ev :: evs) s t -> Z.of_nat (length D) < 2 ^ 31 -> is_Some (te_memaddr ev) ->
  match Advanced_handle_mem_event (Some m) opt ct i ev s, Oracle_handle_mem_event accepts D m opt ct i ev t with
  | Some (true, s1), Some (true, t1) => sim m D evs s1 t1 /\ m_time_trace_start s1 = m_time_trace_start s
  | None, None => True
  | _, _ => False
  end.
Proof.
  intros [Hc Hh Hd Hb Hs] Hl [a Ha]. destruct (history_eq _ _ Hh) as (E1 & E2 & E3 & E4).
  unfold Advanced_handle_mem_event, Oracle_handle_mem_event. cbv zeta. rewrite E1. destruct (has_disas (derived t)); cbn [negb]; [|done].
  cbn [mbind option_bind]. destruct (find_instr m (te_ip ev)) as [opcode|]; cbn [mbind option_bind]; [|done].
  cbn [decisions_from] in Hd. rewrite Ha in Hd. pose proof (decisions_prefix m evs (derived t)) as Hp. rewrite Hd in Hp.
  pose proof (prefix_length _ _ Hp) as Hpl.
  destruct (branchmask_spec D (Z.of_nat (length (branches_taken (derived t))))) as (mask & Em & _); [lia|lia|].
  rewrite Em. cbn [mbind option_bind]. unfold MemoryImporter_handle_mem_event at 1. cbv zeta.
  edestruct known_mem_loop with (d := new_Derived) as (t1 & Et & _ & Etd & Ets). rewrite Et. split; [|done]. split.
  - cbn [derived upd_derived upd_delayed delayed_entries]. rewrite catch_up_app, Etd.
    change (upd_derived (derived t) (upd_derived _ s)) with (upd_derived (derived t) s). rewrite Hc. cbn [mbind option_bind catch_up branches_before].
    rewrite u32_small, E4, Em by (rewrite E4; lia). cbn [mbind option_bind d_opcode d_curtime d_instr d_ev].
    unfold MemoryImporter_handle_mem_event. cbv zeta. rewrite Et. done.
  - rewrite Etd. exact Hh.
  - by rewrite Etd.
  - cbn. apply Forall_app. split; [done|]. apply Forall_singleton. cbn. rewrite u32_small by (rewrite E4; lia). lia.
  - cbn. by rewrite Ets.
Qed.

(** An instruction: delayed accesses are handled here. *)
Lemma ip_event_sim m D ev evs s t ct i :
  sim m D (ev :: evs) s t -> Z.of_nat (length D) < 2 ^ 31 -> te_memaddr ev = None ->
  exists s1 t1, Advanced_handle_ip_event accepts (Some m) opt ct i ev s = Some (true, s1) /\
    Oracle_handle_ip_event m opt ct i ev t = Some (true, t1) /\ sim m D evs s1 t1 /\
    m_time_trace_start s1 = m_time_trace_start s.
Proof.
  intros [Hc Hh Hd Hb Hs] Hl Ha. destruct (history_eq _ _ Hh) as (E1 & E2 & E3 & E4).
  cbn [decisions_from] in Hd. rewrite Ha in Hd. unfold Advanced_handle_ip_event, Oracle_handle_ip_event, insert_delayed_entries.
  set (s0 := upd_derived (note_branch (te_ip ev) (derived s)) s). set (dt := note_branch (te_ip ev) (derived t)) in *.
  assert (history (derived s0) = history dt) as Hh0.
  { unfold s0, dt, note_branch, history. cbn [derived upd_derived]. rewrite E2.
    destruct (m_last_was_conditional_branch (derived t)) eqn:Elast;
      cbn [has_disas m_last_was_conditional_branch m_ip_jump_not_taken branches_taken]; by rewrite E1, ?E2, E3, E4, ?Elast. }
  destruct (history_eq _ _ Hh0) as (F1 & F2 & F3 & F4).
  assert (delayed_entries (derived s0) = delayed_entries (derived s)) as Hde by (unfold s0, note_branch; cbn; by case_match).
  assert (branches_taken (derived s) `prefix_of` branches_taken (derived s0)) as Hpre.
  { unfold s0, note_branch. cbn. case_match; [by apply prefix_app_r | done]. }
  set (dt1 := note_instr (find_instr m (te_ip ev)) dt) in *.
  assert (branches_taken dt1 = branches_taken dt) as Hbt by (unfold dt1, note_instr; repeat case_match; done).
  pose proof (decisions_prefix m evs dt1) as Hp. rewrite Hd, Hbt in Hp.
  destruct (insert_delayed_sim D false (delayed_entries (derived s0)) s0 dt1 (upd_derived dt1 t)) as (s1 & G1 & G2 & G3 & G4 & _ & G6).
  - done.
  - rewrite Hde. change (upd_derived dt1 s0) with (upd_derived dt1 (upd_derived (derived t) s)). by apply catch_up_derived.
  - by rewrite F4.
  - done.
  - rewrite Hde. eapply Forall_impl; [exact Hb|]. intros it [? ?]. pose proof (prefix_length _ _ Hpre). lia.
  - done.
  - rewrite G1. cbn [mbind option_bind]. eexists _, _. split; [done|]. split; [done|]. split; [|cbn; by rewrite G4].
    rewrite Hh0 in G3. destruct (history_eq _ _ G3) as (K1 & K2 & K3 & K4). split.
    + cbn [derived upd_derived].
      assert (delayed_entries (note_instr (find_instr m (te_ip ev)) (derived s1)) = delayed_entries (derived s1)) as ->
        by (unfold note_instr; repeat case_match; done).
      exact G2.
    + cbn [derived upd_derived]. unfold dt1, note_instr, history. repeat case_match; cbn; congruence.
    + exact Hd.
    + cbn [derived upd_derived]. unfold note_instr. repeat case_match; exact G6.
    + cbn. by rewrite G4.
Qed.

(** The time stamp of an event: the start of the trace is known once accesses
    are delayed. *)
Definition stamped (ev : Trace_Event) (s : Importer) : Prop :=
  m_time_trace_start s <> 0 \/
  (delayed_entries (derived s) = [] /\ exists d, te_time_delta ev = Some d /\ 0 < d < 2 ^ 64).

Lemma time_sim m D evs ev l s t :
  sim m D evs s t -> stamped ev s -> (forall d, te_time_delta ev = Some d -> 0 <= d) ->
  let stamp (x : Importer) :=
    match te_time_delta ev with
    | Some d => if d >=? 0 then Some (u64 (curtime l + d), if m_time_trace_start x =? 0 then upd_trace_start (u64 d) x else x) else None
    | None => Some (curtime l, x)
    end in
  exists ct s1 t1, stamp s = Some (ct, s1) /\ stamp t = Some (ct, t1) /\ sim m D evs s1 t1 /\ m_time_trace_start s1 <> 0.
Proof.
  intros Hsim Hst Hd. cbv zeta. pose proof (sim_start _ _ _ _ _ Hsim) as Hstart.
  destruct Hst as [Hne|[Hdel (d & Ed & Hd0)]].
  - rewrite Hstart, (proj2 (Z.eqb_neq _ _)) by done. destruct (te_time_delta ev) as [d|].
    + pose proof (Hd d eq_refl). rewrite (proj2 (Z.geb_le d 0)) by lia. by eexists _, s, t.
    + by eexists _, s, t.
  - rewrite Ed, Hstart, (proj2 (Z.geb_le d 0)) by lia. destruct (Z.eqb_spec (m_time_trace_start s) 0) as [Hz|Hz].
    + eexists _, _, _. split; [done|]. split; [done|]. destruct Hsim as [Hc Hh Hdec Hb Hs]. split.
      * split; try done. cbn [derived upd_trace_start]. rewrite Hdel in *. cbn [catch_up] in *. injection Hc as Hc. by rewrite <- Hc.
      * cbn. rewrite u64_small by lia. lia.
    + by eexists _, s, t.
Qed.

Lemma import_events_sim m D evs : forall l s t,
  sim m D evs s t -> Z.of_nat (length D) < 2 ^ 31 -> (forall ev, head evs = Some ev -> stamped ev s) ->
  Forall valid_event evs -> 0 <= instr l -> instr l + instr_count evs < 2 ^ 32 ->
  match import_events (hooks := AdvancedMemoryImporter accepts (Some m)) opt evs l s,
        import_events (hooks := Oracle accepts D m) opt evs l t with
  | Some (true, l1, s1), Some (true, l2, t1) => l1 = l2 /\ sim m D [] s1 t1
  | None, None => True
  | _, _ => False
  end.
Proof.
  induction evs as [|ev evs IH]; intros l s t Hsim Hl Hst Hv Hi Hn; [by split|].
  apply Forall_cons in Hv as [[_ Hd] Hv]. rewrite instr_count_cons in Hn. assert (0 <= instr_count evs) by (unfold instr_count; lia).
  cbn [import_events]. unfold import_event.
  destruct (time_sim m D (ev :: evs) ev l s t Hsim (Hst ev eq_refl) Hd) as (ct & s1 & t1 & -> & -> & Hsim1 & Hne).
  cbn [mbind option_bind]. destruct (te_memaddr ev) as [a|] eqn:Ea.
  - cbn [handle_mem_event AdvancedMemoryImporter Oracle].
    pose proof (mem_event_sim m D ev evs s1 t1 ct (instr_memaccess l) Hsim1 Hl ltac:(by rewrite Ea)) as Hm.
    destruct (Advanced_handle_mem_event (Some m) opt ct (instr_memaccess l) ev s1) as [[[] s2]|],
      (Oracle_handle_mem_event accepts D m opt ct (instr_memaccess l) ev t1) as [[[] t2]|]; try done. cbn [mbind option_bind].
    destruct Hm as [Hsim2 Hs2]. apply IH; try done. intros ev' _. left. by rewrite Hs2.
  - rewrite (proj2 (Z.eqb_neq _ _)) by lia. cbn [handle_ip_event AdvancedMemoryImporter Oracle].
    destruct (ip_event_sim m D ev evs s1 t1 ct (instr l) Hsim1 Hl Ea) as (s2 & t2 & -> & -> & Hsim2 & Hs2). cbn [mbind option_bind].
    rewrite u32_small by lia. apply IH; cbn [instr]; try done; try lia. intros ev' _. left. by rewrite Hs2.
Qed.

(** Closing the open intervals. *)
Lemma close_sim d ecs : forall s,
  exists s', close_loop (Advanced_add accepts) opt ecs s = Some (true, s') /\
    close_loop (known 0 0) opt ecs (upd_derived d s) = Some (true, upd_derived d s').
Proof.
  induction ecs as [|[a l] ecs IH]; intros s; [by exists s|]. cbn [close_loop dyninstr m_last_instr m_last_ip m_last_time upd_derived].
  destruct (dyninstr l >? m_last_instr s); [apply IH|].
  unfold add_access, Advanced_add, add_trace_event, known_columns, Advanced_database_insert_data.
  destruct (_ && _); cbn [mbind option_bind]; [apply IH|]. rewrite !accepts_all. cbn [mbind option_bind]. apply IH.
Qed.

Lemma open_unused_derived d s : open_unused_ec_intervals opt (upd_derived d s) = upd_derived d (open_unused_ec_intervals opt s).
Proof.
  unfold open_unused_ec_intervals. destruct (m_mm opt) as [mm|]; [|done]. generalize (mm_addresses mm). intros l.
  revert s. induction l as [|a l IH]; intros s; [done|]. cbn [fold_left]. rewrite <- IH. f_equal.
  unfold open_if_unused. cbn [m_open_ecs upd_derived]. by destruct (map_find a (m_open_ecs s)).
Qed.

(** The end of the trace. *)
Lemma finish_sim m D s t :
  sim m D [] s t -> Z.of_nat (length D) < 2 ^ 31 ->
  exists s', insert_delayed_entries accepts opt true s = Some s' /\ t = upd_derived (derived t) s'.
Proof.
  intros [Hc Hh Hd Hb Hs] Hl. cbn [decisions_from] in Hd. destruct (history_eq _ _ Hh) as (_ & _ & _ & E4).
  destruct (insert_delayed_sim D true (delayed_entries (derived s)) s (derived t) t) as (s' & E & Hc' & _ & _ & Hdel & _);
    try done; [by rewrite E4, Hd | by rewrite E4 |].
  exists s'. split; [exact E|]. rewrite (Hdel eq_refl) in Hc'. by injection Hc' as <-.
Qed.

Lemma advanced_oracle m ev evs :
  let D := decisions m (ev :: evs) in
  Z.of_nat (length D) < 2 ^ 31 -> (exists d, te_time_delta ev = Some d /\ 0 < d < 2 ^ 64) ->
  Forall valid_event (ev :: evs) -> instr_count (ev :: evs) < 2 ^ 32 ->
  prod_map id trace <$> copy_to_database (hooks := AdvancedMemoryImporter accepts (Some m)) opt (ev :: evs) new_Importer =
  prod_map id trace <$> copy_to_database (hooks := Oracle accepts D m) opt (ev :: evs) new_Importer.
Proof.
  intros D Hl Hd Hv Hn. unfold copy_to_database.
  pose proof (import_events_sim m D (ev :: evs) (mkLoop 0 0 0 no_event) new_Importer new_Importer) as Hsim.
  assert (sim m D (ev :: evs) new_Importer new_Importer) as H0 by (split; done).
  specialize (Hsim H0 Hl). assert (forall ev', head (ev :: evs) = Some ev' -> stamped ev' new_Importer) as Hst.
  { intros ev' [= <-]. right. done. }
  specialize (Hsim Hst Hv). cbn [instr] in Hsim. specialize (Hsim ltac:(lia) ltac:(lia)).
  destruct (import_events (hooks := AdvancedMemoryImporter accepts (Some m)) opt _ _ _) as [[[[] l] s]|],
    (import_events (hooks := Oracle accepts D m) opt _ _ _) as [[[[] l'] t]|]; try done. destruct Hsim as [<- Hsim].
  cbn [mbind option_bind negb trace_end_reached AdvancedMemoryImporter Oracle v_open_unused_ec_intervals v_add_trace_event].
  destruct (finish_sim m D s t Hsim Hl) as (s' & -> & ->). cbn [mbind option_bind negb derived upd_derived].
  change (upd_last ?a ?b ?c (upd_derived ?d s')) with (upd_derived d (upd_last a b c s')). rewrite open_unused_derived.
  unfold close_ec_intervals. cbn [m_open_ecs upd_derived].
  edestruct close_sim as (s3 & E1 & E2). rewrite E1. erewrite E2. cbn [mbind option_bind negb trace upd_derived].
  by case_match.
Qed.
End simulation.

(** ** Without the columns *)

Section bare.
Context `{SalConfig} {S : Type} `{!IntervalSet S} (accepts : Row -> bool) (accepts_all : forall r, accepts r = true).
Context (opt : Options S).

Definition strip (r : Row) : Row :=
  mkRow (variant_id r) (instr1 r) (instr1_absolute r) (instr2 r) (instr2_absolute r) (time1 r) (time2 r) (row_address r)
    (row_width r) (row_access r) (row_ext r) [].

Definition bare (s : Importer) : Importer :=
  mkImporter (strip <$> trace s) (m_row_count s) (m_time_trace_start s) (m_open_ecs s) (m_last_ip s) (m_last_instr s) (m_last_time s)
    new_Derived.

Abbreviation known opcode mask := (add_trace_event (S := S) accepts (known_columns opcode mask)).
Abbreviation plain := (add_trace_event (S := S) accepts no_columns).

Lemma getOpenEC_bare a s : getOpenEC a (bare s) = ((getOpenEC a s).1, bare (getOpenEC a s).2).
Proof. unfold getOpenEC. cbn [m_open_ecs bare]. by destruct (map_find a (m_open_ecs s)). Qed.

Lemma add_bare o k b e ev f s :
  exists s', known o k opt b e ev f s = Some (true, s') /\ plain opt b e ev f (bare s) = Some (true, bare s').
Proof.
  unfold add_trace_event, known_columns, no_columns. destruct (_ && _); [by exists s|]. cbn [mbind option_bind].
  rewrite !accepts_all. eexists. split; [done|]. do 3 f_equal. unfold bare. cbn [trace upd_trace]. by rewrite fmap_app.
Qed.

Lemma mem_loop_bare o k ct i ev n : forall a s,
  exists s', mem_loop (known o k) opt ct i ev a n s = Some (true, s') /\
    mem_loop plain opt ct i ev a n (bare s) = Some (true, bare s').
Proof.
  induction n as [|n IH]; intros a s; [by exists s|]. cbn [mem_loop].
  destruct (match m_mm opt with Some mm => negb (mm_isMatching a 1 mm) | None => false end); [apply IH|].
  rewrite getOpenEC_bare. destruct (getOpenEC a s) as [l s1]. cbn [fst snd dyninstr].
  destruct (dyninstr l >? i); [apply IH|].
  edestruct (add_bare o k) as (s2 & -> & ->). cbn [mbind option_bind]. apply IH.
Qed.

Lemma close_bare o k ecs : forall s,
  exists s', close_loop (known o k) opt ecs s = Some (true, s') /\ close_loop plain opt ecs (bare s) = Some (true, bare s').
Proof.
  induction ecs as [|[a l] ecs IH]; intros s; [by exists s|]. cbn [close_loop dyninstr m_last_instr m_last_ip m_last_time bare].
  destruct (dyninstr l >? m_last_instr s); [apply IH|]. unfold add_access.
  edestruct (add_bare o k) as (s2 & E1 & E2). rewrite E1. cbn [mi_ip] in *. rewrite E2. cbn [mbind option_bind]. apply IH.
Qed.

Lemma open_unused_bare s : open_unused_ec_intervals opt (bare s) = bare (open_unused_ec_intervals opt s).
Proof.
  unfold open_unused_ec_intervals. destruct (m_mm opt) as [mm|]; [|done]. generalize (mm_addresses mm). intros l.
  revert s. induction l as [|a l IH]; intros s; [done|]. cbn [fold_left]. rewrite <- IH. f_equal.
  unfold open_if_unused. cbn [m_open_ecs bare]. by destruct (map_find a (m_open_ecs s)).
Qed.

Lemma import_events_bare D m evs : forall l s ok l' s',
  import_events (hooks := Oracle accepts D m) opt evs l s = Some (ok, l', s') ->
  import_events (hooks := MemoryImporter accepts) opt evs l (bare s) = Some (ok, l', bare s').
Proof.
  induction evs as [|ev evs IH]; intros l s ok l' s' E; cbn [import_events] in *; [by injection E as <- <- <-|].
  apply bind_Some in E as ([[ok1 l1] s1] & E1 & E).
  assert (import_event (hooks := MemoryImporter accepts) opt ev l (bare s) = Some (ok1, l1, bare s1)) as ->.
  2:{ cbn [mbind option_bind]. destruct ok1; [by apply IH | by injection E as <- <- <-]. }
  clear E IH. unfold import_event in *. apply bind_Some in E1 as ([ct s0] & Et & E1).
  assert (match te_time_delta ev with
    | Some d => if d >=? 0 then Some (u64 (curtime l + d), if m_time_trace_start (bare s) =? 0 then upd_trace_start (u64 d) (bare s) else bare s) else None
    | None => Some (curtime l, bare s)
    end = Some (ct, bare s0)) as ->.
  { cbn [m_time_trace_start bare]. destruct (te_time_delta ev) as [d|]; [|by injection Et as <- <-]. destruct (d >=? 0); [|done].
    destruct (m_time_trace_start s =? 0); by injection Et as <- <-. }
  cbn [mbind option_bind]. destruct (te_memaddr ev).
  - cbn [handle_mem_event Oracle MemoryImporter] in *. apply bind_Some in E1 as ([ok2 s2] & Eh & E1).
    unfold Oracle_handle_mem_event in Eh. destruct (negb _); [done|]. apply bind_Some in Eh as (opcode & _ & Eh).
    apply bind_Some in Eh as (mask & _ & Eh). unfold MemoryImporter_handle_mem_event in *. cbv zeta in Eh |- *.
    edestruct (mem_loop_bare (i_opcode opcode) mask) as (s3 & F1 & F2). rewrite F1 in Eh. injection Eh as <- <-. rewrite F2.
    cbn [mbind option_bind]. by injection E1 as <- <- <-.
  - destruct (instr l =? 2 ^ 32 - 1); [by injection E1 as <- <- <-|].
    cbn [handle_ip_event Oracle MemoryImporter] in *. unfold Oracle_handle_ip_event in E1. cbn [mbind option_bind] in *.
    by injection E1 as <- <- <-.
Qed.

Lemma oracle_bare D m evs ok s :
  copy_to_database (hooks := Oracle accepts D m) opt evs new_Importer = Some (ok, s) ->
  exists ok', copy_to_database (hooks := MemoryImporter accepts) opt evs new_Importer = Some (ok', bare s).
Proof.
  unfold copy_to_database. intros ([[ok1 l] s1] & E & Hc)%bind_Some.
  apply (import_events_bare D m evs (mkLoop 0 0 0 no_event) new_Importer) in E. change (bare new_Importer) with new_Importer in E.
  rewrite E. cbn [mbind option_bind]. destruct ok1; cbn [negb] in *; [|by injection Hc as <- <-; eexists].
  cbn [trace_end_reached Oracle MemoryImporter mbind option_bind negb v_open_unused_ec_intervals v_add_trace_event] in *.
  change (upd_last ?a ?b ?c (bare s1)) with (bare (upd_last a b c s1)). rewrite open_unused_bare.
  unfold close_ec_intervals in *. cbn [m_open_ecs bare].
  edestruct (close_bare 0 0) as (s3 & F1 & F2). rewrite F1 in Hc. erewrite F2. cbn [mbind option_bind negb] in *.
  case_match; injection Hc as <- <-; by case_match; eexists.
Qed.
End bare.

(** C15. Delaying accesses is invisible: the advanced memory importer produces the table of
    an importer that knows all branch decisions of the trace in advance and handles
    each access at once, rows with opcode and history included; without these
    columns it is the memory importer's table.  The history of an access is exact:
    bit [15 - j] of its mask is the decision of the [j]-th conditional branch from
    the access on (before it, for negative [j]), and zero where the trace has none. *)
Theorem advanced_import `{SalConfig} {S : Type} `{!IntervalSet S} (accepts : Row -> bool) (opt : Options S) m ev evs :
  let D := decisions m (ev :: evs) in
  (forall r, accepts r = true) -> Z.of_nat (length D) < 2 ^ 31 -> (exists d, te_time_delta ev = Some d /\ 0 < d < 2 ^ 64) ->
  Forall valid_event (ev :: evs) -> instr_count (ev :: evs) < 2 ^ 32 ->
  let advanced := copy_to_database (hooks := AdvancedMemoryImporter accepts (Some m)) opt (ev :: evs) new_Importer in
  prod_map id trace <$> advanced =
    prod_map id trace <$> copy_to_database (hooks := Oracle accepts D m) opt (ev :: evs) new_Importer /\
  (forall ok s, advanced = Some (ok, s) ->
     exists ok' s', import accepts opt (ev :: evs) = Some (ok', s') /\ trace s' = strip <$> trace s) /\
  (forall before, 0 <= before <= Z.of_nat (length D) ->
     exists mask, branchmask D before = Some mask /\ in_range 32 mask /\
       forall j, -16 <= j < 16 ->
         Z.testbit mask (15 - j) = (0 <=? before + j) && default false (D !! Z.to_nat (before + j))).
Proof.
  intros D Hacc Hl Hd Hv Hn advanced. pose proof (advanced_oracle accepts Hacc opt m ev evs Hl Hd Hv Hn) as Heq.
  split; [exact Heq|]. split.
  - intros ok s E. fold advanced in Heq. rewrite E in Heq. cbn [fmap option_fmap option_map] in Heq.
    destruct (copy_to_database (hooks := Oracle accepts _ m) opt (ev :: evs) new_Importer) as [[ok1 t]|] eqn:Eo; [|done].
    injection Heq as <- Et. destruct (oracle_bare accepts Hacc opt _ m (ev :: evs) ok t Eo) as (ok' & Em).
    exists ok', (bare t). split; [exact Em|]. cbn [trace bare]. by rewrite <- Et.
  - intros before Hb. destruct (branchmask_spec D before Hb Hl) as (mask & Em & Hm & Hk). exists mask. split; [done|]. split; [done|].
    intros j Hj. rewrite Hk by lia. by replace (before + 15 - (15 - j)) with (before + j) by lia.
Qed.

(** ** A concrete trace *)

Module AdvancedDemo.

Import ListSet ImporterDemo.
#[local] Existing Instance sal_32.

(** A taken branch, an access, a branch that is not taken, an access. *)
Definition instrs : InstrMap :=
  list_to_map [(1000, mkInstr 7 1000 2 true [] []); (1010, mkInstr 8 1010 2 false [] []);
               (1012, mkInstr 9 1012 2 true [] []); (1014, mkInstr 10 1014 2 false [] [])].
Definition first : Trace_Event := instruction 1000 5.
Definition others : list Trace_Event :=
  [instruction 1010 1; access 1010 100 1 WRITE; instruction 1012 1; instruction 1014 1; access 1014 100 1 READ].
Definition all : Options (list Z) := mkOptions 1 None WRITE true true false [].

Example branch_decisions : decisions instrs (first :: others) = [true; false].
Proof. vm_compute. reflexivity. Qed.

(** The first access has a taken branch before it and one not taken after it, the
    second has both before it. *)
Example histories :
  match copy_to_database (hooks := AdvancedMemoryImporter (fun _ => true) (Some instrs)) all (first :: others) new_Importer with
  | Some (_, s) => (fun r => (instr1 r, instr2 r, row_columns r)) <$> trace s
  | None => []
  end = [(0, 1, [Some 8; Some (2 ^ 16)]); (2, 3, [Some 10; Some (2 ^ 17)])].
Proof. vm_compute. reflexivity. Qed.

Lemma advanced_import_witness :
  exists ok s, copy_to_database (hooks := AdvancedMemoryImporter (fun _ => true) (Some instrs)) all (first :: others) new_Importer
                 = Some (ok, s) /\
    exists ok' s', import (fun _ => true) all (first :: others) = Some (ok', s') /\ trace s' = strip <$> trace s.
Proof.
  destruct (advanced_import (fun _ => true) all instrs first others) as (_ & Hbare & _).
  - reflexivity.
  - vm_compute. reflexivity.
  - exists 5. split; [reflexivity | lia].
  - repeat apply Forall_cons_2; try apply Forall_nil_2;
      (split; [intros a Ha; simpl in Ha; simplify_eq; simpl; lia|intros d Hd; simpl in Hd; simplify_eq; lia]).
  - vm_compute. reflexivity.
  - destruct (copy_to_database _ _ _) as [[ok s]|] eqn:E; [|vm_compute in E; discriminate].
    exists ok, s. split; [reflexivity | exact (Hbare ok s eq_refl)].
Defined.

End AdvancedDemo.
