(* ===== verification/Injection.v ===== *)
(** * Injecting faults

    [core/efw/DatabaseExperiment.{hpp,cc}]: fetches a pilot, restores the machine
    for every bit of it, forwards to the injection point, flips the bit (or a
    whole byte), and lets the run go on until the experiment sees an end.

    The simulated machine is the back-end's: class [Machine] has the operations the
    code uses.  What [injectFault] does to a machine is shown for the Bochs back-end
    ([BochsTheorems], [BochsMemoryTheorems]), where [redecodeCurrentInstruction],
    which is written for Bochs only, is defined, too.  The experiment's callbacks are
    arguments. *)
From S2P Require Import Prelude Registers RegisterTheorems.

Class Machine (M : Type) := {
  machine_cpu :: CPUState M;
  getInstructionPointer : M -> Z;
  getByte : Z -> M -> Z;
  setByte : Z -> Z -> M -> M;
  redecodeCurrentInstruction : M -> M
}.

Section inject.
Context `{Machine M} (arch : CPUArchitecture).

(** [None]: a register that does not exist.  The value injected into memory is
    narrowed to [byte_t], those of registers are [unsigned]. *)
Definition injectFault (data_address bitpos : Z) (inject_burst inject_registers force_registers randomjump : bool) (m : M)
    : option (Z * M) :=
  if randomjump then
    let current_PC := getInstructionPointer m in
    p ← getRegister RID_PC arch;
    reg ← objects arch !! p;
    Some (u32 current_PC, redecodeCurrentInstruction (cpu_set reg data_address m))
  else if (data_address <? Z.shiftl 128 4) && inject_registers then
    let info := fromDataAddress data_address 1 in
    value ← getRegisterContent arch info m;
    let value := u32 value in
    let injected_value := if inject_burst then Z.lxor value 255 else Z.lxor value (Z.shiftl 1 bitpos) in
    m ← setRegisterContent arch info injected_value m;
    Some (value, if ri_id info =? RID_PC then redecodeCurrentInstruction m else m)
  else if negb force_registers then
    let value := getByte data_address m in
    let injected_value := if inject_burst then Z.lxor value 255 else Z.lxor value (Z.shiftl 1 bitpos) in
    Some (value, setByte data_address (wrap 8 injected_value) m)
  else Some (0, m).
End inject.

(** ** One pilot *)

Inductive RegisterInjectionMode := OFF | AUTO | FORCE | RANDOMJUMP.

#[export] Instance RegisterInjectionMode_eq_dec : EqDecision RegisterInjectionMode.
Proof. solve_decision. Defined.

Record DatabaseCampaignMessage := mkPilotMsg {
  pm_pilot_id : Z;
  pm_injection_instr : Z;
  pm_injection_instr_absolute : option Z;
  pm_data_address : Z;
  pm_data_width : Z;
  pm_variant : string;
  pm_benchmark : string;
  inject_bursts : bool;
  register_injection_mode : RegisterInjectionMode
}.

(** A result slot; the last two fields are set once the fault is injected. *)
Record DatabaseExperimentMessage := mkResult {
  bitoffset : Z;
  original_value : option Z;
  injection_width : option Z
}.

Definition injection_width_of (p : DatabaseCampaignMessage) : Z :=
  if inject_bursts p || bool_decide (register_injection_mode p = RANDOMJUMP) then 8 else 1.

(** The values of the loop's [bit_offset]. *)
Definition bit_offsets (p : DatabaseCampaignMessage) : list Z :=
  let w := injection_width_of p in
  (fun i => Z.of_nat i * w) <$> seq 0 (Z.to_nat ((u32 (pm_data_width p * 8) + w - 1) / w)).

(** ** The experiment *)

(** What the experiment sees of the simulator, and its callbacks.  [S] is the state of
    both; listeners are named by numbers. *)
Class Experiment (M S : Type) := {
  machine : S -> M;
  set_machine : M -> S -> S;
  instruction_pointers : S -> list Z;                  (** of all CPUs *)
  restore : S -> S;
  clearListeners : S -> S;
  addAnyBreakpoint : Z -> S -> nat * S;                (** with this counter *)
  sim_resume : S -> nat * S;
  cb_before_fast_forward : S -> bool * S;
  cb_during_fast_forward : nat -> S -> bool * S;
  cb_after_fast_forward : option nat -> S -> bool * S;
  cb_before_resume : S -> bool * S;
  cb_during_resume : nat -> S -> bool * S;
  cb_after_resume : nat -> S -> S
}.

(** [Terminated]: the simulator is told to terminate. *)
Inductive BitOutcome (S : Type) := Finished (r : DatabaseExperimentMessage) (s : S) | Terminated.
Arguments Finished {S}.
Arguments Terminated {S}.

Section experiment.
Context {M S : Type} `{!Machine M, !Experiment M S} (addr_width : Z) (arch : CPUArchitecture).

(** The two [while (true)] loops: the listener that ended them; [None] when
    [fuel] resumptions were not enough. *)
Fixpoint fast_forward (fuel : nat) (bp : nat) (s : S) : option (nat * S) :=
  match fuel with
  | O => None
  | Datatypes.S fuel =>
      let '(l, s) := sim_resume s in
      if (l =? bp)%nat then Some (l, s)
      else
        let '(should_continue, s) := cb_during_fast_forward l s in
        if should_continue : bool then fast_forward fuel bp s else Some (l, s)
  end.

Fixpoint resume_till_end (fuel : nat) (s : S) : option (nat * S) :=
  match fuel with
  | O => None
  | Datatypes.S fuel =>
      let '(l, s) := sim_resume s in
      let '(should_continue, s) := cb_during_resume l s in
      if should_continue : bool then resume_till_end fuel s else Some (l, s)
  end.

(** The body of the loop over [bit_offset]. *)
Definition run_bit (fuel : nat) (p : DatabaseCampaignMessage) (bit_offset : Z) (s : S) : option (BitOutcome S) :=
  let cancelled := mkResult bit_offset None None in
  let s := clearListeners (restore s) in
  let '(ok, s) := cb_before_fast_forward s in
  if negb ok then Some (Finished cancelled s)
  else
    '(listener, s) ← (if pm_injection_instr p >? 0
                      then let '(bp, s) := addAnyBreakpoint (pm_injection_instr p) s in
                           '(l, s) ← fast_forward fuel bp s; Some (Some l, s)
                      else Some (None, s));
    let '(ok, s) := cb_after_fast_forward listener s in
    if negb ok then Some (Finished cancelled s)
    else
      let found_eip := bool_decide (default 0 (pm_injection_instr_absolute p) ∈ instruction_pointers s) in
      if bool_decide (is_Some (pm_injection_instr_absolute p)) && negb found_eip then Some Terminated
      else
        let s := clearListeners s in
        '(value, m) ← injectFault arch (wrap addr_width (pm_data_address p + bit_offset / 8)) (bit_offset mod 8)
                        (inject_bursts p)
                        (negb (bool_decide (register_injection_mode p = OFF)))
                        (bool_decide (register_injection_mode p = FORCE))
                        (bool_decide (register_injection_mode p = RANDOMJUMP)) (machine s);
        let s := set_machine m s in
        let result := mkResult bit_offset (Some value) (Some (injection_width_of p)) in
        let '(ok, s) := cb_before_resume s in
        if negb ok then Some (Finished result s)
        else
          '(l, s) ← resume_till_end fuel s;
          Some (Finished result (clearListeners (cb_after_resume l s))).

(** The loop itself: the results of one job, [None] in the first component if
    the simulator was terminated. *)
Fixpoint run_bits (fuel : nat) (p : DatabaseCampaignMessage) (offsets : list Z) (s : S)
    : option (option (list DatabaseExperimentMessage * S)) :=
  match offsets with
  | [] => Some (Some ([], s))
  | o :: offsets =>
      out ← run_bit fuel p o s;
      match out with
      | Terminated => Some None
      | Finished r s =>
          rest ← run_bits fuel p offsets s;
          Some (match rest with Some (rs, s) => Some (r :: rs, s) | None => None end)
      end
  end.

Definition run_job (fuel : nat) (p : DatabaseCampaignMessage) (s : S)
    : option (option (list DatabaseExperimentMessage * S)) := run_bits fuel p (bit_offsets p) s.
End experiment.

(** ** Theorems on injection *)

(** The bits a fault changes in a byte. *)
Definition fault_bits (burst : bool) (bitpos : Z) : Z := if burst then 255 else Z.shiftl 1 bitpos.

Lemma fault_bits_range burst bitpos : 0 <= bitpos < 8 -> in_range 8 (fault_bits burst bitpos).
Proof.
  intros Hb. unfold fault_bits, in_range. destruct burst; [lia|]. rewrite Z.shiftl_1_l.
  pose proof (Z.pow_lt_mono_r 2 bitpos 8). lia.
Qed.

Lemma fault_bits_testbit burst bitpos k :
  0 <= bitpos < 8 -> 0 <= k < 8 -> Z.testbit (fault_bits burst bitpos) k = burst || (k =? bitpos).
Proof.
  intros Hb Hk. unfold fault_bits. destruct burst; simpl.
  - change 255 with (Z.ones 8). apply Z.ones_spec_low. lia.
  - rewrite Z.shiftl_1_l. destruct (Z.eqb_spec k bitpos) as [->|].
    + apply Z.pow2_bits_true. lia.
    + apply Z.pow2_bits_false. done.
Qed.

Lemma lxor_range w a b : 0 <= w -> in_range w a -> in_range w b -> in_range w (Z.lxor a b).
Proof.
  intros Hw Ha Hb. assert (Z.lxor a b = wrap w (Z.lxor a b)) as ->; [|by apply wrap_range].
  apply Z.bits_inj'. intros k Hk. unfold wrap. destruct (Z.lt_ge_cases k w).
  - by rewrite Z.mod_pow2_bits_low.
  - rewrite Z.mod_pow2_bits_high, Z.lxor_spec by lia.
    by rewrite (in_range_testbit w a k), (in_range_testbit w b k).
Qed.

(** What is written into a register. *)
Lemma inject_value `{Machine M} (arch : CPUArchitecture) a bitpos burst force (m : M) reg p :
  0 <= bitpos < 8 -> 0 <= a < 2048 -> a mod 16 < 8 -> in_range 64 (cpu_get reg m) ->
  getRegister (a / 16) arch = Some p -> objects arch !! p = Some reg ->
  exists v new, injectFault arch a bitpos burst true force false m
      = Some (v, if a / 16 =? RID_PC then redecodeCurrentInstruction (cpu_set reg new m) else cpu_set reg new m) /\
    (forall k, 0 <= k < 8 -> Z.testbit v k = Z.testbit (cpu_get reg m) (k + a mod 16 * 8)) /\ in_range 64 new /\
    forall k, 0 <= k < 64 -> Z.testbit new k
      = xorb (Z.testbit (cpu_get reg m) k) ((k / 8 =? a mod 16) && Z.testbit (fault_bits burst bitpos) (k mod 8)).
Proof.
  intros Hb Ha H8 Hrange Hp Ho. unfold injectFault. rewrite (proj2 (Z.ltb_lt a (Z.shiftl 128 4))) by (change (Z.shiftl 128 4) with 2048; lia).
  cbn [andb]. rewrite fromDataAddress_value. set (info := reginfo (a / 16) (1 * 8) (a mod 16 * 8)).
  pose proof (Z.mod_pos_bound a 16 ltac:(lia)).
  assert (valid_info info) as Hval by (split; [done | simpl; lia]).
  destruct (getRegisterContent_bits arch info reg p m Hrange Hval Hp Ho) as (v & -> & Hv & Hbits). cbn [mbind option_bind].
  change (ri_width info) with 8 in *. change (ri_offset info) with (a mod 16 * 8) in *.
  rewrite (u32_small v) by (unfold in_range in Hv; lia).
  set (inj := if burst then Z.lxor v 255 else Z.lxor v (Z.shiftl 1 bitpos)).
  assert (inj = Z.lxor v (fault_bits burst bitpos)) as Hinj by (unfold inj, fault_bits; by destruct burst).
  unfold setRegisterContent. change (ri_id info) with (a / 16). rewrite Hp. cbn [mbind option_bind]. rewrite Ho. cbn [mbind option_bind].
  destruct (merged_bits info inj (cpu_get reg m) Hval Hrange) as [Hnew Hmerged].
  eexists v, _. split; [reflexivity|]. split; [exact Hbits|]. split; [exact Hnew|].
  intros k Hk. rewrite Hmerged by done. unfold has_bit. change (ri_width info) with 8. change (ri_offset info) with (a mod 16 * 8).
  pose proof (Z.div_mod k 8 ltac:(lia)). pose proof (Z.mod_pos_bound k 8 ltac:(lia)).
  destruct (Z.eqb_spec (k / 8) (a mod 16)) as [He|He].
  - rewrite (proj2 (Z.leb_le _ _)), (proj2 (Z.ltb_lt _ _)) by lia. cbn [andb]. rewrite Hinj, Z.lxor_spec, Hbits by lia.
    f_equal; f_equal; lia.
  - cbn [andb]. rewrite xorb_false_r. destruct (Z.leb_spec (a mod 16 * 8) k), (Z.ltb_spec k (a mod 16 * 8 + 8)); try done. lia.
Qed.

(** Registers: exactly the fault's bits of one byte of one register change; for the
    program counter the current instruction is decoded again afterwards. *)
Lemma inject_register `{Machine M} `{!CPUStateLaws M plain known} (arch : CPUArchitecture) a bitpos burst force (m : M) reg :
  0 <= bitpos < 8 -> 0 <= a < 2048 -> names_bits (plain := plain) arch (fromDataAddress a 1) reg ->
  exists v new, let m' := cpu_set reg new m in
    injectFault arch a bitpos burst true force false m
      = Some (v, if a / 16 =? RID_PC then redecodeCurrentInstruction m' else m') /\
    (forall k, 0 <= k < 8 -> Z.testbit v k = Z.testbit (cpu_get reg m) (k + a mod 16 * 8)) /\
    (forall k, 0 <= k < m_Width reg -> Z.testbit (cpu_get reg m') k
       = xorb (Z.testbit (cpu_get reg m) k)
              ((k / 8 =? a mod 16) && Z.testbit (fault_bits burst bitpos) (k mod 8))) /\
    (forall r, known r -> m_Id r <> m_Id reg -> cpu_get r m' = cpu_get r m).
Proof.
  intros Hb Ha (Hval & Hpl & Hw & H64 & p & Hp & Ho). rewrite fromDataAddress_value in *. cbn [reginfo ri_id ri_width ri_offset] in *.
  destruct (inject_value arch a bitpos burst force m reg p Hb Ha ltac:(lia) (cpu_get_range reg m) Hp Ho)
    as (v & new & E & Hv & Hnew & Hk).
  exists v, new. cbn zeta. split; [exact E|]. split; [exact Hv|]. split.
  - intros k Hkr. rewrite <- (Z.mod_pow2_bits_low _ (m_Width reg)) by lia.
    fold (wrap (m_Width reg) (cpu_get reg (cpu_set reg new m))). rewrite cpu_get_set by done.
    unfold wrap. rewrite Z.mod_pow2_bits_low by lia. apply Hk. lia.
  - intros r Hkn Hne. by apply cpu_get_other.
Qed.

(** ** Theorems on jobs *)

Lemma bit_offsets_length p :
  0 <= pm_data_width p < 2 ^ 29 ->
  Z.of_nat (length (bit_offsets p)) = pm_data_width p * (8 / injection_width_of p).
Proof.
  intros Hw. unfold bit_offsets. rewrite length_fmap, length_seq, u32_small by lia.
  unfold injection_width_of. destruct (_ || _).
  - change (8 / 8) with 1. replace (pm_data_width p * 8 + 8 - 1) with (7 + pm_data_width p * 8) by lia.
    rewrite Z.div_add by lia. change (7 / 8) with 0. lia.
  - change (8 / 1) with 8. rewrite Z.div_1_r. lia.
Qed.

(** Each bit (or byte) of the pilot's data once. *)
Lemma bit_offsets_spec p o :
  0 <= pm_data_width p < 2 ^ 29 ->
  o ∈ bit_offsets p <-> 0 <= o < pm_data_width p * 8 /\ o mod injection_width_of p = 0.
Proof.
  intros Hw. unfold bit_offsets. rewrite list_elem_of_fmap. setoid_rewrite elem_of_seq. rewrite u32_small by lia.
  unfold injection_width_of. destruct (_ || _).
  - replace (pm_data_width p * 8 + 8 - 1) with (7 + pm_data_width p * 8) by lia. rewrite Z.div_add by lia. change (7 / 8) with 0. split.
    + intros (i & -> & Hi). split; [lia | apply Z.mod_mul; lia].
    + intros [Ho Hm]. apply Z.div_exact in Hm; [|lia]. exists (Z.to_nat (o / 8)). lia.
  - rewrite Z.div_1_r. split.
    + intros (i & -> & Hi). split; [lia | apply Z.mod_1_r].
    + intros [Ho _]. exists (Z.to_nat o). lia.
Qed.

Lemma bit_offsets_nodup p : NoDup (bit_offsets p).
Proof.
  unfold bit_offsets. apply NoDup_fmap_2; [|apply NoDup_seq]. intros i j Hij. unfold injection_width_of in Hij.
  destruct (_ || _); lia.
Qed.

Section job_theorems.
Context {M S : Type} `{!Machine M, !Experiment M S} (addr_width : Z) (arch : CPUArchitecture) (n : nat).

(** At most [n] events are waited for in a row. *)
Definition settles : Prop :=
  forall s bp, is_Some (fast_forward n bp s) /\ is_Some (resume_till_end n s).

(** The pilot's addresses can be injected into. *)
Definition injectable (p : DatabaseCampaignMessage) : Prop :=
  forall o m, o ∈ bit_offsets p ->
    is_Some (injectFault arch (wrap addr_width (pm_data_address p + o / 8)) (o mod 8) (inject_bursts p)
      (negb (bool_decide (register_injection_mode p = OFF))) (bool_decide (register_injection_mode p = FORCE))
      (bool_decide (register_injection_mode p = RANDOMJUMP)) m).

Definition result_ok (p : DatabaseCampaignMessage) (r : DatabaseExperimentMessage) : Prop :=
  is_Some (original_value r) -> injection_width r = Some (injection_width_of p).

Lemma run_bit_spec p o s :
  settles -> injectable p -> o ∈ bit_offsets p ->
  exists out, run_bit addr_width arch n p o s = Some out /\
    match out with
    | Finished r _ => bitoffset r = o /\ result_ok p r
    | Terminated => is_Some (pm_injection_instr_absolute p)
    end.
Proof.
  intros Hs Hi Ho. unfold run_bit.
  destruct (cb_before_fast_forward _) as [[|] s1]; cbn [negb]; [|by eexists; split; [done|]; split; [done | intros [? [=]]]].
  set (ff := if _ >? 0 then _ else _). assert (exists x s2, ff = Some (x, s2)) as (x & s2 & ->).
  { unfold ff. destruct (_ >? 0); [|by eauto]. destruct (addAnyBreakpoint _ _) as [bp s2].
    destruct (Hs s2 bp) as [[[l s3] E] _]. rewrite E. simpl. eauto. }
  cbn [mbind option_bind].
  destruct (cb_after_fast_forward _ _) as [[|] s3]; cbn [negb]; [|by eexists; split; [done|]; split; [done | intros [? [=]]]].
  destruct (bool_decide (is_Some (pm_injection_instr_absolute p)) && _) eqn:E.
  { apply andb_true_iff in E as [E%bool_decide_eq_true_1 _]. by eexists. }
  destruct (Hi o (machine (clearListeners s3)) Ho) as [[v m] ->]. cbn [mbind option_bind].
  destruct (cb_before_resume _) as [[|] s4]; cbn [negb]; [|by eexists].
  destruct (Hs s4 0%nat) as [_ [[l s5] ->]]. cbn [mbind option_bind]. by eexists.
Qed.

Lemma run_bits_spec p offsets : forall s,
  settles -> injectable p -> (forall o, o ∈ offsets -> o ∈ bit_offsets p) ->
  exists out, run_bits addr_width arch n p offsets s = Some out /\
    match out with
    | Some (rs, _) => bitoffset <$> rs = offsets /\ Forall (result_ok p) rs
    | None => is_Some (pm_injection_instr_absolute p)
    end.
Proof.
  induction offsets as [|o offsets IH]; intros s Hs Hi Hin; cbn [run_bits].
  { eexists. split; [done|]. split; [done | constructor]. }
  destruct (run_bit_spec p o s Hs Hi) as (out & -> & Hout); [apply Hin; set_solver|]. cbn [mbind option_bind].
  destruct out as [r s1|]; [|by eexists].
  destruct (IH s1 Hs Hi) as (out & -> & Hrest); [intros; apply Hin; set_solver|]. cbn [mbind option_bind].
  eexists. split; [done|]. destruct out as [[rs s2]|]; [|done]. destruct Hout as [Hb Hok], Hrest as [Hbs Hoks].
  split; [by rewrite fmap_cons, Hb, Hbs | by constructor].
Qed.
End job_theorems.

(** A job is carried out completely: if the experiment's waiting ends, running a
    pilot ends, too; unless the simulator is told to terminate because the
    expected instruction address was not reached, there is exactly one result
    for every bit of the pilot's data (every byte, for bursts and random jumps),
    in order, and each result with an injected fault carries its width. *)
Theorem job_results_complete {M S : Type} `{!Machine M, !Experiment M S} addr_width arch n p (s : S) :
  settles n -> injectable (M := M) addr_width arch p -> 0 <= pm_data_width p < 2 ^ 29 ->
  exists out, run_job addr_width arch n p s = Some out /\
    match out with
    | Some (rs, _) =>
        NoDup (bitoffset <$> rs) /\
        (forall o, o ∈ bitoffset <$> rs <-> 0 <= o < pm_data_width p * 8 /\ o mod injection_width_of p = 0) /\
        Z.of_nat (length rs) = pm_data_width p * (8 / injection_width_of p) /\ Forall (result_ok p) rs
    | None => is_Some (pm_injection_instr_absolute p)
    end.
Proof.
  intros Hs Hi Hw. destruct (run_bits_spec addr_width arch n p (bit_offsets p) s Hs Hi ltac:(done)) as (out & E & Hout).
  exists out. split; [exact E|]. destruct out as [[rs s']|]; [|done]. destruct Hout as [Hb Hok].
  rewrite Hb. split; [apply bit_offsets_nodup|]. split; [intros o; by apply bit_offsets_spec|]. split; [|done].
  rewrite <- bit_offsets_length, <- Hb, length_fmap by done. done.
Qed.

(** ** A concrete machine *)

Module InjectionDemo.

Record Mach := mkMach { m_regs : gmap Z Z; m_bytes : gmap Z Z; m_ip : Z }.

#[global] Instance mach_cpu : CPUState Mach := {|
  cpu_get r m := u64 (default 0 (m_regs m !! m_Id r));
  cpu_set r v m := mkMach (<[m_Id r := wrap (m_Width r) v]> (m_regs m)) (m_bytes m) (m_ip m)
|}.

#[global] Instance mach : Machine Mach := {|
  machine_cpu := mach_cpu;
  getInstructionPointer := m_ip;
  getByte a m := wrap 8 (default 0 (m_bytes m !! a));
  setByte a v m := mkMach (m_regs m) (<[a := v]> (m_bytes m)) (m_ip m);
  redecodeCurrentInstruction m := m
|}.

Definition plain (r : Register) : Prop := 0 <= m_Width r <= 64.

#[global] Instance mach_cpu_laws : CPUStateLaws Mach plain (fun _ => True).
Proof.
  split; [done| | |].
  - intros r c. apply u64_range.
  - intros r v c Hp _. simpl. rewrite lookup_insert_eq. simpl.
    assert (u64 (wrap (m_Width r) v) = wrap (m_Width r) v) as ->; [apply u64_small | by apply wrap_small, wrap_range, Hp].
    destruct Hp as [H1 H2]. pose proof (wrap_range (m_Width r) v H1) as Hr. unfold in_range in Hr.
    pose proof (Z.pow_le_mono_r 2 (m_Width r) 64). lia.
  - intros r r' v c _ _ Hne. simpl. by rewrite lookup_insert_ne.
Qed.

Definition arch : CPUArchitecture := default new_CPUArchitecture (X86Architecture true).
Definition rax : Register := mkRegister 0 64 "RAX".
Definition m0 : Mach := mkMach {[0 := 4660]} {[5000 := 7]} 4096.

(** Bit 3 of AH, at data address 1, and bit 1 of a byte in memory. *)
Example inject_ah :
  (fun x => (x.1, cpu_get rax x.2)) <$> injectFault arch 1 3 false true false false m0 = Some (18, 6708).
Proof. vm_compute. reflexivity. Qed.

(** An experiment that stops at the first event. *)
#[global] Instance first_event : Experiment Mach Mach := {|
  machine m := m;
  set_machine m _ := m;
  instruction_pointers m := [m_ip m];
  restore _ := m0;
  clearListeners m := m;
  addAnyBreakpoint _ m := (0%nat, m);
  sim_resume m := (0%nat, m);
  cb_before_fast_forward m := (true, m);
  cb_during_fast_forward _ m := (false, m);
  cb_after_fast_forward _ m := (true, m);
  cb_before_resume m := (true, m);
  cb_during_resume _ m := (false, m);
  cb_after_resume _ m := m
|}.

Definition pilot : DatabaseCampaignMessage := mkPilotMsg 1 3 (Some 4096) 5000 1 "v" "b" false OFF.

Lemma job_results_complete_witness :
  exists out, run_job (M := Mach) 64 arch 1 pilot m0 = Some out /\
    match out with Some (rs, _) => Z.of_nat (length rs) = 8 | None => True end.
Proof.
  destruct (job_results_complete (M := Mach) 64 arch 1 pilot m0) as (out & E & Hout).
  - intros s bp. split; simpl; [destruct bp; eexists; reflexivity | eexists; reflexivity].
  - intros o m _. unfold injectFault. cbn [register_injection_mode inject_bursts pilot].
    rewrite (bool_decide_eq_false_2 (OFF = RANDOMJUMP)), (bool_decide_eq_false_2 (OFF = FORCE)), (bool_decide_eq_true_2 (OFF = OFF)) by done.
    rewrite andb_false_r. eexists. reflexivity.
  - simpl. lia.
  - exists out. split; [exact E|]. destruct out as [[rs s']|]; [|exact I]. destruct Hout as (_ & _ & Hl & _). exact Hl.
Defined.

End InjectionDemo.
