(* ===== verification/Campaign.v ===== *)
(** * Database campaigns

    [core/cpn/DatabaseCampaign.{hpp,cc}]: reads the pilots a pruning method left
    in the database, skips those with complete results, and hands the others
    to the job server in the order of their injection points.  Results come
    back through [util/DatabaseProtobufAdapter.cc]; batched INSERTs are those of
    [util/Database.cc].

    Which methods match the LIKE pattern is an argument, as is the order of rows
    with the same [instr1]. *)
From S2P Require Import Prelude JobServer Importer Pruners SmartHops Registers RegisterTheorems Injection.

(** ** [Database::insert_multiple] *)

(** [executed] are the statements sent to the server. *)
Record Batch := mkBatch {
  m_insertquery : string;
  m_insertquery_values : list string;
  executed : list (string * list string)
}.

Definition new_Batch : Batch := mkBatch "" [] [].

Section batch.
(** Whether the server accepts a statement. *)
Context (query_ok : string * list string -> bool).

Definition execute (b : Batch) : bool * Batch :=
  let stmt := (m_insertquery b, m_insertquery_values b) in
  (query_ok stmt, mkBatch (m_insertquery b) [] (executed b ++ [stmt])).

(** With neither argument: flush. *)
Definition flush (b : Batch) : bool * Batch :=
  if String.eqb (m_insertquery b) "" then (false, b)
  else if negb (bool_decide (m_insertquery_values b = [])) then execute b else (true, b).

Definition insert_multiple (insertquery values : string) (b : Batch) : bool * Batch :=
  let b := if negb (String.eqb (m_insertquery b) insertquery) && negb (bool_decide (m_insertquery_values b = []))
           then (flush b).2 else b in
  let b := mkBatch insertquery (m_insertquery_values b ++ [values]) (executed b) in
  if (2048 <=? Z.of_nat (length (m_insertquery_values b))) then execute b else (true, b).
End batch.

(** ** Injection points *)

(** [InjectionPointBase]: [parse] is [parseFromInjectionInstr], [None] an exit. *)
Class InjectionPoint (IP Msg : Type) := {
  new_ip : IP;
  parse : Z -> Z -> IP -> option IP;
  ip_message : IP -> Msg
}.

#[export] Instance steps_point : InjectionPoint Z Z := {|
  new_ip := 0;
  parse i1 i2 _ := Some (InjectionPointSteps_parseFromInjectionInstr i1 i2);
  ip_message i := i
|}.

Definition hops_point `{Events.SalConfig} (evs : list Trace_Event)
    : InjectionPoint InjectionPointHops (option InjectionPointMessage) := {|
  new_ip := new_InjectionPointHops;
  parse := InjectionPointHops_parseFromInjectionInstr evs;
  ip_message := m_ip
|}.

(** ** The campaign *)

(** The primary key of the result table is the pilot and the bit offset. *)
Abbreviation ResultTable := (list (Z * Z)).

Record Variant := mkVariant { v_id : Z; v_variant : string; v_benchmark : string }.

Record DatabaseCampaign := mkCampaign {
  fspmethods : list Z;                                 (** ids matched by [m_fspmethod] *)
  m_inject_bursts : bool;
  m_register_injection_mode : RegisterInjectionMode;
  completed_pilots : gmap Z Z
}.

Section campaign.
Context {IP Msg : Type} `{!InjectionPoint IP Msg}.
(** [ORDER BY t.instr1] *)
Context (order_by_instr1 : list (PilotRow * Row) -> list (PilotRow * Row)).

Definition expected_number_of_results (c : DatabaseCampaign) : Z := if m_inject_bursts c then 1 else 8.

Definition existing_results_for_pilot (c : DatabaseCampaign) (pilot_id : Z) : Z :=
  default 0 (completed_pilots c !! pilot_id).

Definition result_count (table : ResultTable) (pilot_id : Z) : Z :=
  Z.of_nat (length (filter (fun r => r.1 = pilot_id) table)).

(** [completed_pilots.add] of one row; the counts of a pilot add up. *)
Definition add_completed (table : ResultTable) (m : gmap Z Z) (p : PilotRow) : gmap Z Z :=
  let n := u32 (result_count table (p_id p)) in
  if n =? 0 then m else <[p_id p := u32 (default 0 (m !! p_id p) + n)]> m.

(** Pilots that have results, with their number. *)
Definition load_completed_pilots (variants : list Z) (db : Database) (table : ResultTable) (c : DatabaseCampaign)
    : DatabaseCampaign :=
  if bool_decide (variants = []) then c
  else
    mkCampaign (fspmethods c) (m_inject_bursts c) (m_register_injection_mode c)
      (fold_left (add_completed table)
         (filter (fun p => p_variant_id p ∈ variants /\ p_fspmethod_id p ∈ fspmethods c) (fsppilot db))
         (completed_pilots c)).

Definition pilots_query (c : DatabaseCampaign) (v : Z) (db : Database) : list (PilotRow * Row) :=
  order_by_instr1
    (p ← filter (fun p => p_fspmethod_id p ∈ fspmethods c /\ p_variant_id p = v) (fsppilot db);
     t ← filter (fun t => trace_key t = pilot_key p) (db_trace db);
     [(p, t)]).

Definition pilot_message (c : DatabaseCampaign) (v : Variant) (p : PilotRow) : DatabaseCampaignMessage :=
  mkPilotMsg (p_id p) (injection_instr p) (injection_instr_absolute p) (p_data_address p) (Pruners.data_width p)
    (v_variant v) (v_benchmark v) (m_inject_bursts c) (m_register_injection_mode c).

(** The loop over the pilots: what is sent, how many are skipped. *)
Fixpoint send_pilots (c : DatabaseCampaign) (v : Variant) (pilots : list (PilotRow * Row)) (ip : IP)
    (js : JobServer) : option (list (DatabaseCampaignMessage * Msg) * Z * JobServer) :=
  match pilots with
  | [] => Some ([], 0, js)
  | (p, t) :: pilots =>
      if existing_results_for_pilot c (p_id p) =? expected_number_of_results c then
        '(sent, skipped, js) ← send_pilots c v pilots ip (skipJobs 1 js);
        Some (sent, u32 (skipped + 1), js)
      else
        ip ← parse (instr1 t) (instr2 t) ip;
        '(sent, skipped, js) ← send_pilots c v pilots ip js;
        Some ((pilot_message c v p, ip_message ip) :: sent, skipped, js)
  end.

(** [None]: exit, or the assertion on the number of pilots. *)
Definition run_variant (c : DatabaseCampaign) (v : Variant) (db : Database) (js : JobServer)
    : option (list (DatabaseCampaignMessage * Msg) * JobServer) :=
  let pilots := pilots_query c (v_id v) db in
  let experiment_count := Z.of_nat (length pilots) in
  '(sent, skipped, js) ← send_pilots c v pilots new_ip (increaseTotalCount experiment_count js);
  if experiment_count =? u32 (u32 (Z.of_nat (length sent)) + skipped) then Some (sent, js) else None.

Fixpoint run_variants (c : DatabaseCampaign) (vs : list Variant) (db : Database) (js : JobServer)
    : option (list (DatabaseCampaignMessage * Msg) * JobServer) :=
  match vs with
  | [] => Some ([], js)
  | v :: vs =>
      '(sent, js) ← run_variant c v db js;
      '(sent', js) ← run_variants c vs db js;
      Some (sent ++ sent', js)
  end.

(** The part of [run] after the command line. *)
Definition run_campaign (c : DatabaseCampaign) (vs : list Variant) (db : Database) (table : ResultTable)
    (js : JobServer) : option (list (DatabaseCampaignMessage * Msg) * JobServer) :=
  run_variants (load_completed_pilots (v_id <$> vs) db table c) vs db js.
End campaign.

(** ** Results *)

(** [insert_row]: a row whose key exists is rejected, the others are inserted. *)
Definition insert_result (table : ResultTable) (key : Z * Z) : ResultTable :=
  if bool_decide (key ∈ table) then table else table ++ [key].

Definition insert_results (p : DatabaseCampaignMessage) (rs : list DatabaseExperimentMessage) (table : ResultTable)
    : ResultTable :=
  fold_left insert_result ((fun r => (pm_pilot_id p, bitoffset r)) <$> rs) table.

(** ** Theorems on batches *)

Section batch_theorems.
Context (query_ok : string * list string -> bool).

(** The rows of executed statements, each with its query. *)
Definition rows_of (stmts : list (string * list string)) : list (string * string) :=
  stmts ≫= fun '(q, vs) => (fun v => (q, v)) <$> vs.

Definition all_rows (b : Batch) : list (string * string) :=
  rows_of (executed b) ++ ((fun v => (m_insertquery b, v)) <$> m_insertquery_values b).

Definition batch_ok (b : Batch) : Prop :=
  (Z.of_nat (length (m_insertquery_values b)) < 2048) /\ (m_insertquery_values b <> [] -> m_insertquery b <> "") /\
  Forall (fun s => s.1 <> "" /\ s.2 <> [] /\ Z.of_nat (length s.2) <= 2048) (executed b).

Lemma rows_of_app s1 s2 : rows_of (s1 ++ s2) = rows_of s1 ++ rows_of s2.
Proof. apply bind_app. Qed.

Lemma execute_spec b :
  m_insertquery b <> "" -> m_insertquery_values b <> [] -> Z.of_nat (length (m_insertquery_values b)) <= 2048 ->
  Forall (fun s => s.1 <> "" /\ s.2 <> [] /\ Z.of_nat (length s.2) <= 2048) (executed b) ->
  let b' := (execute query_ok b).2 in
  batch_ok b' /\ all_rows b' = all_rows b /\ m_insertquery_values b' = [].
Proof.
  intros Hq Hv Hl Hall. simpl. split; [|split; [|done]].
  - split; [simpl; lia|]. split; [done|]. simpl. apply Forall_app. split; [done|]. by repeat constructor.
  - unfold all_rows. simpl. rewrite rows_of_app, app_nil_r. f_equal. unfold rows_of. simpl. by rewrite app_nil_r.
Qed.

Lemma flush_spec b :
  batch_ok b -> batch_ok (flush query_ok b).2 /\ all_rows (flush query_ok b).2 = all_rows b /\
    m_insertquery_values (flush query_ok b).2 = [].
Proof.
  intros (Hl & Hq & Hall). unfold flush. destruct (String.eqb_spec (m_insertquery b) "") as [He|He].
  - simpl. assert (m_insertquery_values b = []) as Hv by (destruct (m_insertquery_values b) eqn:E; [done|]; by destruct Hq).
    split; [|done]. split; [done|]. done.
  - case_bool_decide as Hv; cbn [negb]; [by split|]. apply execute_spec; [done | done | lia | done].
Qed.

Lemma insert_multiple_spec q v b :
  batch_ok b -> q <> "" ->
  batch_ok (insert_multiple query_ok q v b).2 /\ all_rows (insert_multiple query_ok q v b).2 = all_rows b ++ [(q, v)].
Proof.
  intros Hb Hq. unfold insert_multiple.
  set (b1 := if _ && _ then _ else b).
  assert (batch_ok b1 /\ all_rows b1 = all_rows b /\ (m_insertquery b1 = q \/ m_insertquery_values b1 = [])) as (Hb1 & Hr1 & Hc).
  { unfold b1. destruct (String.eqb_spec (m_insertquery b) q) as [<-|Hne]; [cbn [negb andb]; auto|].
    case_bool_decide as Hv; cbn [negb andb]; [auto|]. destruct (flush_spec b Hb) as (? & ? & ?). auto. }
  assert (rows_of (executed b1) ++ ((fun v => (q, v)) <$> m_insertquery_values b1) = all_rows b1) as Hrows.
  { unfold all_rows. destruct Hc as [-> | ->]; done. }
  destruct Hb1 as (Hl & Hq1 & Hall). cbn [m_insertquery_values]. rewrite length_app. cbn [length].
  destruct (Z.leb_spec 2048 (Z.of_nat (length (m_insertquery_values b1) + 1))) as [Hfull|Hfree].
  - destruct (execute_spec (mkBatch q (m_insertquery_values b1 ++ [v]) (executed b1))) as (Hok & Hr & _); simpl.
    + done. + by destruct (m_insertquery_values b1). + rewrite length_app. simpl. lia. + done.
    + split; [exact Hok|]. etrans; [exact Hr|]. unfold all_rows. simpl. rewrite fmap_app, app_assoc, Hrows, Hr1. done.
  - simpl. split.
    + split; [simpl; rewrite length_app; simpl; lia|]. done.
    + unfold all_rows. simpl. rewrite fmap_app, app_assoc, Hrows, Hr1. done.
Qed.
End batch_theorems.

(** Batching loses nothing: after any sequence of rows handed to
    [insert_multiple] and a final flush, the statements executed contain exactly
    these rows, in order and each for its own query; no statement is empty or has
    more than 2048 rows. *)
Theorem insert_multiple_batches (query_ok : string * list string -> bool) rows :
  Forall (fun r => r.1 <> "") rows ->
  let b := (flush query_ok (fold_left (fun b r => (insert_multiple query_ok r.1 r.2 b).2) rows new_Batch)).2 in
  rows_of (executed b) = rows /\
  Forall (fun s => s.2 <> [] /\ Z.of_nat (length s.2) <= 2048) (executed b).
Proof.
  intros Hq.
  assert (forall b, batch_ok b -> batch_ok (fold_left (fun b r => (insert_multiple query_ok r.1 r.2 b).2) rows b) /\
            all_rows (fold_left (fun b r => (insert_multiple query_ok r.1 r.2 b).2) rows b) = all_rows b ++ rows) as Hfold.
  { induction Hq as [|[q v] rows Hr Hq IH]; intros b Hb; simpl; [by rewrite app_nil_r|].
    destruct (insert_multiple_spec query_ok q v b Hb Hr) as [Hb' Hr']. destruct (IH _ Hb') as [Hok ->].
    split; [done|]. by rewrite Hr', <- app_assoc. }
  destruct (Hfold new_Batch) as [Hok Hr]; [split; [simpl; lia|]; by split|].
  destruct (flush_spec query_ok _ Hok) as ((_ & _ & Hall) & Hrows & Hv). simpl. split.
  - unfold all_rows at 1 in Hrows. rewrite Hv, app_nil_r in Hrows. by rewrite Hrows, Hr.
  - eapply Forall_impl; [exact Hall|]. intros s (_ & ? & ?). done.
Qed.

(** ** Theorems on campaigns *)

Section campaign_theorems.
Context (order_by_instr1 : list (PilotRow * Row) -> list (PilotRow * Row)).

(** The pilots of all variants, each with its trace row, in the order of the queries. *)
Definition all_pilots (c : DatabaseCampaign) (vs : list Variant) (db : Database) : list (Variant * (PilotRow * Row)) :=
  v ← vs; pt ← pilots_query order_by_instr1 c (v_id v) db; [(v, pt)].

(** Pilots without all their results. *)
Definition incomplete (c : DatabaseCampaign) (table : ResultTable) (x : Variant * (PilotRow * Row)) : Prop :=
  result_count table (p_id x.2.1) <> expected_number_of_results c.

#[export] Instance incomplete_dec c table x : Decision (incomplete c table x).
Proof. unfold incomplete. apply _. Defined.

Definition message_of (c : DatabaseCampaign) (x : Variant * (PilotRow * Row)) : DatabaseCampaignMessage * Z :=
  (pilot_message c x.1 x.2.1, instr2 x.2.2).

(** [load_completed_pilots] *)

Lemma result_count_nonneg table id : 0 <= result_count table id.
Proof. unfold result_count. lia. Qed.

Lemma completed_fold_ne table (l : list PilotRow) k : forall m,
  k ∉ p_id <$> l ->
  fold_left (add_completed table) l m !! k = m !! k.
Proof.
  induction l as [|p l IH]; intros m Hk; [done|]. rewrite fmap_cons, not_elem_of_cons in Hk. destruct Hk as [Hne Hk].
  simpl. rewrite IH by done. unfold add_completed. case_match; [done|]. by rewrite lookup_insert_ne.
Qed.

Lemma completed_fold table (l : list PilotRow) p : forall m,
  NoDup (p_id <$> l) -> p ∈ l -> m !! p_id p = None -> result_count table (p_id p) < 2 ^ 32 ->
  default 0 (fold_left (add_completed table) l m !! p_id p)
  = result_count table (p_id p).
Proof.
  induction l as [|q l IH]; intros m Hnd Hp Hm Hb; [by apply not_elem_of_nil in Hp|].
  rewrite fmap_cons in Hnd. apply NoDup_cons in Hnd as [Hq Hnd]. pose proof (result_count_nonneg table (p_id p)) as H0.
  simpl. apply elem_of_cons in Hp as [<-|Hp].
  - rewrite completed_fold_ne by done. unfold add_completed. rewrite (u32_small (result_count table (p_id p))) by lia.
    destruct (Z.eqb_spec (result_count table (p_id p)) 0) as [->|]; [by rewrite Hm|].
    rewrite lookup_insert_eq, Hm. simpl. apply u32_small. lia.
  - assert (p_id q <> p_id p) by (intros He; apply Hq; rewrite He; by apply list_elem_of_fmap_2).
    apply IH; [done | done | | done]. unfold add_completed. case_match; [done|]. by rewrite lookup_insert_ne.
Qed.

Lemma existing_results variants db table c p :
  completed_pilots c = ∅ -> NoDup (p_id <$> fsppilot db) -> p ∈ fsppilot db ->
  p_variant_id p ∈ variants -> p_fspmethod_id p ∈ fspmethods c -> result_count table (p_id p) < 2 ^ 32 ->
  existing_results_for_pilot (load_completed_pilots variants db table c) (p_id p) = result_count table (p_id p).
Proof.
  intros Hc Hnd Hp Hv Hf Hb. unfold load_completed_pilots. rewrite bool_decide_eq_false_2; [|intros ->; by apply not_elem_of_nil in Hv].
  unfold existing_results_for_pilot. cbn [completed_pilots]. apply completed_fold; [| |by rewrite Hc|done].
  - eapply sublist_NoDup; [exact Hnd|]. apply fmap_sublist, sublist_filter.
  - by apply list_elem_of_filter.
Qed.

(** The counters after [k] skipped pilots. *)
Lemma skip_counters k js :
  0 <= m_DoneCount js -> m_DoneCount js + Z.of_nat k < 2 ^ 64 ->
  m_DoneCount (Nat.iter k (skipJobs 1) js) = m_DoneCount js + Z.of_nat k /\
  m_TotalCount (Nat.iter k (skipJobs 1) js) = m_TotalCount js.
Proof.
  intros H0. induction k as [|k IH]; intros Hk; [simpl; split; [lia | done]|].
  destruct IH as [IH1 IH2]; [lia|]. rewrite Nat.iter_succ. cbn [skipJobs incDoneCount upd_counters m_DoneCount m_TotalCount].
  rewrite IH1, u64_small by lia. split; [lia | done].
Qed.

(** The loop over the pilots of one variant. *)
Lemma send_pilots_spec c v pilots : forall ip js,
  Z.of_nat (length pilots) < 2 ^ 32 ->
  let todo := filter (fun x : PilotRow * Row => existing_results_for_pilot c (p_id x.1) <> expected_number_of_results c) pilots in
  let k := (length pilots - length todo)%nat in
  send_pilots (IP := Z) c v pilots ip js =
    Some ((fun x => (pilot_message c v x.1, instr2 x.2)) <$> todo, Z.of_nat k, Nat.iter k (skipJobs 1) js).
Proof.
  induction pilots as [|[p t] pilots IH]; intros ip js Hl; [done|]. cbn [length] in Hl.
  cbn [send_pilots]. rewrite filter_cons. cbn [fst].
  pose proof (length_filter (fun x : PilotRow * Row => existing_results_for_pilot c (p_id x.1) <> expected_number_of_results c) pilots) as Hle.
  destruct (Z.eqb_spec (existing_results_for_pilot c (p_id p)) (expected_number_of_results c)) as [He|He].
  - rewrite decide_False by (intros Hn; by apply Hn). rewrite IH by lia. cbn [mbind option_bind length].
    rewrite Nat.sub_succ_l by done. rewrite Nat.iter_succ_r, u32_small by lia. do 3 f_equal. lia.
  - rewrite decide_True by done. cbn [parse steps_point mbind option_bind]. rewrite IH by lia.
    cbn [mbind option_bind length ip_message steps_point fmap list_fmap fst snd]. done.
Qed.

Lemma run_variant_spec c v db js :
  let pilots := pilots_query order_by_instr1 c (v_id v) db in
  let todo := filter (fun x : PilotRow * Row => existing_results_for_pilot c (p_id x.1) <> expected_number_of_results c) pilots in
  Z.of_nat (length pilots) < 2 ^ 32 ->
  run_variant (IP := Z) order_by_instr1 c v db js =
    Some ((fun x => (pilot_message c v x.1, instr2 x.2)) <$> todo,
          Nat.iter (length pilots - length todo) (skipJobs 1) (increaseTotalCount (Z.of_nat (length pilots)) js)).
Proof.
  intros pilots todo Hl. unfold run_variant. fold pilots. rewrite send_pilots_spec by done. fold todo. cbn [mbind option_bind].
  assert (length todo <= length pilots)%nat by apply length_filter.
  rewrite length_fmap, (u32_small (Z.of_nat (length todo))), u32_small by lia.
  by rewrite (proj2 (Z.eqb_eq _ _)) by lia.
Qed.

Lemma all_pilots_cons c v vs db :
  all_pilots c (v :: vs) db = ((fun pt => (v, pt)) <$> pilots_query order_by_instr1 c (v_id v) db) ++ all_pilots c vs db.
Proof. unfold all_pilots. done. Qed.

Definition unsent (c : DatabaseCampaign) (x : Variant * (PilotRow * Row)) : Prop :=
  existing_results_for_pilot c (p_id x.2.1) <> expected_number_of_results c.

#[export] Instance unsent_dec c x : Decision (unsent c x).
Proof. unfold unsent. apply _. Defined.

Lemma filter_pairs c v (l : list (PilotRow * Row)) :
  filter (unsent c) ((fun pt => (v, pt)) <$> l) =
  (fun pt => (v, pt)) <$>
    filter (fun x : PilotRow * Row => existing_results_for_pilot c (p_id x.1) <> expected_number_of_results c) l.
Proof.
  induction l as [|x l IH]; [done|]. rewrite fmap_cons, !filter_cons, IH. unfold unsent. cbn [snd].
  repeat case_decide; done.
Qed.

Lemma run_variants_spec c vs db : forall js,
  let all := all_pilots c vs db in
  let todo := filter (unsent c) all in
  Z.of_nat (length all) < 2 ^ 32 ->
  0 <= default 0 (m_TotalCount js) -> default 0 (m_TotalCount js) + Z.of_nat (length all) < 2 ^ 64 ->
  0 <= m_DoneCount js -> m_DoneCount js + Z.of_nat (length all) < 2 ^ 64 ->
  exists js', run_variants (IP := Z) order_by_instr1 c vs db js = Some (message_of c <$> todo, js') /\
    default 0 (m_TotalCount js') = default 0 (m_TotalCount js) + Z.of_nat (length all) /\
    m_DoneCount js' = m_DoneCount js + Z.of_nat (length all) - Z.of_nat (length todo).
Proof.
  induction vs as [|v vs IH]; intros js all todo Hl Ht0 Ht Hd0 Hd.
  { exists js. split; [done|]. simpl. lia. }
  unfold todo, all in *. clear todo all. rewrite all_pilots_cons in *. rewrite filter_app, filter_pairs, fmap_app.
  rewrite !length_app, !length_fmap in *. cbn [run_variants]. rewrite run_variant_spec by lia.
  cbn [mbind option_bind]. set (q := pilots_query order_by_instr1 c (v_id v) db) in *.
  set (t := filter (fun x : PilotRow * Row => existing_results_for_pilot c (p_id x.1) <> expected_number_of_results c) q).
  assert (length t <= length q)%nat as Htq by apply length_filter.
  destruct (skip_counters (length q - length t) (increaseTotalCount (Z.of_nat (length q)) js)) as [Hdone Htot]; [done | simpl; lia|].
  set (js1 := Nat.iter _ _ _) in *. cbn [increaseTotalCount upd_counters m_DoneCount m_TotalCount] in Hdone, Htot.
  rewrite u64_small in Htot by lia.
  destruct (IH js1) as (js' & E & Ht' & Hd'); rewrite ?Hdone, ?Htot; cbn [default from_option id]; try lia.
  rewrite E. cbn [mbind option_bind]. exists js'. split; [|rewrite Ht', Hd', Hdone, Htot; cbn [default from_option id]; lia].
  do 3 f_equal. by rewrite <- list_fmap_compose.
Qed.

Lemma pilots_query_elem c v db p t :
  (forall l, order_by_instr1 l ≡ₚ l) -> (p, t) ∈ pilots_query order_by_instr1 c v db ->
  p ∈ fsppilot db /\ p_variant_id p = v /\ p_fspmethod_id p ∈ fspmethods c.
Proof.
  intros Ho. unfold pilots_query. rewrite Ho, list_elem_of_bind. intros (p' & Hin & Hp). 
  apply list_elem_of_filter in Hp as [[Hf Hv] Hp]. apply list_elem_of_bind in Hin as (t' & Hin & _).
  apply list_elem_of_singleton in Hin as [= -> ->]. done.
Qed.

Lemma all_pilots_elem c vs db x :
  (forall l, order_by_instr1 l ≡ₚ l) -> x ∈ all_pilots c vs db ->
  x.2.1 ∈ fsppilot db /\ p_variant_id x.2.1 ∈ v_id <$> vs /\ p_fspmethod_id x.2.1 ∈ fspmethods c.
Proof.
  intros Ho. unfold all_pilots. rewrite list_elem_of_bind. intros (v & Hin & Hv).
  apply list_elem_of_bind in Hin as ([p t] & Hin & Hq). apply list_elem_of_singleton in Hin as ->.
  destruct (pilots_query_elem _ _ _ _ _ Ho Hq) as (? & Hpv & ?). split; [done|]. split; [|done].
  cbn [fst snd]. rewrite Hpv. by apply list_elem_of_fmap_2.
Qed.

Lemma load_completed_fields variants db table c :
  let c' := load_completed_pilots variants db table c in
  m_inject_bursts c' = m_inject_bursts c /\ m_register_injection_mode c' = m_register_injection_mode c /\
  fspmethods c' = fspmethods c.
Proof. unfold load_completed_pilots. by case_bool_decide. Qed.

(** What a run of the campaign sends, and how it counts. *)
Lemma run_campaign_spec c vs db table cap runid :
  (forall l, order_by_instr1 l ≡ₚ l) -> completed_pilots c = ∅ -> NoDup (p_id <$> fsppilot db) ->
  Z.of_nat (length table) < 2 ^ 32 -> Z.of_nat (length (all_pilots c vs db)) < 2 ^ 32 ->
  let todo := filter (incomplete c table) (all_pilots c vs db) in
  exists js, run_campaign (IP := Z) order_by_instr1 c vs db table (new_JobServer cap runid) = Some (message_of c <$> todo, js) /\
    default 0 (m_TotalCount js) = Z.of_nat (length (all_pilots c vs db)) /\
    default 0 (m_TotalCount js) - m_DoneCount js = Z.of_nat (length todo).
Proof.
  intros Ho Hc Hnd Ht Hl todo. unfold run_campaign. set (c' := load_completed_pilots (v_id <$> vs) db table c).
  destruct (load_completed_fields (v_id <$> vs) db table c) as (Hb & Hm & Hf). fold c' in Hb, Hm, Hf.
  assert (all_pilots c' vs db = all_pilots c vs db) as Eall by (unfold all_pilots, pilots_query; by rewrite Hf).
  destruct (run_variants_spec c' vs db (new_JobServer cap runid)) as (js & E & Htot & Hdone); rewrite ?Eall; simpl; try lia.
  assert (filter (unsent c') (all_pilots c' vs db) = todo) as Etodo.
  { rewrite Eall. unfold todo. apply list_filter_iff_strong. intros x Hx.
    destruct (all_pilots_elem _ _ _ _ Ho Hx) as (? & ? & ?). unfold unsent, incomplete, c'.
    rewrite existing_results; try done.
    - unfold expected_number_of_results. fold c'. by rewrite Hb.
    - unfold result_count. eapply Z.le_lt_trans; [|exact Ht]. apply inj_le, length_filter. }
  rewrite Etodo, Eall in *. exists js. split; [|simpl in Htot, Hdone; lia]. rewrite E. do 2 f_equal.
  apply list_fmap_ext. intros _ x _. unfold message_of, pilot_message. by rewrite Hb, Hm.
Qed.

(** Results: the table has only offsets that the pilots' jobs have. *)
Definition table_ok (c : DatabaseCampaign) (vs : list Variant) (db : Database) (table : ResultTable) : Prop :=
  NoDup table /\
  forall x o, x ∈ all_pilots c vs db -> (p_id x.2.1, o) ∈ table -> o ∈ bit_offsets (pilot_message c x.1 x.2.1).

Lemma result_count_le id offsets table :
  NoDup table -> (forall o, (id, o) ∈ table -> o ∈ offsets) -> result_count table id <= Z.of_nat (length offsets).
Proof.
  intros Hnd Hin. unfold result_count. apply inj_le. rewrite <- (length_fmap (fun o => (id, o)) offsets).
  apply submseteq_length, NoDup_submseteq; [by apply NoDup_filter|]. intros [i o] Hr.
  apply list_elem_of_filter in Hr as [<- Hr]. apply list_elem_of_fmap_2, Hin, Hr.
Qed.

Lemma result_count_ge id offsets table :
  NoDup offsets -> (forall o, o ∈ offsets -> (id, o) ∈ table) -> Z.of_nat (length offsets) <= result_count table id.
Proof.
  intros Hnd Hin. unfold result_count. apply inj_le. rewrite <- (length_fmap (fun o => (id, o)) offsets).
  apply submseteq_length, NoDup_submseteq; [apply NoDup_fmap_2; [intros o1 o2 [=]; done|done]|].
  intros r (o & -> & Ho)%list_elem_of_fmap. apply list_elem_of_filter. split; [done | by apply Hin].
Qed.

Lemma result_count_mono id (t1 t2 : ResultTable) : t1 ⊆+ t2 -> result_count t1 id <= result_count t2 id.
Proof.
  intros [t Ht]%submseteq_Permutation. unfold result_count.
  rewrite (Permutation_length (filter_Permutation (fun r : Z * Z => r.1 = id) _ _ Ht)), filter_app, length_app. lia.
Qed.

Lemma insert_result_spec table key :
  (NoDup table -> NoDup (insert_result table key)) /\ table ⊆+ insert_result table key /\
  forall k, k ∈ insert_result table key <-> k ∈ table \/ k = key.
Proof.
  unfold insert_result. case_bool_decide as Hk.
  - split; [done|]. split; [done|]. intros k. split; [auto|]. intros [? | ->]; done.
  - split; [|split].
    + intros Hnd. apply NoDup_app. split; [done|]. split; [|apply NoDup_singleton].
      intros x Hx ->%list_elem_of_singleton. done.
    + apply submseteq_inserts_r. done.
    + intros k. by rewrite elem_of_app, list_elem_of_singleton.
Qed.

Lemma insert_keys_spec keys : forall table,
  (NoDup table -> NoDup (fold_left insert_result keys table)) /\ table ⊆+ fold_left insert_result keys table /\
  forall k, k ∈ fold_left insert_result keys table <-> k ∈ table \/ k ∈ keys.
Proof.
  induction keys as [|key keys IH]; intros table; simpl.
  { split; [done|]. split; [done|]. intros k. rewrite elem_of_nil. tauto. }
  destruct (insert_result_spec table key) as (Hn1 & Hs1 & Hk1), (IH (insert_result table key)) as (Hn2 & Hs2 & Hk2).
  split; [auto|]. split; [by etrans|]. intros k. rewrite Hk2, Hk1, elem_of_cons. tauto.
Qed.

(** Results of several jobs, in the order they arrive. *)
Definition store_results (arrived : list (DatabaseCampaignMessage * list DatabaseExperimentMessage)) (table : ResultTable)
    : ResultTable := fold_left (fun t x => insert_results x.1 x.2 t) arrived table.

Lemma store_results_spec arrived : forall table,
  (NoDup table -> NoDup (store_results arrived table)) /\ table ⊆+ store_results arrived table /\
  forall k, k ∈ store_results arrived table <->
    k ∈ table \/ exists m rs r, (m, rs) ∈ arrived /\ r ∈ rs /\ k = (pm_pilot_id m, bitoffset r).
Proof.
  induction arrived as [|[m rs] arrived IH]; intros table.
  { split; [done|]. split; [done|]. intros k. split; [auto|]. intros [?|(m & rs & r & Hm & _)]; [done|]. by apply elem_of_nil in Hm. }
  unfold store_results in *. cbn [fold_left fst snd]. unfold insert_results at 2 4 6.
  set (keys := (fun r => (pm_pilot_id m, bitoffset r)) <$> rs). destruct (insert_keys_spec keys table) as (Hn1 & Hs1 & Hk1).
  destruct (IH (fold_left insert_result keys table)) as (Hn2 & Hs2 & Hk2).
  split; [auto|]. split; [by etrans|]. intros k. rewrite Hk2, Hk1. unfold keys. rewrite list_elem_of_fmap. split.
  - intros [[?|(r & -> & Hr)]|(m' & rs' & r & Hm & ? & ->)]; [auto | right; exists m, rs, r; set_solver | right; exists m', rs', r; set_solver].
  - intros [?|(m' & rs' & r & [[= -> ->]|Hm]%elem_of_cons & Hr & ->)]; [auto | left; right; eauto | right; exists m', rs', r; auto].
Qed.

(** The bit offsets of a job for one byte. *)
Lemma expected_offsets c v p :
  Pruners.data_width p = 1 ->
  Z.of_nat (length (bit_offsets (pilot_message c v p)))
  = if m_inject_bursts c || bool_decide (m_register_injection_mode c = RANDOMJUMP) then 1 else 8.
Proof.
  intros Hw. rewrite bit_offsets_length by (simpl; lia). unfold injection_width_of. cbn [pilot_message pm_data_width inject_bursts register_injection_mode].
  rewrite Hw. by destruct (_ || _).
Qed.
End campaign_theorems.

Section results.
Context {M S : Type} `{!Machine M, !Experiment M S} (addr_width : Z) (arch : CPUArchitecture) (n : nat).

(** The results are those of a client that ran the job to its end. *)
Definition job_done (x : DatabaseCampaignMessage * list DatabaseExperimentMessage) : Prop :=
  exists s s', run_job addr_width arch n x.1 s = Some (Some (x.2, s')).

Lemma run_bit_offset p o s r s' :
  run_bit addr_width arch n p o s = Some (Finished r s') -> bitoffset r = o.
Proof.
  unfold run_bit. destruct (cb_before_fast_forward _) as [[] s1]; cbn [negb]; [|by intros [= <- _]].
  intros ([l s2] & _ & E)%bind_Some. destruct (cb_after_fast_forward _ _) as [[] s3]; cbn [negb] in E; [|by injection E as <- _].
  destruct (_ && _); [done|]. apply bind_Some in E as ([v m] & _ & E).
  destruct (cb_before_resume _) as [[] s4]; cbn [negb] in E; [|by injection E as <- _].
  apply bind_Some in E as ([l' s5] & _ & E). by injection E as <- _.
Qed.

Lemma run_bits_offsets p offsets : forall s rs s',
  run_bits addr_width arch n p offsets s = Some (Some (rs, s')) -> bitoffset <$> rs = offsets.
Proof.
  induction offsets as [|o offsets IH]; intros s rs s' E; cbn [run_bits] in E; [by injection E as <- _|].
  apply bind_Some in E as (out & E1 & E). destruct out as [r s1|]; [|done].
  apply bind_Some in E as (rest & E2 & E). destruct rest as [[rs1 s2]|]; [|done]. injection E as <- _.
  rewrite fmap_cons, (run_bit_offset _ _ _ _ _ E1). f_equal. by eapply IH.
Qed.

Lemma job_done_offsets x : job_done x -> bitoffset <$> x.2 = bit_offsets x.1.
Proof. intros (s & s' & E). by eapply run_bits_offsets. Qed.
End results.

Lemma fmap_NoDup_inj {A B} (f : A -> B) (l : list A) x y : NoDup (f <$> l) -> x ∈ l -> y ∈ l -> f x = f y -> x = y.
Proof.
  intros Hnd (i & Hi)%list_elem_of_lookup (j & Hj)%list_elem_of_lookup Hf.
  assert (i = j) as ->; [|congruence].
  eapply NoDup_lookup; [exact Hnd | |]; rewrite list_lookup_fmap; [by rewrite Hi | by rewrite Hj, Hf].
Qed.

(** The results a pilot's jobs give. *)
Definition job_results (c : DatabaseCampaign) (x : Variant * (PilotRow * Row)) : Z :=
  Z.of_nat (length (bit_offsets (pilot_message c x.1 x.2.1))).

(** Once the results of all messages sent are stored, a pilot that was incomplete has the results of
    its job, the others have what they had. *)
Lemma stored_count {M S : Type} `{!Machine M, !Experiment M S} addr_width arch n order_by_instr1 c vs db table arrived x :
  (forall l, order_by_instr1 l ≡ₚ l) -> NoDup (p_id <$> fsppilot db) ->
  table_ok order_by_instr1 c vs db table -> Forall (job_done (S := S) addr_width arch n) arrived ->
  (forall m, m ∈ arrived.*1 <-> m ∈ (message_of c <$> filter (incomplete c table) (all_pilots order_by_instr1 c vs db)).*1) ->
  x ∈ all_pilots order_by_instr1 c vs db ->
  result_count (store_results arrived table) (p_id x.2.1)
  = if decide (incomplete c table x) then job_results c x else result_count table (p_id x.2.1).
Proof.
  intros Ho Hnd [Htnd Htok] Hdone Harr Hx. destruct (store_results_spec arrived table) as (Hn & Hsub & Hk).
  rewrite Forall_forall in Hdone.
  assert (forall m rs r, (m, rs) ∈ arrived -> r ∈ rs -> pm_pilot_id m = p_id x.2.1 ->
            incomplete c table x /\ bitoffset r ∈ bit_offsets (pilot_message c x.1 x.2.1)) as Hnew.
  { intros m rs r Hm Hr Hid.
    assert (m ∈ arrived.*1) as Hm1 by (apply list_elem_of_fmap; by exists (m, rs)).
    apply Harr in Hm1. rewrite <- list_fmap_compose in Hm1. apply list_elem_of_fmap in Hm1 as (y & Em & [Hi Hy]%list_elem_of_filter).
    cbn in Em. subst m.
    assert (x.2.1 = y.2.1) as E.
    { apply (fmap_NoDup_inj p_id (fsppilot db)); [exact Hnd | by eapply all_pilots_elem | by eapply all_pilots_elem | exact (eq_sym Hid)]. }
    split; [unfold incomplete in *; by rewrite E|].
    apply (list_elem_of_fmap_2 bitoffset) in Hr.
    pose proof (job_done_offsets _ _ _ _ (Hdone _ Hm)) as Hoff. cbn [fst snd] in Hoff. rewrite Hoff in Hr. by rewrite E. }
  destruct (decide (incomplete c table x)) as [Hi|Hi]; apply Z.le_antisymm.
  - apply result_count_le; [by apply Hn|]. intros o [Hin|(m & rs & r & Hm & Hr & [= Hid ->])]%Hk; [by apply Htok|].
    by eapply Hnew.
  - assert (pilot_message c x.1 x.2.1 ∈ arrived.*1) as Hm.
    { apply Harr. rewrite <- list_fmap_compose. apply list_elem_of_fmap. exists x. split; [done|]. by apply list_elem_of_filter. }
    apply list_elem_of_fmap in Hm as ([m rs] & Em & Hm). cbn [fst] in Em. subst m.
    pose proof (job_done_offsets _ _ _ _ (Hdone _ Hm)) as Hoff. cbn [fst snd] in Hoff.
    apply result_count_ge; [apply bit_offsets_nodup|]. intros o Hin. rewrite <- Hoff in Hin.
    apply list_elem_of_fmap in Hin as (r & -> & Hr). apply Hk. right. exists (pilot_message c x.1 x.2.1), rs, r. auto.
  - unfold result_count at 2. rewrite <- (length_fmap snd). apply result_count_le; [by apply Hn|].
    intros o [Hin|(m & rs & r & Hm & Hr & [= Hid ->])]%Hk.
    + apply list_elem_of_fmap. exists (p_id x.2.1, o). split; [done|]. by apply list_elem_of_filter.
    + destruct Hi. by eapply Hnew.
  - by apply result_count_mono.
Qed.

(** A campaign sends what is missing: one message per pilot of the selected
    variants and methods (per trace row of it) that does not have its expected
    number of results, in the order of the queries, with the pilot's data; the
    other pilots are counted as done, so that the number of open jobs is the number
    of messages sent, and no assertion fails. *)
Theorem campaign_sends_missing order_by_instr1 c vs db table cap runid :
  (forall l, order_by_instr1 l ≡ₚ l) -> completed_pilots c = ∅ -> NoDup (p_id <$> fsppilot db) ->
  Z.of_nat (length table) < 2 ^ 32 -> Z.of_nat (length (all_pilots order_by_instr1 c vs db)) < 2 ^ 32 ->
  exists sent js, run_campaign (IP := Z) order_by_instr1 c vs db table (new_JobServer cap runid) = Some (sent, js) /\
    sent = message_of c <$> filter (incomplete c table) (all_pilots order_by_instr1 c vs db) /\
    default 0 (m_TotalCount js) = Z.of_nat (length (all_pilots order_by_instr1 c vs db)) /\
    default 0 (m_TotalCount js) - m_DoneCount js = Z.of_nat (length sent).
Proof.
  intros Ho Hc Hnd Ht Hl. destruct (run_campaign_spec order_by_instr1 c vs db table cap runid Ho Hc Hnd Ht Hl) as (js & E & H1 & H2).
  eexists _, js. split; [exact E|]. split; [done|]. by rewrite length_fmap.
Qed.

(** C11. A campaign can be resumed.  Let the table have results of the pilots' own bits only, and let
    the results of every message sent be stored (in any order, jobs run by several clients
    counted once).  A new run of the campaign then sends again exactly the pilots it had sent whose jobs give another number of
    results than the campaign expects; every other pilot is found complete.  In
    particular it sends nothing if the pilots are one byte wide and the campaign injects bursts or is not in the RANDOMJUMP mode;
    in that mode without bursts it sends every pilot again.  The clients' results are those of [run_job]. *)
Theorem campaign_restart {M S : Type} `{!Machine M, !Experiment M S} addr_width arch n
    order_by_instr1 c vs db table cap runid sent js arrived :
  (forall l, order_by_instr1 l ≡ₚ l) -> completed_pilots c = ∅ -> NoDup (p_id <$> fsppilot db) ->
  Z.of_nat (length (all_pilots order_by_instr1 c vs db)) < 2 ^ 32 ->
  table_ok order_by_instr1 c vs db table -> Z.of_nat (length (store_results arrived table)) < 2 ^ 32 ->
  run_campaign (IP := Z) order_by_instr1 c vs db table (new_JobServer cap runid) = Some (sent, js) ->
  (forall m, m ∈ arrived.*1 <-> m ∈ sent.*1) -> Forall (job_done (S := S) addr_width arch n) arrived ->
  exists again js',
    run_campaign (IP := Z) order_by_instr1 c vs db (store_results arrived table) (new_JobServer cap runid) = Some (again, js') /\
    again = message_of c <$> filter (fun x => incomplete c table x /\ job_results c x <> expected_number_of_results c)
                               (all_pilots order_by_instr1 c vs db) /\
    ((forall x, x ∈ all_pilots order_by_instr1 c vs db -> Pruners.data_width x.2.1 = 1) ->
     again = if negb (m_inject_bursts c) && bool_decide (m_register_injection_mode c = RANDOMJUMP)
             then message_of c <$> all_pilots order_by_instr1 c vs db else []).
Proof.
  intros Ho Hc Hnd Hl [Htnd Htok] Ht Erun Harr Hdone.
  destruct (store_results_spec arrived table) as (Hn & Hsub & Hk).
  assert (Z.of_nat (length table) < 2 ^ 32) as Htl by (pose proof (submseteq_length _ _ Hsub); lia).
  destruct (run_campaign_spec order_by_instr1 c vs db table cap runid Ho Hc Hnd Htl Hl) as (js1 & E1 & _).
  rewrite E1 in Erun. injection Erun as <- <-.
  destruct (run_campaign_spec order_by_instr1 c vs db (store_results arrived table) cap runid Ho Hc Hnd Ht Hl) as (js2 & E2 & _).
  eexists _, js2. split; [exact E2|]. split.
  - f_equal. apply list_filter_iff_strong. intros x Hx. unfold incomplete at 1.
    rewrite (stored_count addr_width arch n order_by_instr1 c vs db table arrived x) by (done || by split).
    destruct (decide (incomplete c table x)) as [Hi|Hi]; [tauto|]. split; [by intros ?%Hi | by intros [? _]].
  - intros Hw.
    assert (forall x, x ∈ all_pilots order_by_instr1 c vs db ->
      incomplete c (store_results arrived table) x <-> negb (m_inject_bursts c) && bool_decide (m_register_injection_mode c = RANDOMJUMP) = true) as Hall.
    { intros x Hx. pose proof (result_count_le (p_id x.2.1) _ table Htnd (fun o => Htok x o Hx)) as Hle.
      unfold incomplete. rewrite (stored_count addr_width arch n order_by_instr1 c vs db table arrived x) by (done || by split).
      destruct (decide (incomplete c table x)) as [Hi|Hi]; unfold incomplete, job_results in Hi |- *;
        rewrite expected_offsets in Hle by auto; rewrite ?expected_offsets by auto; unfold expected_number_of_results in Hi |- *; clear - Hi Hle;
        destruct (m_inject_bursts c), (bool_decide (m_register_injection_mode c = RANDOMJUMP)); cbn [orb negb andb] in *;
        split; intros; (done || lia). }
    destruct (negb _ && _).
    + rewrite list_filter_all; [done|]. intros x Hx. by apply Hall.
    + rewrite list_filter_none; [done|]. intros x Hx Hi. by apply Hall in Hi.
Qed.

(** Random jumps without bursts are never complete: their jobs give one
    result per byte, eight are expected, so every run of the campaign sends all
    pilots again, whatever the table holds. *)
Theorem randomjump_never_complete order_by_instr1 c vs db table cap runid :
  (forall l, order_by_instr1 l ≡ₚ l) -> completed_pilots c = ∅ -> NoDup (p_id <$> fsppilot db) ->
  (forall x, x ∈ all_pilots order_by_instr1 c vs db -> Pruners.data_width x.2.1 = 1) ->
  m_inject_bursts c = false -> m_register_injection_mode c = RANDOMJUMP ->
  Z.of_nat (length (all_pilots order_by_instr1 c vs db)) < 2 ^ 32 ->
  table_ok order_by_instr1 c vs db table -> Z.of_nat (length table) < 2 ^ 32 ->
  exists js, run_campaign (IP := Z) order_by_instr1 c vs db table (new_JobServer cap runid)
             = Some (message_of c <$> all_pilots order_by_instr1 c vs db, js).
Proof.
  intros Ho Hc Hnd Hw Hb Hm Hl [Htnd Htok] Ht.
  destruct (run_campaign_spec order_by_instr1 c vs db table cap runid Ho Hc Hnd Ht Hl) as (js & E & _).
  exists js. rewrite E. rewrite list_filter_all; [done|]. intros x Hx.
  pose proof (result_count_le (p_id x.2.1) _ table Htnd (fun o => Htok x o Hx)) as Hle.
  rewrite expected_offsets, Hb, Hm, bool_decide_eq_true_2 in Hle by auto. cbn [orb] in Hle.
  unfold incomplete, expected_number_of_results. rewrite Hb. lia.
Qed.

(** ** A concrete campaign *)

Module CampaignDemo.

Definition row : Row := mkRow 1 1 None 3 (Some 4096) 10 30 5000 1 READ None [].
Definition db : Database := mkDB [row] [mkPilot 7 0 1 3 3 (Some 4096) 5000 1 2] [] 8.
Definition vs : list Variant := [mkVariant 1 "v" "b"].
Definition unordered (l : list (PilotRow * Row)) : list (PilotRow * Row) := l.
Definition campaign (mode : RegisterInjectionMode) : DatabaseCampaign := mkCampaign [2] false mode ∅.

Lemma unordered_perm l : unordered l ≡ₚ l.
Proof. done. Qed.

Lemma ids_distinct : NoDup (p_id <$> fsppilot db).
Proof. apply NoDup_singleton. Qed.

Lemma widths mode x : x ∈ all_pilots unordered (campaign mode) vs db -> Pruners.data_width x.2.1 = 1.
Proof.
  intros Hx. destruct (all_pilots_elem _ _ _ _ _ unordered_perm Hx) as [Hp _].
  apply list_elem_of_singleton in Hp as ->. reflexivity.
Qed.

Lemma empty_table_ok mode : table_ok unordered (campaign mode) vs db [].
Proof. split; [constructor|]. intros x o _ Hin. by apply elem_of_nil in Hin. Qed.

(** Two rows of one table and one of another: two statements. *)
Lemma insert_multiple_batches_witness :
  let rows := [("INSERT a", "1"); ("INSERT a", "2"); ("INSERT b", "3")] in
  rows_of (executed (flush (fun _ => true)
    (fold_left (fun b r => (insert_multiple (fun _ => true) r.1 r.2 b).2) rows new_Batch)).2) = rows.
Proof. apply insert_multiple_batches. repeat constructor; discriminate. Defined.

Lemma campaign_sends_missing_witness :
  exists sent js, run_campaign (IP := Z) unordered (campaign OFF) vs db [(7, 0)] (new_JobServer 0 1) = Some (sent, js) /\
    (pm_pilot_id ∘ fst) <$> sent = [7] /\ default 0 (m_TotalCount js) - m_DoneCount js = 1.
Proof.
  destruct (campaign_sends_missing unordered (campaign OFF) vs db [(7, 0)] 0 1) as (sent & js & E & -> & _ & H);
    [exact unordered_perm | reflexivity | exact ids_distinct | reflexivity | reflexivity |].
  eexists _, js. split; [exact E|]. split; [reflexivity | exact H].
Defined.

(** The results of the one job. *)
Definition message : DatabaseCampaignMessage := pilot_message (campaign OFF) (mkVariant 1 "v" "b") (mkPilot 7 0 1 3 3 (Some 4096) 5000 1 2).
Definition results : list DatabaseExperimentMessage :=
  match run_job (M := InjectionDemo.Mach) 64 InjectionDemo.arch 1 message InjectionDemo.m0 with
  | Some (Some (rs, _)) => rs
  | _ => []
  end.

Lemma campaign_restart_witness :
  exists js', run_campaign (IP := Z) unordered (campaign OFF) vs db (store_results [(message, results)] []) (new_JobServer 0 1)
              = Some ([], js').
Proof.
  assert (exists js, run_campaign (IP := Z) unordered (campaign OFF) vs db [] (new_JobServer 0 1) = Some ([(message, 3)], js))
    as [js Hrun] by (eexists; vm_compute; reflexivity).
  destruct (campaign_restart (M := InjectionDemo.Mach) (S := InjectionDemo.Mach) 64 InjectionDemo.arch 1
               unordered (campaign OFF) vs db [] 0 1 [(message, 3)] js [(message, results)]) as (again & js' & E & _ & Ha).
  - exact unordered_perm.
  - reflexivity.
  - exact ids_distinct.
  - reflexivity.
  - exact (empty_table_ok OFF).
  - vm_compute. reflexivity.
  - exact Hrun.
  - intros m. reflexivity.
  - constructor; [|constructor]. exists InjectionDemo.m0. vm_compute. eexists. reflexivity.
  - rewrite (Ha (widths OFF)) in E. exists js'. exact E.
Defined.

(** The pilot has its one result. *)
Lemma full_table_ok : table_ok unordered (campaign RANDOMJUMP) vs db [(7, 0)].
Proof.
  split; [apply NoDup_singleton|]. intros x o Hx Hin. apply list_elem_of_singleton in Hin as [= _ ->].
  change (x ∈ [(mkVariant 1 "v" "b", (mkPilot 7 0 1 3 3 (Some 4096) 5000 1 2, row))]) in Hx.
  apply list_elem_of_singleton in Hx as ->. vm_compute. constructor.
Qed.

Lemma randomjump_never_complete_witness :
  exists js, run_campaign (IP := Z) unordered (campaign RANDOMJUMP) vs db [(7, 0)] (new_JobServer 0 1)
             = Some (message_of (campaign RANDOMJUMP) <$> all_pilots unordered (campaign RANDOMJUMP) vs db, js).
Proof.
  apply randomjump_never_complete;
    [exact unordered_perm | reflexivity | exact ids_distinct | exact (widths RANDOMJUMP) | reflexivity | reflexivity
     | reflexivity | exact full_table_ok | reflexivity].
Defined.

End CampaignDemo.
