(* ===== verification/ElfReader.v ===== *)
(** * The ELF reader

    [src/core/util/ElfReader.{hpp,cc}]: symbols, sections and segments of a binary, read
    from its headers, and the queries on them.

    The file is a list of bytes, read at a position that [fseek] moves; a structure is
    read as its fields in memory order, least significant byte first (the code runs on such
    machines).  [None] means that the code has no defined behaviour, e.g. when a name
    is read beyond its string table.  [malloc] says which requests succeed, [cplus_demangle]
    is the library function. *)
From S2P Require Import Prelude Events.

(** ** Structures of [elf.h] *)

Fixpoint le_value (l : list Z) : Z :=
  match l with [] => 0 | b :: l => b + 256 * le_value l end.

(** Fields of the given widths. *)
Fixpoint fields (ws : list nat) (l : list Z) : list Z :=
  match ws with [] => [] | w :: ws => le_value (take w l) :: fields ws (drop w l) end.

Definition fld (v : list Z) (i : nat) : Z := default 0 (v !! i).

Definition ELFCLASS32 : Z := 1.
Definition ELFCLASS64 : Z := 2.
Definition PT_LOAD : Z := 1.
Definition SHT_SYMTAB : Z := 2.
Definition SHT_DYNSYM : Z := 11.
Definition STT_SECTION : Z := 3.
Definition STT_FILE : Z := 4.

Record Elf64_Ehdr := mkEhdr {
  e_ident : list Z; e_type : Z; e_machine : Z; e_version : Z; e_entry : Z; e_phoff : Z;
  e_shoff : Z; e_flags : Z; e_ehsize : Z; e_phentsize : Z; e_phnum : Z; e_shentsize : Z;
  e_shnum : Z; e_shstrndx : Z
}.

Record Elf64_Shdr := mkShdr {
  sh_name : Z; sh_type : Z; sh_flags : Z; sh_addr : Z; sh_offset : Z; sh_size : Z;
  sh_link : Z; sh_info : Z; sh_addralign : Z; sh_entsize : Z
}.

Record Elf64_Phdr := mkPhdr {
  p_type : Z; p_flags : Z; p_offset : Z; p_vaddr : Z; p_paddr : Z; p_filesz : Z;
  p_memsz : Z; p_align : Z
}.

Record Elf64_Sym := mkElfSym {
  st_name : Z; st_info : Z; st_other : Z; st_shndx : Z; st_value : Z; st_size : Z
}.

Definition widths_ehdr32 : list nat := [2; 2; 4; 4; 4; 4; 4; 2; 2; 2; 2; 2; 2]%nat.
Definition widths_ehdr64 : list nat := [2; 2; 4; 8; 8; 8; 4; 2; 2; 2; 2; 2; 2]%nat.
Definition widths_shdr32 : list nat := [4; 4; 4; 4; 4; 4; 4; 4; 4; 4]%nat.
Definition widths_shdr64 : list nat := [4; 4; 8; 8; 8; 8; 4; 4; 8; 8]%nat.
Definition widths_phdr32 : list nat := [4; 4; 4; 4; 4; 4; 4; 4]%nat.
Definition widths_phdr64 : list nat := [4; 4; 8; 8; 8; 8; 8; 8]%nat.
Definition widths_sym32 : list nat := [4; 4; 4; 1; 1; 2]%nat.
Definition widths_sym64 : list nat := [4; 1; 1; 2; 8; 8]%nat.

(** The 32-bit structures are widened; their fields keep their values. *)
Definition ehdr_of (l v : list Z) : Elf64_Ehdr :=
  mkEhdr (take 16 l) (fld v 0) (fld v 1) (fld v 2) (fld v 3) (fld v 4) (fld v 5) (fld v 6)
    (fld v 7) (fld v 8) (fld v 9) (fld v 10) (fld v 11) (fld v 12).
Definition Elf32to64_Ehdr (l : list Z) : Elf64_Ehdr := ehdr_of l (fields widths_ehdr32 (drop 16 l)).
Definition load_Ehdr (l : list Z) : Elf64_Ehdr := ehdr_of l (fields widths_ehdr64 (drop 16 l)).

Definition shdr_of (v : list Z) : Elf64_Shdr :=
  mkShdr (fld v 0) (fld v 1) (fld v 2) (fld v 3) (fld v 4) (fld v 5) (fld v 6) (fld v 7)
    (fld v 8) (fld v 9).
Definition Elf32to64_Shdr (l : list Z) : Elf64_Shdr := shdr_of (fields widths_shdr32 l).
Definition load_Shdr (l : list Z) : Elf64_Shdr := shdr_of (fields widths_shdr64 l).

(** The flags are at different places. *)
Definition Elf32to64_Phdr (l : list Z) : Elf64_Phdr :=
  let v := fields widths_phdr32 l in
  mkPhdr (fld v 0) (fld v 6) (fld v 1) (fld v 2) (fld v 3) (fld v 4) (fld v 5) (fld v 7).
Definition load_Phdr (l : list Z) : Elf64_Phdr :=
  let v := fields widths_phdr64 l in
  mkPhdr (fld v 0) (fld v 1) (fld v 2) (fld v 3) (fld v 4) (fld v 5) (fld v 6) (fld v 7).

Definition Elf32to64_Sym (l : list Z) : Elf64_Sym :=
  let v := fields widths_sym32 l in
  mkElfSym (fld v 0) (fld v 3) (fld v 4) (fld v 5) (fld v 1) (fld v 2).
Definition load_Sym (l : list Z) : Elf64_Sym :=
  let v := fields widths_sym64 l in
  mkElfSym (fld v 0) (fld v 1) (fld v 2) (fld v 3) (fld v 4) (fld v 5).

(** [ELF32_ST_TYPE] and [ELF64_ST_TYPE]. *)
Definition ST_TYPE (info : Z) : Z := Z.land info 0xf.

(** ** Files *)

Section file.
Context (file : list Z).

Definition fseek (off pos : Z) : Z := if off <? 0 then pos else off.

Definition rest_at (pos : Z) : list Z :=
  if pos <? Z.of_nat (length file) then drop (Z.to_nat pos) file else [].

(** [fread] of one element of [n] bytes; an empty element counts as not read. *)
Definition fread (n pos : Z) : option (list Z) * Z :=
  let r := rest_at pos in
  if n =? 0 then (None, pos)
  else if n <=? Z.of_nat (length r) then (Some (take (Z.to_nat n) r), pos + n)
  else (None, pos + Z.of_nat (length r)).

(** A string in a buffer; [None]: it begins or ends outside. *)
Fixpoint until_nul (l : list Z) : option (list Z) :=
  match l with
  | [] => None
  | c :: l => if c =? 0 then Some [] else w ← until_nul l; Some (c :: w)
  end.
Definition c_string (buf : list Z) (idx : Z) : option (list Z) :=
  if (idx <? 0) || (Z.of_nat (length buf) <=? idx) then None
  else until_nul (drop (Z.to_nat idx) buf).

(** ** Headers *)

(** Machine and class are stored as soon as the magic number is found. *)
Definition read_ELF_file_header : option (Z * Z) * option Elf64_Ehdr * Z :=
  match fread 52 0 with
  | (None, pos) => (None, None, pos)
  | (Some l, pos) =>
      if decide (take 4 l = [0x7f; 69; 76; 70]) then
        let h := Elf32to64_Ehdr l in
        let m_elfclass := fld l 4 in
        let found := Some (e_machine h, m_elfclass) in
        if m_elfclass =? ELFCLASS32 then (found, Some h, pos)
        else if m_elfclass =? ELFCLASS64 then
          match fread 64 0 with
          | (Some l, pos) => (found, Some (load_Ehdr l), pos)
          | (None, pos) => (found, None, pos)
          end
        else (found, None, pos)
      else (None, None, pos)
  end.

Section headers.
Context (m_elfclass : Z) (filehdr : Elf64_Ehdr).

(** [None]: the product or the sum overflows. *)
Definition read_ELF_section_header (section pos : Z) : option (option Elf64_Shdr * Z) :=
  if (e_shnum filehdr <? section) || (section <? 0) then Some (None, pos) else
  let prod := e_shentsize filehdr * section in
  if 2 ^ 31 <=? prod then None else
  let sect_hdr_off := s64 (e_shoff filehdr) + prod in
  if 2 ^ 63 <=? sect_hdr_off then None else
  let pos := fseek sect_hdr_off pos in
  Some (if m_elfclass =? ELFCLASS32 then
          let '(l, pos) := fread 40 pos in (Elf32to64_Shdr <$> l, pos)
        else if m_elfclass =? ELFCLASS64 then
          let '(l, pos) := fread 64 pos in (load_Shdr <$> l, pos)
        else (None, pos)).

Definition read_ELF_segment_header (segment pos : Z) : option (option Elf64_Phdr * Z) :=
  if e_phnum filehdr <? segment then Some (None, pos) else
  let phdr_offset := s64 (e_phoff filehdr) + u32 (e_phentsize filehdr * segment) in
  if 2 ^ 63 <=? phdr_offset then None else
  let pos := fseek phdr_offset pos in
  Some (if m_elfclass =? ELFCLASS32 then
          let '(l, pos) := fread 32 pos in (Elf32to64_Phdr <$> l, pos)
        else
          let '(l, pos) := fread 56 pos in (load_Phdr <$> l, pos)).
End headers.
End file.

(** ** Symbols, sections and segments *)

Definition SECTION : Z := 1.
Definition SYMBOL : Z := 2.
Definition UNDEF : Z := 3.

Record ElfSymbol := mkSymbol {
  sym_name : list Z;
  sym_address : Z;
  sym_size : Z;
  m_type : Z;
  m_symbol_type : Z
}.

Definition NOTFOUND : list Z := chars "[ELFReader] Function not found.".

(** The default arguments; the invalid address is 0. *)
Definition g_SymbolNotFound : ElfSymbol := mkSymbol NOTFOUND 0 (u64 (-1)) UNDEF 0.

Record ElfSegment := mkSegment { m_paddress : Z; m_vaddress : Z; m_size : Z; m_flags : Z }.

Record ElfReader := mkReader {
  m_class : option (Z * Z);        (** machine and class, if they were set *)
  m_symboltable : list ElfSymbol;
  m_sectiontable : list ElfSymbol;
  m_segmenttable : list ElfSegment
}.

Section symbols.
Context `{SalConfig}.

Definition new_ElfSymbol (name : list Z) (addr size type symbol_type : Z) : ElfSymbol :=
  mkSymbol name (wrap addr_bits addr) size type symbol_type.

Definition getEnd (s : ElfSymbol) : Z := wrap addr_bits (sym_address s + sym_size s).
Definition isSection (s : ElfSymbol) : bool := m_type s =? SECTION.
Definition isSymbol (s : ElfSymbol) : bool := m_type s =? SYMBOL.
Definition isValid (s : ElfSymbol) : bool := bool_decide (sym_name s <> NOTFOUND).

(** The end is computed with the width of [size_t]. *)
Definition contains (s : ElfSymbol) (ad : Z) : bool :=
  (sym_address s <=? ad) && (ad <? u64 (sym_address s + sym_size s)).

Definition new_ElfSegment (hdr : Elf64_Phdr) : ElfSegment :=
  mkSegment (wrap addr_bits (p_paddr hdr)) (wrap addr_bits (p_vaddr hdr)) (p_memsz hdr) (p_flags hdr).

Definition isExecutable (s : ElfSegment) : bool := negb (Z.land (m_flags s) 1 =? 0).
Definition isWriteable (s : ElfSegment) : bool := negb (Z.land (m_flags s) 2 =? 0).
Definition isReadable (s : ElfSegment) : bool := negb (Z.land (m_flags s) 4 =? 0).

(** [None]: the assertion that both addresses are equal fails. *)
Definition seg_getStart (s : ElfSegment) : option Z :=
  if m_paddress s =? m_vaddress s then Some (m_paddress s) else None.
Definition seg_getEnd (s : ElfSegment) : option Z :=
  if m_paddress s =? m_vaddress s then Some (wrap addr_bits (m_paddress s + m_size s)) else None.

(** ** Reading a file *)

Section reading.
Context (malloc : Z -> bool) (file : list Z) (m_elfclass : Z) (ehdr : Elf64_Ehdr).

Definition process_segment (hdr : Elf64_Phdr) (table : list ElfSegment) : list ElfSegment :=
  if p_type hdr =? PT_LOAD then table ++ [new_ElfSegment hdr] else table.

Fixpoint read_segments (idxs : list Z) (table : list ElfSegment) (pos : Z)
    : option (list ElfSegment * Z) :=
  match idxs with
  | [] => Some (table, pos)
  | i :: idxs =>
      '(hdr, pos) ← read_ELF_segment_header file m_elfclass ehdr i pos;
      read_segments idxs (match hdr with Some hdr => process_segment hdr table | None => table end) pos
  end.

(** The symbols of a table, up to one that cannot be read. *)
Fixpoint read_symbols (n : nat) (name_buf : list Z) (table : list ElfSymbol) (pos : Z)
    : option (list ElfSymbol * Z) :=
  match n with
  | O => Some (table, pos)
  | S n =>
      let '(l, pos) := fread file (if m_elfclass =? ELFCLASS32 then 16 else 24) pos in
      match l with
      | None => Some (table, pos)
      | Some l =>
          let mysym := if m_elfclass =? ELFCLASS32 then Elf32to64_Sym l else load_Sym l in
          let type := ST_TYPE (st_info mysym) in
          if negb (type =? STT_SECTION) && negb (type =? STT_FILE) then
            name ← c_string name_buf (s32 (st_name mysym));
            read_symbols n name_buf
              (table ++ [new_ElfSymbol name (st_value mysym) (st_size mysym) SYMBOL type]) pos
          else read_symbols n name_buf table pos
      end
  end.

Definition process_symboltable (sect_num : Z) (table : list ElfSymbol) (pos : Z)
    : option (list ElfSymbol * Z) :=
  '(sect_hdr, pos) ← read_ELF_section_header file m_elfclass ehdr sect_num pos;
  match sect_hdr with
  | None => Some (table, pos)
  | Some sect_hdr =>
      let link := s32 (sh_link sect_hdr) in
      let sym_data_offset := s64 (sh_offset sect_hdr) in
      let sym_data_size := s32 (sh_size sect_hdr) in
      let num_sym := s32 (u64 sym_data_size / (if m_elfclass =? ELFCLASS32 then 16 else 24)) in
      '(sect_hdr, pos) ← read_ELF_section_header file m_elfclass ehdr link pos;
      match sect_hdr with
      | None => Some (table, pos)
      | Some sect_hdr =>
          if malloc (sh_size sect_hdr) then
            let pos := fseek (s64 (sh_offset sect_hdr)) pos in
            match fread file (sh_size sect_hdr) pos with
            | (None, pos) => Some (table, pos)
            | (Some name_buf, pos) =>
                let pos := fseek sym_data_offset pos in
                read_symbols (Z.to_nat num_sym) name_buf table pos
            end
          else Some (table, pos)
      end
  end.

Fixpoint read_symboltables (idxs : list Z) (table : list ElfSymbol) (pos : Z)
    : option (list ElfSymbol * Z) :=
  match idxs with
  | [] => Some (table, pos)
  | i :: idxs =>
      '(sec_hdr, pos) ← read_ELF_section_header file m_elfclass ehdr i pos;
      match sec_hdr with
      | None => read_symboltables idxs table pos
      | Some sec_hdr =>
          if negb (sh_type sec_hdr =? SHT_SYMTAB) && negb (sh_type sec_hdr =? SHT_DYNSYM)
          then read_symboltables idxs table pos
          else '(table, pos) ← process_symboltable i table pos; read_symboltables idxs table pos
      end
  end.

Definition process_section (sect_hdr : Elf64_Shdr) (buff : list Z) (table : list ElfSymbol)
    : option (list ElfSymbol) :=
  name ← c_string buff (s32 (sh_name sect_hdr));
  Some (table ++ [new_ElfSymbol name (sh_addr sect_hdr) (sh_size sect_hdr) SECTION 0]).

Fixpoint read_sections (idxs : list Z) (buff : list Z) (table : list ElfSymbol) (pos : Z)
    : option (list ElfSymbol * Z) :=
  match idxs with
  | [] => Some (table, pos)
  | i :: idxs =>
      '(sec_hdr, pos) ← read_ELF_section_header file m_elfclass ehdr i pos;
      table ← match sec_hdr with Some h => process_section h buff table | None => Some table end;
      read_sections idxs buff table pos
  end.
End reading.

(** [setup] ends normally, or the program with [exit(0)]. *)
Inductive Setup := Ready (r : ElfReader) | Exited.

Definition setup (malloc : Z -> bool) (file : option (list Z)) : option Setup :=
  match file with
  | None => Some (Ready (mkReader None [] [] []))
  | Some file =>
      match read_ELF_file_header file with
      | (found, None, _) => Some (Ready (mkReader found [] [] []))
      | (found, Some ehdr, pos) =>
          let m_elfclass := from_option snd 0 found in
          let num_hdrs := seqZ 0 (e_shnum ehdr) in
          '(segments, pos) ← read_segments file m_elfclass ehdr (seqZ 0 (e_phnum ehdr)) [] pos;
          '(symbols, pos) ← read_symboltables malloc file m_elfclass ehdr num_hdrs [] pos;
          '(sec_hdr, pos) ← read_ELF_section_header file m_elfclass ehdr (e_shstrndx ehdr) pos;
          match sec_hdr with
          | None => Some (Ready (mkReader found symbols [] segments))
          | Some sec_hdr =>
              if malloc (sh_size sec_hdr) then
                let pos := fseek (s64 (sh_offset sec_hdr)) pos in
                match fread file (sh_size sec_hdr) pos with
                | (None, _) => Some Exited
                | (Some buff, pos) =>
                    '(sections, _) ← read_sections file m_elfclass ehdr num_hdrs buff [] pos;
                    Some (Ready (mkReader found symbols sections segments))
                end
              else Some (Ready (mkReader found symbols [] segments))
          end
      end
  end.

(** ** Queries *)

Definition first_of {A} (P : A -> bool) (l : list A) (d : A) : A :=
  default d (head (filter (fun x => P x = true) l)).

Definition getSymbol_at (address : Z) (r : ElfReader) : ElfSymbol :=
  first_of (fun s => contains s address) (m_symboltable r) g_SymbolNotFound.

Definition getSection_at (address : Z) (r : ElfReader) : ElfSymbol :=
  first_of (fun s => contains s address) (m_sectiontable r) g_SymbolNotFound.

Definition getSection (name : list Z) (r : ElfReader) : ElfSymbol :=
  first_of (fun s => bool_decide (sym_name s = name)) (m_sectiontable r) g_SymbolNotFound.

Section demangler.
Context (cplus_demangle : list Z -> option (list Z)).

Definition DEMANGLE_FAILED : list Z := chars "[Demangler] Demangle failed.".
Definition demangle (name : list Z) : list Z := default DEMANGLE_FAILED (cplus_demangle name).

Definition named (rhs : list Z) (s : ElfSymbol) : bool :=
  bool_decide (rhs = sym_name s) || bool_decide (rhs = demangle (sym_name s)).

(** [std::find], then once more with the demangled name. *)
Definition getSymbol (name : list Z) (r : ElfReader) : ElfSymbol :=
  match filter (fun s => named name s = true) (m_symboltable r) with
  | s :: _ => s
  | [] =>
      let dname := demangle name in
      if decide (dname = DEMANGLE_FAILED) then g_SymbolNotFound
      else first_of (named dname) (m_symboltable r) g_SymbolNotFound
  end.
End demangler.

(** The left of the sum: an exception is thrown. *)
Fixpoint bounds_loop (segs : list ElfSegment) (min max : Z) : option (Z * Z) :=
  match segs with
  | [] => Some (min, max)
  | s :: segs =>
      start ← seg_getStart s;
      end_ ← seg_getEnd s;
      bounds_loop segs (Z.min min start) (Z.max max end_)
  end.

Definition getValidAddressBounds (r : ElfReader) : option (unit + Z * Z) :=
  '(min, max) ← bounds_loop (m_segmenttable r) (2 ^ addr_bits - 1) 0;
  Some (if min =? 2 ^ addr_bits - 1 then inl tt else if max =? 0 then inl tt else inr (min, max)).

Definition getTextSegmentBounds (r : ElfReader) : option (unit + Z * Z) :=
  match filter (fun s => isExecutable s = true) (m_segmenttable r) with
  | [] => Some (inl tt)
  | s :: _ => start ← seg_getStart s; end_ ← seg_getEnd s; Some (inr (start, end_))
  end.
End symbols.
