(* ===== verification/ElfTheorems.v ===== *)
(** * Theorems on the ELF reader

    From every file that holds the structures of a binary, wherever they are placed, the
    reader gets exactly its symbols, sections and segments; what the queries then give. *)
From S2P Require Import Prelude Events ElfReader.

(** ** Structures as bytes *)

Fixpoint le_bytes (n : nat) (v : Z) : list Z :=
  match n with O => [] | S n => v mod 256 :: le_bytes n (v / 256) end.

Lemma length_le_bytes n v : length (le_bytes n v) = n.
Proof. revert v. induction n as [|n IH]; intros v; cbn [le_bytes length]; [done|]. by rewrite IH. Qed.

Lemma le_value_bytes n v : 0 <= v < 256 ^ Z.of_nat n -> le_value (le_bytes n v) = v.
Proof.
  revert v. induction n as [|n IH]; intros v Hv; cbn [le_bytes le_value]; [lia|].
  rewrite Nat2Z.inj_succ, Z.pow_succ_r in Hv by lia.
  rewrite IH; [|split; [apply Z.div_pos; lia|apply Z.div_lt_upper_bound; lia]].
  pose proof (Z.div_mod v 256). lia.
Qed.

Fixpoint pack (ws : list nat) (vs : list Z) : list Z :=
  match ws, vs with w :: ws, v :: vs => le_bytes w v ++ pack ws vs | _, _ => [] end.

Definition fits (ws : list nat) (vs : list Z) : Prop :=
  Forall2 (fun w v => 0 <= v < 256 ^ Z.of_nat w) ws vs.

Lemma length_pack ws vs : fits ws vs -> length (pack ws vs) = sum_list ws.
Proof.
  induction 1 as [|w v ws vs Hv _ IH]; [done|]. cbn [pack sum_list]. by rewrite length_app, length_le_bytes, IH.
Qed.

Lemma fields_pack ws vs : fits ws vs -> fields ws (pack ws vs) = vs.
Proof.
  induction 1 as [|w v ws vs Hv _ IH]; [done|]. cbn [pack fields].
  rewrite take_app_length', drop_app_length' by (by rewrite length_le_bytes).
  by rewrite le_value_bytes, IH.
Qed.

Lemma fits_nonneg ws vs i v : fits ws vs -> vs !! i = Some v -> 0 <= v.
Proof.
  intros Hf Hi. destruct (Forall2_lookup_r _ _ _ _ _ Hf Hi) as (w & _ & Hv). lia.
Qed.

Definition widths (cls : Z) (w32 w64 : list nat) : list nat := if cls =? ELFCLASS32 then w32 else w64.

Definition ehdr_fields (h : Elf64_Ehdr) : list Z :=
  [e_type h; e_machine h; e_version h; e_entry h; e_phoff h; e_shoff h; e_flags h; e_ehsize h;
   e_phentsize h; e_phnum h; e_shentsize h; e_shnum h; e_shstrndx h].
Definition shdr_fields (s : Elf64_Shdr) : list Z :=
  [sh_name s; sh_type s; sh_flags s; sh_addr s; sh_offset s; sh_size s; sh_link s; sh_info s;
   sh_addralign s; sh_entsize s].
Definition phdr_fields (cls : Z) (p : Elf64_Phdr) : list Z :=
  if cls =? ELFCLASS32
  then [p_type p; p_offset p; p_vaddr p; p_paddr p; p_filesz p; p_memsz p; p_flags p; p_align p]
  else [p_type p; p_flags p; p_offset p; p_vaddr p; p_paddr p; p_filesz p; p_memsz p; p_align p].
Definition sym_fields (cls : Z) (y : Elf64_Sym) : list Z :=
  if cls =? ELFCLASS32
  then [st_name y; st_value y; st_size y; st_info y; st_other y; st_shndx y]
  else [st_name y; st_info y; st_other y; st_shndx y; st_value y; st_size y].

Definition ehdr_widths (cls : Z) : list nat := widths cls widths_ehdr32 widths_ehdr64.
Definition shdr_widths (cls : Z) : list nat := widths cls widths_shdr32 widths_shdr64.
Definition phdr_widths (cls : Z) : list nat := widths cls widths_phdr32 widths_phdr64.
Definition sym_widths (cls : Z) : list nat := widths cls widths_sym32 widths_sym64.
Definition sym_bytes (cls : Z) : nat := sum_list (sym_widths cls).

Lemma load_shdr cls s :
  fits (shdr_widths cls) (shdr_fields s) ->
  (if cls =? ELFCLASS32 then Elf32to64_Shdr else load_Shdr) (pack (shdr_widths cls) (shdr_fields s)) = s.
Proof.
  unfold shdr_widths, widths, Elf32to64_Shdr, load_Shdr. intros Hf.
  destruct (cls =? ELFCLASS32); rewrite fields_pack by done; by destruct s.
Qed.

Lemma load_phdr cls p :
  fits (phdr_widths cls) (phdr_fields cls p) ->
  (if cls =? ELFCLASS32 then Elf32to64_Phdr else load_Phdr) (pack (phdr_widths cls) (phdr_fields cls p)) = p.
Proof.
  unfold phdr_widths, widths, phdr_fields, Elf32to64_Phdr, load_Phdr. intros Hf.
  destruct (cls =? ELFCLASS32); rewrite fields_pack by done; by destruct p.
Qed.

Lemma load_sym cls y :
  fits (sym_widths cls) (sym_fields cls y) ->
  (if cls =? ELFCLASS32 then Elf32to64_Sym else load_Sym) (pack (sym_widths cls) (sym_fields cls y)) = y.
Proof.
  unfold sym_widths, widths, sym_fields, Elf32to64_Sym, load_Sym. intros Hf.
  destruct (cls =? ELFCLASS32); rewrite fields_pack by done; by destruct y.
Qed.

(** ** A file with the structures of a binary *)

Definition at_ (file : list Z) (off : Z) (l : list Z) : Prop :=
  exists pre post, file = pre ++ l ++ post /\ off = Z.of_nat (length pre).

Record Image := mkImage {
  im_class : Z;
  im_header : Elf64_Ehdr;
  im_segments : list Elf64_Phdr;
  im_sections : list (Elf64_Shdr * list Z);             (** header and name *)
  im_symbols : list (list (Elf64_Sym * list Z))         (** of each section that is a symbol table *)
}.

Definition is_symtab (s : Elf64_Shdr) : bool :=
  (sh_type s =? SHT_SYMTAB) || (sh_type s =? SHT_DYNSYM).

(** Sections and files are listed among the symbols, but not kept. *)
Definition is_kept (y : Elf64_Sym) : bool :=
  negb (ST_TYPE (st_info y) =? STT_SECTION) && negb (ST_TYPE (st_info y) =? STT_FILE).

Definition string_in (strs : list Z) (idx : Z) (name : list Z) : Prop :=
  0 <= idx < 2 ^ 31 /\ (0 ∉ name) /\ at_ strs idx (name ++ [0]).

Definition string_table (file : list Z) (s : Elf64_Shdr) (strs : list Z) : Prop :=
  strs <> [] /\ sh_size s = Z.of_nat (length strs) /\ sh_offset s < 2 ^ 63 /\ at_ file (sh_offset s) strs.

Definition symbol_table (file : list Z) (im : Image) (s : Elf64_Shdr) (syms : list (Elf64_Sym * list Z)) : Prop :=
  sh_size s < 2 ^ 31 /\ sh_size s = Z.of_nat (sym_bytes (im_class im) * length syms)
  /\ sh_offset s < 2 ^ 63
  /\ at_ file (sh_offset s) (concat ((fun y => pack (sym_widths (im_class im)) (sym_fields (im_class im) y.1)) <$> syms))
  /\ exists l lname strs,
       im_sections im !! Z.to_nat (sh_link s) = Some (l, lname) /\ string_table file l strs
       /\ Forall (fun y => fits (sym_widths (im_class im)) (sym_fields (im_class im) y.1)
                           /\ (is_kept y.1 = true -> string_in strs (st_name y.1) y.2)) syms.

(** [file] holds the image, its parts anywhere. *)
Record describes (file : list Z) (im : Image) : Prop := {
  d_class : im_class im = ELFCLASS32 \/ im_class im = ELFCLASS64;
  d_ident : length (e_ident (im_header im)) = 16%nat
    /\ take 5 (e_ident (im_header im)) = [0x7f; 69; 76; 70; im_class im];
  d_header : at_ file 0 (e_ident (im_header im) ++ pack (ehdr_widths (im_class im)) (ehdr_fields (im_header im)));
  d_fits : fits (ehdr_widths (im_class im)) (ehdr_fields (im_header im));
  d_long : 64 <= Z.of_nat (length file);
  d_offsets : e_phoff (im_header im) < 2 ^ 62 /\ e_shoff (im_header im) < 2 ^ 62
    /\ e_shentsize (im_header im) * e_shnum (im_header im) < 2 ^ 31;
  d_phnum : e_phnum (im_header im) = Z.of_nat (length (im_segments im));
  d_shnum : e_shnum (im_header im) = Z.of_nat (length (im_sections im));
  d_segments i p : im_segments im !! i = Some p ->
    fits (phdr_widths (im_class im)) (phdr_fields (im_class im) p)
    /\ at_ file (e_phoff (im_header im) + e_phentsize (im_header im) * Z.of_nat i)
         (pack (phdr_widths (im_class im)) (phdr_fields (im_class im) p));
  d_sections i s name : im_sections im !! i = Some (s, name) ->
    fits (shdr_widths (im_class im)) (shdr_fields s)
    /\ at_ file (e_shoff (im_header im) + e_shentsize (im_header im) * Z.of_nat i)
         (pack (shdr_widths (im_class im)) (shdr_fields s));
  d_names : exists s name strs,
    im_sections im !! Z.to_nat (e_shstrndx (im_header im)) = Some (s, name) /\ string_table file s strs
    /\ Forall (fun x => string_in strs (sh_name x.1) x.2) (im_sections im);
  d_symbols : Forall2 (fun x syms => if is_symtab x.1 then symbol_table file im x.1 syms else syms = [])
    (im_sections im) (im_symbols im)
}.

Section theorems.
Context `{SalConfig}.

(** What the reader shall know. *)
Definition symbol_of (y : Elf64_Sym * list Z) : ElfSymbol :=
  new_ElfSymbol y.2 (st_value y.1) (st_size y.1) SYMBOL (ST_TYPE (st_info y.1)).
Definition section_of (x : Elf64_Shdr * list Z) : ElfSymbol :=
  new_ElfSymbol x.2 (sh_addr x.1) (sh_size x.1) SECTION 0.
Definition symbols_of (syms : list (Elf64_Sym * list Z)) : list ElfSymbol :=
  symbol_of <$> filter (fun y => is_kept y.1 = true) syms.

Definition reader_of (im : Image) : ElfReader :=
  mkReader (Some (e_machine (im_header im), im_class im))
    (concat (symbols_of <$> im_symbols im))
    (section_of <$> im_sections im)
    (new_ElfSegment <$> filter (fun p => p_type p = PT_LOAD) (im_segments im)).

(** ** Reading *)

Lemma rest_at_pre pre l post :
  l <> [] -> rest_at (pre ++ l ++ post) (Z.of_nat (length pre)) = l ++ post.
Proof.
  intros Hl. unfold rest_at. rewrite (proj2 (Z.ltb_lt _ _)).
  - by rewrite Nat2Z.id, drop_app_length.
  - rewrite !length_app. destruct l; [done|]. cbn [length]. lia.
Qed.

Lemma fread_at file off l n :
  at_ file off l -> l <> [] -> n = Z.of_nat (length l) -> fread file n off = (Some l, off + n).
Proof.
  intros (pre & post & -> & ->) Hl ->. unfold fread. rewrite rest_at_pre by done.
  destruct (Z.eqb_spec (Z.of_nat (length l)) 0); [by destruct l|].
  rewrite (proj2 (Z.leb_le _ _)) by (rewrite length_app; lia).
  by rewrite Nat2Z.id, take_app_length.
Qed.

Lemma fread_prefix file n :
  0 < n -> n <= Z.of_nat (length file) -> fread file n 0 = (Some (take (Z.to_nat n) file), n).
Proof.
  intros Hn Hl. apply (fread_at file 0).
  - exists [], (drop (Z.to_nat n) file). by rewrite take_drop.
  - intros E. apply (f_equal length) in E. rewrite length_take in E. cbn [length] in E. lia.
  - rewrite length_take. lia.
Qed.

Lemma at_nonneg file off l : at_ file off l -> 0 <= off.
Proof. intros (pre & post & _ & ->). lia. Qed.

Lemma fseek_at file off l pos : at_ file off l -> fseek off pos = off.
Proof. intros Ha. unfold fseek. apply at_nonneg in Ha. by rewrite (proj2 (Z.ltb_ge _ _)). Qed.

Lemma s64_small z : 0 <= z < 2 ^ 63 -> s64 z = z.
Proof. intros Hz. unfold s64. rewrite wrap_small; [lia|]. unfold in_range. lia. Qed.

Lemma s32_small z : 0 <= z < 2 ^ 31 -> s32 z = z.
Proof. intros Hz. unfold s32. rewrite wrap_small; [lia|]. unfold in_range. lia. Qed.

Lemma fread_struct file off ws vs :
  fits ws vs -> (sum_list ws <> 0)%nat -> at_ file off (pack ws vs) ->
  fread file (Z.of_nat (sum_list ws)) off = (Some (pack ws vs), off + Z.of_nat (sum_list ws)).
Proof.
  intros Hf Hn Ha. pose proof (length_pack _ _ Hf) as Hl. apply fread_at; [done| |by rewrite Hl].
  intros E. rewrite E in Hl. cbn in Hl. done.
Qed.

Lemma seqZ_next {A} (pre suf : list A) x :
  seqZ (Z.of_nat (length pre)) (Z.of_nat (length (x :: suf)))
  = Z.of_nat (length pre) :: seqZ (Z.of_nat (length (pre ++ [x]))) (Z.of_nat (length suf)).
Proof.
  rewrite seqZ_cons by (cbn [length]; lia). rewrite length_app. cbn [length]. f_equal. f_equal; lia.
Qed.

Section file.
Context (file : list Z) (im : Image) (Hd : describes file im).
Abbreviation cls := (im_class im).
Abbreviation hdr := (im_header im).

Lemma ident_split : exists id, e_ident hdr = [0x7f; 69; 76; 70; cls] ++ id /\ length id = 11%nat.
Proof.
  destruct (d_ident _ _ Hd) as [Hl Ht]. exists (drop 5 (e_ident hdr)).
  rewrite <- Ht, take_drop, length_drop, Hl. done.
Qed.

Lemma header_read :
  exists pos, read_ELF_file_header file = (Some (e_machine hdr, cls), Some hdr, pos).
Proof.
  destruct ident_split as (id & Hid & Hlid).
  destruct (d_header _ _ Hd) as (pre & post & Hfile & Hpre). destruct pre; [clear Hpre|cbn [length] in Hpre; lia].
  pose proof (d_fits _ _ Hd) as Hf. pose proof (d_long _ _ Hd) as Hlong. cbn [app] in Hfile.
  pose proof (fread_prefix file 52 ltac:(lia) ltac:(lia)) as H52.
  pose proof (fread_prefix file 64 ltac:(lia) ltac:(lia)) as H64.
  assert (length (pack (ehdr_widths cls) (ehdr_fields hdr)) = sum_list (ehdr_widths cls)) as Hlp
    by (by apply length_pack).
  assert (forall x, ehdr_of (e_ident hdr ++ x) (ehdr_fields hdr) = hdr) as Heh.
  { intros x. unfold ehdr_of. rewrite take_app_length' by (rewrite Hid; cbn; lia). by destruct hdr. }
  assert (forall n x, take (16 + n) (e_ident hdr ++ x) = e_ident hdr ++ take n x) as Htk.
  { intros n x. rewrite take_app_ge by (rewrite Hid; cbn; lia). f_equal. f_equal. rewrite Hid. cbn. lia. }
  assert (forall x, drop 16 (e_ident hdr ++ x) = x) as Hdr
    by (intros; by rewrite drop_app_length' by (rewrite Hid; cbn; lia)).
  unfold read_ELF_file_header. rewrite H52, H64, Hfile, <- app_assoc.
  rewrite (Htk 36%nat), (Htk 48%nat).
  set (x := take 36 _). set (y := take 48 _).
  rewrite decide_True by (by rewrite Hid).
  assert (fld (e_ident hdr ++ x) 4 = cls) as -> by (by rewrite Hid).
  destruct (d_class _ _ Hd) as [E|E]; rewrite E in *; cbv beta iota.
  - assert (x = pack (ehdr_widths ELFCLASS32) (ehdr_fields hdr)) as ->
      by (unfold x; rewrite E; by apply take_app_length').
    unfold Elf32to64_Ehdr. rewrite Hdr, fields_pack by done. rewrite Heh. by eexists.
  - assert (y = pack (ehdr_widths ELFCLASS64) (ehdr_fields hdr)) as ->
      by (unfold y; rewrite E; by apply take_app_length').
    unfold load_Ehdr. rewrite Hdr, fields_pack by done. rewrite Heh. eexists. f_equal. f_equal. f_equal. f_equal.
    unfold Elf32to64_Ehdr, ehdr_of. rewrite Hdr. cbn [e_machine]. unfold x. rewrite E.
    rewrite take_app_le by (rewrite Hlp; cbn; lia).
    change (le_value (le_bytes 2 (e_machine hdr)) = e_machine hdr). apply le_value_bytes.
    exact (Forall2_lookup_lr _ _ _ 1%nat _ _ Hf eq_refl eq_refl).
Qed.

Lemma section_header_read i s name pos :
  im_sections im !! i = Some (s, name) ->
  exists pos', read_ELF_section_header file cls hdr (Z.of_nat i) pos = Some (Some s, pos').
Proof.
  intros Hi. destruct (d_sections _ _ Hd _ _ _ Hi) as [Hf Ha].
  destruct (d_offsets _ _ Hd) as (_ & Ho & Hs). pose proof (d_shnum _ _ Hd) as Hn.
  apply lookup_lt_Some in Hi.
  assert (0 <= e_shoff hdr /\ 0 <= e_shentsize hdr) as [Ho0 He0].
  { split; [by apply (fits_nonneg _ _ 5 _ (d_fits _ _ Hd))|by apply (fits_nonneg _ _ 10 _ (d_fits _ _ Hd))]. }
  assert (e_shentsize hdr * Z.of_nat i < 2 ^ 31) as Hp by nia.
  unfold read_ELF_section_header.
  rewrite (proj2 (Z.ltb_ge _ _)), (proj2 (Z.ltb_ge (Z.of_nat i) 0)) by lia. cbn [orb].
  rewrite (proj2 (Z.leb_gt _ _)) by lia. rewrite s64_small by lia.
  rewrite (proj2 (Z.leb_gt _ _)) by lia. rewrite (fseek_at _ _ _ _ Ha).
  pose proof (fun H => fread_struct file _ _ _ Hf H Ha) as Hr. pose proof (load_shdr _ _ Hf) as Hl.
  destruct (d_class _ _ Hd) as [E|E]; rewrite E in *;
    [change (Z.of_nat (sum_list (shdr_widths ELFCLASS32))) with 40 in Hr
    |change (Z.of_nat (sum_list (shdr_widths ELFCLASS64))) with 64 in Hr];
    cbv beta iota zeta delta [Z.eqb Pos.eqb ELFCLASS32 ELFCLASS64]; rewrite Hr by done; eexists;
    exact (f_equal (fun x => Some (Some x, _)) Hl).
Qed.

Lemma segment_header_read i p pos :
  im_segments im !! i = Some p ->
  exists pos', read_ELF_segment_header file cls hdr (Z.of_nat i) pos = Some (Some p, pos').
Proof.
  intros Hi. destruct (d_segments _ _ Hd _ _ Hi) as [Hf Ha].
  destruct (d_offsets _ _ Hd) as (Ho & _ & _). pose proof (d_phnum _ _ Hd) as Hn.
  apply lookup_lt_Some in Hi.
  pose proof (fits_nonneg _ _ 4 _ (d_fits _ _ Hd) eq_refl) as Ho0.
  assert (0 <= e_phentsize hdr < 2 ^ 16 /\ e_phnum hdr < 2 ^ 16) as [He Hpn].
  { destruct (Forall2_lookup_r _ _ _ 8 _ (d_fits _ _ Hd) eq_refl) as (w8 & Hw8 & H8).
    destruct (Forall2_lookup_r _ _ _ 9 _ (d_fits _ _ Hd) eq_refl) as (w9 & Hw9 & H9).
    unfold ehdr_widths, widths in *. destruct (cls =? ELFCLASS32); cbn in Hw8, Hw9; simplify_eq; cbn in H8, H9; lia. }
  assert (0 <= e_phentsize hdr * Z.of_nat i < 2 ^ 32) as Hp by nia.
  unfold read_ELF_segment_header.
  rewrite (proj2 (Z.ltb_ge _ _)) by lia. rewrite s64_small, u32_small by lia.
  rewrite (proj2 (Z.leb_gt _ _)) by lia. rewrite (fseek_at _ _ _ _ Ha).
  pose proof (fun H => fread_struct file _ _ _ Hf H Ha) as Hr. pose proof (load_phdr _ _ Hf) as Hl.
  destruct (d_class _ _ Hd) as [E|E]; rewrite E in *;
    [change (Z.of_nat (sum_list (phdr_widths ELFCLASS32))) with 32 in Hr
    |change (Z.of_nat (sum_list (phdr_widths ELFCLASS64))) with 56 in Hr];
    cbv beta iota zeta delta [Z.eqb Pos.eqb ELFCLASS32 ELFCLASS64]; rewrite Hr by done; eexists;
    exact (f_equal (fun x => Some (Some x, _)) Hl).
Qed.

Lemma segments_read suf : forall pre table pos,
  im_segments im = pre ++ suf ->
  exists pos', read_segments file cls hdr (seqZ (Z.of_nat (length pre)) (Z.of_nat (length suf))) table pos
    = Some (table ++ (new_ElfSegment <$> filter (fun p => p_type p = PT_LOAD) suf), pos').
Proof.
  induction suf as [|p suf IH]; intros pre table pos Hs.
  { exists pos. by rewrite app_nil_r. }
  destruct (segment_header_read (length pre) p pos) as [pos1 H1].
  { by rewrite Hs, list_lookup_middle. }
  rewrite seqZ_next. cbn [read_segments]. rewrite H1. obind.
  replace (Z.succ (Z.of_nat (length pre))) with (Z.of_nat (length (pre ++ [p]))) by (rewrite length_app; cbn [length]; lia).
  destruct (IH (pre ++ [p]) (process_segment p table) pos1) as [pos2 H2].
  { by rewrite Hs, <- app_assoc. }
  exists pos2. rewrite H2. f_equal. f_equal. unfold process_segment. rewrite filter_cons.
  destruct (Z.eqb_spec (p_type p) PT_LOAD).
  - rewrite decide_True by done. by rewrite fmap_cons, <- app_assoc.
  - by rewrite decide_False by done.
Qed.

(** *** Strings and symbols *)

Lemma until_nul_app name post : 0 ∉ name -> until_nul (name ++ 0 :: post) = Some name.
Proof.
  induction name as [|c name IH]; intros Hn; [done|]. cbn [app until_nul].
  rewrite not_elem_of_cons in Hn. destruct Hn as [Hc Hn].
  rewrite (proj2 (Z.eqb_neq _ _)) by congruence. by rewrite IH.
Qed.

Lemma c_string_in strs idx name : string_in strs idx name -> c_string strs (s32 idx) = Some name.
Proof.
  intros (Hi & Hn & pre & post & -> & ->). rewrite s32_small by lia. unfold c_string.
  rewrite (proj2 (Z.ltb_ge _ _)), (proj2 (Z.leb_gt _ _)) by (rewrite ?length_app; cbn [length]; lia).
  cbn [orb]. rewrite Nat2Z.id, drop_app_length, <- app_assoc. by apply until_nul_app.
Qed.

Lemma at_app off l k : at_ file off (l ++ k) -> at_ file off l /\ at_ file (off + Z.of_nat (length l)) k.
Proof.
  intros (pre & post & -> & ->). split.
  - exists pre, (k ++ post). by rewrite <- app_assoc.
  - exists (pre ++ l), post. rewrite <- !app_assoc. split; [done|]. rewrite length_app. lia.
Qed.

Lemma at_length off l : at_ file off l -> Z.of_nat (length l) <= Z.of_nat (length file).
Proof. intros (pre & post & -> & _). rewrite !length_app. lia. Qed.

Lemma sym_size_cases :
  Z.of_nat (sym_bytes cls) = (if cls =? ELFCLASS32 then 16 else 24).
Proof. destruct (d_class _ _ Hd) as [->| ->]; done. Qed.

Lemma symbols_read strs syms : forall table off,
  at_ file off (concat ((fun y => pack (sym_widths cls) (sym_fields cls y.1)) <$> syms)) ->
  Forall (fun y => fits (sym_widths cls) (sym_fields cls y.1)
                   /\ (is_kept y.1 = true -> string_in strs (st_name y.1) y.2)) syms ->
  exists pos', read_symbols file cls (length syms) strs table off = Some (table ++ symbols_of syms, pos').
Proof.
  induction syms as [|y syms IH]; intros table off Ha Hf.
  { eexists. by rewrite app_nil_r. }
  apply Forall_cons in Hf as [[Hy Hname] Hf]. cbn [fmap list_fmap concat] in Ha.
  apply at_app in Ha as [Ha Hrest]. rewrite length_pack in Hrest by done.
  assert (sum_list (sym_widths cls) <> 0%nat) as Hnz by (destruct (d_class _ _ Hd) as [->| ->]; done).
  cbn [length read_symbols]. rewrite <- sym_size_cases.
  rewrite (fread_struct file off _ _ Hy Hnz Ha : fread file (Z.of_nat (sym_bytes cls)) off = _).
  assert ((if cls =? ELFCLASS32 then Elf32to64_Sym (pack (sym_widths cls) (sym_fields cls y.1))
           else load_Sym (pack (sym_widths cls) (sym_fields cls y.1))) = y.1) as ->.
  { pose proof (load_sym cls y.1 Hy) as Hl. by destruct (cls =? ELFCLASS32). }
  fold (is_kept y.1). unfold symbols_of. rewrite filter_cons.
  destruct (is_kept y.1) eqn:Ek.
  - rewrite (c_string_in _ _ _ (Hname eq_refl)). obind. rewrite decide_True by done.
    destruct (IH (table ++ [symbol_of y]) _ Hrest Hf) as [pos' H'].
    exists pos'. rewrite fmap_cons. etrans; [exact H'|]. by rewrite <- app_assoc.
  - rewrite decide_False by done. apply (IH table _ Hrest Hf).
Qed.

Section malloc.
Context (malloc : Z -> bool) (Hmalloc : forall n, 0 <= n <= Z.of_nat (length file) -> malloc n = true).

Lemma string_table_read s strs pos :
  string_table file s strs ->
  malloc (sh_size s) = true
  /\ exists pos', fread file (sh_size s) (fseek (s64 (sh_offset s)) pos) = (Some strs, pos').
Proof.
  intros (Hn & Hs & Ho & Ha). pose proof (at_nonneg _ _ _ Ha). split.
  - apply Hmalloc. rewrite Hs. apply at_length in Ha. lia.
  - eexists. rewrite s64_small by lia. rewrite (fseek_at _ _ _ _ Ha), Hs. by apply fread_at.
Qed.

Lemma symboltable_read i s name syms table pos :
  im_sections im !! i = Some (s, name) -> symbol_table file im s syms ->
  exists pos', process_symboltable malloc file cls hdr (Z.of_nat i) table pos
    = Some (table ++ symbols_of syms, pos').
Proof.
  intros Hi (Hsz & Hlen & Ho & Ha & l & lname & strs & Hl & Hst & Hsyms).
  pose proof (at_nonneg _ _ _ Ha) as Ho0.
  destruct (d_sections _ _ Hd _ _ _ Hi) as [Hfit _].
  pose proof (fits_nonneg _ _ 6 _ Hfit eq_refl) as Hlink.
  pose proof (lookup_lt_Some _ _ _ Hl) as Hll. pose proof (d_shnum _ _ Hd) as Hn.
  assert (e_shnum hdr < 2 ^ 16) as Hsn.
  { destruct (Forall2_lookup_r _ _ _ 11 _ (d_fits _ _ Hd) eq_refl) as (w & Hw & H11).
    unfold ehdr_widths, widths in *. destruct (cls =? ELFCLASS32); cbn in Hw; simplify_eq; cbn in H11; lia. }
  unfold process_symboltable. destruct (section_header_read i s name pos Hi) as [pos1 ->]. obind.
  rewrite (s32_small (sh_link s)) by lia. rewrite <- (Z2Nat.id (sh_link s)) by lia.
  destruct (section_header_read _ l lname pos1 Hl) as [pos2 ->]. obind.
  destruct (string_table_read l strs pos2 Hst) as [-> [pos3 ->]].
  rewrite (s64_small (sh_offset s)), (fseek_at _ _ _ _ Ha) by lia.
  replace (Z.to_nat _) with (length syms); [by apply symbols_read|].
  pose proof sym_size_cases as Hsc. rewrite <- Hsc, Hlen. rewrite Nat2Z.inj_mul in *.
  assert (16 <= Z.of_nat (sym_bytes cls)) as Hge by (rewrite Hsc; destruct (cls =? ELFCLASS32); lia).
  assert (0 <= Z.of_nat (sym_bytes cls) * Z.of_nat (length syms) < 2 ^ 31) as Hb by nia.
  rewrite (s32_small (_ * _)), u64_small by lia.
  rewrite Z.mul_comm, Z.div_mul by lia. rewrite s32_small; [by rewrite Nat2Z.id|]. nia.
Qed.

Lemma symboltables_read suf : forall tabs pre table pos,
  im_sections im = pre ++ suf ->
  Forall2 (fun x syms => if is_symtab x.1 then symbol_table file im x.1 syms else syms = []) suf tabs ->
  exists pos', read_symboltables malloc file cls hdr
      (seqZ (Z.of_nat (length pre)) (Z.of_nat (length suf))) table pos
    = Some (table ++ concat (symbols_of <$> tabs), pos').
Proof.
  induction suf as [|[s name] suf IH]; intros tabs pre table pos Hs Ht.
  { apply Forall2_nil_inv_l in Ht as ->. exists pos. by rewrite app_nil_r. }
  apply Forall2_cons_inv_l in Ht as (syms & tabs' & Hsyms & Ht & ->).
  assert (im_sections im !! length pre = Some (s, name)) as Hi by (by rewrite Hs, list_lookup_middle).
  destruct (section_header_read _ _ _ pos Hi) as [pos1 H1].
  rewrite seqZ_next. cbn [read_symboltables]. rewrite H1. obind.
  replace (Z.succ (Z.of_nat (length pre))) with (Z.of_nat (length (pre ++ [(s, name)])))
    by (rewrite length_app; cbn [length]; lia).
  rewrite <- negb_orb. fold (is_symtab s). cbn [fst] in Hsyms. rewrite fmap_cons. cbn [concat].
  assert (im_sections im = (pre ++ [(s, name)]) ++ suf) as Hs' by (by rewrite Hs, <- app_assoc).
  destruct (is_symtab s); cbn [negb].
  - destruct (symboltable_read _ _ _ _ table pos1 Hi Hsyms) as [pos2 ->]. obind.
    destruct (IH tabs' _ (table ++ symbols_of syms) pos2 Hs' Ht) as [pos3 ->].
    exists pos3. by rewrite app_assoc.
  - subst syms. apply (IH tabs' _ table pos1 Hs' Ht).
Qed.

Lemma sections_read strs suf : forall pre table pos,
  im_sections im = pre ++ suf -> Forall (fun x => string_in strs (sh_name x.1) x.2) suf ->
  exists pos', read_sections file cls hdr (seqZ (Z.of_nat (length pre)) (Z.of_nat (length suf))) strs table pos
    = Some (table ++ (section_of <$> suf), pos').
Proof.
  induction suf as [|[s name] suf IH]; intros pre table pos Hs Hn.
  { exists pos. by rewrite app_nil_r. }
  apply Forall_cons in Hn as [Hname Hn].
  destruct (section_header_read (length pre) s name pos) as [pos1 H1].
  { by rewrite Hs, list_lookup_middle. }
  rewrite seqZ_next. cbn [read_sections]. rewrite H1. obind.
  cbn [fst snd] in Hname. unfold process_section. rewrite (c_string_in _ _ _ Hname). obind.
  replace (Z.succ (Z.of_nat (length pre))) with (Z.of_nat (length (pre ++ [(s, name)])))
    by (rewrite length_app; cbn [length]; lia).
  destruct (IH (pre ++ [(s, name)]) (table ++ [section_of (s, name)]) pos1) as [pos2 H2];
    [by rewrite Hs, <- app_assoc|done|].
  exists pos2. rewrite fmap_cons. etrans; [exact H2|]. by rewrite <- app_assoc.
Qed.

Lemma setup_reads : setup malloc (Some file) = Some (Ready (reader_of im)).
Proof.
  destruct header_read as [pos0 H0]. destruct (d_names _ _ Hd) as (s & name & strs & Hs & Hst & Hn).
  unfold setup. rewrite H0. cbn [from_option snd].
  rewrite (d_phnum _ _ Hd), (d_shnum _ _ Hd).
  destruct (segments_read (im_segments im) [] [] pos0 eq_refl) as [pos1 H1]. cbn [length] in H1. change (Z.of_nat 0) with 0 in H1.
  rewrite H1. obind.
  destruct (symboltables_read (im_sections im) (im_symbols im) [] [] pos1 eq_refl (d_symbols _ _ Hd)) as [pos2 H2].
  cbn [length] in H2. change (Z.of_nat 0) with 0 in H2. rewrite H2. obind.
  pose proof (fits_nonneg _ _ 12 _ (d_fits _ _ Hd) eq_refl) as Hx.
  rewrite <- (Z2Nat.id (e_shstrndx hdr)) by done.
  destruct (section_header_read _ _ _ pos2 Hs) as [pos3 ->]. obind.
  destruct (string_table_read s strs pos3 Hst) as [-> [pos4 ->]].
  destruct (sections_read strs (im_sections im) [] [] pos4 eq_refl Hn) as [pos5 H5].
  cbn [length] in H5. change (Z.of_nat 0) with 0 in H5. rewrite H5. done.
Qed.
End malloc.
End file.

(** C21. Reading a binary: from every file that holds the structures of a 32-bit or 64-bit
    binary, wherever they are placed, the reader gets the machine, all segments
    to be loaded, all sections with their names, and all symbols but those for sections
    and files, each in the order of the file and with name, address, size and type. *)
Theorem elf_read_back malloc file im :
  describes file im -> (forall n, 0 <= n <= Z.of_nat (length file) -> malloc n = true) ->
  setup malloc (Some file) = Some (Ready (reader_of im)).
Proof. intros Hd Hm. by apply setup_reads. Qed.
End theorems.

(** *** Bounds of the segments *)

Section bounds.
Context `{SalConfig}.

Definition seg_start (s : ElfSegment) : Z := m_paddress s.
Definition seg_end (s : ElfSegment) : Z := wrap addr_bits (m_paddress s + m_size s).

Lemma bits_nonneg z : 0 <= wrap addr_bits z.
Proof. destruct addr_bits_range. apply (wrap_range addr_bits). lia. Qed.

Lemma bounds_loop_spec segs : forall lo hi,
  Forall (fun s => m_paddress s = m_vaddress s) segs ->
  bounds_loop segs lo hi
  = Some (foldr Z.min lo (seg_start <$> segs), foldr Z.max hi (seg_end <$> segs)).
Proof.
  assert (forall (f : Z -> Z -> Z) (_ : forall a b, f a b = f b a) (_ : forall a b c, f (f a b) c = f a (f b c)) l a b,
    foldr f (f a b) l = f b (foldr f a l)) as Hf.
  { intros f Hc Ha l a b. induction l as [|x l IH]; cbn [foldr]; [by apply Hc|].
    rewrite IH, <- !Ha. f_equal. apply Hc. }
  induction segs as [|s segs IH]; intros lo hi Hs; [done|].
  apply Forall_cons in Hs as [E Hs]. cbn [bounds_loop]. unfold seg_getStart, seg_getEnd.
  rewrite (proj2 (Z.eqb_eq _ _) E). obind. rewrite IH by done. cbn [fmap list_fmap foldr].
  rewrite !Hf by (intros; lia). done.
Qed.

Lemma foldr_min_spec l d : (forall x, x ∈ l -> x <= d) ->
  (forall x, x ∈ l -> foldr Z.min d l <= x) /\ (foldr Z.min d l = d \/ foldr Z.min d l ∈ l).
Proof.
  induction l as [|a l IH]; intros Hd; cbn [foldr]; [split; [by intros x Hx%not_elem_of_nil|by left]|].
  destruct IH as [H1 H2]; [intros x Hx; apply Hd; by right|]. split.
  - intros x [->|Hx]%elem_of_cons; [lia|]. specialize (H1 x Hx). lia.
  - destruct (Z.min_spec a (foldr Z.min d l)) as [[_ ->]|[_ ->]]; [right; by left|].
    destruct H2 as [->|H2]; [by left|right; by right].
Qed.

Lemma foldr_max_spec l d : (forall x, x ∈ l -> d <= x) ->
  (forall x, x ∈ l -> x <= foldr Z.max d l) /\ (foldr Z.max d l = d \/ foldr Z.max d l ∈ l).
Proof.
  induction l as [|a l IH]; intros Hd; cbn [foldr]; [split; [by intros x Hx%not_elem_of_nil|by left]|].
  destruct IH as [H1 H2]; [intros x Hx; apply Hd; by right|]. split.
  - intros x [->|Hx]%elem_of_cons; [lia|]. specialize (H1 x Hx). lia.
  - destruct (Z.max_spec a (foldr Z.max d l)) as [[_ ->]|[_ ->]]; [|right; by left].
    destruct H2 as [->|H2]; [by left|right; by right].
Qed.

(** For segments that are mapped to themselves: the bounds enclose all of them and are
    attained; an exception is thrown exactly if there is no segment, each starts at the
    last address, or each ends at address 0. *)
Theorem valid_address_bounds r :
  Forall (fun s => m_paddress s = m_vaddress s /\ 0 <= m_paddress s < 2 ^ addr_bits) (m_segmenttable r) ->
  match getValidAddressBounds r with
  | None => False
  | Some (inl _) =>
      (forall s, s ∈ m_segmenttable r -> seg_start s = 2 ^ addr_bits - 1)
      \/ (forall s, s ∈ m_segmenttable r -> seg_end s = 0)
  | Some (inr (lo, hi)) =>
      (forall s, s ∈ m_segmenttable r -> lo <= seg_start s /\ seg_end s <= hi)
      /\ (exists s, s ∈ m_segmenttable r /\ seg_start s = lo)
      /\ (exists s, s ∈ m_segmenttable r /\ seg_end s = hi)
  end.
Proof.
  intros Hs. unfold getValidAddressBounds. rewrite bounds_loop_spec by (eapply Forall_impl; [exact Hs|by intros s []]).
  obind. rewrite Forall_forall in Hs. set (segs := m_segmenttable r) in *.
  destruct (foldr_min_spec (seg_start <$> segs) (2 ^ addr_bits - 1)) as [Hlo Hlo'].
  { intros x (s & -> & Hin)%list_elem_of_fmap. destruct (Hs s Hin). unfold seg_start. lia. }
  destruct (foldr_max_spec (seg_end <$> segs) 0) as [Hhi Hhi'].
  { intros x (s & -> & Hin)%list_elem_of_fmap. apply bits_nonneg. }
  set (lo := foldr Z.min _ _) in *. set (hi := foldr Z.max _ _) in *.
  destruct (Z.eqb_spec lo (2 ^ addr_bits - 1)) as [E|E].
  { left. intros s Hin. specialize (Hlo (seg_start s) (list_elem_of_fmap_2 _ _ _ Hin)).
    destruct (Hs s Hin). unfold seg_start in *. lia. }
  destruct (Z.eqb_spec hi 0) as [E'|E'].
  { right. intros s Hin. specialize (Hhi (seg_end s) (list_elem_of_fmap_2 _ _ _ Hin)).
    pose proof (bits_nonneg (m_paddress s + m_size s)) as Hr. unfold seg_end in *. lia. }
  split; [|split].
  - intros s Hin. split; [apply Hlo|apply Hhi]; by apply list_elem_of_fmap_2.
  - destruct Hlo' as [?|(s & -> & Hin)%list_elem_of_fmap]; [done|]. by exists s.
  - destruct Hhi' as [?|(s & -> & Hin)%list_elem_of_fmap]; [done|]. by exists s.
Qed.
End bounds.

(** *** A small binary *)

Module ElfDemo.
Definition strs : list Z := [0] ++ chars ".symtab" ++ [0] ++ chars ".strtab" ++ [0] ++ chars "main" ++ [0].
Definition header : Elf64_Ehdr :=
  mkEhdr ([0x7f; 69; 76; 70; 1] ++ replicate 11 0) 2 40 1 0x1000 52 138 0 52 32 1 40 3 2.
Definition segment : Elf64_Phdr := mkPhdr 1 5 0 0x1000 0x1000 64 128 4.
Definition syms : list (Elf64_Sym * list Z) :=
  [(mkElfSym 17 2 0 1 0x1000 8, chars "main"); (mkElfSym 0 4 0 0 0 0, [])].
Definition sections : list (Elf64_Shdr * list Z) :=
  [(mkShdr 0 0 0 0 0 0 0 0 0 0, []); (mkShdr 1 2 0 0 106 32 2 0 4 16, chars ".symtab");
   (mkShdr 9 3 0 0 84 22 0 0 1 0, chars ".strtab")].
Definition image : Image := mkImage 1 header [segment] sections [[]; syms; []].
Definition file : list Z :=
  e_ident header ++ pack widths_ehdr32 (ehdr_fields header) ++ pack widths_phdr32 (phdr_fields 1 segment)
  ++ strs ++ concat ((fun y => pack widths_sym32 (sym_fields 1 y.1)) <$> syms)
  ++ concat ((fun x => pack widths_shdr32 (shdr_fields x.1)) <$> sections).

Lemma at_intro f off l :
  0 <= off -> (Z.to_nat off <= length f)%nat -> take (length l) (drop (Z.to_nat off) f) = l -> at_ f off l.
Proof.
  intros Ho Hl Ht. exists (take (Z.to_nat off) f), (drop (length l) (drop (Z.to_nat off) f)). split.
  - rewrite <- Ht at 1. by rewrite !take_drop.
  - rewrite length_take. lia.
Qed.

Ltac here := apply at_intro; [vm_compute; congruence|vm_compute; lia|vm_compute; reflexivity].
Ltac string := split_and!; [vm_compute; congruence|vm_compute; congruence|apply (bool_decide_eq_true_1 _); by vm_compute|here].
Ltac fit := repeat constructor; vm_compute; congruence.

Lemma image_described : describes file image.
Proof.
  split.
  - by left.
  - done.
  - here.
  - fit.
  - by vm_compute.
  - done.
  - done.
  - done.
  - intros [|i] p Hp; cbn in Hp; [|done]. simplify_eq. split; [fit|here].
  - intros [|[|[|i]]] s name Hs; cbn in Hs; simplify_eq; (split; [fit|here]).
  - eexists _, _, strs. split; [done|]. split; [split_and!; [done|done|done|here]|].
    repeat (apply Forall_cons_2; [string|]); apply Forall_nil_2.
  - apply Forall2_cons; split; [done|]. apply Forall2_cons; split; [|by repeat constructor].
    split_and!; [done|done|done|here|]. eexists _, _, strs.
    split; [done|]. split; [split_and!; [done|done|done|here]|].
    repeat (apply Forall_cons_2; [split; [fit|intros Hk; first [by vm_compute in Hk|string]]|]); apply Forall_nil_2.
Qed.

Lemma elf_read_back_witness :
  let _ := sal_64 in
  exists r, setup (fun _ => true) (Some file) = Some (Ready r)
  /\ m_symboltable r = [mkSymbol (chars "main") 0x1000 8 SYMBOL 2]
  /\ sym_name <$> m_sectiontable r = [[]; chars ".symtab"; chars ".strtab"]
  /\ m_segmenttable r = [mkSegment 0x1000 0x1000 128 5].
Proof.
  eexists. split; [apply (elf_read_back _ file image image_described); done|]. by vm_compute.
Defined.
End ElfDemo.
