(* ===== verification/Sha1.v ===== *)
(** * SHA-1

    [src/plugins/checkpoint/sha1.{c,h}], the digest of the memory regions a
    checkpoint records.  The context is a record of the C structure's members.
    A null pointer is [None] of the argument's option; an access outside an array
    makes the operation itself [None], so that a theorem which gives an
    operation a result also shows it memory safe.

    The reference is FIPS 180-1: the padding of a message, its 512-bit blocks,
    the recursive word schedule and 80 rounds with their functions and constants. *)
From S2P Require Import Prelude.
From Equations Require Import Equations.

(** ** The program *)

Definition shaSuccess : Z := 0.
Definition shaNull : Z := 1.
Definition shaInputTooLong : Z := 2.
Definition shaStateError : Z := 3.
Definition SHA1HashSize : nat := 20.

Record SHA1Context := mkSHA1 {
  Intermediate_Hash : list Z;
  Length_Low : Z;
  Length_High : Z;
  Message_Block_Index : nat;
  Message_Block : list Z;
  Computed : Z;
  Corrupted : Z;
}.

(** [SHA1CircularShift] on 32-bit words; [~] of a 32-bit word. *)
Definition SHA1CircularShift (bits word : Z) : Z :=
  Z.lor (u32 (Z.shiftl word bits)) (Z.shiftr word (32 - bits)).
Definition not32 (w : Z) : Z := u32 (Z.lnot w).

Definition SHA1Reset (context : option SHA1Context) : Z * option SHA1Context :=
  match context with
  | None => (shaNull, None)
  | Some c =>
      (shaSuccess,
       Some (mkSHA1 [0x67452301; 0xEFCDAB89; 0x98BADCFE; 0x10325476; 0xC3D2E1F0]
               0 0 0 (Message_Block c) 0 0))
  end.

(** The first 16 words of [W], big-endian from the block. *)
Definition W_init (block : list Z) : list Z :=
  (fun t : nat =>
     Z.lor (Z.lor (Z.lor (u32 (Z.shiftl (nth (t * 4) block 0) 24))
                         (Z.shiftl (nth (t * 4 + 1) block 0) 16))
                  (Z.shiftl (nth (t * 4 + 2) block 0) 8))
           (nth (t * 4 + 3) block 0)) <$> seq 0 16.

(** [for (t = 16; t < 80; t++) W[t] = ...]: [W] holds the words written so far. *)
Definition W_step (W : list Z) (t : nat) : list Z :=
  W ++ [SHA1CircularShift 1
          (Z.lxor (Z.lxor (Z.lxor (nth (t - 3) W 0) (nth (t - 8) W 0))
                          (nth (t - 14) W 0)) (nth (t - 16) W 0))].
Definition W_words (block : list Z) : list Z :=
  fold_left W_step (seq 16 64) (W_init block).

(** One round of each of the four loops; [f] is the loop's function of B, C, D. *)
Definition rounds (f : Z -> Z -> Z -> Z) (K : Z) (W : list Z)
    (s : Z * Z * Z * Z * Z) (t : nat) : Z * Z * Z * Z * Z :=
  let '(A, B, C, D, E) := s in
  let temp := u32 (SHA1CircularShift 5 A + f B C D + E + nth t W 0 + K) in
  (temp, A, SHA1CircularShift 30 B, C, D).

Definition f_0_19 (B C D : Z) : Z := Z.lor (Z.land B C) (Z.land (not32 B) D).
Definition f_parity (B C D : Z) : Z := Z.lxor (Z.lxor B C) D.
Definition f_40_59 (B C D : Z) : Z :=
  Z.lor (Z.lor (Z.land B C) (Z.land B D)) (Z.land C D).

(** The four loops of rounds, and the additions after them. *)
Definition all_rounds (W : list Z) (s : Z * Z * Z * Z * Z) : Z * Z * Z * Z * Z :=
  let s := fold_left (rounds f_0_19 0x5A827999 W) (seq 0 20) s in
  let s := fold_left (rounds f_parity 0x6ED9EBA1 W) (seq 20 20) s in
  let s := fold_left (rounds f_40_59 0x8F1BBCDC W) (seq 40 20) s in
  fold_left (rounds f_parity 0xCA62C1D6 W) (seq 60 20) s.

Definition add_hash (h : list Z) (s : Z * Z * Z * Z * Z) : list Z :=
  let '(A, B, C, D, E) := s in
  [u32 (nth 0 h 0 + A); u32 (nth 1 h 0 + B); u32 (nth 2 h 0 + C);
   u32 (nth 3 h 0 + D); u32 (nth 4 h 0 + E)].

Definition SHA1ProcessMessageBlock (c : SHA1Context) : SHA1Context :=
  let h := Intermediate_Hash c in
  let s := all_rounds (W_words (Message_Block c))
             (nth 0 h 0, nth 1 h 0, nth 2 h 0, nth 3 h 0, nth 4 h 0) in
  mkSHA1 (add_hash h s)
    (Length_Low c) (Length_High c) 0 (Message_Block c) (Computed c) (Corrupted c).

(** [Message_Block[Message_Block_Index++] = b]. *)
Definition put_byte (b : Z) (c : SHA1Context) : option SHA1Context :=
  if decide (Message_Block_Index c < length (Message_Block c))%nat
  then Some (mkSHA1 (Intermediate_Hash c) (Length_Low c) (Length_High c)
               (S (Message_Block_Index c))
               (<[Message_Block_Index c := b]> (Message_Block c))
               (Computed c) (Corrupted c))
  else None.

Definition set_length (low high corrupted : Z) (c : SHA1Context) : SHA1Context :=
  mkSHA1 (Intermediate_Hash c) low high (Message_Block_Index c) (Message_Block c)
    (Computed c) corrupted.

(** The body of the loop of [SHA1Input]. *)
Definition input_byte (b : Z) (c : SHA1Context) : option SHA1Context :=
  c ← put_byte (Z.land b 0xFF) c;
  let low := u32 (Length_Low c + 8) in
  let high := if low =? 0 then u32 (Length_High c + 1) else Length_High c in
  let corrupted := if (low =? 0) && (high =? 0) then 1 else Corrupted c in
  let c := set_length low high corrupted c in
  Some (if (Message_Block_Index c =? 64)%nat then SHA1ProcessMessageBlock c else c).

(** [while (length-- && !Corrupted)]; [n] is [length]. *)
Fixpoint input_loop (n : nat) (message : list Z) (c : SHA1Context)
    : option SHA1Context :=
  match n with
  | O => Some c
  | S n =>
      if negb (Corrupted c =? 0) then Some c else
      match message with
      | [] => None
      | b :: message => c ← input_byte b c; input_loop n message c
      end
  end.

Definition SHA1Input (context : option SHA1Context) (message_array : option (list Z))
    (length : Z) : option (Z * option SHA1Context) :=
  let length := u32 length in             (* unsigned length *)
  if length =? 0 then Some (shaSuccess, context) else
  match context, message_array with
  | Some c, Some message =>
      if negb (Computed c =? 0)
      then Some (shaStateError,
                 Some (set_length (Length_Low c) (Length_High c) shaStateError c))
      else if negb (Corrupted c =? 0) then Some (Corrupted c, Some c) else
      c ← input_loop (Z.to_nat length) message c;
      Some (shaSuccess, Some c)
  | _, _ => Some (shaNull, context)
  end.

(** [while (Message_Block_Index < lim) Message_Block[Message_Block_Index++] = 0];
    [n] bounds the iterations. *)
Fixpoint fill_zero (n lim : nat) (c : SHA1Context) : option SHA1Context :=
  if (Message_Block_Index c <? lim)%nat then
    match n with
    | O => None
    | S n => c ← put_byte 0 c; fill_zero n lim c
    end
  else Some c.

(** [Message_Block[i] = b]. *)
Definition store (i : nat) (b : Z) (c : SHA1Context) : option SHA1Context :=
  if decide (i < length (Message_Block c))%nat
  then Some (mkSHA1 (Intermediate_Hash c) (Length_Low c) (Length_High c)
               (Message_Block_Index c) (<[i := wrap 8 b]> (Message_Block c))
               (Computed c) (Corrupted c))
  else None.

Definition SHA1PadMessage (c : SHA1Context) : option SHA1Context :=
  c ← (if (55 <? Message_Block_Index c)%nat
       then c ← put_byte 0x80 c;
            c ← fill_zero 64 64 c;
            fill_zero 56 56 (SHA1ProcessMessageBlock c)
       else c ← put_byte 0x80 c;
            fill_zero 56 56 c);
  c ← store 56 (Z.shiftr (Length_High c) 24) c;
  c ← store 57 (Z.shiftr (Length_High c) 16) c;
  c ← store 58 (Z.shiftr (Length_High c) 8) c;
  c ← store 59 (Length_High c) c;
  c ← store 60 (Z.shiftr (Length_Low c) 24) c;
  c ← store 61 (Z.shiftr (Length_Low c) 16) c;
  c ← store 62 (Z.shiftr (Length_Low c) 8) c;
  c ← store 63 (Length_Low c) c;
  Some (SHA1ProcessMessageBlock c).

(** The bytes [SHA1Result] writes to [Message_Digest]. *)
Definition digest_bytes (hash : list Z) : list Z :=
  (fun i : nat =>
     wrap 8 (Z.shiftr (nth (i / 4) hash 0) (8 * (3 - Z.of_nat (i mod 4)))))
  <$> seq 0 SHA1HashSize.

(** [SHA1Result]: the code, the context and, on success, the digest written to
    [Message_Digest] ([has_digest] says that this pointer is not null). *)
Definition SHA1Result (context : option SHA1Context) (has_digest : bool)
    : option (Z * option SHA1Context * option (list Z)) :=
  match context with
  | Some c =>
      if negb has_digest then Some (shaNull, Some c, None) else
      if negb (Corrupted c =? 0) then Some (Corrupted c, Some c, None) else
      c ← (if Computed c =? 0
           then c ← SHA1PadMessage c;
                Some (mkSHA1 (Intermediate_Hash c) 0 0 (Message_Block_Index c)
                        (replicate 64 0) 1 (Corrupted c))
           else Some c);
      Some (shaSuccess, Some c, Some (digest_bytes (Intermediate_Hash c)))
  | None => Some (shaNull, None, None)
  end.

(** A whole digest the way a client computes it: reset, one input per chunk,
    result; with the codes the calls return. *)
Fixpoint sha1_inputs (c : option SHA1Context) (chunks : list (list Z))
    : option (list Z * option SHA1Context) :=
  match chunks with
  | [] => Some ([], c)
  | m :: chunks =>
      '(err, c) ← SHA1Input c (Some m) (Z.of_nat (length m));
      '(errs, c) ← sha1_inputs c chunks;
      Some (err :: errs, c)
  end.

Definition sha1_run (c : SHA1Context) (chunks : list (list Z)) : option (list Z * option (list Z)) :=
  let '(err, c) := SHA1Reset (Some c) in
  '(errs, c) ← sha1_inputs c chunks;
  '(err', _, d) ← SHA1Result c true;
  Some (err :: errs ++ [err'], d).

(** ** FIPS 180-1 *)
Module Fips.

Definition rotl (n x : Z) : Z := Z.lor ((x * 2 ^ n) mod 2 ^ 32) (x / 2 ^ (32 - n)).

(** Big-endian bytes of a [n]-byte number. *)
Fixpoint be_bytes (n : nat) (z : Z) : list Z :=
  match n with
  | O => []
  | S n => (z / 2 ^ (8 * Z.of_nat n)) mod 256 :: be_bytes n z
  end.

Definition pad (m : list Z) : list Z :=
  m ++ [128]
    ++ replicate (Z.to_nat ((55 - Z.of_nat (length m)) mod 64)) 0
    ++ be_bytes 8 (8 * Z.of_nat (length m)).

(** Word [i] of a block. *)
Definition word (b : list Z) (i : nat) : Z :=
  nth (4 * i) b 0 * 2 ^ 24 + nth (4 * i + 1) b 0 * 2 ^ 16
  + nth (4 * i + 2) b 0 * 2 ^ 8 + nth (4 * i + 3) b 0.

Equations? W (b : list Z) (t : nat) : Z by wf t lt :=
  W b t with lt_dec t 16 => {
    | left _ => word b t
    | right _ =>
        rotl 1 (Z.lxor (Z.lxor (Z.lxor (W b (t - 3)) (W b (t - 8)))
                               (W b (t - 14))) (W b (t - 16))) }.
Proof. all: lia. Qed.

Definition f (t : nat) (B C D : Z) : Z :=
  if (t <? 20)%nat then Z.lor (Z.land B C) (Z.land ((2 ^ 32 - 1 - B) mod 2 ^ 32) D)
  else if (t <? 40)%nat then Z.lxor (Z.lxor B C) D
  else if (t <? 60)%nat then Z.lor (Z.lor (Z.land B C) (Z.land B D)) (Z.land C D)
  else Z.lxor (Z.lxor B C) D.

Definition K (t : nat) : Z :=
  if (t <? 20)%nat then 0x5A827999 else if (t <? 40)%nat then 0x6ED9EBA1
  else if (t <? 60)%nat then 0x8F1BBCDC else 0xCA62C1D6.

Definition round (b : list Z) (s : Z * Z * Z * Z * Z) (t : nat)
    : Z * Z * Z * Z * Z :=
  let '(A, B, C, D, E) := s in
  ((rotl 5 A + f t B C D + E + W b t + K t) mod 2 ^ 32, A, rotl 30 B, C, D).

Definition hash := (Z * Z * Z * Z * Z)%type.

Definition compress (h : hash) (b : list Z) : hash :=
  let '(h0, h1, h2, h3, h4) := h in
  let '(A, B, C, D, E) := fold_left (round b) (seq 0 80) h in
  ((h0 + A) mod 2 ^ 32, (h1 + B) mod 2 ^ 32, (h2 + C) mod 2 ^ 32,
   (h3 + D) mod 2 ^ 32, (h4 + E) mod 2 ^ 32).

Definition H0 : hash := (0x67452301, 0xEFCDAB89, 0x98BADCFE, 0x10325476, 0xC3D2E1F0).

Definition block (p : list Z) (i : nat) : list Z := take 64 (drop (64 * i) p).

(** The hash value after the first [n] blocks of [p]. *)
Definition blocks (p : list Z) (n : nat) : hash :=
  fold_left (fun h i => compress h (block p i)) (seq 0 n) H0.

Definition words (h : hash) : list Z :=
  let '(a, b, c, d, e) := h in [a; b; c; d; e].

Definition sha1 (m : list Z) : list Z :=
  let p := pad m in words (blocks p (length p / 64)) ≫= be_bytes 4.

End Fips.

(** ** The compression function is that of the standard *)

Definition is_byte (z : Z) : Prop := 0 <= z < 256.

Lemma CircularShift_rotl n x : 0 <= n <= 32 -> SHA1CircularShift n x = Fips.rotl n x.
Proof.
  intros. unfold SHA1CircularShift, Fips.rotl, u32, wrap.
  by rewrite Z.shiftl_mul_pow2, Z.shiftr_div_pow2 by lia.
Qed.

Lemma not32_sub B : not32 B = (2 ^ 32 - 1 - B) mod 2 ^ 32.
Proof.
  unfold not32, u32, wrap, Z.lnot.
  replace (2 ^ 32 - 1 - B) with (Z.pred (- B) + 1 * 2 ^ 32) by lia.
  by rewrite Z.mod_add by lia.
Qed.

Lemma W_init_word b t :
  Forall is_byte b -> (t < 16)%nat -> nth t (W_init b) 0 = Fips.word b t.
Proof.
  intros Hb Ht. unfold W_init.
  assert (forall i, is_byte (nth i b 0)) as Hr.
  { intros i. destruct (nth_in_or_default i b 0) as [Hi| ->]; [|unfold is_byte; lia].
    rewrite Forall_forall in Hb. apply Hb. by apply list_elem_of_In. }
  rewrite (nth_indep _ 0 ((fun t : nat =>
     Z.lor (Z.lor (Z.lor (u32 (Z.shiftl (nth (t * 4) b 0) 24))
                         (Z.shiftl (nth (t * 4 + 1) b 0) 16))
                  (Z.shiftl (nth (t * 4 + 2) b 0) 8))
           (nth (t * 4 + 3) b 0)) 0%nat)) by (rewrite length_fmap, length_seq; done).
  rewrite (map_nth (fun t : nat => _) (seq 0 16)), seq_nth by done. cbn beta.
  unfold Fips.word. rewrite Nat.add_0_l, !(Nat.mul_comm t 4).
  generalize (Hr (4 * t)%nat), (Hr (4 * t + 1)%nat), (Hr (4 * t + 2)%nat),
    (Hr (4 * t + 3)%nat). unfold is_byte. intros.
  rewrite !Z.shiftl_mul_pow2, u32_small by lia.
  set (b0 := nth (4 * t) b 0) in *. set (b1 := nth (4 * t + 1) b 0) in *.
  set (b2 := nth (4 * t + 2) b 0) in *. set (b3 := nth (4 * t + 3) b 0) in *.
  rewrite (lor_add b0 (b1 * 2 ^ 16) 24) by lia.
  replace (b0 * 2 ^ 24 + b1 * 2 ^ 16) with ((b0 * 2 ^ 8 + b1) * 2 ^ 16) by lia.
  rewrite (lor_add _ (b2 * 2 ^ 8) 16) by lia.
  replace ((b0 * 2 ^ 8 + b1) * 2 ^ 16 + b2 * 2 ^ 8)
    with ((b0 * 2 ^ 16 + b1 * 2 ^ 8 + b2) * 2 ^ 8) by lia.
  rewrite (lor_add _ b3 8) by lia. lia.
Qed.

Lemma W_words_W b t :
  Forall is_byte b -> (t < 80)%nat -> nth t (W_words b) 0 = Fips.W b t.
Proof.
  intros Hb. unfold W_words.
  assert (forall n, let w := fold_left W_step (seq 16 n) (W_init b) in
    length w = (16 + n)%nat /\ forall t, (t < 16 + n)%nat -> nth t w 0 = Fips.W b t) as H.
  { induction n as [|n [IHl IH]]; intros w.
    - split; [done|]. intros s Hs. subst w. cbn [seq fold_left].
      rewrite W_init_word by (done || lia).
      rewrite Fips.W_equation_1. destruct (lt_dec s 16); [done|lia].
    - subst w. rewrite seq_S, fold_left_app. cbn [fold_left].
      set (w := fold_left W_step _ _) in *. unfold W_step. split.
      { rewrite length_app, IHl. cbn. lia. }
      intros s Hs. destruct (decide (s < 16 + n)%nat).
      { rewrite app_nth1 by lia. by apply IH. }
      replace s with (16 + n)%nat by lia.
      rewrite app_nth2, IHl, Nat.sub_diag by lia. cbn [nth].
      rewrite !IH, CircularShift_rotl by lia.
      rewrite (Fips.W_equation_1 b (16 + n)).
      destruct (lt_dec (16 + n) 16); [lia|done]. }
  intros Ht. apply (H 64%nat). lia.
Qed.

Lemma rounds_round f K b s t :
  Forall is_byte b -> (t < 80)%nat ->
  (forall B C D, f B C D = Fips.f t B C D) -> K = Fips.K t ->
  rounds f K (W_words b) s t = Fips.round b s t.
Proof.
  intros Hb Ht Hf ->. destruct s as [[[[A B] C] D] E]. unfold rounds, Fips.round.
  by rewrite Hf, W_words_W, !CircularShift_rotl by (done || lia).
Qed.

Lemma rounds_loop f K b s a n :
  Forall is_byte b -> (a + n <= 80)%nat ->
  (forall t, (a <= t < a + n)%nat ->
     (forall B C D, f B C D = Fips.f t B C D) /\ K = Fips.K t) ->
  fold_left (rounds f K (W_words b)) (seq a n) s = fold_left (Fips.round b) (seq a n) s.
Proof.
  intros Hb Ha H. apply fold_left_ext_in. intros s' t Ht%elem_of_seq.
  destruct (H t Ht). apply rounds_round; (done || lia).
Qed.

Ltac fips_range :=
  let Ht := fresh in intros ? Ht; unfold Fips.f, Fips.K, f_0_19;
  split; intros; rewrite ?not32_sub; bool_cases; done.

Lemma compress_process h c :
  Intermediate_Hash c = Fips.words h -> Forall is_byte (Message_Block c) ->
  Intermediate_Hash (SHA1ProcessMessageBlock c)
  = Fips.words (Fips.compress h (Message_Block c)).
Proof.
  intros Hh Hb. cbn [SHA1ProcessMessageBlock Intermediate_Hash]. rewrite Hh.
  destruct h as [[[[h0 h1] h2] h3] h4]. cbn [Fips.words nth]. unfold all_rounds.
  rewrite !rounds_loop by (done || lia || fips_range).
  unfold Fips.compress.
  change (seq 0 80) with (seq 0 20 ++ seq 20 20 ++ seq 40 20 ++ seq 60 20).
  rewrite !fold_left_app.
  by destruct (fold_left _ (seq 60 20) _) as [[[[A B] C] D] E].
Qed.

(** ** The block buffer

    [filled p k c]: the bytes [p] were written to the block, of which the first
    [k] blocks are processed. *)

Record filled (p : list Z) (k : nat) (c : SHA1Context) : Prop := {
  filled_index : length p = (64 * k + Message_Block_Index c)%nat;
  filled_bound : (Message_Block_Index c <= 64)%nat;
  filled_block : take (Message_Block_Index c) (Message_Block c) = drop (64 * k) p;
  filled_size : length (Message_Block c) = 64%nat;
  filled_hash : Intermediate_Hash c = Fips.words (Fips.blocks p k);
  filled_bytes : Forall is_byte p;
}.

(** What writing to the block leaves alone. *)
Definition same_meta (c c' : SHA1Context) : Prop :=
  Length_Low c' = Length_Low c /\ Length_High c' = Length_High c
  /\ Computed c' = Computed c /\ Corrupted c' = Corrupted c.

Lemma blocks_prefix p q k :
  (64 * k <= length p)%nat -> Fips.blocks (p ++ q) k = Fips.blocks p k.
Proof.
  intros Hk. unfold Fips.blocks. apply fold_left_ext_in. intros h i Hi%elem_of_seq.
  f_equal. unfold Fips.block.
  rewrite drop_app_le by lia. by rewrite take_app_le by (rewrite length_drop; lia).
Qed.

Lemma blocks_S p k :
  Fips.blocks p (S k) = Fips.compress (Fips.blocks p k) (Fips.block p k).
Proof. unfold Fips.blocks. by rewrite seq_S, fold_left_app. Qed.

Lemma put_byte_filled b p k c :
  filled p k c -> is_byte b -> (Message_Block_Index c < 64)%nat ->
  exists c', put_byte b c = Some c' /\ filled (p ++ [b]) k c' /\ same_meta c c'
    /\ Message_Block_Index c' = S (Message_Block_Index c).
Proof.
  intros [Hi Hb Hblk Hs Hh Hby] Hbt Hlt. unfold put_byte.
  destruct (decide _) as [_|]; [|lia]. eexists. split; [done|].
  split; [|by split_and!].
  constructor; cbn [Message_Block_Index Message_Block Intermediate_Hash].
  - rewrite length_app. cbn. lia.
  - lia.
  - rewrite drop_app_le, <- Hblk by lia.
    rewrite (take_S_r _ _ b) by (apply list_lookup_insert_eq; lia).
    by rewrite take_insert_ge by lia.
  - by rewrite length_insert.
  - by rewrite blocks_prefix by lia.
  - by apply Forall_app_2; [|apply Forall_singleton].
Qed.

Lemma process_meta c :
  let c' := SHA1ProcessMessageBlock c in
  same_meta c c' /\ Message_Block_Index c' = 0%nat /\ Message_Block c' = Message_Block c.
Proof.
  by split_and!.
Qed.

#[local] Opaque SHA1ProcessMessageBlock.

Lemma process_filled p k c :
  filled p k c -> Message_Block_Index c = 64%nat ->
  filled p (S k) (SHA1ProcessMessageBlock c) /\ same_meta c (SHA1ProcessMessageBlock c)
  /\ Message_Block_Index (SHA1ProcessMessageBlock c) = 0%nat.
Proof.
  intros [Hi Hb Hblk Hs Hh Hby] H64.
  assert (Message_Block c = Fips.block p k) as Hm.
  { unfold Fips.block. rewrite <- Hblk, H64, take_take.
    rewrite take_ge by (rewrite Hs; lia). done. }
  assert (Forall is_byte (Message_Block c)) as Hmb.
  { rewrite Hm. by apply Forall_take, Forall_drop. }
  pose proof (compress_process _ c Hh Hmb) as Hc.
  destruct (process_meta c) as (Hsm & Hx & Hbk).
  split; [|exact (conj Hsm Hx)]. constructor; rewrite ?Hx, ?Hbk.
  - lia.
  - lia.
  - rewrite take_0. by rewrite drop_ge by lia.
  - exact Hs.
  - rewrite Hc, blocks_S, Hm. reflexivity.
  - exact Hby.
Qed.

Lemma fill_zero_filled n lim p k c :
  filled p k c -> (lim <= 64)%nat -> (Message_Block_Index c <= lim)%nat ->
  (lim <= Message_Block_Index c + n)%nat ->
  exists c', fill_zero n lim c = Some c'
    /\ filled (p ++ replicate (lim - Message_Block_Index c) 0) k c' /\ same_meta c c'
    /\ Message_Block_Index c' = lim.
Proof.
  revert p c. induction n as [|n IH]; intros p c Hf Hl Hi Hn; cbn [fill_zero];
    (destruct (Nat.ltb_spec (Message_Block_Index c) lim);
     [|assert (lim - Message_Block_Index c = 0)%nat as -> by lia;
       cbn [replicate]; rewrite app_nil_r; eexists; split_and!; (done || lia)]); [lia|].
  destruct (put_byte_filled 0 p k c) as (c1 & -> & Hf1 & Hm1 & Hi1);
    [done|unfold is_byte; lia|lia|].
  obind. destruct (IH (p ++ [0]) c1) as (c2 & -> & Hf2 & Hm2 & Hi2);
    [done|lia|lia|lia|].
  eexists. split; [done|]. split_and!; [|unfold same_meta in *; intuition congruence|done].
  replace (lim - Message_Block_Index c)%nat with (S (lim - Message_Block_Index c1)) by lia.
  cbn [replicate]. by rewrite cons_middle, app_assoc.
Qed.

(** ** Streaming

    [consumed m c]: [c] is the context after the message [m]. *)

Record consumed (m : list Z) (c : SHA1Context) : Prop := {
  consumed_filled : filled m (length m / 64) c;
  consumed_computed : Computed c = 0;
  consumed_corrupted : Corrupted c = 0;
  consumed_low : 0 <= Length_Low c < 2 ^ 32;
  consumed_high : 0 <= Length_High c < 2 ^ 32;
  consumed_length : Length_High c * 2 ^ 32 + Length_Low c = 8 * Z.of_nat (length m);
}.

Lemma consumed_reset c :
  length (Message_Block c) = 64%nat ->
  exists c', SHA1Reset (Some c) = (shaSuccess, Some c') /\ consumed [] c'.
Proof.
  intros Hc. eexists. split; [reflexivity|].
  constructor; cbn; try lia. constructor; cbn; (done || lia).
Qed.

(** The 64-bit length counter, kept as two words, counts one more byte. *)
Lemma length_counter low high n :
  0 <= low < 2 ^ 32 -> 0 <= high < 2 ^ 32 ->
  high * 2 ^ 32 + low = 8 * n -> 8 * (n + 1) < 2 ^ 64 ->
  let low' := u32 (low + 8) in
  let high' := if low' =? 0 then u32 (high + 1) else high in
  0 <= low' < 2 ^ 32 /\ 0 <= high' < 2 ^ 32
  /\ high' * 2 ^ 32 + low' = 8 * (n + 1) /\ (low' =? 0) && (high' =? 0) = false.
Proof.
  intros Hl Hh He Hn low' high'.
  assert (low' = low + 8 /\ low + 8 < 2 ^ 32 \/ low' = 0 /\ low + 8 = 2 ^ 32) as Hc.
  { subst low'. assert ((low + 8) mod 8 = 0) as Hm.
    { replace (low + 8) with ((n + 1 - high * 2 ^ 29) * 8) by lia. by apply Z.mod_mul. }
    assert (low + 8 <= 2 ^ 32).
    { apply Z.div_exact in Hm; [|lia].
      assert ((low + 8) / 8 <= 2 ^ 29) by (apply Z.lt_succ_r, Z.div_lt_upper_bound; lia).
      lia. }
    destruct (decide (low + 8 = 2 ^ 32)) as [He'|];
      [right; by rewrite He'|left; rewrite u32_small by lia; lia]. }
  subst high'. destruct (Z.eqb_spec low' 0); [|split_and!; (done || lia)].
  rewrite u32_small by lia. cbn [andb]. split_and!; try lia; apply Z.eqb_neq; lia.
Qed.

Lemma mod64_S n : (S n mod 64 = if n mod 64 =? 63 then 0 else S (n mod 64))%nat
  /\ (S n / 64 = if n mod 64 =? 63 then S (n / 64) else n / 64)%nat.
Proof.
  pose proof (Nat.div_mod_eq n 64). pose proof (Nat.mod_upper_bound n 64 ltac:(lia)).
  destruct (Nat.eqb_spec (n mod 64) 63).
  - split; symmetry.
    + apply Nat.mod_unique with (S (n / 64)); lia.
    + apply Nat.div_unique with 0%nat; lia.
  - split; symmetry.
    + apply Nat.mod_unique with (n / 64)%nat; lia.
    + apply Nat.div_unique with (S (n mod 64)); lia.
Qed.

Lemma consumed_index m c :
  consumed m c -> Message_Block_Index c = (length m mod 64)%nat.
Proof.
  intros [[Hi _ _ _ _ _] _ _ _ _ _].
  pose proof (Nat.div_mod_eq (length m) 64). lia.
Qed.

Lemma is_byte_land b : is_byte b -> Z.land b 0xFF = b.
Proof.
  intros Hb. change 0xFF with (Z.ones 8). rewrite Z.land_ones by lia.
  by apply Z.mod_small.
Qed.

Lemma input_byte_consumed b m c :
  consumed m c -> is_byte b -> 8 * (Z.of_nat (length m) + 1) < 2 ^ 64 ->
  exists c', input_byte b c = Some c' /\ consumed (m ++ [b]) c'.
Proof.
  intros Hc Hb Hlen. pose proof (consumed_index m c Hc) as Hidx.
  destruct Hc as [Hf Hcm Hcr Hlo Hhi Hl].
  pose proof (Nat.mod_upper_bound (length m) 64 ltac:(lia)).
  unfold input_byte. rewrite is_byte_land by done.
  destruct (put_byte_filled b m _ c Hf Hb) as (c1 & -> & Hf1 & (Hm1 & Hm2 & Hm3 & Hm4) & Hi1);
    [lia|]. obind. rewrite Hm1, Hm2, Hm4.
  destruct (length_counter _ _ _ Hlo Hhi Hl Hlen) as (Hlo' & Hhi' & Hl' & ->).
  rewrite Hcr. set (low := u32 _) in *. set (high := if low =? 0 then _ else _) in *.
  assert (filled (m ++ [b]) (length m / 64) (set_length low high 0 c1)) as Hf2
    by (by destruct Hf1; constructor).
  cbn [Message_Block_Index set_length]. rewrite Hi1.
  destruct (mod64_S (length m)) as [_ Hd].
  assert (length (m ++ [b]) = S (length m)) as Hlm by (rewrite length_app; cbn; lia).
  destruct (Nat.eqb_spec (length m mod 64) 63) as [H63|H63].
  - destruct (Nat.eqb_spec (S (Message_Block_Index c)) 64); [|lia].
    destruct (process_filled _ _ _ Hf2) as (Hf3 & (Hp1 & Hp2 & Hp3 & Hp4) & _); [cbn; lia|].
    eexists. split; [done|].
    constructor; rewrite ?Hp1, ?Hp2, ?Hp3, ?Hp4; cbn [Length_Low Length_High Computed
      Corrupted set_length]; rewrite ?Hlm, ?Hd, ?Hm3; try done.
    rewrite Nat2Z.inj_succ. lia.
  - destruct (Nat.eqb_spec (S (Message_Block_Index c)) 64); [lia|].
    eexists. split; [done|].
    constructor; cbn [Length_Low Length_High Computed Corrupted set_length];
      rewrite ?Hlm, ?Hd, ?Hm3; try done.
    rewrite Nat2Z.inj_succ. lia.
Qed.

Lemma input_loop_consumed msg m c :
  consumed m c -> Forall is_byte msg ->
  8 * Z.of_nat (length m + length msg) < 2 ^ 64 ->
  exists c', input_loop (length msg) msg c = Some c' /\ consumed (m ++ msg) c'.
Proof.
  revert m c. induction msg as [|b msg IH]; intros m c Hc Hb Hl.
  { eexists. rewrite app_nil_r. by split. }
  apply Forall_cons in Hb as [Hb Hbs]. cbn [length input_loop] in *.
  rewrite (consumed_corrupted _ _ Hc). cbn [negb Z.eqb].
  destruct (input_byte_consumed b m c Hc Hb ltac:(lia)) as (c1 & -> & Hc1). obind.
  destruct (IH (m ++ [b]) c1 Hc1 Hbs) as (c2 & -> & Hc2).
  { rewrite length_app. cbn. lia. }
  eexists. split; [done|]. by rewrite cons_middle, app_assoc.
Qed.

Lemma input_consumed msg m c :
  consumed m c -> Forall is_byte msg -> Z.of_nat (length msg) < 2 ^ 32 ->
  8 * Z.of_nat (length m + length msg) < 2 ^ 64 ->
  exists c', SHA1Input (Some c) (Some msg) (Z.of_nat (length msg)) = Some (shaSuccess, Some c')
    /\ consumed (m ++ msg) c'.
Proof.
  intros Hc Hb H32 Hl. unfold SHA1Input. rewrite u32_small by lia. cbn zeta.
  destruct (Z.eqb_spec (Z.of_nat (length msg)) 0).
  { destruct msg; [|cbn in *; lia]. rewrite app_nil_r. eauto. }
  rewrite (consumed_corrupted _ _ Hc), (consumed_computed _ _ Hc). cbn [negb Z.eqb].
  rewrite Nat2Z.id. destruct (input_loop_consumed msg m c) as (c' & -> & Hc'); eauto.
Qed.

(** ** Padding and result *)


Lemma be_byte_high H L j :
  0 <= L < 2 ^ 32 -> 0 <= j ->
  ((H * 2 ^ 32 + L) / 2 ^ (32 + j)) mod 256 = wrap 8 (Z.shiftr H j).
Proof.
  intros HL Hj. rewrite Z.shiftr_div_pow2, Z.pow_add_r, <- Z.div_div by lia.
  rewrite Z.div_add_l, (Z.div_small L) by lia. by rewrite Z.add_0_r.
Qed.

Lemma be_byte_low H L j :
  0 <= j <= 24 -> ((H * 2 ^ 32 + L) / 2 ^ j) mod 256 = wrap 8 (Z.shiftr L j).
Proof.
  intros Hj. rewrite Z.shiftr_div_pow2 by lia.
  replace (2 ^ 32) with (2 ^ (24 - j) * 256 * 2 ^ j)
    by (change 256 with (2 ^ 8); rewrite <- !Z.pow_add_r by lia; f_equal; lia).
  rewrite !Z.mul_assoc, Z.add_comm, Z.div_add by lia. by rewrite Z.mod_add by lia.
Qed.

Lemma be_bytes_8 H L :
  0 <= L < 2 ^ 32 ->
  Fips.be_bytes 8 (H * 2 ^ 32 + L)
  = [wrap 8 (Z.shiftr H 24); wrap 8 (Z.shiftr H 16); wrap 8 (Z.shiftr H 8); wrap 8 H;
     wrap 8 (Z.shiftr L 24); wrap 8 (Z.shiftr L 16); wrap 8 (Z.shiftr L 8); wrap 8 L].
Proof.
  intros HL. set (z := H * 2 ^ 32 + L).
  change (Fips.be_bytes 8 z) with
    [(z / 2 ^ (32 + 24)) mod 256; (z / 2 ^ (32 + 16)) mod 256; (z / 2 ^ (32 + 8)) mod 256;
     (z / 2 ^ (32 + 0)) mod 256; (z / 2 ^ 24) mod 256; (z / 2 ^ 16) mod 256;
     (z / 2 ^ 8) mod 256; (z / 2 ^ 0) mod 256].
  subst z. rewrite !be_byte_high, !be_byte_low by lia. by rewrite !Z.shiftr_0_r.
Qed.

Lemma be_bytes_range n z : Forall is_byte (Fips.be_bytes n z).
Proof.
  induction n; cbn [Fips.be_bytes]; constructor; [|done].
  apply Z.mod_pos_bound. lia.
Qed.

Lemma length_be_bytes n z : length (Fips.be_bytes n z) = n.
Proof. by induction n; cbn [Fips.be_bytes length]; f_equal. Qed.

(** The eight stores of the length overwrite the last bytes of the block. *)
Lemma insert_tail (l : list Z) b0 b1 b2 b3 b4 b5 b6 b7 :
  length l = 64%nat ->
  <[63%nat:=b7]> (<[62%nat:=b6]> (<[61%nat:=b5]> (<[60%nat:=b4]> (<[59%nat:=b3]>
    (<[58%nat:=b2]> (<[57%nat:=b1]> (<[56%nat:=b0]> l)))))))
  = take 56 l ++ [b0; b1; b2; b3; b4; b5; b6; b7].
Proof.
  intros Hl. rewrite <- (take_drop 56 l) at 1.
  assert (length (drop 56 l) = 8%nat) as Hd by (rewrite length_drop, Hl; done).
  destruct (drop 56 l) as [|x0 [|x1 [|x2 [|x3 [|x4 [|x5 [|x6 [|x7 [|]]]]]]]]];
    try discriminate Hd.
  assert (length (take 56 l) = 56%nat) as Ht by (rewrite length_take, Hl; done).
  rewrite !insert_app_r_alt by lia. by rewrite Ht.
Qed.

(** The block with the padding and the length is processed. *)
Lemma store_length_process p k c :
  filled p k c -> Message_Block_Index c = 56%nat -> 0 <= Length_Low c < 2 ^ 32 ->
  exists c',
    (c ← store 56 (Z.shiftr (Length_High c) 24) c;
     c ← store 57 (Z.shiftr (Length_High c) 16) c;
     c ← store 58 (Z.shiftr (Length_High c) 8) c;
     c ← store 59 (Length_High c) c;
     c ← store 60 (Z.shiftr (Length_Low c) 24) c;
     c ← store 61 (Z.shiftr (Length_Low c) 16) c;
     c ← store 62 (Z.shiftr (Length_Low c) 8) c;
     c ← store 63 (Length_Low c) c;
     Some (SHA1ProcessMessageBlock c)) = Some c'
    /\ filled (p ++ Fips.be_bytes 8 (Length_High c * 2 ^ 32 + Length_Low c)) (S k) c'
    /\ Corrupted c' = Corrupted c.
Proof.
  intros Hf Hi Hl. destruct c as [h lo hi idx blk cm cr]. cbn in Hi, Hl. subst idx.
  pose proof (filled_size _ _ _ Hf) as Hs. cbn in Hs.
  unfold store. cbn [Message_Block].
  repeat (rewrite decide_True by (rewrite ?length_insert; lia); obind;
          cbn [Message_Block Intermediate_Hash Length_Low Length_High
               Message_Block_Index Computed Corrupted]).
  eexists. split; [reflexivity|]. rewrite insert_tail by done.
  set (bs := Fips.be_bytes 8 _).
  match goal with |- filled _ _ (SHA1ProcessMessageBlock (mkSHA1 _ _ _ _ ?b _ _)) /\ _ =>
    assert (b = take 56 blk ++ bs) as -> end.
  { subst bs. by rewrite be_bytes_8. }
  change (SHA1ProcessMessageBlock (mkSHA1 h lo hi 56 (take 56 blk ++ bs) cm cr))
    with (SHA1ProcessMessageBlock (mkSHA1 h lo hi 64 (take 56 blk ++ bs) cm cr)).
  destruct (process_filled (p ++ bs) k (mkSHA1 h lo hi 64 (take 56 blk ++ bs) cm cr))
    as (Hp & (_ & _ & _ & Hcr) & _); [|done|exact (conj Hp Hcr)].
  destruct Hf as [Hfi _ Hfb _ Hfh Hfby]. cbn [Message_Block_Index Message_Block
    Intermediate_Hash] in *.
  assert (length bs = 8%nat) as Hbs by apply length_be_bytes.
  constructor; cbn [Message_Block_Index Message_Block Intermediate_Hash].
  - rewrite length_app. lia.
  - lia.
  - rewrite drop_app_le, <- Hfb by lia. apply take_ge.
    rewrite length_app, length_take. lia.
  - rewrite length_app, length_take. lia.
  - by rewrite blocks_prefix by lia.
  - apply Forall_app_2; [done|apply be_bytes_range].
Qed.

(** Up to the length, both branches of [SHA1PadMessage] write one 1-bit and zeros. *)
Lemma pad_zeros m c :
  consumed m c ->
  exists c' k,
    (if (55 <? Message_Block_Index c)%nat
     then c ← put_byte 0x80 c;
          c ← fill_zero 64 64 c;
          fill_zero 56 56 (SHA1ProcessMessageBlock c)
     else c ← put_byte 0x80 c;
          fill_zero 56 56 c) = Some c'
    /\ filled (m ++ [128] ++ replicate (Z.to_nat ((55 - Z.of_nat (length m)) mod 64)) 0) k c'
    /\ Message_Block_Index c' = 56%nat /\ same_meta c c'.
Proof.
  intros Hc. pose proof (consumed_index _ _ Hc) as Hi.
  pose proof (Nat.mod_upper_bound (length m) 64 ltac:(lia)).
  pose proof (Nat.div_mod_eq (length m) 64) as Hdm.
  destruct (put_byte_filled 128 _ _ _ (consumed_filled _ _ Hc)) as (c1 & -> & Hf1 & Hm1 & Hi1);
    [unfold is_byte; lia|lia|]. obind.
  destruct (Nat.ltb_spec 55 (Message_Block_Index c)).
  - destruct (fill_zero_filled 64 64 _ _ c1 Hf1) as (c2 & -> & Hf2 & Hm2 & Hi2);
      [lia|lia|lia|]. obind.
    destruct (process_filled _ _ _ Hf2 Hi2) as (Hf3 & Hm3 & Hi3).
    destruct (fill_zero_filled 56 56 _ _ _ Hf3) as (c4 & -> & Hf4 & Hm4 & Hi4);
      [lia|lia|lia|].
    exists c4. eexists. split; [reflexivity|]. split_and!;
      [|exact Hi4|unfold same_meta in *; intuition congruence].
    replace (Z.to_nat _) with ((64 - Message_Block_Index c1)
      + (56 - Message_Block_Index (SHA1ProcessMessageBlock c2)))%nat.
    { rewrite replicate_add, !app_assoc. exact Hf4. }
    rewrite Hi3, Hi1, Hi.
    rewrite (Z.mod_eq _ 64), <- (Z.div_unique_pos _ 64 (- Z.of_nat (length m / 64) - 1)
      (119 - Z.of_nat (length m mod 64))) by lia. lia.
  - destruct (fill_zero_filled 56 56 _ _ c1 Hf1) as (c2 & -> & Hf2 & Hm2 & Hi2);
      [lia|lia|lia|].
    exists c2. eexists. split; [reflexivity|]. split_and!;
      [|exact Hi2|unfold same_meta in *; intuition congruence].
    replace (Z.to_nat _) with (56 - Message_Block_Index c1)%nat.
    { rewrite app_assoc. exact Hf2. }
    rewrite Hi1, Hi.
    rewrite (Z.mod_eq _ 64), <- (Z.div_unique_pos _ 64 (- Z.of_nat (length m / 64))
      (55 - Z.of_nat (length m mod 64))) by lia. lia.
Qed.

Lemma pad_message m c :
  consumed m c ->
  exists c', SHA1PadMessage c = Some c'
    /\ Intermediate_Hash c' = Fips.words (Fips.blocks (Fips.pad m) (length (Fips.pad m) / 64))
    /\ Corrupted c' = 0.
Proof.
  intros Hc. unfold SHA1PadMessage.
  destruct (pad_zeros m c Hc) as (c1 & k & -> & Hf & Hi & (Hlo & Hhi & _ & Hcr)). obind.
  destruct (store_length_process _ _ _ Hf Hi) as (c2 & -> & Hf2 & Hcr2);
    [rewrite Hlo; apply Hc|].
  exists c2. split; [done|]. rewrite Hlo, Hhi, (consumed_length _ _ Hc) in Hf2.
  rewrite <- !app_assoc in Hf2. fold (Fips.pad m) in Hf2.
  rewrite (filled_hash _ _ _ Hf2), Hcr2, Hcr. split; [|apply Hc].
  do 2 f_equal. pose proof (filled_index _ _ _ Hf) as Hl.
  unfold Fips.pad. rewrite !app_assoc, (length_app _ (Fips.be_bytes _ _)), length_be_bytes.
  rewrite <- !app_assoc, Hl, Hi.
  replace (64 * k + 56 + 8)%nat with (S k * 64)%nat by lia. by rewrite Nat.div_mul by lia.
Qed.

Lemma digest_bytes_be h : digest_bytes (Fips.words h) = Fips.words h ≫= Fips.be_bytes 4.
Proof.
  destruct h as [[[[a b] c] d] e]. unfold digest_bytes.
  cbn [seq SHA1HashSize fmap list_fmap Fips.words mbind list_bind Fips.be_bytes app].
  unfold wrap. rewrite !Z.shiftr_div_pow2 by (cbn; lia). reflexivity.
Qed.

Lemma sha1_inputs_consumed chunks : forall m c,
  consumed m c -> Forall (fun x => Forall is_byte x /\ Z.of_nat (length x) < 2 ^ 32) chunks ->
  8 * Z.of_nat (length m + length (concat chunks)) < 2 ^ 64 ->
  exists c', sha1_inputs (Some c) chunks = Some (replicate (length chunks) shaSuccess, Some c') /\
    consumed (m ++ concat chunks) c'.
Proof.
  induction chunks as [|x chunks IH]; intros m c Hc Hb Hl; cbn [sha1_inputs concat length replicate].
  { rewrite app_nil_r. eauto. }
  apply Forall_cons in Hb as [[Hx H32] Hb]. cbn [concat] in Hl. rewrite length_app in Hl.
  destruct (input_consumed x m c Hc Hx H32) as (c1 & -> & Hc1); [lia|]. obind.
  destruct (IH (m ++ x) c1 Hc1 Hb) as (c2 & -> & Hc2); [rewrite length_app; lia|]. obind.
  exists c2. split; [done|]. by rewrite <- app_assoc in Hc2.
Qed.

Lemma result_consumed m c :
  consumed m c ->
  exists c', SHA1Result (Some c) true = Some (shaSuccess, Some c', Some (Fips.sha1 m))
    /\ Computed c' = 1 /\ Corrupted c' = 0
    /\ digest_bytes (Intermediate_Hash c') = Fips.sha1 m.
Proof.
  intros Hc. unfold SHA1Result. rewrite (consumed_corrupted _ _ Hc), (consumed_computed _ _ Hc).
  cbn [negb Z.eqb]. destruct (pad_message m c Hc) as (c' & -> & Hh & Hcr). obind.
  cbn [Intermediate_Hash]. rewrite Hh, digest_bytes_be. eexists. split; [reflexivity|].
  cbn [Computed Corrupted Intermediate_Hash]. rewrite Hcr, digest_bytes_be. done.
Qed.

Lemma result_again c :
  Computed c = 1 -> Corrupted c = 0 ->
  SHA1Result (Some c) true = Some (shaSuccess, Some c, Some (digest_bytes (Intermediate_Hash c))).
Proof. intros Hcm Hcr. unfold SHA1Result. by rewrite Hcm, Hcr. Qed.

Lemma result_corrupted c :
  Corrupted c <> 0 -> SHA1Result (Some c) true = Some (Corrupted c, Some c, None).
Proof. intros Hc. unfold SHA1Result. by destruct (Z.eqb_spec (Corrupted c) 0). Qed.

Lemma input_computed c msg :
  Computed c = 1 -> msg <> [] -> Z.of_nat (length msg) < 2 ^ 32 ->
  SHA1Input (Some c) (Some msg) (Z.of_nat (length msg))
  = Some (shaStateError, Some (set_length (Length_Low c) (Length_High c) shaStateError c)).
Proof.
  intros Hc Hm H32. unfold SHA1Input. rewrite Hc, u32_small by lia. cbn zeta.
  destruct (Z.eqb_spec (Z.of_nat (length msg)) 0); [|done].
  destruct msg; [done|cbn in *; lia].
Qed.

(** ** Theorems *)

(** C19. Whatever a context holds before, resetting it, feeding a message in
    chunks of any sizes below 2^32 bytes (empty ones too) and asking for the result
    stays inside the context's arrays, returns [shaSuccess] from every call and gives
    the SHA-1 digest of FIPS 180-1 of the whole message, for every message of less
    than 2^64 bits. *)
Theorem sha1_streaming c chunks :
  length (Message_Block c) = 64%nat ->
  Forall (fun x => Forall is_byte x /\ Z.of_nat (length x) < 2 ^ 32) chunks ->
  8 * Z.of_nat (length (concat chunks)) < 2 ^ 64 ->
  sha1_run c chunks
  = Some (replicate (length chunks + 2) shaSuccess, Some (Fips.sha1 (concat chunks))).
Proof.
  intros Hc Hb Hl. unfold sha1_run.
  destruct (consumed_reset c Hc) as (c0 & -> & H0).
  destruct (sha1_inputs_consumed chunks [] c0 H0 Hb Hl) as (c1 & -> & H1). obind.
  destruct (result_consumed _ _ H1) as (c2 & -> & _). obind. cbn [app].
  rewrite (Nat.add_succ_r _ 1). cbn [replicate]. by rewrite replicate_add.
Qed.

#[local] Transparent SHA1ProcessMessageBlock.

(** The test vector "abc" of the standard, in two chunks. *)
Lemma sha1_streaming_witness :
  Fips.sha1 [97; 98; 99]
  = [0xa9; 0x99; 0x3e; 0x36; 0x47; 0x06; 0x81; 0x6a; 0xba; 0x3e;
     0x25; 0x71; 0x78; 0x50; 0xc2; 0x6c; 0x9c; 0xd0; 0xd8; 0x9d].
Proof.
  pose proof (sha1_streaming (mkSHA1 [] 0 0 0 (replicate 64 0) 0 0) [[97]; []; [98; 99]]
    eq_refl ltac:(repeat constructor; done) eq_refl) as H.
  cbn [concat app] in H.
  assert (sha1_run (mkSHA1 [] 0 0 0 (replicate 64 0) 0 0) [[97]; []; [98; 99]]
    = Some ([0; 0; 0; 0; 0], Some [0xa9; 0x99; 0x3e; 0x36; 0x47; 0x06; 0x81; 0x6a; 0xba; 0x3e;
     0x25; 0x71; 0x78; 0x50; 0xc2; 0x6c; 0x9c; 0xd0; 0xd8; 0x9d])) as E
    by (vm_compute; reflexivity).
  rewrite H in E.
  revert E. generalize (Fips.sha1 [97; 98; 99]). intros d E. by injection E.
Defined.

(** After the result of a message was asked for, asking again gives the same
    digest; a further non-empty input is refused with [shaStateError], leaves the
    digest's words alone and from then on makes every result fail with that code. *)
Theorem sha1_after_result m c msg :
  consumed m c -> msg <> [] -> Z.of_nat (length msg) < 2 ^ 32 ->
  exists c1 c2,
    SHA1Result (Some c) true = Some (shaSuccess, Some c1, Some (Fips.sha1 m))
    /\ SHA1Result (Some c1) true = Some (shaSuccess, Some c1, Some (Fips.sha1 m))
    /\ SHA1Input (Some c1) (Some msg) (Z.of_nat (length msg)) = Some (shaStateError, Some c2)
    /\ Intermediate_Hash c2 = Intermediate_Hash c1
    /\ SHA1Result (Some c2) true = Some (shaStateError, Some c2, None).
Proof.
  intros Hc Hm H32. destruct (result_consumed m c Hc) as (c1 & Hr & Hcm & Hcr & Hd).
  exists c1. eexists. split; [exact Hr|]. rewrite <- Hd.
  split; [by apply result_again|]. split; [by apply input_computed|].
  split; [done|]. by apply result_corrupted.
Qed.

Lemma sha1_after_result_witness :
  exists c1 c2,
    SHA1Result (SHA1Reset (Some (mkSHA1 [] 0 0 0 (replicate 64 0) 0 0))).2 true
      = Some (shaSuccess, Some c1, Some (Fips.sha1 []))
    /\ SHA1Input (Some c1) (Some [7]) 1 = Some (shaStateError, Some c2).
Proof.
  destruct (consumed_reset (mkSHA1 [] 0 0 0 (replicate 64 0) 0 0) eq_refl) as (c & E & Hc).
  rewrite E. destruct (sha1_after_result [] c [7] Hc ltac:(done) eq_refl) as (c1 & c2 & H1 & _ & H2 & _).
  exists c1, c2. exact (conj H1 H2).
Defined.

(** The byte that brings the length to 2^64 bits is accepted with success; the
    result then fails, but with the code of a null pointer: no operation ever
    reports [shaInputTooLong]. *)
Theorem sha1_too_long c b :
  Computed c = 0 -> Corrupted c = 0 -> length (Message_Block c) = 64%nat ->
  (Message_Block_Index c < 64)%nat ->
  Length_Low c = 2 ^ 32 - 8 -> Length_High c = 2 ^ 32 - 1 ->
  exists c', SHA1Input (Some c) (Some [b]) 1 = Some (shaSuccess, Some c')
    /\ SHA1Result (Some c') true = Some (shaNull, Some c', None).
Proof.
  intros Hcm Hcr Hs Hi Hlo Hhi.
  assert (exists c', input_byte b c = Some c' /\ Corrupted c' = 1) as (c' & E & Hc').
  { unfold input_byte, put_byte. rewrite decide_True by lia. obind.
    cbn [Length_Low Length_High]. rewrite Hlo, Hhi. eexists. split; [reflexivity|].
    by destruct (_ =? _)%nat. }
  exists c'. split.
  - unfold SHA1Input. rewrite Hcm, Hcr. change (u32 1) with 1. cbn [Z.eqb negb]. change (Z.to_nat 1) with 1%nat.
    cbn [input_loop]. by rewrite Hcr, E.
  - rewrite result_corrupted; by rewrite Hc'.
Qed.

Lemma sha1_too_long_witness :
  exists c', SHA1Input (Some (mkSHA1 [] (2 ^ 32 - 8) (2 ^ 32 - 1) 63 (replicate 64 0) 0 0))
    (Some [7]) 1 = Some (shaSuccess, Some c').
Proof.
  destruct (sha1_too_long (mkSHA1 [] (2 ^ 32 - 8) (2 ^ 32 - 1) 63 (replicate 64 0) 0 0) 7
    eq_refl eq_refl eq_refl ltac:(cbn; lia) eq_refl eq_refl) as (c' & H & _).
  exists c'. exact H.
Defined.
