(* ===== verification/Checkpoint.v ===== *)
(** * Checkpoints

    [src/plugins/checkpoint/Checkpoint.{hpp,cc}].  In tracing mode the plugin
    waits for writes to a symbol and appends a line to a file: instruction
    pointer, time, the symbol's value and the SHA-1 digest of memory regions.
    In checking mode an experiment compares the same data with the next line of
    that file.

    The machine is the back-end's, class [CheckedMachine].  Files are lists of
    character codes; the formatted output and input of the C++ library are modelled
    for the formats used here, signs and base prefixes, which the plugin does
    not write, left out.  An operation is [None] where the code aborts in an
    assertion or uses memory that was never set or is not its own. *)
From S2P Require Import Prelude Events ElfReader Sha1.

Class CheckedMachine (M : Type) := {
  isMapped : Z -> M -> bool;
  getByte : Z -> M -> Z;
  get_cr0 : M -> Z;
  set_cr0 : Z -> M -> M;
  getTimerTicks : M -> Z
}.

(** What the interfaces say of them: bytes, a 64-bit time, and a register that
    keeps what is written to it. *)
Class CheckedMachineLaws (M : Type) `{!CheckedMachine M} := {
  getByte_byte a m : is_byte (getByte a m);
  ticks_range m : in_range 64 (getTimerTicks m);
  cr0_range m : in_range 32 (get_cr0 m);
  set_cr0_back v m : set_cr0 (get_cr0 m) (set_cr0 v m) = m
}.

(** ** Formatted streams *)

Definition digit_char (d : Z) : Z := if d <? 10 then 48 + d else 87 + d.

Definition char_digit (base c : Z) : option Z :=
  let d := if (48 <=? c) && (c <=? 57) then Some (c - 48)
           else if (97 <=? c) && (c <=? 102) then Some (c - 87)
           else if (65 <=? c) && (c <=? 70) then Some (c - 55) else None in
  d ← d; if d <? base then Some d else None.

Definition is_space (c : Z) : bool := (c =? 32) || ((9 <=? c) && (c <=? 13)).

(** [ostream << n] in a base; [fuel] bounds the digits. *)
Fixpoint print_digits (fuel : nat) (base n : Z) : list Z :=
  match fuel with
  | O => []
  | S fuel => (if n <? base then [] else print_digits fuel base (n / base))
              ++ [digit_char (n mod base)]
  end.
Definition print_num (base n : Z) : list Z := print_digits 64 base n.

(** [setw(2)], [fill('0')], [hex]: one byte. *)
Definition print_byte (b : Z) : list Z :=
  let s := print_num 16 b in replicate (2 - length s) 48 ++ s.

Record istream := mkStream { is_rest : list Z; eofbit : bool; failbit : bool }.
Definition good (s : istream) : bool := negb (eofbit s) && negb (failbit s).

Fixpoint skip_space (l : list Z) : list Z :=
  match l with
  | c :: l' => if is_space c then skip_space l' else l
  | [] => []
  end.

(** The sentry of a formatted extraction: skip blanks, fail at the end of the file. *)
Definition sentry (s : istream) : bool * istream :=
  if good s then
    match skip_space (is_rest s) with
    | [] => (false, mkStream [] true true)
    | l => (true, mkStream l false false)
    end
  else (false, mkStream (is_rest s) (eofbit s) true).

(** The longest prefix of digits, and its value. *)
Fixpoint scan_digits (base acc : Z) (any : bool) (l : list Z) : Z * bool * list Z :=
  match l with
  | c :: l' =>
      match char_digit base c with
      | Some d => scan_digits base (acc * base + d) true l'
      | None => (acc, any, l)
      end
  | [] => (acc, any, [])
  end.

(** [istream >> n] for a [w]-bit unsigned [n]; [None]: [n] is left alone.  A
    number that does not fit stores the greatest one and fails. *)
Definition extract_num (base w : Z) (s : istream) : option Z * istream :=
  let '(ok, s) := sentry s in
  if ok then
    let '(n, any, l) := scan_digits base 0 false (is_rest s) in
    let eof := bool_decide (l = []) in
    if negb any then (Some 0, mkStream l eof true)
    else if n <? 2 ^ w then (Some n, mkStream l eof false)
    else (Some (2 ^ w - 1), mkStream l eof true)
  else (None, s).

(** [istream >> buf] with [width(n + 1)]: at most [n] characters. *)
Fixpoint scan_word (n : nat) (l : list Z) : list Z * list Z :=
  match n, l with
  | S n, c :: l' =>
      if is_space c then ([], l) else let '(w, r) := scan_word n l' in (c :: w, r)
  | _, _ => ([], l)
  end.

Definition extract_word (n : nat) (s : istream) : option (list Z) * istream :=
  let '(ok, s) := sentry s in
  if ok then
    let '(w, l) := scan_word n (is_rest s) in
    (Some w, mkStream l (bool_decide (l = [])) (bool_decide (w = [])))
  else (None, s).

(** ** The plugin *)

(** [indirectable_address_t] and [address_range]. *)
Definition indirectable : Type := (Z * bool)%type.

Inductive check_result :=
  IDENTICAL | DIFFERENT_IP | DIFFERENT_VALUE | DIFFERENT_DIGEST | INVALID.

#[export] Instance check_result_eq_dec : EqDecision check_result.
Proof. solve_decision. Defined.

Record Checkpoint := mkCheckpoint {
  m_symbol : ElfSymbol;
  m_check_ranges : list (indirectable * indirectable);
  m_checking : bool;
  m_ostream : option (list Z);    (** what was written, if the file is open *)
  m_istream : option istream;
  m_count : Z;
  cached_stackpointer_variables : gmap Z Z
}.

Definition with_count (n : Z) (c : Checkpoint) : Checkpoint :=
  mkCheckpoint (m_symbol c) (m_check_ranges c) (m_checking c) (m_ostream c)
    (m_istream c) n (cached_stackpointer_variables c).
Definition with_ostream (o : option (list Z)) (c : Checkpoint) : Checkpoint :=
  mkCheckpoint (m_symbol c) (m_check_ranges c) (m_checking c) o
    (m_istream c) (m_count c) (cached_stackpointer_variables c).
Definition with_istream (i : option istream) (c : Checkpoint) : Checkpoint :=
  mkCheckpoint (m_symbol c) (m_check_ranges c) (m_checking c) (m_ostream c)
    i (m_count c) (cached_stackpointer_variables c).
Definition with_cache (k : gmap Z Z) (c : Checkpoint) : Checkpoint :=
  mkCheckpoint (m_symbol c) (m_check_ranges c) (m_checking c) (m_ostream c)
    (m_istream c) (m_count c) k.

(** The constructors for tracing and for checking; [opened] and [content] say
    whether the file could be opened. *)
Definition new_tracing (symbol : ElfSymbol) (ranges : list (indirectable * indirectable))
    (opened : bool) : Checkpoint :=
  mkCheckpoint symbol ranges false (if opened then Some [] else None) None 0 ∅.
Definition new_checking (ranges : list (indirectable * indirectable))
    (content : option (list Z)) : Checkpoint :=
  mkCheckpoint g_SymbolNotFound ranges true None
    ((fun l => mkStream l false false) <$> content) 0 ∅.

Definition getCount (c : Checkpoint) : Z := m_count c.
Definition cache_stackpointer_variable (addr value : Z) (c : Checkpoint) : Checkpoint :=
  with_cache (<[addr := value]> (cached_stackpointer_variables c)) c.
Definition uncache_stackpointer_variable (addr : Z) (c : Checkpoint) : Checkpoint :=
  with_cache (delete addr (cached_stackpointer_variables c)) c.

Section plugin.
Context `{SalConfig} `{CheckedMachine M}.

Definition all_mapped (addr : Z) (m : M) : bool :=
  isMapped addr m && isMapped (wrap addr_bits (addr + 1)) m
  && isMapped (wrap addr_bits (addr + 2)) m && isMapped (wrap addr_bits (addr + 3)) m.

(** [getBytes] of four bytes into a little-endian number. *)
Definition getBytes4 (addr : Z) (m : M) : Z :=
  getByte addr m + getByte (wrap addr_bits (addr + 1)) m * 2 ^ 8
  + getByte (wrap addr_bits (addr + 2)) m * 2 ^ 16
  + getByte (wrap addr_bits (addr + 3)) m * 2 ^ 24.

(** [value & ~(1<<31)]: the mask is the [int] 0x7fffffff. *)
Definition resolve_address (c : Checkpoint) (addr : indirectable) (m : M) : Z :=
  let '(paddr, indirect) := addr in
  if indirect : bool then
    let value :=
      match cached_stackpointer_variables c !! paddr with
      | Some v => v
      | None => if all_mapped paddr m then getBytes4 paddr m else 0
      end in
    Z.land value (2 ^ 31 - 1)
  else paddr.

Definition in_range (c : Checkpoint) (addr : Z) (m : M) : bool :=
  existsb (fun r =>
    let start := resolve_address c r.1 m in
    let end_ := resolve_address c r.2 m in
    if (start =? 0) || (end_ =? 0) then false
    else (start <=? addr) && (addr <? end_)) (m_check_ranges c).

(** The four bytes of [addr] in the host's (little-endian) order. *)
Definition addr_bytes (addr : Z) : list Z :=
  [wrap 8 addr; wrap 8 (Z.shiftr addr 8); wrap 8 (Z.shiftr addr 16);
   wrap 8 (Z.shiftr addr 24)].

(** One [SHA1Input] of the loop over the addresses, with the assertion after it. *)
Definition checksum_step (m : M) (sha : option SHA1Context) (addr : Z)
    : option (option SHA1Context) :=
  '(err, sha) ← (if isMapped addr m
                 then SHA1Input sha (Some [getByte addr m]) 1
                 else SHA1Input sha (Some (addr_bytes addr)) 4);
  if err =? 0 then Some sha else None.

Definition checksum_range (c : Checkpoint) (m : M) (sha : option SHA1Context)
    (r : indirectable * indirectable) : option (option SHA1Context) :=
  let start := resolve_address c r.1 m in
  let end_ := resolve_address c r.2 m in
  if (start =? 0) || (end_ =? 0) then Some sha
  else fold_left (fun sha addr => sha ← sha; checksum_step m sha addr)
         (seqZ start (end_ - start)) (Some sha).

(** [checksum]: paging is off while memory is read; [sha] is the uninitialised
    context on the stack. *)
Definition checksum (c : Checkpoint) (sha : SHA1Context) (m : M)
    : option (list Z * M) :=
  let '(err, sha) := SHA1Reset (Some sha) in
  if negb (err =? 0) then None else
  let cr0 := u32 (get_cr0 m) in
  let m := set_cr0 (Z.land cr0 (2 ^ 31 - 1)) m in
  sha ← fold_left (fun sha r => sha ← sha; checksum_range c m sha r)
          (m_check_ranges c) (Some sha);
  let m := set_cr0 cr0 m in
  '(err, _, digest) ← SHA1Result sha true;
  if negb (err =? 0) then None else
  digest ← digest; Some (digest, m).

(** The written value: [getBytes] copies [getSize()] bytes over a variable of four,
    so that other sizes leave bytes unset ([Some None]) or run over ([None]). *)
Definition read_value (symbol : ElfSymbol) (m : M) : option (option Z) :=
  if all_mapped (sym_address symbol) m then
    if sym_size symbol =? 4 then Some (Some (getBytes4 (sym_address symbol) m))
    else if sym_size symbol <? 4 then Some None else None
  else Some (Some 0xDEADBEEF).

Record sample := mkSample { smp_value : option Z; smp_simtime : Z; smp_digest : list Z }.

Definition checkpoint (symbol : ElfSymbol) (sha : SHA1Context) (c : Checkpoint) (m : M)
    : option (sample * Checkpoint * M) :=
  let c := with_count (u32 (m_count c + 1)) c in
  let simtime := getTimerTicks m in
  value ← read_value symbol m;
  '(digest, m) ← checksum c sha m;
  Some (mkSample value simtime (digest ≫= print_byte), c, m).

(** A line of the file. *)
Definition print_line (ip simtime value : Z) (digest : list Z) : list Z :=
  print_num 16 ip ++ [9] ++ print_num 10 simtime ++ [9] ++ print_num 10 value ++ [9]
  ++ digest ++ [10].

Definition save_checkpoint (ip : Z) (sha : SHA1Context) (c : Checkpoint) (m : M)
    : option (Checkpoint * M) :=
  '(s, c, m) ← checkpoint (m_symbol c) sha c m;
  match m_ostream c with
  | Some out =>
      value ← smp_value s;
      Some (with_ostream
              (Some (out ++ print_line ip (smp_simtime s) value (smp_digest s))) c, m)
  | None => Some (c, m)
  end.

(** [run]: refused in checking mode and without a file; otherwise one line per
    write access, each seen with its instruction pointer and machine state. *)
Definition run (writes : list (Z * M)) (sha : SHA1Context) (c : Checkpoint)
    : option Checkpoint :=
  if m_checking c then None else
  match m_ostream c with
  | None => Some c
  | Some _ =>
      fold_left (fun c w => c ← c; '(c, _) ← save_checkpoint w.1 sha c w.2; Some c)
        writes (Some c)
  end.

(** The comparison of a sample with the golden values. *)
Definition compare_golden (ip golden_ip value golden_value : Z)
    (digest golden_digest : list Z) : check_result :=
  if negb (value =? golden_value) then DIFFERENT_VALUE
  else if negb (ip =? golden_ip) then DIFFERENT_IP
  else if negb (bool_decide (digest = golden_digest)) then DIFFERENT_DIGEST
  else IDENTICAL.

Definition check (symbol : ElfSymbol) (ip : Z) (sha : SHA1Context) (c : Checkpoint) (m : M)
    : option (option check_result * Checkpoint * M) :=
  if negb (m_checking c) then None else
  '(s, c, m) ← checkpoint symbol sha c m;
  match m_istream c with
  | None => Some (Some INVALID, c, m)
  | Some i =>
      if eofbit i then Some (Some INVALID, c, m) else
      let '(golden_ip, i) := extract_num 16 addr_bits i in
      let '(_, i) := extract_num 10 32 i in
      let '(golden_value, i) := extract_num 10 32 i in
      let '(golden_digest, i) := extract_word 40 i in
      let result :=
        golden_ip ← golden_ip;
        golden_value ← golden_value;
        golden_digest ← golden_digest;
        value ← smp_value s;
        Some (compare_golden ip golden_ip value golden_value
                (smp_digest s) golden_digest) in
      Some (result, with_istream (Some i) c, m)
  end.

End plugin.
