(* ===== verification/CheckpointTheorems.v ===== *)
(** * Theorems on checkpoints

    What a line of the checkpoint file holds, that it is read back, what the
    digest covers, and the verdicts of a check, on the model of [Checkpoint]. *)
From S2P Require Import Prelude Events ElfReader Sha1 Checkpoint.

(** ** Numbers written and read *)

Lemma char_digit_char base d :
  base <= 16 -> 0 <= d < base -> char_digit base (digit_char d) = Some d.
Proof.
  intros Hb Hd. unfold char_digit, digit_char.
  destruct (Z.ltb_spec d 10);
    repeat match goal with |- context [(?a <=? ?b)] => destruct (Z.leb_spec a b); try lia end;
    cbn [andb mbind option_bind]; (rewrite (proj2 (Z.ltb_lt _ _)); [f_equal|]; lia).
Qed.

Lemma digit_not_space base c d : char_digit base c = Some d -> is_space c = false.
Proof.
  unfold char_digit, is_space. intros H. apply orb_false_intro.
  all: destruct (Z.eqb_spec c 32) as [->|]; [done|]; try done.
  destruct (Z.leb_spec 9 c), (Z.leb_spec c 13); try done.
  repeat match type of H with context [(?a <=? ?b)] =>
    destruct (Z.leb_spec a b); try lia end; done.
Qed.

(** A text of digits, followed by one that does not start with a digit. *)
Definition ends_number (base : Z) (l : list Z) : Prop :=
  match l with c :: _ => char_digit base c = None | [] => False end.

Lemma print_digits_digits fuel base n :
  0 < base <= 16 -> 0 <= n ->
  Forall (fun c => is_Some (char_digit base c)) (print_digits fuel base n).
Proof.
  intros Hb. revert n. induction fuel as [|fuel IH]; intros n Hn; cbn [print_digits]; [done|].
  apply Forall_app_2.
  - destruct (n <? base); [done|]. apply IH, Z.div_pos; lia.
  - apply Forall_singleton. rewrite char_digit_char; [done|lia|].
    apply Z.mod_pos_bound. lia.
Qed.

Lemma scan_print_digits fuel base n acc any l :
  1 < base <= 16 -> 0 <= n < base ^ Z.of_nat fuel -> (0 < fuel)%nat ->
  scan_digits base acc any (print_digits fuel base n ++ l)
  = scan_digits base (acc * base ^ Z.of_nat (length (print_digits fuel base n)) + n) true l.
Proof.
  intros Hb. revert n acc any l.
  induction fuel as [|fuel IH]; intros n acc any l Hn Hf; [lia|]. cbn [print_digits].
  assert (0 <= n mod base < base) by (apply Z.mod_pos_bound; lia).
  pose proof (Z.div_mod n base ltac:(lia)).
  destruct (Z.ltb_spec n base).
  - cbn [app length scan_digits]. rewrite char_digit_char by lia.
    rewrite (Z.mod_small n), Z.pow_1_r by lia. done.
  - destruct fuel as [|fuel]; [cbn in Hn; lia|].
    rewrite <- app_assoc, IH; [|split; [apply Z.div_pos; lia|]|lia].
    + cbn [app scan_digits]. rewrite char_digit_char by lia. f_equal.
      rewrite length_app, Nat2Z.inj_add. cbn [length]. change (Z.of_nat 1) with 1.
      rewrite Z.pow_add_r, Z.pow_1_r by lia. lia.
    + apply Z.div_lt_upper_bound; [lia|]. rewrite <- Z.pow_succ_r, <- Nat2Z.inj_succ by lia.
      lia.
Qed.

Lemma print_num_nonempty base n : print_num base n <> [].
Proof. unfold print_num. cbn [print_digits]. by destruct (if _ <? _ then _ else _). Qed.

Lemma skip_space_app sp l :
  Forall (fun c => is_space c = true) sp -> skip_space (sp ++ l) = skip_space l.
Proof. induction 1 as [|c sp Hc _ IH]; cbn [app skip_space]; [done|]. by rewrite Hc. Qed.

(** Reading past blanks to a text that starts with something else. *)
Lemma sentry_word sp c l :
  Forall (fun c => is_space c = true) sp -> is_space c = false ->
  sentry (mkStream (sp ++ c :: l) false false) = (true, mkStream (c :: l) false false).
Proof.
  intros Hsp Hc. unfold sentry. cbn [good eofbit failbit negb andb is_rest].
  rewrite skip_space_app by done. cbn [skip_space]. by rewrite Hc.
Qed.

Lemma extract_print_num base w n sp l :
  1 < base <= 16 -> 0 <= n < 2 ^ 64 -> 0 <= w ->
  Forall (fun c => is_space c = true) sp -> ends_number base l ->
  extract_num base w (mkStream (sp ++ print_num base n ++ l) false false)
  = if n <? 2 ^ w then (Some n, mkStream l false false)
    else (Some (2 ^ w - 1), mkStream l false true).
Proof.
  intros Hb Hn Hw Hsp Hl.
  assert (Forall (fun c => is_Some (char_digit base c)) (print_num base n)) as Hd
    by (apply print_digits_digits; lia).
  assert (0 <= n < base ^ 64) as Hn'.
  { pose proof (Z.pow_le_mono_l 2 base 64). lia. }
  pose proof (scan_print_digits 64 base n 0 false l Hb Hn' ltac:(lia)) as Hs.
  fold (print_num base n) in Hs.
  pose proof (print_num_nonempty base n) as Hne.
  unfold extract_num. destruct (print_num base n) as [|c0 cs]; [done|].
  apply Forall_cons in Hd as [[d Hd] _].
  cbn [app]. rewrite sentry_word by (done || by eapply digit_not_space).
  cbn [is_rest]. cbn [app] in Hs. rewrite Hs, Z.mul_0_l, Z.add_0_l.
  destruct l as [|c l]; [done|]. cbn [scan_digits]. rewrite Hl.
  cbn [negb]. rewrite bool_decide_eq_false_2 by done. by destruct (n <? 2 ^ w).
Qed.

Lemma scan_word_app n w l :
  Forall (fun c => is_space c = false) w -> (length w <= n)%nat ->
  match l with c :: _ => is_space c = true | [] => True end ->
  scan_word n (w ++ l) = (w, l).
Proof.
  intros Hw Hn Hl. revert n Hn. induction Hw as [|c w Hc _ IH]; intros n Hn.
  - cbn [app]. destruct n, l; cbn [scan_word]; try done. by rewrite Hl.
  - destruct n; cbn in Hn; [lia|]. cbn [app scan_word]. rewrite Hc, IH by lia. done.
Qed.

Lemma extract_word_app n w sp l :
  Forall (fun c => is_space c = true) sp -> Forall (fun c => is_space c = false) w ->
  w <> [] -> (length w <= n)%nat ->
  extract_word n (mkStream (sp ++ w ++ 10 :: l) false false)
  = (Some w, mkStream (10 :: l) false false).
Proof.
  intros Hsp Hw Hne Hn. unfold extract_word.
  assert (is_space (default 0 (head w)) = false) as Hh by (by destruct Hw).
  pose proof (scan_word_app n w (10 :: l) Hw Hn eq_refl) as Hs.
  destruct w as [|c w]; [done|]. cbn [app head default from_option id] in *.
  rewrite sentry_word by done. cbn [is_rest]. rewrite Hs.
  by rewrite !bool_decide_eq_false_2 by done.
Qed.

(** *** Bytes in hexadecimal *)

Lemma print_byte_eq b :
  is_byte b -> print_byte b = [digit_char (b / 16); digit_char (b mod 16)].
Proof.
  intros Hb. unfold is_byte in Hb. unfold print_byte, print_num. cbn [print_digits].
  destruct (Z.ltb_spec b 16).
  - rewrite (Z.div_small b) by lia. done.
  - assert (0 <= b / 16 < 16) by (split; [apply Z.div_pos|apply Z.div_lt_upper_bound]; lia).
    destruct (Z.ltb_spec (b / 16) 16); [|lia]. rewrite (Z.mod_small (b / 16)) by lia. done.
Qed.

Lemma digit_char_inj d d' : 0 <= d < 16 -> 0 <= d' < 16 -> digit_char d = digit_char d' -> d = d'.
Proof. intros ??. unfold digit_char. bool_cases. Qed.

Lemma hex_inj ds ds' :
  Forall is_byte ds -> Forall is_byte ds' -> ds ≫= print_byte = ds' ≫= print_byte -> ds = ds'.
Proof.
  intros Hd. revert ds'. induction Hd as [|b ds Hb _ IH]; intros ds' Hd' He.
  - destruct Hd' as [|b' ds' Hb' _]; [done|]. cbn [mbind list_bind] in He.
    rewrite print_byte_eq in He by done. done.
  - destruct Hd' as [|b' ds' Hb' Hd']; cbn [mbind list_bind] in He;
      rewrite !print_byte_eq in He by done; [done|]. cbn [app] in He.
    injection He as H1 H2 H3.
    assert (forall x, is_byte x -> 0 <= x / 16 < 16 /\ 0 <= x mod 16 < 16) as Hr.
    { intros x Hx. unfold is_byte in Hx.
      split; [split; [apply Z.div_pos|apply Z.div_lt_upper_bound]|apply Z.mod_pos_bound]; lia. }
    apply digit_char_inj in H1; [|by apply Hr..]. apply digit_char_inj in H2; [|by apply Hr..].
    f_equal; [|by apply IH]. rewrite (Z.div_mod b 16), (Z.div_mod b' 16); lia.
Qed.

Lemma hex_word ds :
  Forall is_byte ds -> Forall (fun c => is_space c = false) (ds ≫= print_byte)
    /\ length (ds ≫= print_byte) = (2 * length ds)%nat.
Proof.
  induction 1 as [|b ds Hb _ [IH1 IH2]]; [done|].
  rewrite bind_cons, print_byte_eq by done. unfold is_byte in Hb.
  assert (forall d, 0 <= d < 16 -> is_space (digit_char d) = false) as Hns.
  { intros d Hd. apply (digit_not_space 16 _ d). apply char_digit_char; lia. }
  split.
  - cbn [app]. constructor; [|constructor; [|done]]; apply Hns;
      [split; [apply Z.div_pos|apply Z.div_lt_upper_bound]|apply Z.mod_pos_bound]; lia.
  - rewrite length_app, IH2. cbn [length]. lia.
Qed.

(** ** What is hashed *)

Section theorems.
Context `{SalConfig} `{CheckedMachineLaws M}.

Definition paging_off (m : M) : M := set_cr0 (Z.land (get_cr0 m) (2 ^ 31 - 1)) m.

(** The bytes hashed for an address and for a range. *)
Definition addr_message (m : M) (a : Z) : list Z :=
  if isMapped a m then [getByte a m] else addr_bytes a.

Definition range_addrs (c : Checkpoint) (m : M) (r : indirectable * indirectable) : list Z :=
  let start := resolve_address c r.1 m in
  let end_ := resolve_address c r.2 m in
  if (start =? 0) || (end_ =? 0) then [] else seqZ start (end_ - start).

Definition region_addrs (c : Checkpoint) (m : M) : list Z :=
  m_check_ranges c ≫= range_addrs c m.

Definition region_message (c : Checkpoint) (m : M) : list Z :=
  region_addrs c m ≫= addr_message m.

Lemma bind_nil {A B} (f : A -> list B) : [] ≫= f = [].
Proof. done. Qed.

(** A fold of steps that feed a message each feeds the concatenation. *)
Lemma fold_consumed {A} (step : option SHA1Context -> A -> option (option SHA1Context))
    (msg : A -> list Z) :
  (forall x s a, consumed x s -> 8 * Z.of_nat (length x + length (msg a)) < 2 ^ 64 ->
     exists s', step (Some s) a = Some (Some s') /\ consumed (x ++ msg a) s') ->
  forall l x s, consumed x s -> 8 * Z.of_nat (length x + length (l ≫= msg)) < 2 ^ 64 ->
  exists s', fold_left (fun sha a => sha ← sha; step sha a) l (Some (Some s)) = Some (Some s')
    /\ consumed (x ++ (l ≫= msg)) s'.
Proof.
  intros Hstep l. induction l as [|a l IH]; intros x s Hs Hl; cbn [fold_left].
  { rewrite bind_nil, app_nil_r. eauto. }
  rewrite bind_cons, length_app in Hl.
  destruct (Hstep x s a Hs) as (s1 & E & Hs1); [lia|]. obind. rewrite E.
  destruct (IH _ _ Hs1) as (s2 & E2 & Hs2); [rewrite length_app; lia|].
  exists s2. split; [exact E2|]. by rewrite bind_cons, app_assoc.
Qed.

Lemma addr_message_bytes m a : Forall is_byte (addr_message m a).
Proof.
  unfold addr_message, addr_bytes. destruct (isMapped a m); [by constructor; [apply getByte_byte|]|].
  repeat constructor; apply wrap_range; lia.
Qed.

Lemma checksum_step_consumed m x s a :
  consumed x s -> 8 * Z.of_nat (length x + length (addr_message m a)) < 2 ^ 64 ->
  exists s', checksum_step m (Some s) a = Some (Some s') /\ consumed (x ++ addr_message m a) s'.
Proof.
  intros Hs Hl. pose proof (addr_message_bytes m a) as Hb.
  assert (Z.of_nat (length (addr_message m a)) < 2 ^ 32) as H32
    by (unfold addr_message; destruct (isMapped a m); simpl; lia).
  destruct (input_consumed _ _ _ Hs Hb H32 Hl) as (s' & E & Hs'). exists s'. split; [|done].
  unfold checksum_step, addr_message in *.
  destruct (isMapped a m); [change 1 with (Z.of_nat (length [getByte a m]))
                           |change 4 with (Z.of_nat (length (addr_bytes a)))]; by rewrite E.
Qed.

Lemma checksum_range_consumed c m x s r :
  consumed x s ->
  8 * Z.of_nat (length x + length (range_addrs c m r ≫= addr_message m)) < 2 ^ 64 ->
  exists s', checksum_range c m (Some s) r = Some (Some s')
    /\ consumed (x ++ (range_addrs c m r ≫= addr_message m)) s'.
Proof.
  intros Hs Hl. unfold checksum_range, range_addrs in *.
  destruct (_ || _); [rewrite bind_nil, app_nil_r; eauto|].
  apply (fold_consumed (checksum_step m) (addr_message m)); [|done..].
  apply checksum_step_consumed.
Qed.

Lemma region_message_ranges c m :
  region_message c m = m_check_ranges c ≫= (fun r => range_addrs c m r ≫= addr_message m).
Proof.
  unfold region_message, region_addrs.
  induction (m_check_ranges c) as [|r l IH]; [done|]. by rewrite !bind_cons, bind_app, IH.
Qed.

(** [checksum] gives the digest of the regions' bytes and leaves the machine as it was. *)
Lemma checksum_correct c sha m :
  length (Message_Block sha) = 64%nat ->
  8 * Z.of_nat (length (region_message c (paging_off m))) < 2 ^ 64 ->
  checksum c sha m = Some (Fips.sha1 (region_message c (paging_off m)), m).
Proof.
  intros Hsha Hl. unfold checksum.
  destruct (consumed_reset sha Hsha) as (s0 & -> & Hs0). cbn [Z.eqb negb].
  rewrite u32_small by apply cr0_range. fold (paging_off m).
  rewrite region_message_ranges in *.
  destruct (fold_consumed (checksum_range c (paging_off m)) _
    (checksum_range_consumed c (paging_off m)) (m_check_ranges c) [] s0 Hs0 Hl)
    as (s1 & -> & Hs1). obind. cbn [app] in Hs1.
  destruct (result_consumed _ _ Hs1) as (s2 & -> & _).
  cbn [mbind option_bind]. unfold paging_off. by rewrite set_cr0_back.
Qed.

(** [in_range] holds for exactly the addresses that are hashed. *)
Lemma in_range_region c a m : in_range c a m = true <-> a ∈ region_addrs c m.
Proof.
  unfold in_range, region_addrs. rewrite list_elem_of_bind. rewrite existsb_exists.
  split.
  - intros (r & Hr & Ha). exists r. split; [|by apply list_elem_of_In].
    unfold range_addrs. destruct (_ || _); [done|]. bool_hyps.
    apply elem_of_seqZ. lia.
  - intros (r & Ha & Hr). exists r. split; [by apply list_elem_of_In|].
    unfold range_addrs in Ha. destruct (_ || _); [by apply not_elem_of_nil in Ha|].
    apply elem_of_seqZ in Ha. apply andb_true_intro. rewrite Z.leb_le, Z.ltb_lt. lia.
Qed.

(** Messages over the same addresses, mapped alike, are equal when the bytes are. *)
Lemma message_agree l (m m' : M) :
  (forall a, a ∈ l -> isMapped a m = isMapped a m') ->
  l ≫= addr_message m = l ≫= addr_message m'
  <-> (forall a, a ∈ l -> isMapped a m = true -> getByte a m = getByte a m').
Proof.
  induction l as [|a l IH]; intros Hmap.
  { split; [|done]. intros _ a Ha. by apply not_elem_of_nil in Ha. }
  rewrite !bind_cons.
  specialize (IH (fun b Hb => Hmap b (list_elem_of_further _ _ _ Hb))).
  pose proof (Hmap a (list_elem_of_here _ _)) as Ha.
  assert (length (addr_message m a) = length (addr_message m' a)) as Hlen
    by (unfold addr_message; rewrite <- Ha; by destruct (isMapped a m)).
  split.
  - intros Heq. apply app_inj_1 in Heq as [H1 H2]; [|done]. intros b Hb Hmb.
    apply elem_of_cons in Hb as [-> |Hb]; [|by apply IH].
    unfold addr_message in H1. rewrite <- Ha, Hmb in H1. by injection H1.
  - intros Hall. f_equal; [|apply IH; intros; apply Hall; [by right|done]].
    unfold addr_message. rewrite <- Ha. destruct (isMapped a m) eqn:Hm; [|done].
    rewrite (Hall a); [done|by left|done].
Qed.

(** ** A line written and a line compared *)

Definition value_of (symbol : ElfSymbol) (m : M) : Z :=
  if all_mapped (sym_address symbol) m then getBytes4 (sym_address symbol) m else 0xDEADBEEF.

Definition hex_digest (c : Checkpoint) (m : M) : list Z :=
  Fips.sha1 (region_message c (paging_off m)) ≫= print_byte.

(** The conditions on one visited state. *)
Definition observable (c : Checkpoint) (ip : Z) (m : M) : Prop :=
  Prelude.in_range addr_bits ip
  /\ 8 * Z.of_nat (length (region_message c (paging_off m))) < 2 ^ 64.

Lemma checkpoint_correct symbol sha c m :
  length (Message_Block sha) = 64%nat -> sym_size symbol = 4 ->
  8 * Z.of_nat (length (region_message c (paging_off m))) < 2 ^ 64 ->
  checkpoint symbol sha c m
  = Some (mkSample (Some (value_of symbol m)) (getTimerTicks m) (hex_digest c m),
          with_count (u32 (m_count c + 1)) c, m).
Proof.
  intros Hsha Hsz Hl. unfold checkpoint, read_value. rewrite Hsz. cbn [Z.eqb Pos.eqb].
  rewrite checksum_correct by done.
  unfold value_of. by destruct (all_mapped (sym_address symbol) m).
Qed.

Lemma value_of_range symbol m : 0 <= value_of symbol m < 2 ^ 32.
Proof.
  unfold value_of, getBytes4. destruct (all_mapped _ m); [|lia].
  pose proof (getByte_byte (sym_address symbol) m).
  pose proof (getByte_byte (wrap addr_bits (sym_address symbol + 1)) m).
  pose proof (getByte_byte (wrap addr_bits (sym_address symbol + 2)) m).
  pose proof (getByte_byte (wrap addr_bits (sym_address symbol + 3)) m).
  unfold is_byte in *. lia.
Qed.

Lemma sha1_bytes x : Forall is_byte (Fips.sha1 x) /\ length (Fips.sha1 x) = 20%nat.
Proof.
  unfold Fips.sha1. destruct (Fips.blocks _ _) as [[[[a b] d] e] f]. cbn [Fips.words].
  rewrite !bind_cons, bind_nil. split.
  - repeat (apply Forall_app_2; [apply be_bytes_range|]). done.
  - by rewrite !length_app, !length_be_bytes.
Qed.

Lemma hex_digest_word c m :
  Forall (fun x => is_space x = false) (hex_digest c m)
  /\ length (hex_digest c m) = 40%nat.
Proof.
  unfold hex_digest. destruct (sha1_bytes (region_message c (paging_off m))) as [Hb Hl].
  destruct (hex_word _ Hb) as [H1 H2]. by rewrite Hl in H2.
Qed.

(** The four extractions on a line, after blanks. *)
Lemma extract_line ip time value digest sp rest :
  Prelude.in_range addr_bits ip -> 0 <= time < 2 ^ 32 -> 0 <= value < 2 ^ 32 ->
  Forall (fun x => is_space x = false) digest -> length digest = 40%nat ->
  Forall (fun x => is_space x = true) sp ->
  let '(golden_ip, i) :=
    extract_num 16 addr_bits (mkStream (sp ++ print_line ip time value digest ++ rest) false false) in
  let '(golden_time, i) := extract_num 10 32 i in
  let '(golden_value, i) := extract_num 10 32 i in
  let '(golden_digest, i) := extract_word 40 i in
  (golden_ip, golden_time, golden_value, golden_digest, i)
  = (Some ip, Some time, Some value, Some digest, mkStream (10 :: rest) false false).
Proof.
  intros Hip Ht Hv Hd Hdl Hsp. pose proof addr_bits_range. unfold Prelude.in_range in Hip.
  assert (2 ^ addr_bits <= 2 ^ 64) by (apply Z.pow_le_mono_r; lia).
  unfold print_line. rewrite <- !app_assoc.
  rewrite extract_print_num by (done || lia). rewrite (proj2 (Z.ltb_lt _ _)) by lia.
  rewrite extract_print_num by (done || lia || by constructor).
  rewrite (proj2 (Z.ltb_lt _ _)) by lia.
  rewrite extract_print_num by (done || lia || by constructor).
  rewrite (proj2 (Z.ltb_lt _ _)) by lia.
  change ([10] ++ rest) with (10 :: rest).
  rewrite extract_word_app; [done|by constructor|done|by destruct digest|lia].
Qed.

(** The lines written for a list of visited states. *)
Definition line_of (symbol : ElfSymbol) (c : Checkpoint) (w : Z * M) : list Z :=
  print_line w.1 (getTimerTicks w.2) (value_of symbol w.2) (hex_digest c w.2).

(** Results of successive checks. *)
Fixpoint checks (symbol : ElfSymbol) (sha : SHA1Context) (obs : list (Z * M)) (c : Checkpoint)
    : option (list (option check_result)) :=
  match obs with
  | [] => Some []
  | (ip, m) :: obs =>
      '(r, c, _) ← check symbol ip sha c m;
      rs ← checks symbol sha obs c;
      Some (r :: rs)
  end.

(** The verdict on a state [o] against the golden state [g] at its position. *)
Definition verdict (symbol : ElfSymbol) (c : Checkpoint) (g o : Z * M) : check_result :=
  compare_golden o.1 g.1 (value_of symbol o.2) (value_of symbol g.2)
    (hex_digest c o.2) (hex_digest c g.2).

Lemma verdict_refl symbol c g : verdict symbol c g g = IDENTICAL.
Proof.
  unfold verdict, compare_golden. rewrite !Z.eqb_refl. cbn [negb].
  by rewrite bool_decide_eq_true_2.
Qed.

Lemma save_checkpoint_line ip sha c m out :
  length (Message_Block sha) = 64%nat -> sym_size (m_symbol c) = 4 ->
  m_ostream c = Some out -> observable c ip m ->
  save_checkpoint ip sha c m
  = Some (with_ostream (Some (out ++ line_of (m_symbol c) c (ip, m)))
            (with_count (u32 (m_count c + 1)) c), m).
Proof.
  intros Hsha Hsz Ho [_ Hl]. unfold save_checkpoint. rewrite checkpoint_correct by done.
  obind. cbn [m_ostream with_count smp_value mbind option_bind]. by rewrite Ho.
Qed.

Lemma run_lines sha c writes out :
  length (Message_Block sha) = 64%nat -> sym_size (m_symbol c) = 4 ->
  m_checking c = false -> m_ostream c = Some out ->
  Forall (fun w => observable c w.1 w.2) writes ->
  exists c', run writes sha c = Some c'
    /\ m_ostream c' = Some (out ++ (writes ≫= line_of (m_symbol c) c)).
Proof.
  intros Hsha Hsz Hch Ho Hw. unfold run. rewrite Hch, Ho. clear Hch.
  revert c out Hsz Ho Hw. induction writes as [|[ip m] writes IH]; intros c out Hsz Ho Hw.
  { exists c. cbn [fold_left]. by rewrite bind_nil, app_nil_r. }
  apply Forall_cons in Hw as [Hw Hws]. cbn [fold_left fst snd]. obind.
  rewrite (save_checkpoint_line ip sha c m out) by done.
  cbn [mbind option_bind].
  destruct (IH (with_ostream (Some (out ++ line_of (m_symbol c) c (ip, m)))
    (with_count (u32 (m_count c + 1)) c)) _ Hsz eq_refl Hws) as (c' & E & Ho').
  exists c'. split; [exact E|]. rewrite Ho', bind_cons, app_assoc. done.
Qed.

(** One check against the next line. *)
Lemma check_line symbol sha c g o sp rest :
  length (Message_Block sha) = 64%nat -> sym_size symbol = 4 -> m_checking c = true ->
  observable c g.1 g.2 -> observable c o.1 o.2 -> getTimerTicks g.2 < 2 ^ 32 ->
  Forall (fun x => is_space x = true) sp ->
  m_istream c = Some (mkStream (sp ++ line_of symbol c g ++ rest) false false) ->
  check symbol o.1 sha c o.2
  = Some (Some (verdict symbol c g o),
          with_istream (Some (mkStream (10 :: rest) false false))
            (with_count (u32 (m_count c + 1)) c), o.2).
Proof.
  intros Hsha Hsz Hch [Hg _] [_ Ho] Ht Hsp Hi. unfold check. rewrite Hch. cbn [negb].
  rewrite checkpoint_correct by done. obind. cbn [m_istream with_count]. rewrite Hi.
  cbn [eofbit]. destruct (hex_digest_word c g.2) as [Hd Hdl].
  assert (0 <= getTimerTicks g.2 < 2 ^ 32) as Htr by (split; [apply ticks_range|exact Ht]).
  pose proof (extract_line g.1 (getTimerTicks g.2) (value_of symbol g.2) (hex_digest c g.2)
    sp rest Hg Htr (value_of_range symbol g.2) Hd Hdl Hsp) as HE.
  unfold line_of. destruct (extract_num 16 addr_bits _) as [gip i1].
  destruct (extract_num 10 32 i1) as [gt i2]. destruct (extract_num 10 32 i2) as [gv i3].
  destruct (extract_word 40 i3) as [gd i4]. injection HE as -> _ -> -> ->. done.
Qed.

(** A check with a stream at its end, a failed stream, and at the end of the lines. *)
Lemma check_ended symbol sha c ip m i :
  length (Message_Block sha) = 64%nat -> sym_size symbol = 4 -> m_checking c = true ->
  observable c ip m -> m_istream c = Some i -> eofbit i = true ->
  check symbol ip sha c m = Some (Some INVALID, with_count (u32 (m_count c + 1)) c, m).
Proof.
  intros Hsha Hsz Hch [_ Hl] Hi He. unfold check. rewrite Hch. cbn [negb].
  rewrite checkpoint_correct by done. obind. cbn [m_istream with_count]. by rewrite Hi, He.
Qed.

Lemma check_failed symbol sha c ip m l :
  length (Message_Block sha) = 64%nat -> sym_size symbol = 4 -> m_checking c = true ->
  observable c ip m -> m_istream c = Some (mkStream l false true) ->
  check symbol ip sha c m
  = Some (None, with_istream (Some (mkStream l false true)) (with_count (u32 (m_count c + 1)) c), m).
Proof.
  intros Hsha Hsz Hch [_ Hl] Hi. unfold check. rewrite Hch. cbn [negb].
  rewrite checkpoint_correct by done. obind. cbn [m_istream with_count]. by rewrite Hi.
Qed.

Lemma skip_space_all l : Forall (fun x => is_space x = true) l -> skip_space l = [].
Proof. induction 1 as [|x l Hx _ IH]; [done|]. cbn [skip_space]. by rewrite Hx. Qed.

Lemma check_blank symbol sha c ip m sp :
  length (Message_Block sha) = 64%nat -> sym_size symbol = 4 -> m_checking c = true ->
  Forall (fun x => is_space x = true) sp ->
  observable c ip m -> m_istream c = Some (mkStream sp false false) ->
  check symbol ip sha c m
  = Some (None, with_istream (Some (mkStream [] true true)) (with_count (u32 (m_count c + 1)) c), m).
Proof.
  intros Hsha Hsz Hch Hsp [_ Hl] Hi. unfold check. rewrite Hch. cbn [negb].
  rewrite checkpoint_correct by done. obind. cbn [m_istream with_count]. rewrite Hi. cbn [eofbit].
  unfold extract_num at 1, sentry at 1. cbn [good eofbit failbit is_rest negb orb].
  by rewrite (skip_space_all sp Hsp).
Qed.

(** A golden line whose time does not fit its variable. *)
Lemma check_overflow symbol sha c g o sp rest :
  length (Message_Block sha) = 64%nat -> sym_size symbol = 4 -> m_checking c = true ->
  observable c g.1 g.2 -> observable c o.1 o.2 -> 2 ^ 32 <= getTimerTicks g.2 ->
  Forall (fun x => is_space x = true) sp ->
  m_istream c = Some (mkStream (sp ++ line_of symbol c g ++ rest) false false) ->
  exists l, check symbol o.1 sha c o.2
  = Some (None, with_istream (Some (mkStream l false true)) (with_count (u32 (m_count c + 1)) c), o.2).
Proof.
  intros Hsha Hsz Hch [Hg _] [_ Ho] Ht Hsp Hi. unfold check. rewrite Hch. cbn [negb].
  rewrite checkpoint_correct by done. obind. cbn [m_istream with_count]. rewrite Hi. cbn [eofbit].
  pose proof addr_bits_range. unfold Prelude.in_range in Hg.
  assert (2 ^ addr_bits <= 2 ^ 64) by (apply Z.pow_le_mono_r; lia).
  pose proof (ticks_range g.2) as Htr. unfold Prelude.in_range in Htr.
  unfold line_of, print_line. rewrite <- !app_assoc.
  rewrite extract_print_num by (done || lia). rewrite (proj2 (Z.ltb_lt _ _)) by lia.
  rewrite extract_print_num by (done || lia || by constructor).
  rewrite (proj2 (Z.ltb_ge _ _)) by lia. by eexists.
Qed.

(** What checking a run against golden states gives. *)
Definition past_end (n : nat) : list (option check_result) :=
  match n with O => [] | S n => None :: replicate n (Some INVALID) end.

Fixpoint replay (vd : Z * M -> Z * M -> check_result) (golden obs : list (Z * M)) : list (option check_result) :=
  match golden, obs with
  | [], _ => past_end (length obs)
  | _, [] => []
  | g :: golden, o :: rest =>
      if getTimerTicks g.2 <? 2 ^ 32 then Some (vd g o) :: replay vd golden rest
      else replicate (length obs) None
  end.

Lemma replay_zip vd golden : forall obs,
  Forall (fun g => getTimerTicks g.2 < 2 ^ 32) golden -> (length obs <= length golden)%nat ->
  replay vd golden obs = Some <$> zip_with vd golden obs.
Proof.
  induction golden as [|g golden IH]; intros [|o obs] Hg Hl; cbn [length] in *; try done; [lia|].
  apply Forall_cons in Hg as [Hg Hgs]. cbn [replay zip_with]. rewrite (proj2 (Z.ltb_lt _ _)) by done.
  rewrite fmap_cons. f_equal. apply IH; [done | lia].
Qed.

Lemma checks_ended symbol sha obs : forall c i,
  length (Message_Block sha) = 64%nat -> sym_size symbol = 4 -> m_checking c = true ->
  Forall (fun o => observable c o.1 o.2) obs -> m_istream c = Some i -> eofbit i = true ->
  checks symbol sha obs c = Some (replicate (length obs) (Some INVALID)).
Proof.
  induction obs as [|[ip m] obs IH]; intros c i Hsha Hsz Hch Ho Hi He; cbn [checks length replicate]; [done|].
  apply Forall_cons in Ho as [Ho Hos]. rewrite (check_ended symbol sha c ip m i) by done. obind.
  by rewrite (IH (with_count (u32 (m_count c + 1)) c) i).
Qed.

Lemma checks_failed symbol sha obs : forall c l,
  length (Message_Block sha) = 64%nat -> sym_size symbol = 4 -> m_checking c = true ->
  Forall (fun o => observable c o.1 o.2) obs -> m_istream c = Some (mkStream l false true) ->
  checks symbol sha obs c = Some (replicate (length obs) None).
Proof.
  induction obs as [|[ip m] obs IH]; intros c l Hsha Hsz Hch Ho Hi; cbn [checks length replicate]; [done|].
  apply Forall_cons in Ho as [Ho Hos]. rewrite (check_failed symbol sha c ip m l) by done. obind.
  by rewrite (IH (with_istream (Some (mkStream l false true)) (with_count (u32 (m_count c + 1)) c)) l).
Qed.

Lemma checks_lines symbol sha : forall obs c golden sp,
  length (Message_Block sha) = 64%nat -> sym_size symbol = 4 -> m_checking c = true ->
  Forall (fun x => is_space x = true) sp ->
  Forall (fun g => observable c g.1 g.2) golden -> Forall (fun o => observable c o.1 o.2) obs ->
  m_istream c = Some (mkStream (sp ++ (golden ≫= line_of symbol c)) false false) ->
  checks symbol sha obs c = Some (replay (verdict symbol c) golden obs).
Proof.
  induction obs as [|[ip m] obs IH]; intros c golden sp Hsha Hsz Hch Hsp Hg Ho Hi.
  { by destruct golden. }
  apply Forall_cons in Ho as [Ho Hos]. cbn [checks]. destruct golden as [|g golden].
  { rewrite bind_nil, app_nil_r in Hi. rewrite (check_blank symbol sha c ip m sp) by done. obind.
    by rewrite (checks_ended symbol sha obs _ (mkStream [] true true)). }
  apply Forall_cons in Hg as [Hg Hgs]. rewrite bind_cons in Hi. cbn [replay].
  destruct (Z.ltb_spec (getTimerTicks g.2) (2 ^ 32)) as [Ht|Ht].
  - pose proof (check_line symbol sha c g (ip, m) sp (golden ≫= line_of symbol c)
      Hsha Hsz Hch Hg Ho Ht Hsp Hi) as E. cbn [fst snd] in E. rewrite E. obind.
    rewrite (IH _ golden [10]); [done|done|done|done|by constructor|exact Hgs|exact Hos|done].
  - destruct (check_overflow symbol sha c g (ip, m) sp (golden ≫= line_of symbol c)
      Hsha Hsz Hch Hg Ho Ht Hsp Hi) as [l E]. cbn [fst snd] in E. rewrite E. obind.
    by rewrite (checks_failed symbol sha obs _ l).
Qed.
End theorems.

(** ** Theorems *)

(** A machine with bytes, a paging register and a clock; paging hides the bytes
    above address 4096. *)
Record Box := mkBox { box_bytes : gmap Z Z; box_cr0 : Z; box_ticks : Z }.

Definition box_ok (b : Box) : bool :=
  forallb (fun kv : Z * Z => (0 <=? kv.2) && (kv.2 <? 256)) (map_to_list (box_bytes b))
  && (0 <=? box_cr0 b) && (box_cr0 b <? 2 ^ 32) && (0 <=? box_ticks b) && (box_ticks b <? 2 ^ 64).

Definition GoodBox : Type := { b : Box | box_ok b = true }.

Definition box_byte (a : Z) (b : GoodBox) : Z := default 0 (box_bytes (`b) !! a).
Definition box_with_cr0 (v : Z) (b : Box) : Box := mkBox (box_bytes b) v (box_ticks b).

Lemma box_with_cr0_ok v b : box_ok b = true -> box_ok (box_with_cr0 (u32 v) b) = true.
Proof.
  unfold box_ok. cbn [box_bytes box_cr0 box_ticks box_with_cr0]. intros Hb. bool_hyps.
  pose proof (u32_range v). repeat (apply andb_true_intro; split); try done;
    (apply Z.leb_le || apply Z.ltb_lt); lia.
Qed.

#[global] Instance box_machine : CheckedMachine GoodBox := {|
  isMapped a b := bool_decide (is_Some (box_bytes (`b) !! a))
                  && (Z.testbit (box_cr0 (`b)) 31 || (a <? 4096));
  getByte := box_byte;
  get_cr0 b := box_cr0 (`b);
  set_cr0 v b := exist _ (box_with_cr0 (u32 v) (`b)) (box_with_cr0_ok v _ (proj2_sig b));
  getTimerTicks b := box_ticks (`b)
|}.

#[global] Instance box_laws : CheckedMachineLaws GoodBox.
Proof.
  assert (forall b : GoodBox, 0 <= box_cr0 (`b) < 2 ^ 32 /\ 0 <= box_ticks (`b) < 2 ^ 64
    /\ forallb (fun kv : Z * Z => (0 <=? kv.2) && (kv.2 <? 256))
         (map_to_list (box_bytes (`b))) = true) as Hb.
  { intros [b Hb]. unfold box_ok in Hb. cbn [proj1_sig]. bool_hyps. split_and!; (done || lia). }
  split.
  - intros a b. cbn [getByte box_machine]. unfold box_byte, is_byte.
    destruct (box_bytes (`b) !! a) as [v|] eqn:E; cbn; [|lia].
    destruct (Hb b) as (_ & _ & Hf). rewrite forallb_forall in Hf.
    specialize (Hf (a, v)). cbn in Hf. apply elem_of_map_to_list in E.
    apply list_elem_of_In in E. specialize (Hf E). bool_hyps. lia.
  - intros b. apply Hb.
  - intros b. apply Hb.
  - intros v b. destruct (Hb b) as (Hc & _). destruct b as [[bs cr t] Hok].
    cbn [get_cr0 set_cr0 box_machine proj1_sig box_cr0] in *. unfold box_with_cr0 at 1.
    cbn [box_bytes box_ticks box_with_cr0 proj1_sig].
    apply eq_sig_hprop; [intros; apply (Eqdep_dec.UIP_dec Bool.bool_dec)|].
    cbn [proj1_sig]. by rewrite u32_small.
Qed.

#[local] Existing Instance sal_32.

Definition box_of (bs : gmap Z Z) (t : Z) (H : box_ok (mkBox bs 0x80000011 t) = true) : GoodBox :=
  exist _ (mkBox bs 0x80000011 t) H.

Definition box_a : GoodBox :=
  box_of (list_to_map [(16, 1); (17, 2); (18, 3); (19, 4)]) 100 eq_refl.
Definition box_b : GoodBox :=
  box_of (list_to_map [(16, 1); (17, 2); (18, 3); (19, 9)]) 105 eq_refl.
Definition some_sha : SHA1Context := mkSHA1 [] 0 0 0 (replicate 64 0) 0 0.
Definition some_ranges : list (indirectable * indirectable) := [((16, false), (22, false))].



(** The checked digest stands for the checked memory.  In two states whose regions
    resolve to the same addresses, mapped alike, the hashed messages are equal
    exactly if the bytes at all mapped addresses for which [in_range] holds are
    equal.  In that case, with equal values and instruction pointers, the verdict
    is [IDENTICAL]; conversely that verdict means equal digests. *)
Theorem digest_covers_memory `{SalConfig} `{CheckedMachineLaws M} symbol c (ip ip' : Z) (m m' : M) :
  region_addrs c (paging_off m) = region_addrs c (paging_off m') ->
  (forall a, in_range c a (paging_off m) = true ->
     isMapped a (paging_off m) = isMapped a (paging_off m')) ->
  (region_message c (paging_off m) = region_message c (paging_off m')
   <-> forall a, in_range c a (paging_off m) = true -> isMapped a (paging_off m) = true ->
         getByte a (paging_off m) = getByte a (paging_off m'))
  /\ (verdict symbol c (ip, m) (ip', m') = IDENTICAL
      <-> ip = ip' /\ value_of symbol m = value_of symbol m'
          /\ Fips.sha1 (region_message c (paging_off m))
             = Fips.sha1 (region_message c (paging_off m'))).
Proof.
  intros Hr Hmap. split.
  - unfold region_message. rewrite <- Hr.
    setoid_rewrite in_range_region in Hmap. setoid_rewrite in_range_region.
    by apply message_agree.
  - unfold verdict, compare_golden, hex_digest. cbn [fst snd].
    destruct (sha1_bytes (region_message c (paging_off m))) as [Hb _].
    destruct (sha1_bytes (region_message c (paging_off m'))) as [Hb' _].
    generalize dependent (Fips.sha1 (region_message c (paging_off m'))). intros d' Hb'.
    generalize dependent (Fips.sha1 (region_message c (paging_off m))). intros d Hb.
    destruct (Z.eqb_spec (value_of symbol m') (value_of symbol m)); cbn [negb];
      [|split; [done|naive_solver]].
    destruct (Z.eqb_spec ip' ip); cbn [negb]; [|split; [done|naive_solver]].
    case_bool_decide as Hd; cbn [negb]; split; try done.
    + intros _. split_and!; try done. by apply hex_inj.
    + intros (_ & _ & Hs). by subst d'.
Qed.

Lemma digest_covers_memory_witness :
  region_message (new_checking some_ranges None) (paging_off box_a)
  <> region_message (new_checking some_ranges None) (paging_off box_b).
Proof.
  intros E.
  destruct (digest_covers_memory (mkSymbol [] 16 4 SYMBOL 1) (new_checking some_ranges None) 7 7 box_a box_b)
    as [[H _] _]; [reflexivity| |].
  - intros a Ha. destruct (decide (a ∈ seqZ 16 6)) as [Hin|Hin].
    + repeat (apply elem_of_cons in Hin as [-> |Hin]; [reflexivity|]).
      by apply not_elem_of_nil in Hin.
    + destruct Hin. apply (in_range_region (new_checking some_ranges None) a) in Ha. exact Ha.
  - discriminate (H E 19 eq_refl eq_refl).
Defined.

(** A check after the last golden checkpoint is not noticed the first time: the end
    of the file has not been seen yet, so the comparison uses variables that were
    never set; only the next check reports [INVALID]. *)
Theorem check_past_last `{SalConfig} `{CheckedMachineLaws M} sha symbol c (ip : Z) (m : M) :
  length (Message_Block sha) = 64%nat -> sym_size symbol = 4 -> m_checking c = true ->
  observable c ip m -> m_istream c = Some (mkStream [10] false false) ->
  checks symbol sha [(ip, m); (ip, m)] c = Some [None; Some INVALID].
Proof.
  intros Hsha Hsz Hch [_ Hl] Hi. cbn [checks].
  assert (check symbol ip sha c m
    = Some (None, with_istream (Some (mkStream [] true true))
                    (with_count (u32 (m_count c + 1)) c), m)) as ->.
  { unfold check. rewrite Hch. cbn [negb]. rewrite checkpoint_correct by done.
    obind. cbn [m_istream with_count]. by rewrite Hi. }
  obind. unfold check. cbn [m_checking with_istream with_count]. rewrite Hch. cbn [negb].
  by rewrite checkpoint_correct by done.
Qed.

Lemma check_past_last_witness :
  checks (mkSymbol [] 16 4 SYMBOL 1) some_sha [(7, box_a); (7, box_a)]
    (new_checking some_ranges (Some [10])) = Some [None; Some INVALID].
Proof.
  apply check_past_last; try reflexivity. repeat constructor; vm_compute; congruence.
Defined.

(** A golden checkpoint at or after 2^32 ticks cannot be checked: its time does not
    fit the variable it is read into, the stream fails, and the comparison uses a
    value and a digest that were never set, whatever the run did. *)
Theorem check_time_overflow `{SalConfig} `{CheckedMachineLaws M} sha symbol c (g o : Z * M) :
  length (Message_Block sha) = 64%nat -> sym_size symbol = 4 -> m_checking c = true ->
  observable c g.1 g.2 -> observable c o.1 o.2 -> 2 ^ 32 <= getTimerTicks g.2 ->
  m_istream c = Some (mkStream (line_of symbol c g) false false) ->
  checks symbol sha [o] c = Some [None].
Proof.
  intros Hsha Hsz Hch [Hg _] [_ Ho] Ht Hi. destruct o as [ip m]. cbn [checks].
  unfold check. rewrite Hch. cbn [negb].
  rewrite checkpoint_correct by done. obind. cbn [m_istream with_count]. rewrite Hi.
  pose proof addr_bits_range. unfold Prelude.in_range in Hg.
  assert (2 ^ addr_bits <= 2 ^ 64) by (apply Z.pow_le_mono_r; lia).
  pose proof (ticks_range g.2) as Htr. unfold Prelude.in_range in Htr.
  unfold line_of, print_line.
  rewrite <- (app_nil_l (print_num 16 g.1 ++ _)).
  rewrite extract_print_num by (done || lia). rewrite (proj2 (Z.ltb_lt _ _)) by lia.
  rewrite extract_print_num by (done || lia || by constructor).
  rewrite (proj2 (Z.ltb_ge _ _)) by lia. done.
Qed.

Definition box_late : GoodBox :=
  box_of (list_to_map [(16, 1); (17, 2); (18, 3); (19, 4)]) (2 ^ 32) eq_refl.

Lemma check_time_overflow_witness :
  checks (mkSymbol [] 16 4 SYMBOL 1) some_sha [(7, box_late)]
    (new_checking some_ranges
       (Some (line_of (mkSymbol [] 16 4 SYMBOL 1) (new_checking some_ranges None) (7, box_late))))
  = Some [None].
Proof.
  apply (check_time_overflow _ _ _ (7, box_late) (7, box_late)); try reflexivity.
  all: repeat constructor; vm_compute; congruence.
Defined.
