(* ===== verification/ProtoStream.v ===== *)
(** * Message streams

    [src/core/util/ProtoStream.{hpp,cc}]: messages written one after another to a
    file, each behind its length in network byte order.

    The file is a list of bytes.  An output stream may run out of room, after
    which it is bad and takes nothing more; an input stream that ends early is
    no longer good.  Messages are the generated classes': how they turn into
    bytes is an argument. *)
From S2P Require Import Prelude JobServer JobClient.

(** [std::ostream], with the room left on the device. *)
Record ostream := mkOut { o_bytes : list Z; o_room : option nat; o_bad : bool }.

Definition o_write (b : list Z) (o : ostream) : ostream :=
  if o_bad o then o else
  match o_room o with
  | None => mkOut (o_bytes o ++ b) None false
  | Some n =>
      if (length b <=? n)%nat then mkOut (o_bytes o ++ b) (Some (n - length b)%nat) false
      else mkOut (o_bytes o ++ take n b) (Some 0%nat) true
  end.

(** [std::istream], with the whole file for [reset]. *)
Record istream := mkIn { i_file : list Z; i_rest : list Z; i_good : bool }.

Definition i_read (n : nat) (i : istream) : list Z * istream :=
  if i_good i then
    if (n <=? length (i_rest i))%nat
    then (take n (i_rest i), mkIn (i_file i) (drop n (i_rest i)) true)
    else (i_rest i, mkIn (i_file i) [] false)
  else ([], i).

Definition reset (i : istream) : istream := mkIn (i_file i) (i_file i) true.
Definition open_in (file : list Z) : istream := mkIn file file true.

Section streams.
Context {M : Type} (serialize : M -> list Z).
(** [ParseFromString]: whether the bytes are a message, and what is stored either way. *)
Context (parse : list Z -> bool * M).

Definition writeMessage (m : M) (o : ostream) : bool * ostream :=
  let m_size := htonl_bytes (Z.of_nat (length (serialize m))) in
  let o := o_write m_size o in
  if o_bad o then (false, o) else (true, o_write (serialize m) o).

(** [m] is the caller's message, kept when nothing is read. *)
Definition getNext (m : M) (i : istream) : bool * M * istream :=
  let '(m_size, i) := i_read 4 i in
  if negb (i_good i) then (false, m, i) else
  let m_size := ntohl_bytes m_size in
  let '(buf, i) := i_read (Z.to_nat m_size) i in
  if negb (i_good i) then (false, m, i) else
  let '(_, m) := parse buf in
  (true, m, i).

Definition writeMessages (ms : list M) (o : ostream) : ostream :=
  fold_left (fun o m => (writeMessage m o).2) ms o.

(** [while (ps.getNext(&m)) ...]; a message takes at least four bytes. *)
Fixpoint readMessages (fuel : nat) (m : M) (i : istream) : list M * istream :=
  match fuel with
  | O => ([], i)
  | S fuel =>
      match getNext m i with
      | (true, m, i) => let '(ms, i) := readMessages fuel m i in (m :: ms, i)
      | (false, _, i) => ([], i)
      end
  end.

Definition read_all (m : M) (i : istream) : list M :=
  (readMessages (S (length (i_rest i))) m i).1.

(** What the generated code promises for a message: it parses back.  Its length
    has to fit the header. *)
Definition encodable (m : M) : Prop :=
  parse (serialize m) = (true, m) /\ Z.of_nat (length (serialize m)) < 2 ^ 32.

Abbreviation frame := (sendMsg serialize).

Lemma length_frame m : length (frame m) = (4 + length (serialize m))%nat.
Proof. unfold sendMsg. by rewrite length_app. Qed.

Lemma writeMessages_frames ms : forall b,
  writeMessages ms (mkOut b None false) = mkOut (b ++ (ms ≫= frame)) None false.
Proof.
  induction ms as [|m ms IH]; intros b; [by rewrite app_nil_r|].
  unfold writeMessages in *. cbn [fold_left].
  assert ((writeMessage m (mkOut b None false)).2 = mkOut (b ++ frame m) None false) as ->.
  { unfold writeMessage, o_write, sendMsg. cbn [o_bad o_room o_bytes snd].
    by rewrite app_assoc. }
  by rewrite IH, bind_cons, app_assoc.
Qed.

Lemma i_read_app f l s : i_read (length l) (mkIn f (l ++ s) true) = (l, mkIn f s true).
Proof.
  unfold i_read. cbn [i_good i_rest i_file].
  rewrite (proj2 (Nat.leb_le _ _)) by (rewrite length_app; lia).
  by rewrite take_app_length, drop_app_length.
Qed.

Lemma getNext_frame f m0 m s :
  encodable m -> getNext m0 (mkIn f (frame m ++ s) true) = (true, m, mkIn f s true).
Proof.
  intros [Hp Hs]. unfold getNext, sendMsg. rewrite <- app_assoc.
  rewrite (i_read_app f (htonl_bytes _)). cbn [i_good negb].
  rewrite ntohl_htonl by lia.
  rewrite Nat2Z.id, i_read_app. cbn [i_good negb]. by rewrite Hp.
Qed.

(** A proper prefix of a frame is not taken for a message. *)
Lemma getNext_cut f m0 m n :
  encodable m -> (n < length (frame m))%nat ->
  exists i, getNext m0 (mkIn f (take n (frame m)) true) = (false, m0, i).
Proof.
  intros [_ Hs] Hn. rewrite length_frame in Hn. unfold getNext.
  destruct (decide (n < 4)%nat) as [H4|H4].
  - unfold i_read at 1. cbn [i_good i_rest i_file].
    rewrite (proj2 (Nat.leb_gt _ _)) by (rewrite length_take, length_frame; lia).
    cbn [i_good negb]. eauto.
  - assert (take n (frame m) = htonl_bytes (Z.of_nat (length (serialize m)))
      ++ take (n - 4) (serialize m)) as ->.
    { unfold sendMsg. rewrite take_app. by rewrite take_ge by (cbn; lia). }
    rewrite (i_read_app f (htonl_bytes _)). cbn [i_good negb].
    rewrite ntohl_htonl by lia.
    rewrite Nat2Z.id. unfold i_read. cbn [i_good i_rest i_file].
    rewrite (proj2 (Nat.leb_gt _ _)) by (rewrite length_take; lia).
    cbn [i_good negb]. eauto.
Qed.

Lemma getNext_end f m0 :
  getNext m0 (mkIn f [] true) = (false, m0, mkIn f [] false).
Proof. done. Qed.

(** Any cut of a stream: the messages whose frames are complete. *)
Lemma readMessages_cut f ms : forall fuel m0 n,
  Forall encodable ms -> (length (take n (ms ≫= frame)) < fuel)%nat ->
  exists k, (readMessages fuel m0 (mkIn f (take n (ms ≫= frame)) true)).1 = take k ms
    /\ (length (take k ms ≫= frame) <= n)%nat
    /\ ((n < length (take (S k) ms ≫= frame))%nat \/ (length ms <= k)%nat).
Proof.
  induction ms as [|m ms IH]; intros fuel m0 n He Hf.
  { exists 0%nat. destruct fuel as [|fuel]; [cbn in Hf; lia|].
    change ([] ≫= frame) with (@nil Z). rewrite take_nil. cbn [readMessages].
    rewrite getNext_end. split_and!; [done|cbn; lia|right; cbn; lia]. }
  rewrite bind_cons in Hf |- *. destruct fuel as [|fuel]; [cbn in Hf; lia|].
  apply Forall_cons in He as [Hm He]. cbn [readMessages].
  destruct (decide (length (frame m) <= n)%nat) as [Hle|Hlt].
  - assert (take n (frame m ++ (ms ≫= frame))
      = frame m ++ take (n - length (frame m)) (ms ≫= frame)) as E
      by (rewrite take_app; f_equal; apply take_ge; lia).
    rewrite E in Hf |- *. rewrite getNext_frame by done.
    destruct (IH fuel m (n - length (frame m))%nat) as (k & Hk & Hn & Hs).
    { done. }
    { pose proof (length_frame m). rewrite length_app in Hf. lia. }
    exists (S k). destruct (readMessages fuel m _) as [ms' i]. cbn [fst] in *. subst ms'.
    split; [done|]. cbn [take]. rewrite !bind_cons, !length_app. split; [lia|].
    destruct Hs; [left; lia|right; cbn; lia].
  - assert (take n (frame m ++ (ms ≫= frame)) = take n (frame m)) as ->
      by (apply take_app_le; lia).
    destruct (getNext_cut f m0 m n) as (i & ->); [done|lia|].
    exists 0%nat. cbn [take]. rewrite bind_cons, length_app. split_and!; [done|cbn; lia|left; lia].
Qed.

Lemma read_all_frames ms m0 : Forall encodable ms -> read_all m0 (open_in (ms ≫= frame)) = ms.
Proof.
  intros He. unfold read_all, open_in. cbn [i_rest].
  destruct (readMessages_cut (ms ≫= frame) ms (S (length (ms ≫= frame))) m0
    (length (ms ≫= frame))) as (k & Hk & _ & Hs); [done|rewrite length_take; lia|].
  rewrite take_ge in Hk by lia. rewrite Hk. apply take_ge.
  destruct Hs as [Hs|]; [|done]. exfalso.
  assert (length (take (S k) ms ≫= frame) <= length (ms ≫= frame))%nat; [|lia].
  rewrite <- (take_drop (S k) ms) at 2. rewrite bind_app, length_app. lia.
Qed.

(** A stream of messages reads back as written.  If the file is cut at any byte,
    reading stops after exactly the messages whose frames are complete; an uncut
    file gives all of them, and again after [reset]. *)
Theorem stream_roundtrip ms m0 n :
  Forall encodable ms ->
  let file := o_bytes (writeMessages ms (mkOut [] None false)) in
  read_all m0 (open_in file) = ms
  /\ (forall rest good, read_all m0 (reset (mkIn file rest good)) = ms)
  /\ exists k, read_all m0 (open_in (take n file)) = take k ms
       /\ (length (o_bytes (writeMessages (take k ms) (mkOut [] None false))) <= n)%nat
       /\ ((n < length (o_bytes (writeMessages (take (S k) ms) (mkOut [] None false))))%nat
           \/ (length ms <= k)%nat).
Proof.
  intros He. cbv zeta. rewrite !writeMessages_frames. cbn [o_bytes app].
  split_and!; [by apply read_all_frames|intros; by apply read_all_frames|].
  destruct (readMessages_cut (take n (ms ≫= frame)) ms (S (length (take n (ms ≫= frame)))) m0 n)
    as (k & Hk & Hn & Hs); [done|lia|].
  exists k. rewrite !writeMessages_frames. done.
Qed.

(** The bytes of a message are not checked to reach the file: on a device with just
    enough room for the length, [writeMessage] reports success and the message is lost. *)
Lemma write_body_unchecked m b :
  serialize m <> [] ->
  exists o, writeMessage m (mkOut b (Some 4%nat) false) = (true, o)
    /\ o_bytes o = b ++ htonl_bytes (Z.of_nat (length (serialize m))) /\ o_bad o = true.
Proof.
  intros Hm. unfold writeMessage, o_write. cbn [o_bad o_room o_bytes htonl_bytes length Nat.leb Nat.sub].
  eexists. split; [reflexivity|]. destruct (serialize m) as [|x l]; [done|].
  cbn [length Nat.leb o_bytes o_bad take]. by rewrite app_nil_r.
Qed.
End streams.

(** Bytes that are no message are handed over as one. *)
Lemma garbage_accepted {M} (parse : list Z -> bool * M) (m0 m : M) f :
  parse [] = (false, m) -> getNext parse m0 (mkIn f [0; 0; 0; 0] true) = (true, m, mkIn f [] true).
Proof.
  intros Hp. unfold getNext.
  change (i_read 4 (mkIn f [0; 0; 0; 0] true)) with ([0; 0; 0; 0], mkIn f [] true).
  cbn [i_good negb]. change (Z.to_nat (ntohl_bytes [0; 0; 0; 0])) with 0%nat.
  change (i_read 0 (mkIn f [] true)) with (@nil Z, mkIn f [] true). cbn [i_good negb].
  by rewrite Hp.
Qed.

(** Messages of one byte: two of them, the file cut inside the second. *)
Lemma stream_roundtrip_witness :
  read_all (fun l => match l with [x] => (true, x) | _ => (false, 0) end) 0
    (open_in (take 9 (o_bytes (writeMessages (fun x => [x]) [5; 6] (mkOut [] None false)))))
  = [5].
Proof.
  destruct (stream_roundtrip (fun x => [x])
    (fun l => match l with [x] => (true, x) | _ => (false, 0) end)
    [5; 6] 0 9 ltac:(repeat constructor)) as (_ & _ & k & -> & Hn & Hs).
  destruct k as [|[|k]]; [vm_compute in Hs; lia|reflexivity|].
  rewrite take_ge in Hn by (cbn; lia). vm_compute in Hn. lia.
Defined.
