(* ===== verification/Tracing.v ===== *)
(** * The tracing plugin

    [src/plugins/tracing/TracingPlugin.{hpp,cc}]: records every instruction and
    memory access of a run as a stream of [Trace_Event]s; and the statistics of
    [tools/dump-trace/DumpTrace.cc] on such a stream.

    The plugin is a flow that waits for two listeners, [ev_step] and [ev_mem].  A
    listener is removed when it triggers, so the state remembers which of the two
    is registered.  A [Stop] is one return of [simulator.resume()]: the listener that
    triggered and the state of the machine then. *)
From S2P Require Import Prelude Events MemoryMap SyncContainers JobServer JobClient ProtoStream Importer ImporterTheorems.

(** What the plugin asks the back-end. *)
Class TraceMachine (M : Type) := {
  tm_instruction_pointer : M -> Z;
  tm_ticks : M -> Z;
  tm_register : Z -> M -> Z;             (** by register id *)
  tm_isMapped : Z -> M -> bool;
  tm_getByte : Z -> M -> Z
}.

Definition TRACE_NONE : Z := 0.
Definition TRACE_IP : Z := 1.
Definition TRACE_MEM : Z := 2.
Definition TRACE_BOTH : Z := 3.

Section plugin.
Context `{SalConfig} {S : Type} `{!IntervalSet S} {M : Type} `{!TraceMachine M}.

(** Members of the plugin; a stream pointer is known by being set or not. *)
Record TracingPlugin := mkPlugin {
  m_memMap : option S;
  m_ipMap : option S;
  m_tracetype : Z;
  m_full_trace : bool;
  m_protoStreamFile : bool;
  m_os : bool;
  trace_regs : list Z                    (** ids of the set [RT_TRACE] *)
}.

Definition new_TracingPlugin (full_trace : bool) (regs : list Z) : TracingPlugin :=
  mkPlugin None None TRACE_BOTH full_trace false false regs.

Definition restrictMemoryAddresses (mm : option S) (p : TracingPlugin) : TracingPlugin :=
  mkPlugin mm (m_ipMap p) (m_tracetype p) (m_full_trace p) (m_protoStreamFile p) (m_os p) (trace_regs p).
Definition restrictInstructionAddresses (mm : option S) (p : TracingPlugin) : TracingPlugin :=
  mkPlugin (m_memMap p) mm (m_tracetype p) (m_full_trace p) (m_protoStreamFile p) (m_os p) (trace_regs p).
Definition set_tracetype (t : Z) (p : TracingPlugin) : TracingPlugin :=
  mkPlugin (m_memMap p) (m_ipMap p) t (m_full_trace p) (m_protoStreamFile p) (m_os p) (trace_regs p).
Definition setLogMemOnly (memonly : bool) (p : TracingPlugin) : TracingPlugin :=
  set_tracetype (if memonly then TRACE_MEM else TRACE_BOTH) p.
Definition setLogIPOnly (iponly : bool) (p : TracingPlugin) : TracingPlugin :=
  set_tracetype (if iponly then TRACE_IP else TRACE_BOTH) p.
Definition setFullTrace (b : bool) (p : TracingPlugin) : TracingPlugin :=
  mkPlugin (m_memMap p) (m_ipMap p) (m_tracetype p) b (m_protoStreamFile p) (m_os p) (trace_regs p).
Definition setOstream (b : bool) (p : TracingPlugin) : TracingPlugin :=
  mkPlugin (m_memMap p) (m_ipMap p) (m_tracetype p) (m_full_trace p) (m_protoStreamFile p) b (trace_regs p).
Definition setTraceFile (b : bool) (p : TracingPlugin) : TracingPlugin :=
  mkPlugin (m_memMap p) (m_ipMap p) (m_tracetype p) (m_full_trace p) b (m_os p) (trace_regs p).

(** A line of the readable trace. *)
Inductive TextLine :=
  | L_IP (ip : Z)
  | L_MEM (rw : AccessType) (addr width ip : Z)
  | L_WRONG.

(** The locals of [run], which listeners are registered, and what was written. *)
Record Run := mkRun {
  prevtime : Z;
  step_registered : bool;
  mem_registered : bool;
  written : list Trace_Event;
  text : list TextLine
}.

Inductive Stop := StepStop (m : M) | MemStop (ev : MemAccessEvent) (m : M) | OtherStop (m : M).

Definition stop_machine (s : Stop) : M :=
  match s with StepStop m | MemStop _ m | OtherStop m => m end.

(** [getBytes] into a zeroed little-endian number. *)
Fixpoint read_le (n : nat) (addr : Z) (m : M) : Z :=
  match n with
  | O => 0
  | Datatypes.S n => tm_getByte addr m + 256 * read_le n (wrap addr_bits (addr + 1)) m
  end.

Definition trace_register (m : M) (id : Z) : Z * option Z * option Z :=
  let value := u64 (tm_register id m) in
  (id, Some value,
   if tm_isMapped (wrap addr_bits value) m && tm_isMapped (wrap addr_bits (u64 (value + 3))) m
   then Some (read_le 4 (wrap addr_bits value) m) else None).

Definition trace_ext (p : TracingPlugin) (addr width : Z) (m : M) : Trace_Event_Extended :=
  let width := if width >? 8 then 8 else width in
  mkExt (read_le (Z.to_nat width) addr m) (trace_register m <$> trace_regs p).

Definition map_excludes (mm : option S) (addr size : Z) : bool :=
  match mm with Some mm => negb (mm_isMatching addr size mm) | None => false end.

(** The delta to store, if any, and the new [prevtime]. *)
Definition delta_of (curtime prev : Z) : option Z * Z :=
  let deltatime := s64 (u64 (curtime - prev)) in
  if deltatime =? 0 then (None, prev) else (Some deltatime, curtime).

Definition emit (p : TracingPlugin) (line : TextLine) (curtime : Z)
    (ev : option Z -> Trace_Event) (r : Run) : Run :=
  let text' := if m_os p then text r ++ [line] else text r in
  if m_protoStreamFile p then
    let '(d, prev) := delta_of curtime (prevtime r) in
    mkRun prev (step_registered r) (mem_registered r) (written r ++ [ev d]) text'
  else mkRun (prevtime r) (step_registered r) (mem_registered r) (written r) text'.

(** The branch for [ev_step], also taken for the first instruction. *)
Definition step_event (p : TracingPlugin) (m : M) (r : Run) : Run :=
  let r := mkRun (prevtime r) true (mem_registered r) (written r) (text r) in
  let ip := tm_instruction_pointer m in
  if map_excludes (m_ipMap p) ip 1 then r
  else emit p (L_IP ip) (tm_ticks m) (fun d => mkTE ip d None 0 READ None) r.

(** The branch for [ev_mem]. *)
Definition access_of (ev : MemAccessEvent) : AccessType :=
  if Z.land (access_flags (mem_AccessType ev)) (access_flags MEM_READ) =? 0 then WRITE else READ.

Definition mem_event (p : TracingPlugin) (ev : MemAccessEvent) (m : M) (r : Run) : Run :=
  let r := mkRun (prevtime r) (step_registered r) true (written r) (text r) in
  let ip := mem_TriggerIP ev in
  let addr := mem_TriggerAddr ev in
  let width := mem_TriggerWidth ev in
  if map_excludes (m_ipMap p) ip 1 || map_excludes (m_memMap p) addr width then r
  else emit p (L_MEM (access_of ev) addr width ip) (tm_ticks m)
         (fun d => mkTE ip d (Some addr) (u32 width) (access_of ev)
            (if m_full_trace p then Some (trace_ext p addr width m) else None)) r.

(** One iteration after [resume] returned.  A listener that is not registered
    cannot trigger ([None]); one that does is no longer registered. *)
Definition iteration (p : TracingPlugin) (s : Stop) (r : Run) : option Run :=
  match s with
  | StepStop m =>
      if step_registered r
      then Some (step_event p m (mkRun (prevtime r) false (mem_registered r) (written r) (text r)))
      else None
  | MemStop ev m =>
      if mem_registered r
      then Some (mem_event p ev m (mkRun (prevtime r) (step_registered r) false (written r) (text r)))
      else None
  | OtherStop m =>
      Some (mkRun (prevtime r) (step_registered r) (mem_registered r) (written r)
              (if m_os p then text r ++ [L_WRONG] else text r))
  end.

(** [run] up to a prefix of the returns of [resume]; [m0] is the machine at the start. *)
Definition start (p : TracingPlugin) (m0 : M) : Run :=
  let r := mkRun 0 false (negb (Z.land (m_tracetype p) TRACE_MEM =? 0)) [] [] in
  if negb (Z.land (m_tracetype p) TRACE_IP =? 0) then step_event p m0 r else r.

Definition run (p : TracingPlugin) (m0 : M) (stops : list Stop) : option Run :=
  fold_left (fun r s => r ← r; iteration p s r) stops (Some (start p m0)).

End plugin.

Arguments TracingPlugin : clear implicits.
Arguments Stop : clear implicits.

(** ** Statistics of [dump-trace] *)

Record Stats := mkStats {
  acctime : Z; starttime : Z;
  stats_instr : Z; stats_reads : Z; stats_writes : Z; stats_read_b : Z; stats_write_b : Z;
  stats_mem_locations : gset Z
}.

Definition no_stats : Stats := mkStats 0 0 0 0 0 0 0 ∅.

(** The addresses of one access; the loop's bound wraps with the address type. *)
Definition locations (ev : Trace_Event) : list Z :=
  let a := default 0 (te_memaddr ev) in seqZ a (u64 (a + te_width ev) - a).

Definition dump_event (stats_only : bool) (ev : Trace_Event) (s : Stats) : Stats :=
  let '(acc, st) :=
    match te_time_delta ev with
    | Some d => (u64 (acctime s + u64 d), if acctime s =? 0 then u64 d else starttime s)
    | None => (acctime s, starttime s)
    end in
  match te_memaddr ev with
  | None => mkStats acc st (u64 (stats_instr s + 1)) (stats_reads s) (stats_writes s)
              (stats_read_b s) (stats_write_b s) (stats_mem_locations s)
  | Some _ =>
      let locs := if stats_only then list_to_set (locations ev) ∪ stats_mem_locations s
                  else stats_mem_locations s in
      if decide (te_accesstype ev = READ)
      then mkStats acc st (stats_instr s) (u64 (stats_reads s + 1)) (stats_writes s)
             (u64 (stats_read_b s + te_width ev)) (stats_write_b s) locs
      else mkStats acc st (stats_instr s) (stats_reads s) (u64 (stats_writes s + 1))
             (stats_read_b s) (u64 (stats_write_b s + te_width ev)) locs
  end.

Definition dump_trace (stats_only : bool) (evs : list Trace_Event) : Stats :=
  fold_left (fun s ev => dump_event stats_only ev s) evs no_stats.
