(* ===== verification/TracingTheorems.v ===== *)
(** * Theorems on tracing

    A trace holds what happened, at the times it happened; and the chain from a
    run over the trace file to the imported fault space. *)
From S2P Require Import Prelude Events MemoryMap SyncContainers JobServer JobClient ProtoStream Importer ImporterTheorems Tracing.

(** ** Absolute times of a trace *)

Fixpoint abs_times (t : Z) (evs : list Trace_Event) : list Z :=
  match evs with
  | [] => []
  | ev :: evs => let t := t + default 0 (te_time_delta ev) in t :: abs_times t evs
  end.

Definition end_time (t : Z) (evs : list Trace_Event) : Z :=
  fold_left (fun t ev => t + default 0 (te_time_delta ev)) evs t.

Lemma abs_times_snoc evs : forall t ev,
  abs_times t (evs ++ [ev])
  = abs_times t evs ++ [end_time t evs + default 0 (te_time_delta ev)].
Proof.
  induction evs as [|e evs IH]; intros t ev; [done|]. cbn [app abs_times]. by rewrite IH.
Qed.

Lemma end_time_snoc evs t ev :
  end_time t (evs ++ [ev]) = end_time t evs + default 0 (te_time_delta ev).
Proof. unfold end_time. by rewrite fold_left_app. Qed.

(** An event without its time. *)
Definition untimed (ev : Trace_Event) : Trace_Event :=
  mkTE (te_ip ev) None (te_memaddr ev) (te_width ev) (te_accesstype ev) (te_trace_ext ev).

Lemma delta_correct cur prev :
  0 <= prev <= cur -> cur < 2 ^ 63 ->
  let '(d, prev') := delta_of cur prev in
  prev + default 0 d = cur /\ prev' = cur /\ (forall x, d = Some x -> 0 < x).
Proof.
  intros Hp Hc. unfold delta_of. rewrite u64_small by lia.
  assert (s64 (cur - prev) = cur - prev) as ->.
  { unfold s64. rewrite wrap_small; [lia|]. unfold in_range. lia. }
  destruct (Z.eqb_spec (cur - prev) 0); cbn [default from_option id]; split_and!; try lia; try done.
  intros x [= <-]. lia.
Qed.

Section tracing.
Context `{SalConfig} {S : Type} `{!IntervalSet S} {M : Type} `{!TraceMachine M}.
Context (p : TracingPlugin S).

Definition traces_ip : bool := negb (Z.land (m_tracetype p) TRACE_IP =? 0).
Definition traces_mem : bool := negb (Z.land (m_tracetype p) TRACE_MEM =? 0).

(** The stops the plugin looks at: the first instruction is one of them. *)
Definition all_stops (m0 : M) (stops : list (Stop M)) : list (Stop M) :=
  (if traces_ip then [StepStop m0] else []) ++ stops.

(** What is recorded for a stop, and when it happened. *)
Definition event_of (s : Stop M) : option (Trace_Event * Z) :=
  match s with
  | StepStop m =>
      let ip := tm_instruction_pointer m in
      if map_excludes (m_ipMap p) ip 1 then None
      else Some (mkTE ip None None 0 READ None, tm_ticks m)
  | MemStop ev m =>
      if map_excludes (m_ipMap p) (mem_TriggerIP ev) 1
         || map_excludes (m_memMap p) (mem_TriggerAddr ev) (mem_TriggerWidth ev) then None
      else Some (mkTE (mem_TriggerIP ev) None (Some (mem_TriggerAddr ev))
                   (u32 (mem_TriggerWidth ev)) (access_of ev)
                   (if m_full_trace p
                    then Some (trace_ext p (mem_TriggerAddr ev) (mem_TriggerWidth ev) m) else None),
                 tm_ticks m)
  | OtherStop _ => None
  end.

Definition recorded (stops : list (Stop M)) : list (Trace_Event * Z) := omap event_of stops.

(** Only registered listeners trigger, and the clock does not run backwards. *)
Definition allowed (s : Stop M) : Prop :=
  match s with
  | StepStop _ => traces_ip = true
  | MemStop _ _ => traces_mem = true
  | OtherStop _ => True
  end.

Fixpoint clock_from (t : Z) (stops : list (Stop M)) : Prop :=
  match stops with
  | [] => True
  | s :: stops => t <= tm_ticks (stop_machine s) < 2 ^ 63
                  /\ clock_from (tm_ticks (stop_machine s)) stops
  end.

(** The state after the stops [seen]. *)
Record traced (seen : list (Stop M)) (r : Run) : Prop := {
  traced_step : step_registered r = traces_ip;
  traced_mem : mem_registered r = traces_mem;
  traced_events : untimed <$> written r = (recorded seen).*1;
  traced_times : abs_times 0 (written r) = (recorded seen).*2;
  traced_end : end_time 0 (written r) = prevtime r;
  traced_deltas : Forall (fun ev => forall d, te_time_delta ev = Some d -> 0 < d) (written r);
}.

Lemma recorded_snoc seen s :
  recorded (seen ++ [s]) = recorded seen ++ (match event_of s with Some e => [e] | None => [] end).
Proof. unfold recorded. rewrite omap_app. cbn. by destruct (event_of s). Qed.

(** Writing one event keeps the times right. *)
Lemma emit_traced seen s r line cur ev e :
  m_protoStreamFile p = true -> 0 <= prevtime r <= cur -> cur < 2 ^ 63 ->
  event_of s = Some (e, cur) -> (forall d, untimed (ev d) = e /\ te_time_delta (ev d) = d) ->
  traced seen r ->
  traced (seen ++ [s]) (emit p line cur ev r) /\ 0 <= prevtime (emit p line cur ev r) <= cur.
Proof.
  intros Hf Hp Hc He Hev [H1 H2 H3 H4 H5 H6]. unfold emit. rewrite Hf.
  pose proof (delta_correct cur (prevtime r) Hp Hc) as Hd.
  destruct (delta_of cur (prevtime r)) as [d prev']. destruct Hd as (Hd & -> & Hpos).
  destruct (Hev d) as [Hu Ht]. cbn [prevtime]. split; [|lia].
  constructor; cbn [step_registered mem_registered written prevtime]; try done.
  - by rewrite recorded_snoc, He, !fmap_app, H3, <- Hu.
  - rewrite abs_times_snoc, recorded_snoc, He, fmap_app, H4, H5, Ht, Hd. done.
  - by rewrite end_time_snoc, H5, Ht.
  - apply Forall_app_2; [done|]. apply Forall_singleton. by rewrite Ht.
Qed.

(** A stop that is not recorded. *)
Lemma skip_traced seen s r :
  event_of s = None -> traced seen r -> traced (seen ++ [s]) r.
Proof.
  intros He [H1 H2 H3 H4 H5 H6].
  by constructor; try done; rewrite recorded_snoc, He, app_nil_r.
Qed.

Lemma step_event_traced seen m r :
  m_protoStreamFile p = true -> traces_ip = true ->
  0 <= prevtime r <= tm_ticks m -> tm_ticks m < 2 ^ 63 ->
  traced seen (mkRun (prevtime r) true (mem_registered r) (written r) (text r)) ->
  traced (seen ++ [StepStop m]) (step_event p m r)
  /\ 0 <= prevtime (step_event p m r) <= tm_ticks m.
Proof.
  intros Hf Hip Hp Ht Htr. unfold step_event.
  destruct (map_excludes (m_ipMap p) (tm_instruction_pointer m) 1) eqn:Hx.
  - split; [|done]. apply skip_traced; [|done]. cbn [event_of]. by rewrite Hx.
  - eapply emit_traced; [done|exact Hp|exact Ht|cbn [event_of]; by rewrite Hx|by intros d|exact Htr].
Qed.

Lemma mem_event_traced seen ev m r :
  m_protoStreamFile p = true -> traces_mem = true ->
  0 <= prevtime r <= tm_ticks m -> tm_ticks m < 2 ^ 63 ->
  traced seen (mkRun (prevtime r) (step_registered r) true (written r) (text r)) ->
  traced (seen ++ [MemStop ev m]) (mem_event p ev m r)
  /\ 0 <= prevtime (mem_event p ev m r) <= tm_ticks m.
Proof.
  intros Hf Hip Hp Ht Htr. unfold mem_event.
  destruct (map_excludes (m_ipMap p) (mem_TriggerIP ev) 1
            || map_excludes (m_memMap p) (mem_TriggerAddr ev) (mem_TriggerWidth ev)) eqn:Hx.
  - split; [|done]. apply skip_traced; [|done]. cbn [event_of]. by rewrite Hx.
  - eapply emit_traced; [done|exact Hp|exact Ht|cbn [event_of]; by rewrite Hx|by intros d|exact Htr].
Qed.

Lemma iteration_traced seen s r :
  m_protoStreamFile p = true -> allowed s ->
  0 <= prevtime r <= tm_ticks (stop_machine s) -> tm_ticks (stop_machine s) < 2 ^ 63 ->
  traced seen r ->
  exists r', iteration p s r = Some r' /\ traced (seen ++ [s]) r'
    /\ 0 <= prevtime r' <= tm_ticks (stop_machine s).
Proof.
  intros Hf Ha Hp Ht Htr. pose proof Htr as [H1 H2 H3 H4 H5 H6].
  destruct s as [m|ev m|m]; cbn [allowed stop_machine] in *; unfold iteration.
  - rewrite H1, Ha. eexists. split; [done|]. by apply step_event_traced.
  - rewrite H2, Ha. eexists. split; [done|]. by apply mem_event_traced.
  - eexists. split; [done|]. split; [|done]. apply skip_traced; [done|]. by constructor.
Qed.

Lemma run_traced stops : forall seen r t,
  m_protoStreamFile p = true -> Forall allowed stops ->
  0 <= prevtime r <= t -> clock_from t stops -> traced seen r ->
  exists r', fold_left (fun r s => r ← r; iteration p s r) stops (Some r) = Some r'
    /\ traced (seen ++ stops) r'.
Proof.
  induction stops as [|s stops IH]; intros seen r t Hf Ha Hp Hc Htr; cbn [fold_left].
  { exists r. by rewrite app_nil_r. }
  apply Forall_cons in Ha as [Hs Ha]. destruct Hc as [Ht Hc].
  destruct (iteration_traced seen s r) as (r1 & E & Htr1 & Hp1); [done|done|lia|lia|done|].
  obind. rewrite E.
  destruct (IH (seen ++ [s]) r1 _ Hf Ha Hp1 Hc Htr1) as (r2 & E2 & Htr2).
  exists r2. split; [exact E2|]. by rewrite <- app_assoc in Htr2.
Qed.

Lemma run_all_traced m0 stops :
  m_protoStreamFile p = true -> Forall allowed stops ->
  clock_from 0 (all_stops m0 stops) ->
  exists r, run p m0 stops = Some r /\ traced (all_stops m0 stops) r.
Proof.
  intros Hf Ha Hc. unfold run, start, all_stops in *. fold traces_ip traces_mem.
  destruct traces_ip eqn:Hip.
  - cbn [app clock_from stop_machine] in Hc. destruct Hc as [Ht Hc].
    destruct (step_event_traced [] m0 (mkRun 0 false traces_mem [] [])) as [Htr Hp];
      [done|done|cbn; lia|lia|by constructor; cbn|].
    destruct (run_traced stops _ _ _ Hf Ha Hp Hc Htr) as (r & E & Hr). exists r. by split.
  - destruct (run_traced stops [] (mkRun 0 false traces_mem [] []) 0) as (r & E & Hr);
      [done|done|cbn; lia|done|by constructor; cbn|]. exists r. by split.
Qed.

(** ** The trace as the importer sees it *)

Definition is_step (s : Stop M) : bool := match s with StepStop _ => true | _ => false end.
Definition steps (stops : list (Stop M)) : Z := Z.of_nat (length (filter (fun s => is_step s = true) stops)).

(** Accesses whose addresses fit the database. *)
Definition fits (s : Stop M) : Prop :=
  match s with
  | MemStop ev _ => 0 <= mem_TriggerAddr ev /\ 0 <= mem_TriggerWidth ev
                    /\ mem_TriggerAddr ev + mem_TriggerWidth ev < 2 ^ 32
  | _ => True
  end.

Lemma instr_count_untimed evs : instr_count (untimed <$> evs) = instr_count evs.
Proof.
  unfold instr_count. f_equal. induction evs as [|ev evs IH]; [done|]. rewrite fmap_cons.
  rewrite !filter_cons. unfold is_instr at 1 3. cbn [te_memaddr untimed].
  destruct (decide _); cbn [length]; by rewrite ?IH.
Qed.

Lemma instr_count_recorded stops :
  m_ipMap p = None -> instr_count (recorded stops).*1 = steps stops.
Proof.
  intros Hm. unfold steps, recorded. induction stops as [|s stops IH]; [done|].
  cbn [omap list_omap]. rewrite filter_cons.
  destruct s as [m|ev m|m]; cbn [event_of is_step]; rewrite ?Hm; cbn [map_excludes orb].
  - rewrite fmap_cons, instr_count_cons. cbn [fst te_memaddr]. unfold list_omap, omap in *.
    rewrite IH, decide_True by done. cbn [length]. lia.
  - rewrite decide_False by done. destruct (map_excludes _ _ _); [done|].
    rewrite fmap_cons, instr_count_cons. cbn [fst te_memaddr]. unfold list_omap, omap in *. lia.
  - by rewrite decide_False.
Qed.

Lemma recorded_valid stops :
  Forall fits stops -> Forall valid_event (recorded stops).*1.
Proof.
  intros Hf. apply Forall_fmap, Forall_forall. intros [e t] He.
  apply list_elem_of_omap in He as (s & Hs & He). rewrite Forall_forall in Hf. specialize (Hf s Hs).
  destruct s as [m|ev m|m]; cbn [event_of fits] in *; [| |done].
  - destruct (map_excludes _ _ _); [done|]. injection He as <- <-. by split.
  - destruct (_ || _); [done|]. injection He as <- <-. split; [|done].
    cbn [te_memaddr te_width fst]. intros a [= <-]. rewrite u32_small by lia. lia.
Qed.

Lemma traced_valid seen r : Forall fits seen -> traced seen r -> Forall valid_event (written r).
Proof.
  intros Hf [_ _ He _ _ Hd]. pose proof (recorded_valid seen Hf) as Hv.
  rewrite <- He, Forall_fmap in Hv. rewrite Forall_forall in *.
  intros ev Hin. destruct (Hv ev Hin) as [Ha _]. split; [exact Ha|].
  intros d Hdd. specialize (Hd ev Hin d Hdd). lia.
Qed.
End tracing.

(** ** Theorems *)

(** A trace tells what happened and when.  While only registered listeners trigger and
    the clock does not run backwards, tracing goes on for every run: the trace holds the
    instructions and accesses the address maps admit, in order and with their data
    (starting with the current instruction when instructions are traced); summing up
    the stored deltas gives the exact time of each; zero deltas are not stored and none
    is negative; and both listeners are registered again after every event. *)
Theorem trace_faithful `{SalConfig} {S : Type} `{!IntervalSet S} {M : Type} `{!TraceMachine M}
    (p : TracingPlugin S) (m0 : M) (stops : list (Stop M)) :
  m_protoStreamFile p = true -> Forall (allowed p) stops ->
  clock_from 0 (all_stops p m0 stops) ->
  exists r, run p m0 stops = Some r
    /\ untimed <$> written r = (recorded p (all_stops p m0 stops)).*1
    /\ abs_times 0 (written r) = (recorded p (all_stops p m0 stops)).*2
    /\ Forall (fun ev => forall d, te_time_delta ev = Some d -> 0 < d) (written r)
    /\ step_registered r = traces_ip p /\ mem_registered r = traces_mem p.
Proof.
  intros Hf Ha Hc. destruct (run_all_traced p m0 stops Hf Ha Hc) as (r & E & [H1 H2 H3 H4 _ H6]).
  exists r. by split_and!.
Qed.

(** C18. From a run to its fault space: a run is traced to a file, the file is read back
    and imported.  What is read are the recorded events, and the table partitions the
    fault space of the run: for every byte of it each of the run's instructions (the
    first one and one per single step) belongs to exactly one row. *)
Theorem traced_run_partitioned `{SalConfig} {S : Type} `{!IntervalSet S, !IntervalSetLaws S}
    {M : Type} `{!TraceMachine M} (p : TracingPlugin S) (m0 : M) (stops : list (Stop M))
    (serialize : Trace_Event -> list Z) (parse : list Z -> bool * Trace_Event)
    (accepts : Row -> bool) (opt : Options S) ev0 :
  (forall r, run p m0 stops = Some r -> Forall (encodable serialize parse) (written r)) ->
  m_protoStreamFile p = true -> traces_ip p = true -> m_ipMap p = None ->
  Forall (allowed p) stops -> clock_from 0 (all_stops p m0 stops) -> Forall fits stops ->
  1 + steps stops < 2 ^ 32 ->
  (forall r, accepts r = true) -> m_import_write_ecs opt = true -> 32 <= addr_bits ->
  Forall (fun a => 0 <= a < 2 ^ 32) (mm_space opt) ->
  exists r ok s, run p m0 stops = Some r
    /\ let evs := read_all parse ev0
         (open_in (o_bytes (writeMessages serialize (written r) (mkOut [] None false)))) in
       untimed <$> evs = (recorded p (all_stops p m0 stops)).*1
       /\ import accepts opt evs = Some (ok, s)
       /\ (forall a i, in_space opt evs a -> 0 <= i < 1 + steps stops ->
             exists r, filter (covers instr1 instr2 i) (rows_at a (trace s)) = [r])
       /\ (forall r, r ∈ trace s -> instr2 r < 1 + steps stops).
Proof.
  intros Hps Hf Hip Hm Ha Hc Hfit Hn Hacc Hw Hb Hmm.
  destruct (run_all_traced p m0 stops Hf Ha Hc) as (r & E & Htr).
  assert (Forall fits (all_stops p m0 stops)) as Hfits
    by (unfold all_stops; rewrite Hip; by constructor).
  assert (instr_count (written r) = 1 + steps stops) as Hcount.
  { rewrite <- instr_count_untimed, (traced_events _ _ _ Htr), instr_count_recorded by done.
    unfold all_stops. rewrite Hip. unfold steps. cbn [app]. rewrite filter_cons_True by done.
    cbn [length]. lia. }
  assert (0 <= steps stops) by (unfold steps; lia).
  destruct (import_table accepts opt False (fun _ => 0) Hacc Hw Hb (written r))
    as (s & Ei & _ & Hsp & Hch & _); [by eapply traced_valid|lia|done|done|].
  exists r. eexists. exists s. split; [exact E|]. cbv zeta.
  rewrite writeMessages_frames. cbn [o_bytes app].
  rewrite read_all_frames by (by apply Hps). split; [apply Htr|]. split; [exact Ei|]. split.
  - intros a i Hin Hi. apply (chain_covers _ _ _ 0 (instr_count (written r) - 1)); [by apply Hch|lia].
  - intros row Hr. destruct (chain_bounds _ _ _ _ _ row (Hch _ (Hsp row Hr)))
      as (? & ? & ?); [by apply list_elem_of_filter|]. lia.
Qed.

(** The statistics of [dump-trace] on a trace that does not overflow its counters. *)
Lemma dump_trace_counts b evs :
  Z.of_nat (length evs) < 2 ^ 64 -> Forall (fun ev => forall d, te_time_delta ev = Some d -> 0 < d) evs ->
  end_time 0 evs < 2 ^ 64 ->
  stats_instr (dump_trace b evs) = instr_count evs /\ acctime (dump_trace b evs) = end_time 0 evs
  /\ stats_reads (dump_trace b evs) + stats_writes (dump_trace b evs)
     = Z.of_nat (length evs) - instr_count evs
  /\ 0 <= stats_reads (dump_trace b evs) /\ 0 <= stats_writes (dump_trace b evs)
  /\ 0 <= end_time 0 evs.
Proof.
  unfold dump_trace. induction evs as [|ev evs IH] using rev_ind; [intros; split_and!; done|].
  intros Hl Hd He. rewrite length_app in *. cbn [length] in *.
  apply Forall_app in Hd as [Hd Hde]. apply Forall_inv in Hde.
  rewrite end_time_snoc in *. rewrite fold_left_app. cbn [fold_left].
  assert (0 <= default 0 (te_time_delta ev)) as H0.
  { destruct (te_time_delta ev) as [d|]; cbn; [specialize (Hde d eq_refl)|]; lia. }
  destruct IH as (IH1 & IH2 & IH3 & IH4 & IH5 & IH6); [lia|done|lia|].
  set (s := fold_left _ evs no_stats) in *. clearbody s.
  assert (0 <= instr_count evs) by (unfold instr_count; lia).
  assert (instr_count (evs ++ [ev])
    = instr_count evs + match te_memaddr ev with Some _ => 0 | None => 1 end) as ->.
  { unfold instr_count. rewrite filter_app, length_app, filter_cons, filter_nil.
    destruct (te_memaddr ev) eqn:Em;
      [rewrite decide_False|rewrite decide_True]; try (unfold is_instr; by rewrite Em);
      cbn [length]; lia. }
  assert (u64 (acctime s + u64 (default 0 (te_time_delta ev))) = acctime s + default 0 (te_time_delta ev)) as Hu
    by (rewrite (u64_small (default _ _)), u64_small by lia; done).
  unfold dump_event.
  destruct (te_time_delta ev) as [d|]; destruct (te_memaddr ev) as [a|];
    try destruct (decide (te_accesstype ev = READ));
    cbn [default from_option id acctime stats_instr stats_reads stats_writes] in *;
    rewrite ?Hu, ?u64_small by lia; split_and!; lia.
Qed.

(** ** A concrete run *)

Module TracingDemo.
Import ListSet.
#[local] Existing Instance sal_32.

(** A machine is its instruction pointer and its clock. *)
#[local] Instance demo_machine : TraceMachine (Z * Z) := {|
  tm_instruction_pointer := fst; tm_ticks := snd; tm_register _ _ := 0;
  tm_isMapped _ _ := false; tm_getByte _ _ := 0 |}.

Definition plugin : TracingPlugin (list Z) :=
  setTraceFile true (restrictMemoryAddresses (Some [100; 101; 102]) (new_TracingPlugin false [])).

(** Three instructions; the second writes two bytes, the third one outside the map. *)
Definition stops : list (Stop (Z * Z)) :=
  [StepStop (1004, 6); MemStop (mkMemAccessEvent None 101 2 1004 MEM_WRITE) (1004, 6);
   StepStop (1008, 9); MemStop (mkMemAccessEvent None 200 1 1008 MEM_READ) (1008, 9)].

Definition opt : Options (list Z) := mkOptions 1 (Some [100; 101; 102]) WRITE true true false [].

(** Events without extension as six numbers. *)
Definition code (o : option Z) : list Z := match o with Some x => [1; x] | None => [0; 0] end.
Definition uncode (b x : Z) : option Z := if b =? 1 then Some x else None.
Definition encode_event (ev : Trace_Event) : list Z :=
  [te_ip ev] ++ code (te_time_delta ev) ++ code (te_memaddr ev)
  ++ [te_width ev; if decide (te_accesstype ev = READ) then 0 else 1].
Definition decode_event (l : list Z) : bool * Trace_Event :=
  match l with
  | [ip; d1; d2; a1; a2; w; t] =>
      (true, mkTE ip (uncode d1 d2) (uncode a1 a2) w (if t =? 0 then READ else WRITE) None)
  | _ => (false, no_event)
  end.

Definition trace_file : list Z :=
  match run plugin (1000, 5) stops with
  | Some r => o_bytes (writeMessages encode_event (written r) (mkOut [] None false))
  | None => []
  end.

Lemma trace_faithful_witness :
  exists r, run plugin (1000, 5) stops = Some r /\ abs_times 0 (written r) = [5; 6; 6; 9].
Proof.
  destruct (trace_faithful plugin (1000, 5) stops) as (r & E & _ & Ht & _).
  - reflexivity.
  - repeat constructor.
  - vm_compute. intuition congruence.
  - exists r. split; [exact E|]. rewrite Ht. vm_compute. reflexivity.
Defined.

Lemma traced_run_partitioned_witness :
  exists s, import (fun _ => true) opt (read_all decode_event no_event (open_in trace_file))
      = Some (true, s)
    /\ exists row, filter (covers instr1 instr2 2) (rows_at 101 (trace s)) = [row].
Proof.
  destruct (traced_run_partitioned plugin (1000, 5) stops encode_event decode_event
    (fun _ => true) opt no_event) as (r & ok & s & E & _ & Hi & Hp & _).
  - intros r E. vm_compute in E. injection E as <-. repeat constructor.
  - reflexivity.
  - reflexivity.
  - reflexivity.
  - repeat constructor.
  - vm_compute. intuition congruence.
  - repeat (apply List.Forall_cons; [cbn; lia|]). apply List.Forall_nil.
  - vm_compute. reflexivity.
  - reflexivity.
  - reflexivity.
  - vm_compute. intuition congruence.
  - assert (mm_space opt = [100; 101; 102]) as -> by (vm_compute; reflexivity).
    repeat (apply List.Forall_cons; [lia|]). apply List.Forall_nil.
  - exists s.
    assert (o_bytes (writeMessages encode_event (written r) (mkOut [] None false)) = trace_file)
      as Hfile by (unfold trace_file; by rewrite E).
    rewrite Hfile in Hi, Hp. split.
    + rewrite Hi. do 2 f_equal. vm_compute in Hi. by injection Hi.
    + apply (Hp 101 2); [|vm_compute; split; congruence].
      right. assert (mm_space opt = [100; 101; 102]) as -> by (vm_compute; reflexivity).
      right. left.
Defined.
End TracingDemo.
