(* ===== verification/ProtobufAdapter.v ===== *)
(** * Result messages in the database

    [src/core/util/DatabaseProtobufAdapter.{hpp,cc}] and [util/StringJoiner.hpp]:
    a message type is turned into a table (one column per field, nested messages
    flattened), a message into rows, one per element of the innermost repeated
    message.

    Descriptors, reflection and the MySQL API belong to libraries: a descriptor is
    the tree of its fields, a message holds one value per field of its
    descriptor.  A type bridge is named by its path of field numbers from the root,
    which stands for its address in comparisons.  [None] of a computation is an
    access to an element that does not exist or to a field of another type. *)
From S2P Require Import Prelude.

(** ** [StringJoiner] *)

Definition join (sep : string) (l : list string) : string :=
  match l with
  | [] => ""
  | x :: l => fold_left (fun acc y => acc +:+ sep +:+ y) l x
  end.

Definition joiner_push_back (x : string) (l : list string) : list string :=
  if decide (x = "") then l else l ++ [x].

(** ** Descriptors, messages and type bridges *)

Inductive Label := l_optional | l_required | l_repeated.

#[export] Instance Label_eq_dec : EqDecision Label.
Proof. solve_decision. Defined.

Inductive Scalar :=
  | S_int32 | S_uint32 | S_int64 | S_uint64 | S_double | S_float | S_bool
  | S_enum (values : list string) | S_string.

Inductive CppType :=
  | CPP_SCALAR (s : Scalar)
  | CPP_MESSAGE (fields : list FieldDescriptor)
  | CPP_UNSUPPORTED
with FieldDescriptor :=
  | mkField (name : string) (label : Label) (type : CppType) (sql_ignore sql_primary_key : bool).

(** [V_absent] is a field that is not set; numbers of floating-point type are their
    bit patterns. *)
Inductive Value := V_num (z : Z) | V_bool (b : bool) | V_text (s : string).

Inductive Message := Msg (fields : list FieldValue)
with FieldValue :=
  | V_absent
  | V_plain (v : Value)
  | V_many (vs : list Value)
  | V_sub (m : Message)
  | V_subs (ms : list Message).

Definition msg_fields (m : Message) : list FieldValue := match m with Msg fs => fs end.

(** [TypeBridge] and its subclasses; [idx] is the field ([desc]). *)
Inductive TypeBridge :=
  | B_scalar (idx : nat) (name : string) (required : bool) (s : Scalar)
  | B_repeated (idx : nat) (name : string) (inner : Scalar)
  | B_message (idx : nat) (repeated : bool) (types : list TypeBridge) (field_count : Z).

Definition element_size (s : Scalar) : Z :=
  match s with
  | S_int32 | S_uint32 | S_float => 4
  | S_int64 | S_uint64 | S_double => 8
  | S_bool => 1
  | S_enum _ | S_string => 0
  end.

Definition enum_sql_type (values : list string) : string :=
  "ENUM (" +:+ join ", " ((fun v => "'" +:+ v +:+ "'") <$> values) +:+ ")".

Definition sql_type (s : Scalar) : string :=
  match s with
  | S_int32 => "INT" | S_uint32 => "INT UNSIGNED" | S_int64 => "BIGINT"
  | S_uint64 => "BIGINT UNSIGNED" | S_double => "DOUBLE" | S_float => "FLOAT"
  | S_bool => "TINYINT" | S_enum vs => enum_sql_type vs | S_string => "TEXT"
  end.

(** A message's statement joins those of its fields, also empty ones. *)
Fixpoint sql_create_stmt (b : TypeBridge) : string :=
  match b with
  | B_scalar _ name req s => name +:+ " " +:+ sql_type s +:+ (if req then " NOT NULL" else "")
  | B_repeated _ name _ => name +:+ " blob"
  | B_message _ _ types _ => join ", " (sql_create_stmt <$> types)
  end.

(** ** [gatherTypes]

    [exit] codes are the left of a sum.  Threaded through: the top-level bridge's
    [repeated_message_stack], columns of the insert statement, primary key. *)

Definition Path : Type := list nat.

Record Gather := mkGather {
  repeated_message_stack : list Path;
  insert_columns : list string;
  primary_key : list string
}.

Definition Exits (A : Type) : Type := (Z + A)%type.
Definition gbind {A B} (x : Exits A) (f : A -> Exits B) : Exits B :=
  match x with inl e => inl e | inr a => f a end.
Notation "'let*' x := e1 'in' e2" := (gbind e1 (fun x => e2))
  (at level 10, x pattern, e1 at level 100, e2 at level 200) : fail_scope.

Definition stack_back (l : list Path) : option Path := last l.

(** [while (back != 0 && p->parent != back && p->parent != 0) p = p->parent]. *)
Fixpoint climb (fuel : nat) (back p : Path) : Path :=
  match fuel with
  | O => p
  | S fuel =>
      if decide (p = []) then p
      else if decide (removelast p = back) then p else climb fuel back (removelast p)
  end.

(** [while (1)]: push bridges until the new one is on top. *)
Fixpoint push_repeated (fuel : nat) (bridge : Path) (stack : list Path) : list Path :=
  match fuel with
  | O => stack
  | S fuel =>
      match stack_back stack with
      | Some back =>
          if decide (back = bridge) then stack
          else push_repeated fuel bridge (stack ++ [climb (length bridge) back bridge])
      | None => stack
      end
  end.

Definition can_be_repeated (s : Scalar) : bool :=
  match s with S_enum _ | S_string => false | _ => true end.

(** One field of the message at [this]; its bridge is at [this ++ [i]]. *)
Fixpoint gather_field (this : Path) (i : nat) (f : FieldDescriptor) (st : Gather) {struct f}
      : Exits (list TypeBridge * Z * Gather) :=
  match f with
  | mkField name label type sql_ignore sql_primary_key =>
      if sql_ignore then inr ([], 0, st) else
      match type with
      | CPP_SCALAR s =>
          if bool_decide (label = l_repeated) && negb (can_be_repeated s) then inl (-1) else
          let bridge := if decide (label = l_repeated) then B_repeated i name s
                        else B_scalar i name (bool_decide (label = l_required)) s in
          inr ([bridge], 1,
               mkGather (repeated_message_stack st)
                 (joiner_push_back name (insert_columns st))
                 (if sql_primary_key then joiner_push_back name (primary_key st)
                  else primary_key st))
      | CPP_MESSAGE fields =>
          let repeated := bool_decide (label = l_repeated) in
          if repeated && negb (bool_decide (stack_back (repeated_message_stack st) = Some this))
          then inl 0
          else if decide (label = l_optional) then inl (-1) else
          let bridge := this ++ [i] in
          let stack := if repeated
                       then push_repeated (S (length bridge)) bridge (repeated_message_stack st)
                       else repeated_message_stack st in
          let* (types, n, st) :=
            (fix gather (j : nat) (fs : list FieldDescriptor) (st : Gather)
                   : Exits (list TypeBridge * Z * Gather) :=
               match fs with
               | [] => inr ([], 0, st)
               | f :: fs =>
                   let* (b, n, st) := gather_field bridge j f st in
                   let* (bs, k, st) := gather (S j) fs st in
                   inr (b ++ bs, n + k, st)
               end) 0%nat fields (mkGather stack (insert_columns st) (primary_key st)) in
          inr ([B_message i repeated types n], n, st)
      | CPP_UNSUPPORTED => inl (-1)
      end
  end.

(** The fields of the message at [this], from number [j] on. *)
Fixpoint gather_fields (this : Path) (j : nat) (fs : list FieldDescriptor) (st : Gather)
      : Exits (list TypeBridge * Z * Gather) :=
  match fs with
  | [] => inr ([], 0, st)
  | f :: fs =>
      let* (b, n, st) := gather_field this j f st in
      let* (bs, k, st) := gather_fields this (S j) fs st in
      inr (b ++ bs, n + k, st)
  end.

(** The adapter after [create_table], with the two statements. *)
Record Adapter := mkAdapter {
  top_types : list TypeBridge;
  top_field_count : Z;
  top_stack : list Path;
  create_table_stmt : string;
  insert_stmt : string
}.

Definition create_table (name : string) (fields : list FieldDescriptor) : Exits Adapter :=
  let result_table_name := "result_" +:+ name in
  let* (types, n, st) := gather_fields [] 0 fields (mkGather [[]] [] []) in
  inr (mkAdapter types n (repeated_message_stack st)
    ("CREATE TABLE IF NOT EXISTS " +:+ result_table_name +:+ "("
     +:+ join ", " (sql_create_stmt <$> types)
     +:+ ", PRIMARY KEY(" +:+ join ", " (primary_key st) +:+ ")) ENGINE=MyISAM")
    ("INSERT INTO " +:+ result_table_name +:+ "(" +:+ join "," (insert_columns st)
     +:+ ") VALUES (" +:+ join "," (replicate (Z.to_nat n) "?") +:+ ")")).

(** ** Binding a row *)

(** What a [MYSQL_BIND] says. *)
Inductive Cell :=
  | C_null
  | C_number (bytes : Z) (is_unsigned : bool) (z : Z)
  | C_float (z : Z) | C_double (z : Z)
  | C_string (s : string)
  | C_blob (bytes : list Z).

Definition bind_scalar (s : Scalar) (v : FieldValue) : option Cell :=
  match v with
  | V_absent => Some C_null
  | V_plain v =>
      match s, v with
      | S_int32, V_num z => Some (C_number 4 false z)
      | S_uint32, V_num z => Some (C_number 4 true z)
      | S_int64, V_num z => Some (C_number 8 false z)
      | S_uint64, V_num z => Some (C_number 8 true z)
      | S_double, V_num z => Some (C_double z)
      | S_float, V_num z => Some (C_float z)
      | S_bool, V_bool b => Some (C_number 1 true (if b then 1 else 0))
      | S_enum _, V_text t | S_string, V_text t => Some (C_string t)
      | _, _ => None
      end
  | _ => None
  end.

Fixpoint le_bytes (n : nat) (z : Z) : list Z :=
  match n with O => [] | S n => z mod 256 :: le_bytes n (z / 256) end.

(** [copy_to]: numbers in the host's order, truth values as characters. *)
Definition copy_to (s : Scalar) (v : Value) : option (list Z) :=
  match s, v with
  | S_bool, V_bool b => Some [if b then 49 else 48]
  | (S_int32 | S_uint32 | S_float), V_num z => Some (le_bytes 4 (u32 z))
  | (S_int64 | S_uint64 | S_double), V_num z => Some (le_bytes 8 (u64 z))
  | _, _ => None
  end.

Definition bind_repeated (s : Scalar) (v : FieldValue) : option Cell :=
  match v with
  | V_absent | V_many [] => Some C_null
  | V_many vs => bs ← mapM (copy_to s) vs; Some (C_blob (concat bs))
  | _ => None
  end.

(** [GetRepeatedMessage] and [GetMessage]. *)
Definition get_sub (repeated : bool) (msg : Message) (idx sel : nat) : option Message :=
  match msg_fields msg !! idx with
  | Some (V_subs ms) => if repeated then ms !! sel else None
  | Some (V_sub m) => if repeated then None else Some m
  | _ => None
  end.

(** [TypeBridge_message::bind] for the bridge at nesting level [level]. *)
Fixpoint bind_bridge (selector : list nat) (level : nat) (msg : Message) (b : TypeBridge)
    {struct b} : option (list Cell) :=
  match b with
  | B_scalar idx _ _ s => v ← msg_fields msg !! idx; c ← bind_scalar s v; Some [c]
  | B_repeated idx _ s => v ← msg_fields msg !! idx; c ← bind_repeated s v; Some [c]
  | B_message idx repeated types _ =>
      sel ← (if repeated then selector !! S level else Some 0%nat);
      inner ← get_sub repeated msg idx sel;
      cs ← mapM (bind_bridge selector (S level) inner) types;
      Some (concat cs)
  end.

Definition bind_row (a : Adapter) (selector : list nat) (msg : Message) : option (list Cell) :=
  cs ← mapM (bind_bridge selector 0 msg) (top_types a); Some (concat cs).

(** ** [insert_row] *)

(** Field number of a bridge on the stack, in its parent. *)
Definition stack_field (p : Path) : nat := default 0%nat (last p).

(** [FieldSize] of a repeated message field. *)
Definition field_size (msg : Message) (idx : nat) : option nat :=
  match msg_fields msg !! idx with
  | Some (V_subs ms) => Some (length ms)
  | Some V_absent => Some 0%nat
  | _ => None
  end.

(** The walk of [field_size_at_pos] along the stack's entries 1, 2, ... *)
Fixpoint size_walk (stack : list Path) (selector : list nat) (i pos : nat) (msg : Message)
    : option nat :=
  match stack with
  | [] => None
  | p :: stack =>
      if decide (i = pos) then field_size msg (stack_field p)
      else sel ← selector !! i;
           inner ← get_sub true msg (stack_field p) sel;
           size_walk stack selector (S i) pos inner
  end.

Definition field_size_at_pos (a : Adapter) (msg : Message) (selector : list nat) (pos : nat)
    : option nat :=
  if (length (top_stack a) <=? 1)%nat then Some 1%nat
  else size_walk (tail (top_stack a)) selector 1 pos msg.

(** [selector[i]++]. *)
Definition bump (i : nat) (selector : list nat) : list nat := alter S i selector.

(** The carry loop; the result is the final [i] with the selector. *)
Fixpoint carry (a : Adapter) (msg : Message) (i : nat) (selector : list nat)
    : option (nat * list nat) :=
  match i with
  | O => Some (0%nat, selector)
  | S i' =>
      size ← field_size_at_pos a msg selector i;
      cur ← selector !! i;
      if (size <=? cur)%nat
      then carry a msg i' (bump i' (<[i := 0%nat]> selector))
      else Some (i, selector)
  end.

Definition next_selector (a : Adapter) (msg : Message) (selector : list nat)
    : option (nat * list nat) :=
  let i := (length selector - 1)%nat in carry a msg i (bump i selector).

(** [insert_row]: the rows handed to the database, and whether binding worked; a row
    that the database refuses is only logged.  [bind_ok] is [mysql_stmt_bind_param]. *)
Fixpoint insert_rows (fuel : nat) (bind_ok : list Cell -> bool) (a : Adapter) (msg : Message)
    (selector : list nat) : option (bool * list (list Cell)) :=
  match fuel with
  | O => None
  | S fuel =>
      row ← bind_row a selector msg;
      if negb (bind_ok row) then Some (false, []) else
      '(i, selector) ← next_selector a msg selector;
      if decide (i = 0%nat) then Some (true, [row])
      else '(ok, rows) ← insert_rows fuel bind_ok a msg selector; Some (ok, row :: rows)
  end.

Definition insert_row (fuel : nat) (bind_ok : list Cell -> bool) (a : Adapter) (msg : Message)
    : option (bool * list (list Cell)) :=
  insert_rows fuel bind_ok a msg (replicate (length (top_stack a)) 0%nat).
