(* ===== verification/AdapterTheorems.v ===== *)
(** * Theorems on result rows

    Which rows [insert_row] of [ProtobufAdapter] produces for a message, and that
    the table's statements fit them. *)
From S2P Require Import Prelude ProtobufAdapter.

(** ** Induction on descriptors *)

Section descriptor_ind.
Context (P : FieldDescriptor -> Prop).
Context (Hscalar : forall n l s i p, P (mkField n l (CPP_SCALAR s) i p)).
Context (Hmessage : forall n l fs i p, Forall P fs -> P (mkField n l (CPP_MESSAGE fs) i p)).
Context (Hother : forall n l i p, P (mkField n l CPP_UNSUPPORTED i p)).

Fixpoint descriptor_ind (f : FieldDescriptor) : P f :=
  match f with
  | mkField n l (CPP_SCALAR s) i p => Hscalar n l s i p
  | mkField n l (CPP_MESSAGE fs) i p =>
      Hmessage n l fs i p
        ((fix go (fs : list FieldDescriptor) : Forall P fs :=
            match fs with
            | [] => List.Forall_nil P
            | f :: fs => List.Forall_cons P f fs (descriptor_ind f) (go fs)
            end) fs)
  | mkField n l CPP_UNSUPPORTED i p => Hother n l i p
  end.
End descriptor_ind.

Section bridge_ind.
Context (P : TypeBridge -> Prop).
Context (Hscalar : forall i n r s, P (B_scalar i n r s)).
Context (Hrepeated : forall i n s, P (B_repeated i n s)).
Context (Hmessage : forall i r ts n, Forall P ts -> P (B_message i r ts n)).

Fixpoint bridge_ind (b : TypeBridge) : P b :=
  match b with
  | B_scalar i n r s => Hscalar i n r s
  | B_repeated i n s => Hrepeated i n s
  | B_message i r ts n =>
      Hmessage i r ts n
        ((fix go (ts : list TypeBridge) : Forall P ts :=
            match ts with
            | [] => List.Forall_nil P
            | t :: ts => List.Forall_cons P t ts (bridge_ind t) (go ts)
            end) ts)
  end.
End bridge_ind.

(** ** The rows of a message

    [ch] are the field numbers of the repeated messages, outermost first. *)

Definition zeros (ch : list nat) : list nat := replicate (length ch) 0%nat.

(** Every repeated message on the way has an element. *)
Fixpoint full (ch : list nat) (msg : Message) : Prop :=
  match ch with
  | [] => True
  | i :: ch => exists ms, msg_fields msg !! i = Some (V_subs ms) /\ ms <> [] /\ Forall (full ch) ms
  end.

(** The innermost elements, as their positions along [ch], in order. *)
Fixpoint leaves (ch : list nat) (msg : Message) : list (list nat) :=
  match ch with
  | [] => [[]]
  | i :: ch =>
      match msg_fields msg !! i with
      | Some (V_subs ms) => concat (imap (fun j m => cons j <$> leaves ch m) ms)
      | _ => []
      end
  end.

(** The next position, if there is one. *)
Fixpoint incr (ch : list nat) (msg : Message) (sel : list nat) : option (list nat) :=
  match ch, sel with
  | i :: ch, s :: sel =>
      match msg_fields msg !! i with
      | Some (V_subs ms) =>
          match ms !! s with
          | Some inner =>
              match incr ch inner sel with
              | Some sel' => Some (s :: sel')
              | None => if (S s <? length ms)%nat then Some (S s :: zeros ch) else None
              end
          | None => None
          end
      | _ => None
      end
  | _, _ => None
  end.

(** [l] lists what [inc] visits, until it has no successor. *)
Fixpoint linked {A} (inc : A -> option A) (l : list A) : Prop :=
  match l with
  | [] => False
  | [a] => inc a = None
  | a :: (b :: _) as l' => inc a = Some b /\ linked inc l'
  end.

(** A block of positions behind a fixed [j], followed by the rest. *)
Lemma linked_block {A} (inc : A -> option A) (inc' : list nat -> option (list nat)) f l rest nxt :
  linked inc' l ->
  (forall a b, inc' a = Some b -> inc (f a) = Some (f b)) ->
  (forall a, a ∈ l -> inc' a = None -> inc (f a) = nxt) ->
  nxt = head rest -> (rest = [] \/ linked inc rest) ->
  linked inc ((f <$> l) ++ rest).
Proof.
  intros Hl Hs Hn -> Hr. induction l as [|a l IH]; [done|]. destruct l as [|b l].
  - cbn [linked fmap list_fmap app] in *. specialize (Hn a ltac:(left) Hl).
    destruct rest as [|c rest]; [exact Hn|]. split; [exact Hn|]. by destruct Hr.
  - destruct Hl as [Hab Hl]. cbn [fmap list_fmap app] in *. split; [by apply Hs|].
    apply IH; [done|]. intros c Hc. apply Hn. by right.
Qed.

Lemma leaves_linked ch : forall msg,
  full ch msg -> linked (incr ch msg) (leaves ch msg) /\ head (leaves ch msg) = Some (zeros ch).
Proof.
  induction ch as [|i ch IH]; intros msg Hf; [done|].
  destruct Hf as (ms & Hi & Hne & Hms). cbn [leaves]. rewrite Hi.
  assert (forall rest o, drop o ms = rest -> rest <> [] ->
    linked (incr (i :: ch) msg) (concat (imap (fun j m => cons (o + j)%nat <$> leaves ch m) rest))
    /\ head (concat (imap (fun j m => cons (o + j)%nat <$> leaves ch m) rest))
       = Some (o :: zeros ch)) as H.
  { induction rest as [|m rest IHr]; intros o Ho Hr; [done|].
    assert (ms !! o = Some m) as Hm by (rewrite <- (Nat.add_0_r o), <- lookup_drop, Ho; done).
    rewrite Forall_forall in Hms.
    destruct (IH m (Hms m ltac:(by eapply list_elem_of_lookup_2))) as [Hl Hh].
    assert (length ms = (o + S (length rest))%nat) as Hlen.
    { pose proof (f_equal length Ho) as E. rewrite length_drop in E. cbn in E. lia. }
    specialize (IHr (S o)). rewrite <- Nat.add_1_r, <- drop_drop, Ho in IHr.
    specialize (IHr eq_refl).
    rewrite imap_cons, Nat.add_0_r. cbn [concat].
    set (R := concat (imap ((fun j m => cons (o + j)%nat <$> leaves ch m) ∘ S) rest)).
    assert (R = concat (imap (fun j m => cons (o + 1 + j)%nat <$> leaves ch m) rest)) as HR.
    { subst R. f_equal. apply imap_ext. intros j x _. cbn. by rewrite <- Nat.add_assoc. }
    rewrite <- HR in IHr. assert (rest = [] -> R = []) as HR0 by (by intros ->).
    clearbody R. clear HR.
    split.
    - apply (linked_block _ (incr ch m) _ _ _ (head R)); [exact Hl| | |done|].
      + intros a b Hab. cbn [incr]. by rewrite Hi, Hm, Hab.
      + intros a _ Ha. cbn [incr]. rewrite Hi, Hm, Ha, Hlen. destruct rest as [|m' rest].
        * rewrite (proj2 (Nat.ltb_ge _ _)) by (cbn; lia). by rewrite HR0.
        * rewrite (proj2 (Nat.ltb_lt _ _)) by (cbn; lia).
          destruct (IHr ltac:(done)) as [_ ->]. by rewrite Nat.add_1_r.
      + destruct rest as [|m' rest]; [left; by apply HR0|right; by apply IHr].
    - destruct (leaves ch m) as [|z l]; [done|]. injection Hh as ->. done. }
  exact (H ms 0%nat eq_refl Hne).
Qed.

(** *** The carry loop computes the next position *)

Lemma size_walk_at stack : forall selector i k msg,
  size_walk stack selector i (i + k) msg
  = match k with
    | O => p ← head stack; field_size msg (stack_field p)
    | S k => p ← head stack; sel ← selector !! i; inner ← get_sub true msg (stack_field p) sel;
             size_walk (tail stack) selector (S i) (S i + k) inner
    end.
Proof.
  intros selector i k msg. destruct stack as [|p stack]; [by destruct k|].
  cbn [size_walk head tail mbind option_bind]. destruct k.
  - rewrite decide_True by lia. done.
  - rewrite decide_False by lia. by rewrite Nat.add_succ_comm.
Qed.

(** Following [pre] along the chain. *)
Fixpoint sub_at (ch : list nat) (pre : list nat) (msg : Message) : option Message :=
  match ch, pre with
  | _, [] => Some msg
  | i :: ch, s :: pre => inner ← get_sub true msg i s; sub_at ch pre inner
  | [], _ :: _ => None
  end.

Lemma size_walk_sub pre : forall stack ch0 i ch1 l0 l1 msg m,
  stack_field <$> stack = ch0 ++ i :: ch1 -> length ch0 = length pre ->
  sub_at ch0 pre msg = Some m ->
  size_walk stack (l0 ++ pre ++ l1) (length l0) (length l0 + length pre) msg = field_size m i.
Proof.
  induction pre as [|s pre IH]; intros stack ch0 i ch1 l0 l1 msg m Hst Hlen Hm.
  - destruct ch0; [|done]. destruct stack as [|p stack]; [done|]. injection Hst as Hp _.
    cbn [sub_at] in Hm. injection Hm as ->. rewrite size_walk_at. cbn. by rewrite Hp.
  - destruct ch0 as [|c ch0]; [done|]. destruct stack as [|p stack]; [done|].
    injection Hst as Hp Hst. injection Hlen as Hlen. cbn [sub_at] in Hm.
    apply bind_Some in Hm as (inner & Hs & Hm).
    rewrite size_walk_at. cbn [length head tail mbind option_bind app].
    rewrite list_lookup_middle by done. cbn [mbind option_bind]. rewrite Hp, Hs.
    cbn [mbind option_bind].
    specialize (IH stack ch0 i ch1 (l0 ++ [s]) l1 inner m Hst Hlen Hm).
    rewrite length_app, Nat.add_1_r, <- app_assoc in IH. exact IH.
Qed.

Lemma get_sub_Some m i s inner :
  get_sub true m i s = Some inner ->
  exists ms, msg_fields m !! i = Some (V_subs ms) /\ ms !! s = Some inner.
Proof.
  unfold get_sub. destruct (msg_fields m !! i) as [[]|]; try done. eauto.
Qed.

Lemma sub_at_app chp pre msg i m s inner :
  length chp = length pre -> sub_at chp pre msg = Some m -> get_sub true m i s = Some inner ->
  sub_at (chp ++ [i]) (pre ++ [s]) msg = Some inner.
Proof.
  revert pre msg.
  induction chp as [|c chp IH]; intros [|p pre] msg Hlen Hm Hs; try done.
  - cbn in *. injection Hm as ->. by rewrite Hs.
  - injection Hlen as Hlen. cbn [app sub_at] in *. apply bind_Some in Hm as (x & -> & Hm).
    cbn [mbind option_bind]. by apply IH.
Qed.

Lemma bump_last pre (s : nat) l : bump (length pre) (pre ++ s :: l) = pre ++ S s :: l.
Proof. unfold bump. rewrite alter_app_r_alt by lia. by rewrite Nat.sub_diag. Qed.

Lemma leaves_valid chx : forall m sel, sel ∈ leaves chx m ->
  length sel = length chx /\ is_Some (sub_at chx sel m).
Proof.
  induction chx as [|i chx IH]; intros m sel Hin; cbn [leaves] in Hin.
  - apply list_elem_of_singleton in Hin as ->. by split.
  - destruct (msg_fields m !! i) as [[]|] eqn:Hi; try by apply not_elem_of_nil in Hin.
    apply list_elem_of_In, in_concat in Hin as (l & Hl%list_elem_of_In & Hsel%list_elem_of_In).
    apply elem_of_lookup_imap in Hl as (j & x & -> & Hj).
    apply list_elem_of_fmap in Hsel as (sel' & -> & Hsel).
    destruct (IH x sel' Hsel) as [E Hv]. split; [cbn; by rewrite E|].
    cbn [sub_at]. unfold get_sub. rewrite Hi, Hj. exact Hv.
Qed.

Section rows.
Context (a : Adapter) (ch : list nat) (msg : Message).
Hypothesis stack_chain : stack_field <$> tail (top_stack a) = ch.
Hypothesis stack_length : length (top_stack a) = S (length ch).

Lemma field_size_at_sub d pre chp i ch1 l1 m :
  ch = chp ++ i :: ch1 -> length chp = length pre -> sub_at chp pre msg = Some m ->
  field_size_at_pos a msg (d :: pre ++ l1) (S (length pre)) = field_size m i.
Proof.
  intros Hch Hlen Hm. unfold field_size_at_pos.
  rewrite stack_length, Hch, length_app. cbn [length].
  rewrite (proj2 (Nat.leb_gt _ _)) by lia.
  apply (size_walk_sub pre _ chp i ch1 [d] l1); by rewrite ?stack_chain.
Qed.

Lemma carry_incr sel : forall pre chp ch' m d,
  ch = chp ++ ch' -> length chp = length pre -> sub_at chp pre msg = Some m ->
  length sel = length ch' -> is_Some (sub_at ch' sel m) ->
  let n := (length pre + length sel)%nat in
  match incr ch' m sel with
  | Some sel' =>
      exists i, i <> 0%nat /\ carry a msg n (bump n (d :: pre ++ sel)) = Some (i, d :: pre ++ sel')
  | None =>
      carry a msg n (bump n (d :: pre ++ sel))
      = carry a msg (length pre) (bump (length pre) (d :: pre ++ zeros ch'))
  end.
Proof.
  induction sel as [|s sel IH]; intros pre chp ch' m d Hch Hlen Hm Hsl Hv n; subst n.
  - destruct ch'; [|done]. cbn [incr zeros length replicate]. by rewrite Nat.add_0_r.
  - destruct ch' as [|i ch']; [done|]. cbn [sub_at] in Hv.
    destruct (get_sub true m i s) as [inner|] eqn:Hs; [|by destruct Hv].
    cbn [mbind option_bind] in Hv. injection Hsl as Hsl.
    destruct (get_sub_Some _ _ _ _ Hs) as (ms & Hi & Hms).
    specialize (IH (pre ++ [s]) (chp ++ [i]) ch' inner d).
    rewrite <- !app_assoc, !length_app in IH. cbn [app length] in IH.
    specialize (IH Hch ltac:(lia) (sub_at_app _ _ _ _ _ _ _ Hlen Hm Hs) Hsl Hv).
    cbn [incr length]. rewrite Hi, Hms.
    replace (length pre + S (length sel))%nat with (length pre + 1 + length sel)%nat by lia.
    destruct (incr ch' inner sel) as [sel'|]; [by rewrite <- app_assoc in IH|]. cbv zeta in IH. rewrite IH.
    rewrite Nat.add_1_r. cbn [carry zeros length replicate].
    change (d :: pre ++ s :: zeros ch') with ((d :: pre) ++ s :: zeros ch').
    change (S (length pre)) with (length (d :: pre)). rewrite bump_last. cbn [app].
    rewrite (field_size_at_sub d pre chp i ch' _ m Hch Hlen Hm).
    unfold field_size. rewrite Hi. cbn [mbind option_bind].
    rewrite (list_lookup_middle (d :: pre) (zeros ch') (S s)) by done. cbn [mbind option_bind].
    destruct (Nat.ltb_spec (S s) (length ms)).
    + rewrite (proj2 (Nat.leb_gt _ _)) by lia. exists (length (d :: pre)). by split.
    + rewrite (proj2 (Nat.leb_le _ _)) by lia. f_equal. f_equal.
      change (d :: pre ++ S s :: zeros ch') with ((d :: pre) ++ S s :: zeros ch').
      rewrite insert_app_r_alt by lia. by rewrite Nat.sub_diag.
Qed.

Lemma next_selector_incr sel :
  length sel = length ch -> is_Some (sub_at ch sel msg) ->
  match incr ch msg sel with
  | Some sel' => exists i, i <> 0%nat /\ next_selector a msg (0%nat :: sel) = Some (i, 0%nat :: sel')
  | None => exists sel', next_selector a msg (0%nat :: sel) = Some (0%nat, sel')
  end.
Proof.
  intros Hl Hv. pose proof (carry_incr sel [] [] ch msg 0%nat eq_refl eq_refl eq_refl Hl Hv) as H.
  cbv zeta in H. unfold next_selector. cbn [length app] in *.
  replace (S (length sel) - 1)%nat with (length sel) by lia. rewrite Nat.add_0_l in H.
  destruct (incr ch msg sel); [exact H|]. rewrite H. cbn [carry]. eauto.
Qed.

(** The loop inserts one row per leaf. *)
Lemma insert_rows_linked bind_ok l : forall fuel sel rows,
  linked (incr ch msg) (sel :: l) -> (length l < fuel)%nat ->
  Forall (fun s => s ∈ leaves ch msg) (sel :: l) ->
  mapM (fun s => bind_row a (0%nat :: s) msg) (sel :: l) = Some rows ->
  Forall (fun r => bind_ok r = true) rows ->
  insert_rows fuel bind_ok a msg (0%nat :: sel) = Some (true, rows).
Proof.
  induction l as [|s l IH]; intros fuel sel rows Hl Hf Hv Hr Hok;
    (destruct fuel as [|fuel]; [cbn in Hf; lia|]);
    apply Forall_cons in Hv as [Hs Hv]; cbn [mapM] in Hr;
    apply bind_Some in Hr as (row & Hrow & Hr); apply bind_Some in Hr as (rows' & Hrows & Hr);
    injection Hr as <-; apply Forall_cons in Hok as [Hok Hoks];
    destruct (leaves_valid _ _ _ Hs) as [Hlen Hsub];
    pose proof (next_selector_incr sel Hlen Hsub) as Hn;
    cbn [insert_rows]; rewrite Hrow; obind; rewrite Hok; cbn [negb].
  - cbn [linked] in Hl. rewrite Hl in Hn. destruct Hn as (sel' & ->). obind.
    cbn [mapM] in Hrows. injection Hrows as <-. by rewrite decide_True.
  - destruct Hl as [Hl Hl']. rewrite Hl in Hn. destruct Hn as (i & Hi & ->). obind.
    rewrite decide_False by done.
    rewrite (IH fuel s rows' Hl') by (done || (cbn in Hf; lia)). done.
Qed.
End rows.

(** ** What [gatherTypes] builds *)

(** Columns of a bridge: how many, and their names. *)
Fixpoint cells (b : TypeBridge) : nat :=
  match b with
  | B_message _ _ ts _ => foldr (fun t n => cells t + n)%nat 0%nat ts
  | _ => 1
  end.
Definition cells_list (ts : list TypeBridge) : nat := foldr (fun t n => cells t + n)%nat 0%nat ts.

Fixpoint columns (b : TypeBridge) : list string :=
  match b with
  | B_message _ _ ts _ => foldr (fun t l => columns t ++ l) [] ts
  | B_scalar _ n _ _ | B_repeated _ n _ => if decide (n = "") then [] else [n]
  end.
Definition columns_list (ts : list TypeBridge) : list string :=
  foldr (fun t l => columns t ++ l) [] ts.

(** Repeated messages are nested directly in each other, along [ch]. *)
Fixpoint chain_ok (ch : list nat) (b : TypeBridge) : bool :=
  match b with
  | B_message i true ts _ =>
      match ch with j :: ch => (i =? j)%nat && forallb (chain_ok ch) ts | [] => false end
  | B_message _ false ts _ => forallb (chain_ok []) ts
  | _ => true
  end.

(** The stack's entries for [ch], below [this]. *)
Fixpoint paths (this : Path) (ch : list nat) : list Path :=
  match ch with
  | [] => []
  | i :: ch => (this ++ [i]) :: paths (this ++ [i]) ch
  end.

Lemma paths_last ch : forall this stack,
  ch <> [] -> last (stack ++ paths this ch) = Some (this ++ ch).
Proof.
  induction ch as [|i ch IH]; intros this stack Hne; [done|]. cbn [paths].
  rewrite cons_middle, app_assoc. destruct ch as [|j ch].
  - cbn [paths]. rewrite app_nil_r. by rewrite last_snoc.
  - rewrite IH by done. by rewrite <- app_assoc.
Qed.

Lemma paths_fields ch : forall this, stack_field <$> paths this ch = ch.
Proof.
  induction ch as [|i ch IH]; intros this; [done|]. cbn [paths]. rewrite fmap_cons, IH.
  unfold stack_field. by rewrite last_snoc.
Qed.

Lemma length_paths ch : forall this, length (paths this ch) = length ch.
Proof. induction ch; intros; cbn; f_equal; done. Qed.

Lemma chain_ok_nil ch b : chain_ok [] b = true -> chain_ok ch b = true.
Proof. by destruct b as [| |? [] ? ?]. Qed.

Lemma chain_ok_nil_list ch bs : forallb (chain_ok []) bs = true -> forallb (chain_ok ch) bs = true.
Proof.
  rewrite !forallb_forall. intros H b Hb. by apply chain_ok_nil, H.
Qed.

Lemma cells_list_app l1 l2 : cells_list (l1 ++ l2) = (cells_list l1 + cells_list l2)%nat.
Proof.
  induction l1 as [|b l1 IH]; [done|]. cbn [app]. unfold cells_list in *. cbn [foldr].
  rewrite IH. lia.
Qed.

Lemma columns_list_app l1 l2 : columns_list (l1 ++ l2) = columns_list l1 ++ columns_list l2.
Proof.
  induction l1 as [|b l1 IH]; [done|]. cbn [app]. unfold columns_list in *. cbn [foldr].
  by rewrite IH, app_assoc.
Qed.

(** The result of a gathering that started with [b] on top of the stack; [mine] are
    the numbers of the fields it looked at. *)
Record gathered (this b : Path) (mine : nat -> Prop) (st st' : Gather)
    (bs : list TypeBridge) (n : Z) (ch : list nat) : Prop := {
  ga_count : n = Z.of_nat (cells_list bs);
  ga_columns : insert_columns st' = insert_columns st ++ columns_list bs;
  ga_stack : repeated_message_stack st' = repeated_message_stack st ++ paths this ch;
  ga_chain : forallb (chain_ok ch) bs = true;
  ga_mine : forall i ch', ch = i :: ch' ->
    b = this /\ mine i /\ exists ts k, B_message i true ts k ∈ bs;
}.

(** The inner loop of [gather_field] is [gather_fields]. *)
Lemma gather_field_message this i name label fs ign pk st :
  gather_field this i (mkField name label (CPP_MESSAGE fs) ign pk) st
  = if ign then inr ([], 0, st) else
    let repeated := bool_decide (label = l_repeated) in
    if repeated && negb (bool_decide (stack_back (repeated_message_stack st) = Some this))
    then inl 0
    else if decide (label = l_optional) then inl (-1) else
    let bridge := this ++ [i] in
    let stack := if repeated
                 then push_repeated (S (length bridge)) bridge (repeated_message_stack st)
                 else repeated_message_stack st in
    let* (types, n, st) :=
      gather_fields bridge 0 fs (mkGather stack (insert_columns st) (primary_key st)) in
    inr ([B_message i repeated types n], n, st).
Proof.
  cbn [gather_field]. destruct ign; [done|]. cbv zeta.
  destruct (bool_decide (label = l_repeated) && _); [done|].
  destruct (decide (label = l_optional)); [done|]. f_equal.
  generalize (mkGather (if bool_decide (label = l_repeated)
    then push_repeated (S (length (this ++ [i]))) (this ++ [i]) (repeated_message_stack st)
    else repeated_message_stack st) (insert_columns st) (primary_key st)).
  generalize 0%nat. induction fs as [|f fs IH]; intros j s; [done|]. cbn [gather_fields].
  destruct (gather_field (this ++ [i]) j f s) as [|[[b k] s']]; [done|]. cbn [gbind].
  by rewrite IH.
Qed.

Lemma push_repeated_one this i stack :
  stack_back stack = Some this ->
  push_repeated (S (length (this ++ [i]))) (this ++ [i]) stack = stack ++ [this ++ [i]].
Proof.
  intros Hb. rewrite length_app, Nat.add_1_r. cbn [push_repeated length]. rewrite Hb.
  rewrite decide_False by (intros E; apply (f_equal length) in E; rewrite length_app in E; cbn in E; lia).
  rewrite length_app, Nat.add_1_r. cbn [climb]. rewrite decide_False by (by destruct this).
  rewrite decide_True by apply removelast_last.
  unfold stack_back. rewrite last_snoc. by rewrite decide_True.
Qed.

Definition gather_spec (f : FieldDescriptor) : Prop := forall this i st bs n st' b,
  gather_field this i f st = inr (bs, n, st') ->
  last (repeated_message_stack st) = Some b -> ~ (this ++ [i]) `prefix_of` b ->
  exists ch, gathered this b (eq i) st st' bs n ch.

Lemma gather_fields_spec fs : Forall gather_spec fs -> forall this j st bs n st' b,
  gather_fields this j fs st = inr (bs, n, st') ->
  last (repeated_message_stack st) = Some b ->
  (forall k, (j <= k)%nat -> ~ (this ++ [k]) `prefix_of` b) ->
  exists ch, gathered this b (fun k => j <= k)%nat st st' bs n ch.
Proof.
  induction 1 as [|f fs Hf _ IH]; intros this j st bs n st' b E Hb Hpre; cbn [gather_fields] in E.
  { injection E as <- <- <-. exists []. by constructor; cbn; rewrite ?app_nil_r. }
  destruct (gather_field this j f st) as [|[[bs1 n1] st1]] eqn:E1; [done|]. cbn [gbind] in E.
  destruct (gather_fields this (S j) fs st1) as [|[[bs2 n2] st2]] eqn:E2; [done|].
  cbn [gbind] in E. injection E as <- <- <-.
  destruct (Hf this j st bs1 n1 st1 b E1 Hb (Hpre j ltac:(lia))) as (ch1 & [H1 H2 H3 H4 H5]).
  destruct ch1 as [|c ch1].
  - cbn [paths] in H3. rewrite app_nil_r in H3.
    destruct (IH this (S j) st1 bs2 n2 st2 b E2) as (ch2 & [G1 G2 G3 G4 G5]).
    { by rewrite H3. } { intros k Hk. apply Hpre. lia. }
    exists ch2. constructor.
    + rewrite cells_list_app. lia.
    + by rewrite columns_list_app, G2, H2, app_assoc.
    + by rewrite G3, H3.
    + rewrite forallb_app, G4, andb_true_r. by apply chain_ok_nil_list.
    + intros i ch' ->. destruct (G5 i ch' eq_refl) as (? & ? & ts & k & Hin).
      split_and!; [done|lia|]. exists ts, k. set_solver.
  - destruct (H5 c ch1 eq_refl) as (-> & <- & ts & k & Hin).
    destruct (IH this (S j) st1 bs2 n2 st2 (this ++ j :: ch1) E2) as (ch2 & [G1 G2 G3 G4 G5]).
    { rewrite H3. by apply paths_last. }
    { intros k' Hk [l Hl]. rewrite <- app_assoc in Hl. apply app_inv_head in Hl.
      injection Hl as Hl. lia. }
    assert (ch2 = []) as ->.
    { destruct ch2 as [|i ch']; [done|]. destruct (G5 i ch' eq_refl) as (E & _).
      apply (f_equal length) in E. rewrite length_app in E. cbn in E. lia. }
    exists (j :: ch1). constructor.
    + rewrite cells_list_app. lia.
    + by rewrite columns_list_app, G2, H2, app_assoc.
    + rewrite G3, H3. cbn [paths]. by rewrite app_nil_r.
    + rewrite forallb_app, H4. by apply chain_ok_nil_list.
    + intros i ch' [= <- <-]. split_and!; [done|lia|]. exists ts, k. set_solver.
Qed.

Lemma gather_field_spec f : gather_spec f.
Proof.
  induction f as [name label s ign pk|name label fs ign pk IH|name label ign pk] using descriptor_ind;
    intros this i st bs n st' b E Hb Hpre.
  - cbn [gather_field] in E. destruct ign.
    { injection E as <- <- <-. exists []. by constructor; cbn; rewrite ?app_nil_r. }
    destruct (bool_decide (label = l_repeated) && _); [done|]. injection E as <- <- <-.
    exists []. constructor; cbn [paths insert_columns repeated_message_stack]; try done.
    + by destruct (decide _).
    + unfold joiner_push_back. destruct (decide (label = l_repeated)); cbn;
        destruct (decide (name = "")); by rewrite ?app_nil_r.
    + by rewrite app_nil_r.
    + by destruct (decide _).
  - rewrite gather_field_message in E. destruct ign.
    { injection E as <- <- <-. exists []. by constructor; cbn; rewrite ?app_nil_r. }
    cbv zeta in E.
    destruct (bool_decide (label = l_repeated)) eqn:Hrep; cbn [andb] in E.
    + case_bool_decide as Hback; cbn [negb] in E; [|done].
      destruct (decide (label = l_optional)); [done|].
      rewrite push_repeated_one in E by done.
      destruct (gather_fields _ _ _ _) as [|[[ts k] st1]] eqn:E1; [done|]. cbn [gbind] in E.
      injection E as <- <- <-.
      destruct (gather_fields_spec fs IH _ _ _ _ _ _ (this ++ [i]) E1) as (ch & [G1 G2 G3 G4 G5]).
      { cbn. apply last_snoc. }
      { intros k' _ [l Hl]. apply (f_equal length) in Hl. rewrite !length_app in Hl. cbn in Hl. lia. }
      assert (b = this) as -> by (unfold stack_back in Hback; congruence).
      exists (i :: ch). constructor.
      * cbn. rewrite G1. unfold cells_list. lia.
      * cbn. rewrite G2. cbn. by rewrite app_nil_r.
      * rewrite G3. cbn [repeated_message_stack paths]. by rewrite <- app_assoc.
      * cbn. by rewrite Nat.eqb_refl, G4.
      * intros j ch' [= <- <-]. split_and!; [done|done|]. exists ts, k. left.
    + destruct (decide (label = l_optional)); [done|].
      destruct (gather_fields _ _ _ _) as [|[[ts k] st1]] eqn:E1; [done|]. cbn [gbind] in E.
      injection E as <- <- <-.
      destruct (gather_fields_spec fs IH _ _ _ _ _ _ b E1) as (ch & [G1 G2 G3 G4 G5]).
      { done. }
      { intros k' _ Hp. apply Hpre. etrans; [|exact Hp]. by apply prefix_app_r. }
      assert (ch = []) as ->.
      { destruct ch as [|c ch]; [done|]. destruct (G5 c ch eq_refl) as (-> & _). by destruct Hpre. }
      exists []. constructor.
      * cbn. rewrite G1. unfold cells_list. lia.
      * cbn. rewrite G2. cbn. by rewrite app_nil_r.
      * rewrite G3. done.
      * cbn. by rewrite G4.
      * done.
  - cbn in E. destruct ign; [|done]. injection E as <- <- <-.
    exists []. by constructor; cbn; rewrite ?app_nil_r.
Qed.

(** ** The cells of a row *)

(** Descending into messages; [sel] says which elements of repeated ones. *)
Fixpoint row_bridge (sel : list nat) (msg : Message) (b : TypeBridge) {struct b}
    : option (list Cell) :=
  match b with
  | B_scalar idx _ _ s => v ← msg_fields msg !! idx; c ← bind_scalar s v; Some [c]
  | B_repeated idx _ s => v ← msg_fields msg !! idx; c ← bind_repeated s v; Some [c]
  | B_message idx true types _ =>
      s ← head sel;
      inner ← get_sub true msg idx s;
      cs ← mapM (row_bridge (tail sel) inner) types; Some (concat cs)
  | B_message idx false types _ =>
      inner ← get_sub false msg idx 0;
      cs ← mapM (row_bridge [] inner) types; Some (concat cs)
  end.

Definition row_of (a : Adapter) (msg : Message) (leaf : list nat) : option (list Cell) :=
  cs ← mapM (row_bridge leaf msg) (top_types a); Some (concat cs).

Definition chain_of (a : Adapter) : list nat := stack_field <$> tail (top_stack a).

Lemma mapM_ext_in {A B} (f g : A -> option B) l :
  (forall x, x ∈ l -> f x = g x) -> mapM f l = mapM g l.
Proof.
  induction l as [|x l IH]; intros H; [done|]. cbn [mapM]. rewrite H by left.
  rewrite IH; [done|]. intros y Hy. apply H. by right.
Qed.

Lemma bind_bridge_plain b : forall sel level msg,
  chain_ok [] b = true -> bind_bridge sel level msg b = row_bridge [] msg b.
Proof.
  induction b as [| |i [] ts n IH] using bridge_ind; intros sel level msg Hc; try done.
  cbn [bind_bridge row_bridge chain_ok] in *. obind. destruct (get_sub false msg i 0) as [inner|]; [|done].
  obind. rewrite forallb_forall in Hc. rewrite Forall_forall in IH.
  erewrite mapM_ext_in; [done|]. intros t Ht. apply IH; [done|]. by apply Hc, list_elem_of_In.
Qed.

Lemma bind_bridge_row b : forall ch pre sel d msg,
  chain_ok ch b = true -> length sel = length ch ->
  bind_bridge (d :: pre ++ sel) (length pre) msg b = row_bridge sel msg b.
Proof.
  induction b as [| |i [] ts n IH] using bridge_ind; intros ch pre sel d msg Hc Hl; try done.
  - cbn [chain_ok] in Hc. destruct ch as [|j ch]; [done|]. bool_hyps. subst j.
    destruct sel as [|s sel]; [done|]. injection Hl as Hl.
    cbn [bind_bridge row_bridge head tail].
    rewrite (list_lookup_middle (d :: pre) sel s) by done. obind.
    destruct (get_sub true msg i s) as [inner|]; [|done]. obind.
    erewrite mapM_ext_in; [done|]. intros t Ht. rewrite Forall_forall in IH.
    match goal with H : forallb _ ts = true |- _ => rewrite forallb_forall in H; rename H into Hts end.
    specialize (IH t Ht ch (pre ++ [s]) sel d inner (Hts t ltac:(by apply list_elem_of_In)) Hl).
    by rewrite length_app, Nat.add_1_r, <- app_assoc in IH.
  - rewrite bind_bridge_plain; [|exact Hc]. cbn [row_bridge]. done.
Qed.

Lemma mapM_concat_cells (f : TypeBridge -> option (list Cell)) ts cs :
  (forall b, b ∈ ts -> forall l, f b = Some l -> length l = cells b) ->
  mapM f ts = Some cs -> length (concat cs) = cells_list ts.
Proof.
  revert cs. induction ts as [|b ts IH]; intros cs Hf E; cbn [mapM] in E.
  { by injection E as <-. }
  apply bind_Some in E as (l & Hl & E). apply bind_Some in E as (cs' & Hcs & E).
  injection E as <-. cbn [concat]. unfold cells_list. cbn [foldr]. rewrite length_app.
  rewrite (Hf b) by (done || left). rewrite (IH cs'); [done| |done]. intros; eapply Hf; [by right|done].
Qed.

Lemma bind_bridge_cells b : forall sel level msg cs,
  bind_bridge sel level msg b = Some cs -> length cs = cells b.
Proof.
  induction b as [| |i r ts n IH] using bridge_ind; intros sel level msg cs E; cbn [bind_bridge] in E.
  1,2: apply bind_Some in E as (v & _ & E); apply bind_Some in E as (c & _ & E); by injection E as <-.
  apply bind_Some in E as (s & _ & E). apply bind_Some in E as (inner & _ & E).
  apply bind_Some in E as (css & E & Ec). injection Ec as <-.
  apply (mapM_concat_cells _ _ _) in E; [exact E|]. rewrite Forall_forall in IH.
  intros b Hb l Hl. by eapply IH.
Qed.

(** Names are not empty. *)
Fixpoint named (b : TypeBridge) : bool :=
  match b with
  | B_message _ _ ts _ => forallb named ts
  | B_scalar _ n _ _ | B_repeated _ n _ => bool_decide (n <> "")
  end.

Lemma named_columns_list ts :
  Forall (fun b => named b = true -> length (columns b) = cells b) ts ->
  forallb named ts = true -> length (columns_list ts) = cells_list ts.
Proof.
  induction 1 as [|b ts Hb _ IH]; intros Hn; [done|]. cbn [forallb] in Hn. bool_hyps.
  unfold columns_list, cells_list in *. cbn [foldr]. rewrite length_app, Hb, IH by done. done.
Qed.

Lemma named_columns b : named b = true -> length (columns b) = cells b.
Proof.
  induction b as [| |i r ts n IH] using bridge_ind; intros Hn; cbn [named columns cells] in *.
  1,2: bool_hyps; by rewrite decide_False.
  by apply named_columns_list.
Qed.

(** The adapter made by [create_table]. *)
Lemma create_table_chain name fields a :
  create_table name fields = inr a ->
  forallb (chain_ok (chain_of a)) (top_types a) = true
  /\ length (top_stack a) = S (length (chain_of a))
  /\ top_field_count a = Z.of_nat (cells_list (top_types a))
  /\ (forall i ch, chain_of a = i :: ch -> exists ts k, B_message i true ts k ∈ top_types a)
  /\ insert_stmt a = "INSERT INTO result_" +:+ name +:+ "(" +:+ join "," (columns_list (top_types a))
       +:+ ") VALUES (" +:+ join "," (replicate (cells_list (top_types a)) "?") +:+ ")".
Proof.
  unfold create_table.
  destruct (gather_fields [] 0 fields (mkGather [[]] [] [])) as [|[[ts n] st]] eqn:E; [done|].
  cbn [gbind]. intros [= <-].
  destruct (gather_fields_spec fields ltac:(apply Forall_forall; intros; apply gather_field_spec)
    _ _ _ _ _ _ [] E eq_refl) as (ch & [G1 G2 G3 G4 G5]).
  { intros k _ [l Hl]. done. }
  cbn [repeated_message_stack app] in G3.
  assert (stack_field <$> tail (repeated_message_stack st) = ch) as Hch
    by (rewrite G3; cbn [tail]; apply paths_fields).
  unfold chain_of. cbn [top_types top_stack top_field_count insert_stmt]. rewrite Hch.
  split_and!; try done.
  - rewrite G3. cbn [length]. by rewrite length_paths.
  - intros i ch' ->. destruct (G5 i ch' eq_refl) as (_ & _ & ?). done.
  - rewrite G1, G2, Nat2Z.id. done.
Qed.

Lemma bind_row_row name fields a msg leaf :
  create_table name fields = inr a -> length leaf = length (chain_of a) ->
  bind_row a (0%nat :: leaf) msg = row_of a msg leaf.
Proof.
  intros E Hl. destruct (create_table_chain _ _ _ E) as (Hc & _).
  unfold bind_row, row_of. erewrite mapM_ext_in; [done|]. intros b Hb.
  rewrite forallb_forall in Hc.
  exact (bind_bridge_row b _ [] leaf 0%nat msg (Hc b ltac:(by apply list_elem_of_In)) Hl).
Qed.

(** ** Theorems *)

(** C23. A message becomes one row per element of its innermost repeated message: for every
    table that could be created and every message in which no repeated message on the way is
    empty, [insert_row] terminates and inserts exactly the rows of these elements, in
    their order; each row holds the fields of the messages on the path to its element. *)
Theorem insert_row_rows name fields a msg rows bind_ok fuel :
  create_table name fields = inr a -> full (chain_of a) msg ->
  mapM (row_of a msg) (leaves (chain_of a) msg) = Some rows ->
  Forall (fun r => bind_ok r = true) rows ->
  (length (leaves (chain_of a) msg) <= fuel)%nat ->
  insert_row fuel bind_ok a msg = Some (true, rows).
Proof.
  intros E Hf Hr Hok Hfuel. destruct (create_table_chain _ _ _ E) as (_ & Hlen & _).
  destruct (leaves_linked _ _ Hf) as [Hl Hh]. unfold insert_row. rewrite Hlen. cbn [replicate].
  pose proof (leaves_valid (chain_of a) msg) as Hv. fold (zeros (chain_of a)).
  assert (Forall (fun s => s ∈ leaves (chain_of a) msg) (leaves (chain_of a) msg)) as Hall
    by (by apply Forall_forall).
  assert (mapM (fun s => bind_row a (0%nat :: s) msg) (leaves (chain_of a) msg) = Some rows) as Hb.
  { rewrite <- Hr. apply mapM_ext_in. intros s Hs. eapply bind_row_row; [exact E|].
    by apply Hv. }
  destruct (leaves (chain_of a) msg) as [|s l] eqn:El; [done|]. injection Hh as ->.
  apply (insert_rows_linked a (chain_of a) msg eq_refl Hlen bind_ok l); try done.
  by rewrite El.
Qed.

(** C33. Columns, placeholders and cells agree: every row that is bound has as many cells
    as the insert statement has placeholders, and, if all fields have names, as many as it
    has columns. *)
Theorem insert_statement_fits name fields a selector msg row :
  create_table name fields = inr a -> bind_row a selector msg = Some row ->
  top_field_count a = Z.of_nat (length row)
  /\ exists cols, insert_stmt a
       = "INSERT INTO result_" +:+ name +:+ "(" +:+ join "," cols
         +:+ ") VALUES (" +:+ join "," (replicate (length row) "?") +:+ ")"
       /\ (forallb named (top_types a) = true -> length cols = length row).
Proof.
  intros E Hb. destruct (create_table_chain _ _ _ E) as (_ & _ & Hn & _ & Hi).
  unfold bind_row in Hb. apply bind_Some in Hb as (cs & Hcs & [= <-]).
  apply mapM_concat_cells in Hcs; [|intros; by eapply bind_bridge_cells].
  rewrite Hn, Hcs, Hi. split; [done|]. eexists. split; [reflexivity|].
  apply named_columns_list, Forall_forall. intros b _. apply named_columns.
Qed.

(** A message without any element in its outermost repeated message is not inserted as
    no row: binding the first row reads an element that does not exist, whatever the
    fuel. *)
Theorem insert_row_empty name fields a msg i ch bind_ok fuel :
  create_table name fields = inr a -> chain_of a = i :: ch ->
  msg_fields msg !! i = Some (V_subs []) ->
  insert_row fuel bind_ok a msg = None.
Proof.
  intros E Hc Hm. destruct (create_table_chain _ _ _ E) as (_ & Hlen & _ & Hin & _).
  destruct (Hin i ch Hc) as (ts & k & Hb). unfold insert_row.
  destruct fuel as [|fuel]; [done|]. cbn [insert_rows].
  assert (bind_row a (replicate (length (top_stack a)) 0%nat) msg = None) as ->; [|done].
  rewrite Hlen, Hc. unfold bind_row.
  assert (forall sel, mapM (bind_bridge sel 0 msg) (top_types a) = None) as ->; [|done].
  intros sel. apply eq_None_not_Some. intros [cs Hcs]. apply mapM_Some in Hcs.
  apply list_elem_of_lookup in Hb as [n Hb]. eapply Forall2_lookup_l in Hcs as (c & _ & Hcs); [|exact Hb].
  cbn [bind_bridge] in Hcs. apply bind_Some in Hcs as (s & _ & Hcs).
  apply bind_Some in Hcs as (inner & Hs & _). unfold get_sub in Hs. by rewrite Hm in Hs.
Qed.

(** ** A concrete table *)

Module AdapterDemo.

(** A result message like those of the experiments: the pilot and one result per bit. *)
Definition fields : list FieldDescriptor :=
  [mkField "fsppilot" l_required
     (CPP_MESSAGE [mkField "pilot_id" l_required (CPP_SCALAR S_uint32) false true;
                   mkField "data_width" l_required (CPP_SCALAR S_uint32) true false]) false false;
   mkField "result" l_repeated
     (CPP_MESSAGE [mkField "bitoffset" l_required (CPP_SCALAR S_uint32) false true;
                   mkField "resulttype" l_required (CPP_SCALAR (S_enum ["OK"; "SDC"])) false false;
                   mkField "details" l_optional (CPP_SCALAR S_string) false false]) false false].

Definition result (bit : Z) (t : string) : Message :=
  Msg [V_plain (V_num bit); V_plain (V_text t); V_absent].
Definition message (results : list Message) : Message :=
  Msg [V_sub (Msg [V_plain (V_num 42); V_plain (V_num 4)]); V_subs results].

Definition adapter : Adapter :=
  match create_table "Demo" fields with inr a => a | inl _ => mkAdapter [] 0 [] "" "" end.

Lemma create_demo : create_table "Demo" fields = inr adapter.
Proof. reflexivity. Qed.

Example create_stmt_demo : create_table_stmt adapter =
  "CREATE TABLE IF NOT EXISTS result_Demo(pilot_id INT UNSIGNED NOT NULL, bitoffset INT UNSIGNED NOT NULL, resulttype ENUM ('OK', 'SDC') NOT NULL, details TEXT, PRIMARY KEY(pilot_id, bitoffset)) ENGINE=MyISAM".
Proof. reflexivity. Qed.

Example insert_stmt_demo : insert_stmt adapter =
  "INSERT INTO result_Demo(pilot_id,bitoffset,resulttype,details) VALUES (?,?,?,?)".
Proof. reflexivity. Qed.

(** A second repeated message ends the program, with the code of success. *)
Example two_paths_exit :
  create_table "Demo" (fields ++ [mkField "more" l_repeated (CPP_MESSAGE []) false false]) = inl 0.
Proof. reflexivity. Qed.

Definition row (bit : Z) (t : string) : list Cell :=
  [C_number 4 true 42; C_number 4 true bit; C_string t; C_null].

Lemma insert_row_rows_witness :
  insert_row 2 (fun _ => true) adapter (message [result 0 "OK"; result 1 "SDC"])
  = Some (true, [row 0 "OK"; row 1 "SDC"]).
Proof.
  apply (insert_row_rows "Demo" fields adapter); [reflexivity| |reflexivity|repeat constructor|].
  - eexists. split; [reflexivity|]. split; [done|]. repeat constructor.
  - vm_compute. lia.
Defined.

Lemma insert_statement_fits_witness :
  top_field_count adapter = 4.
Proof.
  exact (proj1 (insert_statement_fits "Demo" fields adapter [0%nat; 0%nat]
    (message [result 0 "OK"]) (row 0 "OK") eq_refl eq_refl)).
Defined.

Lemma insert_row_empty_witness :
  insert_row 5 (fun _ => true) adapter (message []) = None.
Proof. exact (insert_row_empty "Demo" fields adapter (message []) 1 [] _ 5 eq_refl eq_refl eq_refl). Defined.
End AdapterDemo.
