(* ===== verification/ArmDecoder.v ===== *)
(** * The ARM instruction decoder

    [src/core/sal/arm/ArmDisassembler.{hpp,cc}], the 32-bit instruction set: which
    type and operands [arm_evaluate_opcode] finds for an opcode (the printed text
    is left out), and how [arm_load_store_instr::evaluate] recovers the address and
    the value of an access from the registers after it.

    Opcodes and registers are 32-bit numbers.  A shift by 32 or more bits, which C
    leaves undefined, makes a result [None]. *)
From S2P Require Import Prelude.

(** ** Types and operands *)

Inductive arm_instruction_type :=
  | ARM_UNKNOWN_INSTUCTION
  | ARM_B | ARM_BL | ARM_BX | ARM_BLX
  | ARM_AND | ARM_EOR | ARM_SUB | ARM_RSB | ARM_ADD | ARM_ADC | ARM_SBC | ARM_RSC
  | ARM_TST | ARM_TEQ | ARM_CMP | ARM_CMN | ARM_ORR | ARM_MOV | ARM_BIC | ARM_MVN
  | ARM_LDR | ARM_LDRB | ARM_LDRT | ARM_LDRBT | ARM_LDRH | ARM_LDRSB | ARM_LDRSH
  | ARM_LDREX | ARM_LDREXB | ARM_LDREXH | ARM_LDM
  | ARM_STR | ARM_STRB | ARM_STRT | ARM_STRBT | ARM_STRH
  | ARM_STREX | ARM_STREXB | ARM_STREXH | ARM_STM
  | ARM_MRS | ARM_MSR
  | ARM_MUL | ARM_MLA | ARM_SMULL | ARM_SMLAL | ARM_UMULL | ARM_UMLAL
  | ARM_CLZ | ARM_BKPT | ARM_SWI
  | ARM_CDP | ARM_LDC | ARM_STC | ARM_MCR | ARM_MRC
  | ARM_SWP | ARM_SWPB
  | ARM_MCRR | ARM_MRRC | ARM_PLD | ARM_QADD | ARM_QDADD | ARM_QSUB | ARM_QDSUB
  | ARM_SMLAxy | ARM_SMLALxy | ARM_SMLAWy | ARM_SMULxy | ARM_SMULWy | ARM_LDRD | ARM_STRD
  | ARM_UNDEFINED_INSTRUCTION.

#[export] Instance arm_type_eq_dec : EqDecision arm_instruction_type.
Proof. solve_decision. Defined.

(** The enumerators between two given ones, in the order of the declaration. *)
Definition load_types : list arm_instruction_type :=
  [ARM_LDR; ARM_LDRB; ARM_LDRT; ARM_LDRBT; ARM_LDRH; ARM_LDRSB; ARM_LDRSH;
   ARM_LDREX; ARM_LDREXB; ARM_LDREXH; ARM_LDM].
Definition store_types : list arm_instruction_type :=
  [ARM_STR; ARM_STRB; ARM_STRT; ARM_STRBT; ARM_STRH; ARM_STREX; ARM_STREXB; ARM_STREXH; ARM_STM].

Inductive shifter_operand :=
  | Op_immediate (immediate : option Z)
  | Op_immediate_shift (Rm shift shift_imm : Z)
  | Op_register_shift (Rm shift Rs : Z).

Inductive ls_offset := Off_imm (offset : Z) | Off_reg (Rm shift shift_imm : Z).

Record arm_load_store_instr := mkLS {
  ls_Rd : Z;
  ls_Rn : Z;
  ls_U : Z;
  ls_index_mode : Z;          (** 0: offset, 1: pre-indexed, 2: post-indexed *)
  ls_offset_of : ls_offset
}.

Inductive arm_info :=
  | I_none
  | I_branch (reg_operand target_address : Z)
  | I_data_proc (S Rn Rd : Z) (operand : shifter_operand)
  | I_load_store (ls : arm_load_store_instr)
  | I_load_store_multiple (Rn register_list addressing_mode S W : Z).

Record arm_instruction := mkInstr {
  ai_type : arm_instruction_type;
  ai_opcode : Z;
  ai_size : Z;
  ai_info : arm_info
}.

Definition isBranchInstruction (i : arm_instruction) : bool :=
  bool_decide (ai_type i ∈ [ARM_B; ARM_BL; ARM_BX; ARM_BLX]).
Definition isLoadInstruction (i : arm_instruction) : bool := bool_decide (ai_type i ∈ load_types).
Definition isStoreInstruction (i : arm_instruction) : bool := bool_decide (ai_type i ∈ store_types).
Definition isMemoryAccess (i : arm_instruction) : bool :=
  isLoadInstruction i || isStoreInstruction i.

Definition arm_access_size (i : arm_instruction) : Z :=
  match ai_type i with
  | ARM_LDRB | ARM_LDRBT | ARM_LDRSB | ARM_STRB | ARM_STRBT => 1
  | ARM_LDRH | ARM_LDRSH | ARM_STRH => 2
  | ARM_LDR | ARM_LDRT | ARM_STR | ARM_STRT => 4
  | ARM_LDRD | ARM_STRD => 8
  | _ => 0
  end.

(** ** Pieces of an opcode *)

(** [(opcode & mask) >> k], [(opcode & mask) == v], [opcode & mask]. *)
Definition bits (opcode mask k : Z) : Z := Z.shiftr (Z.land opcode mask) k.
Definition matches (opcode mask v : Z) : bool := Z.land opcode mask =? v.
Definition has (opcode mask : Z) : bool := negb (Z.land opcode mask =? 0).

Definition shl32 (v n : Z) : option Z :=
  if (0 <=? n) && (n <? 32) then Some (u32 (Z.shiftl v n)) else None.
Definition shr32 (v n : Z) : option Z :=
  if (0 <=? n) && (n <? 32) then Some (Z.shiftr v n) else None.

Definition ror (value places : Z) : option Z :=
  lo ← shr32 value places; hi ← shl32 value (32 - places); Some (Z.lor lo hi).

(** An evaluator sets type and operands of a cleared instruction, or fails with a code. *)
Definition Evaluated : Type := (Z + arm_instruction_type * arm_info)%type.
Definition ERROR_FAIL : Z := -4.

Definition typed (t : arm_instruction_type) : Evaluated := inr (t, I_none).
Definition evaluate_unknown : Evaluated := typed ARM_UNDEFINED_INSTRUCTION.

Definition evaluate_pld (opcode : Z) : Evaluated :=
  if matches opcode 0x0d70f000 0x0550f000 then typed ARM_PLD else evaluate_unknown.

(** No type is set for the instructions this prints. *)
Definition evaluate_srs (opcode : Z) : Evaluated :=
  if matches opcode 0x0e500000 0x08400000 || matches opcode 0x0e500000 0x08100000
  then typed ARM_UNKNOWN_INSTUCTION else evaluate_unknown.

Definition evaluate_swi : Evaluated := typed ARM_SWI.

(** The sign-extended 24-bit immediate, shifted left by two. *)
Definition branch_offset (opcode : Z) : Z :=
  let immediate := Z.land opcode 0x00ffffff in
  let offset := s32 (if has immediate 0x00800000 then Z.lor 0xff000000 immediate else immediate) in
  s32 (Z.shiftl offset 2).

Definition evaluate_blx_imm (opcode address : Z) : Evaluated :=
  let offset := branch_offset opcode in
  let offset := if has opcode 0x01000000 then Z.lor offset 2 else offset in
  inr (ARM_BLX, I_branch (-1) (u32 (address + 8 + offset))).

Definition evaluate_b_bl (opcode address : Z) : Evaluated :=
  let L := bits opcode 0x01000000 24 in
  inr (if L =? 0 then ARM_B else ARM_BL,
       I_branch (-1) (u32 (address + 8 + branch_offset opcode))).

(** Both alternatives of the first condition are the same test. *)
Definition evaluate_ldc_stc_mcrr_mrrc (opcode : Z) : Evaluated :=
  if matches opcode 0x0ff00000 0x0c400000 || matches opcode 0x0ff00000 0x0c400000 then
    if matches opcode 0x0ff00000 0x0c400000 then typed ARM_MCRR
    else if matches opcode 0x0ff00000 0x0c500000 then typed ARM_MRRC
    else inl ERROR_FAIL
  else if has opcode 0x00100000 then typed ARM_LDC else typed ARM_STC.

Definition evaluate_cdp_mcr_mrc (opcode : Z) : Evaluated :=
  if has opcode 0x00000010
  then if has opcode 0x00100000 then typed ARM_MRC else typed ARM_MCR
  else typed ARM_CDP.

Definition index_mode (P W : Z) : Z := if P =? 1 then if W =? 0 then 0 else 1 else 2.

(** The encoding of a shift, with LSR and ASR by 32 and RRX made explicit. *)
Definition decode_shift (opcode : Z) : Z * Z :=
  let shift_imm := bits opcode 0xf80 7 in
  let shift := bits opcode 0x60 5 in
  let shift_imm := if (shift =? 1) && (shift_imm =? 0) then 0x20 else shift_imm in
  let shift_imm := if (shift =? 2) && (shift_imm =? 0) then 0x20 else shift_imm in
  let shift := if (shift =? 3) && (shift_imm =? 0) then 4 else shift in
  (shift, shift_imm).

Definition evaluate_load_store (opcode : Z) : Evaluated :=
  let I := bits opcode 0x02000000 25 in
  let P := bits opcode 0x01000000 24 in
  let U := bits opcode 0x00800000 23 in
  let B := bits opcode 0x00400000 22 in
  let W := bits opcode 0x00200000 21 in
  let L := bits opcode 0x00100000 20 in
  let Rd := bits opcode 0xf000 12 in
  let Rn := bits opcode 0xf0000 16 in
  let type :=
    if negb (B =? 0) then
      if (P =? 0) && (W =? 1) then if L =? 0 then ARM_STRBT else ARM_LDRBT
      else if L =? 0 then ARM_STRB else ARM_LDRB
    else
      if (P =? 0) && (W =? 1) then if L =? 0 then ARM_STRT else ARM_LDRT
      else if L =? 0 then ARM_STR else ARM_LDR in
  let offset :=
    if I =? 0 then Off_imm (Z.land opcode 0xfff)
    else let '(shift, shift_imm) := decode_shift opcode in
         Off_reg (Z.land opcode 0xf) shift shift_imm in
  inr (type, I_load_store (mkLS Rd Rn U (index_mode P W) offset)).

Definition evaluate_p_add_sub (opcode : Z) : arm_instruction_type :=
  match bits opcode 0x00700000 20 with
  | 1 | 2 | 3 | 5 | 6 | 7 =>
      match bits opcode 0xe0 5 with
      | 0 | 1 => ARM_ADD
      | 2 | 3 => ARM_SUB
      | 4 => ARM_ADD
      | 7 => ARM_SUB
      | _ => ARM_UNDEFINED_INSTRUCTION
      end
  | _ => ARM_UNDEFINED_INSTRUCTION
  end.

Definition evaluate_extend (opcode : Z) : arm_instruction_type :=
  if bits opcode 0x03000000 24 =? 1 then ARM_UNDEFINED_INSTRUCTION
  else if bits opcode 0xf0000 16 =? 0xf then ARM_MOV else ARM_ADD.

(** Only parallel additions and extensions set a type. *)
Definition evaluate_media (opcode : Z) : Evaluated :=
  if matches opcode 0x01800000 0 then typed (evaluate_p_add_sub opcode)
  else if matches opcode 0x01f00020 0x00800000 then typed ARM_UNKNOWN_INSTUCTION
  else if matches opcode 0x01a00020 0x00a00000 then typed ARM_UNKNOWN_INSTUCTION
  else if matches opcode 0x018000f0 0x00800070 then typed (evaluate_extend opcode)
  else typed ARM_UNKNOWN_INSTUCTION.

Definition evaluate_misc_load_store (opcode : Z) : Evaluated :=
  let P := bits opcode 0x01000000 24 in
  let U := bits opcode 0x00800000 23 in
  let I := bits opcode 0x00400000 22 in
  let W := bits opcode 0x00200000 21 in
  let L := bits opcode 0x00100000 20 in
  let S := bits opcode 0x00000040 6 in
  let H := bits opcode 0x00000020 5 in
  let Rd := bits opcode 0xf000 12 in
  let Rn := bits opcode 0xf0000 16 in
  let type :=
    if negb (S =? 0) then
      if negb (L =? 0) then if negb (H =? 0) then ARM_LDRSH else ARM_LDRSB
      else if negb (H =? 0) then ARM_STRD else ARM_LDRD
    else if negb (L =? 0) then ARM_LDRH else ARM_STRH in
  let offset :=
    if negb (I =? 0) then Off_imm (Z.lor (bits opcode 0xf00 4) (Z.land opcode 0xf))
    else Off_reg (Z.land opcode 0xf) 0 0 in
  inr (type, I_load_store (mkLS Rd Rn U (index_mode P W) offset)).

Definition evaluate_ldm_stm (opcode : Z) : Evaluated :=
  let P := bits opcode 0x01000000 24 in
  let U := bits opcode 0x00800000 23 in
  let S := bits opcode 0x00400000 22 in
  let W := bits opcode 0x00200000 21 in
  let L := bits opcode 0x00100000 20 in
  let mode := if negb (P =? 0) then if negb (U =? 0) then 1 else 3
              else if negb (U =? 0) then 0 else 2 in
  inr (if negb (L =? 0) then ARM_LDM else ARM_STM,
       I_load_store_multiple (bits opcode 0xf0000 16) (Z.land opcode 0xffff) mode S W).

Definition evaluate_mul_and_extra_ld_st (opcode : Z) : Evaluated :=
  if matches opcode 0x000000f0 0x00000090 then
    if matches opcode 0x0f800000 0 then
      if has opcode 0x00200000 then typed ARM_MLA else typed ARM_MUL
    else if matches opcode 0x0f800000 0x00800000 then
      match bits opcode 0x00600000 21 with
      | 0 => typed ARM_UMULL
      | 1 => typed ARM_UMLAL
      | 2 => typed ARM_SMULL
      | _ => typed ARM_SMLAL
      end
    else if matches opcode 0x0f800000 0x01000000 then
      if has opcode 0x00400000 then typed ARM_SWPB else typed ARM_SWP
    else evaluate_misc_load_store opcode
  else evaluate_misc_load_store opcode.

Definition evaluate_mrs_msr (opcode : Z) : Evaluated :=
  if has opcode 0x00200000 then typed ARM_MSR else typed ARM_MRS.

(** The [if]s one after another; each may overwrite what was found before. *)
Definition misc_mrs (opcode : Z) (e : Evaluated) : Evaluated :=
  if matches opcode 0x000000f0 0 then evaluate_mrs_msr opcode else e.
Definition misc_branch (opcode : Z) (e : Evaluated) : Evaluated :=
  let Rm := Z.land opcode 0xf in
  let e := if matches opcode 0x006000f0 0x00200010 then inr (ARM_BX, I_branch Rm (u32 (-1))) else e in
  let e := if matches opcode 0x006000f0 0x00200020 then inr (ARM_BX, I_branch Rm (u32 (-1))) else e in
  let e := if matches opcode 0x006000f0 0x00600010 then typed ARM_CLZ else e in
  if matches opcode 0x006000f0 0x00200030 then inr (ARM_BLX, I_branch Rm (u32 (-1))) else e.
Definition misc_dsp_add (opcode : Z) (e : Evaluated) : Evaluated :=
  if matches opcode 0x000000f0 0x00000050 then
    match bits opcode 0x00600000 21 with
    | 0 => typed ARM_QADD
    | 1 => typed ARM_QSUB
    | 2 => typed ARM_QDADD
    | _ => typed ARM_QDSUB
    end
  else e.
Definition misc_bkpt (opcode : Z) (e : Evaluated) : Evaluated :=
  if matches opcode 0x000000f0 0x00000070 then typed ARM_BKPT else e.
Definition misc_dsp_mul (opcode : Z) (e : Evaluated) : Evaluated :=
  if matches opcode 0x00000090 0x00000080 then
    let x := bits opcode 0x20 5 in
    let e := if matches opcode 0x00600000 0 then typed ARM_SMLAxy else e in
    let e := if matches opcode 0x00600000 0x00400000 then typed ARM_SMLAxy else e in
    let e := if matches opcode 0x00600000 0x00100000 && (x =? 0) then typed ARM_SMLAWy else e in
    let e := if matches opcode 0x00600000 0x00300000 then typed ARM_SMULxy else e in
    if matches opcode 0x00600000 0x00100000 && (x =? 1) then typed ARM_SMULWy else e
  else e.

Definition evaluate_misc_instr (opcode : Z) : Evaluated :=
  misc_dsp_mul opcode (misc_bkpt opcode (misc_dsp_add opcode
    (misc_branch opcode (misc_mrs opcode (typed ARM_UNKNOWN_INSTUCTION))))).

Definition data_proc_type (op : Z) : arm_instruction_type :=
  match op with
  | 0 => ARM_AND | 1 => ARM_EOR | 2 => ARM_SUB | 3 => ARM_RSB
  | 4 => ARM_ADD | 5 => ARM_ADC | 6 => ARM_SBC | 7 => ARM_RSC
  | 8 => ARM_TST | 9 => ARM_TEQ | 10 => ARM_CMP | 11 => ARM_CMN
  | 12 => ARM_ORR | 13 => ARM_MOV | 14 => ARM_BIC | _ => ARM_MVN
  end.

(** Shifts are stored as encoded here. *)
Definition evaluate_data_proc (opcode : Z) : Evaluated :=
  let I := bits opcode 0x02000000 25 in
  let op := bits opcode 0x01e00000 21 in
  let S := bits opcode 0x00100000 20 in
  let Rd := bits opcode 0xf000 12 in
  let Rn := bits opcode 0xf0000 16 in
  let operand :=
    if negb (I =? 0) then Op_immediate (ror (Z.land opcode 0xff) (bits opcode 0xf00 8 * 2))
    else
      let shift := bits opcode 0x60 5 in
      let Rm := Z.land opcode 0xf in
      if negb (matches opcode 0x10 0x10) then Op_immediate_shift Rm shift (bits opcode 0xf80 7)
      else Op_register_shift Rm shift (bits opcode 0xf00 8) in
  inr (data_proc_type op, I_data_proc S Rn Rd operand).

(** The opcodes with condition field 1111; [None]: go on with the others. *)
Definition evaluate_unconditional (opcode address : Z) : option Evaluated :=
  if matches opcode 0x08000000 0 then Some (evaluate_pld opcode)
  else if matches opcode 0x0e000000 0x08000000 then Some (evaluate_srs opcode)
  else if matches opcode 0x0e000000 0x0a000000 then Some (evaluate_blx_imm opcode address)
  else if matches opcode 0x0e000000 0x0c000000 then Some (evaluate_ldc_stc_mcrr_mrrc opcode)
  else if matches opcode 0x0f000100 0x0c000000 then Some (evaluate_cdp_mcr_mrc opcode)
  else if matches opcode 0x0f000010 0x0c000010 then Some (evaluate_cdp_mcr_mrc opcode)
  else if matches opcode 0x0f000000 0x0f000000 then Some evaluate_unknown
  else None.

Definition evaluate_conditional (opcode address : Z) : Evaluated :=
  if matches opcode 0x0e000000 0 then
    if matches opcode 0x00000090 0x00000090 then evaluate_mul_and_extra_ld_st opcode
    else if matches opcode 0x0f900000 0x01000000 then evaluate_misc_instr opcode
    else evaluate_data_proc opcode
  else if matches opcode 0x0e000000 0x02000000 then
    if matches opcode 0x0fb00000 0x03000000 then evaluate_unknown
    else if matches opcode 0x0fb00000 0x03200000 then evaluate_mrs_msr opcode
    else evaluate_data_proc opcode
  else if matches opcode 0x0e000000 0x04000000 then evaluate_load_store opcode
  else if matches opcode 0x0e000000 0x06000000 then
    if matches opcode 0x00000010 0 then evaluate_load_store opcode
    else if matches opcode 0x07f000f0 0x07f000f0 then evaluate_unknown
    else evaluate_media opcode
  else if matches opcode 0x0e000000 0x08000000 then evaluate_ldm_stm opcode
  else if matches opcode 0x0e000000 0x0a000000 then evaluate_b_bl opcode address
  else if matches opcode 0x0e000000 0x0c000000 then evaluate_ldc_stc_mcrr_mrrc opcode
  else if matches opcode 0x0e000000 0x0e000000 then
    if matches opcode 0x0f000000 0x0f000000 then evaluate_swi
    else if matches opcode 0x0f000010 0x0e000000 then evaluate_cdp_mcr_mrc opcode
    else if matches opcode 0x0f000010 0x0e000010 then evaluate_cdp_mcr_mrc opcode
    else inl (-1)
  else inl (-1).

(** The result code is 0 ([ERROR_OK]) for the right of the sum. *)
Definition arm_evaluate_opcode (opcode address : Z) : Z + arm_instruction :=
  let e := match (if matches opcode 0xf0000000 0xf0000000
                  then evaluate_unconditional opcode address else None) with
           | Some e => e
           | None => evaluate_conditional opcode address
           end in
  match e with
  | inl code => inl code
  | inr (type, info) => inr (mkInstr type opcode 4 info)
  end.

(** ** Recovering an access *)

(** The offset [evaluate] computes from the register contents. *)
Definition evaluated_offset (o : ls_offset) (regs : Z -> Z) : option Z :=
  match o with
  | Off_imm offset => Some offset
  | Off_reg Rm shift shimm =>
      let rm := regs Rm in
      match shift with
      | 0 => shl32 rm shimm
      | 1 => shr32 rm shimm
      | 2 => v ← shr32 rm shimm; Some (Z.lor v (Z.land rm (2 ^ 31)))
      | 3 => ror rm shimm
      | 4 => Some (Z.shiftr rm 1)
      | _ => Some 0
      end
  end.

(** [evaluate]: address and value. *)
Definition evaluate (ls : arm_load_store_instr) (regs : Z -> Z) : option (Z * Z) :=
  let value := regs (ls_Rd ls) in
  let address := regs (ls_Rn ls) in
  offs ← evaluated_offset (ls_offset_of ls) regs;
  let address :=
    if ls_index_mode ls =? 1 then address
    else if ls_index_mode ls =? 2 then u32 (address - offs)
    else u32 (address + offs) in
  Some (address, value).

(** [MemoryInstruction] as [ArmMemoryInstructionAnalyzer::evaluate] fills it in. *)
Record MemoryInstruction := mkMemInstr {
  mi_address : Z;
  mi_value : Z;
  mi_width : Z;
  mi_writeAccess : bool
}.

Definition isValid (r : MemoryInstruction) : bool := negb (mi_address r =? 0).

(** The operands are a union, which the analyzer reads as a single load or store.  Fields
    that were never written are zero.  Of a multiple access, the base register is
    read as [Rd], the register list as the index mode, and the addressing mode and the two
    flags as the kind of the offset (the layout of the structures on the hosts FAIL*
    runs on); [None]: not a memory access. *)
Definition as_load_store (info : arm_info) : option arm_load_store_instr :=
  match info with
  | I_none => Some (mkLS 0 0 0 0 (Off_imm 0))
  | I_load_store ls => Some ls
  | I_load_store_multiple Rn register_list addressing_mode s w =>
      Some (mkLS Rn 0 0 register_list
              (if addressing_mode + 256 * s + 65536 * w =? 0 then Off_imm 0 else Off_reg 0 0 0))
  | _ => None
  end.

(** [None]: the computation is undefined. *)
Definition analyzer_evaluate (i : arm_instruction) (regs : Z -> Z) : option MemoryInstruction :=
  ls ← as_load_store (ai_info i);
  '(address, value) ← evaluate ls regs;
  Some (mkMemInstr address value 4 (isStoreInstruction i)).

(** [eval_ca9] hands over address and opcode in the other order. *)
Definition eval_ca9 (opcode_at : Z -> Z) (address : Z) (regs : Z -> Z)
    : option (bool * option MemoryInstruction) :=
  let opcode := opcode_at address in
  match arm_evaluate_opcode (u32 address) opcode with
  | inr i =>
      if isMemoryAccess i then r ← analyzer_evaluate i regs; Some (true, Some r)
      else Some (false, None)
  | inl _ => Some (false, None)
  end.
