(* ===== verification/ArmTheorems.v ===== *)
(** * Theorems on the ARM decoder

    Every opcode is decoded; branch targets and recovered addresses are those of
    the architecture, where the code gets them right; which instructions are never
    found. *)
From S2P Require Import Prelude ArmDecoder.

(** ** Fields of an opcode *)

Definition field (x k w : Z) : Z := (x / 2 ^ k) mod 2 ^ w.

Lemma field_range x k w : 0 <= w -> 0 <= field x k w < 2 ^ w.
Proof. intros. apply Z.mod_pos_bound. apply Z.pow_pos_nonneg; lia. Qed.

Lemma shiftr_land_field x k w :
  0 <= k -> 0 <= w -> Z.shiftr (Z.land x (Z.shiftl (Z.ones w) k)) k = field x k w.
Proof.
  intros. unfold field. rewrite <- Z.shiftr_div_pow2, <- Z.land_ones by lia.
  rewrite Z.shiftr_land. f_equal. rewrite Z.shiftr_shiftl_l by lia.
  by rewrite Z.sub_diag, Z.shiftl_0_r.
Qed.

Lemma land_field x k w :
  0 <= k -> 0 <= w -> Z.land x (Z.shiftl (Z.ones w) k) = field x k w * 2 ^ k.
Proof.
  intros Hk Hw. rewrite <- shiftr_land_field, <- Z.shiftl_mul_pow2 by lia.
  apply Z.bits_inj'. intros i Hi. rewrite Z.shiftl_spec by lia.
  destruct (decide (i < k)).
  - rewrite (Z.testbit_neg_r _ (i - k)) by lia.
    by rewrite Z.land_spec, Z.shiftl_spec_low, andb_false_r by lia.
  - rewrite Z.shiftr_spec by lia. by replace (i - k + k) with i by lia.
Qed.

(** The tests and fields of the decoder are about contiguous bits. *)
Lemma matches_field x k w v :
  0 <= k -> 0 <= w -> matches x (Z.shiftl (Z.ones w) k) (v * 2 ^ k) = (field x k w =? v).
Proof.
  intros. unfold matches. rewrite land_field by lia.
  destruct (Z.eqb_spec (field x k w) v) as [->|Hne]; [apply Z.eqb_refl|].
  apply Z.eqb_neq. intros E. apply Hne. apply Z.mul_cancel_r in E; [done|].
  pose proof (Z.pow_pos_nonneg 2 k). lia.
Qed.

(** A bit that the mask leaves out is not in the value. *)
Lemma matches_impossible x mask v i :
  Z.testbit mask i = false -> Z.testbit v i = true -> matches x mask v = false.
Proof.
  intros Hm Hv. apply Z.eqb_neq. intros E. apply (f_equal (fun z => Z.testbit z i)) in E.
  rewrite Z.land_spec, Hm, Hv, andb_false_r in E. done.
Qed.

(** Opcode class, bits 27 to 25. *)
Lemma matches_class x v : matches x 0x0e000000 (v * 2 ^ 25) = (field x 25 3 =? v).
Proof. apply (matches_field x 25 3 v); lia. Qed.

Lemma mrrc_dead opcode :
  evaluate_ldc_stc_mcrr_mrrc opcode
  = if matches opcode 0x0ff00000 0x0c400000 then typed ARM_MCRR
    else if has opcode 0x00100000 then typed ARM_LDC else typed ARM_STC.
Proof.
  unfold evaluate_ldc_stc_mcrr_mrrc. by destruct (matches opcode 0x0ff00000 0x0c400000).
Qed.

Lemma dsp_mul_reachable opcode e :
  misc_dsp_mul opcode e
  = if matches opcode 0x00000090 0x00000080 then
      if matches opcode 0x00600000 0x00400000 then typed ARM_SMLAxy
      else if matches opcode 0x00600000 0 then typed ARM_SMLAxy else e
    else e.
Proof.
  unfold misc_dsp_mul.
  rewrite (matches_impossible opcode 0x00600000 0x00100000 20) by done.
  rewrite (matches_impossible opcode 0x00600000 0x00300000 20) by done. done.
Qed.

(** An evaluator that always succeeds, with a type that is not among [ts]. *)
Definition avoids (ts : list arm_instruction_type) (e : Evaluated) : Prop :=
  match e with inl _ => False | inr (t, _) => t ∉ ts end.

Definition never_found : list arm_instruction_type :=
  [ARM_MRRC; ARM_SMLALxy; ARM_SMLAWy; ARM_SMULxy; ARM_SMULWy;
   ARM_LDREX; ARM_LDREXB; ARM_LDREXH; ARM_STREX; ARM_STREXB; ARM_STREXH].

(** A closed type is looked up in the list. *)
Ltac not_never :=
  unfold avoids, evaluate_unknown, evaluate_swi, evaluate_blx_imm, typed; cbn beta iota;
  apply (bool_decide_unpack _); vm_compute; exact I.

Lemma misc_load_store_avoids opcode : avoids never_found (evaluate_misc_load_store opcode).
Proof.
  unfold evaluate_misc_load_store. cbn [avoids].
  destruct (negb (bits opcode 0x40 6 =? 0)), (negb (bits opcode 0x100000 20 =? 0)),
    (negb (bits opcode 0x20 5 =? 0)); not_never.
Qed.

Lemma load_store_avoids opcode : avoids never_found (evaluate_load_store opcode).
Proof.
  unfold evaluate_load_store. cbn [avoids].
  destruct (negb (bits opcode 0x400000 22 =? 0)),
    ((bits opcode 0x1000000 24 =? 0) && (bits opcode 0x200000 21 =? 1)),
    (bits opcode 0x100000 20 =? 0); not_never.
Qed.

Lemma mul_avoids opcode : avoids never_found (evaluate_mul_and_extra_ld_st opcode).
Proof.
  unfold evaluate_mul_and_extra_ld_st. pose proof (misc_load_store_avoids opcode).
  destruct (matches opcode 0xf0 0x90); [|done].
  destruct (matches opcode 0xf800000 0); [destruct (has opcode 0x200000); not_never|].
  destruct (matches opcode 0xf800000 0x800000).
  { destruct (bits opcode 0x600000 21) as [|[[]|[]|]|]; not_never. }
  destruct (matches opcode 0xf800000 0x1000000); [|done]. destruct (has opcode 0x400000); not_never.
Qed.

Lemma mrs_avoids opcode : avoids never_found (evaluate_mrs_msr opcode).
Proof. unfold evaluate_mrs_msr. destruct (has opcode 0x200000); not_never. Qed.

Lemma misc_avoids opcode : avoids never_found (evaluate_misc_instr opcode).
Proof.
  unfold evaluate_misc_instr. rewrite dsp_mul_reachable. unfold misc_bkpt, misc_dsp_add, misc_branch, misc_mrs.
  destruct (matches opcode 0x90 0x80).
  1: destruct (matches opcode 0x600000 0x400000); [not_never|];
     destruct (matches opcode 0x600000 0); [not_never|].
  all: destruct (matches opcode 0xf0 0x70); [not_never|];
    (destruct (matches opcode 0xf0 0x50);
     [destruct (bits opcode 0x600000 21) as [|[[]|[]|]|]; not_never|]);
    (destruct (matches opcode 0x6000f0 0x200030); [not_never|]);
    (destruct (matches opcode 0x6000f0 0x600010); [not_never|]);
    (destruct (matches opcode 0x6000f0 0x200020); [not_never|]);
    (destruct (matches opcode 0x6000f0 0x200010); [not_never|]);
    (destruct (matches opcode 0xf0 0); [apply mrs_avoids|not_never]).
Qed.

Lemma data_proc_avoids opcode : avoids never_found (evaluate_data_proc opcode).
Proof.
  unfold evaluate_data_proc. cbn [avoids]. unfold data_proc_type.
  repeat case_match; not_never.
Qed.

Lemma media_avoids opcode : avoids never_found (evaluate_media opcode).
Proof.
  assert (evaluate_p_add_sub opcode ∉ never_found) as H1
    by (unfold evaluate_p_add_sub; repeat case_match; not_never).
  assert (evaluate_extend opcode ∉ never_found) as H2
    by (unfold evaluate_extend; repeat case_match; not_never).
  unfold evaluate_media.
  destruct (matches opcode 0x1800000 0); [exact H1|].
  destruct (matches opcode 0x1f00020 0x800000); [not_never|].
  destruct (matches opcode 0x1a00020 0xa00000); [not_never|].
  destruct (matches opcode 0x18000f0 0x800070); [exact H2|not_never].
Qed.

Lemma ldc_avoids opcode : avoids never_found (evaluate_ldc_stc_mcrr_mrrc opcode).
Proof.
  rewrite mrrc_dead. destruct (matches opcode 0xff00000 0xc400000); [not_never|].
  destruct (has opcode 0x100000); not_never.
Qed.

Lemma cdp_avoids opcode : avoids never_found (evaluate_cdp_mcr_mrc opcode).
Proof.
  unfold evaluate_cdp_mcr_mrc. destruct (has opcode 0x10); [destruct (has opcode 0x100000)|]; not_never.
Qed.

Lemma b_bl_avoids opcode address : avoids never_found (evaluate_b_bl opcode address).
Proof. unfold evaluate_b_bl. cbn [avoids]. destruct (bits opcode 0x1000000 24 =? 0); not_never. Qed.

Lemma ldm_avoids opcode : avoids never_found (evaluate_ldm_stm opcode).
Proof. unfold evaluate_ldm_stm. cbn [avoids]. destruct (negb (bits opcode 0x100000 20 =? 0)); not_never. Qed.

(** Opcodes of class 7 that are no software interrupt are coprocessor instructions. *)
Lemma class7 opcode :
  field opcode 25 3 = 7 -> matches opcode 0x0f000000 0x0f000000 = false ->
  matches opcode 0x0f000010 0x0e000000 = true \/ matches opcode 0x0f000010 0x0e000010 = true.
Proof.
  intros H7 Hs. change 0x0f000000 with (Z.shiftl (Z.ones 4) 24) in Hs at 1.
  change 0x0f000000 with (15 * 2 ^ 24) in Hs. rewrite matches_field in Hs by lia.
  apply Z.eqb_neq in Hs.
  assert (field opcode 24 4 = 14) as H14.
  { unfold field in *. change (2 ^ 25) with (2 ^ 24 * 2) in H7. rewrite <- Z.div_div in H7 by lia.
    set (y := opcode / 2 ^ 24) in *. clearbody y. change (2 ^ 3) with 8 in H7. change (2 ^ 4) with 16 in *.
    Z.to_euclidean_division_equations. lia. }
  unfold matches. change 0x0f000010 with (Z.lor (Z.shiftl (Z.ones 4) 24) (Z.shiftl (Z.ones 1) 4)).
  rewrite Z.land_lor_distr_r, !land_field, H14 by lia.
  pose proof (field_range opcode 4 1 ltac:(lia)) as Hr. change (2 ^ 1) with 2 in Hr.
  assert (field opcode 4 1 = 0 \/ field opcode 4 1 = 1) as [-> | ->] by lia; [by left|by right].
Qed.

Lemma conditional_avoids opcode address : avoids never_found (evaluate_conditional opcode address).
Proof.
  unfold evaluate_conditional.
  pose proof (matches_class opcode 0 : matches opcode 0x0e000000 0 = _) as H0.
  pose proof (matches_class opcode 1 : matches opcode 0x0e000000 0x02000000 = _) as H1.
  pose proof (matches_class opcode 2 : matches opcode 0x0e000000 0x04000000 = _) as H2.
  pose proof (matches_class opcode 3 : matches opcode 0x0e000000 0x06000000 = _) as H3.
  pose proof (matches_class opcode 4 : matches opcode 0x0e000000 0x08000000 = _) as H4.
  pose proof (matches_class opcode 5 : matches opcode 0x0e000000 0x0a000000 = _) as H5.
  pose proof (matches_class opcode 6 : matches opcode 0x0e000000 0x0c000000 = _) as H6.
  pose proof (matches_class opcode 7 : matches opcode 0x0e000000 0x0e000000 = _) as H7.
  rewrite H0, H1, H2, H3, H4, H5, H6, H7. clear H0 H1 H2 H3 H4 H5 H6 H7.
  pose proof (field_range opcode 25 3 ltac:(lia)) as Hr. change (2 ^ 3) with 8 in Hr.
  destruct (Z.eqb_spec (field opcode 25 3) 0).
  { destruct (matches opcode 0x90 0x90); [apply mul_avoids|].
    destruct (matches opcode 0xf900000 0x1000000); [apply misc_avoids|apply data_proc_avoids]. }
  destruct (Z.eqb_spec (field opcode 25 3) 1).
  { destruct (matches opcode 0xfb00000 0x3000000); [not_never|].
    destruct (matches opcode 0xfb00000 0x3200000); [apply mrs_avoids|apply data_proc_avoids]. }
  destruct (Z.eqb_spec (field opcode 25 3) 2); [apply load_store_avoids|].
  destruct (Z.eqb_spec (field opcode 25 3) 3).
  { destruct (matches opcode 0x10 0); [apply load_store_avoids|].
    destruct (matches opcode 0x7f000f0 0x7f000f0); [not_never|apply media_avoids]. }
  destruct (Z.eqb_spec (field opcode 25 3) 4); [apply ldm_avoids|].
  destruct (Z.eqb_spec (field opcode 25 3) 5); [apply b_bl_avoids|].
  destruct (Z.eqb_spec (field opcode 25 3) 6); [apply ldc_avoids|].
  destruct (Z.eqb_spec (field opcode 25 3) 7) as [H7|]; [|lia].
  destruct (matches opcode 0xf000000 0xf000000) eqn:Hs; [not_never|].
  destruct (class7 opcode H7 Hs) as [-> | E]; [apply cdp_avoids|].
  destruct (matches opcode 0xf000010 0xe000000); [apply cdp_avoids|]. rewrite E. apply cdp_avoids.
Qed.

Lemma unconditional_avoids opcode address e :
  evaluate_unconditional opcode address = Some e -> avoids never_found e.
Proof.
  unfold evaluate_unconditional, evaluate_pld, evaluate_srs, evaluate_unknown.
  destruct (matches opcode 0x8000000 0).
  { intros [= <-]. destruct (matches opcode 0xd70f000 0x550f000); not_never. }
  destruct (matches opcode 0xe000000 0x8000000).
  { intros [= <-]. destruct (_ || _); not_never. }
  destruct (matches opcode 0xe000000 0xa000000); [intros [= <-]; not_never|].
  destruct (matches opcode 0xe000000 0xc000000); [intros [= <-]; apply ldc_avoids|].
  destruct (matches opcode 0xf000100 0xc000000); [intros [= <-]; apply cdp_avoids|].
  destruct (matches opcode 0xf000010 0xc000010); [intros [= <-]; apply cdp_avoids|].
  destruct (matches opcode 0xf000000 0xf000000); [intros [= <-]; not_never|done].
Qed.

(** The decoder knows every opcode: it never fails and the point it says is never
    reached is not.  But some instructions it has types for are never found: MRRC,
    whose test repeats that of MCRR; SMLAW, SMUL and SMULW, whose tests compare a bit
    the mask has removed; SMLAL<x><y>, which gets the type of SMLA<x><y>; and the exclusive
    accesses. *)
Theorem arm_decoder_total opcode address :
  exists i, arm_evaluate_opcode opcode address = inr i
    /\ ai_opcode i = opcode /\ ai_size i = 4 /\ ai_type i ∉ never_found.
Proof.
  assert (exists e, match (if matches opcode 0xf0000000 0xf0000000
      then evaluate_unconditional opcode address else None) with
    | Some e => e | None => evaluate_conditional opcode address end = e
    /\ avoids never_found e) as (e & E & He).
  { eexists. split; [reflexivity|].
    destruct (matches opcode 0xf0000000 0xf0000000); [|apply conditional_avoids].
    destruct (evaluate_unconditional opcode address) as [e|] eqn:Eu; [|apply conditional_avoids].
    by eapply unconditional_avoids. }
  unfold arm_evaluate_opcode. rewrite E. destruct e as [|[t info]]; [done|]. by eexists.
Qed.

(** ** Branches *)

Lemma bits_field x mask k w :
  mask = Z.shiftl (Z.ones w) k -> 0 <= k -> 0 <= w -> bits x mask k = field x k w.
Proof. intros ->. apply shiftr_land_field. Qed.

Lemma land_low x mask w : mask = Z.ones w -> 0 <= w -> Z.land x mask = field x 0 w.
Proof. intros -> Hw. unfold field. rewrite Z.land_ones by done. by rewrite Z.div_1_r. Qed.

Lemma has_field x mask k :
  mask = Z.shiftl (Z.ones 1) k -> 0 <= k -> has x mask = negb (field x k 1 =? 0).
Proof.
  intros -> Hk. unfold has. rewrite land_field by lia. f_equal.
  pose proof (Z.pow_pos_nonneg 2 k). destruct (Z.eqb_spec (field x k 1) 0) as [->|]; [done|].
  apply Z.eqb_neq. nia.
Qed.

(** Two's complement of [w] bits. *)
Definition sext (w x : Z) : Z := if x <? 2 ^ (w - 1) then x else x - 2 ^ w.

Lemma s32_signed z : - 2 ^ 31 <= z < 2 ^ 31 -> s32 z = z.
Proof. intros. unfold s32. rewrite wrap_small; [lia|]. unfold in_range. lia. Qed.

Lemma branch_offset_sext opcode : branch_offset opcode = 4 * sext 24 (field opcode 0 24).
Proof.
  unfold branch_offset. rewrite (land_low opcode 0x00ffffff 24) by done.
  pose proof (field_range opcode 0 24 ltac:(lia)) as Hi. set (i := field opcode 0 24) in *. clearbody i.
  rewrite (has_field i 0x00800000 23) by done.
  assert (field i 23 1 = if i <? 2 ^ 23 then 0 else 1) as ->.
  { unfold field. destruct (Z.ltb_spec i (2 ^ 23)).
    - by rewrite (Z.div_small i) by lia.
    - replace (i / 2 ^ 23) with 1; [done|]. apply Z.div_unique with (i - 2 ^ 23); lia. }
  unfold sext. change (24 - 1) with 23. rewrite Z.shiftl_mul_pow2 by lia.
  destruct (Z.ltb_spec i (2 ^ 23)); cbn [Z.eqb negb].
  - rewrite (s32_signed i), s32_signed by lia. lia.
  - change 0xff000000 with (255 * 2 ^ 24). rewrite lor_add by lia.
    assert (s32 (255 * 2 ^ 24 + i) = i - 2 ^ 24) as ->.
    { unfold s32. replace (255 * 2 ^ 24 + i + 2 ^ 31) with (i - 2 ^ 24 + 2 ^ 31 + 1 * 2 ^ 32) by lia.
      unfold wrap. rewrite Z.mod_add, Z.mod_small by lia. lia. }
    rewrite s32_signed by lia. lia.
Qed.

(** Branches are decoded as the architecture defines them: a conditional opcode with
    bits 27 to 25 equal to 101 is a branch, with link if bit 24 is set, to the
    instruction's address plus 8 plus four times the signed 24-bit immediate. *)
Theorem arm_branch_target opcode address :
  matches opcode 0xf0000000 0xf0000000 = false -> field opcode 25 3 = 5 ->
  arm_evaluate_opcode opcode address
  = inr (mkInstr (if field opcode 24 1 =? 0 then ARM_B else ARM_BL) opcode 4
           (I_branch (-1) (u32 (address + 8 + 4 * sext 24 (field opcode 0 24))))).
Proof.
  intros Hc H5. unfold arm_evaluate_opcode. rewrite Hc. unfold evaluate_conditional.
  rewrite (matches_class opcode 0 : matches opcode 0x0e000000 0 = _),
    (matches_class opcode 1 : matches opcode 0x0e000000 0x02000000 = _),
    (matches_class opcode 2 : matches opcode 0x0e000000 0x04000000 = _),
    (matches_class opcode 3 : matches opcode 0x0e000000 0x06000000 = _),
    (matches_class opcode 4 : matches opcode 0x0e000000 0x08000000 = _),
    (matches_class opcode 5 : matches opcode 0x0e000000 0x0a000000 = _), H5.
  cbn [Z.eqb Pos.eqb]. unfold evaluate_b_bl.
  by rewrite branch_offset_sext, (bits_field opcode 0x01000000 24 1) by done.
Qed.

(** [bl] back to its own address: 0xebfffffe. *)
Lemma arm_branch_target_witness :
  arm_evaluate_opcode 0xebfffffe 0x8000 = inr (mkInstr ARM_BL 0xebfffffe 4 (I_branch (-1) 0x8000)).
Proof. exact (arm_branch_target 0xebfffffe 0x8000 eq_refl eq_refl). Defined.

(** ** Loads and stores

    The architecture's single word and byte accesses (opcode classes 010 and 011). *)
Module Arch.

(** The shifted register; [carry] is the carry flag, used by RRX. *)
Definition shifted (rm type imm5 carry : Z) : Z :=
  if type =? 0 then (rm * 2 ^ imm5) mod 2 ^ 32
  else if type =? 1 then rm / 2 ^ (if imm5 =? 0 then 32 else imm5)
  else if type =? 2 then (s32 rm / 2 ^ (if imm5 =? 0 then 32 else imm5)) mod 2 ^ 32
  else if imm5 =? 0 then carry * 2 ^ 31 + rm / 2
  else rm / 2 ^ imm5 + (rm mod 2 ^ imm5) * 2 ^ (32 - imm5).

Definition offset (op : Z) (regs : Z -> Z) (carry : Z) : Z :=
  if field op 25 1 =? 0 then field op 0 12
  else shifted (regs (field op 0 4)) (field op 5 2) (field op 7 5) carry.

Definition offset_address (op : Z) (regs : Z -> Z) (carry : Z) : Z :=
  let base := regs (field op 16 4) in
  if field op 23 1 =? 1 then u32 (base + offset op regs carry) else u32 (base - offset op regs carry).

(** The address of the access; P = 0 is post-indexed. *)
Definition address (op : Z) (regs : Z -> Z) (carry : Z) : Z :=
  if field op 24 1 =? 1 then offset_address op regs carry else regs (field op 16 4).

Definition writes_back (op : Z) : bool := (field op 24 1 =? 0) || (field op 21 1 =? 1).

(** Registers afterwards; [loaded] is what a load puts into Rd. *)
Definition after (op : Z) (regs : Z -> Z) (carry loaded : Z) (r : Z) : Z :=
  if (field op 20 1 =? 1) && (r =? field op 12 4) then loaded
  else if writes_back op && (r =? field op 16 4) then offset_address op regs carry
  else regs r.

End Arch.

Definition is_single_access (op : Z) : Prop :=
  matches op 0xf0000000 0xf0000000 = false
  /\ (field op 25 3 = 2 \/ field op 25 3 = 3 /\ field op 4 1 = 0).

(** The offsets [evaluate] computes as the architecture does: immediates, LSL, LSR by
    less than 32, and ROR. *)
Definition exact_offset (op : Z) : Prop :=
  field op 25 1 = 0 \/ field op 5 2 = 0 \/ field op 5 2 = 1 /\ field op 7 5 <> 0
  \/ field op 5 2 = 3 /\ field op 7 5 <> 0.

(** The registers the address is made of keep their values, but for the base's update. *)
Definition address_kept (op : Z) : Prop :=
  (field op 20 1 = 1 -> field op 12 4 <> field op 16 4)
  /\ (field op 25 1 = 1 ->
      (field op 20 1 = 1 -> field op 0 4 <> field op 12 4)
      /\ (Arch.writes_back op = true -> field op 0 4 <> field op 16 4)).

(** Offsets are added, or the base register was updated before the access. *)
Definition upward (op : Z) : Prop :=
  field op 23 1 = 1 \/ field op 24 1 = 1 /\ field op 21 1 = 1.

Lemma field_bit x k : field x k 1 = 0 \/ field x k 1 = 1.
Proof. pose proof (field_range x k 1 ltac:(lia)) as H. change (2 ^ 1) with 2 in H. lia. Qed.

Lemma single_access_decoded op addr :
  is_single_access op -> 
  arm_evaluate_opcode op addr
  = match evaluate_load_store op with
    | inl c => inl c
    | inr (t, info) => inr (mkInstr t op 4 info)
    end.
Proof.
  intros [Hc Hcl]. unfold arm_evaluate_opcode. rewrite Hc. unfold evaluate_conditional.
  rewrite (matches_class op 0 : matches op 0x0e000000 0 = _),
    (matches_class op 1 : matches op 0x0e000000 0x02000000 = _),
    (matches_class op 2 : matches op 0x0e000000 0x04000000 = _),
    (matches_class op 3 : matches op 0x0e000000 0x06000000 = _).
  destruct Hcl as [-> | [-> H4]]; cbn [Z.eqb Pos.eqb]; [done|].
  pose proof (matches_field op 4 1 0 ltac:(lia) ltac:(lia)) as E.
  change (matches op 0x10 0 = (field op 4 1 =? 0)) in E. by rewrite E, H4.
Qed.

(** The operands found for a load or store. *)
Definition decoded_ls (op : Z) : arm_load_store_instr :=
  mkLS (field op 12 4) (field op 16 4) (field op 23 1)
    (index_mode (field op 24 1) (field op 21 1))
    (if field op 25 1 =? 0 then Off_imm (field op 0 12)
     else let type := field op 5 2 in let imm5 := field op 7 5 in
          Off_reg (field op 0 4)
            (if (type =? 3) && (imm5 =? 0) then 4 else type)
            (if ((type =? 1) || (type =? 2)) && (imm5 =? 0) then 32 else imm5)).

Lemma load_store_operands op :
  exists t, evaluate_load_store op = inr (t, I_load_store (decoded_ls op))
    /\ t ∈ (if field op 20 1 =? 0 then [ARM_STR; ARM_STRB; ARM_STRT; ARM_STRBT]
            else [ARM_LDR; ARM_LDRB; ARM_LDRT; ARM_LDRBT]).
Proof.
  unfold evaluate_load_store.
  rewrite (bits_field op 0x02000000 25 1), (bits_field op 0x01000000 24 1),
    (bits_field op 0x00800000 23 1), (bits_field op 0x00400000 22 1),
    (bits_field op 0x00200000 21 1), (bits_field op 0x00100000 20 1),
    (bits_field op 0xf000 12 4), (bits_field op 0xf0000 16 4),
    (land_low op 0xfff 12), (land_low op 0xf 4) by done.
  unfold decode_shift. rewrite (bits_field op 0xf80 7 5), (bits_field op 0x60 5 2) by done.
  eexists. split.
  - f_equal. f_equal. f_equal. unfold decoded_ls. f_equal.
    destruct (field op 25 1 =? 0); [done|]. cbv zeta.
    pose proof (field_range op 5 2 ltac:(lia)) as Hr. change (2 ^ 2) with 4 in Hr.
    assert (field op 5 2 = 0 \/ field op 5 2 = 1 \/ field op 5 2 = 2 \/ field op 5 2 = 3)
      as [-> | [-> | [-> | ->]]] by lia;
      cbn [Z.eqb Pos.eqb andb orb]; destruct (field op 7 5 =? 0); done.
  - destruct (negb (field op 22 1 =? 0)), ((field op 24 1 =? 0) && (field op 21 1 =? 1)),
      (field op 20 1 =? 0); set_solver.
Qed.

Lemma shr32_div v n : 0 <= n < 32 -> shr32 v n = Some (v / 2 ^ n).
Proof.
  intros Hn. unfold shr32. rewrite (proj2 (Z.leb_le _ _)), (proj2 (Z.ltb_lt _ _)) by lia.
  cbn [andb]. by rewrite Z.shiftr_div_pow2 by lia.
Qed.

Lemma shl32_mul v n : 0 <= n < 32 -> shl32 v n = Some ((v * 2 ^ n) mod 2 ^ 32).
Proof.
  intros Hn. unfold shl32. rewrite (proj2 (Z.leb_le _ _)), (proj2 (Z.ltb_lt _ _)) by lia.
  cbn [andb]. by rewrite Z.shiftl_mul_pow2 by lia.
Qed.

Lemma ror_rotates v n :
  0 <= v < 2 ^ 32 -> 0 < n < 32 -> ror v n = Some (v / 2 ^ n + (v mod 2 ^ n) * 2 ^ (32 - n)).
Proof.
  intros Hv Hn. unfold ror. rewrite shr32_div, shl32_mul by lia. obind. f_equal.
  assert (0 < 2 ^ n) by (apply Z.pow_pos_nonneg; lia).
  assert (0 < 2 ^ (32 - n)) by (apply Z.pow_pos_nonneg; lia).
  assert (2 ^ 32 = 2 ^ n * 2 ^ (32 - n)) as E by (rewrite <- Z.pow_add_r by lia; f_equal; lia).
  rewrite E, Z.mul_mod_distr_r by lia.
  assert (0 <= v / 2 ^ n < 2 ^ (32 - n)).
  { split; [apply Z.div_pos; lia|apply Z.div_lt_upper_bound; lia]. }
  rewrite Z.lor_comm, lor_add by lia. lia.
Qed.

(** The offset is computed as the architecture defines it. *)
Lemma evaluated_offset_exact op regs carry :
  exact_offset op -> (forall r, 0 <= regs r < 2 ^ 32) ->
  evaluated_offset (ls_offset_of (decoded_ls op)) regs = Some (Arch.offset op regs carry).
Proof.
  intros Hx Hr. unfold decoded_ls, Arch.offset. cbn [ls_offset_of].
  destruct (Z.eqb_spec (field op 25 1) 0) as [|Hi]; [done|]. cbv zeta.
  pose proof (field_range op 7 5 ltac:(lia)) as Hs. change (2 ^ 5) with 32 in Hs.
  unfold evaluated_offset, Arch.shifted.
  destruct Hx as [?|[-> |[[-> Hs0]|[-> Hs0]]]]; [done|..]; cbn [Z.eqb Pos.eqb andb orb].
  - by apply shl32_mul.
  - rewrite (proj2 (Z.eqb_neq _ _) Hs0). cbn [andb]. by apply shr32_div.
  - rewrite (proj2 (Z.eqb_neq _ _) Hs0). apply ror_rotates; [done|lia].
Qed.

(** The registers the offset is made of are not changed by the access. *)
Lemma offset_after op regs carry loaded :
  address_kept op -> Arch.offset op (Arch.after op regs carry loaded) carry = Arch.offset op regs carry.
Proof.
  intros [_ Hk]. unfold Arch.offset. destruct (field_bit op 25) as [E|E]; rewrite E; [done|].
  cbn [Z.eqb]. f_equal. destruct (Hk E) as [Hl Hw]. unfold Arch.after.
  destruct (Z.eqb_spec (field op 20 1) 1) as [H1|]; cbn [andb].
  - rewrite (proj2 (Z.eqb_neq _ _) (Hl H1)).
    destruct (Arch.writes_back op); [|done]. by rewrite (proj2 (Z.eqb_neq _ _) (Hw eq_refl)).
  - destruct (Arch.writes_back op); [|done]. by rewrite (proj2 (Z.eqb_neq _ _) (Hw eq_refl)).
Qed.

Lemma base_after op regs carry loaded :
  address_kept op ->
  Arch.after op regs carry loaded (field op 16 4)
  = if Arch.writes_back op then Arch.offset_address op regs carry else regs (field op 16 4).
Proof.
  intros [Hl _]. unfold Arch.after. rewrite Z.eqb_refl, andb_true_r.
  destruct (Z.eqb_spec (field op 20 1) 1) as [H1|]; cbn [andb]; [|done].
  destruct (Z.eqb_spec (field op 16 4) (field op 12 4)) as [E|]; [|done]. by destruct (Hl H1).
Qed.

(** Decoding and evaluation fit together: for every single
    word or byte load or store, with immediate or (for LSL, LSR by less than 32, ROR)
    scaled register offset, in all three index modes, whose offset is added (or
    whose base was updated before the access), and whose address registers are not
    overwritten by the loaded value, the instruction decoded from the opcode evaluates, with the registers after the access, to the address the architecture
    accesses, and tells whether it is a store.  ([eval_ca9] does not get there: it passes the
    address in place of the opcode.) *)
Theorem arm_recovered_address op addr regs carry loaded :
  is_single_access op -> exact_offset op -> address_kept op -> upward op ->
  (forall r, 0 <= regs r < 2 ^ 32) -> (forall r, 0 <= Arch.after op regs carry loaded r < 2 ^ 32) ->
  exists i r, arm_evaluate_opcode op addr = inr i /\ isMemoryAccess i = true
    /\ analyzer_evaluate i (Arch.after op regs carry loaded) = Some r
    /\ mi_address r = Arch.address op regs carry
    /\ mi_value r = Arch.after op regs carry loaded (field op 12 4)
    /\ mi_writeAccess r = (field op 20 1 =? 0).
Proof.
  intros Hs Hx Hk Hu Hr Hr'. destruct (load_store_operands op) as (t & Et & Ht).
  rewrite single_access_decoded, Et by done. eexists. eexists. split; [reflexivity|].
  split; [|split; [|split; [|split]]].
  - unfold isMemoryAccess, isLoadInstruction, isStoreInstruction. cbn [ai_type].
    apply orb_true_iff. rewrite !bool_decide_eq_true. destruct (field op 20 1 =? 0); set_solver.
  - unfold analyzer_evaluate. cbn [ai_info as_load_store]. obind. unfold evaluate.
    rewrite (evaluated_offset_exact op _ carry), offset_after by done. obind. reflexivity.
  - cbn [mi_address decoded_ls ls_Rn ls_index_mode]. rewrite base_after by done.
    unfold index_mode, Arch.address, Arch.offset_address, Arch.writes_back, upward in *.
    set (off := Arch.offset op regs carry). set (b := regs (field op 16 4)).
    assert (0 <= b < 2 ^ 32) by (apply Hr).
    destruct (field_bit op 24) as [E24|E24]; rewrite E24 in *; cbn [Z.eqb Pos.eqb orb].
    + destruct Hu as [-> |[? _]]; [|lia]. cbn [Z.eqb Pos.eqb]. unfold u32, wrap.
      rewrite Zminus_mod_idemp_l. replace (b + off - off) with b by lia. by apply Z.mod_small.
    + destruct (field_bit op 21) as [E21|E21]; rewrite E21 in *; cbn [Z.eqb Pos.eqb]; [|done].
      destruct Hu as [-> |[_ ?]]; [|lia]. done.
  - done.
  - cbn [mi_writeAccess]. unfold isStoreInstruction. cbn [ai_type].
    destruct (field op 20 1 =? 0); [apply bool_decide_eq_true|apply bool_decide_eq_false];
      set_solver.
Qed.

(** A store that subtracts its offset, STR r0, [r1, #-4]: the sign of the offset is ignored,
    the address found is eight bytes too high. *)
Lemma downward_offset_wrong (regs : Z -> Z) carry loaded :
  regs 1 = 0x1000 ->
  Arch.address 0xe5010004 regs carry = 0xffc
  /\ exists i, arm_evaluate_opcode 0xe5010004 0 = inr i
    /\ (mi_address <$> analyzer_evaluate i (Arch.after 0xe5010004 regs carry loaded)) = Some 0x1004.
Proof.
  intros H1.
  assert (Arch.address 0xe5010004 regs carry = u32 (regs 1 - 4)) as -> by reflexivity.
  rewrite H1. split; [reflexivity|]. eexists. split; [reflexivity|].
  match goal with
  | |- (_ <$> analyzer_evaluate ?i ?f) = _ =>
      transitivity (Some (u32 (f 1 + 4))); [reflexivity|]
  end.
  assert (Arch.after 0xe5010004 regs carry loaded 1 = regs 1) as -> by reflexivity.
  by rewrite H1.
Qed.

Lemma arm_recovered_address_witness :
  exists i r, arm_evaluate_opcode 0xe7810102 0 = inr i
    /\ analyzer_evaluate i (Arch.after 0xe7810102 (fun r => Z.land (r * 16) 0xff) 0 0) = Some r
    /\ mi_address r = 0x90.
Proof.
  assert (forall r, Arch.after 0xe7810102 (fun r => Z.land (r * 16) 0xff) 0 0 r = Z.land (r * 16) 0xff) as E.
  { intros r. unfold Arch.after. reflexivity. }
  destruct (arm_recovered_address 0xe7810102 0 (fun r => Z.land (r * 16) 0xff) 0 0)
    as (i & r & E1 & _ & E2 & E3 & _).
  - split; [reflexivity|]. right. by split.
  - right. left. reflexivity.
  - split; [done|]. intros _. by split.
  - left. reflexivity.
  - intros r. rewrite (land_low _ 0xff 8) by done. pose proof (field_range (r * 16) 0 8). lia.
  - intros r. rewrite E, (land_low _ 0xff 8) by done. pose proof (field_range (r * 16) 0 8). lia.
  - exists i, r. split; [exact E1|]. split; [exact E2|]. rewrite E3. reflexivity.
Defined.
