(* ===== verification/ThumbDecoder.v ===== *)
(** * The Thumb decoders and the access analyzer

    [src/core/sal/arm/ArmDisassembler.cc], the 16-bit ([thumb_evaluate_opcode]) and
    32-bit ([thumb2_opcode]) Thumb instructions, and the analyzer of
    [ArmMemoryInstruction.cc] that uses them on the Cortex-M3 ([eval_cm3]), with the
    instruction map of [util/Disassembler].  The printed text is left out; a
    16-bit opcode is in the low half of its word. *)
From S2P Require Import Prelude Events ArmDecoder.

(** [(opcode >> k) & mask]. *)
Definition part (opcode k mask : Z) : Z := Z.land (Z.shiftr opcode k) mask.

(** ** 16-bit instructions *)

Definition evaluate_b_bl_blx_thumb (opcode address : Z) : Evaluated :=
  let offset := Z.land opcode 0x7ff in
  let opc := part opcode 11 0x3 in
  let offset := if ((opc =? 0) || (opc =? 2)) && has offset 0x400
                then Z.lor 0xfffff800 offset else offset in
  let target_address := u32 (address + 4 + u32 (Z.shiftl offset 1)) in
  match opc with
  | 0 => inr (ARM_B, I_branch (-1) target_address)
  | 1 => inr (ARM_BLX, I_branch (-1) (Z.land target_address 0xfffffffc))
  | 2 => inr (ARM_UNKNOWN_INSTUCTION, I_branch (-1) (u32 (Z.shiftl offset 12)))
  | _ => inr (ARM_BL, I_branch (-1) target_address)
  end.

Definition evaluate_add_sub_thumb (opcode : Z) : Evaluated :=
  let Rd := part opcode 0 0x7 in
  let Rn := part opcode 3 0x7 in
  let Rm_imm := part opcode 6 0x7 in
  inr (if has opcode 0x200 then ARM_SUB else ARM_ADD,
       I_data_proc 1 Rn Rd (if has opcode 0x400 then Op_immediate (Some Rm_imm)
                            else Op_immediate_shift Rm_imm 0 0)).

(** [Rn] is a byte: -1 is stored as 255. *)
Definition evaluate_shift_imm_thumb (opcode : Z) : Evaluated :=
  let Rd := part opcode 0 0x7 in
  let Rm := part opcode 3 0x7 in
  let imm := part opcode 6 0x1f in
  let opc := part opcode 11 0x3 in
  let imm := if (imm =? 0) && negb (opc =? 0) then 32 else imm in
  match opc with
  | 0 | 1 | 2 => inr (ARM_MOV, I_data_proc 1 255 Rd (Op_immediate_shift Rm opc imm))
  | _ => inr (ARM_UNKNOWN_INSTUCTION, I_data_proc 1 255 Rd (Op_immediate_shift Rm 0 imm))
  end.

Definition evaluate_data_proc_imm_thumb (opcode : Z) : Evaluated :=
  let imm := Op_immediate (Some (Z.land opcode 0xff)) in
  let Rd := part opcode 8 0x7 in
  match part opcode 11 0x3 with
  | 0 => inr (ARM_MOV, I_data_proc 1 255 Rd imm)
  | 1 => inr (ARM_CMP, I_data_proc 1 Rd 255 imm)
  | 2 => inr (ARM_ADD, I_data_proc 1 Rd Rd imm)
  | _ => inr (ARM_SUB, I_data_proc 1 Rd Rd imm)
  end.

(** The operands are stored before the upper halves of the register numbers are added
    and before the type is known. *)
Definition data_proc_low_thumb (op Rd Rm : Z) : Evaluated :=
  let plain t := inr (t, I_data_proc 1 Rd Rd (Op_immediate_shift Rm 0 0)) in
  let shift k := inr (ARM_MOV, I_data_proc 1 Rd Rd (Op_register_shift Rd k Rm)) in
  match op with
  | 0 => plain ARM_AND | 1 => plain ARM_EOR
  | 2 => shift 0 | 3 => shift 1 | 4 => shift 2
  | 5 => plain ARM_ADC | 6 => plain ARM_SBC
  | 7 => shift 3
  | 8 => plain ARM_TST
  | 9 => inr (ARM_RSB, I_data_proc 1 Rm Rd (Op_immediate (Some 0)))
  | 10 => plain ARM_CMP | 11 => plain ARM_CMN | 12 => plain ARM_ORR
  | 13 => plain ARM_MUL | 14 => plain ARM_BIC | _ => plain ARM_MVN
  end.

(** For BX and BLX the register number overwrites the operands' kind in the union; the
    rest of the union, read as the target address, is zero. *)
Definition data_proc_high_thumb (opcode op Rd Rm : Z) : Evaluated :=
  let H1 := bits opcode 0x80 7 in
  let H2 := bits opcode 0x40 6 in
  let info := I_data_proc 0 Rd Rd (Op_immediate_shift Rm 0 0) in
  match Z.shiftr op 2 with
  | 0 => inr (ARM_ADD, info)
  | 1 => inr (ARM_CMP, info)
  | 2 => inr (ARM_MOV, info)
  | _ =>
      if Z.land opcode 0x7 =? 0
      then inr (if H1 =? 0 then ARM_BX else ARM_BLX, I_branch (Z.lor Rm (Z.shiftl H2 3)) 0)
      else inr (ARM_UNDEFINED_INSTRUCTION, info)
  end.

Definition evaluate_data_proc_thumb (opcode : Z) : Evaluated :=
  let op := bits opcode 0x3c0 6 in
  let Rd := Z.land opcode 0x7 in
  let Rm := bits opcode 0x38 3 in
  if bits opcode 0x400 10 =? 0 then data_proc_low_thumb op Rd Rm
  else data_proc_high_thumb opcode op Rd Rm.

(** Sign of the offset and fields that are not mentioned stay zero. *)
Definition thumb_ls (Rd Rn mode : Z) (offset : ls_offset) : arm_info :=
  I_load_store (mkLS Rd Rn 0 mode offset).

Definition evaluate_load_literal_thumb (opcode : Z) : Evaluated :=
  inr (ARM_LDR, thumb_ls (part opcode 8 0x7) 15 0 (Off_imm (Z.land opcode 0xff * 4))).

Definition load_store_reg_type (opc : Z) : arm_instruction_type :=
  match opc with
  | 0 => ARM_STR | 1 => ARM_STRH | 2 => ARM_STRB | 3 => ARM_LDRSB
  | 4 => ARM_LDR | 5 => ARM_LDRH | 6 => ARM_LDRB | _ => ARM_LDRSH
  end.

Definition evaluate_load_store_reg_thumb (opcode : Z) : Evaluated :=
  inr (load_store_reg_type (part opcode 9 0x7),
       thumb_ls (part opcode 0 0x7) (part opcode 3 0x7) 0 (Off_reg (part opcode 6 0x7) 0 0)).

(** Byte and halfword accesses have the types of word accesses, too. *)
Definition evaluate_load_store_imm_thumb (opcode : Z) : Evaluated :=
  let offset := part opcode 6 0x1f in
  let shift := if matches opcode 0xf000 0x8000 then 1 else if has opcode 0x1000 then 0 else 2 in
  inr (if has opcode 0x800 then ARM_LDR else ARM_STR,
       thumb_ls (part opcode 0 0x7) (part opcode 3 0x7) 0 (Off_imm (Z.shiftl offset shift))).

Definition evaluate_load_store_stack_thumb (opcode : Z) : Evaluated :=
  inr (if has opcode 0x800 then ARM_LDR else ARM_STR,
       thumb_ls (part opcode 8 0x7) 13 0 (Off_imm (Z.land opcode 0xff * 4))).

Definition evaluate_add_sp_pc_thumb (opcode : Z) : Evaluated :=
  inr (ARM_ADD, I_data_proc 0 (if has opcode 0x800 then 13 else 15) (part opcode 8 0x7)
                  (Op_immediate (Some (Z.land opcode 0xff * 4)))).

Definition evaluate_adjust_stack_thumb (opcode : Z) : Evaluated :=
  inr (if has opcode 0x80 then ARM_SUB else ARM_ADD,
       I_data_proc 0 13 13 (Op_immediate (Some (Z.land opcode 0x7f * 4)))).

Definition evaluate_breakpoint_thumb : Evaluated := typed ARM_BKPT.

Definition evaluate_load_store_multiple_thumb (opcode : Z) : Evaluated :=
  let reg_list := Z.land opcode 0xff in
  let L := has opcode 0x800 in
  let R := has opcode 0x100 in
  let type := if L then ARM_LDM else ARM_STM in
  if matches opcode 0xf000 0xc000
  then inr (type, I_load_store_multiple (part opcode 8 0x7) reg_list 0 0 0)
  else
    let reg_list := if R then Z.lor reg_list (if L then 2 ^ 15 else 2 ^ 14) else reg_list in
    inr (type, I_load_store_multiple 13 reg_list (if L then 0 else 3) 0 0).

Definition evaluate_cond_branch_thumb (opcode address : Z) : Evaluated :=
  let offset := Z.land opcode 0xff in
  let cond := part opcode 8 0xf in
  if cond =? 0xf then typed ARM_SWI
  else if cond =? 0xe then typed ARM_UNDEFINED_INSTRUCTION
  else
    let offset := if has offset 0x80 then Z.lor 0xffffff00 offset else offset in
    inr (ARM_B, I_branch (-1) (u32 (address + 4 + u32 (Z.shiftl offset 1)))).

(** CBZ, extensions, CPS, byte reversal, hints and IT only print. *)
Definition evaluate_printed_thumb : Evaluated := typed ARM_UNKNOWN_INSTUCTION.

Definition evaluate_misc_thumb (opcode : Z) : Evaluated :=
  match part opcode 8 0xf with
  | 0 => evaluate_adjust_stack_thumb opcode
  | 1 | 3 | 9 | 11 => evaluate_printed_thumb
  | 2 => evaluate_printed_thumb
  | 4 | 5 | 12 | 13 => evaluate_load_store_multiple_thumb opcode
  | 6 => evaluate_printed_thumb
  | 10 => if matches opcode 0xc0 0x80 then typed ARM_UNDEFINED_INSTRUCTION
          else evaluate_printed_thumb
  | 14 => evaluate_breakpoint_thumb
  | 15 => evaluate_printed_thumb
  | _ => typed ARM_UNDEFINED_INSTRUCTION
  end.

Definition evaluate_thumb (opcode address : Z) : Evaluated :=
  if matches opcode 0xe000 0 then
    if matches opcode 0x1800 0x1800 then evaluate_add_sub_thumb opcode
    else evaluate_shift_imm_thumb opcode
  else if matches opcode 0xe000 0x2000 then evaluate_data_proc_imm_thumb opcode
  else if matches opcode 0xf800 0x4000 then evaluate_data_proc_thumb opcode
  else if matches opcode 0xf800 0x4800 then evaluate_load_literal_thumb opcode
  else if matches opcode 0xf000 0x5000 then evaluate_load_store_reg_thumb opcode
  else if matches opcode 0xe000 0x6000 || matches opcode 0xf000 0x8000
  then evaluate_load_store_imm_thumb opcode
  else if matches opcode 0xf000 0x9000 then evaluate_load_store_stack_thumb opcode
  else if matches opcode 0xf000 0xa000 then evaluate_add_sp_pc_thumb opcode
  else if matches opcode 0xf000 0xb000 then evaluate_misc_thumb opcode
  else if matches opcode 0xf000 0xc000 then evaluate_load_store_multiple_thumb opcode
  else if matches opcode 0xf000 0xd000 then evaluate_cond_branch_thumb opcode address
  else if matches opcode 0xe000 0xe000 then
    if matches opcode 0xf801 0xe801 then typed ARM_UNDEFINED_INSTRUCTION
    else evaluate_b_bl_blx_thumb opcode address
  else inl (-1).

Definition thumb_evaluate_opcode (opcode address : Z) : Z + arm_instruction :=
  match evaluate_thumb opcode address with
  | inl code => inl code
  | inr (type, info) => inr (mkInstr type opcode 2 info)
  end.

(** ** 32-bit instructions

    The left of the sum is [ERROR_COMMAND_SYNTAX_ERROR], with the operands that were
    already stored. *)
Definition T2ev : Type := (arm_info + arm_instruction_type * arm_info)%type.
Definition t2typed (t : arm_instruction_type) : T2ev := inr (t, I_none).
Definition t2error : T2ev := inl I_none.
Definition t2printed : T2ev := t2typed ARM_UNKNOWN_INSTUCTION.

(** Two bits of the offset are stored exclusive-ored with its sign. *)
Definition t2ev_b_bl (opcode address : Z) : T2ev :=
  let offset := Z.lor (Z.land opcode 0x7ff) (bits opcode 0x03ff0000 5) in
  let S := has opcode (2 ^ 26) in
  let offset := if S then Z.lor offset (Z.shiftl 0xff 23) else offset in
  let b21 := if eqb (has opcode (2 ^ 11)) S then 2 ^ 21 else 0 in
  let b22 := if eqb (has opcode (2 ^ 13)) S then 2 ^ 22 else 0 in
  let offset := Z.lor (Z.lor offset b21) b22 in
  inr (if has opcode (2 ^ 14) then ARM_BL else ARM_B,
       I_branch (-1) (u32 (u32 (address + 4) + u32 (Z.shiftl offset 1)))).

Definition t2ev_cond_b (opcode address : Z) : T2ev :=
  let offset := Z.lor (Z.land opcode 0x7ff) (bits opcode 0x003f0000 5) in
  let S := has opcode (2 ^ 26) in
  let offset := if S then Z.lor offset (Z.shiftl 0x1fff 19) else offset in
  let b17 := if eqb (has opcode (2 ^ 11)) S then 2 ^ 17 else 0 in
  let b18 := if eqb (has opcode (2 ^ 13)) S then 2 ^ 18 else 0 in
  let offset := Z.lor (Z.lor offset b17) b18 in
  inr (ARM_B, I_branch (-1) (u32 (u32 (address + 4) + u32 (Z.shiftl offset 1)))).

Definition t2ev_hint (opcode : Z) : T2ev :=
  if has opcode 0x700 then t2typed ARM_UNDEFINED_INSTRUCTION else t2printed.

Definition t2ev_misc (opcode : Z) : T2ev :=
  match part opcode 4 0xf with 0 | 1 | 2 | 4 | 5 | 6 => t2printed | _ => t2error end.

Definition t2ev_control (opcode : Z) : T2ev :=
  match part opcode 20 0x7f with
  | 0x38 | 0x39 | 0x3c | 0x3e | 0x3f => t2printed
  | 0x3a => t2ev_hint opcode
  | 0x3b => t2ev_misc opcode
  | _ => t2error
  end.

Definition t2ev_b_misc (opcode address : Z) : T2ev :=
  if matches opcode 0x07f07000 0x07f02000 then t2typed ARM_UNDEFINED_INSTRUCTION else
  match part opcode 12 0x5 with
  | 1 | 5 => t2ev_b_bl opcode address
  | 4 => t2error
  | _ =>
      if negb (part opcode 23 0x7 =? 0x7) then t2ev_cond_b opcode address
      else if has opcode (2 ^ 26) then t2error
      else t2ev_control opcode
  end.

Definition t2ev_data_mod_immed (opcode : Z) : T2ev :=
  let rn := part opcode 16 0xf in
  let rd := part opcode 8 0xf in
  match part opcode 21 0xf with
  | 0 => t2typed (if rd =? 0xf then ARM_TST else ARM_AND)
  | 1 => t2typed ARM_BIC
  | 2 => t2typed (if rn =? 0xf then ARM_MOV else ARM_ORR)
  | 3 => if rn =? 0xf then t2typed ARM_MVN else t2printed
  | 4 => t2typed (if rd =? 0xf then ARM_TEQ else ARM_EOR)
  | 8 => t2typed (if rd =? 0xf then ARM_CMN else ARM_ADD)
  | 10 => t2typed ARM_ADC
  | 11 => t2typed ARM_SBC
  | 13 => t2typed (if rd =? 0xf then ARM_CMP else ARM_SUB)
  | 14 => t2typed ARM_RSB
  | _ => t2error
  end.

Definition t2ev_data_immed (opcode : Z) : T2ev :=
  match part opcode 20 0x1f with
  | 0 | 4 | 0x0a | 0x0c | 0x10 | 0x12 | 0x18 | 0x1a | 0x14 | 0x1c | 0x16 => t2printed
  | _ => t2error
  end.

(** The three forms of a store. *)
Definition store_reg (type : arm_instruction_type) (opcode rn rt : Z) : T2ev :=
  inr (type, thumb_ls rt rn 0 (Off_reg (Z.land opcode 0xf) 0 (part opcode 4 0x3))).

Definition store_imm12 (type : arm_instruction_type) (opcode rn rt : Z) : T2ev :=
  inr (type, thumb_ls rt rn 0 (Off_imm (Z.land opcode 0xfff))).

Definition indexed (opcode : Z) : Z :=
  if has opcode 0x100 then if has opcode 0x400 then 1 else 2 else 0.

Definition store_imm8 (type : arm_instruction_type) (opcode rn rt : Z) : T2ev :=
  let immed := Off_imm (Z.land opcode 0xff) in
  if matches opcode 0x700 0x000 || matches opcode 0x700 0x200
  then inl (thumb_ls rt rn 0 immed)
  else inr (type, thumb_ls rt rn (indexed opcode) immed).

Definition t2ev_store_single (opcode : Z) : T2ev :=
  let rn := part opcode 16 0xf in
  let rt := part opcode 12 0xf in
  if rn =? 0xf then t2error else
  let op := part opcode 20 0xf in
  let op := if has opcode 0x800 then Z.lor op 1 else op in
  match op with
  | 0x8 | 0x9 => store_imm12 ARM_STRB opcode rn rt
  | 0x1 => store_imm8 ARM_STRB opcode rn rt
  | 0x0 => store_reg ARM_STRB opcode rn rt
  | 0xa | 0xb => store_imm12 ARM_STRH opcode rn rt
  | 0x3 => store_imm8 ARM_STRH opcode rn rt
  | 0x2 => store_reg ARM_STRH opcode rn rt
  | 0xc | 0xd => store_imm12 ARM_STR opcode rn rt
  | 0x5 => store_imm8 ARM_STR opcode rn rt
  | 0x4 => store_reg ARM_STR opcode rn rt
  | _ => t2error
  end.

Definition t2ev_mul32 (opcode : Z) : T2ev :=
  if matches opcode 0x007000f0 0 || matches opcode 0x007000f0 0x10 then t2printed else t2error.

Definition t2ev_mul64_div (opcode : Z) : T2ev :=
  match part opcode 4 0xf + part opcode 16 0x70 with
  | 0x40 | 0x60 | 0 | 0x20 | 0x1f | 0x3f => t2printed
  | _ => t2error
  end.

(** All eight cases print; no type is set. *)
Definition t2ev_ldm_stm : T2ev := t2printed.

Definition t2ev_ldrex_strex (opcode : Z) : T2ev :=
  let op1op2 := Z.lor (part opcode 20 0x3) (part opcode 21 0xc) in
  let op3 := part opcode 4 0xf in
  match op1op2 with
  | 0 => t2typed ARM_STREX
  | 1 => t2typed ARM_LDREX
  | 4 => match op3 with 4 => t2typed ARM_STREXB | 5 => t2typed ARM_STREXH | _ => t2error end
  | 5 => match op3 with
         | 0 | 1 => t2printed
         | 4 => t2typed ARM_LDREXB | 5 => t2typed ARM_LDREXH | _ => t2error
         end
  | _ => t2typed ARM_LDRD
  end.

Definition t2ev_data_shift (opcode : Z) : T2ev :=
  let rd := part opcode 8 0xf in
  let rn := part opcode 16 0xf in
  let S := has opcode (2 ^ 20) in
  match part opcode 21 0xf with
  | 0 => if rd =? 0xf then if S then t2typed ARM_TST else t2error else t2typed ARM_AND
  | 1 => t2typed ARM_BIC
  | 2 => t2typed (if rn =? 0xf then ARM_MOV else ARM_ORR)
  | 3 => if rn =? 0xf then t2typed ARM_MVN else t2printed
  | 4 => if rd =? 0xf then if S then t2typed ARM_TEQ else t2error else t2typed ARM_EOR
  | 8 => if rd =? 0xf then if S then t2typed ARM_CMN else t2error else t2typed ARM_ADD
  | 0xa => t2typed ARM_ADC
  | 0xb => t2typed ARM_SBC
  | 0xd => if rd =? 0xf then if has opcode (2 ^ 21) then t2typed ARM_CMP else t2error
           else t2typed ARM_SUB
  | 0xe => t2typed ARM_RSB
  | _ => t2error
  end.

Definition t2ev_data_reg (opcode : Z) : T2ev :=
  if part opcode 4 0xf =? 0 then
    match part opcode 21 0x7 with 0 | 1 | 2 | 3 => t2typed ARM_MOV | _ => t2error end
  else if has opcode (2 ^ 7) then
    match part opcode 20 0xf with
    | 0 | 1 | 4 | 5 => t2printed
    | 8 | 9 | 0xa | 0xb =>
        if has opcode (2 ^ 6) then t2error
        else if negb (part opcode 12 0xf =? 0xf) then t2error
        else if negb (has opcode (2 ^ 20)) then t2error
        else match Z.lor (part opcode 19 0x4) (part opcode 4 0x3) with
             | 0 | 1 | 2 | 3 | 4 => t2printed | _ => t2error end
    | _ => t2error
    end
  else t2printed.

(** A literal's operands are not stored. *)
Definition t2ev_load_word (opcode : Z) : T2ev :=
  let rn := part opcode 16 0xf in
  let rt := part opcode 12 0xf in
  if rn =? 0xf then t2typed ARM_LDR
  else if has opcode (2 ^ 23) then inr (ARM_LDR, thumb_ls rt rn 0 (Off_imm (Z.land opcode 0xfff)))
  else if negb (has opcode (Z.shiftl 0x3f 6))
  then inr (ARM_LDR, thumb_ls rt rn 0 (Off_reg (Z.land opcode 0xf) 0 (part opcode 4 0x3)))
  else if part opcode 8 0xf =? 0xe
  then inr (ARM_LDR, thumb_ls rt rn 0 (Off_imm (Z.land opcode 0xff)))
  else if (part opcode 8 0xf =? 0xc) || matches opcode 0x900 0x900 then
    if negb (has opcode 0x500) then t2error
    else inr (ARM_LDR, thumb_ls rt rn (indexed opcode) (Off_imm (Z.land opcode 0xff)))
  else t2error.

(** Loads of bytes and halfwords are printed, no type is set. *)
Definition t2ev_load_byte (rn rt op2 : Z) : T2ev :=
  if Z.land rn rt =? 0xf then t2printed
  else if (rn =? 0xf) && negb (rt =? 0xf) then t2printed
  else if rn =? 0xf then t2error
  else if Z.land op2 0x3c =? 0x38 then t2printed
  else if Z.land op2 0x3c =? 0x30 then t2printed
  else if Z.land op2 0x24 =? 0x24 then t2printed
  else if op2 =? 0 then t2printed
  else t2error.

Definition t2ev_load_byte_hints (opcode : Z) : T2ev :=
  let rn := part opcode 16 0xf in
  let rt := part opcode 12 0xf in
  let op2 := part opcode 6 0x3f in
  match part opcode 23 0x3 with
  | 0 | 2 => t2ev_load_byte rn rt op2
  | _ => t2printed
  end.

Definition t2ev_load_halfword (opcode : Z) : T2ev :=
  let rn := part opcode 16 0xf in
  let rt := part opcode 12 0xf in
  let op2 := part opcode 6 0x3f in
  if rt =? 0xf then t2printed
  else if negb (has opcode (2 ^ 23)) then
    if rn =? 0xf then t2printed
    else if op2 =? 0 then t2printed
    else if Z.land op2 0x3c =? 0x38 then t2printed
    else if (Z.land op2 0x3c =? 0x30) || (Z.land op2 0x24 =? 0x24) then t2printed
    else t2error
  else t2printed.

(** The classes; [None]: not handled ([ERROR_FAIL]). *)
Definition t2_dispatch (opcode address : Z) : option T2ev :=
  if matches opcode 0x1a008000 0x10000000 then Some (t2ev_data_mod_immed opcode)
  else if matches opcode 0x1a008000 0x12000000 then Some (t2ev_data_immed opcode)
  else if matches opcode 0x18008000 0x10008000 then Some (t2ev_b_misc opcode address)
  else if matches opcode 0x1e400000 0x08000000 then Some t2ev_ldm_stm
  else if matches opcode 0x1e400000 0x08400000 then Some (t2ev_ldrex_strex opcode)
  else if matches opcode 0x1f700000 0x18500000 then Some (t2ev_load_word opcode)
  else if matches opcode 0x1e700000 0x18300000 then Some (t2ev_load_halfword opcode)
  else if matches opcode 0x1e700000 0x18100000 then Some (t2ev_load_byte_hints opcode)
  else if matches opcode 0x1f100000 0x18000000 then Some (t2ev_store_single opcode)
  else if matches opcode 0x1e000000 0x0a000000 then Some (t2ev_data_shift opcode)
  else if matches opcode 0x1f000000 0x1a000000 then Some (t2ev_data_reg opcode)
  else if matches opcode 0x1f800000 0x1b000000 then Some (t2ev_mul32 opcode)
  else if matches opcode 0x1f800000 0x1b800000 then Some (t2ev_mul64_div opcode)
  else None.

Definition thumb2_opcode (address opcode : Z) : Z + arm_instruction :=
  if matches opcode 0xf8000000 0xf8000000 || matches opcode 0xf8000000 0xf0000000
     || matches opcode 0xf8000000 0xe8000000
  then inr match t2_dispatch opcode address with
           | Some (inr (type, info)) => mkInstr type opcode 4 info
           | Some (inl info) => mkInstr ARM_UNDEFINED_INSTRUCTION opcode 4 info
           | None => mkInstr ARM_UNKNOWN_INSTUCTION opcode 4 I_none
           end
  else thumb_evaluate_opcode (Z.land opcode 0xffff) address.

(** ** The analyzer on the Cortex-M3 *)

Section analyzer.
Context `{SalConfig}.

(** The disassembled code: opcodes by address. *)
Definition InstructionMap : Type := gmap Z Z.

Definition hasInstructionAt (m_code : InstructionMap) (address : Z) : bool :=
  bool_decide (is_Some (m_code !! address)).

(** An unknown instruction has opcode 0. *)
Definition disassemble (m_code : InstructionMap) (address : Z) : Z :=
  default 0 (m_code !! address).

Definition findPrevious (m_code : InstructionMap) (address : Z) : Z :=
  if hasInstructionAt m_code address then address
  else let before := wrap addr_bits (address - 2) in
       if hasInstructionAt m_code before then before else 0.

Definition eval_cm3 (m_code : InstructionMap) (address : Z) (regs : Z -> Z)
    : option (bool * option MemoryInstruction) :=
  let address := findPrevious m_code address in
  let opcode := u32 (disassemble m_code address) in
  match thumb2_opcode (u32 address) opcode with
  | inr i =>
      if isMemoryAccess i then r ← analyzer_evaluate i regs; Some (true, Some r)
      else Some (false, None)
  | inl _ => Some (false, None)
  end.

(** [eval] for the one configuration that is compiled. *)
Definition eval := eval_cm3.
End analyzer.
