(* ===== verification/ThumbTheorems.v ===== *)
(** * Theorems on the Thumb decoders and the Cortex-M3 analyzer

    Every Thumb opcode is decoded, with the length the architecture gives it; branch
    targets; the single loads and stores whose address the analyzer recovers, and
    those it does not see or gets wrong. *)
From S2P Require Import Prelude Events ArmDecoder ArmTheorems ThumbDecoder.

(** ** Tests on an opcode whose upper part is known *)

Lemma land_div x m k : 0 <= k -> Z.land x m / 2 ^ k = Z.land (x / 2 ^ k) (m / 2 ^ k).
Proof. intros. rewrite <- !Z.shiftr_div_pow2 by lia. apply Z.shiftr_land. Qed.

Lemma land_high x m k :
  0 <= k -> m mod 2 ^ k = 0 -> Z.land x m = Z.land (x / 2 ^ k) (m / 2 ^ k) * 2 ^ k.
Proof.
  intros Hk Hm. rewrite <- land_div by lia. pose proof (Z.pow_pos_nonneg 2 k).
  rewrite (Z.div_mod (Z.land x m) (2 ^ k)) at 1 by lia.
  assert (Z.land x m mod 2 ^ k = 0) as ->; [|lia].
  rewrite <- Z.land_ones, <- Z.land_assoc, Z.land_ones, Hm by lia. apply Z.land_0_r.
Qed.

Section upper.
Context (x k h : Z) (Hk : 0 <= k) (Hx : x / 2 ^ k = h).

Lemma matches_false m v : matches h (m / 2 ^ k) (v / 2 ^ k) = false -> matches x m v = false.
Proof.
  intros E. apply Z.eqb_neq. intros Hm. apply Z.eqb_neq in E. apply E.
  by rewrite <- Hx, <- land_div, Hm.
Qed.

Lemma matches_true m v :
  m mod 2 ^ k = 0 -> v mod 2 ^ k = 0 -> matches h (m / 2 ^ k) (v / 2 ^ k) = true ->
  matches x m v = true.
Proof.
  intros Hm Hv E. apply Z.eqb_eq in E. apply Z.eqb_eq. pose proof (Z.pow_pos_nonneg 2 k).
  rewrite (land_high x m k), Hx, E by done. rewrite (Z.div_mod v (2 ^ k)) at 2 by lia. lia.
Qed.

Lemma has_upper m b : m mod 2 ^ k = 0 -> has h (m / 2 ^ k) = b -> has x m = b.
Proof.
  intros Hm <-. unfold has. rewrite (land_high x m k), Hx by done. f_equal.
  pose proof (Z.pow_pos_nonneg 2 k). destruct (Z.eqb_spec (Z.land h (m / 2 ^ k)) 0) as [->|]; [done|].
  apply Z.eqb_neq. nia.
Qed.

Lemma part_upper j mask v : k <= j -> part h (j - k) mask = v -> part x j mask = v.
Proof.
  intros Hj <-. unfold part. rewrite <- Hx, <- Z.shiftr_div_pow2, Z.shiftr_shiftr by lia.
  do 2 f_equal. lia.
Qed.

Lemma upper_range : h * 2 ^ k <= x < (h + 1) * 2 ^ k.
Proof.
  pose proof (Z.pow_pos_nonneg 2 k). pose proof (Z.mul_div_le x (2 ^ k)).
  pose proof (Z.mul_succ_div_gt x (2 ^ k)). rewrite Hx in *. lia.
Qed.
End upper.

(** Decides the tests on [x] that [H : x / 2 ^ k = h] decides. *)
Ltac by_upper H :=
  match type of H with
  | ?x / 2 ^ ?k = ?h =>
      repeat match goal with
      | |- context [matches x ?m ?v] =>
          first [ rewrite (matches_false x k h ltac:(lia) H m v eq_refl)
                | rewrite (matches_true x k h ltac:(lia) H m v eq_refl eq_refl eq_refl) ]
      end; cbn [orb andb negb]
  end.

Lemma part_field x k w mask : mask = Z.ones w -> 0 <= k -> 0 <= w -> part x k mask = field x k w.
Proof.
  intros -> Hk Hw. unfold part, field. by rewrite Z.land_ones, Z.shiftr_div_pow2 by lia.
Qed.

(** ** Every opcode is decoded *)

Lemma thumb_total opcode address :
  0 <= opcode < 2 ^ 16 -> exists e, evaluate_thumb opcode address = inr e.
Proof.
  intros Hr. 
  assert (0 <= opcode / 2 ^ 11 < 32) as Hh.
  { split; [apply Z.div_pos; lia|apply Z.div_lt_upper_bound; lia]. }
  unfold evaluate_thumb.
  remember (opcode / 2 ^ 11) as h eqn:Hx. symmetry in Hx.
  assert (exists e, evaluate_load_store_multiple_thumb opcode = inr e).
  { unfold evaluate_load_store_multiple_thumb. destruct (matches _ _ _); by eexists. }
  assert (exists e, evaluate_misc_thumb opcode = inr e).
  { unfold evaluate_misc_thumb. repeat case_match; (assumption || by eexists). }
  assert (exists e, evaluate_data_proc_thumb opcode = inr e).
  { unfold evaluate_data_proc_thumb, data_proc_low_thumb, data_proc_high_thumb.
    repeat case_match; by eexists. }
  assert (exists e, evaluate_shift_imm_thumb opcode = inr e).
  { unfold evaluate_shift_imm_thumb. repeat case_match; by eexists. }
  assert (exists e, evaluate_data_proc_imm_thumb opcode = inr e).
  { unfold evaluate_data_proc_imm_thumb. repeat case_match; by eexists. }
  assert (exists e, evaluate_cond_branch_thumb opcode address = inr e).
  { unfold evaluate_cond_branch_thumb. repeat case_match; by eexists. }
  assert (exists e, evaluate_b_bl_blx_thumb opcode address = inr e).
  { unfold evaluate_b_bl_blx_thumb. repeat case_match; by eexists. }
  assert (exists i : nat, h = Z.of_nat i /\ (i < 32)%nat) as (i & -> & Hi).
  { exists (Z.to_nat h). lia. }
  do 32 (destruct i as [|i]; [by_upper Hx; repeat case_match; (assumption || by eexists)|]). lia.
Qed.

(** Length by the first five bits, as the architecture has it. *)
Lemma is_32bit opcode :
  (matches opcode 0xf8000000 0xf8000000 || matches opcode 0xf8000000 0xf0000000
     || matches opcode 0xf8000000 0xe8000000) = (0x1d <=? field opcode 27 5).
Proof.
  rewrite (matches_field opcode 27 5 0x1f ltac:(lia) ltac:(lia)
             : matches opcode 0xf8000000 0xf8000000 = _),
    (matches_field opcode 27 5 0x1e ltac:(lia) ltac:(lia)
             : matches opcode 0xf8000000 0xf0000000 = _),
    (matches_field opcode 27 5 0x1d ltac:(lia) ltac:(lia)
             : matches opcode 0xf8000000 0xe8000000 = _).
  pose proof (field_range opcode 27 5 ltac:(lia)) as Hr. change (2 ^ 5) with 32 in Hr.
  destruct (Z.leb_spec 0x1d (field opcode 27 5)).
  - assert (field opcode 27 5 = 0x1d \/ field opcode 27 5 = 0x1e \/ field opcode 27 5 = 0x1f)
      as [-> | [-> | ->]] by lia; done.
  - rewrite !(proj2 (Z.eqb_neq _ _)) by lia. done.
Qed.

(** Every Thumb opcode is decoded: [thumb2_opcode] never fails, the point it says is
    never reached is not, and the instruction found has four bytes exactly if the
    first five bits are 11101, 11110 or 11111, else two. *)
Theorem thumb_decoder_total opcode address :
  exists i, thumb2_opcode address opcode = inr i
    /\ ai_size i = (if 0x1d <=? field opcode 27 5 then 4 else 2)
    /\ ai_opcode i = (if 0x1d <=? field opcode 27 5 then opcode else field opcode 0 16).
Proof.
  unfold thumb2_opcode. rewrite is_32bit. destruct (0x1d <=? field opcode 27 5).
  - eexists. split; [reflexivity|]. by destruct (t2_dispatch opcode address) as [[|[]]|].
  - rewrite (land_low opcode 0xffff 16) by done. unfold thumb_evaluate_opcode.
    destruct (thumb_total (field opcode 0 16) address) as [[t info] ->].
    { apply (field_range opcode 0 16). lia. }
    by eexists.
Qed.

(** ** Branches *)

Lemma has_bit x k : 0 <= k -> has x (2 ^ k) = (field x k 1 =? 1).
Proof.
  intros. rewrite (has_field x (2 ^ k) k); [|by rewrite Z.shiftl_1_l|done].
  by destruct (field_bit x k) as [-> | ->].
Qed.

Lemma matches_bit_false x m v i :
  0 <= i -> Z.testbit m i = true -> field x i 1 <> Z.b2z (Z.testbit v i) -> matches x m v = false.
Proof.
  intros Hi Hm Hv. apply Z.eqb_neq. intros E. apply (f_equal (fun z => Z.testbit z i)) in E.
  rewrite Z.land_spec, Hm, andb_true_r in E. apply Hv. unfold field.
  by rewrite <- Z.testbit_spec', E by lia.
Qed.

(** A test implies those on parts of its mask. *)
Lemma matches_part x m v m' :
  matches x m v = true -> Z.land m m' = m' -> Z.land x m' = Z.land v m'.
Proof. intros E%Z.eqb_eq Hm. by rewrite <- Hm, Z.land_assoc, E, Hm. Qed.

(** Bits 28 and 27 are 10 and bit 15 is set: branches and control. *)
Lemma control_class opcode address :
  field opcode 27 5 = 0x1e -> field opcode 15 1 = 1 ->
  t2_dispatch opcode address = Some (t2ev_b_misc opcode address).
Proof.
  intros Hc H15. unfold t2_dispatch.
  rewrite (matches_bit_false opcode 0x1a008000 0x10000000 15),
    (matches_bit_false opcode 0x1a008000 0x12000000 15) by (done || by rewrite H15).
  assert (matches opcode 0x18008000 0x10008000 = true) as ->; [|done].
  unfold matches. change 0x18008000 with (Z.lor (Z.shiftl (Z.ones 2) 27) (Z.shiftl (Z.ones 1) 15)).
  rewrite Z.land_lor_distr_r, (land_field opcode 27 2), (land_field opcode 15 1), H15 by lia.
  assert (field opcode 27 2 = 2) as ->; [|done].
  unfold field in *. change (2 ^ 2) with 4. change (2 ^ 5) with (4 * 8) in Hc.
  rewrite Z.rem_mul_r in Hc by lia. pose proof (Z.mod_pos_bound (opcode / 2 ^ 27) 4). lia.
Qed.

(** Offsets by the architecture: B.W and BL (encoding T4 and T1), conditional B.W (T3). *)
Definition branch_offset24 (op : Z) : Z :=
  let s := field op 26 1 in
  2 * sext 24 (s * 2 ^ 23 + (if field op 13 1 =? s then 1 else 0) * 2 ^ 22
               + (if field op 11 1 =? s then 1 else 0) * 2 ^ 21 + field op 16 10 * 2 ^ 11 + field op 0 11).

Definition branch_offset20 (op : Z) : Z :=
  2 * sext 20 (field op 26 1 * 2 ^ 19 + field op 11 1 * 2 ^ 18 + field op 13 1 * 2 ^ 17
               + field op 16 6 * 2 ^ 11 + field op 0 11).

Lemma immediate_bits opcode w mask :
  mask = Z.shiftl (Z.ones w) 16 -> 0 <= w ->
  Z.lor (Z.land opcode 0x7ff) (bits opcode mask 5) = field opcode 16 w * 2 ^ 11 + field opcode 0 11.
Proof.
  intros -> Hw. unfold bits. rewrite land_field, (land_low opcode 0x7ff 11) by done.
  rewrite Z.shiftr_div_pow2 by lia.
  replace (field opcode 16 w * 2 ^ 16) with (field opcode 16 w * 2 ^ 11 * 2 ^ 5) by lia.
  rewrite Z.div_mul by lia. rewrite Z.lor_comm. apply lor_add; [lia|]. by apply field_range.
Qed.

Lemma u32_add a b : u32 (u32 a + u32 b) = u32 (a + b).
Proof. unfold u32, wrap. by rewrite <- Zplus_mod. Qed.

Lemma u32_eq a b n : a = b + n * 2 ^ 32 -> u32 a = u32 b.
Proof. intros ->. unfold u32, wrap. apply Z.mod_add. lia. Qed.

Lemma low_bits_lor l c k : 0 <= k -> 0 <= l < 2 ^ k -> Z.lor l (c * 2 ^ k) = c * 2 ^ k + l.
Proof. intros. rewrite Z.lor_comm. by apply lor_add. Qed.

(** Adds the constant bits above [l], one case at a time. *)
Ltac add_upper l k :=
  rewrite <- !Z.lor_assoc;
  match goal with
  | |- context [Z.lor l ?c] =>
      let d := eval vm_compute in (c / 2 ^ k) in
      change c with (d * 2 ^ k); rewrite (low_bits_lor l d k) by lia
  end;
  rewrite Z.shiftl_mul_pow2 by lia; unfold l;
  match goal with |- context [?a <? ?b] => destruct (Z.ltb_spec a b) end; try lia;
  first [apply (u32_eq _ _ 0); lia | apply (u32_eq _ _ 1); lia | apply (u32_eq _ _ 2); lia].

Lemma b_bl_target opcode address :
  t2ev_b_bl opcode address
  = inr (if field opcode 14 1 =? 1 then ARM_BL else ARM_B,
         I_branch (-1) (u32 (address + 4 + branch_offset24 opcode))).
Proof.
  unfold t2ev_b_bl, branch_offset24. rewrite (immediate_bits opcode 10) by done.
  rewrite !has_bit by lia. cbv zeta.
  pose proof (field_range opcode 16 10 ltac:(lia)). pose proof (field_range opcode 0 11 ltac:(lia)).
  set (l := field opcode 16 10 * 2 ^ 11 + field opcode 0 11).
  assert (0 <= l < 2 ^ 21) by (unfold l; lia).
  do 3 f_equal. rewrite u32_add. unfold sext.
  destruct (field_bit opcode 26) as [-> | ->], (field_bit opcode 13) as [-> | ->],
    (field_bit opcode 11) as [-> | ->]; cbn [Z.eqb Pos.eqb eqb]; add_upper l 21.
Qed.

(** What the code takes the conditional branch's offset for: the two bits are swapped and
    exclusive-ored with the sign, as in the other form. *)
Definition found_offset20 (op : Z) : Z :=
  let s := field op 26 1 in
  2 * sext 20 (s * 2 ^ 19 + (if field op 13 1 =? s then 1 else 0) * 2 ^ 18
               + (if field op 11 1 =? s then 1 else 0) * 2 ^ 17 + field op 16 6 * 2 ^ 11 + field op 0 11).

Lemma cond_b_target opcode address :
  t2ev_cond_b opcode address
  = inr (ARM_B, I_branch (-1) (u32 (address + 4 + found_offset20 opcode))).
Proof.
  unfold t2ev_cond_b, found_offset20. rewrite (immediate_bits opcode 6) by done.
  rewrite !has_bit by lia. cbv zeta.
  pose proof (field_range opcode 16 6 ltac:(lia)). pose proof (field_range opcode 0 11 ltac:(lia)).
  set (l := field opcode 16 6 * 2 ^ 11 + field opcode 0 11).
  assert (0 <= l < 2 ^ 17) by (unfold l; lia).
  do 3 f_equal. rewrite u32_add. unfold sext.
  destruct (field_bit opcode 26) as [-> | ->], (field_bit opcode 13) as [-> | ->],
    (field_bit opcode 11) as [-> | ->]; cbn [Z.eqb Pos.eqb eqb]; add_upper l 17.
Qed.

Lemma u32_inj_small a d : u32 (a + d) = u32 a -> - 2 ^ 32 < d < 2 ^ 32 -> d = 0.
Proof.
  unfold u32, wrap. intros E Hd.
  apply (f_equal (fun z => (z - a mod 2 ^ 32) mod 2 ^ 32)) in E.
  rewrite Z.sub_diag, <- Zminus_mod, Z.mod_0_l in E by lia. replace (a + d - a) with d in E by lia.
  apply Z.mod_divide in E as [q E]; lia.
Qed.

Lemma offset20_right opcode a :
  u32 (a + found_offset20 opcode) = u32 (a + branch_offset20 opcode)
  <-> (field opcode 11 1 = field opcode 13 1 <-> field opcode 26 1 = 1).
Proof.
  pose proof (field_range opcode 16 6 ltac:(lia)). pose proof (field_range opcode 0 11 ltac:(lia)).
  transitivity (found_offset20 opcode = branch_offset20 opcode).
  - split; [|by intros ->]. intros E.
    replace (a + found_offset20 opcode)
      with (a + branch_offset20 opcode + (found_offset20 opcode - branch_offset20 opcode)) in E by lia.
    apply u32_inj_small in E; [lia|]. unfold found_offset20, branch_offset20, sext.
    pose proof (field_bit opcode 26). pose proof (field_bit opcode 13). pose proof (field_bit opcode 11).
    repeat case_match; lia.
  - unfold found_offset20, branch_offset20, sext.
    destruct (field_bit opcode 26) as [-> | ->], (field_bit opcode 13) as [-> | ->],
      (field_bit opcode 11) as [-> | ->]; cbn [Z.eqb Pos.eqb];
    repeat match goal with |- context [?x <? ?y] => destruct (Z.ltb_spec x y) end; lia.
Qed.

Lemma part_12_5 opcode : part opcode 12 0x5 = field opcode 12 1 + 4 * field opcode 14 1.
Proof.
  unfold part. change 0x5 with (Z.lor (Z.ones 1) (Z.shiftl (Z.ones 1) 2)).
  rewrite Z.land_lor_distr_r, (land_low (Z.shiftr opcode 12) (Z.ones 1) 1), land_field by done.
  pose proof (field_range (Z.shiftr opcode 12) 0 1 ltac:(lia)) as Hr. change (2 ^ 1) with 2 in Hr.
  rewrite Z.lor_comm, lor_add by lia.
  unfold field. rewrite !Z.shiftr_div_pow2, !Z.div_div by lia.
  change (2 ^ 12 * 2 ^ 0) with (2 ^ 12). change (2 ^ 12 * 2 ^ 2) with (2 ^ 14). lia.
Qed.

Lemma t2_control opcode address :
  field opcode 27 5 = 0x1e -> field opcode 15 1 = 1 ->
  thumb2_opcode address opcode
  = inr match t2ev_b_misc opcode address with
        | inr (type, info) => mkInstr type opcode 4 info
        | inl info => mkInstr ARM_UNDEFINED_INSTRUCTION opcode 4 info
        end.
Proof.
  intros Hc H15. unfold thumb2_opcode. rewrite is_32bit, Hc, control_class by done.
  cbn. by destruct (t2ev_b_misc opcode address) as [|[]].
Qed.

(** Targets of 32-bit Thumb branches: B.W and BL get the target the architecture
    defines, for every offset.  For conditional branches the two upper offset bits are
    treated the same way although they are encoded differently: the target is right
    exactly if these bits are equal and the offset is negative, or differ and it is not;
    so it is wrong for every forward branch of less than 256 KiB. *)
Theorem t2_branch_targets opcode address :
  field opcode 27 5 = 0x1e -> field opcode 15 1 = 1 ->
  exists i, thumb2_opcode address opcode = inr i
  /\ (field opcode 12 1 = 1 ->
      ai_type i = (if field opcode 14 1 =? 1 then ARM_BL else ARM_B)
      /\ ai_info i = I_branch (-1) (u32 (address + 4 + branch_offset24 opcode)))
  /\ (field opcode 12 1 = 0 -> field opcode 14 1 = 0 -> field opcode 23 3 <> 7 ->
      ai_type i = ARM_B
      /\ (ai_info i = I_branch (-1) (u32 (address + 4 + branch_offset20 opcode))
          <-> (field opcode 11 1 = field opcode 13 1 <-> field opcode 26 1 = 1))).
Proof.
  intros Hc H15. rewrite t2_control by done. eexists. split; [reflexivity|].
  unfold t2ev_b_misc. rewrite part_12_5. split.
  - intros H12. rewrite (matches_bit_false opcode 0x07f07000 0x07f02000 12) by (done || by rewrite H12).
    rewrite H12, b_bl_target. by destruct (field_bit opcode 14) as [-> | ->].
  - intros H12 H14 H7. rewrite H12, H14. cbn [Z.mul Z.add].
    destruct (matches opcode 0x07f07000 0x07f02000) eqn:E.
    { exfalso. apply H7. apply (matches_part _ _ _ (Z.shiftl (Z.ones 3) 23)) in E; [|done].
      rewrite land_field in E by lia. change (Z.land _ _) with (7 * 2 ^ 23) in E. lia. }
    rewrite (part_field opcode 23 3) by done. rewrite (proj2 (Z.eqb_neq _ _) H7). cbn [negb].
    rewrite cond_b_target. cbn [ai_type ai_info]. split; [done|].
    rewrite <- (offset20_right opcode (address + 4)). split; [by intros [= ->]|by intros ->].
Qed.

(** BNE.W to the instruction after the next: the offset found is 0xc0000 too large. *)
Lemma t2_branch_targets_witness :
  field 0xf0408000 27 5 = 0x1e
  /\ (exists i, thumb2_opcode 0x100 0xf0408000 = inr i
      /\ ai_info i <> I_branch (-1) (u32 (0x100 + 4 + branch_offset20 0xf0408000)))
  /\ exists i, thumb2_opcode 0x100 0xf7fffffe = inr i /\ ai_info i = I_branch (-1) 0x100.
Proof.
  split; [reflexivity|]. split.
  - destruct (t2_branch_targets 0xf0408000 0x100 eq_refl eq_refl) as (i & E & _ & H).
    exists i. split; [exact E|]. destruct (H eq_refl eq_refl ltac:(done)) as [_ Hi].
    intros Hf. apply Hi in Hf as [Hf _]. specialize (Hf eq_refl). by vm_compute in Hf.
  - destruct (t2_branch_targets 0xf7fffffe 0x100 eq_refl eq_refl) as (i & E & H & _).
    exists i. split; [exact E|]. by destruct (H eq_refl) as [_ ->].
Defined.

(** ** Loads and stores

    The architecture's single loads and stores whose operands are an added or
    subtracted immediate or a scaled register, 16-bit instructions by their upper
    four bits, 32-bit ones by their upper twelve. *)
Module ThumbArch.

Inductive Offset := O_imm (n : Z) | O_reg (Rm shift : Z).

Record Access := mkAccess {
  acc_store : bool; acc_Rt : Z; acc_Rn : Z; acc_offset : Offset;
  acc_P : bool; acc_U : bool; acc_W : bool
}.

Definition plain (store : bool) (Rt Rn : Z) (o : Offset) : Access :=
  mkAccess store Rt Rn o true true false.

Definition access16 (hw : Z) : option Access :=
  let f := field hw in
  match hw / 2 ^ 12 with
  | 5 => Some (plain (f 9 3 <? 3) (f 0 3) (f 3 3) (O_reg (f 6 3) 0))
  | 6 => Some (plain (f 11 1 =? 0) (f 0 3) (f 3 3) (O_imm (4 * f 6 5)))
  | 7 => Some (plain (f 11 1 =? 0) (f 0 3) (f 3 3) (O_imm (f 6 5)))
  | 8 => Some (plain (f 11 1 =? 0) (f 0 3) (f 3 3) (O_imm (2 * f 6 5)))
  | 9 => Some (plain (f 11 1 =? 0) (f 8 3) 13 (O_imm (4 * f 0 8)))
  | _ => None
  end.

(** The register form and the indexed forms, which share the upper bits. *)
Definition access_reg_imm8 (store : bool) (op : Z) : option Access :=
  let f := field op in
  if f 11 1 =? 0 then
    if f 6 5 =? 0 then Some (plain store (f 12 4) (f 16 4) (O_reg (f 0 4) (f 4 2))) else None
  else if (f 10 1 =? 0) && (f 8 1 =? 0) then None
  else Some (mkAccess store (f 12 4) (f 16 4) (O_imm (f 0 8))
               (f 10 1 =? 1) (f 9 1 =? 1) (f 8 1 =? 1)).

Definition access_imm12 (store : bool) (op : Z) : option Access :=
  Some (plain store (field op 12 4) (field op 16 4) (O_imm (field op 0 12))).

(** STRB, STRH, STR and LDR. *)
Definition access32 (op : Z) : option Access :=
  let h := op / 2 ^ 20 in
  if field op 16 4 =? 15 then None
  else if (h =? 0xf88) || (h =? 0xf8a) || (h =? 0xf8c) then access_imm12 true op
  else if h =? 0xf8d then access_imm12 false op
  else if (h =? 0xf80) || (h =? 0xf82) || (h =? 0xf84) then access_reg_imm8 true op
  else if h =? 0xf85 then access_reg_imm8 false op
  else None.

Definition access (op : Z) : option Access :=
  if op <? 2 ^ 16 then access16 op else access32 op.

Definition offset_value (a : Access) (regs : Z -> Z) : Z :=
  match acc_offset a with
  | O_imm n => n
  | O_reg Rm shift => (regs Rm * 2 ^ shift) mod 2 ^ 32
  end.

Definition offset_address (a : Access) (regs : Z -> Z) : Z :=
  let off := offset_value a regs in
  (if acc_U a then regs (acc_Rn a) + off else regs (acc_Rn a) - off) mod 2 ^ 32.

Definition address (a : Access) (regs : Z -> Z) : Z :=
  if acc_P a then offset_address a regs else regs (acc_Rn a).

(** The registers after the access; [loaded] is what a load read. *)
Definition after (a : Access) (regs : Z -> Z) (loaded r : Z) : Z :=
  if negb (acc_store a) && (r =? acc_Rt a) then loaded
  else if acc_W a && (r =? acc_Rn a) then offset_address a regs
  else regs r.

(** The load does not overwrite the registers of its address, and the code's neglect of
    the sign does not matter. *)
Definition kept (a : Access) : Prop :=
  acc_store a = false -> acc_Rt a <> acc_Rn a
    /\ forall Rm s, acc_offset a = O_reg Rm s -> acc_Rt a <> Rm.
Definition upward (a : Access) : Prop := acc_U a = true \/ acc_P a = true /\ acc_W a = true.

End ThumbArch.
Import ThumbArch.

(** How the decoder represents an access. *)
Definition represents (a : Access) (ls : arm_load_store_instr) : Prop :=
  ls_Rd ls = acc_Rt a /\ ls_Rn ls = acc_Rn a
  /\ ls_index_mode ls = (if acc_W a then if acc_P a then 1 else 2 else 0)
  /\ ls_offset_of ls = match acc_offset a with O_imm n => Off_imm n | O_reg r s => Off_reg r 0 s end
  /\ (acc_W a = false -> acc_P a = true)
  /\ (forall r s, acc_offset a = O_reg r s -> acc_W a = false /\ 0 <= s < 32).

Definition decodes (a : Access) (t : arm_instruction_type) (info : arm_info) : Prop :=
  t ∈ (if acc_store a then store_types else load_types)
  /\ exists ls, info = I_load_store ls /\ represents a ls.

Ltac in_types := apply (bool_decide_unpack _); vm_compute; exact I.

Lemma plain_represents store Rt Rn o ls :
  ls = mkLS Rt Rn 0 0 (match o with O_imm n => Off_imm n | O_reg r s => Off_reg r 0 s end) ->
  (forall r s, o = O_reg r s -> 0 <= s < 32) -> represents (plain store Rt Rn o) ls.
Proof. intros -> Hs. repeat split; try done; by eapply Hs. Qed.

Lemma store_reg_type opc : 0 <= opc < 8 ->
  load_store_reg_type opc ∈ (if opc <? 3 then store_types else load_types).
Proof.
  intros. assert (opc = 0 \/ opc = 1 \/ opc = 2 \/ opc = 3 \/ opc = 4 \/ opc = 5 \/ opc = 6 \/ opc = 7)
    as [->|[->|[->|[->|[->|[->|[->| ->]]]]]]] by lia; in_types.
Qed.

Lemma load_or_store opcode :
  (if has opcode 0x800 then ARM_LDR else ARM_STR)
  ∈ (if field opcode 11 1 =? 0 then store_types else load_types).
Proof.
  rewrite (has_bit opcode 11 ltac:(lia) : has opcode 0x800 = _).
  destruct (field_bit opcode 11) as [-> | ->]; in_types.
Qed.

(** The immediate form, with the shift of its offset. *)
Lemma imm_thumb_decoded hw s :
  0 <= s ->
  (if matches hw 0xf000 0x8000 then 1 else if has hw 0x1000 then 0 else 2) = s ->
  exists t info, evaluate_load_store_imm_thumb hw = inr (t, info)
    /\ decodes (plain (field hw 11 1 =? 0) (field hw 0 3) (field hw 3 3) (O_imm (2 ^ s * field hw 6 5)))
         t info.
Proof.
  intros Hs E. unfold evaluate_load_store_imm_thumb. rewrite E.
  rewrite (part_field hw 6 5), (part_field hw 0 3), (part_field hw 3 3) by done.
  eexists _, _. split; [reflexivity|]. split; [apply load_or_store|].
  eexists. split; [reflexivity|]. apply plain_represents; [|done].
  by rewrite Z.shiftl_mul_pow2, Z.mul_comm by lia.
Qed.

Lemma access16_decoded hw address a :
  access16 hw = Some a ->
  exists t info, evaluate_thumb hw address = inr (t, info) /\ decodes a t info.
Proof.
  unfold access16. intros Ha. destruct (hw / 2 ^ 12) as [|p|p] eqn:Hx; try done.
  do 4 (try (destruct p as [p|p|]; try done)); injection Ha as <-; unfold evaluate_thumb; by_upper Hx.
  - (* 7 *)
    replace (field hw 6 5) with (2 ^ 0 * field hw 6 5) by lia. apply (imm_thumb_decoded hw 0); [done|].
    by_upper Hx. by rewrite (has_upper hw 12 7 ltac:(lia) Hx 0x1000 true eq_refl eq_refl).
  - (* 9 *)
    unfold evaluate_load_store_stack_thumb. rewrite (part_field hw 8 3), (land_low hw 0xff 8) by done.
    eexists _, _. split; [reflexivity|]. split; [apply load_or_store|].
    eexists. split; [reflexivity|]. apply plain_represents; [|done]. by rewrite (Z.mul_comm (field hw 0 8)).
  - (* 5 *)
    unfold evaluate_load_store_reg_thumb.
    rewrite (part_field hw 9 3), (part_field hw 0 3), (part_field hw 3 3), (part_field hw 6 3) by done.
    eexists _, _. split; [reflexivity|]. split; [apply store_reg_type, (field_range hw 9 3); lia|].
    eexists. split; [reflexivity|]. apply plain_represents; [done|]. intros r s [= _ <-]. lia.
  - (* 6 *)
    apply (imm_thumb_decoded hw 2); [done|].
    by_upper Hx. by rewrite (has_upper hw 12 6 ltac:(lia) Hx 0x1000 false eq_refl eq_refl).
  - (* 8 *)
    apply (imm_thumb_decoded hw 1); [done|]. by by_upper Hx.
Qed.

Lemma field_cons x k w : 0 <= k -> 0 <= w -> field x k (1 + w) = field x k 1 + 2 * field x (k + 1) w.
Proof.
  intros. unfold field. rewrite !Z.pow_add_r by lia. change (2 ^ 1) with 2.
  pose proof (Z.pow_pos_nonneg 2 k). pose proof (Z.pow_pos_nonneg 2 w).
  by rewrite <- Z.div_div, Z.rem_mul_r by lia.
Qed.

Lemma land_two x i j :
  0 <= i < j -> Z.land x (Z.lor (2 ^ i) (2 ^ j)) = field x i 1 * 2 ^ i + field x j 1 * 2 ^ j.
Proof.
  intros. rewrite Z.land_lor_distr_r, <- (Z.shiftl_1_l i), <- (Z.shiftl_1_l j).
  rewrite (land_field x i 1 ltac:(lia) ltac:(lia) : Z.land x (Z.shiftl 1 i) = _),
    (land_field x j 1 ltac:(lia) ltac:(lia) : Z.land x (Z.shiftl 1 j) = _), !Z.shiftl_1_l.
  assert (2 ^ i < 2 ^ j) by (apply Z.pow_lt_mono_r; lia).
  pose proof (Z.pow_pos_nonneg 2 i). rewrite Z.lor_comm, lor_add; [lia|lia|].
  pose proof (field_bit x i). nia.
Qed.

(** The bits P, U, W of the indexed forms. *)
Section indexed_form.
Context (op : Z) (Hpw : (field op 10 1 =? 0) && (field op 8 1 =? 0) = false).

Lemma indexed_value :
  indexed op = if field op 8 1 =? 1 then if field op 10 1 =? 1 then 1 else 2 else 0.
Proof.
  unfold indexed. rewrite (has_bit op 8 ltac:(lia) : has op 0x100 = _),
    (has_bit op 10 ltac:(lia) : has op 0x400 = _). done.
Qed.

Lemma indexed_represents store rt rn :
  represents (mkAccess store rt rn (O_imm (field op 0 8))
                (field op 10 1 =? 1) (field op 9 1 =? 1) (field op 8 1 =? 1))
    (mkLS rt rn 0 (indexed op) (Off_imm (field op 0 8))).
Proof.
  rewrite indexed_value. repeat split; try done. cbn [acc_W acc_P].
  destruct (field_bit op 8) as [E8|E8], (field_bit op 10) as [E10|E10]; rewrite E8, E10 in *; done.
Qed.

Lemma store_imm8_decoded type rn rt :
  store_imm8 type op rn rt = inr (type, thumb_ls rt rn (indexed op) (Off_imm (field op 0 8))).
Proof.
  unfold store_imm8. rewrite (land_low op 0xff 8) by done.
  rewrite (matches_field op 8 3 0 ltac:(lia) ltac:(lia) : matches op 0x700 0 = _),
    (matches_field op 8 3 2 ltac:(lia) ltac:(lia) : matches op 0x700 0x200 = _).
  rewrite (field_cons op 8 2 ltac:(lia) ltac:(lia) : field op 8 3 = _),
    (field_cons op 9 1 ltac:(lia) ltac:(lia) : field op (8 + 1) 2 = _).
  change (9 + 1) with 10.
  destruct (field_bit op 8) as [E8|E8], (field_bit op 10) as [E10|E10], (field_bit op 9) as [E9|E9];
    rewrite E8, E10, ?E9 in *; done.
Qed.

Lemma load_imm8_decoded rn rt :
  field op 11 1 = 1 -> has op (2 ^ 23) = false -> part op 16 0xf = rn -> rn <> 15 ->
  part op 12 0xf = rt ->
  t2ev_load_word op = inr (ARM_LDR, thumb_ls rt rn (indexed op) (Off_imm (field op 0 8))).
Proof.
  intros H11 H23 <- Hrn <-. unfold t2ev_load_word. rewrite (proj2 (Z.eqb_neq _ _) Hrn), H23.
  assert (has op (Z.shiftl 0x3f 6) = true) as ->.
  { unfold has. rewrite (land_field op 6 6 ltac:(lia) ltac:(lia) : Z.land op (Z.shiftl 0x3f 6) = _).
    rewrite (field_cons op 6 5 ltac:(lia) ltac:(lia) : field op 6 6 = _),
      (field_cons op 7 4 ltac:(lia) ltac:(lia) : field op (6 + 1) 5 = _),
      (field_cons op 8 3 ltac:(lia) ltac:(lia) : field op (7 + 1) 4 = _),
      (field_cons op 9 2 ltac:(lia) ltac:(lia) : field op (8 + 1) 3 = _),
      (field_cons op 10 1 ltac:(lia) ltac:(lia) : field op (9 + 1) 2 = _).
    change (10 + 1) with 11. rewrite H11.
    pose proof (field_bit op 6). pose proof (field_bit op 7). pose proof (field_bit op 8).
    pose proof (field_bit op 9). pose proof (field_bit op 10).
    apply negb_true_iff, Z.eqb_neq. lia. }
  cbn [negb]. rewrite (part_field op 8 4), !(land_low op 0xff 8) by done.
  rewrite (field_cons op 8 3 ltac:(lia) ltac:(lia) : field op 8 4 = _),
    (field_cons op 9 2 ltac:(lia) ltac:(lia) : field op (8 + 1) 3 = _),
    (field_cons op 10 1 ltac:(lia) ltac:(lia) : field op (9 + 1) 2 = _).
  change (10 + 1) with 11. unfold matches, has.
  rewrite (land_two op 8 11 ltac:(lia) : Z.land op 0x900 = _),
    (land_two op 8 10 ltac:(lia) : Z.land op 0x500 = _), indexed_value, H11.
  destruct (field_bit op 8) as [E8|E8], (field_bit op 10) as [E10|E10], (field_bit op 9) as [E9|E9];
    rewrite E8, E10, ?E9 in *; done.
Qed.
End indexed_form.

Lemma store_types_elem t : t ∈ [ARM_STRB; ARM_STRH; ARM_STR] -> t ∈ store_types.
Proof. unfold store_types. set_solver. Qed.

(** Stores, by the width [t] that bits 22 and 21 say. *)
Lemma store_imm12_single op h t :
  op / 2 ^ 20 = h -> (h, t) ∈ [(0xf88, ARM_STRB); (0xf8a, ARM_STRH); (0xf8c, ARM_STR)] ->
  part op 16 0xf <> 15 ->
  t2ev_store_single op = store_imm12 t op (part op 16 0xf) (part op 12 0xf).
Proof.
  intros Hx Ht Hrn. unfold t2ev_store_single. rewrite (proj2 (Z.eqb_neq _ _) Hrn).
  repeat (apply elem_of_cons in Ht as [[= -> ->]|Ht];
    [rewrite (part_upper op 20 _ ltac:(lia) Hx 20 0xf _ ltac:(lia) eq_refl);
     by destruct (has op 0x800)|]).
  by apply elem_of_nil in Ht.
Qed.

Lemma store_other_single op h t :
  op / 2 ^ 20 = h -> (h, t) ∈ [(0xf80, ARM_STRB); (0xf82, ARM_STRH); (0xf84, ARM_STR)] ->
  part op 16 0xf <> 15 ->
  t2ev_store_single op
  = (if field op 11 1 =? 0 then store_reg else store_imm8) t op (part op 16 0xf) (part op 12 0xf).
Proof.
  intros Hx Ht Hrn. unfold t2ev_store_single. rewrite (proj2 (Z.eqb_neq _ _) Hrn).
  rewrite (has_bit op 11 ltac:(lia) : has op 0x800 = _).
  repeat (apply elem_of_cons in Ht as [[= -> ->]|Ht];
    [rewrite (part_upper op 20 _ ltac:(lia) Hx 20 0xf _ ltac:(lia) eq_refl);
     by destruct (field_bit op 11) as [-> | ->]|]).
  by apply elem_of_nil in Ht.
Qed.

Lemma reg_represents op store rt rn :
  represents (plain store rt rn (O_reg (field op 0 4) (field op 4 2)))
    (mkLS rt rn 0 0 (Off_reg (field op 0 4) 0 (field op 4 2))).
Proof.
  apply plain_represents; [done|]. intros r s [= _ <-].
  pose proof (field_range op 4 2 ltac:(lia)) as Hr. change (2 ^ 2) with 4 in Hr. lia.
Qed.

Lemma store32_decoded op h t a :
  op / 2 ^ 20 = h -> field op 16 4 <> 15 ->
  (h, t) ∈ [(0xf88, ARM_STRB); (0xf8a, ARM_STRH); (0xf8c, ARM_STR)] /\ access_imm12 true op = Some a
  \/ (h, t) ∈ [(0xf80, ARM_STRB); (0xf82, ARM_STRH); (0xf84, ARM_STR)] /\ access_reg_imm8 true op = Some a ->
  exists info, t2ev_store_single op = inr (t, info) /\ decodes a t info.
Proof.
  intros Hx Hrn Hc. rewrite <- (part_field op 16 4 0xf) in Hrn by done.
  assert (t ∈ store_types) as Ht.
  { apply store_types_elem. destruct Hc as [[H _]|[H _]]; set_solver. }
  destruct Hc as [[H Ha]|[H Ha]].
  - rewrite (store_imm12_single op h t) by done. injection Ha as <-. unfold store_imm12.
    rewrite (land_low op 0xfff 12), (part_field op 16 4), (part_field op 12 4) by done.
    eexists. split; [reflexivity|]. split; [done|]. eexists. split; [reflexivity|].
    by apply plain_represents.
  - rewrite (store_other_single op h t) by done. unfold access_reg_imm8 in Ha.
    rewrite (part_field op 16 4), (part_field op 12 4) by done.
    destruct (field op 11 1 =? 0).
    + destruct (field op 6 5 =? 0); [|done]. injection Ha as <-. unfold store_reg.
      rewrite (land_low op 0xf 4), (part_field op 4 2) by done.
      eexists. split; [reflexivity|]. split; [done|]. eexists. split; [reflexivity|].
      apply reg_represents.
    + destruct ((field op 10 1 =? 0) && (field op 8 1 =? 0)) eqn:Hpw; [done|]. injection Ha as <-.
      rewrite store_imm8_decoded by done.
      eexists. split; [reflexivity|]. split; [done|]. eexists. split; [reflexivity|].
      by apply indexed_represents.
Qed.

Lemma load32_decoded op a :
  field op 16 4 <> 15 ->
  op / 2 ^ 20 = 0xf8d /\ access_imm12 false op = Some a
  \/ op / 2 ^ 20 = 0xf85 /\ access_reg_imm8 false op = Some a ->
  exists info, t2ev_load_word op = inr (ARM_LDR, info) /\ decodes a ARM_LDR info.
Proof.
  intros Hrn [[Hx Ha]|[Hx Ha]].
  - injection Ha as <-. unfold t2ev_load_word.
    rewrite (part_field op 16 4), (part_field op 12 4), (land_low op 0xfff 12) by done.
    rewrite (proj2 (Z.eqb_neq _ _) Hrn), (has_upper op 20 _ ltac:(lia) Hx (2 ^ 23) true eq_refl eq_refl).
    eexists. split; [reflexivity|]. split; [in_types|]. eexists. split; [reflexivity|].
    by apply plain_represents.
  - pose proof (has_upper op 20 _ ltac:(lia) Hx (2 ^ 23) false eq_refl eq_refl) as H23.
    unfold access_reg_imm8 in Ha. destruct (Z.eqb_spec (field op 11 1) 0) as [H11|H11].
    + destruct (Z.eqb_spec (field op 6 5) 0) as [H6|]; [|done]. injection Ha as <-.
      unfold t2ev_load_word. rewrite H23.
      rewrite (part_field op 16 4), (part_field op 12 4), (land_low op 0xf 4), (part_field op 4 2) by done.
      rewrite (proj2 (Z.eqb_neq _ _) Hrn).
      assert (has op (Z.shiftl 0x3f 6) = false) as ->.
      { unfold has. rewrite (land_field op 6 6 ltac:(lia) ltac:(lia) : Z.land op (Z.shiftl 0x3f 6) = _).
        assert (field op 6 6 = 0) as ->; [|done]. unfold field in *.
        change (2 ^ 6) with (2 ^ 5 * 2) at 2. rewrite Z.rem_mul_r, Z.div_div, H6 by lia.
        change (2 ^ 6 * 2 ^ 5) with (2 ^ 11). change (2 ^ 1) with 2 in H11. lia. }
      eexists. split; [reflexivity|]. split; [in_types|]. eexists. split; [reflexivity|].
      apply reg_represents.
    + destruct ((field op 10 1 =? 0) && (field op 8 1 =? 0)) eqn:Hpw; [done|]. injection Ha as <-.
      rewrite (load_imm8_decoded op Hpw (field op 16 4) (field op 12 4))
        by (done || (by apply part_field) || (destruct (field_bit op 11); lia)).
      eexists. split; [reflexivity|]. split; [in_types|]. eexists. split; [reflexivity|].
      by apply indexed_represents.
Qed.

(** The premises of a store's case. *)
Ltac by_store lem Hx :=
  apply lem;
  [ done
   | first [left; split; [in_types|assumption] | right; split; [in_types|assumption]]
   | unfold t2_dispatch; by_upper Hx; reflexivity ].

Lemma access32_dispatched op address a :
  access32 op = Some a ->
  exists t info, t2_dispatch op address = Some (inr (t, info)) /\ decodes a t info
    /\ field op 27 5 = 0x1f.
Proof.
  unfold access32. cbv zeta. intros Ha.
  assert (forall h, op / 2 ^ 20 = h -> h / 2 ^ 7 = 0x1f -> field op 27 5 = 0x1f) as H27.
  { intros h <- E. unfold field. rewrite Z.div_div in E by lia.
    change (2 ^ 20 * 2 ^ 7) with (2 ^ 27) in E. by rewrite E. }
  destruct (Z.eqb_spec (field op 16 4) 15) as [|Hrn]; [done|].
  assert (forall h t, op / 2 ^ 20 = h -> h / 2 ^ 7 = 0x1f ->
      (h, t) ∈ [(0xf88, ARM_STRB); (0xf8a, ARM_STRH); (0xf8c, ARM_STR)] /\ access_imm12 true op = Some a
      \/ (h, t) ∈ [(0xf80, ARM_STRB); (0xf82, ARM_STRH); (0xf84, ARM_STR)] /\ access_reg_imm8 true op = Some a ->
      t2_dispatch op address = Some (t2ev_store_single op) ->
      exists t info, t2_dispatch op address = Some (inr (t, info)) /\ decodes a t info
        /\ field op 27 5 = 0x1f) as Hstore.
  { intros h t Hx Hh Hc ->. destruct (store32_decoded op h t a Hx Hrn Hc) as (info & -> & Hd). eauto 6. }
  repeat match type of Ha with
  | (if ?x =? ?y then _ else _) = _ => destruct (Z.eqb_spec x y) as [Hx|]
  | (if ?b || (?x =? ?y) then _ else _) = _ =>
      destruct (Z.eqb_spec x y) as [Hx|]; [rewrite orb_true_r in Ha|rewrite orb_false_r in Ha]
  end; [..|done].
  all: try (first [by_store (Hstore _ ARM_STR Hx) Hx | by_store (Hstore _ ARM_STRH Hx) Hx
                  | by_store (Hstore _ ARM_STRB Hx) Hx]).
  all: destruct (load32_decoded op a Hrn) as (info & E & Hd); [first [by left; split | by right; split]|].
  all: exists ARM_LDR, info; split_and!; [|done|by eapply H27].
  all: unfold t2_dispatch; by_upper Hx; by rewrite E.
Qed.

(** Every access of the architecture's list is decoded. *)
Lemma access_decoded op address a :
  0 <= op -> access op = Some a ->
  exists t info sz, thumb2_opcode address op = inr (mkInstr t op sz info) /\ decodes a t info.
Proof.
  intros Hop Ha. unfold access in Ha. unfold thumb2_opcode. rewrite is_32bit.
  destruct (Z.ltb_spec op (2 ^ 16)).
  - assert (field op 27 5 = 0) as -> by (unfold field; by rewrite (Z.div_small op) by lia).
    cbn [Z.leb Z.compare Pos.compare]. rewrite (land_low op 0xffff 16) by done.
    assert (field op 0 16 = op) as ->.
    { unfold field. rewrite Z.div_1_r. apply Z.mod_small. lia. }
    destruct (access16_decoded op address a Ha) as (t & info & E & Hd).
    exists t, info, 2. unfold thumb_evaluate_opcode. by rewrite E.
  - destruct (access32_dispatched op address a Ha) as (t & info & E & Hd & ->).
    exists t, info, 4. cbn [Z.leb Z.compare Pos.compare Pos.compare_cont]. by rewrite E.
Qed.

(** ** Recovering the access *)

Lemma types_access t op sz info store :
  t ∈ (if store : bool then store_types else load_types) ->
  isMemoryAccess (mkInstr t op sz info) = true
  /\ isStoreInstruction (mkInstr t op sz info) = store.
Proof.
  intros Ht. unfold isMemoryAccess, isLoadInstruction, isStoreInstruction. cbn [ai_type].
  destruct store.
  - rewrite (bool_decide_eq_true_2 (t ∈ store_types)) by done. by rewrite orb_true_r.
  - rewrite (bool_decide_eq_true_2 (t ∈ load_types)) by done. split; [done|].
    apply bool_decide_eq_false. intros Hs. unfold load_types, store_types in *.
    repeat (apply elem_of_cons in Ht as [->|Ht]; [revert Hs; apply (bool_decide_unpack _); vm_compute; exact I|]).
    by apply elem_of_nil in Ht.
Qed.

Section recovered.
Context (a : Access) (regs : Z -> Z) (loaded : Z) (ls : arm_load_store_instr).
Context (Hls : represents a ls) (Hk : kept a) (Hu : ThumbArch.upward a).
Context (Hr : forall r, 0 <= regs r < 2 ^ 32).

Lemma after_base :
  after a regs loaded (acc_Rn a) = if acc_W a then offset_address a regs else regs (acc_Rn a).
Proof.
  unfold after. rewrite Z.eqb_refl, andb_true_r.
  destruct (acc_store a) eqn:Es; cbn [negb andb]; [done|].
  destruct (Hk Es) as [Hn _]. by rewrite (proj2 (Z.eqb_neq _ _) (not_eq_sym Hn)).
Qed.

Lemma after_offset :
  evaluated_offset (ls_offset_of ls) (after a regs loaded) = Some (offset_value a regs).
Proof.
  destruct Hls as (_ & _ & _ & -> & _ & Hs). unfold evaluated_offset, offset_value.
  destruct (acc_offset a) as [n|r s] eqn:Eo; [done|]. destruct (Hs r s eq_refl) as [Hw Hs'].
  rewrite shl32_mul by lia. do 3 f_equal. unfold after. rewrite Hw.
  destruct (acc_store a) eqn:Es; cbn [negb andb]; [done|].
  destruct (Hk Es) as [_ Hm]. by rewrite (proj2 (Z.eqb_neq _ _) (not_eq_sym (Hm _ _ Eo))).
Qed.

Lemma evaluate_access :
  evaluate ls (after a regs loaded) = Some (ThumbArch.address a regs, after a regs loaded (acc_Rt a)).
Proof.
  unfold evaluate. rewrite after_offset. obind.
  destruct Hls as (-> & -> & -> & _ & Hpw & _). rewrite after_base. do 2 f_equal.
  unfold ThumbArch.address, offset_address, ThumbArch.upward in *.
  pose proof (Hr (acc_Rn a)) as Hb. set (b := regs (acc_Rn a)) in *. set (off := offset_value a regs).
  destruct (acc_W a); [destruct (acc_P a)|]; cbn [Z.eqb Pos.eqb].
  - done.
  - destruct Hu as [-> |[? _]]; [|done]. unfold u32, wrap. rewrite Zminus_mod_idemp_l.
    replace (b + off - off) with b by lia. by apply Z.mod_small.
  - rewrite Hpw by done. destruct Hu as [-> |[_ ?]]; [|done]. done.
Qed.
End recovered.

(** Where the analyzer looks for the instruction. *)
Definition found_at `{SalConfig} (code : InstructionMap) (address op : Z) : Prop :=
  code !! address = Some op
  \/ code !! address = None /\ code !! wrap addr_bits (address - 2) = Some op.

Lemma found_opcode `{SalConfig} code address op :
  found_at code address op -> disassemble code (findPrevious code address) = op.
Proof.
  unfold disassemble, findPrevious, hasInstructionAt. intros [E|[E E']]; rewrite E.
  - rewrite (bool_decide_eq_true_2 (is_Some _)) by done. by rewrite E.
  - rewrite (bool_decide_eq_false_2 (is_Some None)) by (by intros []).
    rewrite E', (bool_decide_eq_true_2 (is_Some _)) by done. by rewrite E'.
Qed.

(** C25. The analyzer of the Cortex-M3 finds the access of the instruction it is asked about: if the
    instruction at the given address (or, if none begins there, the one two bytes before it) is a
    single load or store with immediate or register offset, of the 16-bit set (loads relative to the program counter
    excepted) or of the 32-bit set (stores and word loads), in any of the index modes, whose offset is added
    (or whose base was updated before the access) and whose load keeps the registers of
    the address, then [eval] reports, from the registers right after that instruction, the address
    the architecture accesses, the value of the register and whether it was a store.  Nothing is said for an address
    further behind: where the debugger stops one or two instructions after the access, the
    instruction evaluated is the one it stopped at or the one before. *)
Theorem thumb_recovered_address `{SalConfig} (code : InstructionMap) where_ op a regs loaded :
  found_at code where_ op -> 0 <= op < 2 ^ 32 -> access op = Some a ->
  kept a -> ThumbArch.upward a -> (forall r, 0 <= regs r < 2 ^ 32) ->
  eval code where_ (after a regs loaded)
  = Some (true, Some (mkMemInstr (ThumbArch.address a regs) (after a regs loaded (acc_Rt a)) 4
                        (acc_store a))).
Proof.
  intros Hf Hop Ha Hk Hu Hr. unfold eval, eval_cm3. rewrite (found_opcode code where_ op Hf).
  rewrite (u32_small op) by done.
  destruct (access_decoded op (u32 (findPrevious code where_)) a) as (t & info & sz & -> & Ht & ls & -> & Hls);
    [lia|done|].
  destruct (types_access t op sz (I_load_store ls) (acc_store a) Ht) as [-> Es].
  unfold analyzer_evaluate. cbn [ai_info as_load_store]. obind.
  rewrite (evaluate_access a regs loaded ls Hls Hk Hu Hr). obind. by rewrite Es.
Qed.

(** STR.W r2, [r1], #4: the base was increased after the access. *)
Lemma thumb_recovered_address_witness :
  exists regs, eval (H := sal_32) {[0x8000 := 0xf8412b04]} 0x8000 regs
    = Some (true, Some (mkMemInstr 0x1000 0x1000 4 true)).
Proof.
  exists (after (mkAccess true 2 1 (O_imm 4) false true true) (fun _ => 0x1000) 0).
  rewrite (thumb_recovered_address (H := sal_32) {[0x8000 := 0xf8412b04]} 0x8000 0xf8412b04).
  - reflexivity.
  - left. reflexivity.
  - lia.
  - reflexivity.
  - done.
  - left. reflexivity.
  - done.
Defined.

(** ** Accesses that are not seen or read wrongly

    By the upper bits: 32-bit loads of bytes and halfwords, signed or not; multiple
    loads and stores; double-word loads and stores. *)
Definition narrow_loads : list Z := [0xf81; 0xf83; 0xf89; 0xf8b; 0xf91; 0xf93; 0xf99; 0xf9b].
Definition multiples : list Z :=
  [0xe80; 0xe81; 0xe82; 0xe83; 0xe88; 0xe89; 0xe8a; 0xe8b;
   0xe90; 0xe91; 0xe92; 0xe93; 0xe98; 0xe99; 0xe9a; 0xe9b].
Definition doubles : list Z :=
  [0xe86; 0xe87; 0xe8e; 0xe8f; 0xe94; 0xe95; 0xe96; 0xe97; 0xe9c; 0xe9d; 0xe9e; 0xe9f].

Definition missed (op : Z) : Prop :=
  op / 2 ^ 20 ∈ narrow_loads \/ op / 2 ^ 20 ∈ multiples \/ op / 2 ^ 20 ∈ doubles.

(** 16-bit multiple loads and stores, PUSH and POP; word loads relative to the program
    counter; exclusive word accesses. *)
Definition misread (op : Z) : Prop :=
  op / 2 ^ 12 = 0xc \/ op / 2 ^ 9 = 0x5a \/ op / 2 ^ 9 = 0x5e
  \/ op / 2 ^ 16 = 0xf85f \/ op / 2 ^ 16 = 0xf8df \/ op / 2 ^ 20 = 0xe84 \/ op / 2 ^ 20 = 0xe85.

Definition no_access (e : T2ev) : Prop :=
  match e with inl _ => True | inr (t, _) => t ∈ [ARM_UNKNOWN_INSTUCTION; ARM_LDRD] end.

Lemma byte_no_access op : no_access (t2ev_load_byte_hints op).
Proof. unfold t2ev_load_byte_hints, t2ev_load_byte. repeat case_match; (exact I || in_types). Qed.

Lemma halfword_no_access op : no_access (t2ev_load_halfword op).
Proof. unfold t2ev_load_halfword. repeat case_match; (exact I || in_types). Qed.

Lemma ldm_no_access : no_access t2ev_ldm_stm.
Proof. apply elem_of_cons. by left. Qed.

Lemma ldrd_no_access : no_access (t2typed ARM_LDRD).
Proof. apply elem_of_cons. right. by apply list_elem_of_singleton. Qed.

(** One case per value of the upper bits. *)
Ltac each_upper H tac :=
  repeat (apply elem_of_cons in H as [H|H]; [tac H|]); by apply elem_of_nil in H.

Lemma missed_no_access op address :
  missed op -> (0x1d <=? op / 2 ^ 27) = true /\ exists e, t2_dispatch op address = Some e /\ no_access e.
Proof.
  assert (forall h, op / 2 ^ 20 = h -> op / 2 ^ 27 = h / 2 ^ 7) as H27.
  { intros h <-. by rewrite Z.div_div by lia. }
  intros [H|[H|H]]; unfold narrow_loads, multiples, doubles in H.
  - each_upper H ltac:(fun Hx => rewrite (H27 _ Hx); split; [reflexivity|]; unfold t2_dispatch; by_upper Hx;
      eexists; (split; [reflexivity|]);
      lazymatch goal with
      | |- no_access (t2ev_load_halfword _) => apply halfword_no_access
      | _ => apply byte_no_access
      end).
  - each_upper H ltac:(fun Hx => rewrite (H27 _ Hx); split; [reflexivity|]; unfold t2_dispatch; by_upper Hx;
      eexists; (split; [reflexivity|]); apply ldm_no_access).
  - each_upper H ltac:(fun Hx => rewrite (H27 _ Hx); split; [reflexivity|]; unfold t2_dispatch; by_upper Hx;
      eexists; (split; [reflexivity|]); unfold t2ev_ldrex_strex;
      rewrite (part_upper op 20 _ ltac:(lia) Hx 20 0x3 _ ltac:(lia) eq_refl),
        (part_upper op 20 _ ltac:(lia) Hx 21 0xc _ ltac:(lia) eq_refl); apply ldrd_no_access).
Qed.

Lemma upper_32bit op : 0 <= op < 2 ^ 32 -> field op 27 5 = op / 2 ^ 27.
Proof.
  intros. unfold field. apply Z.mod_small. split; [apply Z.div_pos; lia|].
  apply Z.div_lt_upper_bound; lia.
Qed.

Lemma multiple_thumb op :
  exists t info, evaluate_load_store_multiple_thumb op = inr (t, info)
    /\ (t ∈ load_types \/ t ∈ store_types)
    /\ exists Rn l m, info = I_load_store_multiple Rn l m 0 0.
Proof.
  unfold evaluate_load_store_multiple_thumb.
  destruct (has op 0x800), (matches op 0xf000 0xc000); eexists _, _;
    (split; [reflexivity|]); (split; [|by eexists _, _, _]); first [left; in_types|right; in_types].
Qed.

(** PUSH and POP: bit 8 of the opcode is free. *)
Lemma push_pop_misc op h :
  op / 2 ^ 9 = h -> h = 0x5a \/ h = 0x5e ->
  evaluate_misc_thumb op = evaluate_load_store_multiple_thumb op.
Proof.
  intros Hx Hh. unfold evaluate_misc_thumb. rewrite (part_field op 8 4) by done.
  rewrite (field_cons op 8 3 ltac:(lia) ltac:(lia) : field op 8 4 = _).
  change (8 + 1) with 9. rewrite <- (part_field op 9 3 0x7) by done.
  destruct Hh as [-> | ->]; rewrite (part_upper op 9 _ ltac:(lia) Hx 9 0x7 _ ltac:(lia) eq_refl);
    by destruct (field_bit op 8) as [-> | ->].
Qed.

Lemma misread_info op address :
  0 <= op < 2 ^ 32 -> misread op ->
  exists t sz info, thumb2_opcode address op = inr (mkInstr t op sz info)
    /\ (t ∈ load_types \/ t ∈ store_types)
    /\ (info = I_none \/ exists Rn l m, info = I_load_store_multiple Rn l m 0 0).
Proof.
  intros Hop Hm. unfold thumb2_opcode. rewrite is_32bit, upper_32bit by done.
  assert (forall k h, 0 <= k <= 27 -> op / 2 ^ k = h -> op / 2 ^ 27 = h / 2 ^ (27 - k)) as H27.
  { intros k h Hk <-. rewrite Z.div_div, <- Z.pow_add_r by lia. do 2 f_equal. lia. }
  assert (forall k h, 0 <= k -> op / 2 ^ k = h -> (h + 1) * 2 ^ k <= 2 ^ 16 ->
      Z.land op 0xffff = op) as H16.
  { intros k h Hk Hx Hh. rewrite (land_low op 0xffff 16) by done. unfold field. rewrite Z.div_1_r.
    apply Z.mod_small. pose proof (upper_range op k h Hk Hx). lia. }
  destruct (multiple_thumb op) as (t & info & He & Ht & Hi).
  destruct Hm as [Hx|[Hx|[Hx|[Hx|[Hx|[Hx|Hx]]]]]].
  1: rewrite (H27 12 _ ltac:(lia) Hx), (H16 12 _ ltac:(lia) Hx ltac:(done)).
  2,3: rewrite (H27 9 _ ltac:(lia) Hx), (H16 9 _ ltac:(lia) Hx ltac:(done)).
  4,5: rewrite (H27 16 _ ltac:(lia) Hx).
  6,7: rewrite (H27 20 _ ltac:(lia) Hx).
  all: match goal with |- context [?a <=? ?b] =>
         let v := eval vm_compute in (a <=? b) in change (a <=? b) with v end; cbv iota.
  1,2,3: unfold thumb_evaluate_opcode, evaluate_thumb; by_upper Hx.
  1: rewrite He; eauto 10.
  1,2: rewrite (push_pop_misc op _ Hx) by auto; rewrite He; eauto 10.
  all: unfold t2_dispatch; by_upper Hx; unfold t2ev_load_word, t2ev_ldrex_strex.
  1,2: rewrite (part_upper op 16 _ ltac:(lia) Hx 16 0xf _ ltac:(lia) eq_refl).
  3,4: rewrite (part_upper op 20 _ ltac:(lia) Hx 20 0x3 _ ltac:(lia) eq_refl),
      (part_upper op 20 _ ltac:(lia) Hx 21 0xc _ ltac:(lia) eq_refl).
  1,2: exists ARM_LDR, 4, I_none.
  3: exists ARM_STREX, 4, I_none.
  4: exists ARM_LDREX, 4, I_none.
  all: split; [reflexivity|]; (split; [|by left]); first [left; in_types|right; in_types].
Qed.

(** The union of such an instruction, read as a single access, has register 0 as its base
    and its offset register, whatever registers the instruction names. *)
Lemma misread_address info ls :
  info = I_none \/ (exists Rn l m, info = I_load_store_multiple Rn l m 0 0) ->
  as_load_store info = Some ls ->
  exists k, k ∈ [0; 1; 2] /\ forall regs, (forall r, 0 <= regs r < 2 ^ 32) ->
    exists value, evaluate ls regs = Some (u32 (k * regs 0), value).
Proof.
  intros Hi Hls.
  assert (forall x, u32 (x + 0) = u32 (1 * x) /\ u32 (x - 0) = u32 (1 * x) /\ u32 (x - x) = u32 (0 * x) /\ u32 (x + x) = u32 (2 * x)) as Eq
    by (intros x; split_and!; f_equal; lia).
  assert (forall x, 0 <= x < 2 ^ 32 -> x = u32 (1 * x)) as E1 by (intros x Hx; rewrite Z.mul_1_l; symmetry; by apply u32_small).
  destruct Hi as [-> |(Rn & l & m & ->)]; injection Hls as <-; unfold evaluate; cbn [ls_Rd ls_Rn ls_offset_of ls_index_mode].
  { exists 1. split; [set_solver|]. intros regs Hr. cbn [evaluated_offset Z.eqb Pos.eqb]. obind. eexists. by rewrite (proj1 (Eq (regs 0))). }
  destruct (m + 256 * 0 + 65536 * 0 =? 0) eqn:Em; cbn [evaluated_offset].
  - exists 1. split; [set_solver|]. intros regs Hr. obind. eexists.
    destruct (l =? 1); [by rewrite <- E1 by apply Hr|]. destruct (Eq (regs 0)) as (Ep & Es & _).
    destruct (l =? 2); by rewrite ?Ep, ?Es.
  - exists (if l =? 1 then 1 else if l =? 2 then 0 else 2). split; [destruct (l =? 1), (l =? 2); set_solver|].
    intros regs Hr. pose proof (Hr 0) as H0.
    rewrite shl32_mul, Z.mul_1_r, Z.mod_small by lia. obind. eexists.
    destruct (l =? 1); [by rewrite <- E1 by apply Hr|]. destruct (Eq (regs 0)) as (_ & _ & Es & Ep).
    destruct (l =? 2); by rewrite ?Ep, ?Es.
Qed.

(** C34. Accesses the analyzer of the Cortex-M3 does not evaluate by their registers.  32-bit loads of bytes and
    halfwords, multiple and double-word accesses are not recognised: [eval] says that the
    instruction accesses no memory.  16-bit multiple accesses (PUSH and POP among
    them), 32-bit word loads relative to the program counter and exclusive word accesses are
    recognised, but the address reported is always the same multiple (0, 1 or 2 times) of the contents of register 0,
    whatever the other registers hold: the instruction's base counts only if it is register 0. *)
Theorem thumb_wrong_accesses `{SalConfig} (code : InstructionMap) where_ op :
  found_at code where_ op -> 0 <= op < 2 ^ 32 ->
  (missed op -> forall regs, eval code where_ regs = Some (false, None))
  /\ (misread op -> exists k, k ∈ [0; 1; 2] /\ forall regs, (forall r, 0 <= regs r < 2 ^ 32) ->
        exists r, eval code where_ regs = Some (true, Some r) /\ mi_address r = u32 (k * regs 0)).
Proof.
  intros Hf Hop. unfold eval, eval_cm3. rewrite (found_opcode code where_ op Hf), (u32_small op) by done.
  set (pc := u32 (findPrevious code where_)). split; intros Hm.
  - destruct (missed_no_access op pc Hm) as (H27 & e & E & He).
    unfold thumb2_opcode. rewrite is_32bit, upper_32bit, H27, E by done.
    destruct e as [info|[t info]]; [reflexivity|]. cbn [no_access] in He.
    apply elem_of_cons in He as [-> |He]; [reflexivity|]. by apply list_elem_of_singleton in He as ->.
  - destruct (misread_info op pc Hop Hm) as (t & sz & info & -> & Ht & Hi).
    assert (isMemoryAccess (mkInstr t op sz info) = true) as ->.
    { destruct Ht as [Ht|Ht]; [apply (types_access t op sz info false Ht)|apply (types_access t op sz info true Ht)]. }
    unfold analyzer_evaluate. cbn [ai_info].
    assert (exists ls, as_load_store info = Some ls) as [ls Els].
    { destruct Hi as [-> |(Rn & l & m & ->)]; by eexists. }
    destruct (misread_address info ls Hi Els) as (k & Hk & Ha). exists k. split; [exact Hk|].
    intros regs Hr. destruct (Ha regs Hr) as (v & E). rewrite Els. obind. rewrite E. obind. by eexists.
Qed.

(** PUSH {r4, lr} at a stack pointer of 0x2000: the address found is zero. *)
Lemma thumb_wrong_accesses_witness :
  (exists r, eval (H := sal_32) {[0x8000 := 0xb510]} 0x8000 (fun r => if r =? 13 then 0x2000 else 0)
     = Some (true, Some r) /\ mi_address r = 0)
  /\ eval (H := sal_32) {[0x8000 := 0xf8910000]} 0x8000 (fun _ => 0x2000) = Some (false, None).
Proof.
  split.
  - destruct (thumb_wrong_accesses (H := sal_32) {[0x8000 := 0xb510]} 0x8000 0xb510) as [_ Hm];
      [left; reflexivity | lia |].
    destruct Hm as (k & _ & Ha); [right; left; reflexivity|].
    destruct (Ha (fun r => if r =? 13 then 0x2000 else 0)) as (r & E & Hr); [intros r; destruct (r =? 13); lia|].
    exists r. split; [exact E|]. rewrite Hr. change (if 0 =? 13 then 0x2000 else 0) with 0. by rewrite Z.mul_0_r.
  - refine (proj1 (thumb_wrong_accesses (H := sal_32) {[0x8000 := 0xf8910000]} 0x8000 0xf8910000 _ _) _ _).
    + left. reflexivity.
    + lia.
    + left. unfold narrow_loads. change (0xf8910000 / 2 ^ 20) with 0xf89. set_solver.
Defined.
