(* ===== verification/TraceText.v ===== *)
(** * Traces as text

    [tools/dump-trace/DumpTrace.cc], the lines printed for the events of a trace, and
    [tools/convert-trace/DumpConverter.cc] and [Gem5Converter.cc], which make a trace from
    such lines and from the memory log of gem5.

    Texts are lists of character codes.  The stream model is that of [Checkpoint], with
    signs and the hexadecimal prefix added to the extraction of numbers.  Log messages
    are left out. *)
From S2P Require Import Prelude Events MemoryMap Importer Tracing Checkpoint.

(** ** Formatted input *)

Definition scan_sign (l : list Z) : bool * list Z :=
  match l with
  | c :: l' => if c =? 45 then (true, l') else if c =? 43 then (false, l') else (false, l)
  | [] => (false, [])
  end.

Definition scan_prefix (base : Z) (l : list Z) : list Z :=
  match l with
  | a :: b :: l' => if (base =? 16) && (a =? 48) && ((b =? 120) || (b =? 88)) then l' else l
  | _ => l
  end.

(** The value stored for a number: unsigned ones wrap when negated; out of range, the
    nearest bound is stored and the extraction fails. *)
Definition num_value (w : Z) (sgn neg : bool) (n : Z) : Z * bool :=
  if sgn then
    if neg then if n <=? 2 ^ (w - 1) then (- n, true) else (- 2 ^ (w - 1), false)
    else if n <? 2 ^ (w - 1) then (n, true) else (2 ^ (w - 1) - 1, false)
  else if n <? 2 ^ w then (if neg then wrap w (- n) else n, true) else (2 ^ w - 1, false).

(** [stream >> n] for a [w]-bit [n]; [None]: [n] is left alone. *)
Definition get_num (base w : Z) (sgn : bool) (s : istream) : option Z * istream :=
  let '(ok, s) := sentry s in
  if ok then
    let '(neg, l) := scan_sign (is_rest s) in
    let '(n, any, l) := scan_digits base 0 false (scan_prefix base l) in
    let eof := bool_decide (l = []) in
    if negb any then (Some 0, mkStream l eof true)
    else let '(v, fits) := num_value w sgn neg n in (Some v, mkStream l eof (negb fits))
  else (None, s).

(** [stream >> word]; at the end of the text the word is left alone. *)
Definition get_word (s : istream) : option (list Z) * istream :=
  extract_word (length (is_rest s)) s.

(** [while (input.getline(buf, 2048))]: the lines up to the first that does not fit. *)
Fixpoint split_lines (l : list Z) : list (list Z) :=
  match l with
  | [] => []
  | c :: l' =>
      if c =? 10 then [] :: split_lines l'
      else match split_lines l' with
           | w :: ws => (c :: w) :: ws
           | [] => [[c]]
           end
  end.

Fixpoint fitting (ws : list (list Z)) : list (list Z) :=
  match ws with
  | w :: ws => if (length w <=? 2047)%nat then w :: fitting ws else []
  | [] => []
  end.

Definition get_lines (text : list Z) : list (list Z) := fitting (split_lines text).

(** ** [dump-trace] *)

(** [acctime] after the event. *)
Definition acctime_after (acc : Z) (ev : Trace_Event) : Z :=
  match te_time_delta ev with Some d => u64 (acc + u64 d) | None => acc end.

(** One line, without extended information; [acc] is the accumulated time. *)
Definition dump_line (acc : Z) (ev : Trace_Event) : list Z :=
  match te_memaddr ev with
  | None => chars "IP " ++ print_num 16 (te_ip ev) ++ chars " t=" ++ print_num 10 acc
  | Some a =>
      chars "MEM " ++ chars (if decide (te_accesstype ev = READ) then "R" else "W") ++ chars " "
      ++ print_num 16 a ++ chars " width " ++ print_num 10 (te_width ev)
      ++ chars " IP " ++ print_num 16 (te_ip ev) ++ chars " t=" ++ print_num 10 acc
  end.

Fixpoint dump_text (acc : Z) (evs : list Trace_Event) : list Z :=
  match evs with
  | [] => []
  | ev :: evs =>
      let acc := acctime_after acc ev in dump_line acc ev ++ 10 :: dump_text acc evs
  end.

(** ** [DumpConverter] *)

(** The delta to the line before: zero and negative ones are not stored. *)
Definition set_delta (prev_cycle cycle : Z) : option Z * Z :=
  if 0 <? cycle - prev_cycle then (Some (cycle - prev_cycle), cycle)
  else (None, cycle).

(** What is read before [IP]: [None] means that the line is skipped. *)
Definition mem_fields (ev_type : list Z) (s : istream)
    : option (option (Z * Z * AccessType) * list Z * istream) :=
  if decide (ev_type = chars "MEM") then
    let '(accesstype, s) := get_word s in
    let '(data_address, s) := get_num 16 64 false s in
    let '(_, s) := get_word s in
    let '(data_width, s) := get_num 10 32 false s in
    let '(ev_type', s) := get_word s in
    if failbit s then None
    else Some (Some (default 0 data_address, default 0 data_width,
                     if decide (accesstype = Some (chars "R")) then READ else WRITE),
               default ev_type ev_type', s)
  else Some (None, ev_type, s).

(** The time after [t=]. *)
Definition line_time (dummy : list Z) : option Z :=
  match dummy with
  | 116 :: 61 :: rest =>
      let '(cycle, s) := get_num 10 64 true (mkStream rest false false) in
      if failbit s then None else cycle
  | _ => None
  end.

(** One line: the new [prev_cycle] and the event, if any; [None] is the failed assertion that
    [IP] was read. *)
Definition convert_line (prev_cycle : Z) (line : list Z) : option (Z * option Trace_Event) :=
  let '(ev_type, s) := get_word (mkStream line false false) in
  match mem_fields (default [] ev_type) s with
  | None => Some (prev_cycle, None)
  | Some (mem, ev_type, s) =>
      if decide (ev_type = chars "IP") then
        let '(instr_address, s) := get_num 16 64 false s in
        let '(dummy, s) := get_word s in
        if failbit s then Some (prev_cycle, None) else
        match line_time (default [] dummy) with
        | None => Some (prev_cycle, None)
        | Some cycle =>
            let '(d, prev_cycle) := set_delta prev_cycle cycle in
            let ip := default 0 instr_address in
            Some (prev_cycle, Some match mem with
              | Some (a, w, t) => mkTE ip d (Some a) w t None
              | None => mkTE ip d None 0 READ None
              end)
        end
      else None
  end.

Fixpoint convert_lines (prev_cycle : Z) (lines : list (list Z)) : option (list Trace_Event) :=
  match lines with
  | [] => Some []
  | line :: lines =>
      '(prev_cycle, ev) ← convert_line prev_cycle line;
      evs ← convert_lines prev_cycle lines;
      Some (match ev with Some ev => ev :: evs | None => evs end)
  end.

Definition convert_dump (text : list Z) : option (list Trace_Event) :=
  convert_lines 0 (get_lines text).

(** ** [Gem5Converter] *)

Fixpoint starts_with (p l : list Z) : bool :=
  match p, l with
  | [], _ => true
  | a :: p, b :: l => (a =? b) && starts_with p l
  | _ :: _, [] => false
  end.

Fixpoint contains (p l : list Z) : bool :=
  starts_with p l || match l with [] => false | _ :: l => contains p l end.

(** The chain of extractions; [None]: one of them failed. *)
Definition gem5_fields (line : list Z) : option (Z * list Z * Z * Z) :=
  let '(cycle, s) := get_num 10 64 true (mkStream line false false) in
  let '(_, s) := get_word s in
  let '(_, s) := get_word s in
  let '(access_type, s) := get_word s in
  let '(_, s) := get_word s in
  let '(_, s) := get_word s in
  let '(access_width, s) := get_num 10 32 false s in
  let '(_, s) := get_word s in
  let '(_, s) := get_word s in
  let '(access_address, s) := get_num 16 64 false s in
  if failbit s then None
  else cycle ← cycle; t ← access_type; w ← access_width; a ← access_address; Some (cycle, t, w, a).

Record Gem5 := mkGem5 {
  prev_cycle : Z;
  cur_ip : Z;
  ifetch_seen : bool;
  gem5_written : list Trace_Event
}.

(** The event of a line that was read; [prev_cycle] moves on also if it is not written. *)
Definition gem5_event (cycle : Z) (t : list Z) (width address : Z) (g : Gem5) : Gem5 :=
  let '(d, prev) := set_delta (prev_cycle g) cycle in
  if decide (t = chars "IFetch") then
    mkGem5 prev address true (gem5_written g ++ [mkTE address d None 0 READ None])
  else if decide (t = chars "Read" \/ t = chars "Write") then
    if ifetch_seen g
    then mkGem5 prev (cur_ip g) true
           (gem5_written g ++ [mkTE (cur_ip g) d (Some address) width
                                 (if decide (t = chars "Read") then READ else WRITE) None])
    else mkGem5 prev (cur_ip g) false (gem5_written g)
  else mkGem5 prev (cur_ip g) (ifetch_seen g) (gem5_written g).

Definition gem5_line (line : list Z) (g : Gem5) : Gem5 :=
  if contains (chars "http://gem5.org") line
  then mkGem5 (prev_cycle g) (cur_ip g) false (gem5_written g)
  else if negb (contains (chars "system.physmem") line) || contains (chars "access wrote") line
  then g
  else match gem5_fields line with
       | None => g
       | Some (cycle, t, w, a) => gem5_event cycle t w a g
       end.

Definition convert_gem5 (text : list Z) : list Trace_Event :=
  gem5_written (fold_left (fun g line => gem5_line line g) (get_lines text) (mkGem5 0 0 false [])).
