(* ===== verification/TraceTextTheorems.v ===== *)
(** * Theorems on traces as text

    A trace printed by dump-trace is converted back to the same trace; a gem5 log becomes
    the trace of its accesses. *)
From S2P Require Import Prelude Events MemoryMap Importer Tracing TracingTheorems Sha1 Checkpoint CheckpointTheorems TraceText.

(** ** Words and numbers *)

Definition blanks (sp : list Z) : Prop := Forall (fun c => is_space c = true) sp.
Definition solid (w : list Z) : Prop := Forall (fun c => is_space c = false) w.

(** What may follow a printed number. *)
Definition ends_num (base : Z) (l : list Z) : Prop :=
  match l with c :: _ => char_digit base c = None /\ c <> 120 /\ c <> 88 | [] => True end.

Definition ends_word (l : list Z) : Prop :=
  match l with c :: _ => is_space c = true | [] => True end.

Lemma get_word_at sp w l :
  blanks sp -> solid w -> w <> [] -> ends_word l ->
  get_word (mkStream (sp ++ w ++ l) false false)
  = (Some w, mkStream l (bool_decide (l = [])) false).
Proof.
  intros Hsp Hw Hne Hl. unfold get_word, extract_word. cbn [is_rest].
  assert (exists c w', w = c :: w') as (c & w' & Ew) by (destruct w; [done|eauto]).
  assert (is_space c = false) as Hc by (rewrite Ew in Hw; by apply Forall_cons in Hw as [? _]).
  assert (sentry (mkStream (sp ++ w ++ l) false false) = (true, mkStream (w ++ l) false false)) as ->.
  { rewrite Ew. cbn [app]. by apply sentry_word. }
  cbn [is_rest]. rewrite scan_word_app; [|done|rewrite !length_app; lia|done].
  by rewrite (bool_decide_eq_false_2 (w = [])) by done.
Qed.

Lemma digit_plain base c d :
  char_digit base c = Some d -> c <> 45 /\ c <> 43 /\ c <> 120 /\ c <> 88.
Proof. unfold char_digit. intros H. split_and!; intros ->; done. Qed.

Lemma scan_prefix_digits base w l :
  Forall (fun c => is_Some (char_digit base c)) w -> w <> [] -> ends_num base l ->
  scan_prefix base (w ++ l) = w ++ l.
Proof.
  intros Hw Hne Hl. unfold scan_prefix. destruct Hw as [|a w [d Ha] Hw]; [done|]. cbn [app].
  assert (forall b, b <> 120 -> b <> 88 -> (base =? 16) && (a =? 48) && ((b =? 120) || (b =? 88)) = false)
    as Hno.
  { intros b H1 H2. rewrite (proj2 (Z.eqb_neq _ _) H1), (proj2 (Z.eqb_neq _ _) H2). apply andb_false_r. }
  destruct Hw as [|b w [d' Hb] _]; cbn [app].
  - destruct l as [|b l]; [done|]. destruct Hl as (_ & H1 & H2). by rewrite Hno.
  - destruct (digit_plain _ _ _ Hb) as (_ & _ & H1 & H2). by rewrite Hno.
Qed.

Lemma get_num_at base w sgn n sp l :
  1 < base <= 16 -> 0 <= n < 2 ^ 64 -> n < 2 ^ (if sgn : bool then w - 1 else w) ->
  blanks sp -> ends_num base l ->
  get_num base w sgn (mkStream (sp ++ print_num base n ++ l) false false)
  = (Some n, mkStream l (bool_decide (l = [])) false).
Proof.
  intros Hb Hn Hw Hsp Hl.
  assert (Forall (fun c => is_Some (char_digit base c)) (print_num base n)) as Hd
    by (apply print_digits_digits; lia).
  assert (0 <= n < base ^ 64) as Hn' by (pose proof (Z.pow_le_mono_l 2 base 64); lia).
  pose proof (scan_print_digits 64 base n 0 false l Hb Hn' ltac:(lia)) as Hs.
  fold (print_num base n) in Hs. pose proof (print_num_nonempty base n) as Hne.
  pose proof (scan_prefix_digits base _ l Hd Hne Hl) as Hp.
  unfold get_num. destruct (print_num base n) as [|c0 cs]; [done|].
  apply Forall_cons in Hd as [[d Hd] _]. destruct (digit_plain _ _ _ Hd) as (H1 & H2 & _).
  cbn [app] in *. rewrite sentry_word by (done || by eapply digit_not_space). cbn [is_rest scan_sign].
  rewrite (proj2 (Z.eqb_neq _ _) H1), (proj2 (Z.eqb_neq _ _) H2), Hp, Hs, Z.mul_0_l, Z.add_0_l.
  assert (forall acc, scan_digits base acc true l = (acc, true, l)) as ->.
  { intros acc. destruct l as [|c l]; [done|]. destruct Hl as [Hc _]. cbn [scan_digits]. by rewrite Hc. }
  cbn [negb]. unfold num_value. destruct sgn; rewrite (proj2 (Z.ltb_lt _ _) Hw); done.
Qed.

Lemma print_num_solid base n : 0 < base <= 16 -> 0 <= n -> solid (print_num base n).
Proof.
  intros Hb Hn. eapply Forall_impl; [by apply (print_digits_digits 64 base n)|].
  intros c [d Hd]. by eapply digit_not_space.
Qed.

(** ** Dumped traces *)

(** Addresses, widths and times that fit their types. *)
Definition dumpable (acc : Z) (ev : Trace_Event) : Prop :=
  0 <= te_ip ev < 2 ^ 64 /\ 0 <= te_width ev < 2 ^ 32
  /\ (forall a, te_memaddr ev = Some a -> 0 <= a < 2 ^ 64)
  /\ (forall d, te_time_delta ev = Some d -> 0 <= d /\ acc + d < 2 ^ 63).

Fixpoint all_dumpable (acc : Z) (evs : list Trace_Event) : Prop :=
  match evs with
  | [] => True
  | ev :: evs => dumpable acc ev /\ all_dumpable (acctime_after acc ev) evs
  end.

(** What the text keeps of an event. *)
Definition textual (ev : Trace_Event) : Trace_Event :=
  let d := match te_time_delta ev with Some d => if d =? 0 then None else Some d | None => None end in
  match te_memaddr ev with
  | Some a => mkTE (te_ip ev) d (Some a) (te_width ev) (te_accesstype ev) None
  | None => mkTE (te_ip ev) d None 0 READ None
  end.

Lemma line_time_at n : 0 <= n < 2 ^ 63 -> line_time (chars "t=" ++ print_num 10 n) = Some n.
Proof.
  intros Hn. change (chars "t=") with [116; 61]. cbn [app line_time].
  pose proof (get_num_at 10 64 true n [] [] ltac:(lia) ltac:(lia) ltac:(cbv iota; lia)
    (List.Forall_nil _) I) as E.
  cbn [app] in E. rewrite app_nil_r in E. by rewrite E.
Qed.

(** The end of a line: the instruction's address and the time. *)
Definition line_end (ip acc : Z) : list Z := 32 :: print_num 16 ip ++ chars " t=" ++ print_num 10 acc.

Lemma blank_space : blanks [32].
Proof. by constructor. Qed.

Lemma read_line_end ip acc :
  0 <= ip < 2 ^ 64 -> 0 <= acc < 2 ^ 63 ->
  get_num 16 64 false (mkStream (line_end ip acc) false false)
  = (Some ip, mkStream (chars " t=" ++ print_num 10 acc) false false)
  /\ get_word (mkStream (chars " t=" ++ print_num 10 acc) false false)
     = (Some (chars "t=" ++ print_num 10 acc), mkStream [] true false).
Proof.
  intros Hip Hacc. split.
  - apply (get_num_at 16 64 false ip [32] (chars " t=" ++ print_num 10 acc)
      ltac:(lia) Hip ltac:(cbv iota; lia) blank_space). by repeat split.
  - pose proof (get_word_at [32] (chars "t=" ++ print_num 10 acc) [] blank_space) as E.
    rewrite app_nil_r in E. apply E; [|done|done].
    apply Forall_app_2; [by repeat constructor|]. apply print_num_solid; lia.
Qed.

Lemma convert_end prev line mem ip acc w s :
  0 <= ip < 2 ^ 64 -> 0 <= acc < 2 ^ 63 ->
  get_word (mkStream line false false) = (Some w, s) ->
  mem_fields w s = Some (mem, chars "IP", mkStream (line_end ip acc) false false) ->
  convert_line prev line
  = let '(d, prev) := set_delta prev acc in
    Some (prev, Some match mem with
      | Some (a, w, t) => mkTE ip d (Some a) w t None
      | None => mkTE ip d None 0 READ None
      end).
Proof.
  intros Hip Hacc E1 E2. unfold convert_line. rewrite E1. cbn [default from_option id]. rewrite E2.
  destruct (read_line_end ip acc Hip Hacc) as [-> ->].
  rewrite decide_True by done. cbn [failbit default from_option id]. by rewrite line_time_at.
Qed.

Lemma delta_textual acc ev :
  0 <= acc < 2 ^ 63 -> dumpable acc ev ->
  0 <= acctime_after acc ev < 2 ^ 63
  /\ set_delta acc (acctime_after acc ev) = (te_time_delta (textual ev), acctime_after acc ev).
Proof.
  intros Hacc (_ & _ & _ & Hd). unfold acctime_after, set_delta, textual.
  assert (forall d, te_time_delta ev = Some d -> u64 (acc + u64 d) = acc + d) as Hu.
  { intros d E. destruct (Hd d E). rewrite (u64_small d), u64_small by lia. done. }
  destruct (te_time_delta ev) as [d|] eqn:E.
  - destruct (Hd d eq_refl). rewrite (Hu d eq_refl). split; [lia|].
    replace (acc + d - acc) with d by lia.
    destruct (te_memaddr ev), (Z.eqb_spec d 0), (Z.ltb_spec 0 d); cbn; try lia; done.
  - split; [lia|]. rewrite Z.sub_diag. by destruct (te_memaddr ev).
Qed.

Lemma convert_dumped prev acc ev :
  dumpable prev ev -> 0 <= acc < 2 ^ 63 ->
  convert_line prev (dump_line acc ev)
  = let '(d, prev) := set_delta prev acc in
    let e := textual ev in
    Some (prev, Some (mkTE (te_ip e) d (te_memaddr e) (te_width e) (te_accesstype e) None)).
Proof.
  intros (Hip & Hw & Ha & _) Hacc. unfold dump_line, textual.
  destruct (te_memaddr ev) as [a|].
  - specialize (Ha a eq_refl). set (t := chars (if decide (te_accesstype ev = READ) then "R" else "W")).
    assert (t = chars "R" \/ t = chars "W") as Ht by (unfold t; case_decide; auto).
    assert (solid t /\ t <> []) as [Hts Htn] by (destruct Ht as [-> | ->]; by repeat constructor).
    set (l3 := chars " IP" ++ line_end (te_ip ev) acc).
    set (l2 := chars " width" ++ 32 :: print_num 10 (te_width ev) ++ l3).
    set (l1 := 32 :: print_num 16 a ++ l2).
    change (convert_line prev (chars "MEM" ++ 32 :: t ++ l1)
      = let '(d, prev) := set_delta prev acc in
        Some (prev, Some (mkTE (te_ip ev) d (Some a) (te_width ev) (te_accesstype ev) None))).
    rewrite (convert_end prev (chars "MEM" ++ 32 :: t ++ l1)
      (Some (a, te_width ev, te_accesstype ev)) (te_ip ev) acc (chars "MEM")
      (mkStream (32 :: t ++ l1) false false)); [done|done|done| |].
    + apply (get_word_at [] (chars "MEM") (32 :: t ++ l1)); [by constructor|by repeat constructor|done|done].
    + unfold mem_fields. rewrite decide_True by done.
      rewrite (get_word_at [32] t l1 blank_space Hts Htn eq_refl
        : get_word (mkStream (32 :: t ++ l1) false false) = (Some t, mkStream l1 false false)).
      rewrite (get_num_at 16 64 false a [32] l2 ltac:(lia) Ha ltac:(cbv iota; lia) blank_space
        ltac:(by repeat split) : get_num 16 64 false (mkStream l1 false false) = (Some a, mkStream l2 false false)).
      rewrite (get_word_at [32] (chars "width") (32 :: print_num 10 (te_width ev) ++ l3) blank_space
        ltac:(by repeat constructor) ltac:(done) eq_refl
        : get_word (mkStream l2 false false)
          = (Some (chars "width"), mkStream (32 :: print_num 10 (te_width ev) ++ l3) false false)).
      rewrite (get_num_at 10 32 false (te_width ev) [32] l3 ltac:(lia) ltac:(lia) ltac:(cbv iota; lia)
        blank_space ltac:(by repeat split)
        : get_num 10 32 false (mkStream (32 :: print_num 10 (te_width ev) ++ l3) false false)
          = (Some (te_width ev), mkStream l3 false false)).
      rewrite (get_word_at [32] (chars "IP") (line_end (te_ip ev) acc) blank_space
        ltac:(by repeat constructor) ltac:(done) eq_refl : get_word (mkStream l3 false false)
          = (Some (chars "IP"), mkStream (line_end (te_ip ev) acc) false false)).
      cbn [failbit default from_option id]. do 4 f_equal.
      unfold t. by destruct (te_accesstype ev).
  - change (convert_line prev (chars "IP" ++ line_end (te_ip ev) acc)
      = let '(d, prev) := set_delta prev acc in
        Some (prev, Some (mkTE (te_ip ev) d None 0 READ None))).
    rewrite (convert_end prev (chars "IP" ++ line_end (te_ip ev) acc) None (te_ip ev) acc (chars "IP")
      (mkStream (line_end (te_ip ev) acc) false false)); [done|done|done| |done].
    apply (get_word_at [] (chars "IP")); [by constructor|by repeat constructor|done|done].
Qed.

(** *** Lines *)

Lemma split_lines_line w l : 10 ∉ w -> split_lines (w ++ 10 :: l) = w :: split_lines l.
Proof.
  induction w as [|c w IH]; intros Hw; [done|]. cbn [app split_lines].
  destruct (Z.eqb_spec c 10) as [->|]; [by destruct Hw; left|].
  rewrite IH; [done|]. intros H. by apply Hw; right.
Qed.

Lemma print_num_short base n : (length (print_num base n) <= 64)%nat.
Proof.
  unfold print_num. generalize 64%nat as fuel. intros fuel. revert n.
  induction fuel as [|fuel IH]; intros n; cbn [print_digits length]; [lia|].
  rewrite length_app. cbn [length]. destruct (n <? base); cbn [length]; [lia|].
  specialize (IH (n / base)). lia.
Qed.

Lemma digit_missing base n c :
  0 < base <= 16 -> 0 <= n -> char_digit base c = None -> c ∉ print_num base n.
Proof.
  intros Hb Hn Hc Hin. pose proof (print_digits_digits 64 base n Hb Hn) as Hs.
  eapply Forall_forall in Hs as [d Hd]; [|exact Hin]. congruence.
Qed.

Lemma dump_line_fits acc ev :
  0 <= te_ip ev -> 0 <= te_width ev -> (forall a, te_memaddr ev = Some a -> 0 <= a) -> 0 <= acc ->
  (10 ∉ dump_line acc ev) /\ (length (dump_line acc ev) <= 2047)%nat.
Proof.
  intros Hip Hw Ha Hacc.
  pose proof (digit_missing 16 (te_ip ev) 10 ltac:(lia) Hip eq_refl). pose proof (digit_missing 10 acc 10 ltac:(lia) Hacc eq_refl).
  pose proof (digit_missing 10 (te_width ev) 10 ltac:(lia) Hw eq_refl).
  pose proof (print_num_short 16 (te_ip ev)). pose proof (print_num_short 10 acc).
  pose proof (print_num_short 10 (te_width ev)).
  assert (forall s, bool_decide (10 ∉ chars s) = true -> 10 ∉ chars s) as Hs
    by (intros s; apply bool_decide_eq_true_1).
  unfold dump_line. destruct (te_memaddr ev) as [a|].
  - pose proof (digit_missing 16 a 10 ltac:(lia) (Ha a eq_refl) eq_refl). pose proof (print_num_short 16 a).
    split.
    + rewrite !not_elem_of_app. repeat split; try done; try (by apply Hs).
      case_decide; by apply Hs.
    + rewrite !length_app. case_decide; cbn [length chars fmap list_fmap String.list_ascii_of_string]; lia.
  - split.
    + rewrite !not_elem_of_app. repeat split; try done; by apply Hs.
    + rewrite !length_app. cbn [length chars fmap list_fmap String.list_ascii_of_string]. lia.
Qed.

Lemma convert_dumped_lines acc evs :
  0 <= acc < 2 ^ 63 -> all_dumpable acc evs ->
  convert_lines acc (get_lines (dump_text acc evs)) = Some (textual <$> evs).
Proof.
  revert acc. induction evs as [|ev evs IH]; intros acc Hacc Hd; [done|].
  destruct Hd as [Hd Hds]. destruct (delta_textual acc ev Hacc Hd) as [Hacc' Hdelta].
  set (acc' := acctime_after acc ev) in *.
  destruct (dump_line_fits acc' ev) as [Hn Hl].
  1-4: destruct Hd as (Hip & Hw & Ha & _); try lia.
  { intros a E. by apply Ha. }
  unfold get_lines. cbn [dump_text]. fold acc'. rewrite split_lines_line by done.
  cbn [fitting]. rewrite (proj2 (Nat.leb_le _ _) Hl). cbn [convert_lines].
  rewrite convert_dumped by done. rewrite Hdelta. obind.
  fold (get_lines (dump_text acc' evs)). rewrite IH by done. obind.
  rewrite fmap_cons. f_equal. f_equal. unfold textual. by destruct (te_memaddr ev).
Qed.

(** C26. A dumped trace can be converted back: for every trace whose numbers fit their types
    and whose times do not run backwards, converting the text that dump-trace prints
    gives the trace again, in order and with the same addresses, widths, kinds of
    access and times; lost are only extended information and stored deltas of zero. *)
Theorem dump_convert_roundtrip evs :
  all_dumpable 0 evs -> convert_dump (dump_text 0 evs) = Some (textual <$> evs).
Proof. intros Hd. apply convert_dumped_lines; [lia|done]. Qed.

Lemma dump_convert_roundtrip_witness :
  convert_dump (dump_text 0
    [mkTE 0x1035c9 None None 0 READ None; mkTE 0 (Some 5) (Some 0x123abc) 4 WRITE None;
     mkTE 7 (Some 0) None 0 READ None])
  = Some [mkTE 0x1035c9 None None 0 READ None; mkTE 0 (Some 5) (Some 0x123abc) 4 WRITE None;
          mkTE 7 None None 0 READ None].
Proof.
  apply dump_convert_roundtrip. cbn [all_dumpable].
  repeat split; cbn [te_ip te_width te_memaddr te_time_delta] in *; try lia; intros; simplify_eq; try lia;
    vm_compute; congruence.
Defined.

(** ** Logs of gem5 *)

Inductive LogKind := K_IFetch | K_Read | K_Write.

Definition kind_name (k : LogKind) : string :=
  match k with K_IFetch => "IFetch" | K_Read => "Read" | K_Write => "Write" end.

Record Log := mkLog {
  lg_indent : nat; lg_cycle : Z; lg_kind : LogKind; lg_width : Z; lg_address : Z; lg_data : Z
}.

(** A line as gem5 writes it. *)
Definition log_line (r : Log) : list Z :=
  replicate (lg_indent r) 32 ++ print_num 10 (lg_cycle r) ++ chars ": system.physmem: "
  ++ chars (kind_name (lg_kind r)) ++ chars " of size " ++ print_num 10 (lg_width r)
  ++ chars " on address 0x" ++ print_num 16 (lg_address r) ++ chars " data 0x" ++ print_num 16 (lg_data r).

Definition loggable (r : Log) : Prop :=
  0 <= lg_cycle r < 2 ^ 63 /\ 0 <= lg_width r < 2 ^ 32 /\ 0 <= lg_address r < 2 ^ 64
  /\ 0 <= lg_data r /\ (lg_indent r <= 100)%nat.

Lemma get_hex_at w n sp l :
  0 <= n < 2 ^ 64 -> n < 2 ^ w -> blanks sp -> ends_num 16 l ->
  get_num 16 w false (mkStream (sp ++ 48 :: 120 :: print_num 16 n ++ l) false false)
  = (Some n, mkStream l (bool_decide (l = [])) false).
Proof.
  intros Hn Hw Hsp Hl. unfold get_num. rewrite sentry_word by done.
  cbn [is_rest scan_sign scan_prefix Z.eqb Pos.eqb andb orb].
  assert (0 <= n < 16 ^ 64) as Hn' by lia.
  pose proof (scan_print_digits 64 16 n 0 false l ltac:(lia) Hn' ltac:(lia)) as Hs.
  fold (print_num 16 n) in Hs. rewrite Hs, Z.mul_0_l, Z.add_0_l.
  assert (forall acc, scan_digits 16 acc true l = (acc, true, l)) as ->.
  { intros acc. destruct l as [|c l]; [done|]. destruct Hl as [Hc _]. cbn [scan_digits]. by rewrite Hc. }
  cbn [negb]. unfold num_value. by rewrite (proj2 (Z.ltb_lt _ _) Hw).
Qed.

Lemma blanks_replicate n : blanks (replicate n 32).
Proof. by apply Forall_replicate. Qed.

Lemma gem5_fields_line r :
  loggable r ->
  gem5_fields (log_line r) = Some (lg_cycle r, chars (kind_name (lg_kind r)), lg_width r, lg_address r).
Proof.
  intros (Hc & Hw & Ha & _). unfold gem5_fields, log_line.
  set (l9 := chars " data 0x" ++ print_num 16 (lg_data r)).
  set (l8 := 32 :: 48 :: 120 :: print_num 16 (lg_address r) ++ l9).
  set (l7 := chars " address" ++ l8).
  set (l6 := chars " on" ++ l7).
  set (l5 := 32 :: print_num 10 (lg_width r) ++ l6).
  set (l4 := chars " size" ++ l5).
  set (l3 := chars " of" ++ l4).
  set (k := chars (kind_name (lg_kind r))).
  set (l2 := 32 :: k ++ l3).
  set (l1 := chars " system.physmem:" ++ l2).
  set (l0 := chars ":" ++ l1).
  change (replicate (lg_indent r) 32 ++ _)
    with (replicate (lg_indent r) 32 ++ print_num 10 (lg_cycle r) ++ l0).
  rewrite (get_num_at 10 64 true (lg_cycle r) (replicate (lg_indent r) 32) l0 ltac:(lia) ltac:(lia)
    ltac:(cbv iota; lia) (blanks_replicate _) ltac:(by repeat split)
    : get_num 10 64 true _ = (_, mkStream l0 false false)).
  rewrite (get_word_at [] (chars ":") l1 ltac:(by constructor) ltac:(by repeat constructor) ltac:(done) eq_refl
    : get_word (mkStream l0 false false) = (_, mkStream l1 false false)).
  rewrite (get_word_at [32] (chars "system.physmem:") l2 blank_space ltac:(by repeat constructor) ltac:(done) eq_refl
    : get_word (mkStream l1 false false) = (_, mkStream l2 false false)).
  assert (solid k /\ k <> []) as [Hk Hkn] by (unfold k; destruct (lg_kind r); by repeat constructor).
  rewrite (get_word_at [32] k l3 blank_space Hk Hkn eq_refl
    : get_word (mkStream l2 false false) = (_, mkStream l3 false false)).
  rewrite (get_word_at [32] (chars "of") l4 blank_space ltac:(by repeat constructor) ltac:(done) eq_refl
    : get_word (mkStream l3 false false) = (_, mkStream l4 false false)).
  rewrite (get_word_at [32] (chars "size") l5 blank_space ltac:(by repeat constructor) ltac:(done) eq_refl
    : get_word (mkStream l4 false false) = (_, mkStream l5 false false)).
  rewrite (get_num_at 10 32 false (lg_width r) [32] l6 ltac:(lia) ltac:(lia) ltac:(cbv iota; lia) blank_space
    ltac:(by repeat split) : get_num 10 32 false (mkStream l5 false false) = (_, mkStream l6 false false)).
  rewrite (get_word_at [32] (chars "on") l7 blank_space ltac:(by repeat constructor) ltac:(done) eq_refl
    : get_word (mkStream l6 false false) = (_, mkStream l7 false false)).
  rewrite (get_word_at [32] (chars "address") l8 blank_space ltac:(by repeat constructor) ltac:(done) eq_refl
    : get_word (mkStream l7 false false) = (_, mkStream l8 false false)).
  rewrite (get_hex_at 64 (lg_address r) [32] l9 Ha ltac:(lia) blank_space ltac:(by repeat split)
    : get_num 16 64 false (mkStream l8 false false) = (_, mkStream l9 false false)).
  done.
Qed.

(** ** The lines the converter passes over *)

Lemma contains_missing c p l : c ∈ p -> c ∉ l -> contains p l = false.
Proof.
  intros Hp. assert (forall l, c ∉ l -> starts_with p l = false) as Hs.
  { clear l. induction p as [|a p IH]; [by apply not_elem_of_nil in Hp|]. intros [|b l] Hl; [done|].
    cbn [starts_with]. rewrite not_elem_of_cons in Hl. destruct Hl as [Hcb Hl].
    apply elem_of_cons in Hp as [->|Hp].
    - by rewrite (proj2 (Z.eqb_neq _ _) Hcb).
    - by rewrite (IH Hp _ Hl), andb_false_r. }
  induction l as [|b l IH]; intros Hl; cbn [contains]; rewrite Hs by done; [done|].
  apply IH. by intros H; apply Hl; right.
Qed.

Lemma contains_found p pre l : contains p (pre ++ p ++ l) = true.
Proof.
  assert (starts_with p (p ++ l) = true) as Hs.
  { induction p as [|a p IH]; [done|]. cbn [app starts_with]. by rewrite Z.eqb_refl, IH. }
  induction pre as [|b pre IH].
  - destruct (p ++ l) eqn:E; cbn [app contains]; by rewrite Hs.
  - cbn [app contains]. by rewrite IH, orb_true_r.
Qed.

Lemma log_line_missing c r : loggable r -> c = 10 \/ c = 47 \/ c = 119 -> c ∉ log_line r.
Proof.
  intros (Hc & Hw & Ha & Hd & _) Hin.
  assert (c ∉ replicate (lg_indent r) 32) as Hr.
  { intros Hr. apply elem_of_replicate in Hr as [-> _]. lia. }
  assert (forall s, bool_decide (c ∈ chars s) = false -> c ∉ chars s) as Hs
    by (intros s; apply bool_decide_eq_false_1).
  unfold log_line. rewrite !not_elem_of_app.
  destruct Hin as [-> | [-> | ->]]; destruct (lg_kind r); repeat split;
    lazymatch goal with
    | |- _ ∉ print_num _ _ => apply digit_missing; (reflexivity || lia)
    | |- _ ∉ chars _ => apply Hs; reflexivity
    | |- _ => done
    end.
Qed.

Lemma log_line_fits r : loggable r -> (length (log_line r) <= 2047)%nat.
Proof.
  intros (_ & _ & _ & _ & Hi). pose proof (print_num_short 10 (lg_cycle r)).
  pose proof (print_num_short 10 (lg_width r)). pose proof (print_num_short 16 (lg_address r)).
  pose proof (print_num_short 16 (lg_data r)).
  unfold log_line. rewrite !length_app, length_replicate.
  destruct (lg_kind r); cbn [length chars fmap list_fmap String.list_ascii_of_string kind_name]; lia.
Qed.

Definition log_text (logs : list Log) : list Z := concat ((fun r => log_line r ++ [10]) <$> logs).

Lemma get_lines_log logs : Forall loggable logs -> get_lines (log_text logs) = log_line <$> logs.
Proof.
  induction 1 as [|r logs Hr _ IH]; [done|].
  unfold get_lines, log_text in *. cbn [fmap list_fmap concat]. rewrite <- app_assoc. cbn [app].
  rewrite split_lines_line by (apply log_line_missing; [done|lia]).
  cbn [fitting]. rewrite (proj2 (Nat.leb_le _ _) (log_line_fits r Hr)). by f_equal.
Qed.

Lemma gem5_log_line r g :
  loggable r ->
  gem5_line (log_line r) g = gem5_event (lg_cycle r) (chars (kind_name (lg_kind r))) (lg_width r) (lg_address r) g.
Proof.
  intros Hr. unfold gem5_line.
  rewrite (contains_missing 47), (contains_missing 119 (chars "access wrote"))
    by (apply log_line_missing; [done|lia]) || (apply (bool_decide_eq_true_1 _); reflexivity).
  assert (contains (chars "system.physmem") (log_line r) = true) as ->.
  { unfold log_line. rewrite (app_assoc (replicate _ _)). change (chars ": system.physmem: ") with
      (chars ": " ++ chars "system.physmem" ++ chars ": "). rewrite <- !app_assoc.
    rewrite (app_assoc (print_num 10 (lg_cycle r))), (app_assoc (replicate _ _)). apply contains_found. }
  by rewrite gem5_fields_line.
Qed.

(** *** What the log says *)

(** The accesses from the first fetch on, each with the address of the fetch before it. *)
Fixpoint logged (ip : option Z) (logs : list Log) : list (Trace_Event * Z) :=
  match logs with
  | [] => []
  | r :: logs =>
      match lg_kind r, ip with
      | K_IFetch, _ => (mkTE (lg_address r) None None 0 READ None, lg_cycle r) :: logged (Some (lg_address r)) logs
      | _, None => logged None logs
      | K_Read, Some a => (mkTE a None (Some (lg_address r)) (lg_width r) READ None, lg_cycle r) :: logged ip logs
      | K_Write, Some a => (mkTE a None (Some (lg_address r)) (lg_width r) WRITE None, lg_cycle r) :: logged ip logs
      end
  end.

Fixpoint ordered (t : Z) (logs : list Log) : Prop :=
  match logs with [] => True | r :: logs => t <= lg_cycle r /\ ordered (lg_cycle r) logs end.

Definition gem5_run (logs : list Log) (g : Gem5) : Gem5 :=
  fold_left (fun g line => gem5_line line g) (log_line <$> logs) g.

Lemma gem5_run_seen t0 logs : forall g,
  Forall loggable logs -> ordered (prev_cycle g) logs -> ifetch_seen g = true ->
  end_time t0 (gem5_written g) = prev_cycle g ->
  untimed <$> gem5_written (gem5_run logs g)
  = (untimed <$> gem5_written g) ++ (logged (Some (cur_ip g)) logs).*1
  /\ abs_times t0 (gem5_written (gem5_run logs g))
     = abs_times t0 (gem5_written g) ++ (logged (Some (cur_ip g)) logs).*2.
Proof.
  induction logs as [|r logs IH]; intros g Hl Ho Hf Ht.
  { by rewrite !app_nil_r. }
  apply Forall_cons in Hl as [Hr Hl]. destruct Ho as [Hle Ho].
  assert (exists e d,
    logged (Some (cur_ip g)) (r :: logs) = (e, lg_cycle r)
      :: logged (Some (match lg_kind r with K_IFetch => lg_address r | _ => cur_ip g end)) logs
    /\ gem5_line (log_line r) g = mkGem5 (lg_cycle r)
         (match lg_kind r with K_IFetch => lg_address r | _ => cur_ip g end) true
         (gem5_written g ++ [mkTE (te_ip e) d (te_memaddr e) (te_width e) (te_accesstype e) None])
    /\ untimed (mkTE (te_ip e) d (te_memaddr e) (te_width e) (te_accesstype e) None) = e
    /\ prev_cycle g + default 0 d = lg_cycle r) as (e & d & Hlog & Hg & He & Hd).
  { rewrite gem5_log_line by done. unfold gem5_event, set_delta. cbn [logged].
    destruct (Z.ltb_spec 0 (lg_cycle r - prev_cycle g)); destruct (lg_kind r); rewrite ?Hf;
      eexists _, _; (split; [reflexivity|]); (split; [reflexivity|]); (split; [reflexivity|]);
      cbn [default from_option id]; lia. }
  change (gem5_run (r :: logs) g) with (gem5_run logs (gem5_line (log_line r) g)). rewrite Hg, Hlog.
  destruct (IH (mkGem5 (lg_cycle r) (match lg_kind r with K_IFetch => lg_address r | _ => cur_ip g end) true
      (gem5_written g ++ [mkTE (te_ip e) d (te_memaddr e) (te_width e) (te_accesstype e) None]))) as [H1 H2];
    try done.
  { cbn [gem5_written prev_cycle]. rewrite end_time_snoc, Ht. done. }
  cbn [gem5_written cur_ip] in H1, H2. rewrite H1, H2. cbn [fmap list_fmap].
  rewrite fmap_app, abs_times_snoc, Ht, <- !app_assoc. cbn [te_time_delta]. rewrite Hd.
  rewrite fmap_cons, fmap_nil, He. done.
Qed.

(** The cycle from which the deltas count: that of the last access before the first fetch. *)
Fixpoint skipped_to (t : Z) (logs : list Log) : Z :=
  match logs with
  | [] => t
  | r :: logs => match lg_kind r with K_IFetch => t | _ => skipped_to (lg_cycle r) logs end
  end.

Lemma gem5_run_unseen logs : forall t ip,
  Forall loggable logs -> ordered t logs ->
  let evs := gem5_written (gem5_run logs (mkGem5 t ip false [])) in
  untimed <$> evs = (logged None logs).*1 /\ abs_times (skipped_to t logs) evs = (logged None logs).*2.
Proof.
  induction logs as [|r logs IH]; intros t ip Hl Ho; [done|].
  apply Forall_cons in Hl as [Hr Hl]. destruct Ho as [Hle Ho].
  change (gem5_run (r :: logs) ?g) with (gem5_run logs (gem5_line (log_line r) g)).
  rewrite gem5_log_line by done. unfold gem5_event. cbn [prev_cycle logged skipped_to ifetch_seen gem5_written cur_ip].
  destruct (set_delta t (lg_cycle r)) as [d prev] eqn:Ed.
  assert (prev = lg_cycle r /\ t + default 0 d = lg_cycle r) as [-> Hd].
  { unfold set_delta in Ed. destruct (Z.ltb_spec 0 (lg_cycle r - t)); simplify_eq; cbn; lia. }
  destruct (lg_kind r); try (by apply IH).
  edestruct (gem5_run_seen t logs (mkGem5 (lg_cycle r) (lg_address r) true
    ([] ++ [mkTE (lg_address r) d None 0 READ None]))) as [H1 H2]; try done.
  cbv zeta. rewrite decide_True by done. rewrite H1, H2.
  cbn [gem5_written app fmap list_fmap abs_times te_time_delta cur_ip fst snd]. rewrite Hd. done.
Qed.

(** A gem5 log is converted faithfully: for every log whose numbers fit and whose cycles
    do not run backwards, the trace holds, in order, every fetch and every access from the
    first fetch on, each access with the address of the fetch before it.  The times are the
    logged cycles, counted however from the last access before the first fetch: the
    converter skips such an access but remembers its cycle. *)
Theorem gem5_convert logs :
  Forall loggable logs -> ordered 0 logs ->
  untimed <$> convert_gem5 (log_text logs) = (logged None logs).*1
  /\ abs_times (skipped_to 0 logs) (convert_gem5 (log_text logs)) = (logged None logs).*2.
Proof.
  intros Hl Ho. unfold convert_gem5. rewrite get_lines_log by done. by apply gem5_run_unseen.
Qed.

Lemma gem5_convert_witness :
  let logs := [mkLog 3 5000 K_Write 4 0xf7ee8 0x61190; mkLog 3 6000 K_IFetch 4 0xd58 0xe59f000c;
               mkLog 3 6000 K_Read 4 0xd6c 0x8e2c; mkLog 3 8000 K_Write 1 0x100 0] in
  untimed <$> convert_gem5 (log_text logs)
  = [mkTE 0xd58 None None 0 READ None; mkTE 0xd58 None (Some 0xd6c) 4 READ None;
     mkTE 0xd58 None (Some 0x100) 1 WRITE None]
  /\ abs_times 5000 (convert_gem5 (log_text logs)) = [6000; 6000; 8000].
Proof.
  intros logs. apply (gem5_convert logs).
  - unfold logs. repeat constructor; cbn; lia.
  - cbn. lia.
Defined.
