(* ===== verification/GenericExperiment.v ===== *)
(** * The generic experiment

    [src/experiments/generic-experiment/experiment.{hpp,cc}], the experiment that comes with
    the framework: it watches for traps, time-outs, accesses outside the binary, writes to its
    text and end markers, and classifies each run; and the plugin
    [src/plugins/serialoutput] that records the output it compares.

    The command line is parsed by a library; [Options] is what it found.  Listener objects are
    named by numbers in the order of their allocation, which is also the order of
    the sets.  [None] means that the behaviour is not defined (or an assertion fails). *)
From S2P Require Import Prelude Events Listeners ElfReader MemoryMap Importer Tracing Checkpoint TraceText.

(** ** [SerialOutputLogger] *)

Record SerialOutputLogger := mkSol { m_out : bool; m_port : Z; m_limit : Z; m_output : list Z }.

Definition setPort (port : Z) (s : SerialOutputLogger) : SerialOutputLogger :=
  mkSol (m_out s) (u32 port) (m_limit s) (m_output s).
Definition setLimit (char_limit : Z) (s : SerialOutputLogger) : SerialOutputLogger :=
  mkSol (m_out s) (m_port s) (u32 char_limit) (m_output s).
Definition resetOutput (s : SerialOutputLogger) : SerialOutputLogger :=
  mkSol (m_out s) (m_port s) (m_limit s) [].
Definition getOutput (s : SerialOutputLogger) : list Z := m_output s.

(** One iteration of [run], for an event its listener matches. *)
Definition record (data : Z) (s : SerialOutputLogger) : SerialOutputLogger :=
  if (m_limit s =? 0) || (Z.of_nat (length (m_output s)) <? m_limit s)
  then mkSol (m_out s) (m_port s) (m_limit s) (m_output s ++ [data])
  else s.

(** An input or output on a port: its number, whether it is an output, and the data. *)
Definition on_io (ev : Z * bool * Z) (s : SerialOutputLogger) : SerialOutputLogger :=
  let '(p, out, data) := ev in
  if IOPort_isMatching (m_port s) (m_out s) p out then record data s else s.

Definition run (evs : list (Z * bool * Z)) (s : SerialOutputLogger) : SerialOutputLogger :=
  fold_left (fun s ev => on_io ev s) evs s.

(** ** The experiment *)

Inductive Group := OK_marker | FAIL_marker | DETECTED_marker
  | GROUP1_marker | GROUP2_marker | GROUP3_marker | GROUP4_marker.

#[export] Instance Group_eq_dec : EqDecision Group.
Proof. solve_decision. Defined.

(** [end_marker_groups], in the order of their names. *)
Definition end_marker_groups : list Group :=
  [DETECTED_marker; FAIL_marker; GROUP1_marker; GROUP2_marker; GROUP3_marker; GROUP4_marker; OK_marker].

Inductive ResultType :=
  R_OK_MARKER | R_FAIL_MARKER | R_DETECTED_MARKER | R_GROUP1_MARKER | R_GROUP2_MARKER
  | R_GROUP3_MARKER | R_GROUP4_MARKER | R_TIMEOUT | R_TRAP | R_WRITE_TEXTSEGMENT
  | R_ACCESS_OUTERSPACE | R_SDC | R_UNKNOWN.

Record Result := mkGResult { resulttype : ResultType; details : Z; crash_time : Z }.

(** The identities of the listeners that are members. *)
Definition id_trap : nat := 0.
Definition id_mem_text : nat := 1.
Definition id_mem_outerspace : nat := 2.
Definition id_mem_lowerspace : nat := 3.
Definition id_timeout : nat := 4.
Definition first_marker : nat := 5.

(** [strtoul(arg, &endptr, base)]: the number and what follows it; [None]: nothing was parsed. *)
Definition strtoul (base : Z) (arg : list Z) : option (Z * list Z) :=
  let '(neg, l) := scan_sign (skip_space arg) in
  let '(n, any, rest) := scan_digits base 0 false (scan_prefix base l) in
  let '(n, any, rest) := if any : bool then (n, any, rest) else scan_digits base 0 false l in
  if any : bool
  then Some (if n <? 2 ^ 64 then (if neg : bool then u64 (- n) else n) else 2 ^ 64 - 1, rest)
  else None.

(** [Stop]: the program ends with this exit code; [Throw]: an exception ends it. *)
Inductive Started (A : Type) := Go (a : A) | Stop (code : Z) | Throw.
Arguments Go {A}.
Arguments Stop {A}.
Arguments Throw {A}.

Section experiment.
Context `{SalConfig}.

Record GenericExperiment := mkGen {
  m_state_dir : list Z;
  serial_port : Z;
  sol : SerialOutputLogger;
  serial_enabled : bool;
  serial_goldenrun : list Z;
  enabled_mem_text : bool;
  l_mem_text : Listener;
  enabled_mem_outerspace : bool;
  l_mem_outerspace : Listener;
  enabled_mem_lowerspace : bool;
  l_mem_lowerspace : Listener;
  enabled_trap : bool;
  enabled_timeout : bool;
  m_Timeout : Z;
  markers : list (Group * ElfSymbol)          (** of the listeners from [first_marker] on *)
}.

(** [setWatchAddress] and [setWatchWidth]. *)
Definition setWatch (addr width : Z) (l : Listener) : Listener :=
  match l_class l with
  | MemAccessListener _ _ t d => mkListener (l_base l) (MemAccessListener addr width t d)
  | _ => l
  end.

(** The constructor.  [serial_enabled] and [m_Timeout] are not initialised: they have the
    values [enabled] and [timeout] that happen to be in memory. *)
Definition new_GenericExperiment (enabled : bool) (timeout : Z) : GenericExperiment :=
  mkGen (chars "state") 0 (mkSol true 0 0 []) enabled []
    false (new_MemWriteListener ANY_ADDR None) false (new_MemAccessListener ANY_ADDR MEM_READWRITE None)
    false (new_MemAccessListener ANY_ADDR MEM_READWRITE None) false false timeout [].

(** ** [cb_start_experiment] *)

Record Options := mkOptions {
  op_elf : option ElfReader;            (** of the option or the environment *)
  op_serial_port : option (list Z);
  op_serial_file : option (list Z);     (** contents; empty if it cannot be opened *)
  op_e9_file : option (list Z);
  op_write_mem_text : bool;
  op_mem_outerspace : bool;
  op_mem_upperspace : bool;
  op_mem_lowerspace : bool;
  op_write_mem_outerspace : bool;
  op_trap : bool;
  op_state_dir : option (list Z);       (** of the option or the environment *)
  op_timeout : option (list Z);
  op_markers : Group -> list (list Z)
}.

(** [std::getline(ss, item, ',')] until the end. *)
Fixpoint split_commas (l : list Z) : list (list Z) :=
  match l with
  | [] => []
  | c :: l' =>
      if c =? 44 then [] :: split_commas l'
      else match split_commas l' with
           | w :: ws => (c :: w) :: ws
           | [] => [[c]]
           end
  end.

Section start.
Context (cplus_demangle : list Z -> option (list Z)) (m_elf : ElfReader).

(** The symbols of one argument. *)
Fixpoint parse_items (group : Group) (items : list (list Z)) (ms : list (Group * ElfSymbol))
    : Started (list (Group * ElfSymbol)) :=
  match items with
  | [] => Go ms
  | item :: items =>
      let '(is_optional, item) :=
        match item with c :: item' => if c =? 63 then (true, item') else (false, item) | [] => (false, []) end in
      let symbol := getSymbol cplus_demangle item m_elf in
      if negb (isValid symbol) then
        if is_optional : bool then parse_items group items ms else Stop 1
      else parse_items group items (ms ++ [(group, symbol)])
  end.

Definition parseSymbols (args : list Z) (into : Group) (ms : list (Group * ElfSymbol))
    : Started (list (Group * ElfSymbol)) := parse_items into (split_commas args) ms.

(** The loop over the groups and their arguments. *)
Fixpoint parse_groups (todo : list (Group * list Z)) (ms : list (Group * ElfSymbol))
    : Started (list (Group * ElfSymbol)) :=
  match todo with
  | [] => Go ms
  | (g, args) :: todo =>
      match parseSymbols args g ms with
      | Go ms => parse_groups todo ms
      | Stop c => Stop c
      | Throw => Throw
      end
  end.
End start.

Definition marker_args (o : Options) : list (Group * list Z) :=
  g ← end_marker_groups; (g,.) <$> op_markers o g.

(** The recording to compare with. *)
Definition start_serial (o : Options) (g : GenericExperiment) : Started GenericExperiment :=
  match (match op_serial_port o with Some arg => fst <$> strtoul 16 arg | None => Some 0x3f8 end) with
  | None => Stop (-1)
  | Some port =>
      let port := wrap addr_bits port in
      let '(port, file, enabled) :=
        match op_e9_file o, op_serial_file o with
        | Some file, _ => (0xe9, file, true)
        | None, Some file => (port, file, true)
        | None, None => (port, [], serial_enabled g)
        end in
      let '(s, golden) :=
        if enabled : bool
        then (setLimit (Z.of_nat (length file) + 1) (setPort port (sol g)), file)
        else (sol g, serial_goldenrun g) in
      Go (mkGen (m_state_dir g) port s enabled golden (enabled_mem_text g) (l_mem_text g)
            (enabled_mem_outerspace g) (l_mem_outerspace g) (enabled_mem_lowerspace g)
            (l_mem_lowerspace g) (enabled_trap g) (enabled_timeout g) (m_Timeout g) (markers g))
  end.

Definition set_mem_text (e : bool) (l : Listener) (g : GenericExperiment) : GenericExperiment :=
  mkGen (m_state_dir g) (serial_port g) (sol g) (serial_enabled g) (serial_goldenrun g) e l
    (enabled_mem_outerspace g) (l_mem_outerspace g) (enabled_mem_lowerspace g) (l_mem_lowerspace g)
    (enabled_trap g) (enabled_timeout g) (m_Timeout g) (markers g).
Definition set_mem_outerspace (e : bool) (l : Listener) (g : GenericExperiment) : GenericExperiment :=
  mkGen (m_state_dir g) (serial_port g) (sol g) (serial_enabled g) (serial_goldenrun g)
    (enabled_mem_text g) (l_mem_text g) e l (enabled_mem_lowerspace g) (l_mem_lowerspace g)
    (enabled_trap g) (enabled_timeout g) (m_Timeout g) (markers g).
Definition set_mem_lowerspace (e : bool) (l : Listener) (g : GenericExperiment) : GenericExperiment :=
  mkGen (m_state_dir g) (serial_port g) (sol g) (serial_enabled g) (serial_goldenrun g)
    (enabled_mem_text g) (l_mem_text g) (enabled_mem_outerspace g) (l_mem_outerspace g) e l
    (enabled_trap g) (enabled_timeout g) (m_Timeout g) (markers g).
Definition set_rest (trap timeout : bool) (t : Z) (dir : list Z) (ms : list (Group * ElfSymbol))
    (g : GenericExperiment) : GenericExperiment :=
  mkGen dir (serial_port g) (sol g) (serial_enabled g) (serial_goldenrun g)
    (enabled_mem_text g) (l_mem_text g) (enabled_mem_outerspace g) (l_mem_outerspace g)
    (enabled_mem_lowerspace g) (l_mem_lowerspace g) trap timeout t ms.
Definition with_sol (s : SerialOutputLogger) (g : GenericExperiment) : GenericExperiment :=
  mkGen (m_state_dir g) (serial_port g) s (serial_enabled g) (serial_goldenrun g)
    (enabled_mem_text g) (l_mem_text g) (enabled_mem_outerspace g) (l_mem_outerspace g)
    (enabled_mem_lowerspace g) (l_mem_lowerspace g) (enabled_trap g) (enabled_timeout g)
    (m_Timeout g) (markers g).

(** [f] on the bounds, unless they cannot be had. *)
Definition with_bounds (b : option (unit + Z * Z)) (f : Z -> Z -> GenericExperiment)
    : option (Started GenericExperiment) :=
  b ← b; Some match b with inr (lo, hi) => Go (f lo hi) | inl _ => Throw end.

(** The watched address ranges. *)
Definition start_text (o : Options) (elf : ElfReader) (g : GenericExperiment)
    : option (Started GenericExperiment) :=
  if op_write_mem_text o
  then with_bounds (getTextSegmentBounds elf) (fun lo hi =>
         set_mem_text true (setWatch lo (wrap addr_bits (hi - lo)) (l_mem_text g)) g)
  else Some (Go g).
Definition start_upper (o : Options) (elf : ElfReader) (g : GenericExperiment)
    : option (Started GenericExperiment) :=
  if op_mem_outerspace o || op_mem_upperspace o || op_write_mem_outerspace o
  then with_bounds (getValidAddressBounds elf) (fun _ hi =>
         set_mem_outerspace true (setWatch hi (2 ^ addr_bits - 1 - hi) (l_mem_outerspace g)) g)
  else Some (Go g).
Definition start_lower (o : Options) (elf : ElfReader) (g : GenericExperiment)
    : option (Started GenericExperiment) :=
  if op_mem_outerspace o || op_mem_lowerspace o
  then with_bounds (getValidAddressBounds elf) (fun lo _ =>
         set_mem_lowerspace true (setWatch 0 lo (l_mem_lowerspace g)) g)
  else Some (Go g).

(** An extraction that fails does not set [badbit], so [false] is never returned. *)
Definition start_rest (cplus_demangle : list Z -> option (list Z)) (o : Options) (elf : ElfReader)
    (g : GenericExperiment) : Started GenericExperiment :=
  match op_state_dir o with
  | None => Stop 1
  | Some dir =>
      let timeout :=
        match op_timeout o with
        | Some value => default (m_Timeout g) (get_num 10 32 false (mkStream value false false)).1
        | None => m_Timeout g
        end in
      match parse_groups cplus_demangle elf (marker_args o) (markers g) with
      | Go ms => Go (set_rest (op_trap o || enabled_trap g)
                      (bool_decide (is_Some (op_timeout o)) || enabled_timeout g) timeout dir ms g)
      | Stop c => Stop c
      | Throw => Throw
      end
  end.

Definition then_ (r : option (Started GenericExperiment))
    (f : GenericExperiment -> option (Started GenericExperiment)) : option (Started GenericExperiment) :=
  r ← r; match r with Go g => f g | Stop c => Some (Stop c) | Throw => Some Throw end.

Definition cb_start_experiment (cplus_demangle : list Z -> option (list Z)) (o : Options)
    (g : GenericExperiment) : option (Started GenericExperiment) :=
  match op_elf o with
  | None => Some (Stop 1)
  | Some elf =>
      then_ (then_ (then_ (then_ (Some (start_serial o g))
        (start_text o elf)) (start_upper o elf)) (start_lower o elf))
        (fun g => Some (start_rest cplus_demangle o elf g))
  end.

(** ** A run *)

(** Whether the logger's flow is added. *)
Definition cb_before_fast_forward (g : GenericExperiment) : bool := serial_enabled g.

(** The listeners that are added. *)
Definition cb_before_resume (g : GenericExperiment) : list nat :=
  (if enabled_trap g then [id_trap] else [])
  ++ (if enabled_mem_text g then [id_mem_text] else [])
  ++ (if enabled_mem_outerspace g then [id_mem_outerspace] else [])
  ++ (if enabled_mem_lowerspace g then [id_mem_lowerspace] else [])
  ++ (if enabled_timeout g then [id_timeout] else [])
  ++ seq first_marker (length (markers g)).

Definition listener_of (g : GenericExperiment) (id : nat) : option Listener :=
  match id with
  | 0 => Some (new_TrapListener ANY_TRAP None)
  | 1 => Some (l_mem_text g)
  | 2 => Some (l_mem_outerspace g)
  | 3 => Some (l_mem_lowerspace g)
  | 4 => Some (new_TimerListener (m_Timeout g))
  | _ => (fun x => new_BPSingleListener (sym_address x.2) ANY_ADDR None) <$> markers g !! (id - first_marker)%nat
  end%nat.

Definition marker_type (g : Group) : ResultType :=
  match g with
  | OK_marker => R_OK_MARKER | FAIL_marker => R_FAIL_MARKER | DETECTED_marker => R_DETECTED_MARKER
  | GROUP1_marker => R_GROUP1_MARKER | GROUP2_marker => R_GROUP2_MARKER
  | GROUP3_marker => R_GROUP3_MARKER | GROUP4_marker => R_GROUP4_MARKER
  end.

(** [handleEvent]; the details are an [unsigned int]. *)
Definition handleEvent (t : ResultType) (d time : Z) : Result := mkGResult t (u32 d) time.

(** The result of a run that [event] ended; [trigger]: the trap number or address it was
    triggered with.  Recorded output is dropped. *)
Definition cb_after_resume (event : nat) (trigger ticks : Z) (g : GenericExperiment)
    : Result * GenericExperiment :=
  let result :=
    if (event =? id_timeout)%nat then handleEvent R_TIMEOUT (m_Timeout g) ticks
    else if (event =? id_trap)%nat then handleEvent R_TRAP trigger ticks
    else if (event =? id_mem_text)%nat then handleEvent R_WRITE_TEXTSEGMENT trigger ticks
    else if (event =? id_mem_outerspace)%nat then handleEvent R_ACCESS_OUTERSPACE trigger ticks
    else if (event =? id_mem_lowerspace)%nat then handleEvent R_ACCESS_OUTERSPACE trigger ticks
    else match markers g !! (event - first_marker)%nat with
         | Some (OK_marker, symbol) =>
             if serial_enabled g && negb (bool_decide (getOutput (sol g) = serial_goldenrun g))
             then handleEvent R_SDC 0 ticks
             else handleEvent R_OK_MARKER (sym_address symbol) ticks
         | Some (group, symbol) => handleEvent (marker_type group) (sym_address symbol) ticks
         | None => handleEvent R_UNKNOWN 0 ticks
         end in
  (result, if serial_enabled g then with_sol (resetOutput (sol g)) g else g).
End experiment.
