(* ===== verification/GenericTheorems.v ===== *)
(** * Theorems on the generic experiment

    Which accesses the experiment takes for accesses outside the binary, and the verdict on a
    run that ends at a marker. *)
From S2P Require Import Prelude Events Listeners PerfBuffers ListenerManager EventHandlers ElfReader ElfTheorems MemoryMap Importer Tracing Checkpoint TraceText GenericExperiment.

Section theorems.
Context `{SalConfig}.

(** ** The recorded output *)

(** What was written to the port. *)
Definition written (s : SerialOutputLogger) (evs : list (Z * bool * Z)) : list Z :=
  snd <$> filter (fun ev => IOPort_isMatching (m_port s) (m_out s) ev.1.1 ev.1.2 = true) evs.

Lemma written_port s evs :
  m_out s = true -> written s evs = snd <$> filter (fun ev => ev.1 = (m_port s, true)) evs.
Proof.
  intros Ho. unfold written. f_equal. apply list_filter_iff. intros [[p out] d]. cbn [fst snd].
  rewrite Ho. unfold IOPort_isMatching. destruct out; cbn; [|by split; intros [=]].
  rewrite Z.eqb_eq. split; [by intros ->|by intros [= ->]].
Qed.

Definition limited {A} (limit : Z) (l : list A) : list A :=
  if limit =? 0 then l else take (Z.to_nat limit) l.

Lemma run_written evs : forall s,
  (m_limit s = 0 \/ Z.of_nat (length (m_output s)) <= m_limit s) ->
  run evs s = mkSol (m_out s) (m_port s) (m_limit s) (limited (m_limit s) (m_output s ++ written s evs)).
Proof.
  induction evs as [|[[p out] data] evs IH]; intros s Hl.
  { cbn [run fold_left written filter list_filter fmap list_fmap]. unfold written. cbn. rewrite app_nil_r.
    unfold limited. destruct s as [o q lim l]; cbn in *. destruct (Z.eqb_spec lim 0); [done|].
    rewrite take_ge by lia. done. }
  change (run ((p, out, data) :: evs) s) with (run evs (on_io (p, out, data) s)).
  unfold on_io, written. rewrite filter_cons. cbn [fst snd].
  destruct (IOPort_isMatching (m_port s) (m_out s) p out); [rewrite decide_True by done|rewrite decide_False by done; by apply IH].
  rewrite fmap_cons. cbn [snd]. unfold record.
  destruct ((m_limit s =? 0) || (Z.of_nat (length (m_output s)) <? m_limit s)) eqn:Eb.
  - rewrite IH; cbn [m_out m_port m_limit m_output].
    + unfold written. cbn [m_out m_port m_limit m_output]. by rewrite <- app_assoc.
    + rewrite length_app. cbn [length]. apply orb_prop in Eb as [Eb|Eb]; bool_hyps; [by left|right; lia].
  - apply orb_false_iff in Eb as [E1 E2]. bool_hyps. rewrite IH by done. f_equal. unfold limited, written.
    destruct (Z.eqb_spec (m_limit s) 0); [done|].
    rewrite !take_app_le by lia. done.
Qed.

(** Keeping one character more than expected is enough to compare. *)
Lemma limited_compare (golden l : list Z) :
  Z.of_nat (length golden) < 2 ^ 32 ->
  limited (u32 (Z.of_nat (length golden) + 1)) l = golden <-> l = golden.
Proof.
  intros Hg. unfold limited. destruct (Z.eqb_spec (u32 (Z.of_nat (length golden) + 1)) 0) as [|Hnz]; [done|].
  assert (Z.of_nat (length golden) + 1 < 2 ^ 32).
  { destruct (Z.eq_dec (Z.of_nat (length golden) + 1) (2 ^ 32)) as [E|]; [|lia]. rewrite E in Hnz. done. }
  rewrite u32_small by lia. replace (Z.to_nat _) with (S (length golden)) by lia. split.
  - intros E. assert (length (take (S (length golden)) l) = length golden) as Hlen by (by rewrite E).
    rewrite length_take in Hlen. rewrite take_ge in E by lia. done.
  - intros ->. rewrite take_ge by lia. done.
Qed.

(** ** The markers *)

Section markers.
Context (demangler : list Z -> option (list Z)) (elf : ElfReader).

Definition optional (item : list Z) : bool := bool_decide (head item = Some 63).
Definition name_of (item : list Z) : list Z := if optional item then tail item else item.
Definition marker_of (x : Group * list Z) : option (Group * ElfSymbol) :=
  let symbol := getSymbol demangler (name_of x.2) elf in
  if isValid symbol then Some (x.1, symbol) else None.

(** All symbols that were asked for. *)
Definition wanted (o : Options) : list (Group * list Z) :=
  x ← marker_args o; (x.1,.) <$> split_commas x.2.

(** No symbol that is needed is missing. *)
Definition found (x : Group * list Z) : Prop := optional x.2 = true \/ is_Some (marker_of x).

Lemma parse_items_spec group items : forall ms ms',
  parse_items demangler elf group items ms = Go ms' <->
  ms' = ms ++ omap marker_of ((group,.) <$> items) /\ Forall found ((group,.) <$> items).
Proof.
  induction items as [|item items IH]; intros ms ms'.
  { cbn. rewrite app_nil_r. split; [intros [= ->]; by split|intros [-> _]; done]. }
  rewrite fmap_cons, Forall_cons. cbn [omap list_omap parse_items].
  assert (match item with c :: item' => if c =? 63 then (true, item') else (false, item) | [] => (false, []) end
          = (optional item, name_of item)) as ->.
  { unfold name_of, optional. destruct item as [|c item]; [done|]. cbn [head tail].
    destruct (Z.eqb_spec c 63) as [->|Hc]; [done|]. by rewrite bool_decide_eq_false_2 by congruence. }
  unfold found at 1. cbn [fst snd].
  assert (marker_of (group, item) = if isValid (getSymbol demangler (name_of item) elf)
    then Some (group, getSymbol demangler (name_of item) elf) else None) as -> by done.
  destruct (isValid (getSymbol demangler (name_of item) elf)); cbn [negb].
  - rewrite IH, <- app_assoc. cbn [app]. split; [intros [-> Hf]; split; [done|]; split; [|done]|intros [-> [_ Hf]]; done].
    right. by eexists.
  - destruct (optional item).
    + rewrite IH. split; [intros [-> Hf]; split; [done|]; split; [by left|done]|intros [-> [_ Hf]]; done].
    + split; [done|]. intros [_ [[[=]|[? [=]]] _]].
Qed.

Lemma parse_groups_spec todo : forall ms ms',
  parse_groups demangler elf todo ms = Go ms' <->
  ms' = ms ++ omap marker_of (x ← todo; (x.1,.) <$> split_commas x.2)
  /\ Forall found (x ← todo; (x.1,.) <$> split_commas x.2).
Proof.
  induction todo as [|[g args] todo IH]; intros ms ms'.
  { cbn. rewrite app_nil_r. split; [intros [= ->]; by split|intros [-> _]; done]. }
  cbn [parse_groups]. rewrite bind_cons, omap_app, Forall_app, app_assoc. cbn [fst snd].
  pose proof (parse_items_spec g (split_commas args) ms) as Hp. unfold parseSymbols.
  destruct (parse_items demangler elf g (split_commas args) ms) as [ms1| |].
  - destruct (proj1 (Hp ms1) eq_refl) as [-> Hf]. rewrite IH. naive_solver.
  - split; [done|]. intros [_ [Hf _]]. discriminate (proj2 (Hp _) (conj eq_refl Hf)).
  - split; [done|]. intros [_ [Hf _]]. discriminate (proj2 (Hp _) (conj eq_refl Hf)).
Qed.
End markers.

(** ** A started experiment *)

Lemma then_Go r f g : then_ r f = Some (Go g) -> exists g1, r = Some (Go g1) /\ f g1 = Some (Go g).
Proof. destruct r as [[g1| |]|]; cbn; intros E; simplify_eq. by exists g1. Qed.

Lemma with_bounds_Go b f g :
  with_bounds b f = Some (Go g) -> exists lo hi, b = Some (inr (lo, hi)) /\ g = f lo hi.
Proof. destruct b as [[|[lo hi]]|]; cbn; intros E; simplify_eq. by exists lo, hi. Qed.

(** The logger and what it is compared with. *)
Definition serial_part (g : GenericExperiment) : SerialOutputLogger * bool * list Z :=
  (sol g, serial_enabled g, serial_goldenrun g).

(** The recording asked for, and its port. *)
Definition golden_of (o : Options) : option (Z * list Z) :=
  match op_e9_file o, op_serial_file o with
  | Some file, _ => Some (0xe9, file)
  | None, Some file =>
      Some (u32 (wrap addr_bits (default 0 match op_serial_port o with Some arg => fst <$> strtoul 16 arg | None => Some 0x3f8 end)), file)
  | None, None => None
  end.

Definition serial_ready (o : Options) (g : GenericExperiment) : Prop :=
  (serial_enabled g = true ->
     m_limit (sol g) = u32 (Z.of_nat (length (serial_goldenrun g)) + 1) /\ m_output (sol g) = [])
  /\ (forall port file, golden_of o = Some (port, file) ->
        serial_enabled g = true /\ serial_goldenrun g = file /\ m_port (sol g) = port /\ m_out (sol g) = true)
  /\ (golden_of o = None -> serial_goldenrun g = [] /\ m_out (sol g) = true).

Lemma start_serial_ready o enabled timeout g :
  start_serial o (new_GenericExperiment enabled timeout) = Go g -> serial_ready o g.
Proof.
  unfold start_serial, serial_ready, golden_of.
  destruct (match op_serial_port o with Some _ => _ | None => _ end) as [port|]; [|done].
  cbn [serial_enabled new_GenericExperiment sol serial_goldenrun].
  destruct (op_e9_file o) as [file|]; [|destruct (op_serial_file o) as [file|]].
  - intros E. injection E as <-. cbn. split; [done|]. split; [|done]. intros ? ? [= <- <-]. done.
  - intros E. injection E as <-. cbn. split; [done|]. split; [|done]. intros ? ? [= <- <-]. done.
  - destruct enabled; intros E; injection E as <-; cbn; done.
Qed.

Lemma started demangler o enabled timeout g :
  cb_start_experiment demangler o (new_GenericExperiment enabled timeout) = Some (Go g) ->
  exists elf, op_elf o = Some elf
  /\ serial_ready o g
  /\ markers g = omap (marker_of demangler elf) (wanted o) /\ Forall (found demangler elf) (wanted o).
Proof.
  unfold cb_start_experiment. destruct (op_elf o) as [elf|]; [|done]. intros E. exists elf. split; [done|].
  apply then_Go in E as (g4 & E & Hrest). apply then_Go in E as (g3 & E & Hlow).
  apply then_Go in E as (g2 & E & Hup). apply then_Go in E as (g1 & E & Htext). injection E as E.
  assert (serial_part g4 = serial_part g1 /\ markers g4 = []) as [Hs Hm].
  { assert (markers g1 = []) as Hm1.
    { unfold start_serial in E. destruct (match op_serial_port o with Some _ => _ | None => _ end); [|done].
      destruct (match op_e9_file o with Some _ => _ | None => _ end) as [[? ?] []]; injection E as <-; done. }
    unfold start_text in Htext. unfold start_upper in Hup. unfold start_lower in Hlow.
    destruct (op_write_mem_text o); [apply with_bounds_Go in Htext as (? & ? & _ & ->)|injection Htext as <-];
      (destruct (_ || _ || _); [apply with_bounds_Go in Hup as (? & ? & _ & ->)|injection Hup as <-]);
      (destruct (_ || _); [apply with_bounds_Go in Hlow as (? & ? & _ & ->)|injection Hlow as <-]); done. }
  injection Hrest as Hrest. unfold start_rest in Hrest. destruct (op_state_dir o); [|done].
  destruct (parse_groups demangler elf (marker_args o) (markers g4)) as [ms| |] eqn:Ep; [|done..].
  injection Hrest as <-. apply parse_groups_spec in Ep as [-> Hf]. rewrite Hm. cbn [app markers set_rest].
  split; [|split; [done|exact Hf]].
  apply start_serial_ready in E. unfold serial_ready, serial_part in *. cbn [set_rest sol serial_enabled serial_goldenrun].
  injection Hs as -> -> ->. done.
Qed.

(** ** Verdicts *)

(** The experiment after the events of a run: the logger takes part if its flow was added. *)
Definition logged (evs : list (Z * bool * Z)) (g : GenericExperiment) : GenericExperiment :=
  if cb_before_fast_forward g then with_sol (run evs (sol g)) g else g.

(** The experiment at the beginning of a run: started, and any number of runs made. *)
Inductive between (demangler : list Z -> option (list Z)) (o : Options) : GenericExperiment -> Prop :=
  | between_start enabled timeout g :
      cb_start_experiment demangler o (new_GenericExperiment enabled timeout) = Some (Go g) ->
      between demangler o g
  | between_run g evs event trigger ticks :
      between demangler o g ->
      between demangler o (cb_after_resume event trigger ticks (logged evs g)).2.

Lemma logged_same evs g :
  serial_enabled (logged evs g) = serial_enabled g /\ serial_goldenrun (logged evs g) = serial_goldenrun g
  /\ markers (logged evs g) = markers g.
Proof. unfold logged, cb_before_fast_forward. by destruct (serial_enabled g) eqn:E; cbn. Qed.

Lemma logged_sol o evs g :
  serial_ready o g -> serial_enabled g = true ->
  sol (logged evs g) = mkSol (m_out (sol g)) (m_port (sol g)) (m_limit (sol g))
                         (limited (u32 (Z.of_nat (length (serial_goldenrun g)) + 1)) (written (sol g) evs)).
Proof.
  intros [Hr _] He. destruct (Hr He) as [Hl Ho]. unfold logged, cb_before_fast_forward. rewrite He.
  cbn [sol with_sol]. rewrite run_written by (rewrite Ho; right; cbn [length]; rewrite Hl; apply (u32_range)).
  by rewrite Ho, Hl.
Qed.

Lemma between_ready demangler o g :
  between demangler o g ->
  exists elf, op_elf o = Some elf /\ serial_ready o g
  /\ markers g = omap (marker_of demangler elf) (wanted o) /\ Forall (found demangler elf) (wanted o).
Proof.
  induction 1 as [enabled timeout g E|g evs event trigger ticks _ (elf & He & Hr & Hm & Hf)].
  { by eapply started. }
  exists elf. split; [done|]. destruct (logged_same evs g) as (H1 & H2 & H3).
  unfold cb_after_resume. cbn [snd]. rewrite H1.
  pose proof (fun E => logged_sol o evs g Hr E) as Hs.
  destruct (serial_enabled g) eqn:E; [specialize (Hs eq_refl)|].
  - split; [|cbn [markers with_sol]; by rewrite H3].
    destruct Hr as (Hr1 & Hr2 & Hr3). destruct (Hr1 E) as [Hl _]. unfold serial_ready.
    cbn [sol with_sol serial_enabled serial_goldenrun]. rewrite H1, H2, Hs. cbn [resetOutput m_limit m_output m_port m_out].
    split; [done|]. split; [intros port file Hg; by destruct (Hr2 port file Hg) as (? & ? & ? & ?) | exact Hr3].
  - unfold logged, cb_before_fast_forward. rewrite E. done.
Qed.

(** The result of a run that a marker ended. *)
Lemma marker_result demangler o g evs i group symbol trigger ticks :
  between demangler o g -> markers g !! i = Some (group, symbol) ->
  let compared := limited (u32 (Z.of_nat (length (serial_goldenrun g)) + 1)) (written (sol g) evs) in
  (cb_after_resume (first_marker + i) trigger ticks (logged evs g)).1
  = (if decide (group = OK_marker /\ serial_enabled g = true /\ compared <> serial_goldenrun g) then mkGResult R_SDC 0 ticks
     else mkGResult (marker_type group) (u32 (sym_address symbol)) ticks).
Proof.
  intros Hb Hi compared. destruct (between_ready _ _ _ Hb) as (elf & He & Hr & Hm).
  destruct (logged_same evs g) as (H1 & H2 & H3).
  unfold cb_after_resume. cbn [fst].
  replace (first_marker + i - first_marker)%nat with i by lia.
  repeat match goal with |- context [(first_marker + i =? ?n)%nat] =>
    rewrite (proj2 (Nat.eqb_neq (first_marker + i) n)) by (unfold first_marker, n; lia) end.
  rewrite H1, H2, H3, Hi.
  destruct group; try (rewrite decide_False by (by intros [? _]); done).
  destruct (serial_enabled g) eqn:Hen; cbn [andb]; [|by rewrite decide_False by (by intros (_ & ? & _))].
  rewrite (logged_sol o evs g Hr Hen). cbn [getOutput m_output]. fold compared.
  destruct (decide (compared = serial_goldenrun g)) as [Hd|Hd].
  - rewrite bool_decide_eq_true_2 by done. by rewrite decide_False by (by intros (_ & _ & ?)).
  - rewrite bool_decide_eq_false_2 by done. by rewrite decide_True by done.
Qed.

Lemma marker_verdict demangler o g evs i group symbol trigger ticks port file :
  between demangler o g -> golden_of o = Some (port, file) -> Z.of_nat (length file) < 2 ^ 32 ->
  markers g !! i = Some (group, symbol) ->
  let data := snd <$> filter (fun ev => ev.1 = (port, true)) evs in
  (cb_after_resume (first_marker + i) trigger ticks (logged evs g)).1
  = (if decide (group = OK_marker /\ data <> file) then mkGResult R_SDC 0 ticks
     else mkGResult (marker_type group) (u32 (sym_address symbol)) ticks).
Proof.
  intros Hb Hg Hf Hi data. destruct (between_ready _ _ _ Hb) as (elf & He & Hr & Hm).
  destruct (proj1 (proj2 Hr) _ _ Hg) as (Hen & <- & Hport & Hout).
  rewrite (marker_result _ _ _ _ _ _ _ _ _ Hb Hi).
  assert (written (sol g) evs = data) as -> by (unfold data; rewrite <- Hport; by apply written_port).
  pose proof (limited_compare (serial_goldenrun g) data Hf) as Hc.
  repeat case_decide; naive_solver.
Qed.

(** C22. The verdict on a run: in every run of a started experiment, a listener of a marker
    exists for exactly the symbols asked for that the binary has (and none that is
    needed is missing); when one of them ends the run, the result names its group
    and the low 32 bits of its address, unless it is one of the group of correct ends.  For that group the result names
    them or is "silent data corruption".  With a recording to compare (of less than 2^32 bytes) it is the latter exactly if
    what was written to the port in this run is not the recording, byte for byte, although the logger keeps
    only a bounded part of the output.  Without a recording the result depends on the flag [serial_enabled], which nobody
    has set: if it happens to be true, every run with output to the logger's port counts as corrupted,
    otherwise none does. *)
Theorem generic_verdict demangler o g evs i group symbol trigger ticks :
  between demangler o g -> markers g !! i = Some (group, symbol) ->
  let result := (cb_after_resume (first_marker + i) trigger ticks (logged evs g)).1 in
  let named := mkGResult (marker_type group) (u32 (sym_address symbol)) ticks in
  let sdc := mkGResult R_SDC 0 ticks in
  let output port := snd <$> filter (fun ev => ev.1 = (port, true)) evs in
  (group <> OK_marker -> result = named)
  /\ (forall port file, group = OK_marker -> golden_of o = Some (port, file) -> Z.of_nat (length file) < 2 ^ 32 ->
       result = if decide (output port = file) then named else sdc)
  /\ (group = OK_marker -> golden_of o = None ->
       result = if serial_enabled g && negb (bool_decide (output (m_port (sol g)) = [])) then sdc else named)
  /\ exists elf, op_elf o = Some elf
     /\ markers g = omap (marker_of demangler elf) (wanted o) /\ Forall (found demangler elf) (wanted o).
Proof.
  intros Hb Hi. cbv zeta. pose proof (marker_result demangler o g evs i group symbol trigger ticks Hb Hi) as Hres.
  destruct (between_ready _ _ _ Hb) as (elf & He & Hr & Hm). split; [|split; [|split; [|by exists elf]]].
  - intros Hne. rewrite Hres. by rewrite decide_False by (by intros [? _]).
  - intros port file -> Hg Hf. rewrite (marker_verdict _ _ _ _ _ _ _ _ _ _ _ Hb Hg Hf Hi).
    repeat case_decide; naive_solver.
  - intros -> Hg. destruct Hr as (_ & _ & Hr). destruct (Hr Hg) as [Hgold Hout]. rewrite Hres, Hgold.
    rewrite (written_port (sol g) evs Hout). pose proof (limited_compare [] (snd <$> filter (fun ev => ev.1 = (m_port (sol g), true)) evs) eq_refl) as Hc.
    destruct (serial_enabled g); cbn [andb]; [|by rewrite decide_False by (by intros (_ & ? & _))].
    case_bool_decide as Hd; cbn [negb].
    + rewrite decide_False; [done|]. intros (_ & _ & Hn). by apply Hn, Hc.
    + rewrite decide_True; [done|]. split; [done|]. split; [done|]. intros Hn. by apply Hd, Hc.
Qed.

(** ** Watched addresses *)

Definition watch (l : Listener) (addr width : Z) (type : access_type_t) : Prop :=
  l_base l = new_BaseListener None /\ exists d, l_class l = MemAccessListener addr width type d.

Lemma started_watch demangler o enabled timeout g elf :
  cb_start_experiment demangler o (new_GenericExperiment enabled timeout) = Some (Go g) ->
  op_elf o = Some elf ->
  (op_write_mem_text o = true -> enabled_mem_text g = true /\ exists lo hi,
     getTextSegmentBounds elf = Some (inr (lo, hi)) /\ watch (l_mem_text g) lo (wrap addr_bits (hi - lo)) MEM_WRITE)
  /\ (op_mem_outerspace o = true -> enabled_mem_outerspace g = true /\ enabled_mem_lowerspace g = true
     /\ exists lo hi, getValidAddressBounds elf = Some (inr (lo, hi))
        /\ watch (l_mem_outerspace g) hi (2 ^ addr_bits - 1 - hi) MEM_READWRITE
        /\ watch (l_mem_lowerspace g) 0 lo MEM_READWRITE).
Proof.
  unfold cb_start_experiment. intros E He. rewrite He in E.
  apply then_Go in E as (g4 & E & Hrest). apply then_Go in E as (g3 & E & Hlow).
  apply then_Go in E as (g2 & E & Hup). apply then_Go in E as (g1 & E & Htext). injection E as E.
  injection Hrest as Hrest. unfold start_rest in Hrest. destruct (op_state_dir o); [|done].
  destruct (parse_groups _ _ _ _) as [ms| |]; [|done..]. injection Hrest as <-.
  cbn [set_rest enabled_mem_text enabled_mem_outerspace enabled_mem_lowerspace l_mem_text l_mem_outerspace l_mem_lowerspace].
  assert (l_mem_text g1 = new_MemWriteListener ANY_ADDR None
    /\ l_mem_outerspace g1 = new_MemAccessListener ANY_ADDR MEM_READWRITE None
    /\ l_mem_lowerspace g1 = new_MemAccessListener ANY_ADDR MEM_READWRITE None) as (T1 & U1 & L1).
  { unfold start_serial in E. destruct (match op_serial_port o with Some _ => _ | None => _ end); [|done].
    destruct (match op_e9_file o with Some _ => _ | None => _ end) as [[? ?] []]; injection E as <-; done. }
  unfold start_text in Htext. unfold start_upper in Hup. unfold start_lower in Hlow.
  split; intros Ho; rewrite Ho in *; cbn [orb] in *.
  - apply with_bounds_Go in Htext as (tlo & thi & Ht & ->).
    destruct (op_mem_outerspace o || _ || _); [apply with_bounds_Go in Hup as (? & ? & _ & ->)|injection Hup as <-];
      (destruct (op_mem_outerspace o || _); [apply with_bounds_Go in Hlow as (? & ? & _ & ->)|injection Hlow as <-]);
      (split; [done|]; exists tlo, thi; split; [done|]; cbn; rewrite T1; split; [done|by eexists]).
  - apply with_bounds_Go in Hup as (lo & hi & Hb & ->). apply with_bounds_Go in Hlow as (lo' & hi' & Hb' & ->).
    rewrite Hb in Hb'. injection Hb' as <- <-.
    destruct (op_write_mem_text o); [apply with_bounds_Go in Htext as (? & ? & _ & ->)|injection Htext as <-];
      (split; [done|]; split; [done|]; exists lo, hi; split; [done|]; cbn; rewrite U1, L1;
       split; (split; [done|by eexists])).
Qed.

Lemma watch_matching l addr width type ev :
  watch l addr width type ->
  MemAccess_matching ev l = true <->
  (Z.land (access_flags type) (access_flags (mem_AccessType ev)) =? 0) = false /\
  (addr = ANY_ADDR \/ (addr < u64 (mem_TriggerAddr ev + mem_TriggerWidth ev) /\ mem_TriggerAddr ev < u64 (addr + width))).
Proof.
  intros [Hb [d Hc]]. unfold MemAccess_matching. rewrite Hc, MemAccess_isMatching_unfold, Hb. cbn. naive_solver.
Qed.

(** Which accesses end a run: with the options for accesses outside the binary and writes
    to its text, for a binary whose segments are mapped to themselves, every access (of
    addresses that exist) is reported as one below the binary exactly if it begins
    below its lowest segment, as one above it exactly if it ends above its highest segment,
    unless it is the very last address alone, and a write as one to the text exactly if it
    touches the first executable segment. *)
Theorem outerspace_exact demangler o enabled timeout g elf ev :
  cb_start_experiment demangler o (new_GenericExperiment enabled timeout) = Some (Go g) ->
  op_elf o = Some elf -> op_mem_outerspace o = true ->
  Forall (fun s => m_paddress s = m_vaddress s /\ 0 <= m_paddress s < 2 ^ addr_bits) (m_segmenttable elf) ->
  0 <= mem_TriggerAddr ev -> 0 < mem_TriggerWidth ev ->
  mem_TriggerAddr ev + mem_TriggerWidth ev <= 2 ^ addr_bits ->
  mem_TriggerAddr ev + mem_TriggerWidth ev < 2 ^ 64 -> mem_AccessType ev <> MEM_UNKNOWN ->
  let a := mem_TriggerAddr ev in let w := mem_TriggerWidth ev in
  exists lo hi, getValidAddressBounds elf = Some (inr (lo, hi))
  /\ (forall s, s ∈ m_segmenttable elf -> lo <= seg_start s /\ seg_end s <= hi)
  /\ (MemAccess_matching ev (l_mem_lowerspace g) = true <-> a < lo)
  /\ (hi < 2 ^ addr_bits - 1 ->
      (MemAccess_matching ev (l_mem_outerspace g) = true <-> hi < a + w /\ a <> 2 ^ addr_bits - 1))
  /\ (op_write_mem_text o = true -> mem_AccessType ev = MEM_WRITE -> exists tlo thi,
        getTextSegmentBounds elf = Some (inr (tlo, thi))
        /\ (0 <= tlo < thi -> thi < 2 ^ addr_bits -> MemAccess_matching ev (l_mem_text g) = true <-> tlo < a + w /\ a < thi)).
Proof.
  intros Hstart Helf Ho Hseg Ha Hw Htop H64 Ht a w.
  assert (2 <= 2 ^ addr_bits <= 2 ^ 64) as Hbits.
  { destruct addr_bits_range as [H1 H2]. split; [|apply Z.pow_le_mono_r; lia].
    change 2 with (2 ^ 1) at 1. apply Z.pow_le_mono_r; lia. }
  assert (ANY_ADDR = 2 ^ addr_bits - 1) as Hany.
  { unfold ANY_ADDR, wrap. rewrite <- (Z_mod_plus_full (-1) 1), Z.mod_small; lia. }
  destruct (started_watch _ _ _ _ _ _ Hstart Helf) as [Htext Hout].
  destruct (Hout Ho) as (_ & _ & lo & hi & Hb & Hwu & Hwl).
  pose proof (valid_address_bounds elf Hseg) as Hv. rewrite Hb in Hv. destruct Hv as (Hall & (s1 & Hs1 & Elo) & (s2 & Hs2 & Ehi)).
  rewrite Forall_forall in Hseg. destruct (Hseg s1 Hs1) as [_ Hr1]. unfold seg_start in Elo.
  assert (0 <= hi < 2 ^ addr_bits) as Hhi.
  { rewrite <- Ehi. apply (wrap_range addr_bits). destruct addr_bits_range. lia. }
  exists lo, hi. split; [done|]. split; [exact Hall|]. fold a w in Ha, Hw, Htop, H64 |- *.
  assert (forall t, t <> MEM_UNKNOWN -> (Z.land (access_flags MEM_READWRITE) (access_flags t) =? 0) = false) as Hrw
    by (by intros []).
  split; [|split].
  - rewrite (watch_matching _ _ _ _ _ Hwl). fold a w. rewrite (u64_small (a + w)), (u64_small (0 + lo)) by lia.
    rewrite Hany. split; [intros [_ [|]]; lia|intros; split; [by apply Hrw|right; lia]].
  - intros Hlt. rewrite (watch_matching _ _ _ _ _ Hwu). fold a w. rewrite (u64_small (a + w)), (u64_small (hi + _)) by lia.
    rewrite Hany. split; [intros [_ [|]]; lia|intros; split; [by apply Hrw|right; lia]].
  - intros Hot Hwr. destruct (Htext Hot) as (_ & tlo & thi & Hbt & Hwt). exists tlo, thi. split; [done|].
    intros Hlt Hthi. rewrite (watch_matching _ _ _ _ _ Hwt). fold a w. rewrite Hwr.
    rewrite (wrap_small addr_bits (thi - tlo)) by (unfold Prelude.in_range; lia).
    rewrite (u64_small (a + w)), (u64_small (tlo + _)) by lia. rewrite Hany.
    split; [intros [_ [|]]; lia|intros; split; [done|right; lia]].
Qed.
End theorems.

(** ** An experiment on a small binary *)

Module GenericDemo.
#[local] Instance demo_config : SalConfig := sal_64.

Definition no_demangler (name : list Z) : option (list Z) := None.
Definition elf : ElfReader := reader_of ElfDemo.image.
Definition options : Options :=
  mkOptions (Some elf) None (Some (chars "hi")) None true true false false false true
    (Some (chars "state")) (Some (chars "5000"))
    (fun g => if decide (g = OK_marker) then [chars "main,?nothing"] else []).
Definition experiment : GenericExperiment :=
  match cb_start_experiment no_demangler options (new_GenericExperiment false 0) with
  | Some (Go g) => g
  | _ => new_GenericExperiment false 0
  end.

Lemma experiment_started :
  cb_start_experiment no_demangler options (new_GenericExperiment false 0) = Some (Go experiment).
Proof. by vm_compute. Qed.

Definition output (c : Z) : Z * bool * Z := (0x3f8, true, c).

Lemma generic_verdict_witness :
  (cb_after_resume 5 0 77 (logged [output 104; output 105] experiment)).1 = mkGResult R_OK_MARKER 0x1000 77
  /\ (cb_after_resume 5 0 77 (logged [output 104; output 105; output 33] experiment)).1 = mkGResult R_SDC 0 77.
Proof.
  assert (between no_demangler options experiment) as Hb by (eapply between_start, experiment_started).
  assert (markers experiment !! 0%nat = Some (OK_marker, mkSymbol (chars "main") 0x1000 8 SYMBOL 2)) as Hm by (by vm_compute).
  split.
  - destruct (generic_verdict no_demangler options experiment [output 104; output 105] 0 _ _ 0 77 Hb Hm) as (_ & E & _).
    etrans; [exact (E 0x3f8 (chars "hi") eq_refl ltac:(by vm_compute) ltac:(by vm_compute))|by vm_compute].
  - destruct (generic_verdict no_demangler options experiment [output 104; output 105; output 33] 0 _ _ 0 77 Hb Hm) as (_ & E & _).
    etrans; [exact (E 0x3f8 (chars "hi") eq_refl ltac:(by vm_compute) ltac:(by vm_compute))|by vm_compute].
Defined.

Lemma outerspace_exact_witness :
  exists lo hi, getValidAddressBounds elf = Some (inr (lo, hi))
  /\ (MemAccess_matching (mkMemAccessEvent None 0x107e 4 0 MEM_READ) (l_mem_outerspace experiment) = true
      <-> hi < 0x107e + 4 /\ 0x107e <> 2 ^ 64 - 1)
  /\ hi = 0x1080.
Proof.
  destruct (outerspace_exact no_demangler options false 0 experiment elf (mkMemAccessEvent None 0x107e 4 0 MEM_READ))
    as (lo & hi & Hb & _ & _ & Hu & _).
  - exact experiment_started.
  - done.
  - done.
  - repeat constructor; by vm_compute.
  - by vm_compute.
  - by vm_compute.
  - by vm_compute.
  - by vm_compute.
  - done.
  - assert (hi = 0x1080) as -> by (vm_compute in Hb; congruence).
    exists lo, 0x1080. split; [exact Hb|]. split; [|done]. apply Hu. by vm_compute.
Defined.

(** Without a recording, the verdict depends on the uninitialised flag: the same
    correct run is taken for a corruption if the flag happens to be set. *)
Definition no_serial : Options :=
  mkOptions (Some elf) None None None false false false false false false (Some (chars "state")) None
    (fun g => if decide (g = OK_marker) then [chars "main"] else []).
Example serial_uninitialised :
  (fun enabled => match cb_start_experiment no_demangler no_serial (new_GenericExperiment enabled 0) with
     | Some (Go g) => Some (resulttype (cb_after_resume 5 0 77 (logged [output 104] g)).1)
     | _ => None
     end) <$> [false; true] = [Some R_OK_MARKER; Some R_SDC].
Proof. by vm_compute. Qed.

(** A time-out that is not a number is accepted as 0. *)
Example timeout_unparsed :
  (let o := mkOptions (Some elf) None None None false false false false false false (Some []) (Some (chars "soon")) (fun _ => []) in
   match cb_start_experiment no_demangler o (new_GenericExperiment false 9) with
   | Some (Go g) => Some (enabled_timeout g, m_Timeout g)
   | _ => None
   end) = Some (true, 0).
Proof. by vm_compute. Qed.
End GenericDemo.
