(* ===== verification/GenericTracing.v ===== *)
(** * Tracing the golden run

    [src/experiments/generic-tracing/experiment.cc]: runs the system from a start to a
    stop address, with the tracing plugin and the serial logger.

    As for the generic experiment, the command line is given as what the library found in it
    ([TraceOptions]); file names are texts.  The program can end with an exit code or an
    exception ([Started]); [None] means that a null pointer is used or an assertion
    fails. *)
From S2P Require Import Prelude Events Listeners PerfBuffers ListenerManager EventHandlers ElfReader MemoryMap SyncContainers JobServer JobClient ProtoStream Importer ImporterTheorems Tracing Checkpoint TraceText GenericExperiment.

Record TraceOptions := mkTraceOptions {
  to_elf : option ElfReader;
  to_start_symbol : option (list Z);
  to_stop_symbol : option (list Z);
  to_save_symbol : option (list Z);
  to_state_file : option (list Z);
  to_trace_file : option (list Z);
  to_restore : bool;
  to_full_trace : bool;
  to_mem_symbols : list (list Z);
  to_mem_regions : list (list Z);
  to_start_address : option (list Z);
  to_stop_address : option (list Z);
  to_serial_file : option (list Z);
  to_serial_port : option (list Z);
  to_e9_file : option (list Z);
  to_check_bounds : bool
}.

Definition EXIT_FAILURE : Z := 1.

Section tracing.
Context `{SalConfig} {S : Type} `{!IntervalSet S}.
Context (cplus_demangle : list Z -> option (list Z)).

Record GenericTracing := mkTracing {
  gt_start_symbol : list Z;
  gt_start_address : Z;
  gt_stop_address : Z;
  gt_state_file : list Z;
  gt_trace_file : list Z;
  gt_use_memory_map : bool;
  gt_traced_memory_map : S;
  gt_restore : bool;
  gt_full_trace : bool;
  gt_check_bounds : bool;
  gt_serial_port : Z;
  gt_serial_file : list Z
}.

(** ** [parseOptions] *)

(** The address of a symbol that must exist. *)
Definition symbol_address (elf : ElfReader) (name : list Z) : Started Z :=
  let symbol := getSymbol cplus_demangle name elf in
  if isValid symbol then Go (sym_address symbol) else Stop EXIT_FAILURE.

(** A number that is not checked: 0 if there is none. *)
Definition address_arg (arg : list Z) : Z := wrap addr_bits (from_option fst 0 (strtoul 16 arg)).

Definition start_of (o : TraceOptions) : Started (list Z * Z) :=
  match to_elf o, to_start_symbol o with
  | Some elf, Some name =>
      match symbol_address elf name with Go a => Go (name, a) | Stop c => Stop c | Throw => Throw end
  | elf, _ =>
      match to_start_address o, elf with
      | Some arg, _ => Go ([], address_arg arg)
      | None, None => Stop EXIT_FAILURE
      | None, Some elf =>
          match symbol_address elf (chars "main") with
          | Go a => Go (chars "main", a) | Stop c => Stop c | Throw => Throw
          end
      end
  end.

Definition stop_of (o : TraceOptions) : Started Z :=
  match to_elf o, to_stop_symbol o with
  | Some elf, Some name => symbol_address elf name
  | _, _ => match to_stop_address o with
            | Some arg => Go (address_arg arg)
            | None => Stop EXIT_FAILURE
            end
  end.

(** [MemoryMap::add] takes the size as an [int]. *)
Fixpoint add_symbols (elf : ElfReader) (names : list (list Z)) (mm : S) : Started S :=
  match names with
  | [] => Go mm
  | name :: names =>
      let symbol := getSymbol cplus_demangle name elf in
      if isValid symbol then add_symbols elf names (mm_add (sym_address symbol) (s32 (sym_size symbol)) mm)
      else Stop EXIT_FAILURE
  end.

(** Begin and size of a region; [None]: it cannot be parsed. *)
Definition region_of (arg : list Z) : option (Z * Z) :=
  '(n, rest) ← strtoul 16 arg;
  let begin := wrap addr_bits n in
  match rest with
  | [] => Some (begin, 1)
  | delim :: p =>
      if delim =? 58 then
        '(e, rest) ← strtoul 16 p;
        match rest with [] => Some (begin, wrap addr_bits (u64 (e - begin))) | _ => None end
      else if delim =? 43 then
        '(size, rest) ← strtoul 10 p;
        match rest with [] => Some (begin, wrap addr_bits size) | _ => None end
      else None
  end.

Fixpoint add_regions (args : list (list Z)) (mm : S) : Started S :=
  match args with
  | [] => Go mm
  | arg :: args =>
      match region_of arg with
      | Some (begin, size) => add_regions args (mm_add begin (s32 size) mm)
      | None => Stop (-1)
      end
  end.

(** The map of traced addresses, if any option asks for it. *)
Definition memory_map_of (o : TraceOptions) (mm : S) : option (Started S) :=
  r ← match to_mem_symbols o, to_elf o with
      | [], _ => Some (Go mm)
      | names, Some elf => Some (add_symbols elf names mm)
      | _, None => None
      end;
  Some match r with Go mm => add_regions (to_mem_regions o) mm | Stop c => Stop c | Throw => Throw end.

Definition serial_of (o : TraceOptions) : Started (Z * list Z) :=
  match (match to_serial_port o with Some arg => fst <$> strtoul 16 arg | None => Some 0x3f8 end) with
  | None => Stop (-1)
  | Some port =>
      Go match to_e9_file o with
         | Some file => (0xe9, file)
         | None => (wrap addr_bits port, default [] (to_serial_file o))
         end
  end.

Definition save_symbol_ok (o : TraceOptions) (start_symbol : list Z) : bool :=
  match to_save_symbol o with Some name => bool_decide (name = start_symbol) | None => true end.

Definition parseOptions (o : TraceOptions) (mm : S) : option (Started GenericTracing) :=
  match start_of o with
  | Stop c => Some (Stop c)
  | Throw => Some Throw
  | Go (start_symbol, start_address) =>
      match stop_of o with
      | Stop c => Some (Stop c)
      | Throw => Some Throw
      | Go stop_address =>
          if negb (save_symbol_ok o start_symbol) then Some (Stop EXIT_FAILURE) else
          map ← memory_map_of o mm;
          Some match map, serial_of o with
               | Go map, Go (port, file) =>
                   Go (mkTracing start_symbol start_address stop_address
                         (default (chars "state") (to_state_file o))
                         (default (chars "trace.pb") (to_trace_file o))
                         (bool_decide (to_mem_symbols o <> []) || bool_decide (to_mem_regions o <> []))
                         map (to_restore o) (to_full_trace o) (to_check_bounds o) port file)
               | Go _, Stop c => Stop c
               | Go _, Throw => Throw
               | Stop c, _ => Stop c
               | Throw, _ => Throw
               end
      end
  end.

(** ** [run] *)

(** The local listeners, in the order of their declaration. *)
Definition id_text : nat := 0.
Definition id_outerspace : nat := 1.
Definition id_lowerspace : nat := 2.
Definition id_stop_symbol : nat := 3.

(** The ranges of the three access listeners when bounds are checked. *)
Definition check_ranges (elf : option ElfReader) : option (Started (list (Z * Z))) :=
  elf ← elf;
  t ← getTextSegmentBounds elf;
  match t with
  | inl _ => Some Throw
  | inr (tlo, thi) =>
      v ← getValidAddressBounds elf;
      Some match v with
           | inl _ => Throw
           | inr (lo, hi) => Go [(tlo, wrap addr_bits (thi - tlo)); (hi, 2 ^ addr_bits - 1 - hi); (0, lo)]
           end
  end.

(** The plugin as it is configured. *)
Definition plugin_of (regs : list Z) (g : GenericTracing) : TracingPlugin S :=
  let tp := setFullTrace (gt_full_trace g) (new_TracingPlugin false regs) in
  let tp := if gt_use_memory_map g then restrictMemoryAddresses (Some (gt_traced_memory_map g)) tp else tp in
  setTraceFile true tp.

(** What happens while the flow waits: what the plugin sees and the inputs and outputs, from
    the machine at the start address to the listener that ends it; and whether the files
    can be opened and written. *)
Record GoldenRun (M : Type) := mkGolden {
  gr_start : M;
  gr_stops : list (Tracing.Stop M);
  gr_io : list (Z * bool * Z);
  gr_end : nat;
  gr_trace_opened : bool;
  gr_trace_written : bool;
  gr_serial_opened : bool
}.

(** [T_false]: [run] returns [false]; [T_done]: the events of the trace file and what
    is written to the serial file, if one is asked for and can be opened. *)
Inductive TraceOutcome :=
  | T_false
  | T_done (events : list Trace_Event) (serial : option (list Z)).

Definition run_tracing {M : Type} `{!TraceMachine M} (regs : list Z) (elf : option ElfReader)
    (g : GenericTracing) (gr : GoldenRun M) : option (Started TraceOutcome) :=
  ranges ← (if gt_check_bounds g then check_ranges elf else Some (Go []));
  match ranges with
  | Stop c => Some (Stop c)
  | Throw => Some Throw
  | Go _ =>
      if negb (gr_trace_opened M gr) then Some (Stop (-1)) else
      r ← Tracing.run (plugin_of regs g) (gr_start M gr) (gr_stops M gr);
      let sol := GenericExperiment.run (gr_io M gr) (mkSol true (u32 (gt_serial_port g)) 0 []) in
      if gt_check_bounds g && bool_decide (gr_end M gr ∈ [id_text; id_outerspace; id_lowerspace])
      then Some (Go T_false)
      else if negb (gr_trace_written M gr) then Some (Go T_false)
      else Some (Go (T_done (Tracing.written r)
             (if bool_decide (gt_serial_file g <> []) && gr_serial_opened M gr
              then Some (getOutput sol) else None)))
  end.

Definition run {M : Type} `{!TraceMachine M} (regs : list Z) (o : TraceOptions) (gr : GoldenRun M)
    : option (Started TraceOutcome) :=
  g ← parseOptions o is_empty;
  match g with
  | Stop c => Some (Stop c)
  | Throw => Some Throw
  | Go g => run_tracing regs (to_elf o) g gr
  end.
End tracing.
