(* ===== verification/GoldenRun.v ===== *)
(** * Theorems on the golden run

    What the trace of a golden run holds, and that comparing an experiment's output with the
    recorded output is exact, from the one program to the other. *)
From S2P Require Import Prelude Events Listeners PerfBuffers ListenerManager EventHandlers ElfReader ElfTheorems MemoryMap SyncContainers JobServer JobClient ProtoStream Importer ImporterTheorems Tracing TracingTheorems Checkpoint TraceText GenericExperiment GenericTheorems GenericTracing.

Section theorems.
Context `{SalConfig} {S : Type} `{!IntervalSet S, !IntervalSetLaws S}.
Context (demangler : list Z -> option (list Z)).

(** ** The options *)

Definition symbol_range (elf : ElfReader) (name : list Z) : Z * Z :=
  let symbol := getSymbol demangler name elf in (sym_address symbol, s32 (sym_size symbol)).

Definition region_range (arg : list Z) : option (Z * Z) := (fun '(a, n) => (a, s32 n)) <$> region_of arg.

(** All ranges that were asked for. *)
Definition traced_ranges (o : TraceOptions) : list (Z * Z) :=
  match to_elf o with Some elf => symbol_range elf <$> to_mem_symbols o | None => [] end
  ++ omap region_range (to_mem_regions o).

Lemma add_symbols_Go elf names : forall (mm mm' : S),
  add_symbols demangler elf names mm = Go mm' -> mm' = add_ranges (symbol_range elf <$> names) mm.
Proof.
  induction names as [|name names IH]; intros mm mm' E; cbn [add_symbols] in E; [by simplify_eq|].
  destruct (isValid _); [|done]. by apply IH in E.
Qed.

Lemma add_regions_Go args : forall (mm mm' : S),
  add_regions args mm = Go mm' -> mm' = add_ranges (omap region_range args) mm.
Proof.
  induction args as [|arg args IH]; intros mm mm' E; cbn [add_regions] in E; [by simplify_eq|].
  cbn [omap list_omap]. unfold region_range at 1. destruct (region_of arg) as [[a n]|]; [|done].
  by apply IH in E.
Qed.

Lemma add_ranges_app l k (mm : S) : add_ranges (l ++ k) mm = add_ranges k (add_ranges l mm).
Proof. unfold add_ranges. by rewrite fold_left_app. Qed.

Lemma memory_map_of_Go o (mm mm' : S) :
  memory_map_of demangler o mm = Some (Go mm') -> mm' = add_ranges (traced_ranges o) mm.
Proof.
  unfold memory_map_of, traced_ranges. destruct (to_mem_symbols o) as [|name names] eqn:Es.
  - obind. intros E. injection E as E. apply add_regions_Go in E as ->. destruct (to_elf o); reflexivity.
  - destruct (to_elf o) as [elf|]; [|by cbn].
    destruct (add_symbols demangler elf (name :: names) mm) as [mm1| |] eqn:Ea; obind; intros E; injection E as E; [|done..].
    apply add_symbols_Go in Ea as ->. apply add_regions_Go in E as ->. by rewrite add_ranges_app.
Qed.

Lemma parse_Go o g :
  parseOptions demangler o (is_empty : S) = Some (Go g) ->
  gt_traced_memory_map g = add_ranges (traced_ranges o) (mm_clear is_empty)
  /\ gt_use_memory_map g = bool_decide (to_mem_symbols o <> []) || bool_decide (to_mem_regions o <> [])
  /\ gt_full_trace g = to_full_trace o /\ gt_check_bounds g = to_check_bounds o
  /\ serial_of o = Go (gt_serial_port g, gt_serial_file g).
Proof.
  unfold parseOptions. destruct (start_of demangler o) as [[name start]| |]; [|done..].
  destruct (stop_of demangler o) as [stop| |]; [|done..]. destruct (negb _); [done|].
  destruct (memory_map_of demangler o is_empty) as [map|] eqn:Em; [|done]. obind.
  destruct map as [map| |]; [|by destruct (serial_of o) as [[]| |]..].
  apply memory_map_of_Go in Em as ->. destruct (serial_of o) as [[port file]| |]; [|done..].
  intros E. injection E as <-. done.
Qed.

(** ** The trace *)

Section machine.
Context {M : Type} `{!TraceMachine M}.

(** Whether an event is asked for. *)
Definition asked (o : TraceOptions) (s : Tracing.Stop M) : bool :=
  match s with
  | MemStop ev _ =>
      (bool_decide (to_mem_symbols o = []) && bool_decide (to_mem_regions o = []))
      || existsb (fun '(a, n) => (a <? mem_TriggerAddr ev + mem_TriggerWidth ev) && (mem_TriggerAddr ev <? a + n))
           (traced_ranges o)
  | _ => true
  end.

Definition proper (s : Tracing.Stop M) : Prop :=
  match s with
  | MemStop ev _ => 0 <= mem_TriggerAddr ev /\ 0 < mem_TriggerWidth ev
                    /\ mem_TriggerAddr ev + mem_TriggerWidth ev <= 2 ^ addr_bits
  | _ => True
  end.

(** The plugin without restrictions. *)
Definition whole_plugin (regs : list Z) (full : bool) : TracingPlugin S :=
  setTraceFile true (setFullTrace full (new_TracingPlugin false regs)).

Lemma in_ranges_exists ranges a w :
  0 < w -> valid_ranges ranges ->
  (exists x, a <= x < a + w /\ in_ranges ranges x)
  <-> existsb (fun '(b, n) => (b <? a + w) && (a <? b + n)) ranges = true.
Proof.
  intros Hw Hr. rewrite existsb_exists. split.
  - intros (x & Hx & b & n & Hin & Hb). exists (b, n). split; [by apply list_elem_of_In|].
    apply andb_true_intro. rewrite !Z.ltb_lt. lia.
  - intros ([b n] & Hin & Hb). apply andb_prop in Hb as [H1 H2]. bool_hyps. apply list_elem_of_In in Hin.
    destruct (Hr b n Hin) as (? & ? & ?). exists (Z.max a b). split; [lia|]. exists b, n. split; [done|lia].
Qed.

Lemma event_asked regs o g s :
  parseOptions demangler o (is_empty : S) = Some (Go g) -> valid_ranges (traced_ranges o) -> proper s ->
  event_of (plugin_of regs g) s = if asked o s then event_of (whole_plugin regs (to_full_trace o)) s else None.
Proof.
  intros Hg Hr Hs. destruct (parse_Go _ _ Hg) as (Hm & Hu & Hf & _).
  unfold plugin_of. rewrite Hu, Hf, Hm.
  destruct s as [m|ev m|m]; cbn [event_of asked].
  - by destruct (_ || _).
  - assert (bool_decide (to_mem_symbols o = []) && bool_decide (to_mem_regions o = [])
      = negb (bool_decide (to_mem_symbols o <> []) || bool_decide (to_mem_regions o <> []))) as ->.
    { destruct (to_mem_symbols o), (to_mem_regions o); done. }
    destruct (bool_decide (to_mem_symbols o <> []) || bool_decide (to_mem_regions o <> [])); [|done].
    cbn [negb orb]. destruct Hs as (Ha & Hw & Ht).
    destruct (memory_map_correct (S := S) (traced_ranges o) (mem_TriggerAddr ev) (mem_TriggerWidth ev) Hr Ha Hw Ht) as [Hmm _].
    rewrite in_ranges_exists in Hmm by done.
    cbn [restrictMemoryAddresses setTraceFile setFullTrace new_TracingPlugin m_ipMap m_memMap m_full_trace map_excludes
         whole_plugin orb].
    destruct (mm_isMatching _ _ _); cbn [negb]; [by rewrite (proj1 Hmm eq_refl)|].
    destruct (existsb _ _); [by pose proof (proj2 Hmm eq_refl)|done].
  - by destruct (_ || _).
Qed.

Lemma recorded_asked regs o g stops :
  parseOptions demangler o (is_empty : S) = Some (Go g) -> valid_ranges (traced_ranges o) -> Forall proper stops ->
  recorded (plugin_of regs g) stops
  = recorded (whole_plugin regs (to_full_trace o)) (filter (fun s => asked o s = true) stops).
Proof.
  intros Hg Hr Hs. unfold recorded. induction Hs as [|s stops Hs _ IH]; [done|].
  rewrite filter_cons. cbn [omap list_omap]. rewrite (event_asked regs o g s Hg Hr Hs).
  destruct (asked o s) eqn:E; [rewrite decide_True by done|rewrite decide_False by done].
  - cbn [omap list_omap]. by rewrite IH.
  - exact IH.
Qed.

(** A run that is traced to its end. *)
Lemma run_done regs o (gr : GoldenRun M) events serial :
  GenericTracing.run (S := S) demangler regs o gr = Some (Go (T_done events serial)) ->
  exists g r, parseOptions demangler o (is_empty : S) = Some (Go g)
  /\ Tracing.run (plugin_of regs g) (gr_start M gr) (gr_stops M gr) = Some r /\ events = Tracing.written r
  /\ serial = (if bool_decide (gt_serial_file g <> []) && gr_serial_opened M gr
               then Some (getOutput (GenericExperiment.run (gr_io M gr) (mkSol true (u32 (gt_serial_port g)) 0 [])))
               else None).
Proof.
  unfold GenericTracing.run. destruct (parseOptions demangler o is_empty) as [[g| |]|]; obind; [|done..].
  unfold run_tracing. intros E. exists g.
  destruct (if gt_check_bounds g then _ else _) as [[ranges| |]|]; obind; [|done..]. cbn [mbind option_bind] in E.
  destruct (negb (gr_trace_opened M gr)); [done|].
  destruct (Tracing.run (plugin_of regs g) (gr_start M gr) (gr_stops M gr)) as [r|]; [|done].
  exists r. cbn [mbind option_bind] in E. destruct (_ && bool_decide (_ ∈ _)); [done|].
  destruct (negb (gr_trace_written M gr)); [done|]. injection E as <- <-. done.
Qed.

(** The trace of a golden run: when tracing ends well, the trace file holds, in order and
    with their times, all instructions from the start address on and exactly those
    accesses that touch a requested symbol or region (all, if none is requested). *)
Theorem golden_trace regs o (gr : GoldenRun M) events serial :
  GenericTracing.run (S := S) demangler regs o gr = Some (Go (T_done events serial)) ->
  let stops := StepStop (gr_start M gr) :: gr_stops M gr in
  valid_ranges (traced_ranges o) -> Forall proper stops -> clock_from 0 stops ->
  let wanted := recorded (whole_plugin regs (to_full_trace o)) (filter (fun s => asked o s = true) stops) in
  untimed <$> events = wanted.*1 /\ abs_times 0 events = wanted.*2.
Proof.
  intros E stops Hr Hp Hc wanted. destruct (run_done _ _ _ _ _ E) as (g & r & Hg & Hrun & -> & _).
  assert (m_tracetype (plugin_of regs g) = TRACE_BOTH /\ m_protoStreamFile (plugin_of regs g) = true) as [Ht Hf]
    by (unfold plugin_of; by destruct (gt_use_memory_map g)).
  destruct (run_all_traced (plugin_of regs g) (gr_start M gr) (gr_stops M gr)) as (r' & Hr' & Htr).
  - done.
  - apply Forall_forall. intros s _. unfold allowed, traces_ip, traces_mem. rewrite Ht. by destruct s.
  - unfold all_stops, traces_ip. by rewrite Ht.
  - rewrite Hrun in Hr'. injection Hr' as <-. destruct Htr as [_ _ He Ha _ _].
    assert (all_stops (plugin_of regs g) (gr_start M gr) (gr_stops M gr) = stops) as Es
      by (unfold all_stops, traces_ip; by rewrite Ht).
    rewrite Es, (recorded_asked _ _ _ _ Hg Hr Hp) in He, Ha. done.
Qed.

(** C20. The golden output and the verdict: the serial file that tracing writes is everything
    the system wrote to the port, and an experiment that is given this file and the same
    port judges a run that ends correctly as "ok" exactly if it wrote the same as the golden
    run, otherwise as silent data corruption. *)
Theorem golden_comparison regs o (gr : GoldenRun M) events golden dem oe g evs i symbol trigger ticks :
  GenericTracing.run (S := S) demangler regs o gr = Some (Go (T_done events (Some golden))) ->
  op_serial_port oe = to_serial_port o -> op_serial_file oe = Some golden ->
  op_e9_file oe = (fun _ => golden) <$> to_e9_file o ->
  Z.of_nat (length golden) < 2 ^ 32 ->
  between dem oe g -> markers g !! i = Some (OK_marker, symbol) ->
  exists port, let on_port l := snd <$> filter (fun ev => ev.1 = (port, true)) l in
    golden = on_port (gr_io M gr)
    /\ resulttype (cb_after_resume (first_marker + i) trigger ticks (logged evs g)).1
       = if decide (on_port evs = on_port (gr_io M gr)) then R_OK_MARKER else R_SDC.
Proof.
  intros E Hport Hfile He9 Hl Hb Hi. destruct (run_done _ _ _ _ _ E) as (gt & r & Hg & _ & _ & Hserial).
  destruct (parse_Go _ _ Hg) as (_ & _ & _ & _ & Hs).
  exists (u32 (gt_serial_port gt)). cbv zeta.
  destruct (bool_decide (gt_serial_file gt <> []) && _); [|done]. injection Hserial as Hgold.
  rewrite run_written in Hgold by (by left). cbn [getOutput m_output limited Z.eqb m_limit app] in Hgold.
  rewrite written_port in Hgold by done. cbn [m_port] in Hgold. split; [exact Hgold|].
  assert (golden_of oe = Some (u32 (gt_serial_port gt), golden)) as Hgo.
  { unfold golden_of. rewrite Hfile, He9, Hport. unfold serial_of in Hs.
    destruct (match to_serial_port o with Some _ => _ | None => _ end) as [port|]; [|done].
    destruct (to_e9_file o); injection Hs as <- _; done. }
  rewrite (marker_verdict dem oe g evs i OK_marker symbol trigger ticks _ _ Hb Hgo Hl Hi), <- Hgold.
  destruct (decide (snd <$> _ = golden)) as [Hd|Hd].
  - by rewrite decide_False by (by intros [_ ?]).
  - by rewrite decide_True by done.
Qed.
End machine.
End theorems.

(** ** A golden run of a small binary *)

Module GoldenDemo.
Import ListSet.
#[local] Instance demo_config : SalConfig := sal_64.

(** Instruction pointer and clock. *)
#[local] Instance demo_machine : TraceMachine (Z * Z) :=
  {| tm_instruction_pointer m := m.1; tm_ticks m := m.2; tm_register _ _ := 0;
     tm_isMapped _ _ := false; tm_getByte _ _ := 0 |}.

Definition options : TraceOptions :=
  mkTraceOptions (Some GenericDemo.elf) None None None None None true false
    [] [chars "0x100:0x104"; chars "200+2"] None (Some (chars "1008")) (Some (chars "out")) None None false.

(** Two instructions and three accesses, one of them outside the regions. *)
Definition golden : GoldenRun (Z * Z) :=
  mkGolden _ (0x1000, 5)
    [MemStop (mkMemAccessEvent None 0x103 1 0x1000 MEM_READ) (0x1000, 6); StepStop (0x1004, 7);
     MemStop (mkMemAccessEvent None 0x1fe 4 0x1004 MEM_WRITE) (0x1004, 8);
     MemStop (mkMemAccessEvent None 0x104 1 0x1004 MEM_READ) (0x1004, 9)]
    [GenericDemo.output 104; (0x60, true, 1); GenericDemo.output 105] id_stop_symbol true true true.

Definition events : list Trace_Event :=
  [mkTE 0x1000 (Some 5) None 0 READ None; mkTE 0x1000 (Some 1) (Some 0x103) 1 READ None;
   mkTE 0x1004 (Some 1) None 0 READ None; mkTE 0x1004 (Some 1) (Some 0x1fe) 4 WRITE None].

Lemma golden_done :
  GenericTracing.run (S := list Z) GenericDemo.no_demangler [] options golden
  = Some (Go (T_done events (Some (chars "hi")))).
Proof. by vm_compute. Qed.

Lemma golden_trace_witness :
  abs_times 0 events = [5; 6; 7; 8]
  /\ untimed <$> events = [mkTE 0x1000 None None 0 READ None; mkTE 0x1000 None (Some 0x103) 1 READ None;
       mkTE 0x1004 None None 0 READ None; mkTE 0x1004 None (Some 0x1fe) 4 WRITE None].
Proof.
  destruct (golden_trace (S := list Z) GenericDemo.no_demangler [] options golden events (Some (chars "hi")))
    as [H1 H2].
  - exact golden_done.
  - assert (traced_ranges GenericDemo.no_demangler options = [(0x100, 4); (0x200, 2)]) as -> by (by vm_compute).
    intros a n Hin. apply elem_of_cons in Hin as [[= -> ->]|Hin]; [by vm_compute|].
    apply list_elem_of_singleton in Hin as [= -> ->]. by vm_compute.
  - repeat (apply Forall_cons_2; [by vm_compute|]). apply Forall_nil_2.
  - by vm_compute.
  - split; [by rewrite H2; vm_compute|by rewrite H1; vm_compute].
Defined.

Lemma golden_comparison_witness :
  exists port, let on_port l := snd <$> filter (fun ev : Z * bool * Z => ev.1 = (port, true)) l in
    chars "hi" = on_port (gr_io _ golden)
    /\ resulttype (cb_after_resume 5 0 77 (logged [GenericDemo.output 104; GenericDemo.output 105] GenericDemo.experiment)).1
       = if decide (on_port [GenericDemo.output 104; GenericDemo.output 105] = on_port (gr_io _ golden))
         then R_OK_MARKER else R_SDC.
Proof.
  apply (golden_comparison (S := list Z) GenericDemo.no_demangler [] options golden events (chars "hi")
    GenericDemo.no_demangler GenericDemo.options GenericDemo.experiment
    [GenericDemo.output 104; GenericDemo.output 105] 0 (mkSymbol (chars "main") 0x1000 8 SYMBOL 2) 0 77).
  - exact golden_done.
  - done.
  - done.
  - done.
  - by vm_compute.
  - eapply between_start, GenericDemo.experiment_started.
  - by vm_compute.
Defined.

(** The help text gives [0x<address>:<length>] as a format; the number after the colon is
    taken as the end address. *)
Example region_formats :
  region_of (chars "0x100:0x104") = Some (0x100, 4) /\ region_of (chars "0x100+4") = Some (0x100, 4)
  /\ region_of (chars "0x100:4") = Some (0x100, 2 ^ 64 - 252).
Proof. by vm_compute. Qed.
End GoldenDemo.
