(* ===== verification/CampaignManager.v ===== *)
(** * The CampaignManager

    [src/core/cpn/CampaignManager.{hpp,cc}], [Campaign.hpp].  The manager owns the
    JobServer: it is made when the first campaign is run, and told to stop when the
    campaign's [run] returns.  The campaign's calls are forwarded through a pointer that is
    null before.  A campaign's [run] is user code: it is the sequence of the calls it makes,
    interleaved with what the network does to the server.

    [JobServer::done] stops two [io_service]s, each served by one thread
    ([JobServer::run] accepts connections, the communication thread runs the coroutines).
    [io_service::stop] does not wait: a handler that a thread is executing at that
    moment still runs to its end, no other one is started. *)
From S2P Require Import Prelude SyncContainers JobServer JobServerTheorems.

(** What the server's two threads can still do. *)
Inductive Services :=
  | Serving
  | Stopped (accepting communicating : bool).   (** a handler was being executed *)

Section manager.
Context {M : Type}.
Implicit Type s : System M.

Record CampaignManager := mkCM {
  m_jobserver : option (System M);
  services : Services;
  server_port : option Z;              (** [None]: the default of the constructor *)
  m_currentCampaign : option nat
}.

Definition new_CampaignManager : CampaignManager := mkCM None Serving None None.

(** [Faults]: a null pointer or a deleted object is used. *)
Inductive Effect := Goes (m : CampaignManager) | Blocks | Faults | Exits.

Definition accepts (l : Label (M := M)) : bool := match l with Accept _ => true | _ => false end.
Definition communicates (l : Label (M := M)) : bool :=
  match l with Control _ _ | Sent _ _ | Received _ _ _ => true | _ => false end.

(** What reaches the server through the network needs its threads. *)
Definition serve (l : Label (M := M)) (v : Services) : option Services :=
  match v with
  | Serving => Some Serving
  | Stopped a b =>
      if accepts l then (if a then Some (Stopped false b) else None)
      else if communicates l then (if b then Some (Stopped a false) else None)
      else Some v
  end.

(** [JobServer::done]: [a] and [b] tell whether the threads are executing a handler. *)
Definition stop_services (a b : bool) (v : Services) : Services :=
  match v with Serving => Stopped a b | Stopped _ _ => v end.

(** The first part of [runCampaign]: [port] is the option's argument, if given. *)
Definition runCampaign_begin (cap : nat) (runid : Z) (parsed : bool) (port : option Z) (c : nat) (m : CampaignManager) : Effect :=
  if parsed then
    Goes (match m_jobserver m with
          | Some _ => mkCM (m_jobserver m) (services m) (server_port m) (Some c)
          | None => mkCM (Some (new_System cap runid)) Serving port (Some c)
          end)
  else Exits.

(** [JobServer::done], at the end of [runCampaign] and by [CampaignManager::done]. *)
Definition CampaignManager_done (a b : bool) (m : CampaignManager) : Effect :=
  match m_jobserver m with
  | None => Faults
  | Some s => Goes (mkCM (Some s) (stop_services a b (services m)) (server_port m) (m_currentCampaign m))
  end.

(** [addParam], [getDone], [noMoreParameters], [setTotalCount], [increaseTotalCount],
    [skipJobs], each forwarded to the server; and the server's own steps. *)
Definition forward (l : Label (M := M)) (m : CampaignManager) : Effect :=
  match m_jobserver m with
  | None => if accepts l || communicates l then Blocks else Faults
  | Some s =>
      match serve l (services m) with
      | None => Blocks
      | Some v =>
          match step l s with
          | Next s' => Goes (mkCM (Some s') v (server_port m) (m_currentCampaign m))
          | Disabled => Blocks
          | Crash => Faults
          end
      end
  end.

Fixpoint forward_all (ls : list (Label (M := M))) (m : CampaignManager) : Effect :=
  match ls with
  | [] => Goes m
  | l :: ls => match forward l m with Goes m' => forward_all ls m' | e => e end
  end.

(** The whole of [runCampaign]. *)
Definition runCampaign (cap : nat) (runid : Z) (parsed : bool) (port : option Z) (a b : bool) (c : nat)
    (run : list (Label (M := M))) (m : CampaignManager) : Effect :=
  match runCampaign_begin cap runid parsed port c m with
  | Goes m1 => match forward_all run m1 with Goes m2 => CampaignManager_done a b m2 | e => e end
  | e => e
  end.

(** ** Forwarded runs *)

(** The threads' part in a whole run. *)
Fixpoint serve_all (ls : list (Label (M := M))) (v : Services) : option Services :=
  match ls with [] => Some v | l :: ls => v1 ← serve l v; serve_all ls v1 end.

(** What a run of the server means for the manager. *)
Definition effect_of (f : System M -> CampaignManager) (o : Outcome M) : Effect :=
  match o with Next s => Goes (f s) | Disabled => Blocks | Crash => Faults end.

Lemma forward_all_run ls : forall m s, m_jobserver m = Some s ->
  match serve_all ls (services m) with
  | Some v => forward_all ls m
      = effect_of (fun s' => mkCM (Some s') v (server_port m) (m_currentCampaign m)) (JobServer.run ls s)
  | None => forall m', forward_all ls m <> Goes m'
  end.
Proof.
  induction ls as [|l ls IH]; intros m s Hs; cbn [forward_all serve_all JobServer.run].
  { destruct m. simpl in *. by subst. }
  unfold forward. rewrite Hs. destruct (serve l (services m)) as [v|]; cbn [mbind option_bind]; [|done].
  destruct (step l s) as [s1| |]; cbn [effect_of]; [apply (IH (mkCM (Some s1) v _ _) s1); done|..]; by case_match.
Qed.

Lemma serve_all_serving ls : serve_all ls Serving = Some Serving.
Proof. by induction ls. Qed.

Lemma serve_all_local ls v :
  Forall (fun l => accepts l = false /\ communicates l = false) ls -> serve_all ls v = Some v.
Proof.
  induction 1 as [|l ls [Ha Hc] _ IH]; [done|]. cbn [serve_all]. unfold serve. rewrite Ha, Hc. by destruct v.
Qed.

(** A stopped thread finishes at most the handler it is in. *)
Lemma serve_all_stopped ls : forall a b v, serve_all ls (Stopped a b) = Some v ->
  (length (filter accepts ls) <= if a then 1 else 0)%nat /\
  (length (filter communicates ls) <= if b then 1 else 0)%nat.
Proof.
  induction ls as [|l ls IH]; intros a b v E; [simpl; lia|]. cbn [serve_all serve] in E. rewrite !filter_cons.
  destruct l; cbn [accepts communicates] in *; repeat case_decide; try done;
    (try destruct a; try done); (try destruct b; try done); apply IH in E; simpl; lia.
Qed.

(** ** A server that is stopped *)

Lemma getDone_settled js o q : getDone js = Some (o, q) ->
  m_queue (m_doneJobs js) = match o with Some j => [j] | None => [] end ++ m_queue (m_doneJobs q).
Proof.
  unfold getDone, Dequeue. destruct (m_queue (m_doneJobs js)) as [|j rest] eqn:E; cbn.
  - destruct (finished _); [|done]. intros [= <- <-]. cbn. by rewrite E.
  - intros [= <- <-]. done.
Qed.

Lemma local_step l s s' : communicates l = false -> step l s = Next s' -> settled s' ≡ₚ settled s.
Proof.
  unfold settled, done_jobs. destruct l as [j m0| |j| |n|n|n|c|c m0|c ok|c m0 ok]; try done; intros _; cbn [step].
  - destruct (bool_decide _); [done|]. unfold addParam. destruct (Enqueue _ _); [|done]. by intros [= <-].
  - destruct (getDone (srv s)) as [[o js]|] eqn:E; [|done]. apply getDone_settled in E.
    destruct o as [j|]; intros [= <-]; cbn [srv delivered upd_srv]; rewrite E; [|done].
    rewrite (Permutation_app_comm (delivered s) [j]). simpl. by rewrite Permutation_middle.
  - destruct (bool_decide _); [|done]. by intros [= <-].
  - intros [= <-]. cbn. unfold setNoMoreExperiments. by case_match.
  - by intros [= <-].
  - by intros [= <-].
  - by intros [= <-].
  - destruct (conns s !! c); [done|]. by intros [= <-].
Qed.

Lemma local_run ls : forall s s', filter communicates ls = [] -> run ls s = Next s' -> settled s' ≡ₚ settled s.
Proof.
  induction ls as [|l ls IH]; intros s s'; cbn [run]; [by intros _ [= <-]|]. rewrite filter_cons.
  destruct (decide (communicates l)) as [|Hl]; [done|]. intros Hf.
  destruct (step l s) as [s1| |] eqn:E; [|done|done]. intros Hr. etrans; [by apply IH|].
  eapply local_step; [|done]. by destruct (communicates l).
Qed.
End manager.
Arguments CampaignManager : clear implicits.
Arguments Effect : clear implicits.

(** The first campaign is exactly a run of a new server. *)
Lemma first_campaign {M : Type} cap runid port a b c (run : list (Label (M := M))) :
  runCampaign cap runid true port a b c run new_CampaignManager
  = effect_of (fun s => mkCM (Some s) (Stopped a b) port (Some c)) (JobServer.run run (new_System cap runid)).
Proof.
  unfold runCampaign, runCampaign_begin. cbn [m_jobserver new_CampaignManager].
  pose proof (forward_all_run run (mkCM (Some (new_System cap runid)) Serving port (Some c)) _ eq_refl) as F.
  cbn [services] in F. rewrite serve_all_serving in F. rewrite F. by destruct (JobServer.run _ _).
Qed.

(** A campaign after it goes on with the same server. *)
Lemma later_campaign {M : Type} cap runid port' a b a' b' c' port cur s (run : list (Label (M := M))) :
  match serve_all run (Stopped a b) with
  | Some v => runCampaign cap runid true port' a' b' c' run (mkCM (Some s) (Stopped a b) port cur)
      = effect_of (fun s' => mkCM (Some s') v port (Some c')) (JobServer.run run s) /\ exists a1 b1, v = Stopped a1 b1
  | None => forall m', runCampaign cap runid true port' a' b' c' run (mkCM (Some s) (Stopped a b) port cur) <> Goes m'
  end.
Proof.
  unfold runCampaign, runCampaign_begin. cbn [m_jobserver].
  pose proof (forward_all_run run (mkCM (Some s) (Stopped a b) port (Some c')) _ eq_refl) as F. cbn [services] in *.
  destruct (serve_all run (Stopped a b)) as [v|] eqn:Ev; cycle 1.
  { intros m'. case_match eqn:E; try done. by apply F in E. }
  assert (exists a1 b1, v = Stopped a1 b1) as (a1 & b1 & ->).
  { clear F. revert a b Ev. induction run as [|l run IH]; intros a b Ev; [injection Ev as <-; eauto|].
    cbn [serve_all serve] in Ev. destruct (accepts l), (communicates l), a, b; try done; by eapply IH. }
  split; [|eauto]. cbn [server_port services] in *. rewrite F. by destruct (JobServer.run _ _).
Qed.

(** C39. A manager runs one campaign.  The first call of [runCampaign] makes the server and is
    exactly the campaign's run on it, on the port asked for: no call meets a null server, and it blocks or
    faults only where the server itself does; at its return the server's threads are stopped.  A second
    campaign gets the same server on the same port: its own calls are answered as before, but of the network's events
    there is at most one in each thread, the one whose handler was being executed when the first campaign
    ended; if the communication thread was idle then, the second campaign gets at most results
    that were left over in the queue, since what has been or can be handed over never
    changes again. *)
Theorem one_campaign_per_manager {M : Type} cap runid port port' a b a' b' c c' (run1 run2 : list (Label (M := M))) :
  runCampaign cap runid true port a b c run1 new_CampaignManager
    = effect_of (fun s1 => mkCM (Some s1) (Stopped a b) port (Some c)) (JobServer.run run1 (new_System cap runid)) /\
  forall m1, runCampaign cap runid true port a b c run1 new_CampaignManager = Goes m1 ->
  exists s1, m_jobserver m1 = Some s1 /\ reachable cap runid s1 /\
    (Forall (fun l => accepts l = false /\ communicates l = false) run2 ->
      runCampaign cap runid true port' a' b' c' run2 m1
        = effect_of (fun s2 => mkCM (Some s2) (Stopped a b) port (Some c')) (JobServer.run run2 s1)) /\
    forall m2, runCampaign cap runid true port' a' b' c' run2 m1 = Goes m2 ->
    exists s2, m_jobserver m2 = Some s2 /\ server_port m2 = port /\
      JobServer.run run2 s1 = Next s2 /\ reachable cap runid s2 /\
      (length (filter accepts run2) <= if a then 1 else 0)%nat /\
      (length (filter communicates run2) <= if b then 1 else 0)%nat /\
      (b = false -> settled s2 ≡ₚ settled s1).
Proof.
  rewrite first_campaign. split; [done|].
  destruct (JobServer.run run1 (new_System cap runid)) as [s1| |] eqn:R1; [|done|done]. intros m1 [= <-].
  assert (reachable cap runid s1) as Hr1 by (eapply run_reachable; [apply reach_init | done]).
  exists s1. split; [done|]. split; [done|].
  pose proof (later_campaign cap runid port' a b a' b' c' port (Some c) s1 run2) as L.
  split.
  { intros Hall. rewrite (serve_all_local _ _ Hall) in L. apply L. }
  intros m2. destruct (serve_all run2 (Stopped a b)) as [v|] eqn:Ev; [|by intros ?%L].
  destruct L as [-> _]. destruct (JobServer.run run2 s1) as [s2| |] eqn:R2; [|done|done]. intros [= <-].
  destruct (serve_all_stopped _ _ _ _ Ev) as [Hna Hnb]. exists s2. split_and!; try done.
  - by eapply run_reachable.
  - intros ->. eapply local_run; [|done]. by apply nil_length_inv, Nat.le_0_r.
Qed.

(** Without a campaign every call is a null dereference. *)
Lemma calls_need_campaign {M : Type} (l : Label (M := M)) :
  accepts l = false -> communicates l = false -> forward l new_CampaignManager = Faults.
Proof. intros Ha Hc. unfold forward. simpl. by rewrite Ha, Hc. Qed.

Module CampaignManagerDemo.

Definition run1 : list (Label (M := nat)) := [AddParam 1%nat 10%nat; NoMore].
Definition run2 : list (Label (M := nat)) := [AddParam 2%nat 20%nat; NoMore].
Definition manager_of (e : Effect nat) : CampaignManager nat :=
  match e with Goes m => m | _ => new_CampaignManager end.
Definition first : CampaignManager nat :=
  manager_of (runCampaign 0 7 true (Some 4711%Z) true false 0 run1 new_CampaignManager).
Definition second : CampaignManager nat := manager_of (runCampaign 0 7 true None false false 1 run2 first).

Lemma one_campaign_per_manager_witness :
  exists s1 s2, m_jobserver first = Some s1 /\ m_jobserver second = Some s2 /\ server_port second = Some 4711 /\
    (exists e, e ∈ added s2 /\ e ∉ added s1) /\ settled s2 ≡ₚ settled s1.
Proof.
  destruct (one_campaign_per_manager 0 7 (Some 4711%Z) None true false false false 0 1 run1 run2) as [_ H].
  destruct (H first) as (s1 & H1 & _ & _ & H2); [vm_compute; reflexivity|].
  destruct (H2 second) as (s2 & Hs2 & Hp & _ & _ & _ & _ & Hs); [vm_compute; reflexivity|].
  exists s1, s2. split; [exact H1|]. split; [exact Hs2|]. split; [exact Hp|]. split; [|by apply Hs].
  exists 2%nat. vm_compute in H1, Hs2. injection H1 as <-. injection Hs2 as <-. simpl. set_solver.
Defined.

End CampaignManagerDemo.
