(* ===== verification/BochsCPU.v ===== *)
(** * The registers of the Bochs back-end

    [core/sal/bochs/BochsCPU.{hpp,cc}] over the part of Bochs' [BX_CPU_C] it
    touches ([simulators/bochs/cpu]): general registers, EFLAGS with the lazily
    evaluated arithmetic flags, control and segment registers, FPU and SSE state, and what address translation caches.

    [sim64] is [SIM_SUPPORT_64].  Operations are [None] where an index leaves
    its array.  Bochs is configured for a CPU level of at least 5 without VMX;
    writing a control or segment register is the simulated processor's business
    (class [BochsCore]). *)
From S2P Require Import Prelude Registers.
Open Scope Z_scope.

(** ** The simulated processor *)

Record i387_t := mk387 { cwd : Z; swd : Z; twd : Z; tos : Z; st_space : list (Z * Z) (** fraction, exp *) }.

(** The TLB by index (linear and physical page frame), the cached page directory
    pointers, whether the CPU has 1G pages, and the window instructions are fetched
    through ([eipPageBias], [eipPageWindowSize]) with the mode they are decoded in. *)
Record xlation_t := mkXl {
  TLB : gmap Z (Z * Z);
  PDPTR_CACHE : option (list Z);
  support_1g : bool;
  eipPageBias : Z;
  eipPageWindowSize : Z;
  long64_mode : bool
}.

(** [oszapc]: the arithmetic flags the recorded operands and result stand for;
    [efer_lma]: long mode. *)
Record BX_CPU_C := mkBx {
  gen_reg : list Z;
  eflags : Z;
  lf_flags_status : Z;
  oszapc : Z;
  async_event : Z;
  efer_lma : bool;
  cr0 : Z;
  cr2 : Z;
  cr3 : Z;
  cr4 : Z;
  sregs : list (Z * Z);                (** selector, base *)
  the_i387 : i387_t;
  xmm : list (Z * Z);                  (** xmm_s64[0], xmm_s64[1] *)
  mxcsr : Z;
  xlation : xlation_t
}.

Definition set_gen_reg (g : list Z) (c : BX_CPU_C) : BX_CPU_C :=
  mkBx g (eflags c) (lf_flags_status c) (oszapc c) (async_event c) (efer_lma c) (cr0 c) (cr2 c) (cr3 c) (cr4 c)
    (sregs c) (the_i387 c) (xmm c) (mxcsr c) (xlation c).
Definition set_flags (f l : Z) (c : BX_CPU_C) : BX_CPU_C :=
  mkBx (gen_reg c) f l (oszapc c) (async_event c) (efer_lma c) (cr0 c) (cr2 c) (cr3 c) (cr4 c)
    (sregs c) (the_i387 c) (xmm c) (mxcsr c) (xlation c).
Definition set_async (c : BX_CPU_C) : BX_CPU_C :=
  mkBx (gen_reg c) (eflags c) (lf_flags_status c) (oszapc c) 1 (efer_lma c) (cr0 c) (cr2 c) (cr3 c) (cr4 c)
    (sregs c) (the_i387 c) (xmm c) (mxcsr c) (xlation c).
Definition set_cr2 (v : Z) (c : BX_CPU_C) : BX_CPU_C :=
  mkBx (gen_reg c) (eflags c) (lf_flags_status c) (oszapc c) (async_event c) (efer_lma c) (cr0 c) v (cr3 c) (cr4 c)
    (sregs c) (the_i387 c) (xmm c) (mxcsr c) (xlation c).
Definition set_387 (f : i387_t) (c : BX_CPU_C) : BX_CPU_C :=
  mkBx (gen_reg c) (eflags c) (lf_flags_status c) (oszapc c) (async_event c) (efer_lma c) (cr0 c) (cr2 c) (cr3 c) (cr4 c)
    (sregs c) f (xmm c) (mxcsr c) (xlation c).
Definition set_xmm (x : list (Z * Z)) (c : BX_CPU_C) : BX_CPU_C :=
  mkBx (gen_reg c) (eflags c) (lf_flags_status c) (oszapc c) (async_event c) (efer_lma c) (cr0 c) (cr2 c) (cr3 c) (cr4 c)
    (sregs c) (the_i387 c) x (mxcsr c) (xlation c).
Definition set_mxcsr (v : Z) (c : BX_CPU_C) : BX_CPU_C :=
  mkBx (gen_reg c) (eflags c) (lf_flags_status c) (oszapc c) (async_event c) (efer_lma c) (cr0 c) (cr2 c) (cr3 c) (cr4 c)
    (sregs c) (the_i387 c) (xmm c) v (xlation c).

Definition invalidate_prefetch_q (c : BX_CPU_C) : BX_CPU_C :=
  mkBx (gen_reg c) (eflags c) (lf_flags_status c) (oszapc c) (async_event c) (efer_lma c) (cr0 c) (cr2 c) (cr3 c) (cr4 c)
    (sregs c) (the_i387 c) (xmm c) (mxcsr c)
    (mkXl (TLB (xlation c)) (PDPTR_CACHE (xlation c)) (support_1g (xlation c)) (eipPageBias (xlation c)) 0
       (long64_mode (xlation c))).

(** Writes that run the processor's own checks and updates. *)
Class BochsCore := {
  SetCR0 : Z -> BX_CPU_C -> BX_CPU_C;
  SetCR3 : Z -> BX_CPU_C -> BX_CPU_C;
  SetCR4 : Z -> BX_CPU_C -> BX_CPU_C;
  load_seg_reg : nat -> Z -> BX_CPU_C -> BX_CPU_C
}.

(** ** EFLAGS *)

Definition EFlagsTFMask : Z := 2 ^ 8.
Definition EFlagsIFMask : Z := 2 ^ 9.
Definition EFlagsRFMask : Z := 2 ^ 16.
Definition EFlagsVMMask : Z := 2 ^ 17.
Definition arithmetic_flags : list Z := [0; 2; 4; 6; 7; 11].
Definition EFlagsOSZAPCMask : Z := 2261.

(** [get_CF] and the other arithmetic flags. *)
Definition get_lazy (bit : Z) (c : BX_CPU_C) : bool :=
  if Z.testbit (lf_flags_status c) bit then Z.testbit (oszapc c) bit else Z.testbit (eflags c) bit.

Definition set_lazy (bit : Z) (val : bool) (c : BX_CPU_C) : BX_CPU_C :=
  set_flags (Z.lor (Z.land (eflags c) (Z.lnot (2 ^ bit))) (if val then 2 ^ bit else 0))
    (Z.land (lf_flags_status c) (Z.lnot (2 ^ bit))) c.

Definition setEFlagsOSZAPC (flags32 : Z) (c : BX_CPU_C) : BX_CPU_C :=
  set_flags (Z.lor (Z.land (eflags c) (Z.lnot EFlagsOSZAPCMask)) (Z.land flags32 EFlagsOSZAPCMask)) 0 c.

Definition force_flags (c : BX_CPU_C) : Z * BX_CPU_C :=
  let c := if lf_flags_status c =? 0 then c
           else setEFlagsOSZAPC
                  (fold_left (fun f b => Z.lor f (if get_lazy b c then 2 ^ b else 0)) arithmetic_flags 0) c in
  (eflags c, c).

Definition read_eflags (c : BX_CPU_C) : Z * BX_CPU_C := force_flags c.

(** [None]: the panic on VM in long mode. *)
Definition setEFlags (val : Z) (c : BX_CPU_C) : option BX_CPU_C :=
  if efer_lma c && Z.testbit (eflags c) 17 then None
  else
    let val := if efer_lma c then Z.land val (Z.lnot EFlagsVMMask) else val in
    let c := if Z.land val (Z.lor EFlagsTFMask EFlagsRFMask) =? 0 then c else set_async c in
    let c := if negb (Z.land val EFlagsIFMask =? 0) && negb (Z.testbit (eflags c) 9) then set_async c else c in
    Some (set_flags val 0 c).

(** ID, VIP, VIF, AC, VM, RF, NT, IOPL, OF, DF, IF, TF, SF, ZF, AF, PF, CF *)
Definition supportMask : Z := Z.lor 229333 (Z.lor (Z.lor (2 ^ 21) (2 ^ 18)) (Z.lor (2 ^ 20) (2 ^ 19))).

Definition writeEFlags (flags changeMask : Z) (c : BX_CPU_C) : option BX_CPU_C :=
  let changeMask := Z.land changeMask supportMask in
  setEFlags (Z.lor (Z.land (eflags c) (Z.lnot changeMask)) (Z.land flags changeMask)) c.

(** The status word the guest sees: the top of the stack comes from [tos]. *)
Definition FPU_SW_Top : Z := 14336.
Definition get_status_word (f : i387_t) : Z :=
  Z.lor (Z.land (Z.land (swd f) (Z.lnot FPU_SW_Top)) 65535) (Z.land (Z.shiftl (tos f) 11) FPU_SW_Top).

(** ** BochsCPU *)

(** The cases of the two [switch] statements. *)
Inductive Slot :=
  | S_flags | S_cr0 | S_cr2 | S_cr3 | S_cr4
  | S_seg (i : nat)
  | S_fsw | S_fcw | S_ftw
  | S_fraction (i : nat) | S_exp (i : nat)
  | S_xmm_lo (i : nat) | S_xmm_hi (i : nat)
  | S_mxcsr
  | S_gen (i : nat).

#[export] Instance Slot_eq_dec : EqDecision Slot.
Proof. solve_decision. Defined.

Definition BX_GENERAL_REGISTERS (sim64 : bool) : nat := if sim64 then 16 else 8.
Definition BX_REG_IP (sim64 : bool) : nat := BX_GENERAL_REGISTERS sim64 + 1.
Definition bx_address_width (sim64 : bool) : Z := if sim64 then 64 else 32.

(** A label of a register in two halves, [n] of them from [lo] on. *)
Definition half_of (id lo : Z) (n : nat) : option (nat * bool) :=
  if (lo <=? id) && (id <? lo + 2 * Z.of_nat n) then Some (Z.to_nat ((id - lo) / 2), Z.odd (id - lo)) else None.

Definition seg_index (id : Z) : option nat :=
  if id =? RID_CS then Some 1%nat else if id =? RID_DS then Some 3%nat else if id =? RID_ES then Some 0%nat
  else if id =? RID_FS then Some 4%nat else if id =? RID_GS then Some 5%nat else if id =? RID_SS then Some 2%nat else None.

Definition slot_of (sim64 : bool) (id : Z) : Slot :=
  if id =? RID_FLAGS then S_flags else if id =? RID_CR0 then S_cr0 else if id =? RID_CR2 then S_cr2
  else if id =? RID_CR3 then S_cr3 else if id =? RID_CR4 then S_cr4
  else match seg_index id with
  | Some i => S_seg i
  | None =>
      if id =? RID_FSW then S_fsw else if id =? RID_FCW then S_fcw else if id =? RID_FTW then S_ftw
      else match half_of id RID_FPR0_LO 8 with
      | Some (i, hi) => if hi : bool then S_exp i else S_fraction i
      | None =>
          match half_of id RID_XMM0_LO (xmm_count sim64) with
          | Some (i, hi) => if hi : bool then S_xmm_hi i else S_xmm_lo i
          | None =>
              if id =? RID_MXCSR sim64 then S_mxcsr
              else if id =? RID_PC then S_gen (BX_REG_IP sim64) else S_gen (Z.to_nat id)
          end
      end
  end.

(** The value, and the processor: reading EFLAGS evaluates the lazy flags. *)
Definition getSlot (s : Slot) (c : BX_CPU_C) : option (Z * BX_CPU_C) :=
  match s with
  | S_flags => Some (read_eflags c)
  | S_cr0 => Some (cr0 c, c)
  | S_cr2 => Some (cr2 c, c)
  | S_cr3 => Some (cr3 c, c)
  | S_cr4 => Some (cr4 c, c)
  | S_seg i => s ← sregs c !! i; Some (s.1, c)
  | S_fsw => Some (swd (the_i387 c), c)
  | S_fcw => Some (cwd (the_i387 c), c)
  | S_ftw => Some (twd (the_i387 c), c)
  | S_fraction i => s ← st_space (the_i387 c) !! i; Some (s.1, c)
  | S_exp i => s ← st_space (the_i387 c) !! i; Some (s.2, c)
  | S_xmm_lo i => x ← xmm c !! i; Some (u64 x.1, c)
  | S_xmm_hi i => x ← xmm c !! i; Some (u64 x.2, c)
  | S_mxcsr => Some (mxcsr c, c)
  | S_gen i => v ← gen_reg c !! i; Some (v, c)
  end.

Definition BochsCPU_getRegisterContent (sim64 : bool) (reg : Register) (c : BX_CPU_C) : option (Z * BX_CPU_C) :=
  getSlot (slot_of sim64 (m_Id reg)) c.

Section set.
Context `{BochsCore} (sim64 : bool).

Definition setSlot (s : Slot) (value : Z) (c : BX_CPU_C) : option BX_CPU_C :=
  let f := the_i387 c in
  match s with
  | S_flags =>
      c ← (if sim64
           then let '(regdata, c) := read_eflags c in
                writeEFlags (u32 (Z.lor (Z.land regdata 18446744069414584320) (Z.land value 4294967295))) 4294967295 c
           else writeEFlags (u32 value) 4294967295 c);
      Some (force_flags c).2
  | S_cr0 => Some (SetCR0 (wrap (bx_address_width sim64) value) c)
  | S_cr2 => Some (set_cr2 (wrap (bx_address_width sim64) value) c)
  | S_cr3 => Some (SetCR3 (wrap (bx_address_width sim64) value) c)
  | S_cr4 => Some (SetCR4 (wrap (bx_address_width sim64) value) c)
  | S_seg i => Some (load_seg_reg i (wrap 16 value) c)
  | S_fsw => Some (set_387 (mk387 (cwd f) (wrap 16 value) (twd f) (tos f) (st_space f)) c)
  | S_fcw => Some (set_387 (mk387 (wrap 16 value) (swd f) (twd f) (tos f) (st_space f)) c)
  | S_ftw => Some (set_387 (mk387 (cwd f) (swd f) (wrap 16 value) (tos f) (st_space f)) c)
  | S_fraction i =>
      s ← st_space f !! i; Some (set_387 (mk387 (cwd f) (swd f) (twd f) (tos f) (<[i := (u64 value, s.2)]> (st_space f))) c)
  | S_exp i =>
      s ← st_space f !! i; Some (set_387 (mk387 (cwd f) (swd f) (twd f) (tos f) (<[i := (s.1, wrap 16 value)]> (st_space f))) c)
  | S_xmm_lo i => x ← xmm c !! i; Some (set_xmm (<[i := (s64 value, x.2)]> (xmm c)) c)
  | S_xmm_hi i => x ← xmm c !! i; Some (set_xmm (<[i := (x.1, s64 value)]> (xmm c)) c)
  | S_mxcsr => Some (set_mxcsr (u32 value) c)
  | S_gen i => _ ← gen_reg c !! i; Some (set_gen_reg (<[i := wrap (bx_address_width sim64) value]> (gen_reg c)) c)
  end.

Definition BochsCPU_setRegisterContent (reg : Register) (value : Z) (c : BX_CPU_C) : option BX_CPU_C :=
  setSlot (slot_of sim64 (m_Id reg)) value c.
End set.

(** [getInstructionPointer], [getStackPointer], [getBasePointer], [getFlagsRegister]:
    the register of the architecture's table with this number. *)
Definition content_of (sim64 : bool) (id : Z) (a : CPUArchitecture) (c : BX_CPU_C) : option Z :=
  p ← getRegister id a; reg ← objects a !! p; fst <$> BochsCPU_getRegisterContent sim64 reg c.

Definition BochsCPU_getInstructionPointer (sim64 : bool) := content_of sim64 RID_PC.
Definition getStackPointer (sim64 : bool) := content_of sim64 RID_CSP.
Definition getBasePointer (sim64 : bool) := content_of sim64 RID_CBP.
Definition getFlagsRegister (sim64 : bool) := content_of sim64 RID_FLAGS.

(** The accessors of single flags, by their bit. *)
Inductive Flag := CF | PF | ZF | SF | OF | TF | IF | DF | NT | RF | VM | AC | VIF | VIP | ID.

#[export] Instance Flag_eq_dec : EqDecision Flag.
Proof. solve_decision. Defined.

Definition flag_bit (f : Flag) : Z :=
  match f with
  | CF => 0 | PF => 2 | ZF => 6 | SF => 7 | TF => 8 | IF => 9 | DF => 10 | OF => 11 | NT => 14 | RF => 16 | VM => 17
  | AC => 18 | VIF => 19 | VIP => 20 | ID => 21
  end.

Definition getFlag (f : Flag) (c : BX_CPU_C) : bool :=
  match f with
  | CF | PF | ZF | SF | OF => get_lazy (flag_bit f) c
  | _ => Z.testbit (eflags c) (flag_bit f)
  end.

Definition setFlag (f : Flag) (val : bool) (c : BX_CPU_C) : BX_CPU_C :=
  let store c := set_flags (Z.lor (Z.land (eflags c) (Z.lnot (2 ^ flag_bit f))) (if val then 2 ^ flag_bit f else 0))
                   (lf_flags_status c) c in
  match f with
  | CF | PF | ZF | SF | OF => set_lazy (flag_bit f) val c
  | TF | IF | RF => store (if val then set_async c else c)
  | VM => if efer_lma c then c else store c
  | _ => store c
  end.

Definition getIOPrivilegeLevel (c : BX_CPU_C) : Z := Z.land 3 (Z.shiftr (eflags c) 12).
Definition setIOPrivilegeLevel (lvl : Z) (c : BX_CPU_C) : BX_CPU_C :=
  set_flags (Z.lor (Z.land (eflags c) (Z.lnot (3 * 2 ^ 12))) (Z.shiftl (Z.land 3 lvl) 12)) (lf_flags_status c) c.
