(* ===== verification/BochsMemory.v ===== *)
(** * The memory of the Bochs back-end

    [core/sal/bochs/BochsMemory.hpp]: bytes at logical guest addresses, found
    through Bochs' segmentation, paging ([cpu/paging.cc]) and physical memory
    ([memory/misc_mem.cc], [memory/memory.cc]).

    RAM is a map from physical addresses to bytes: Bochs gives every block of RAM
    a host address of its own, so a physical address of RAM stands for its host
    byte.  Reads of page tables outside of RAM go to devices or ROM
    ([device_read]).  Operations are [None] when an assertion fails.  Bochs runs
    with a CPU level of at least 6, without VMX; [phy_width] is 40 or 32. *)
From S2P Require Import Prelude Registers BochsCPU.
Open Scope Z_scope.

Record BX_MEM_C := mkMem {
  mem_len : Z;
  a20_mask : Z;
  ram : gmap Z Z;
  memory_handlers : list (Z * Z);      (** begin, end *)
  pci_enabled : bool;
  monitored : list Z                   (** pages an [mwait] watches *)
}.

Record Bochs := mkBochs { bx_cpu : BX_CPU_C; bx_mem : BX_MEM_C }.

Definition set_ram (r : gmap Z Z) (m : BX_MEM_C) : BX_MEM_C :=
  mkMem (mem_len m) (a20_mask m) r (memory_handlers m) (pci_enabled m) (monitored m).

Definition BX_SEG_REG_CS : nat := 1.
Definition BX_SEG_REG_SS : nat := 2.
(** [~BIOS_MASK] for a 2 MB ROM, and the page frame of an address *)
Definition bios_start : Z := 4292870144.
Definition frame (a : Z) : Z := Z.land a (Z.lnot 4095).

Definition A20ADDR (m : BX_MEM_C) (a : Z) : Z := Z.land a (a20_mask m).

Definition handled (m : BX_MEM_C) (a : Z) : bool :=
  existsb (fun h => (h.1 <=? a) && (a <=? h.2)) (memory_handlers m).

Definition is_bios (a : Z) : bool := (bios_start <=? a) && (a <=? 4294967295).

(** The host address for reading and writing ([BX_RW]), [None] for [NULL]. *)
Definition getHostMemAddr (addr : Z) (m : BX_MEM_C) : option Z :=
  let a := A20ADDR m addr in
  if bool_decide (frame a ∈ monitored m) then None
  else if handled m a then None
  else if (mem_len m <=? a) || is_bios a then None
  else if (655360 <=? a) && (a <? 786432) then None
  else if pci_enabled m && (786432 <=? a) && (a <? 1048576) then None
  else if (a <? 786432) || (1048576 <=? a) then Some a else None.

Definition byte_at (m : BX_MEM_C) (a : Z) : Z := default 0 (ram m !! a).

(** [n] bytes, least significant first. *)
Fixpoint le_bytes (m : BX_MEM_C) (a : Z) (n : nat) : Z :=
  match n with
  | O => 0
  | S n => byte_at m a + 256 * le_bytes m (a + 1) n
  end.

(** RAM that is read directly. *)
Definition plain_ram (m : BX_MEM_C) (a : Z) : bool :=
  negb (handled m a) && (a <? mem_len m) && negb (is_bios a) && ((a <? 655360) || (1048576 <=? a)).

Section translation.
Context (phy_width : Z) (device_read : Z -> nat -> Z).

Definition phy (a : Z) : Z := wrap phy_width a.

Definition readPhysicalPage (m : BX_MEM_C) (addr : Z) (len : nat) : Z :=
  let a := A20ADDR m addr in if plain_ram m a then le_bytes m a len else device_read a len.

(** [BX_PAGING_PHY_ADDRESS_RESERVED_BITS] *)
Definition reserved_bits : Z := Z.land (Z.lnot (Z.ones phy_width)) (Z.ones 52).

(** The loop over the levels of a walk with 64-bit entries: the frame and the mask of the
    offset; [None] is the page fault. *)
Fixpoint walk_pae (rd : Z -> nat -> Z) (long big : bool) (laddr : Z) (level : nat) (pt_address offset_mask : Z)
    : option (Z * Z) :=
  let pt_address := phy (pt_address + Z.land (Z.shiftr laddr (9 + 9 * Z.of_nat level)) 4088) in
  let offset_mask := Z.shiftr offset_mask 9 in
  let pte := rd pt_address 8%nat in
  if negb (Z.testbit pte 0) || negb (Z.land pte reserved_bits =? 0) then None
  else
    let pt_address := phy (Z.land pte 4503599627366400) in
    match level with
    | O => Some (pt_address, offset_mask)
    | S next =>
        if Z.testbit pte 7 then
          let pt_address := Z.land pt_address 4503599627362304 in
          if ((level =? 1)%nat || (big && (level =? 2)%nat && long)) && (Z.land pt_address offset_mask =? 0)
          then Some (pt_address, offset_mask) else None
        else walk_pae rd long big laddr next pt_address offset_mask
    end.

(** ... and with 32-bit entries. *)
Definition walk_legacy (rd : Z -> nat -> Z) (pse : bool) (laddr pt_address : Z) : option (Z * Z) :=
  let pde := rd (phy (pt_address + Z.land (Z.shiftr laddr 20) 4092)) 4%nat in
  if negb (Z.testbit pde 0) then None
  else if Z.testbit pde 7 && pse then
    Some (phy (Z.land pde 4290772992 + (if 32 <? phy_width then Z.shiftl (Z.land pde 4186112) 19 else 0)), 4194303)
  else
    let pte := rd (phy (Z.land pde 4294963200 + Z.land (Z.shiftr laddr 10) 4092)) 4%nat in
    if negb (Z.testbit pte 0) then None else Some (Z.land pte 4294963200, 4095).

Definition tlb_hit (c : BX_CPU_C) (laddr : Z) : option Z :=
  '(lpf, ppf) ← TLB (xlation c) !! (Z.shiftr (Z.land (u32 (frame laddr)) 4190208) 12);
  if Z.land lpf (Z.lor (Z.lnot 4095) 2047) =? frame laddr then Some (Z.lor ppf (Z.land laddr 4095)) else None.

Definition page_walk (c : BX_CPU_C) (rd : Z -> nat -> Z) (laddr : Z) : option (Z * Z) :=
  let pt_address := phy (Z.land (cr3 c) 4503599627366400) in
  if Z.testbit (cr4 c) 5 then
    if efer_lma c then walk_pae rd true (support_1g (xlation c)) laddr 3 pt_address 281474976710655
    else
      entries ← PDPTR_CACHE (xlation c);
      e ← entries !! Z.to_nat (Z.land (Z.shiftr laddr 30) 3);
      walk_pae rd false (support_1g (xlation c)) laddr 1 (phy (Z.land e 4503599627366400)) 1073741823
  else walk_legacy rd (Z.testbit (cr4 c) 4) laddr pt_address.

Definition dbg_xlate_linear2phy (c : BX_CPU_C) (rd : Z -> nat -> Z) (laddr : Z) : option Z :=
  if negb (Z.testbit (cr0 c) 31) then Some (phy laddr)
  else match tlb_hit c laddr with
  | Some p => Some p
  | None => '(pt, mask) ← page_walk c rd laddr; Some (phy (pt + Z.land laddr mask))
  end.

Definition get_laddr32 (seg : nat) (offset : Z) (c : BX_CPU_C) : option Z :=
  s ← sregs c !! seg; Some (u32 (u32 s.2 + u32 offset)).

(** ** BochsMemoryManager *)

Definition getPoolSize (b : Bochs) : Z := mem_len (bx_mem b).
Definition getStartAddr : Z := 0.

(** [None]: [ADDR_INV]. *)
Definition guestToHost (addr : Z) (b : Bochs) : option Z :=
  laddr ← get_laddr32 2 addr (bx_cpu b);
  p ← dbg_xlate_linear2phy (bx_cpu b) (readPhysicalPage (bx_mem b)) laddr;
  getHostMemAddr p (bx_mem b).

Definition isMapped (addr : Z) (b : Bochs) : bool := bool_decide (is_Some (guestToHost addr b)).

Definition Bochs_getByte (addr : Z) (b : Bochs) : option Z :=
  h ← guestToHost addr b; Some (byte_at (bx_mem b) h).

Definition Bochs_setByte (addr data : Z) (b : Bochs) : option Bochs :=
  h ← guestToHost addr b; Some (mkBochs (bx_cpu b) (set_ram (<[h := data]> (ram (bx_mem b))) (bx_mem b))).

(** Addresses are [guest_address_t]s of [w] bits. *)
Fixpoint getBytes (w addr : Z) (cnt : nat) (b : Bochs) : option (list Z) :=
  match cnt with
  | O => Some []
  | S n => v ← Bochs_getByte addr b; rest ← getBytes w (wrap w (addr + 1)) n b; Some (v :: rest)
  end.

Fixpoint setBytes (w addr : Z) (src : list Z) (b : Bochs) : option Bochs :=
  match src with
  | [] => Some b
  | v :: rest => b ← Bochs_setByte addr v b; setBytes w (wrap w (addr + 1)) rest b
  end.
End translation.
