(* ===== verification/BochsTheorems.v ===== *)
(** * Theorems on the Bochs back-end

    The registers of [BochsCPU] behave as the interface of [Registers] promises
    ([CPUStateLaws]), apart from those whose writes the processor interprets;
    [injectFault] on them, with [DatabaseExperiment::redecodeCurrentInstruction]. *)
From S2P Require Import Prelude Registers RegisterTheorems Injection BochsCPU BochsMemory.
Open Scope Z_scope.

(** ** Registers *)

(** The arrays have their declared sizes. *)
Definition sized (sim64 : bool) (c : BX_CPU_C) : Prop :=
  length (gen_reg c) = (BX_GENERAL_REGISTERS sim64 + 3)%nat /\ length (sregs c) = 6%nat /\
  length (st_space (the_i387 c)) = 8%nat /\ length (xmm c) = xmm_count sim64.

#[export] Instance sized_dec sim64 c : Decision (sized sim64 c).
Proof. unfold sized. apply _. Defined.

(** The architecture's registers. *)
Definition table_ids (sim64 : bool) : list Z := m_Id ∘ fst <$> x86_registers sim64.
Definition known (sim64 : bool) (r : Register) : Prop := m_Id r ∈ table_ids sim64.

(** The number of bits a slot stores; [None] for registers whose writes the
    processor interprets. *)
Definition stored_width (sim64 : bool) (s : Slot) : option Z :=
  match s with
  | S_fsw | S_fcw | S_ftw | S_exp _ => Some 16
  | S_fraction _ | S_xmm_lo _ | S_xmm_hi _ => Some 64
  | S_mxcsr => Some 32
  | S_cr2 | S_gen _ => Some (bx_address_width sim64)
  | _ => None
  end.

Definition plain (sim64 : bool) (r : Register) : Prop :=
  known sim64 r /\ exists w, stored_width sim64 (slot_of sim64 (m_Id r)) = Some w /\ 0 <= m_Width r <= w.

Definition slot_bounded (sim64 : bool) (s : Slot) : Prop :=
  match s with
  | S_seg i => (i < 6)%nat
  | S_fraction i | S_exp i => (i < 8)%nat
  | S_xmm_lo i | S_xmm_hi i => (i < xmm_count sim64)%nat
  | S_gen i => (i < BX_GENERAL_REGISTERS sim64 + 3)%nat
  | _ => True
  end.

#[export] Instance slot_bounded_dec sim64 s : Decision (slot_bounded sim64 s).
Proof. destruct s; simpl; apply _. Defined.

Lemma slots_nodup sim64 : NoDup (slot_of sim64 <$> table_ids sim64).
Proof. apply (bool_decide_unpack _). destruct sim64; vm_compute; exact I. Qed.

Lemma table_bounded sim64 id : id ∈ table_ids sim64 -> slot_bounded sim64 (slot_of sim64 id).
Proof.
  revert id. apply Forall_forall. apply (bool_decide_unpack _). destruct sim64; vm_compute; exact I.
Qed.

(** Different registers live in different places. *)
Lemma slot_inj sim64 id id' :
  id ∈ table_ids sim64 -> id' ∈ table_ids sim64 -> slot_of sim64 id = slot_of sim64 id' -> id = id'.
Proof.
  intros (i & Hi)%list_elem_of_lookup (j & Hj)%list_elem_of_lookup He.
  assert (i = j) as ->; [|congruence].
  eapply (NoDup_lookup _ i j (slot_of sim64 id) (slots_nodup sim64)); rewrite list_lookup_fmap, ?Hi, ?Hj; simpl; congruence.
Qed.

(** The value found there. *)
Definition slot_value (s : Slot) (c : BX_CPU_C) : option Z :=
  match s with
  | S_flags => Some (read_eflags c).1
  | S_cr0 => Some (cr0 c)
  | S_cr2 => Some (cr2 c)
  | S_cr3 => Some (cr3 c)
  | S_cr4 => Some (cr4 c)
  | S_seg i => fst <$> sregs c !! i
  | S_fsw => Some (swd (the_i387 c))
  | S_fcw => Some (cwd (the_i387 c))
  | S_ftw => Some (twd (the_i387 c))
  | S_fraction i => fst <$> st_space (the_i387 c) !! i
  | S_exp i => snd <$> st_space (the_i387 c) !! i
  | S_xmm_lo i => u64 ∘ fst <$> xmm c !! i
  | S_xmm_hi i => u64 ∘ snd <$> xmm c !! i
  | S_mxcsr => Some (mxcsr c)
  | S_gen i => gen_reg c !! i
  end.

Lemma getSlot_value s c : fst <$> getSlot s c = slot_value s c.
Proof. destruct s; simpl; try done; by destruct (_ !! _). Qed.

Lemma slot_value_some sim64 s c : slot_bounded sim64 s -> sized sim64 c -> is_Some (slot_value s c).
Proof.
  intros Hb (Hg & Hs & Hf & Hx).
  destruct s; simpl in *; rewrite ?fmap_is_Some; try (eexists; reflexivity); apply lookup_lt_is_Some_2; lia.
Qed.

Lemma u64_s64 z : u64 (s64 z) = u64 z.
Proof.
  unfold u64, s64, wrap. rewrite <- (Zminus_mod_idemp_l (_ mod _)), Z.mod_mod by lia.
  rewrite Zminus_mod_idemp_l. f_equal. lia.
Qed.

Ltac slot_index :=
  match goal with
  | |- context [?l !! ?i ≫= _] => let v := fresh "v" in destruct (lookup_lt_is_Some_2 l i) as [v Hv]; [lia | rewrite Hv]
  end.

(** What EFLAGS holds depends on three fields only. *)
Lemma read_eflags_ext c c' :
  eflags c' = eflags c -> lf_flags_status c' = lf_flags_status c -> oszapc c' = oszapc c ->
  (read_eflags c').1 = (read_eflags c).1.
Proof.
  intros He Hl Ho. unfold read_eflags, force_flags, setEFlagsOSZAPC, get_lazy. rewrite Hl.
  destruct (lf_flags_status c =? 0); simpl; [done|]. by rewrite He, Ho.
Qed.

(** A store into one place changes this place and no other. *)
Lemma setSlot_plain `{BochsCore} sim64 s v c w :
  stored_width sim64 s = Some w -> slot_bounded sim64 s -> sized sim64 c ->
  exists c', setSlot sim64 s v c = Some c' /\ sized sim64 c' /\ slot_value s c' = Some (wrap w v) /\
    forall s', s' <> s -> slot_value s' c' = slot_value s' c.
Proof.
  intros Hw Hb (Hg & Hs & Hf & Hx).
  destruct s; simpl in Hw, Hb |- *; simplify_eq;
    try slot_index; eexists; (split; [reflexivity|]);
    (split; [unfold sized; simpl; rewrite ?length_insert; by split_and!|]);
    (split; [simpl; rewrite ?list_lookup_insert_eq by lia; simpl; rewrite ?u64_s64; reflexivity|]);
    intros s' Hne; destruct s'; try reflexivity; try congruence;
    try (apply (f_equal Some), read_eflags_ext; reflexivity); simpl; try congruence;
    try (rewrite list_lookup_insert_ne by congruence; reflexivity);
    match goal with |- context [<[?i := _]> _ !! ?j] => destruct (decide (j = i)) as [->|] end;
    try (rewrite list_lookup_insert_ne by congruence; reflexivity);
    rewrite list_lookup_insert_eq, Hv by lia; reflexivity.
Qed.

(** ** The back-end as a machine *)

(** A build of Bochs.  [fetchDecode] is what [fetchDecode32] or [fetchDecode64] returns
    for these bytes (the instruction it fills in is not part of the state here);
    [boundaryFetch] continues on the next page, or raises an exception. *)
Class BochsConfig := {
  sim64 : bool;
  phy_width : Z;
  device_read : Z -> nat -> Z;
  fetchDecode : bool -> list Z -> Z -> Z;
  boundaryFetch : list Z -> Z -> Bochs -> Bochs
}.

Section machine.
Context `{!BochsConfig} `{!BochsCore}.

Definition BochsMachine : Type := dsig (fun b => sized sim64 (bx_cpu b)).

(** An operation on the machine; what leaves an array has no effect here. *)
Definition lift (f : Bochs -> option Bochs) (b : BochsMachine) : BochsMachine :=
  match f (`b) with
  | Some b' => match decide (sized sim64 (bx_cpu b')) with left Hb => dexist b' Hb | right _ => b end
  | None => b
  end.

Definition set_register (r : Register) (v : Z) (b : Bochs) : option Bochs :=
  c ← BochsCPU_setRegisterContent sim64 r v (bx_cpu b); Some (mkBochs c (bx_mem b)).

Definition reg_value (r : Register) (b : Bochs) : Z :=
  u64 (default 0 (fst <$> BochsCPU_getRegisterContent sim64 r (bx_cpu b))).

#[export] Instance bochs_cpu : CPUState BochsMachine := {|
  cpu_get r b := reg_value r (`b);
  cpu_set r v := lift (set_register r v)
|}.

(** [sizeof(instr_plain)] *)
Definition instr_size : nat := 15.

(** [DatabaseExperiment::redecodeCurrentInstruction]: the bytes at the program counter,
    if all of them are mapped, and how many of them the fetch window is taken to hold;
    [isMapped] of all bytes makes [getBytes] succeed. *)
Definition refetched (b : Bochs) : option (list Z * Z) :=
  let w := bx_address_width sim64 in
  let pc := wrap w (reg_value (mkRegister RID_PC 64 "RIP") b) in
  let eipBiased := wrap w (pc + eipPageBias (xlation (bx_cpu b))) in
  if forallb (fun i => isMapped phy_width device_read (wrap w (pc + Z.of_nat i)) b) (seq 0 instr_size) then
    instr_plain ← getBytes phy_width device_read w pc instr_size b;
    let remainingInPage := wrap w (eipPageWindowSize (xlation (bx_cpu b)) - eipBiased) in
    Some (instr_plain, u32 remainingInPage)
  else None.

Definition redecode (b : Bochs) : Bochs :=
  let b := mkBochs (invalidate_prefetch_q (bx_cpu b)) (bx_mem b) in
  match refetched b with
  | None => b
  | Some (instr_plain, remainingInPage) =>
      if fetchDecode (long64_mode (xlation (bx_cpu b))) instr_plain remainingInPage <? 0
      then boundaryFetch instr_plain remainingInPage b else b
  end.

(** The instruction is found without [boundaryFetch], or is not mapped. *)
Definition decoded_directly (b : Bochs) : bool :=
  let b := mkBochs (invalidate_prefetch_q (bx_cpu b)) (bx_mem b) in
  match refetched b with
  | None => true
  | Some (instr_plain, remainingInPage) =>
      0 <=? fetchDecode (long64_mode (xlation (bx_cpu b))) instr_plain remainingInPage
  end.

#[export] Instance bochs_machine : Machine BochsMachine := {|
  machine_cpu := bochs_cpu;
  getInstructionPointer b := reg_value (mkRegister RID_PC 64 "RIP") (`b);
  getByte a b := default 0 (Bochs_getByte phy_width device_read a (`b));
  setByte a v := lift (Bochs_setByte phy_width device_read a v);
  redecodeCurrentInstruction := lift (fun b => Some (redecode b))
|}.

Lemma lift_val f (b : BochsMachine) b' :
  f (`b) = Some b' -> sized sim64 (bx_cpu b') -> proj1_sig (lift f b) = b'.
Proof. intros Hf Hs. unfold lift. rewrite Hf. by destruct (decide _). Qed.

Lemma bochs_sized (b : BochsMachine) : sized sim64 (bx_cpu (`b)).
Proof. apply (proj2_dsig b). Qed.

Lemma register_value_slot r b : reg_value r b = u64 (default 0 (slot_value (slot_of sim64 (m_Id r)) (bx_cpu b))).
Proof. unfold reg_value, BochsCPU_getRegisterContent. by rewrite getSlot_value. Qed.

Lemma set_register_plain r v (b : BochsMachine) w :
  known sim64 r -> stored_width sim64 (slot_of sim64 (m_Id r)) = Some w ->
  exists c', proj1_sig (lift (set_register r v) b) = mkBochs c' (bx_mem (`b)) /\
    slot_value (slot_of sim64 (m_Id r)) c' = Some (wrap w v) /\
    forall s', s' <> slot_of sim64 (m_Id r) -> slot_value s' c' = slot_value s' (bx_cpu (`b)).
Proof.
  intros Hk Hw. destruct (setSlot_plain sim64 _ v (bx_cpu (`b)) w Hw (table_bounded _ _ Hk) (bochs_sized b))
    as (c' & E & Hs & Hv & Ho).
  exists c'. split; [|done]. apply lift_val; [|done]. unfold set_register, BochsCPU_setRegisterContent. by rewrite E.
Qed.

Lemma stored_width_le s w : stored_width sim64 s = Some w -> 0 <= w <= 64.
Proof. destruct s; simpl; intros [= <-]; unfold bx_address_width; destruct sim64; lia. Qed.

Lemma wrap_wrap_le w w' v : 0 <= w <= w' -> wrap w (wrap w' v) = wrap w v.
Proof.
  intros Hw. unfold wrap. apply Z.mod_mod_divide.
  exists (2 ^ (w' - w)). rewrite <- Z.pow_add_r by lia. f_equal. lia.
Qed.

(** Decoding the instruction again changes neither registers nor memory, as long as
    no page boundary is crossed. *)
Lemma redecode_keeps (b : BochsMachine) :
  decoded_directly (`b) = true ->
  (forall r, reg_value r (proj1_sig (redecodeCurrentInstruction b)) = reg_value r (`b)) /\
  bx_mem (proj1_sig (redecodeCurrentInstruction b)) = bx_mem (`b).
Proof.
  intros Hd.
  assert (redecode (`b) = mkBochs (invalidate_prefetch_q (bx_cpu (`b))) (bx_mem (`b))) as E.
  { unfold redecode, decoded_directly in *. destruct (refetched _) as [[bs rem]|]; [|done].
    by rewrite (proj2 (Z.ltb_ge _ _)) by lia. }
  assert (proj1_sig (redecodeCurrentInstruction b) = mkBochs (invalidate_prefetch_q (bx_cpu (`b))) (bx_mem (`b))) as E'.
  { apply lift_val; [by rewrite E | apply (bochs_sized b)]. }
  split; [|exact (f_equal bx_mem E')]. intros r. etrans; [exact (f_equal (reg_value r) E')|].
  rewrite !register_value_slot. do 2 f_equal.
  destruct (slot_of sim64 (m_Id r)); try done. apply (f_equal Some), read_eflags_ext; reflexivity.
Qed.

(** The window is invalid when the rest of the page is computed from it. *)
Lemma redecode_window b bs rem :
  refetched (mkBochs (invalidate_prefetch_q (bx_cpu b)) (bx_mem b)) = Some (bs, rem) ->
  exists eipBiased, in_range (bx_address_width sim64) eipBiased /\ rem = u32 (wrap (bx_address_width sim64) (- eipBiased)).
Proof.
  unfold refetched. cbn [bx_cpu xlation invalidate_prefetch_q eipPageWindowSize]. destruct (forallb _ _); [|done].
  destruct (getBytes _ _ _ _ _ _); [|done]. cbn [mbind option_bind]. intros [= _ <-].
  eexists. split; [apply wrap_range; unfold bx_address_width; by destruct sim64 | by rewrite Z.sub_0_l].
Qed.

(** The registers the simulator just stores obey the laws of the interface. *)
#[export] Instance bochs_cpu_laws : CPUStateLaws BochsMachine (plain sim64) (known sim64).
Proof.
  split.
  - by intros r [Hr _].
  - intros r b. apply u64_range.
  - intros r v b (Hk & w & Hw & Hle) Hv. simpl. destruct (set_register_plain r v b w Hk Hw) as (c' & -> & E & _).
    rewrite register_value_slot. simpl. rewrite E. simpl. pose proof (stored_width_le _ _ Hw).
    unfold u64. by rewrite !wrap_wrap_le by lia.
  - intros r r' v b (Hk & w & Hw & Hle) Hk' Hne. simpl. destruct (set_register_plain r v b w Hk Hw) as (c' & -> & _ & Ho).
    rewrite !register_value_slot. simpl. rewrite Ho; [done|]. intros He. by apply Hne, (slot_inj sim64).
Qed.
End machine.

(** ** Faults in registers *)

Lemma arch_objects sim64 arch r t :
  X86Architecture sim64 = Some arch -> (r, t) ∈ x86_registers sim64 ->
  exists p, getRegister (m_Id r) arch = Some p /\ objects arch !! p = Some r.
Proof.
  intros Ha Hr.
  assert (Forall (fun rt => (getRegister (m_Id (rt.1 : Register)) arch ≫= fun p => objects arch !! p) = Some rt.1) (x86_registers sim64)) as Hall.
  { apply (bool_decide_unpack _). destruct sim64; (vm_compute in Ha; injection Ha as <-; vm_compute; exact I). }
  rewrite Forall_forall in Hall. specialize (Hall (r, t) Hr). simpl in Hall.
  destruct (getRegister (m_Id r) arch) as [p|]; [|done]. by exists p.
Qed.

Section register_faults.
Context `{!BochsConfig} `{!BochsCore} (arch : CPUArchitecture).
Hypothesis is_x86 : X86Architecture sim64 = Some arch.

Lemma table_known r t : (r, t) ∈ x86_registers sim64 -> known sim64 r.
Proof. intros Hr. apply list_elem_of_fmap. by exists (r, t). Qed.

Lemma table_width r t : (r, t) ∈ x86_registers sim64 -> 8 <= m_Width r <= 64 /\ 0 <= m_Id r < 128.
Proof.
  intros Hr. revert is_x86. destruct sim64; intros _.
  all: match goal with Hr : _ ∈ x86_registers ?b |- _ =>
    assert (Forall (fun rt => 8 <= m_Width (rt.1 : Register) <= 64 /\ 0 <= m_Id rt.1 < 128) (x86_registers b)) as Hall
      by (apply (bool_decide_unpack _); vm_compute; exact I) end;
    rewrite Forall_forall in Hall; exact (Hall _ Hr).
Qed.

(** Byte [j] of register [r] as a data address. *)
Lemma byte_address (r : Register) j : 0 <= j < 16 ->
  fromDataAddress (m_Id r * 16 + j) 1 = reginfo (m_Id r) 8 (j * 8).
Proof.
  intros Hj. rewrite fromDataAddress_value. f_equal.
  - symmetry. apply (Z.div_unique _ 16 _ j); lia.
  - f_equal. symmetry. apply (Z.mod_unique _ 16 (m_Id r) j); lia.
Qed.

Lemma table_names_bits r t j :
  (r, t) ∈ x86_registers sim64 -> plain sim64 r -> 0 <= j -> j * 8 + 8 <= m_Width r ->
  names_bits (plain := plain sim64) arch (fromDataAddress (m_Id r * 16 + j) 1) r.
Proof.
  intros Hr Hp Hj Hle. destruct (table_width _ _ Hr) as [Hw Hid]. rewrite byte_address by lia.
  split; [split; [done | simpl; lia]|]. split; [done|]. split; [simpl; lia|]. split; [lia|].
  apply (arch_objects sim64 arch r t is_x86 Hr).
Qed.

(** General, FPU and vector registers and the instruction pointer are just stored. *)
Definition stored_type (t : RegisterType) : bool :=
  match t with RT_GP | RT_IP | RT_FPU | RT_VECTOR => true | _ => false end.

Lemma table_plain r t : (r, t) ∈ x86_registers sim64 -> stored_type t = true -> plain sim64 r.
Proof.
  intros Hr Ht. split; [by eapply table_known|]. revert Hr. generalize sim64. intros b Hr.
  assert (forallb (fun rt => match stored_width b (slot_of b (m_Id (rt.1 : Register))) with
                             | Some w => (0 <=? m_Width rt.1) && (m_Width rt.1 <=? w)
                             | None => negb (stored_type rt.2) end) (x86_registers b) = true) as Hall
    by (destruct b; vm_compute; reflexivity).
  rewrite forallb_forall in Hall. specialize (Hall _ (proj1 (list_elem_of_In _ _) Hr)). simpl in Hall.
  destruct (stored_width _ _) as [w|]; [exists w; split; [done | lia] | by rewrite Ht in Hall].
Qed.
End register_faults.


(** ** EFLAGS *)

(** Small bit numbers one by one, the others by size. *)
Lemma bits_below (P : Z -> Prop) n : (forall i, (i < n)%nat -> P (Z.of_nat i)) -> (forall k, Z.of_nat n <= k -> P k) ->
  forall k, 0 <= k -> P k.
Proof.
  intros Hs Hl k Hk. destruct (Z.lt_ge_cases k (Z.of_nat n)); [|by apply Hl].
  rewrite <- (Z2Nat.id k) by done. apply Hs. lia.
Qed.

Lemma testbit_pow2 a k : 0 <= a -> 0 <= k -> Z.testbit (2 ^ a) k = (k =? a).
Proof.
  intros Ha Hk. destruct (Z.eqb_spec k a) as [->|]; [by apply Z.pow2_bits_true | by apply Z.pow2_bits_false].
Qed.

(** EFLAGS as read: arithmetic flags may come from the last operation. *)
Lemma read_eflags_testbit c k : 0 <= k ->
  Z.testbit (read_eflags c).1 k = if Z.testbit EFlagsOSZAPCMask k then get_lazy k c else Z.testbit (eflags c) k.
Proof.
  intros Hk. unfold read_eflags, force_flags, get_lazy. destruct (Z.eqb_spec (lf_flags_status c) 0) as [Hl|Hl].
  - rewrite Hl, Z.testbit_0_l. by destruct (Z.testbit EFlagsOSZAPCMask k).
  - cbn [fst eflags setEFlagsOSZAPC set_flags]. rewrite Z.lor_spec, !Z.land_spec, Z.lnot_spec by done.
    destruct (Z.testbit EFlagsOSZAPCMask k) eqn:Hm; [|by rewrite !andb_false_r, orb_false_r, andb_true_r].
    rewrite andb_false_r, andb_true_r. cbn [orb]. revert Hm. pattern k. revert k Hk. refine (bits_below _ 12 _ _).
    + intros i Hi. assert (forall k b, Z.testbit (if b : bool then 2 ^ k else 0) (Z.of_nat i) = b && Z.testbit (2 ^ k) (Z.of_nat i)) as Hif
        by (intros k []; [done | by rewrite Z.testbit_0_l]).
      cbn [fold_left arithmetic_flags]. rewrite !Z.lor_spec, Z.testbit_0_l, !Hif.
      do 12 (destruct i as [|i]; [intros Hm; try (vm_compute in Hm; discriminate);
        unfold get_lazy; vm_compute Z.testbit; rewrite ?andb_true_r, ?andb_false_r, ?orb_false_r; reflexivity|]). lia.
    + intros k Hk Hm. exfalso. rewrite (in_range_testbit 12) in Hm; [done | lia | unfold in_range; vm_compute; split; congruence | lia].
Qed.

(** Flags that a write changes: the supported ones, VM not in long mode. *)
Definition writable (c : BX_CPU_C) (k : Z) : bool := Z.testbit supportMask k && negb (efer_lma c && (k =? 17)).

(** [c'] is [c] but for its flags and pending events. *)
Definition only_flags (c c' : BX_CPU_C) : Prop :=
  efer_lma c' = efer_lma c /\ (forall sim64, sized sim64 c -> sized sim64 c') /\
  forall s, s <> S_flags -> slot_value s c' = slot_value s c.

#[local] Instance only_flags_preorder : PreOrder only_flags.
Proof.
  split; [by split|]. intros a b c (H1 & Hz & H2) (H3 & Hz' & H4). split; [congruence|].
  split; [auto|]. intros s Hs. by rewrite H4, H2.
Qed.

Lemma only_flags_set f l c : only_flags c (set_flags f l c).
Proof. split; [done|]. split; [done | by intros []]. Qed.

Lemma only_flags_async c : only_flags c (set_async c).
Proof. split; [done|]. split; [done | by intros []]. Qed.

Lemma setEFlags_spec v c :
  (efer_lma c && Z.testbit (eflags c) 17 = true /\ setEFlags v c = None) \/
  (efer_lma c && Z.testbit (eflags c) 17 = false /\ exists c', setEFlags v c = Some c' /\ only_flags c c' /\ lf_flags_status c' = 0 /\
    eflags c' = if efer_lma c then Z.land v (Z.lnot EFlagsVMMask) else v).
Proof.
  unfold setEFlags. destruct (efer_lma c && Z.testbit (eflags c) 17); [by left|]. right. split; [done|].
  eexists. split; [reflexivity|].
  set (c1 := if Z.land _ (Z.lor _ _) =? 0 then c else set_async c). set (c2 := if _ && _ then set_async c1 else c1).
  assert (only_flags c c1) as H1 by (unfold c1; case_match; [done | apply only_flags_async]).
  assert (only_flags c1 c2) as H2 by (unfold c2; case_match; [apply only_flags_async | done]).
  split; [|done]. etrans; [exact H1|]. etrans; [exact H2|]. apply only_flags_set.
Qed.

Lemma force_known c : lf_flags_status c = 0 -> force_flags c = (eflags c, c).
Proof. intros H. unfold force_flags. by rewrite H. Qed.

(** Writing EFLAGS through [writeEFlags] with a full mask. *)
Lemma writeEFlags_spec v c :
  efer_lma c && Z.testbit (eflags c) 17 = false ->
  exists c', writeEFlags v 4294967295 c = Some c' /\ only_flags c c' /\ lf_flags_status c' = 0 /\
    forall k, 0 <= k < 32 -> Z.testbit (eflags c') k
      = if writable c k then Z.testbit v k else Z.testbit (eflags c) k && negb (efer_lma c && (k =? 17)).
Proof.
  intros Hvm. unfold writeEFlags. change (Z.land 4294967295 supportMask) with supportMask.
  destruct (setEFlags_spec (Z.lor (Z.land (eflags c) (Z.lnot supportMask)) (Z.land v supportMask)) c) as [[H _]|(_ & c' & -> & Ho & Hl & He)];
    [congruence|].
  exists c'. split; [done|]. split; [done|]. split; [done|]. intros k Hk. rewrite He. unfold writable.
  assert (forall x, Z.testbit (if efer_lma c then Z.land x (Z.lnot EFlagsVMMask) else x) k = Z.testbit x k && negb (efer_lma c && (k =? 17))) as Hx.
  { intros x. destruct (efer_lma c); simpl; [|by rewrite andb_true_r].
    rewrite Z.land_spec, Z.lnot_spec by lia. unfold EFlagsVMMask. by rewrite testbit_pow2 by lia. }
  rewrite Hx, Z.lor_spec, !Z.land_spec, Z.lnot_spec by lia.
  destruct (Z.testbit supportMask k), (efer_lma c && (k =? 17)) eqn:E; simpl; rewrite ?andb_true_r, ?andb_false_r, ?orb_false_r; try done.
Qed.

(** A write of the register: supported flags are set, the others keep their value. *)
Lemma flags_write `{BochsCore} sim64 v c :
  efer_lma c && Z.testbit (eflags c) 17 = false -> in_range 64 v ->
  exists c', setSlot sim64 S_flags v c = Some c' /\ only_flags c c' /\
    forall k, 0 <= k < 32 -> Z.testbit (read_eflags c').1 k
      = if writable c k then Z.testbit v k else Z.testbit (eflags c) k && negb (efer_lma c && (k =? 17)).
Proof.
  intros Hvm Hv.
  assert (forall c0 v0, only_flags c c0 -> (forall k, Z.testbit EFlagsOSZAPCMask k = false -> Z.testbit (eflags c0) k = Z.testbit (eflags c) k) ->
      (forall k, 0 <= k < 32 -> Z.testbit v0 k = Z.testbit v k) ->
      exists c', (c1 ← writeEFlags v0 4294967295 c0; Some (force_flags c1).2) = Some c' /\ only_flags c c' /\
        forall k, 0 <= k < 32 -> Z.testbit (read_eflags c').1 k
          = if writable c k then Z.testbit v k else Z.testbit (eflags c) k && negb (efer_lma c && (k =? 17))) as Hwrite.
  { intros c0 v0 Hof He Hv0. pose proof Hof as [Hl _]. destruct (writeEFlags_spec v0 c0) as (c' & -> & Ho & Hf & Hk).
    { rewrite Hl, He by done. exact Hvm. }
    cbn [mbind option_bind]. rewrite (force_known c' Hf). exists c'. split; [done|]. split; [by etrans|].
    intros k Hkr. unfold read_eflags. rewrite (force_known c' Hf). cbn [fst]. rewrite Hk by done.
    unfold writable in *. rewrite Hl. destruct (Z.testbit supportMask k) eqn:Hsup; cbn [andb].
    - destruct (negb _) eqn:Hn; [by apply Hv0|]. by rewrite !andb_false_r.
    - f_equal. apply He. destruct (Z.testbit EFlagsOSZAPCMask k) eqn:Hm; [|done]. exfalso.
      assert (Z.land EFlagsOSZAPCMask supportMask = EFlagsOSZAPCMask) as Hin by (vm_compute; reflexivity).
      rewrite <- Hin, Z.land_spec, Hsup, andb_false_r in Hm. done. }
  unfold setSlot. destruct sim64.
  - destruct (read_eflags c) as [d c0] eqn:E. apply Hwrite.
    + replace c0 with (read_eflags c).2 by (by rewrite E). unfold read_eflags, force_flags. cbn [snd].
      case_match; [done | apply only_flags_set].
    + intros k Hm. replace c0 with (read_eflags c).2 by (by rewrite E). unfold read_eflags, force_flags. cbn [snd].
      case_match; [done|]. cbn [eflags setEFlagsOSZAPC set_flags].
      destruct (Z.neg_nonneg_cases k) as [Hneg|Hnn]; [by rewrite !Z.testbit_neg_r|].
      rewrite Z.lor_spec, !Z.land_spec, Z.lnot_spec, Hm by done. by rewrite andb_false_r, orb_false_r, andb_true_r.
    + intros k Hk. unfold u32, wrap. rewrite Z.mod_pow2_bits_low, Z.lor_spec, !Z.land_spec by lia.
      change 4294967295 with (Z.ones 32). rewrite Z.ones_spec_low by lia.
      change 18446744069414584320 with (Z.shiftl (Z.ones 32) 32). rewrite Z.shiftl_spec_low by lia.
      by rewrite andb_false_r, andb_true_r.
  - apply Hwrite; [done | done|]. intros k Hk. unfold u32, wrap. by rewrite Z.mod_pow2_bits_low by lia.
Qed.

Definition eflags_register : Register := mkRegister RID_FLAGS 32 "EFLAGS".

Lemma eflags_in_table sim64 : (eflags_register, RT_ST) ∈ x86_registers sim64.
Proof. apply (bool_decide_unpack _). destruct sim64; vm_compute; exact I. Qed.

Lemma eflags_value `{!BochsConfig} b k :
  0 <= k < 64 -> Z.testbit (reg_value eflags_register b) k = Z.testbit (read_eflags (bx_cpu b)).1 k.
Proof.
  intros Hk. rewrite register_value_slot. change (slot_of sim64 (m_Id eflags_register)) with S_flags. cbn [slot_value default].
  rewrite u64_testbit by lia. by destruct (Z.ltb_spec k 64); [|lia].
Qed.

(** Flags a write does not reach read as they are stored. *)
Lemma unwritable_bit c k :
  efer_lma c && Z.testbit (eflags c) 17 = false -> 0 <= k -> writable c k = false ->
  Z.testbit (read_eflags c).1 k = Z.testbit (eflags c) k && negb (efer_lma c && (k =? 17)).
Proof.
  intros Hvm Hk Hw. rewrite read_eflags_testbit by done. unfold writable in Hw.
  destruct (Z.testbit EFlagsOSZAPCMask k) eqn:Hm.
  - exfalso. assert (Z.land EFlagsOSZAPCMask supportMask = EFlagsOSZAPCMask) as Hin by (vm_compute; reflexivity).
    rewrite <- Hin, Z.land_spec in Hm. apply andb_true_iff in Hm as [Hm Hs]. rewrite Hs in Hw.
    destruct (Z.eqb_spec k 17) as [->|]; [by vm_compute in Hm | by rewrite andb_false_r in Hw].
  - destruct (Z.eqb_spec k 17) as [->|]; [|by rewrite andb_false_r, andb_true_r].
    destruct (efer_lma c); simpl in *; [by rewrite Hvm | by rewrite andb_true_r].
Qed.


(** ** Single flags *)

Lemma flag_bit_range f : 0 <= flag_bit f < 32.
Proof. destruct f; simpl; lia. Qed.

Lemma flag_bit_inj f g : flag_bit f = flag_bit g -> f = g.
Proof. by destruct f, g. Qed.

(** A flag's accessor agrees with the register. *)
Lemma getFlag_register f c : getFlag f c = Z.testbit (read_eflags c).1 (flag_bit f).
Proof. rewrite read_eflags_testbit by apply flag_bit_range. by destruct f. Qed.

Lemma put_bit x k v j : 0 <= k -> 0 <= j ->
  Z.testbit (Z.lor (Z.land x (Z.lnot (2 ^ k))) (if v : bool then 2 ^ k else 0)) j = if j =? k then v else Z.testbit x j.
Proof.
  intros Hk Hj. rewrite Z.lor_spec, Z.land_spec, Z.lnot_spec, testbit_pow2 by done.
  destruct v; rewrite ?testbit_pow2, ?Z.testbit_0_l by done; destruct (j =? k); simpl; by rewrite ?andb_true_r, ?andb_false_r, ?orb_false_r.
Qed.

Lemma clear_bit x k j : 0 <= k -> 0 <= j -> Z.testbit (Z.land x (Z.lnot (2 ^ k))) j = if j =? k then false else Z.testbit x j.
Proof.
  intros Hk Hj. rewrite Z.land_spec, Z.lnot_spec, testbit_pow2 by done. destruct (j =? k); simpl; by rewrite ?andb_true_r, ?andb_false_r.
Qed.

Lemma setFlag_fields f v c :
  (f = VM -> efer_lma c = false) ->
  eflags (setFlag f v c) = Z.lor (Z.land (eflags c) (Z.lnot (2 ^ flag_bit f))) (if v then 2 ^ flag_bit f else 0) /\
  lf_flags_status (setFlag f v c)
    = (if Z.testbit EFlagsOSZAPCMask (flag_bit f) then Z.land (lf_flags_status c) (Z.lnot (2 ^ flag_bit f)) else lf_flags_status c) /\
  oszapc (setFlag f v c) = oszapc c.
Proof. intros Hvm. destruct f; cbn [setFlag]; rewrite ?Hvm by done; by destruct v. Qed.

(** Bochs: the accessors of the single flags agree with EFLAGS as a whole, lazily evaluated
    flags included: setting a flag (VM not in long mode) gives that flag the value,
    leaves every other flag alone, and the register reads accordingly. *)
Theorem flag_accessors f v c :
  (f = VM -> efer_lma c = false) ->
  getFlag f (setFlag f v c) = v /\
  (forall g, g <> f -> getFlag g (setFlag f v c) = getFlag g c) /\
  forall k, 0 <= k -> Z.testbit (read_eflags (setFlag f v c)).1 k = if k =? flag_bit f then v else Z.testbit (read_eflags c).1 k.
Proof.
  intros Hvm.
  assert (forall k, 0 <= k -> Z.testbit (read_eflags (setFlag f v c)).1 k
            = if k =? flag_bit f then v else Z.testbit (read_eflags c).1 k) as Hbits.
  { intros k Hk. rewrite !read_eflags_testbit by done. pose proof (flag_bit_range f) as [Hf _].
    destruct (setFlag_fields f v c Hvm) as (He & Hl & Ho). unfold get_lazy. rewrite Ho, He, put_bit by done.
    destruct (Z.eqb_spec k (flag_bit f)) as [->|Hne].
    - destruct (Z.testbit EFlagsOSZAPCMask (flag_bit f)); [|done]. by rewrite Hl, clear_bit, Z.eqb_refl.
    - destruct (Z.testbit EFlagsOSZAPCMask (flag_bit f)); rewrite Hl, ?clear_bit by done; [|done].
      by rewrite (proj2 (Z.eqb_neq _ _) Hne). }
  split; [|split; [|exact Hbits]].
  - by rewrite getFlag_register, Hbits, Z.eqb_refl by apply flag_bit_range.
  - intros g Hg. rewrite !getFlag_register, Hbits by apply flag_bit_range.
    destruct (Z.eqb_spec (flag_bit g) (flag_bit f)) as [He%flag_bit_inj|]; done.
Qed.

(** The guest sees the top of the FPU stack in [tos]: what is written to these bits of
    the status word does not reach it. *)
Lemma fsw_top_lost `{BochsCore} sim64 v c c' :
  setSlot sim64 S_fsw v c = Some c' ->
  forall k, 11 <= k < 14 -> Z.testbit (get_status_word (the_i387 c')) k = Z.testbit (get_status_word (the_i387 c)) k.
Proof.
  intros [= <-] k Hk. unfold get_status_word. cbn [the_i387 set_387 swd tos].
  rewrite !Z.lor_spec, !Z.land_spec, !Z.lnot_spec by lia.
  assert (Z.testbit FPU_SW_Top k = true) as ->.
  { assert (k = 11 \/ k = 12 \/ k = 13) as [->|[->| ->]] by lia; reflexivity. }
  by rewrite !andb_false_r.
Qed.
