(* ===== verification/BochsMemoryTheorems.v ===== *)
(** * Theorems on the memory of the Bochs back-end

    A write through [BochsMemoryManager] changes one byte, seen at every guest
    address translated to it; where the translation loses part of the address. *)
From S2P Require Import Prelude Registers RegisterTheorems Injection BochsCPU BochsMemory BochsTheorems.
Open Scope Z_scope.

(** ** What a translation reads *)

Section reads.
Context (phy_width : Z).

Fixpoint pae_reads (rd : Z -> nat -> Z) (laddr : Z) (level : nat) (pt_address : Z) : list (Z * nat) :=
  let pt_address := phy phy_width (pt_address + Z.land (Z.shiftr laddr (9 + 9 * Z.of_nat level)) 4088) in
  let pte := rd pt_address 8%nat in
  (pt_address, 8%nat) ::
  match level with
  | O => []
  | S next => pae_reads rd laddr next (phy phy_width (Z.land pte 4503599627366400))
  end.

Definition legacy_reads (rd : Z -> nat -> Z) (laddr pt_address : Z) : list (Z * nat) :=
  let p := phy phy_width (pt_address + Z.land (Z.shiftr laddr 20) 4092) in
  [(p, 4%nat); (phy phy_width (Z.land (rd p 4%nat) 4294963200 + Z.land (Z.shiftr laddr 10) 4092), 4%nat)].

Definition walk_reads (c : BX_CPU_C) (rd : Z -> nat -> Z) (laddr : Z) : list (Z * nat) :=
  let pt_address := phy phy_width (Z.land (cr3 c) 4503599627366400) in
  if Z.testbit (cr4 c) 5 then
    if efer_lma c then pae_reads rd laddr 3 pt_address
    else match PDPTR_CACHE (xlation c) ≫= fun entries => entries !! Z.to_nat (Z.land (Z.shiftr laddr 30) 3) with
         | Some e => pae_reads rd laddr 1 (phy phy_width (Z.land e 4503599627366400))
         | None => []
         end
  else legacy_reads rd laddr pt_address.

(** The page-table entries a translation depends on: none without paging or with the
    page in the TLB. *)
Definition xlate_reads (c : BX_CPU_C) (rd : Z -> nat -> Z) (laddr : Z) : list (Z * nat) :=
  if negb (Z.testbit (cr0 c) 31) || bool_decide (is_Some (tlb_hit c laddr)) then [] else walk_reads c rd laddr.

Section agree.
Context (rd rd' : Z -> nat -> Z).
Definition agree (l : list (Z * nat)) : Prop := Forall (fun x => rd' x.1 x.2 = rd x.1 x.2) l.

Lemma walk_pae_agree long big laddr level : forall pt mask,
  agree (pae_reads rd laddr level pt) ->
  walk_pae phy_width rd' long big laddr level pt mask = walk_pae phy_width rd long big laddr level pt mask.
Proof.
  induction level as [|level IH]; intros pt mask Ha; inversion Ha as [|x l Hx Hl]; subst; cbn [fst snd] in Hx;
    cbn [walk_pae]; rewrite Hx; [done|].
  repeat case_match; try done. by apply IH.
Qed.

Lemma pae_reads_agree laddr level : forall pt,
  agree (pae_reads rd laddr level pt) -> pae_reads rd' laddr level pt = pae_reads rd laddr level pt.
Proof.
  induction level as [|level IH]; intros pt Ha; [done|]. inversion Ha as [|x l Hx Hl]; subst. cbn [fst snd] in Hx.
  cbn [pae_reads]. rewrite Hx. f_equal. by apply IH.
Qed.

Lemma walk_legacy_agree pse laddr pt :
  agree (legacy_reads rd laddr pt) -> walk_legacy phy_width rd' pse laddr pt = walk_legacy phy_width rd pse laddr pt.
Proof.
  intros Ha. inversion Ha as [|x l Hx Hl]; subst. inversion Hl as [|y l' Hy _]; subst. cbn [fst snd] in Hx, Hy.
  unfold walk_legacy. by rewrite Hx, Hy.
Qed.

Lemma xlate_agree c laddr :
  agree (xlate_reads c rd laddr) -> dbg_xlate_linear2phy phy_width c rd' laddr = dbg_xlate_linear2phy phy_width c rd laddr.
Proof.
  unfold xlate_reads, dbg_xlate_linear2phy. destruct (negb _); [done|]. cbn [orb].
  destruct (tlb_hit c laddr) as [t|] eqn:Ht; [done|]. rewrite bool_decide_eq_false_2 by (by intros [? [=]]).
  unfold walk_reads, page_walk. intros Ha.
  destruct (Z.testbit (cr4 c) 5); [|by rewrite walk_legacy_agree].
  destruct (efer_lma c); [by rewrite walk_pae_agree|].
  destruct (PDPTR_CACHE _) as [es|]; [|done]. cbn [mbind option_bind] in *.
  destruct (es !! _) as [e|]; [|done]. cbn [mbind option_bind]. by rewrite walk_pae_agree.
Qed.

Lemma xlate_reads_agree c laddr : agree (xlate_reads c rd laddr) -> xlate_reads c rd' laddr = xlate_reads c rd laddr.
Proof.
  unfold xlate_reads, walk_reads. destruct (negb _ || _); [done|]. intros Ha.
  destruct (Z.testbit (cr4 c) 5).
  - destruct (efer_lma c); [by apply pae_reads_agree|]. destruct (_ ≫= _); [by apply pae_reads_agree | done].
  - inversion Ha as [|x l Hx _]; subst. cbn [fst snd] in Hx. unfold legacy_reads. by rewrite Hx.
Qed.
End agree.
End reads.

(** ** Writing a byte *)

Section memory.
Context (phy_width : Z) (device_read : Z -> nat -> Z).
Abbreviation host := (guestToHost phy_width device_read).

(** The bytes of RAM that the translation of [addr] depends on. *)
Definition table_bytes (addr : Z) (b : Bochs) : list Z :=
  match get_laddr32 2 addr (bx_cpu b) with
  | Some laddr =>
      xlate_reads phy_width (bx_cpu b) (readPhysicalPage device_read (bx_mem b)) laddr ≫=
      fun x => seqZ (A20ADDR (bx_mem b) x.1) (Z.of_nat x.2)
  | None => []
  end.

Lemma le_bytes_write m h v n : forall a,
  h ∉ seqZ a (Z.of_nat n) -> le_bytes (set_ram (<[h := v]> (ram m)) m) a n = le_bytes m a n.
Proof.
  induction n as [|n IH]; intros a Hh; [done|]. cbn [le_bytes]. rewrite IH.
  - f_equal. unfold byte_at. cbn [ram set_ram]. rewrite lookup_insert_ne; [done|]. intros ->. apply Hh, elem_of_seqZ. lia.
  - intros Hin. apply Hh. apply elem_of_seqZ in Hin. apply elem_of_seqZ. lia.
Qed.

Lemma readPhysicalPage_write m h v p n :
  h ∉ seqZ (A20ADDR m p) (Z.of_nat n) ->
  readPhysicalPage device_read (set_ram (<[h := v]> (ram m)) m) p n = readPhysicalPage device_read m p n.
Proof.
  intros Hh. unfold readPhysicalPage. change (A20ADDR (set_ram _ m)) with (A20ADDR m).
  change (plain_ram (set_ram _ m)) with (plain_ram m). by destruct (plain_ram m _); [apply le_bytes_write|].
Qed.

Lemma tables_agree b h v l :
  h ∉ (l ≫= fun x : Z * nat => seqZ (A20ADDR (bx_mem b) x.1) (Z.of_nat x.2)) ->
  agree (readPhysicalPage device_read (bx_mem b))
    (readPhysicalPage device_read (set_ram (<[h := v]> (ram (bx_mem b))) (bx_mem b))) l.
Proof.
  intros Hh. apply Forall_forall. intros [p n] Hx. apply readPhysicalPage_write. intros Hin. apply Hh.
  apply list_elem_of_bind. by exists (p, n).
Qed.

(** Translations that do not depend on the byte stay as they are. *)
Lemma host_write b h v addr :
  h ∉ table_bytes addr b ->
  host addr (mkBochs (bx_cpu b) (set_ram (<[h := v]> (ram (bx_mem b))) (bx_mem b))) = host addr b.
Proof.
  intros Hh. unfold guestToHost, table_bytes in *. cbn [bx_cpu bx_mem].
  destruct (get_laddr32 2 addr (bx_cpu b)) as [laddr|]; [|done]. cbn [mbind option_bind].
  by rewrite (xlate_agree phy_width (readPhysicalPage device_read (bx_mem b))) by (by apply tables_agree).
Qed.

Lemma table_bytes_write b h v addr :
  h ∉ table_bytes addr b ->
  table_bytes addr (mkBochs (bx_cpu b) (set_ram (<[h := v]> (ram (bx_mem b))) (bx_mem b))) = table_bytes addr b.
Proof.
  intros Hh. unfold table_bytes in *. cbn [bx_cpu bx_mem].
  destruct (get_laddr32 2 addr (bx_cpu b)) as [laddr|]; [|done].
  by rewrite (xlate_reads_agree phy_width (readPhysicalPage device_read (bx_mem b))) by (by apply tables_agree).
Qed.

Lemma setByte_spec a v b h :
  host a b = Some h ->
  exists b', Bochs_setByte phy_width device_read a v b = Some b' /\ bx_cpu b' = bx_cpu b /\
    (forall h', byte_at (bx_mem b') h' = if h' =? h then v else byte_at (bx_mem b) h') /\
    forall addr, h ∉ table_bytes addr b ->
      host addr b' = host addr b /\ table_bytes addr b' = table_bytes addr b /\
      Bochs_getByte phy_width device_read addr b'
        = if decide (host addr b = Some h) then Some v else Bochs_getByte phy_width device_read addr b.
Proof.
  intros Hh. unfold Bochs_setByte. rewrite Hh. cbn [mbind option_bind]. eexists. split; [done|]. split; [done|].
  set (b' := mkBochs _ _).
  assert (forall h', byte_at (bx_mem b') h' = if h' =? h then v else byte_at (bx_mem b) h') as Hbyte.
  { intros h'. unfold byte_at, b'. cbn [bx_mem ram set_ram]. destruct (Z.eqb_spec h' h) as [->|].
    - by rewrite lookup_insert_eq.
    - by rewrite lookup_insert_ne. }
  split; [exact Hbyte|]. intros addr Ht. assert (host addr b' = host addr b) as He by (by apply host_write).
  split; [exact He|]. split; [by apply table_bytes_write|]. unfold Bochs_getByte. rewrite He. destruct (host addr b) as [h'|]; cbn [mbind option_bind].
  - rewrite Hbyte. destruct (Z.eqb_spec h' h) as [->|]; case_decide; congruence.
  - by case_decide.
Qed.
End memory.

(** ** Faults in memory *)

(** C9. Bochs: a fault at a mapped guest address flips exactly the fault's bits of the
    one byte of RAM it is translated to.  Every guest address whose translation
    does not go through that byte is translated as before and reads as before, unless it is
    translated to the same byte; all registers keep their values. *)
Theorem bochs_memory_fault `{!BochsConfig} `{!BochsCore} arch a bitpos burst regs (b : BochsMachine) h :
  0 <= bitpos < 8 -> (a <? 2048) && regs = false -> guestToHost phy_width device_read a (`b) = Some h ->
  in_range 8 (byte_at (bx_mem (`b)) h) ->
  exists b', injectFault arch a bitpos burst regs false false b = Some (byte_at (bx_mem (`b)) h, b') /\
    (forall k, 0 <= k < 8 -> Z.testbit (byte_at (bx_mem (`b')) h) k
       = xorb (Z.testbit (byte_at (bx_mem (`b)) h) k) (burst || (k =? bitpos))) /\
    (forall h', h' <> h -> byte_at (bx_mem (`b')) h' = byte_at (bx_mem (`b)) h') /\
    (forall addr, h ∉ table_bytes phy_width device_read addr (`b) ->
       guestToHost phy_width device_read addr (`b') = guestToHost phy_width device_read addr (`b)) /\
    (forall r, reg_value r (`b') = reg_value r (`b)).
Proof.
  intros Hb Hreg Hh Hbyte. unfold injectFault. change (Z.shiftl 128 4) with 2048. rewrite Hreg. cbn [negb getByte setByte bochs_machine].
  unfold Bochs_getByte at 1. rewrite Hh. cbn [mbind option_bind default].
  set (old := byte_at (bx_mem (`b)) h) in *.
  assert ((if burst then Z.lxor (default 0 (Bochs_getByte phy_width device_read a (`b))) 255
           else Z.lxor (default 0 (Bochs_getByte phy_width device_read a (`b))) (Z.shiftl 1 bitpos))
          = Z.lxor old (fault_bits burst bitpos)) as ->
    by (unfold Bochs_getByte; rewrite Hh; by destruct burst).
  rewrite wrap_small by (apply lxor_range; [lia | done | by apply fault_bits_range]).
  destruct (setByte_spec phy_width device_read a (Z.lxor old (fault_bits burst bitpos)) (`b) h Hh) as (b1 & E & Hcpu & Hbytes & Haddr).
  eexists. split; [reflexivity|]. rewrite (lift_val _ _ _ E) by (rewrite Hcpu; apply bochs_sized).
  split; [|split; [|split]].
  - intros k Hk. rewrite Hbytes, Z.eqb_refl, Z.lxor_spec. by rewrite fault_bits_testbit.
  - intros h' Hne. by rewrite Hbytes, (proj2 (Z.eqb_neq _ _)).
  - intros addr Ht. apply (Haddr addr Ht).
  - intros r. unfold reg_value. by rewrite Hcpu.
Qed.

(** Another code segment. *)
Definition with_cs (cs : Z * Z) (b : Bochs) : Bochs :=
  let c := bx_cpu b in
  mkBochs (mkBx (gen_reg c) (eflags c) (lf_flags_status c) (oszapc c) (async_event c) (efer_lma c) (cr0 c) (cr2 c) (cr3 c) (cr4 c)
             (<[BX_SEG_REG_CS := cs]> (sregs c)) (the_i387 c) (xmm c) (mxcsr c) (xlation c)) (bx_mem b).

(** [guestToHost] forms a 32-bit linear address, also in a 64-bit build: guest
    addresses 4 GiB apart are the same byte, and a write to one changes the
    other.  The segment base added is that of the stack segment. *)
Theorem guest_addresses_truncated phy_width device_read a (b : Bochs) :
  guestToHost phy_width device_read (a + 2 ^ 32) b = guestToHost phy_width device_read a b /\
  forall cs, guestToHost phy_width device_read a (with_cs cs b) = guestToHost phy_width device_read a b.
Proof.
  split.
  - unfold guestToHost, get_laddr32. assert (u32 (a + 2 ^ 32) = u32 a) as ->; [|done].
    unfold u32, wrap. rewrite <- (Z.mul_1_l (2 ^ 32)) at 1. by rewrite Z.mod_add by lia.
  - intros cs. unfold guestToHost, get_laddr32. cbn [bx_cpu sregs with_cs].
    rewrite list_lookup_insert_ne by done. destruct (sregs (bx_cpu b) !! 2%nat) as [s|]; [|done]. done.
Qed.

(** ** Blocks of memory *)

Section blocks.
Context (phy_width : Z) (device_read : Z -> nat -> Z) (w : Z).
Abbreviation host := (guestToHost phy_width device_read).
Abbreviation tables := (table_bytes phy_width device_read).

Fixpoint addresses (addr : Z) (n : nat) : list Z :=
  match n with O => [] | S n => addr :: addresses (wrap w (addr + 1)) n end.

(** Guest addresses with bytes of their own, none of which any of their translations reads. *)
Definition separate (addrs : list Z) (b : Bochs) (hs : list Z) : Prop :=
  Forall2 (fun a h => host a b = Some h) addrs hs /\ NoDup hs /\
  forall a h, a ∈ addrs -> h ∈ hs -> h ∉ tables a b.

(** C36. [setBytes] then [getBytes]: a block written to guest addresses that have bytes
    of their own, outside of the page tables used, is read back; no other byte of RAM
    and no register changes, and translations that do not go through the block stay
    as they are. *)
Theorem bochs_block_round_trip src : forall a b hs,
  separate (addresses a (length src)) b hs ->
  exists b', setBytes phy_width device_read w a src b = Some b' /\
    getBytes phy_width device_read w a (length src) b' = Some src /\ bx_cpu b' = bx_cpu b /\
    (forall h, h ∉ hs -> byte_at (bx_mem b') h = byte_at (bx_mem b) h) /\
    (forall addr, (forall h, h ∈ hs -> h ∉ tables addr b) -> host addr b' = host addr b).
Proof.
  induction src as [|v src IH]; intros a b hs (Hmap & Hnd & Hsep); cbn [addresses length] in *.
  - inversion Hmap; subst. by exists b.
  - inversion Hmap as [|? h ? hs' Hh Hmap' He1 He2]; subst. apply NoDup_cons in Hnd as [Hnin Hnd].
    destruct (setByte_spec phy_width device_read a v b h Hh) as (b1 & E & Hcpu & Hbytes & Haddr).
    assert (forall addr, h ∉ tables addr b -> host addr b1 = host addr b /\ tables addr b1 = tables addr b) as Hkeep
      by (intros addr Ht; split; apply (Haddr addr Ht)).
    assert (separate (addresses (wrap w (a + 1)) (length src)) b1 hs') as Hsep1.
    { split; [|split; [done|]].
      - apply Forall2_same_length_lookup_2; [by eapply Forall2_length|]. intros i a' h' Ha' Hh'.
        destruct (Hkeep a') as [-> _]; [apply Hsep; [right; by eapply list_elem_of_lookup_2 | by left]|].
        by eapply (Forall2_lookup_lr _ _ _ i a' h' Hmap').
      - intros a' h' Ha' Hh'. destruct (Hkeep a') as [_ ->]; apply Hsep; by (left || right). }
    destruct (IH _ _ _ Hsep1) as (b' & Hset & Hget & Hcpu' & Hother & Hhost).
    exists b'. cbn [setBytes getBytes]. rewrite E. cbn [mbind option_bind]. split; [exact Hset|]. split.
    + assert (host a b' = Some h) as Ha'.
      { rewrite Hhost; [destruct (Hkeep a) as [-> _]; [apply Hsep; by left | exact Hh]|].
        intros h' Hh'. destruct (Hkeep a) as [_ ->]; apply Hsep; by (left || right). }
      unfold Bochs_getByte. rewrite Ha'. cbn [mbind option_bind]. rewrite Hget. cbn [mbind option_bind].
      rewrite (Hother h Hnin), Hbytes, Z.eqb_refl. done.
    + split; [congruence|]. split.
      * intros h' Hh'. apply not_elem_of_cons in Hh' as [Hne Hh']. rewrite (Hother h' Hh'), Hbytes.
        by rewrite (proj2 (Z.eqb_neq _ _) Hne).
      * intros addr Ht. destruct (Hkeep addr) as [Hk1 Hk2]; [apply Ht; by left|]. rewrite Hhost, Hk1; [done|].
        intros h' Hh'. rewrite Hk2. apply Ht. by right.
Qed.
End blocks.

(** ** A concrete machine *)

Module BochsDemo.

#[global] Instance core : BochsCore := {| SetCR0 _ c := c; SetCR3 _ c := c; SetCR4 _ c := c; load_seg_reg _ _ c := c |}.
#[global] Instance config : BochsConfig := {| sim64 := true; phy_width := 40; device_read _ _ := 0;
  fetchDecode _ _ _ := 0; boundaryFetch _ _ b := b |}.

(** RAX is 4660; paging is off, or maps linear page 0x400000 to physical page
    0x5000 through four tables at 0x1000, 0x2000, 0x3000, 0x4000. *)
Definition cpu (cr0 : Z) : BX_CPU_C :=
  mkBx (4660 :: replicate 18 0) 514 0 0 0 true cr0 0 4096 32 (replicate 6 (0, 0))
    (mk387 0 0 0 0 (replicate 8 (0, 0))) (replicate 16 (0, 0)) 0 (mkXl ∅ None false 0 4096 true).
Definition mem : BX_MEM_C :=
  mkMem 16777216 (Z.ones 40)
    (<[4097 := 32]> $ <[4096 := 1]> $ <[8193 := 48]> $ <[8192 := 1]> $ <[12305 := 64]> $ <[12304 := 1]> $
     <[16385 := 80]> $ <[16384 := 1]> $ <[20490 := 7]> $ {[5000 := 7]}) [] false [].
Lemma flat_sized : sized sim64 (bx_cpu (mkBochs (cpu 0) mem)).
Proof. by split_and!. Qed.
Definition flat : BochsMachine := dexist (mkBochs (cpu 0) mem) flat_sized.
Definition paged : Bochs := mkBochs (cpu (2 ^ 31)) mem.

Example paged_read : Bochs_getByte 40 (fun _ _ => 0) 4194314 paged = Some 7 /\ isMapped 40 (fun _ _ => 0) 8388608 paged = false.
Proof. split; vm_compute; reflexivity. Qed.

Definition arch : CPUArchitecture := default new_CPUArchitecture (X86Architecture true).
Definition rax : Register := mkRegister 0 64 "RAX".



Lemma bochs_memory_fault_witness :
  exists b', injectFault arch 5000 1 false true false false flat = Some (7, b') /\ byte_at (bx_mem (`b')) 5001 = 0.
Proof.
  destruct (bochs_memory_fault arch 5000 1 false true flat 5000) as (b' & E & _ & Ho & _);
    [lia | reflexivity | vm_compute; reflexivity | vm_compute; split; congruence |].
  exists b'. split; [exact E|]. rewrite (Ho 5001) by lia. vm_compute. reflexivity.
Defined.

Lemma bochs_block_round_trip_witness :
  exists b', setBytes 40 (fun _ _ => 0) 64 4194304 [1; 2] paged = Some b' /\ getBytes 40 (fun _ _ => 0) 64 4194304 2 b' = Some [1; 2].
Proof.
  destruct (bochs_block_round_trip 40 (fun _ _ => 0) 64 [1; 2] 4194304 paged [20480; 20481]) as (b' & E & Hg & _).
  - split; [|split].
    + apply Forall2_cons; split; [vm_compute; reflexivity|]. apply Forall2_cons; split; [vm_compute; reflexivity | apply Forall2_nil; exact I].
    + apply (bool_decide_unpack _). vm_compute. exact I.
    + assert (Forall (fun a => Forall (fun h => h ∉ table_bytes 40 (fun _ _ => 0) a paged) [20480; 20481]) (addresses 64 4194304 2)) as Hall
        by (apply (bool_decide_unpack _); vm_compute; exact I).
      intros a h Ha Hh. rewrite Forall_forall in Hall. specialize (Hall a Ha). rewrite Forall_forall in Hall. exact (Hall h Hh).
  - exists b'. split; [exact E | exact Hg].
Defined.
End BochsDemo.
