(* ===== verification/BochsController.v ===== *)
(** * BochsController

    [core/sal/bochs/BochsController.{hpp,cc}] and the aspects that hook it into
    Bochs ([core/sal/bochs/*.ah]): the events only this back-end raises, the
    requests an experiment makes of the simulator (save, restore, reboot, fire an
    interrupt) with the advice that carries them out, and the suppression of
    interrupts ([core/sal/CPUState.cc]).

    A request hands the control to the simulator and returns when the advice that
    completes it toggles the flow remembered in [m_CurrFlow].  What happens in
    between is the simulator's: [SIM->save_state], restoring and resetting the
    simulated machine are not part of the model.  [None] is a failed assertion. *)
From S2P Require Import Prelude Events Listeners PerfBuffers ListenerManager ListenerTheorems.
From S2P Require Import Coroutines EventHandlers Controller.
Open Scope Z_scope.

(** ** Suppressed interrupts (CPUState) *)

(** [interrupt_to_fire] is a global [int], -1 for none.  The result and its new value. *)
Fixpoint isSuppressed_from (interruptNum interrupt_to_fire : Z) (l : list Z) : bool * Z :=
  match l with
  | [] => (false, interrupt_to_fire)
  | x :: rest =>
      if ((x =? interruptNum) || (x =? ANY_INTERRUPT)) && negb (interruptNum =? u32 (u32 interrupt_to_fire + 32))
      then if s32 interruptNum =? interrupt_to_fire + 32 then (true, -1) else (true, interrupt_to_fire)
      else isSuppressed_from interruptNum interrupt_to_fire rest
  end.

Record CPUState := mkCPUState { m_SuppressedInterrupts : list Z }.

Definition isSuppressedInterrupt (interruptNum interrupt_to_fire : Z) (c : CPUState) : bool * Z :=
  isSuppressed_from interruptNum interrupt_to_fire (m_SuppressedInterrupts c).

Definition addSuppressedInterrupt (interruptNum interrupt_to_fire : Z) (c : CPUState) : bool * Z * CPUState :=
  let '(already, itf) := isSuppressedInterrupt (u32 (interruptNum + 32)) interrupt_to_fire c in
  if already then (false, itf, c)
  else (true, itf, mkCPUState (m_SuppressedInterrupts c ++
          [if interruptNum =? ANY_INTERRUPT then interruptNum else u32 (interruptNum + 32)])).

Definition removeSuppressedInterrupt (interruptNum : Z) (c : CPUState) : bool * CPUState :=
  match list_find (fun x => x = u32 (interruptNum + 32) \/ x = ANY_INTERRUPT) (m_SuppressedInterrupts c) with
  | Some (i, _) => (true, mkCPUState (delete i (m_SuppressedInterrupts c)))
  | None => (false, c)
  end.

(** ** The controller *)

Record BochsController (B : Type) := mkBC {
  bc_base : SimulatorController B;
  m_CurrFlow : option flow;
  save_bochs_request : bool;
  restore_bochs_request : bool;
  restore_bochs_finished : bool;
  reboot_bochs_request : bool;
  interrupt_injection_request : bool;
  interrupt_to_fire : Z;
  sr_path : string;
  cpu0_async_event : bool;
  bc_event_info : option (nat * nat)      (** CPU context and current instruction *)
}.
Arguments mkBC {B}.
Arguments bc_base {B}.
Arguments m_CurrFlow {B}.
Arguments save_bochs_request {B}.
Arguments restore_bochs_request {B}.
Arguments restore_bochs_finished {B}.
Arguments reboot_bochs_request {B}.
Arguments interrupt_injection_request {B}.
Arguments interrupt_to_fire {B}.
Arguments sr_path {B}.
Arguments cpu0_async_event {B}.
Arguments bc_event_info {B}.

Section controller.
Context {B : Type} `{PerfBufferBase B}.
Implicit Types (bc : BochsController B) (sc : SimulatorController B).

Fixpoint add_cpus (n : nat) (i : nat) sc : SimulatorController B :=
  match n with O => sc | S n => add_cpus n (S i) (addCPU i sc) end.

(** [BochsController()] with [BX_SMP_PROCESSORS] processors. *)
Definition new_BochsController (processors simCoro : nat) : BochsController B :=
  mkBC (add_cpus processors 0 (new_SimulatorController simCoro)) None false false false false false (-1) "" false None.

Definition set_base sc bc : BochsController B :=
  mkBC sc (m_CurrFlow bc) (save_bochs_request bc) (restore_bochs_request bc) (restore_bochs_finished bc)
    (reboot_bochs_request bc) (interrupt_injection_request bc) (interrupt_to_fire bc) (sr_path bc) (cpu0_async_event bc) (bc_event_info bc).

Definition updateBPEventInfo (context instr : nat) bc : BochsController B :=
  mkBC (bc_base bc) (m_CurrFlow bc) (save_bochs_request bc) (restore_bochs_request bc) (restore_bochs_finished bc)
    (reboot_bochs_request bc) (interrupt_injection_request bc) (interrupt_to_fire bc) (sr_path bc) (cpu0_async_event bc)
    (Some (context, instr)).

(** [detectCPU]: processors are named by their numbers; without SMP it is CPU 0. *)
Definition detectCPU (smp : bool) (processors : nat) (pCPU : nat) bc : option cpu :=
  sc_getCPU (if smp then (if (pCPU <? processors)%nat then pCPU else processors) else 0%nat) (bc_base bc).

(** ** Events of this back-end *)

Section events.
Context (cfg : FastConfig) (react : ptr -> ListenerManager B -> list exp_cmd).

(** Aspect [IOPortCom]; the data is cut to a byte. *)
Definition IOPortCom_advice (c : option cpu) (data port : Z) (out : bool) bc : option (BochsController B) :=
  sc ← onIOPort cfg react c (wrap 8 data) port out (bc_base bc); Some (set_base sc bc).

(** The timer's listener, found in the list; activating the end of the list is an error. *)
Definition onTimerTrigger (pli : ptr) bc : option (BochsController B) :=
  let lm := m_LstList (bc_base bc) in
  let it := match list_find (fun p => p = pli) (m_BufferList lm) with Some (i, _) => i | None => length (m_BufferList lm) end in
  '(_, lm) ← makeActive_it it lm;
  sc ← trigger cfg react lm (bc_base bc);
  Some (set_base sc bc).
End events.

(** ** Requests *)

Inductive Request := R_save (path : string) (mkdir_ok : bool) | R_restore (path : string) | R_reboot | R_fire (irq : Z).

(** [m_CurrFlow = m_Flows.getCurrent(); m_Flows.resume();] *)
Definition hand_over bc : option (BochsController B) :=
  cm ← resume (sc_Flows (bc_base bc));
  Some (mkBC (set_Flows cm (bc_base bc)) (getCurrent (sc_Flows (bc_base bc))) (save_bochs_request bc) (restore_bochs_request bc)
          (restore_bochs_finished bc) (reboot_bochs_request bc) (interrupt_injection_request bc) (interrupt_to_fire bc) (sr_path bc)
          (cpu0_async_event bc) (bc_event_info bc)).

(** [mkdir_ok]: the directory could be made or exists. *)
Definition save (path : string) (mkdir_ok : bool) bc : option (bool * BochsController B) :=
  if negb mkdir_ok then Some (false, bc)
  else
    bc ← hand_over (mkBC (bc_base bc) (m_CurrFlow bc) true (restore_bochs_request bc) (restore_bochs_finished bc)
           (reboot_bochs_request bc) (interrupt_injection_request bc) (interrupt_to_fire bc) path true (bc_event_info bc));
    Some (true, bc).

Definition restore (path : string) bc : option (BochsController B) :=
  sc ← clearListeners None (bc_base bc);
  hand_over (mkBC sc (m_CurrFlow bc) (save_bochs_request bc) true false
    (reboot_bochs_request bc) (interrupt_injection_request bc) (interrupt_to_fire bc) path true (bc_event_info bc)).

Definition reboot bc : option (BochsController B) :=
  sc ← clearListeners None (bc_base bc);
  hand_over (mkBC sc (m_CurrFlow bc) (save_bochs_request bc) (restore_bochs_request bc) (restore_bochs_finished bc)
    true (interrupt_injection_request bc) (interrupt_to_fire bc) (sr_path bc) true (bc_event_info bc)).

Definition fireInterrupt (irq : Z) bc : option (BochsController B) :=
  hand_over (mkBC (bc_base bc) (m_CurrFlow bc) (save_bochs_request bc) (restore_bochs_request bc) (restore_bochs_finished bc)
    (reboot_bochs_request bc) true (s32 irq) (sr_path bc) (cpu0_async_event bc) (bc_event_info bc)).

(** [m_Flows.toggle(m_CurrFlow)] *)
Definition hand_back bc : option (BochsController B) :=
  cm ← toggle (m_CurrFlow bc) (sc_Flows (bc_base bc)); Some (set_base (set_Flows cm (bc_base bc)) bc).

Definition saveDone bc : option (BochsController B) :=
  hand_back (mkBC (bc_base bc) (m_CurrFlow bc) false (restore_bochs_request bc) (restore_bochs_finished bc)
    (reboot_bochs_request bc) (interrupt_injection_request bc) (interrupt_to_fire bc) (sr_path bc) (cpu0_async_event bc) (bc_event_info bc)).

Definition restoreDone bc : option (BochsController B) := hand_back bc.

Definition rebootDone bc : option (BochsController B) :=
  hand_back (mkBC (bc_base bc) (m_CurrFlow bc) (save_bochs_request bc) (restore_bochs_request bc) (restore_bochs_finished bc)
    false (interrupt_injection_request bc) (interrupt_to_fire bc) (sr_path bc) (cpu0_async_event bc) (bc_event_info bc)).

Definition fireInterruptDone bc : option (BochsController B) :=
  hand_back (mkBC (bc_base bc) (m_CurrFlow bc) (save_bochs_request bc) (restore_bochs_request bc) (restore_bochs_finished bc)
    (reboot_bochs_request bc) false (interrupt_to_fire bc) (sr_path bc) (cpu0_async_event bc) (bc_event_info bc)).

(** ** Advice *)

(** One turn of the loop of aspect [SaveState]. *)
Definition SaveState_advice bc : option (BochsController B) :=
  if save_bochs_request bc then if String.eqb (sr_path bc) "" then None else saveDone bc else Some bc.

(** Aspect [RestoreState], after Bochs has restored its state ... *)
Definition RestoreState_restored bc : BochsController B :=
  if restore_bochs_request bc then
    mkBC (bc_base bc) (m_CurrFlow bc) (save_bochs_request bc) false true
      (reboot_bochs_request bc) (interrupt_injection_request bc) (interrupt_to_fire bc) (sr_path bc) (cpu0_async_event bc) (bc_event_info bc)
  else bc.

(** ... and in the CPU loop. *)
Definition RestoreState_advice bc : option (BochsController B) :=
  if restore_bochs_finished bc then
    restoreDone (mkBC (bc_base bc) (m_CurrFlow bc) (save_bochs_request bc) (restore_bochs_request bc) false
      (reboot_bochs_request bc) (interrupt_injection_request bc) (interrupt_to_fire bc) (sr_path bc) (cpu0_async_event bc) (bc_event_info bc))
  else Some bc.

Definition Reboot_advice bc : option (BochsController B) :=
  if reboot_bochs_request bc then rebootDone bc else Some bc.

(** Aspect [FireInterrupt]: the line raised before an instruction. *)
Definition FireInterrupt_advice bc : option Z :=
  if interrupt_injection_request bc then Some (interrupt_to_fire bc) else None.

(** Aspect [InterruptDone], before the CPU enters vector [vector]. *)
Definition InterruptDone_advice (vector : Z) bc : option (BochsController B) :=
  if interrupt_injection_request bc && (vector =? 32 + interrupt_to_fire bc) then fireInterruptDone bc else Some bc.

(** Aspect [InterruptSuppression]: does the CPU take the interrupt? *)
Definition InterruptSuppression_advice (vector : Z) (c : CPUState) bc : bool * BochsController B :=
  let '(suppressed, itf) := isSuppressedInterrupt vector (interrupt_to_fire bc) c in
  (negb suppressed,
   mkBC (bc_base bc) (m_CurrFlow bc) (save_bochs_request bc) (restore_bochs_request bc) (restore_bochs_finished bc)
     (reboot_bochs_request bc) (interrupt_injection_request bc) itf (sr_path bc) (cpu0_async_event bc) (bc_event_info bc)).

(** Aspect [Interrupt]: external interrupts have type 0, NMIs 2. *)
Definition Interrupt_advice `{SalConfig} (cfg : FastConfig) (react : ptr -> ListenerManager B -> list exp_cmd)
    (c : option cpu) (vector type : Z) bc : option (BochsController B) :=
  if type =? 0 then sc ← onInterrupt cfg react c vector false (bc_base bc); Some (set_base sc bc)
  else if type =? 2 then sc ← onInterrupt cfg react c vector true (bc_base bc); Some (set_base sc bc)
  else Some bc.

(** Aspect [Breakpoints], after each instruction. *)
Definition Breakpoints_advice `{SalConfig} (cfg : FastConfig) (react : ptr -> ListenerManager B -> list exp_cmd)
    (c : option cpu) (context instr : nat) (ip cr3 : Z) bc : option (BochsController B) :=
  let bc := updateBPEventInfo context instr bc in
  sc ← onBreakpoint cfg react c ip cr3 (bc_base bc); Some (set_base sc bc).
End controller.
