(* ===== verification/BochsControllerTheorems.v ===== *)
(** * Theorems on the Bochs controller

    Requests return where they were made; which interrupts the simulated CPU
    takes; and what several pending requests do to each other. *)
From S2P Require Import Prelude Events Listeners PerfBuffers ListenerManager ListenerTheorems.
From S2P Require Import Coroutines EventHandlers Controller ControllerTheorems BochsController.
Open Scope Z_scope.

(** ** Suppressed interrupts *)

(** No overflow in [interrupt_to_fire + 32]. *)
Definition irq_range (itf : Z) : Prop := - 2 ^ 31 <= itf < 2 ^ 31 - 32.

Lemma fired_vector itf : irq_range itf -> u32 (u32 itf + 32) = u32 (itf + 32).
Proof. intros _. unfold u32, wrap. by rewrite Zplus_mod_idemp_l. Qed.

(** The branch marked as dead code is dead: the answer is whether the vector is listed
    and not the one being fired, and nothing changes. *)
Lemma isSuppressed_spec n itf l :
  in_range 32 n -> irq_range itf ->
  isSuppressed_from n itf l = (bool_decide ((n ∈ l \/ ANY_INTERRUPT ∈ l) /\ n <> u32 (itf + 32)), itf).
Proof.
  intros Hn Hi. induction l as [|x l IH]; cbn [isSuppressed_from].
  - by rewrite bool_decide_eq_false_2 by set_solver.
  - rewrite fired_vector by done. destruct (Z.eqb_spec n (u32 (itf + 32))) as [He|He].
    + rewrite andb_false_r, IH. f_equal. rewrite !bool_decide_eq_false_2; [done | tauto | tauto].
    + rewrite andb_true_r. destruct ((x =? n) || (x =? ANY_INTERRUPT)) eqn:E.
      * rewrite (bool_decide_eq_true_2 (_ /\ _)) by (split; [|done]; apply orb_true_iff in E as [->%Z.eqb_eq | ->%Z.eqb_eq]; set_solver).
        destruct (Z.eqb_spec (s32 n) (itf + 32)) as [Hs|]; [|done]. exfalso. apply He.
        rewrite <- Hs. unfold u32, s32, wrap. rewrite Zminus_mod_idemp_l. rewrite Z.add_simpl_r. symmetry. apply Z.mod_small, Hn.
      * apply orb_false_iff in E as [Hx%Z.eqb_neq Hy%Z.eqb_neq]. rewrite IH. f_equal. apply bool_decide_ext. set_solver.
Qed.

Section interrupts.
Context {B : Type} `{PerfBufferBase B}.
Implicit Types (bc : BochsController B) (c : CPUState).

Lemma suppression_advice v c bc :
  in_range 32 v -> irq_range (interrupt_to_fire bc) ->
  InterruptSuppression_advice v c bc
    = (negb (bool_decide ((v ∈ m_SuppressedInterrupts c \/ ANY_INTERRUPT ∈ m_SuppressedInterrupts c) /\ v <> u32 (interrupt_to_fire bc + 32))), bc).
Proof.
  intros Hv Hi. unfold InterruptSuppression_advice, isSuppressedInterrupt. rewrite isSuppressed_spec by done. by destruct bc.
Qed.

Lemma suppress_spec n itf c :
  irq_range itf ->
  addSuppressedInterrupt n itf c =
    let v := u32 (n + 32) in
    if bool_decide ((v ∈ m_SuppressedInterrupts c \/ ANY_INTERRUPT ∈ m_SuppressedInterrupts c) /\ v <> u32 (itf + 32))
    then (false, itf, c)
    else (true, itf, mkCPUState (m_SuppressedInterrupts c ++ [if n =? ANY_INTERRUPT then n else v])).
Proof.
  intros Hi. unfold addSuppressedInterrupt, isSuppressedInterrupt. rewrite isSuppressed_spec by (done || apply u32_range).
  by destruct (bool_decide _).
Qed.

(** Removing what was added last: the list is the old one up to order. *)
Lemma remove_added n c :
  ANY_INTERRUPT ∉ m_SuppressedInterrupts c -> u32 (n + 32) <> ANY_INTERRUPT ->
  exists c', removeSuppressedInterrupt n (mkCPUState (m_SuppressedInterrupts c ++ [u32 (n + 32)])) = (true, c') /\
    m_SuppressedInterrupts c' ≡ₚ m_SuppressedInterrupts c.
Proof.
  intros Hany Hn. unfold removeSuppressedInterrupt. cbn [m_SuppressedInterrupts]. set (v := u32 (n + 32)) in *.
  destruct (list_find (fun x => x = v \/ x = ANY_INTERRUPT) (m_SuppressedInterrupts c ++ [v])) as [[i x]|] eqn:E.
  - apply list_find_Some in E as (Hi & Hx & _). eexists. split; [done|]. cbn [m_SuppressedInterrupts].
    assert (x = v) as ->.
    { destruct Hx as [|Hx]; [done|]. exfalso. apply list_elem_of_lookup_2 in Hi. rewrite Hx in Hi. set_solver. }
    apply (Permutation_cons_inv (a := v)). rewrite <- delete_Permutation by done. by rewrite Permutation_app_comm.
  - apply list_find_None in E. rewrite Forall_forall in E. exfalso. apply (E v); [set_solver | by left].
Qed.
End interrupts.

(** C35. Interrupt suppression, unless all interrupts are suppressed by [ANY_INTERRUPT].  One vector is exempt:
    the one 32 above [interrupt_to_fire], that is, of the interrupt fired last, also after it has been taken (and 31 as long as none
    was fired).  The simulated CPU skips exactly the interrupts whose vector is listed and not exempt,
    and asking changes nothing.  Adding an interrupt appends its vector, 32 above its number, and returns
    [true], unless the vector is listed already and not exempt: then it returns [false] and changes nothing.  (A
    listed vector that is exempt is added again.)  After a successful addition a vector that is not exempt
    is skipped, and removing it again gives the same list up to order. *)
Theorem suppression_exact {B : Type} `{PerfBufferBase B} (bc : BochsController B) (c : CPUState) (n : Z) :
  let itf := interrupt_to_fire bc in
  let exempt := u32 (itf + 32) in
  let taken v c := fst (InterruptSuppression_advice v c bc) in
  irq_range itf -> in_range 32 (n + 32) -> n + 32 <> ANY_INTERRUPT -> (ANY_INTERRUPT ∉ m_SuppressedInterrupts c) ->
  (forall v, in_range 32 v ->
     snd (InterruptSuppression_advice v c bc) = bc /\
     (taken v c = false <-> v ∈ m_SuppressedInterrupts c /\ v <> exempt)) /\
  match addSuppressedInterrupt n itf c with
  | (false, itf', c') => n + 32 ∈ m_SuppressedInterrupts c /\ n + 32 <> exempt /\ itf' = itf /\ c' = c
  | (true, itf', c') =>
      ((n + 32 ∉ m_SuppressedInterrupts c) \/ n + 32 = exempt) /\ itf' = itf /\
      m_SuppressedInterrupts c' = m_SuppressedInterrupts c ++ [n + 32] /\
      (n + 32 <> exempt -> taken (n + 32) c' = false) /\
      exists c'', removeSuppressedInterrupt n c' = (true, c'') /\ m_SuppressedInterrupts c'' ≡ₚ m_SuppressedInterrupts c
  end.
Proof.
  intros itf exempt taken Hi Hn Hne Hany.
  assert (u32 (n + 32) = n + 32) as Hu by (apply u32_small, Hn).
  assert (forall v c, in_range 32 v -> taken v c = negb (bool_decide ((v ∈ m_SuppressedInterrupts c \/ ANY_INTERRUPT ∈ m_SuppressedInterrupts c) /\ v <> u32 (itf + 32)))) as Ht
    by (intros v c' Hv; unfold taken; by rewrite suppression_advice).
  split.
  - intros v Hv. rewrite suppression_advice by done. split; [done|]. rewrite Ht, negb_false_iff, bool_decide_eq_true by done. tauto.
  - rewrite suppress_spec, Hu by done. cbn [id]. cbv zeta. case_bool_decide as Hs; [tauto|].
    assert ((n =? ANY_INTERRUPT) = false) as ->.
    { apply Z.eqb_neq. intros ->. unfold in_range in Hn. change ANY_INTERRUPT with 4294967295 in Hn. lia. }
    split; [destruct (decide (n + 32 = exempt)); tauto|]. split; [done|]. split; [done|]. split.
    + intros Hf. rewrite Ht, bool_decide_eq_true_2; [done | split; [|done]; left; cbn [m_SuppressedInterrupts]; set_solver | done].
    + rewrite <- Hu. apply remove_added; [done | by rewrite Hu].
Qed.

(** Corner cases of the same code: removing one interrupt takes [ANY_INTERRUPT] off
    the list, [ANY_INTERRUPT] can be added twice, and while nothing is fired, vector 31 is never
    suppressed. *)
Example suppression_corner_cases :
  removeSuppressedInterrupt 5 (mkCPUState [ANY_INTERRUPT]) = (true, mkCPUState []) /\
  addSuppressedInterrupt ANY_INTERRUPT (-1) (mkCPUState [ANY_INTERRUPT]) = (true, -1, mkCPUState [ANY_INTERRUPT; ANY_INTERRUPT]) /\
  isSuppressedInterrupt 31 (-1) (mkCPUState [31; ANY_INTERRUPT]) = (false, -1).
Proof. repeat split; vm_compute; reflexivity. Qed.

(** ** Requests *)

Section requests.
Context `{SalConfig} {B : Type} `{PerfBufferBase B}.
Implicit Types bc : BochsController B.

Definition request (r : Request) bc : option (BochsController B) :=
  match r with
  | R_save path ok => snd <$> save path ok bc
  | R_restore path => restore path bc
  | R_reboot => reboot bc
  | R_fire irq => fireInterrupt irq bc
  end.

(** The advice that carries the request out. *)
Definition complete (r : Request) bc : option (BochsController B) :=
  match r with
  | R_save _ _ => SaveState_advice bc
  | R_restore _ => RestoreState_advice (RestoreState_restored bc)
  | R_reboot => Reboot_advice bc
  | R_fire irq => InterruptDone_advice (32 + s32 irq) bc
  end.

Definition idle bc : Prop :=
  save_bochs_request bc = false /\ restore_bochs_request bc = false /\ restore_bochs_finished bc = false /\
  reboot_bochs_request bc = false /\ interrupt_injection_request bc = false.

(** A directory that can be made, with a name. *)
Definition valid_request (r : Request) : Prop :=
  match r with R_save path ok => ok = true /\ path <> EmptyString | _ => True end.

(** Requests that change the machine's state drop all listeners. *)
Definition drops_listeners (r : Request) : bool := match r with R_restore _ | R_reboot => true | _ => false end.

Lemma getCurrent_find cm f : cm_wf cm -> getCurrent cm = Some f -> flow_find f (m_Flows cm) = Some (co_current cm).
Proof.
  intros [Hs _ _]. unfold getCurrent. induction (m_Flows cm) as [|[g h] m IH]; [done|]. cbn [find_handle flow_find].
  apply StronglySorted_inv in Hs as [Hs Hall]. destruct (Nat.eqb_spec h (co_current cm)) as [->|].
  - intros [= ->]. by rewrite Nat.eqb_refl.
  - intros Hf. pose proof (IH Hs Hf) as Hfind. destruct (Nat.eqb_spec f g) as [->|]; [|done]. exfalso.
    apply flow_find_elem in Hfind. rewrite Forall_forall in Hall. cbn [fst] in Hall.
    assert (g < g)%nat; [|lia]. apply Hall. apply list_elem_of_fmap. by exists (g, co_current cm).
Qed.

(** Toggling a flow leaves the listeners consistent. *)
Lemma toggle_sc_ok cfg f (sc : SimulatorController B) cm :
  sc_ok cfg sc -> toggle f (sc_Flows sc) = Some cm -> sc_ok cfg (set_Flows cm sc).
Proof.
  intros [Hwf [H1 H2 H3] Hcm] Ht. assert (m_Flows cm = m_Flows (sc_Flows sc)) as Hm.
  { unfold toggle in Ht. repeat case_match; by simplify_eq. }
  split; [done | split; [done | done|] | by eapply toggle_wf].
  intros p l Hp Hl. unfold set_Flows in *. cbn in *. rewrite Hm. by eapply H3.
Qed.

(** Control handed over and back ends where it was. *)
Lemma hand_over_back bc f h rest :
  cm_wf (sc_Flows (bc_base bc)) -> getCurrent (sc_Flows (bc_base bc)) = Some f ->
  m_togglerstack (sc_Flows (bc_base bc)) = h :: rest ->
  exists sc1, hand_over bc
      = Some (mkBC sc1 (Some f) (save_bochs_request bc) (restore_bochs_request bc) (restore_bochs_finished bc)
                (reboot_bochs_request bc) (interrupt_injection_request bc) (interrupt_to_fire bc) (sr_path bc) (cpu0_async_event bc)
                (bc_event_info bc)) /\
    co_current (sc_Flows sc1) = h /\ m_LstList sc1 = m_LstList (bc_base bc) /\
    toggle (Some f) (sc_Flows sc1) = Some (sc_Flows (bc_base bc)).
Proof.
  intros Hwf Hcur Hst. pose proof (getCurrent_find _ _ Hwf Hcur) as Hfind. unfold hand_over, resume. rewrite Hst. obind.
  eexists. split; [by rewrite Hcur|]. split; [done|]. split; [done|].
  cbn [bc_base sc_Flows set_Flows co_call m_Flows m_simCoro m_togglerstack m_Terminated co_current].
  unfold toggle. rewrite bool_decide_eq_false_2, andb_false_r by done. cbn [m_Flows co_call m_simCoro m_togglerstack m_Terminated co_current].
  rewrite Hfind. f_equal. destruct (sc_Flows (bc_base bc)); simpl in *. by rewrite Hst.
Qed.

Lemma hand_back_spec bc f cm :
  m_CurrFlow bc = Some f -> toggle (Some f) (sc_Flows (bc_base bc)) = Some cm ->
  hand_back bc = Some (set_base (set_Flows cm (bc_base bc)) bc).
Proof. intros Hf Ht. unfold hand_back. by rewrite Hf, Ht. Qed.

Lemma clearListeners_all sc : wf (m_LstList sc) ->
  exists lm', clearListeners None sc = Some (set_LstList lm' sc) /\ cleared (m_LstList sc) lm'.
Proof.
  intros Hwf. destruct (remove_all_spec (m_LstList sc) Hwf) as (lm' & E & Hc). exists lm'. unfold clearListeners. by rewrite E.
Qed.
End requests.

Ltac over_and_back Hcm Hcur Hst :=
  match goal with |- context [hand_over ?b] =>
    destruct (hand_over_back b _ _ _ Hcm Hcur Hst) as (sc1 & E & Hh & Hl & Ht); rewrite E; obind
  end.

(** C12. Requests to the simulator: [save], [restore], [reboot] and [fireInterrupt]
    hand the control to the coroutine that toggled the experiment, and once the advice
    has carried the request out the experiment continues where it was, with the
    coroutine manager exactly as before and no request left pending; restoring and
    rebooting drop all listeners, the others keep them. *)
Theorem request_handshake `{SalConfig} {B : Type} `{PerfBufferBase B} cfg r (bc : BochsController B) f h rest :
  sc_ok cfg (bc_base bc) -> idle bc -> valid_request r ->
  getCurrent (sc_Flows (bc_base bc)) = Some f -> m_togglerstack (sc_Flows (bc_base bc)) = h :: rest ->
  exists bc1 bc2, request r bc = Some bc1 /\ co_current (sc_Flows (bc_base bc1)) = h /\ complete r bc1 = Some bc2 /\
    sc_Flows (bc_base bc2) = sc_Flows (bc_base bc) /\ idle bc2 /\
    (if drops_listeners r then cleared (m_LstList (bc_base bc)) (m_LstList (bc_base bc2))
     else m_LstList (bc_base bc2) = m_LstList (bc_base bc)) /\
    interrupt_to_fire bc2 = (match r with R_fire irq => s32 irq | _ => interrupt_to_fire bc end).
Proof.
  intros [Hwf _ Hcm] (I1 & I2 & I3 & I4 & I5) Hr Hcur Hst. destruct r as [path ok|path| |irq]; cbn [request complete].
  - destruct Hr as [-> Hp]. unfold save. cbn [negb]. over_and_back Hcm Hcur Hst.
    cbn [fmap option_fmap option_map snd]. eexists _, _. split; [done|]. split; [done|].
    unfold SaveState_advice. cbn [save_bochs_request sr_path]. rewrite (proj2 (String.eqb_neq _ _) Hp).
    split; [by apply (hand_back_spec _ f)|]. by repeat split.
  - destruct (clearListeners_all (bc_base bc) Hwf) as (lm' & Ec & Hc). unfold restore. rewrite Ec. obind.
    over_and_back Hcm Hcur Hst. eexists _, _. split; [done|]. split; [done|].
    split; [by apply (hand_back_spec _ f)|]. simpl in Hl |- *. rewrite Hl. by repeat split; try apply Hc.
  - destruct (clearListeners_all (bc_base bc) Hwf) as (lm' & Ec & Hc). unfold reboot. rewrite Ec. obind.
    over_and_back Hcm Hcur Hst. eexists _, _. split; [done|]. split; [done|].
    split; [by apply (hand_back_spec _ f)|]. simpl in Hl |- *. rewrite Hl. by repeat split; try apply Hc.
  - unfold fireInterrupt. over_and_back Hcm Hcur Hst. eexists _, _. split; [done|]. split; [done|].
    unfold InterruptDone_advice. cbn [interrupt_injection_request interrupt_to_fire andb]. rewrite Z.eqb_refl.
    split; [by apply (hand_back_spec _ f)|]. by repeat split.
Qed.

(** A fired interrupt stays enabled: [interrupt_to_fire] keeps its value once the request
    is done, so the vector that was fired once is taken from then on although it
    (or every interrupt) is suppressed. *)
Theorem fired_vector_stays_enabled `{SalConfig} {B : Type} `{PerfBufferBase B} cfg irq (bc : BochsController B) f h rest :
  sc_ok cfg (bc_base bc) -> idle bc -> 0 <= irq < 224 ->
  getCurrent (sc_Flows (bc_base bc)) = Some f -> m_togglerstack (sc_Flows (bc_base bc)) = h :: rest ->
  exists bc1 bc2, fireInterrupt irq bc = Some bc1 /\ InterruptDone_advice (32 + irq) bc1 = Some bc2 /\
    interrupt_injection_request bc2 = false /\ FireInterrupt_advice bc2 = None /\
    forall c, InterruptSuppression_advice (32 + irq) c bc2 = (true, bc2).
Proof.
  intros [_ _ Hcm] Hi Hr Hcur Hst. unfold fireInterrupt. over_and_back Hcm Hcur Hst. eexists _, _. split; [done|].
  assert (s32 irq = irq) as Hs by (unfold s32, wrap; rewrite Z.mod_small; lia).
  unfold InterruptDone_advice. cbn [interrupt_injection_request interrupt_to_fire andb]. rewrite Hs, Z.eqb_refl.
  split; [by apply (hand_back_spec _ f)|]. split; [done|]. split; [done|]. intros c.
  rewrite suppression_advice; cbn [interrupt_to_fire set_base].
  - rewrite bool_decide_eq_false_2; [done|]. intros [_ Hne]. apply Hne. rewrite Z.add_comm. symmetry. apply u32_small. lia.
  - unfold in_range. lia.
  - unfold irq_range. lia.
Qed.

(** ** A concrete controller

    Flow 7 of [ControllerDemo] is in control, toggled by the simulator. *)
Module BochsControllerDemo.
Import ControllerDemo.
#[local] Existing Instance cfg64.

Definition controller (sc : SimulatorController DefPerfVector.t) : BochsController DefPerfVector.t :=
  mkBC sc None false false false false false (-1) "" false None.

Definition running : SimulatorController DefPerfVector.t :=
  set_Flows (default (sc_Flows demo) (toggle (Some 7%nat) (sc_Flows demo))) demo.

Lemma running_ok : sc_ok cfg running.
Proof.
  assert (is_Some (toggle (Some 7%nat) (sc_Flows demo))) as [cm E] by (vm_compute; eexists; reflexivity).
  unfold running. rewrite E. exact (toggle_sc_ok cfg (Some 7%nat) demo cm demo_ok E).
Qed.

Lemma request_handshake_witness :
  exists bc1 bc2, request (R_restore "state") (controller running) = Some bc1 /\ complete (R_restore "state") bc1 = Some bc2 /\
    sc_Flows (bc_base bc2) = sc_Flows running.
Proof.
  destruct (request_handshake cfg (R_restore "state") (controller running) 7 100 []) as (bc1 & bc2 & E & _ & Ec & Hf & _);
    [exact running_ok | repeat split | exact I | vm_compute; reflexivity | vm_compute; reflexivity |].
  exists bc1, bc2. split; [exact E|]. split; [exact Ec | exact Hf].
Defined.

Lemma fired_vector_stays_enabled_witness :
  exists bc1 bc2, fireInterrupt 1 (controller running) = Some bc1 /\ InterruptDone_advice 33 bc1 = Some bc2 /\
    InterruptSuppression_advice 33 (mkCPUState [ANY_INTERRUPT]) bc2 = (true, bc2).
Proof.
  destruct (fired_vector_stays_enabled cfg 1 (controller running) 7 100 []) as (bc1 & bc2 & E & Ec & _ & _ & Hs);
    [exact running_ok | repeat split | lia | vm_compute; reflexivity | vm_compute; reflexivity |].
  exists bc1, bc2. split; [exact E|]. split; [exact Ec | exact (Hs _)].
Defined.

Lemma suppression_exact_witness :
  fst (InterruptSuppression_advice 37 (mkCPUState [37]) (controller running)) = false /\
  removeSuppressedInterrupt 6 (mkCPUState [37; 38]) = (true, mkCPUState [37]).
Proof.
  split; [|reflexivity].
  apply (proj2 (proj1 (suppression_exact (controller running) (mkCPUState [37]) 6 ltac:(split; vm_compute; congruence)
    ltac:(split; vm_compute; congruence) ltac:(vm_compute; congruence) ltac:(vm_compute; set_solver)) 37 ltac:(split; vm_compute; congruence))).
  split; [set_solver | vm_compute; congruence].
Defined.

(** Two requests at a time: flow 7 fires an interrupt; before the CPU takes it, flow 8
    runs and saves the state.  When the interrupt is taken, flow 8 is toggled
    again instead of flow 7. *)
Example overlapping_requests :
  (bc ← fireInterrupt 1 (controller running);
   cm ← toggle (Some 8%nat) (sc_Flows (bc_base bc));
   '(_, bc) ← save "state" true (set_base (set_Flows cm (bc_base bc)) bc);
   bc ← SaveState_advice bc;
   cm ← resume (sc_Flows (bc_base bc));
   bc ← InterruptDone_advice 33 (set_base (set_Flows cm (bc_base bc)) bc);
   Some (getCurrent (sc_Flows (bc_base bc)))) = Some (Some 8%nat).
Proof. vm_compute. reflexivity. Qed.
End BochsControllerDemo.
