(* ===== verification/CampaignPruning.v ===== *)
(** * Campaigns that prune the fault space themselves

    Before the trace moved into a database, campaigns read it and built their
    equivalence classes on the fly: [experiments/checksum-oostubs/campaign.cc] (all
    addresses in one pass), [experiments/cool-checksum/campaign.cc] (one pass per
    byte) and [experiments/nanojpeg/campaign.cc] (general-purpose registers, bit by
    bit).

    An address and a number of instructions into the run is a point of the fault
    space; a class is an address with an interval of instruction numbers.  The
    trace is the list of its events; the disassembler that tells which registers an instruction
    reads and writes is a parameter. *)
From S2P Require Import Prelude Importer.
Open Scope Z_scope.

Record equivalence_class := mkEC {
  ec_address : Z;
  instr1 : Z;
  instr2 : Z;
  instr2_absolute : Z
}.

#[export] Instance equivalence_class_eq_dec : EqDecision equivalence_class.
Proof. solve_decision. Defined.

(** ** checksum-oostubs *)

(** [open_ecs]: the open class of every address, in the order of a [std::map]. *)
Record campaign_state := mkCS {
  open_ecs : list (Z * equivalence_class);
  ecs_need_experiment : list equivalence_class;
  ecs_no_effect : list equivalence_class;
  cs_instr : Z;
  instr_absolute : Z
}.

Fixpoint open_find (d : Z) (m : list (Z * equivalence_class)) : option equivalence_class :=
  match m with
  | [] => None
  | (a, ec) :: rest => if d =? a then Some ec else open_find d rest
  end.

Fixpoint open_set (d : Z) (ec : equivalence_class) (m : list (Z * equivalence_class)) : list (Z * equivalence_class) :=
  match m with
  | [] => []
  | (a, ec') :: rest => if d =? a then (a, ec) :: rest else (a, ec') :: open_set d ec rest
  end.

Definition initial_state (mm : list Z) : campaign_state :=
  mkCS ((fun a => (a, mkEC 0 0 0 0)) <$> mm) [] [] 0 0.

(** One byte of a memory access. *)
Definition access_byte (ev : Trace_Event) (s : campaign_state) (d : Z) : campaign_state :=
  match open_find d (open_ecs s) with
  | None => s
  | Some ec =>
      if instr1 ec >? cs_instr s then s
      else
        let closed := mkEC d (instr1 ec) (cs_instr s) (instr_absolute s) in
        let next := mkEC d (cs_instr s + 1) (cs_instr s) (instr_absolute s) in
        match te_accesstype ev with
        | READ => mkCS (open_set d next (open_ecs s)) (ecs_need_experiment s ++ [closed]) (ecs_no_effect s) (cs_instr s) (instr_absolute s)
        | WRITE => mkCS (open_set d next (open_ecs s)) (ecs_need_experiment s) (ecs_no_effect s ++ [closed]) (cs_instr s) (instr_absolute s)
        end
  end.

(** [data_address < memaddr + width] in 64 bits. *)
Definition bytes_of_access (ev : Trace_Event) : list Z :=
  let a := default 0 (te_memaddr ev) in seqZ a (u64 (a + te_width ev) - a).

Definition trace_event (s : campaign_state) (ev : Trace_Event) : campaign_state :=
  match te_memaddr ev with
  | None => mkCS (open_ecs s) (ecs_need_experiment s) (ecs_no_effect s) (cs_instr s + 1) (te_ip ev)
  | Some _ => fold_left (access_byte ev) (bytes_of_access ev) s
  end.

(** The loop over the trace; [limit] is [OOSTUBS_NUMINSTR]. *)
Fixpoint read_trace (limit : Z) (trace : list Trace_Event) (s : campaign_state) : campaign_state :=
  match trace with
  | [] => s
  | ev :: trace => if cs_instr s <? limit then read_trace limit trace (trace_event s ev) else s
  end.

(** The last, open interval of an address. *)
Definition close_ec (s : campaign_state) (x : Z * equivalence_class) : list equivalence_class :=
  let ec := mkEC x.1 (instr1 x.2) (cs_instr s - 1) 0 in
  if instr1 ec >? instr2 ec then [] else [ec].

Definition close_all (s : campaign_state) : campaign_state :=
  mkCS [] (ecs_need_experiment s) (ecs_no_effect s ++ (open_ecs s ≫= close_ec s)) (cs_instr s) (instr_absolute s).

Definition oostubs_classes (limit : Z) (mm : list Z) (trace : list Trace_Event) : campaign_state :=
  close_all (read_trace limit trace (initial_state mm)).

(** The parameter set enqueued for a class. *)
Record ParamSet := mkParam { instr_offset : Z; instr_address : Z; mem_addr : Z }.
Definition job_of (ec : equivalence_class) : ParamSet := mkParam (instr2 ec) (instr2_absolute ec) (ec_address ec).

(** [num_dumb_experiments] *)
Definition points (ecs : list equivalence_class) : Z :=
  foldr (fun ec n => instr2 ec - instr1 ec + 1 + n) 0 ecs.
Definition num_dumb_experiments (s : campaign_state) : Z := points (ecs_need_experiment s) + points (ecs_no_effect s).

(** *** Results

    A row of the results file: a class, the bits it stands for and the result, [None] for
    a class whose outcome is known. *)
Record ResultRow (R : Type) := mkRow { row_ec : equivalence_class; bitnr : Z; bit_width : Z; row_result : option R }.
Arguments mkRow {R}.
Arguments row_ec {R}.
Arguments bitnr {R}.
Arguments bit_width {R}.
Arguments row_result {R}.

Section results.
Context {R : Type}.

Definition no_effect_row (ec : equivalence_class) : ResultRow R := mkRow ec 0 8 None.

(** The rows of a finished job: [j] is the index of its class, its results are
    pairs of a bit and what came out; [None] is a class that is not found. *)
Definition result_rows (need : list equivalence_class) (job : nat * list (Z * R)) : option (list (ResultRow R)) :=
  ec ← need !! job.1; Some ((fun x => mkRow ec x.1 1 (Some x.2)) <$> job.2).

Definition oostubs_rows (s : campaign_state) (done : list (nat * list (Z * R))) : option (list (ResultRow R)) :=
  rows ← mapM (result_rows (ecs_need_experiment s)) done;
  Some ((no_effect_row <$> ecs_no_effect s) ++ concat rows).
End results.

(** ** cool-checksum *)

Record scan_state := mkScan {
  scan_start : Z;               (** [current_ec.instr1] *)
  scan_instr : Z;
  scan_absolute : Z;
  scan_need : list equivalence_class;
  scan_no_effect : list equivalence_class
}.

Section scan.
Context (touches : Trace_Event -> bool) (address : Z).

(** The body of the loop over the trace for one address. *)
Definition scan_step (s : scan_state) (ev : Trace_Event) : scan_state :=
  match te_memaddr ev with
  | None => mkScan (scan_start s) (scan_instr s + 1) (te_ip ev) (scan_need s) (scan_no_effect s)
  | Some _ =>
      if negb (touches ev) then s
      else if scan_start s >? scan_instr s then s
      else
        let ec := mkEC address (scan_start s) (scan_instr s) (scan_absolute s) in
        match te_accesstype ev with
        | READ => mkScan (scan_instr s + 1) (scan_instr s) (scan_absolute s) (scan_need s ++ [ec]) (scan_no_effect s)
        | WRITE => mkScan (scan_instr s + 1) (scan_instr s) (scan_absolute s) (scan_need s) (scan_no_effect s ++ [ec])
        end
  end.

Definition scan_close (s : scan_state) : list equivalence_class * list equivalence_class :=
  let ec := mkEC address (scan_start s) (scan_instr s - 1) 0 in
  (scan_need s, scan_no_effect s ++ (if instr1 ec >? instr2 ec then [] else [ec])).
End scan.

(** One pass over the trace per byte; only accesses that start at the byte count. *)
Definition cool_touches (objundertest byte_offset : Z) (ev : Trace_Event) : bool :=
  default 0 (te_memaddr ev) =? byte_offset + objundertest.

Definition cool_byte (objundertest : Z) (trace : list Trace_Event) (byte_offset : Z) :=
  scan_close byte_offset (fold_left (scan_step (cool_touches objundertest byte_offset) byte_offset) trace (mkScan 0 0 0 [] [])).

(** All classes: those to experiment with and those without effect. *)
Definition cool_classes (objundertest size : Z) (trace : list Trace_Event) : list equivalence_class * list equivalence_class :=
  let each := cool_byte objundertest trace <$> seqZ 0 size in
  (concat (fst <$> each), concat (snd <$> each)).

(** A job per bit of each class: instruction, its address, bit. *)
Definition cool_jobs (need : list equivalence_class) : list (Z * Z * Z) :=
  need ≫= fun ec => (fun bit => (instr2 ec, instr2_absolute ec, ec_address ec * 8 + Z.of_nat bit)) <$> seq 0 8.

(** The rows for classes without effect, one per instruction and bit. *)
Definition cool_no_effect_rows (no_effect : list equivalence_class) : list (Z * Z) :=
  no_effect ≫= fun ec => seq 0 8 ≫= fun bit =>
    (fun instr => (instr, ec_address ec * 8 + Z.of_nat bit)) <$> seqZ (instr1 ec) (instr2 ec - instr1 ec + 1).

(** Without pruning: every instruction for every bit. *)
Definition cool_all_jobs (size numinstr : Z) : list (Z * Z) :=
  seqZ 0 (size * 8) ≫= fun bit_offset => (fun instr_offset => (instr_offset, bit_offset)) <$> seqZ 0 numinstr.
