(* ===== verification/CampaignPruningTheorems.v ===== *)
(** * Theorems on campaigns that prune the fault space

    A reference definition, the accesses to one byte (or one bit of a register)
    and the intervals between them, and the campaigns' loops against it. *)
From S2P Require Import Prelude Importer CampaignPruning.
Open Scope Z_scope.

(** ** The reference: accesses and the intervals between them *)

(** Instruction number, its address, kind. *)
Record access := mkAcc { acc_instr : Z; acc_ip : Z; acc_type : AccessType }.

(** The classes that accesses close, from [start] on; further accesses in the same
    instruction close none. *)
Fixpoint closes (d start : Z) (acc : list access) : list (equivalence_class * AccessType) :=
  match acc with
  | [] => []
  | mkAcc n ip t :: rest =>
      if start >? n then closes d start rest else (mkEC d start n ip, t) :: closes d (n + 1) rest
  end.

(** Where the interval that is still open starts. *)
Fixpoint closes_end (start : Z) (acc : list access) : Z :=
  match acc with
  | [] => start
  | a :: rest => if start >? acc_instr a then closes_end start rest else closes_end (acc_instr a + 1) rest
  end.

(** The access that decides about a fault injected before instruction [i]. *)
Fixpoint next_access (i : Z) (acc : list access) : option access :=
  match acc with
  | [] => None
  | a :: rest => if i <=? acc_instr a then Some a else next_access i rest
  end.

Definition contains (d i : Z) (ec : equivalence_class) : Prop := ec_address ec = d /\ instr1 ec <= i <= instr2 ec.
#[export] Instance contains_dec d i ec : Decision (contains d i ec).
Proof. unfold contains. apply _. Defined.

Definition of_type (t : AccessType) (l : list (equivalence_class * AccessType)) : list equivalence_class :=
  fst <$> filter (fun x => x.2 = t) l.

Lemma of_type_cons t ec t' l : of_type t ((ec, t') :: l) = (if decide (t' = t) then [ec] else []) ++ of_type t l.
Proof. unfold of_type. rewrite filter_cons. simpl. by case_decide. Qed.

Lemma closes_after d acc : forall start x, x ∈ closes d start acc -> start <= instr1 x.1.
Proof.
  induction acc as [|[n ip t] acc IH]; intros start x; cbn [closes]; [set_solver|].
  destruct (Z.gtb_spec start n); [by apply IH|]. intros [->|Hx]%elem_of_cons; [simpl; lia|]. apply IH in Hx. lia.
Qed.

(** Exactly one class contains [i]: the one its next access closes. *)
Lemma closes_contains d i t acc : forall start, start <= i ->
  match next_access i acc with
  | Some a =>
      (acc_type a <> t -> filter (contains d i) (of_type t (closes d start acc)) = []) /\
      (acc_type a = t -> exists i1, start <= i1 <= i /\
         filter (contains d i) (of_type t (closes d start acc)) = [mkEC d i1 (acc_instr a) (acc_ip a)])
  | None => filter (contains d i) (of_type t (closes d start acc)) = []
  end.
Proof.
  assert (forall start acc, i < start -> filter (contains d i) (of_type t (closes d start acc)) = []) as Hlater.
  { intros start acc' Hlt. apply list_filter_none. intros ec Hec. unfold of_type in Hec.
    apply list_elem_of_fmap in Hec as ([ec' t'] & -> & [_ Hin]%list_elem_of_filter).
    apply closes_after in Hin. unfold contains. simpl in *. lia. }
  induction acc as [|[n ip t'] acc IH]; intros start Hs; cbn [closes next_access acc_instr]; [done|].
  destruct (Z.gtb_spec start n) as [Hgt|Hle].
  - rewrite (proj2 (Z.leb_gt i n)) by lia. by apply IH.
  - rewrite of_type_cons, filter_app. destruct (Z.leb_spec i n) as [Hin|Hin].
    + rewrite Hlater, app_nil_r by lia. cbn [acc_type acc_instr acc_ip]. split; intros Ht.
      * by rewrite decide_False.
      * rewrite decide_True by done. exists start. split; [lia|]. rewrite filter_cons_True by (split; simpl; lia). done.
    + assert (filter (contains d i) (if decide (t' = t) then [mkEC d start n ip] else []) = []) as ->.
      { case_decide; [|done]. rewrite filter_cons_False; [done|]. unfold contains. simpl. lia. }
      specialize (IH (n + 1) ltac:(lia)). destruct (next_access i acc) as [a|]; [|exact IH].
      destruct IH as [H1 H2]. split; [exact H1|]. intros Ht. destruct (H2 Ht) as (i1 & Hi & E). exists i1. split; [lia | exact E].
Qed.

Lemma closes_end_mono acc : forall s, s <= closes_end s acc.
Proof.
  induction acc as [|a acc IH]; intros s; cbn [closes_end]; [lia|]. destruct (Z.gtb_spec s (acc_instr a)); [apply IH|].
  specialize (IH (acc_instr a + 1)). lia.
Qed.

(** No access from [i] on: [i] lies in the interval that is still open. *)
Lemma next_access_open i acc : forall start, start <= i -> next_access i acc = None <-> closes_end start acc <= i.
Proof.
  induction acc as [|[n ip t] acc IH]; intros start Hs; cbn [closes_end next_access acc_instr]; [done|].
  destruct (Z.gtb_spec start n), (Z.leb_spec i n); try lia; [by apply IH| |apply IH; lia].
  split; [done|]. intros Hend. pose proof (closes_end_mono acc (n + 1)). lia.
Qed.

(** ** The trace as the campaigns read it *)

Section trace.
Context (limit : Z).

(** The accesses to what [touches] selects, and the number of instructions. *)
Fixpoint accesses (touches : Trace_Event -> bool) (trace : list Trace_Event) (instr ip : Z) : list access :=
  match trace with
  | [] => []
  | ev :: trace =>
      if instr <? limit then
        match te_memaddr ev with
        | None => accesses touches trace (instr + 1) (te_ip ev)
        | Some _ => (if touches ev then [mkAcc instr ip (te_accesstype ev)] else []) ++ accesses touches trace instr ip
        end
      else []
  end.

Fixpoint instructions (trace : list Trace_Event) (instr : Z) : Z :=
  match trace with
  | [] => instr
  | ev :: trace =>
      if instr <? limit then instructions trace (match te_memaddr ev with None => instr + 1 | Some _ => instr end) else instr
  end.

(** What the one-pass algorithm knows of address [d]. *)
Definition on (d : Z) (ecs : list equivalence_class) : list equivalence_class := filter (fun ec => ec_address ec = d) ecs.

Definition byte_of (d : Z) (ev : Trace_Event) : bool := bool_decide (d ∈ bytes_of_access ev).

Lemma open_find_set d e ec m :
  open_find d (open_set e ec m) = if decide (d = e) then (match open_find e m with Some _ => Some ec | None => None end) else open_find d m.
Proof.
  induction m as [|[a ec'] m IH]; cbn [open_set open_find]; [by case_decide|].
  destruct (Z.eqb_spec e a) as [->|Hne]; cbn [open_find].
  - destruct (Z.eqb_spec d a) as [->|]; [by rewrite decide_True | by rewrite decide_False].
  - destruct (Z.eqb_spec d a) as [->|]; [by rewrite decide_False by done|]. rewrite IH. by case_decide.
Qed.

(** The state of address [d]. *)
Record view (d : Z) (s : campaign_state) (start : Z) (need no_effect : list equivalence_class) (instr ip : Z) : Prop := {
  v_open : exists ec, open_find d (open_ecs s) = Some ec /\ instr1 ec = start;
  v_need : on d (ecs_need_experiment s) = need;
  v_no : on d (ecs_no_effect s) = no_effect;
  v_instr : cs_instr s = instr;
  v_ip : instr_absolute s = ip
}.

Lemma on_app d l k : on d (l ++ k) = on d l ++ on d k.
Proof. apply filter_app. Qed.

Lemma access_byte_other d e ev s start need no instr ip :
  d <> e -> view d s start need no instr ip -> view d (access_byte ev s e) start need no instr ip.
Proof.
  intros Hne [(ec & Ho & Hs) Hn Hf Hi Hp]. unfold access_byte. destruct (open_find e (open_ecs s)) as [ec'|] eqn:E; [|by split; [exists ec|..]].
  destruct (instr1 ec' >? cs_instr s); [by split; [exists ec|..]|].
  destruct (te_accesstype ev); split; cbn [open_ecs ecs_need_experiment ecs_no_effect cs_instr instr_absolute]; try done;
    try (exists ec; by rewrite open_find_set, decide_False);
    rewrite on_app; unfold on at 2; rewrite filter_cons_False by (simpl; congruence); by rewrite app_nil_r.
Qed.

(** An access to [d] does what the reference does. *)
Lemma access_byte_same d ev s start need no instr ip :
  view d s start need no instr ip ->
  let a := mkAcc instr ip (te_accesstype ev) in
  view d (access_byte ev s d) (closes_end start [a]) (need ++ of_type READ (closes d start [a]))
    (no ++ of_type WRITE (closes d start [a])) instr ip.
Proof.
  intros [(ec & Ho & Hs) Hn Hf Hi Hp] a. unfold access_byte, a. rewrite Ho, Hs, Hi, Hp. cbn [closes closes_end acc_instr].
  destruct (start >? instr).
  - unfold of_type. cbn. rewrite !app_nil_r. by split; [exists ec|..].
  - rewrite !of_type_cons. destruct (te_accesstype ev); split;
      cbn [open_ecs ecs_need_experiment ecs_no_effect cs_instr instr_absolute]; try done;
      try (eexists; split; [by rewrite open_find_set, decide_True, Ho|done]);
      rewrite ?on_app; unfold of_type; simpl; rewrite ?app_nil_r; rewrite ?Hn, ?Hf; try done;
      unfold on; by rewrite filter_cons_True.
Qed.

Lemma fold_bytes_view d ev l : forall s start need no instr ip,
  NoDup l -> view d s start need no instr ip ->
  let acc := if bool_decide (d ∈ l) then [mkAcc instr ip (te_accesstype ev)] else [] in
  view d (fold_left (access_byte ev) l s) (closes_end start acc) (need ++ of_type READ (closes d start acc))
    (no ++ of_type WRITE (closes d start acc)) instr ip.
Proof.
  induction l as [|e l IH]; intros s start need no instr ip Hnd Hv; cbn [fold_left].
  - rewrite bool_decide_eq_false_2 by set_solver. unfold of_type. simpl. by rewrite !app_nil_r.
  - apply NoDup_cons in Hnd as [Hni Hnd]. destruct (decide (d = e)) as [<-|Hne].
    + rewrite bool_decide_eq_true_2 by set_solver. pose proof (IH _ _ _ _ _ _ Hnd (access_byte_same _ ev _ _ _ _ _ _ Hv)) as Hr.
      rewrite bool_decide_eq_false_2 in Hr by done. unfold of_type in Hr at 2 4. simpl in Hr. by rewrite !app_nil_r in Hr.
    + pose proof (IH _ _ _ _ _ _ Hnd (access_byte_other _ e ev _ _ _ _ _ _ Hne Hv)) as Hr.
      by rewrite (bool_decide_ext (d ∈ l) (d ∈ e :: l)) in Hr by set_solver.
Qed.

Lemma closes_app d acc1 acc2 : forall start,
  closes d start (acc1 ++ acc2) = closes d start acc1 ++ closes d (closes_end start acc1) acc2 /\
  closes_end start (acc1 ++ acc2) = closes_end (closes_end start acc1) acc2.
Proof.
  induction acc1 as [|[n ip t] acc1 IH]; intros start; cbn [app closes closes_end acc_instr]; [done|].
  destruct (start >? n); [apply IH|]. destruct (IH (n + 1)) as [-> ->]. done.
Qed.

Lemma of_type_app t l k : of_type t (l ++ k) = of_type t l ++ of_type t k.
Proof. unfold of_type. by rewrite filter_app, fmap_app. Qed.

(** The whole trace. *)
Lemma read_trace_view d trace : forall s start need no instr ip,
  view d s start need no instr ip ->
  let acc := accesses (byte_of d) trace instr ip in
  exists ip', view d (read_trace limit trace s) (closes_end start acc) (need ++ of_type READ (closes d start acc))
    (no ++ of_type WRITE (closes d start acc)) (instructions trace instr) ip'.
Proof.
  induction trace as [|ev trace IH]; intros s start need no instr ip Hv; cbn [read_trace accesses instructions].
  - exists ip. unfold of_type. simpl. by rewrite !app_nil_r.
  - rewrite (v_instr _ _ _ _ _ _ _ Hv). destruct (instr <? limit).
    2: { exists ip. unfold of_type. simpl. by rewrite !app_nil_r. }
    destruct (te_memaddr ev) as [a|] eqn:Ha.
    + assert (trace_event s ev = fold_left (access_byte ev) (bytes_of_access ev) s) as -> by (unfold trace_event; by rewrite Ha).
      pose proof (fold_bytes_view d ev (bytes_of_access ev) s _ _ _ _ _ ltac:(apply NoDup_seqZ) Hv) as Hv1.
      destruct (IH _ _ _ _ _ _ Hv1) as (ip' & Hv2). exists ip'. unfold byte_of at 1 3 5.
      set (one := if bool_decide (d ∈ bytes_of_access ev) then [mkAcc instr ip (te_accesstype ev)] else []) in *.
      destruct (closes_app d one (accesses (byte_of d) trace instr ip) start) as [-> ->].
      by rewrite !of_type_app, !(assoc_L (++)).
    + assert (trace_event s ev = mkCS (open_ecs s) (ecs_need_experiment s) (ecs_no_effect s) (cs_instr s + 1) (te_ip ev)) as ->
        by (unfold trace_event; by rewrite Ha).
      apply IH. destruct Hv as [H1 H2 H3 H4 H5]. split; try done. simpl. by rewrite H4.
Qed.

Lemma open_set_keys d ec m : fst <$> open_set d ec m = fst <$> m.
Proof. induction m as [|[a e] m IH]; cbn [open_set]; [done|]. destruct (d =? a); cbn [fmap list_fmap fst]; [done|]. by rewrite IH. Qed.

Lemma read_trace_keys trace : forall s, fst <$> open_ecs (read_trace limit trace s) = fst <$> open_ecs s.
Proof.
  assert (forall ev l s, fst <$> open_ecs (fold_left (access_byte ev) l s) = fst <$> open_ecs s) as Hfold.
  { intros ev l. induction l as [|e l IH]; intros s; cbn [fold_left]; [done|]. rewrite IH. unfold access_byte.
    destruct (open_find e _); [|done]. destruct (_ >? _); [done|]. destruct (te_accesstype ev); apply open_set_keys. }
  induction trace as [|ev trace IH]; intros s; cbn [read_trace]; [done|]. destruct (_ <? _); [|done]. rewrite IH.
  unfold trace_event. by destruct (te_memaddr ev).
Qed.

Lemma close_ec_on d s m : forall ec, NoDup (fst <$> m) -> open_find d m = Some ec -> on d (m ≫= close_ec s) = close_ec s (d, ec).
Proof.
  assert (forall x, on d (close_ec s x) = if decide (x.1 = d) then close_ec s x else []) as Hone.
  { intros [a e]. unfold close_ec, on. cbn [fst snd instr1 instr2]. destruct (_ >? _); [by case_decide|].
    destruct (decide (a = d)); [by rewrite filter_cons_True | by rewrite filter_cons_False]. }
  induction m as [|[a e] m IH]; intros ec Hnd Hf; [done|]. apply NoDup_cons in Hnd as [Hni Hnd]. cbn [open_find] in Hf.
  rewrite bind_cons, on_app, Hone. cbn [fst]. destruct (Z.eqb_spec d a) as [->|Hne].
  - injection Hf as ->. rewrite decide_True by done. rewrite <- (app_nil_r (close_ec _ _)) at 2. f_equal.
    apply list_filter_none. intros ec' (x & Hx & Hin)%list_elem_of_bind Ha. apply Hni.
    apply list_elem_of_fmap. exists x. split; [|done]. unfold close_ec in Hx. destruct (_ >? _); [set_solver|].
    apply list_elem_of_singleton in Hx as ->. simpl in Ha. done.
  - rewrite decide_False by done. by apply IH.
Qed.
End trace.

(** The classes of one address after the whole trace: those that the reference gives, and
    the interval that is open at the end. *)
Lemma oostubs_on limit mm trace d :
  NoDup mm -> d ∈ mm ->
  let acc := accesses limit (byte_of d) trace 0 0 in
  let s := oostubs_classes limit mm trace in
  on d (ecs_need_experiment s) = of_type READ (closes d 0 acc) /\
  on d (ecs_no_effect s) = of_type WRITE (closes d 0 acc) ++
    (if closes_end 0 acc >? instructions limit trace 0 - 1 then [] else [mkEC d (closes_end 0 acc) (instructions limit trace 0 - 1) 0]).
Proof.
  intros Hnd Hd acc s.
  assert (exists ec, open_find d (open_ecs (initial_state mm)) = Some ec /\ instr1 ec = 0) as Hopen.
  { cbn [initial_state open_ecs]. clear Hnd. induction mm as [|a mm IH]; [set_solver|]. cbn [fmap list_fmap open_find].
    destruct (Z.eqb_spec d a) as [->|]; [by eexists|]. apply IH. set_solver. }
  assert (view d (initial_state mm) 0 [] [] 0 0) as Hv by by split.
  destruct (read_trace_view limit d trace _ _ _ _ _ _ Hv) as (ip' & [(ec & Ho & Hs) Hn Hf Hi _]). fold acc in Hs, Hn, Hf.
  unfold s, oostubs_classes. set (s' := read_trace limit trace (initial_state mm)) in *. cbn [close_all ecs_need_experiment ecs_no_effect].
  split; [exact Hn|]. rewrite on_app, Hf. cbn [app]. f_equal. rewrite (close_ec_on d s' _ ec).
  - unfold close_ec. cbn [fst snd instr1 instr2]. by rewrite Hs, Hi.
  - unfold s'. rewrite read_trace_keys. cbn [initial_state open_ecs]. rewrite <- list_fmap_compose.
    rewrite (list_fmap_ext _ id) by done. by rewrite list_fmap_id.
  - exact Ho.
Qed.

(** Where the classes of [d] that contain [i] are looked for. *)
Lemma filter_on d i ecs : filter (contains d i) (on d ecs) = filter (contains d i) ecs.
Proof.
  unfold on. rewrite list_filter_filter. apply list_filter_iff. intros ec. unfold contains. tauto.
Qed.

Lemma oostubs_point limit mm trace d i :
  NoDup mm -> d ∈ mm -> 0 <= i ->
  let s := oostubs_classes limit mm trace in
  let need := filter (contains d i) (ecs_need_experiment s) in
  let no_effect := filter (contains d i) (ecs_no_effect s) in
  match next_access i (accesses limit (byte_of d) trace 0 0) with
  | Some (mkAcc n ip READ) => no_effect = [] /\ exists i1, 0 <= i1 <= i /\ need = [mkEC d i1 n ip]
  | Some (mkAcc n ip WRITE) => need = [] /\ exists i1, 0 <= i1 <= i /\ no_effect = [mkEC d i1 n ip]
  | None => need = [] /\
      if i <? instructions limit trace 0 then exists i1, 0 <= i1 <= i /\ no_effect = [mkEC d i1 (instructions limit trace 0 - 1) 0]
      else no_effect = []
  end.
Proof.
  intros Hnd Hd Hi s need no_effect. destruct (oostubs_on limit mm trace d Hnd Hd) as [Hneed Hno]. fold s in Hneed, Hno.
  set (acc := accesses limit (byte_of d) trace 0 0) in *. set (e := closes_end 0 acc) in *. set (n := instructions limit trace 0) in *.
  unfold need, no_effect. rewrite <- (filter_on d i (ecs_need_experiment s)), <- (filter_on d i (ecs_no_effect s)), Hneed, Hno, filter_app.
  set (tail := filter (contains d i) (if e >? n - 1 then [] else [mkEC d e (n - 1) 0])).
  assert (e <= i -> i < n -> tail = [mkEC d e (n - 1) 0]) as Htail.
  { intros He Hn. unfold tail. destruct (Z.gtb_spec e (n - 1)); [lia|]. rewrite filter_cons_True by (split; simpl; lia). done. }
  assert (i < e \/ n <= i -> tail = []) as Hnone.
  { intros He. unfold tail. destruct (Z.gtb_spec e (n - 1)); [done|]. rewrite filter_cons_False; [done|]. unfold contains. simpl. lia. }
  pose proof (closes_contains d i READ acc 0 Hi) as Hr. pose proof (closes_contains d i WRITE acc 0 Hi) as Hw.
  pose proof (next_access_open i acc 0 Hi) as Hopen. fold e in Hopen. destruct (next_access i acc) as [[k ip []]|].
  - rewrite Hnone by (left; destruct (Z.lt_ge_cases i e); [done | by apply Hopen in H]). destruct Hr as [_ Hr], Hw as [Hw _].
    rewrite Hw by done. split; [done|]. by apply Hr.
  - rewrite Hnone by (left; destruct (Z.lt_ge_cases i e); [done | by apply Hopen in H]). destruct Hr as [Hr _], Hw as [_ Hw].
    rewrite Hr by done. split; [done|]. rewrite app_nil_r. by apply Hw.
  - rewrite Hr, Hw. split; [done|]. pose proof (proj1 Hopen eq_refl) as He. destruct (Z.ltb_spec i n) as [Hlt|Hge].
    + exists e. split; [split; [|done]|by rewrite Htail]. apply closes_end_mono.
    + by rewrite Hnone by (by right).
Qed.

(** C13. The pruning of the checksum-oostubs campaign: take a byte of the memory map and a
    number [i] of instructions.  If the next access to the byte from there on is a
    read, exactly one class with an experiment contains the point, ending with that
    access, and no class without effect; if it is a write, the other way
    round; if there is none before the end of the trace, the point is in one class without
    effect, or past the end in none. *)
Theorem oostubs_pruning_exact limit mm trace d i :
  NoDup mm -> d ∈ mm -> 0 <= i ->
  let s := oostubs_classes limit mm trace in
  let need := filter (contains d i) (ecs_need_experiment s) in
  let no_effect := filter (contains d i) (ecs_no_effect s) in
  match next_access i (accesses limit (byte_of d) trace 0 0) with
  | Some (mkAcc n ip READ) => no_effect = [] /\ exists i1, 0 <= i1 <= i /\ need = [mkEC d i1 n ip]
  | Some (mkAcc n ip WRITE) => need = [] /\ exists i1, 0 <= i1 <= i /\ no_effect = [mkEC d i1 n ip]
  | None => need = [] /\
      if i <? instructions limit trace 0 then exists i1, 0 <= i1 <= i /\ no_effect = [mkEC d i1 (instructions limit trace 0 - 1) 0]
      else no_effect = []
  end.
Proof. apply oostubs_point. Qed.

(** ** One address at a time *)

Lemma fold_scan_closes touches d limit trace : forall start instr ip need no,
  instr + Z.of_nat (length trace) < limit ->
  let acc := accesses limit touches trace instr ip in
  exists ip', fold_left (scan_step touches d) trace (mkScan start instr ip need no)
    = mkScan (closes_end start acc) (instructions limit trace instr) ip' (need ++ of_type READ (closes d start acc))
        (no ++ of_type WRITE (closes d start acc)).
Proof.
  induction trace as [|ev trace IH]; intros start instr ip need no Hl; cbn [fold_left accesses instructions].
  - exists ip. unfold of_type. simpl. by rewrite !app_nil_r.
  - cbn [length] in Hl. rewrite (proj2 (Z.ltb_lt _ _)) by lia. unfold scan_step at 2. cbn [scan_start scan_instr scan_absolute scan_need scan_no_effect].
    destruct (te_memaddr ev) as [a|]; [|apply IH; lia].
    destruct (touches ev); cbn [negb app]; [|apply IH; lia].
    cbn [closes closes_end acc_instr]. destruct (start >? instr); [apply IH; lia|]. rewrite !of_type_cons.
    destruct (te_accesstype ev); cbn [app];
      match goal with |- exists ip', fold_left _ _ (mkScan ?st ?i ?p ?n ?f) = _ => destruct (IH st i p n f ltac:(lia)) as (ip' & ->) end;
      exists ip'; f_equal; by rewrite <- ?(assoc_L (++)).
Qed.

Lemma scan_classes touches d limit trace :
  Z.of_nat (length trace) < limit ->
  let acc := accesses limit touches trace 0 0 in
  scan_close d (fold_left (scan_step touches d) trace (mkScan 0 0 0 [] [])) =
    (of_type READ (closes d 0 acc),
     of_type WRITE (closes d 0 acc) ++
       (if closes_end 0 acc >? instructions limit trace 0 - 1 then [] else [mkEC d (closes_end 0 acc) (instructions limit trace 0 - 1) 0])).
Proof.
  intros Hl acc. destruct (fold_scan_closes touches d limit trace 0 0 0 [] [] ltac:(lia)) as (ip' & ->). done.
Qed.

(** One pass is enough: for every byte, the classes that checksum-oostubs finds while it
    keeps an open class per address are, in the same order, those of a pass over the trace for
    this byte alone. *)
Theorem one_pass_equivalent limit mm trace d :
  NoDup mm -> d ∈ mm -> Z.of_nat (length trace) < limit ->
  let s := oostubs_classes limit mm trace in
  (on d (ecs_need_experiment s), on d (ecs_no_effect s))
  = scan_close d (fold_left (scan_step (byte_of d) d) trace (mkScan 0 0 0 [] [])).
Proof.
  intros Hnd Hd Hl s. rewrite (scan_classes _ _ limit) by done. destruct (oostubs_on limit mm trace d Hnd Hd) as [H1 H2].
  by f_equal.
Qed.

(** Accesses of single bytes. *)
Definition bytewise (trace : list Trace_Event) : Prop :=
  Forall (fun ev => match te_memaddr ev with Some a => 0 <= a < 2 ^ 64 - 1 /\ te_width ev = 1 | None => True end) trace.

Lemma accesses_ext limit f g trace : forall instr ip,
  (forall ev, ev ∈ trace -> is_Some (te_memaddr ev) -> f ev = g ev) -> accesses limit f trace instr ip = accesses limit g trace instr ip.
Proof.
  induction trace as [|ev trace IH]; intros instr ip Hfg; cbn [accesses]; [done|]. destruct (_ <? _); [|done].
  destruct (te_memaddr ev) as [a|] eqn:Ha.
  - rewrite Hfg by (rewrite ?Ha; set_solver || by eexists). f_equal. apply IH. set_solver.
  - apply IH. set_solver.
Qed.

Lemma cool_byte_of objundertest o trace limit instr ip :
  bytewise trace -> accesses limit (cool_touches objundertest o) trace instr ip = accesses limit (byte_of (o + objundertest)) trace instr ip.
Proof.
  intros Hb. apply accesses_ext. intros ev Hev [a Ha]. unfold bytewise in Hb. rewrite Forall_forall in Hb. specialize (Hb ev Hev).
  rewrite Ha in Hb. destruct Hb as [Hr Hw]. unfold cool_touches, byte_of, bytes_of_access. rewrite Ha, Hw. change (default 0 (Some a)) with a.
  rewrite u64_small by lia. replace (a + 1 - a) with 1 by lia. symmetry. destruct (Z.eqb_spec a (o + objundertest)).
  - apply bool_decide_eq_true_2, elem_of_seqZ. lia.
  - apply bool_decide_eq_false_2. rewrite elem_of_seqZ. lia.
Qed.

(** On traces of single-byte accesses the two campaigns prune alike: the
    classes of cool-checksum for a byte of its object have the intervals of those
    checksum-oostubs builds for the byte's address. *)
Theorem campaigns_agree limit mm objundertest o trace :
  bytewise trace -> NoDup mm -> o + objundertest ∈ mm -> Z.of_nat (length trace) < limit ->
  let s := oostubs_classes limit mm trace in
  let interval ec := (instr1 ec, instr2 ec, instr2_absolute ec) in
  let '(need, no_effect) := cool_byte objundertest trace o in
  interval <$> need = interval <$> on (o + objundertest) (ecs_need_experiment s) /\
  interval <$> no_effect = interval <$> on (o + objundertest) (ecs_no_effect s).
Proof.
  intros Hb Hnd Hd Hl s interval. unfold cool_byte. rewrite (scan_classes _ _ limit), cool_byte_of by done.
  destruct (oostubs_on limit mm trace _ Hnd Hd) as [H1 H2]. fold s in H1, H2. rewrite H1, H2. set (acc := accesses _ _ _ _ _).
  assert (forall t d d' start, interval <$> of_type t (closes d start acc) = interval <$> of_type t (closes d' start acc)) as Hi.
  { intros t d d'. induction acc as [|[n ip t'] acc' IH]; intros start; cbn [closes]; [done|].
    destruct (start >? n); [apply IH|]. rewrite !of_type_cons, !fmap_app, (IH (n + 1)). by case_decide. }
  split; [apply Hi|]. rewrite !fmap_app, (Hi WRITE _ (o + objundertest)). f_equal. by destruct (_ >? _).
Qed.

(** ** Results *)

Section results.
Context {R : Type}.

(** The row stands for bit [bit] of byte [d] before instruction [i]. *)
Definition row_covers (d i bit : Z) (r : ResultRow R) : Prop := contains d i (row_ec r) /\ bitnr r <= bit < bitnr r + bit_width r.
#[export] Instance row_covers_dec d i bit r : Decision (row_covers d i bit r).
Proof. unfold row_covers. apply _. Defined.

(** A job is done when it has a result for each bit. *)
Definition job_done (job : nat * list (Z * R)) : Prop := fst <$> job.2 = seqZ 0 8.

Definition on_job (need : list equivalence_class) (d i : Z) (j : nat) : Prop :=
  match need !! j with Some ec => contains d i ec | None => False end.
#[export] Instance on_job_dec need d i j : Decision (on_job need d i j).
Proof. unfold on_job. destruct (need !! j); apply _. Defined.

Lemma result_rows_count ec (rs : list (Z * R)) d i bit :
  fst <$> rs = seqZ 0 8 -> 0 <= bit < 8 ->
  length (filter (row_covers d i bit) ((fun x => mkRow ec x.1 1 (Some x.2)) <$> rs)) = (if decide (contains d i ec) then 1%nat else 0%nat).
Proof.
  intros Hbits Hbit. case_decide as Hc.
  - assert (forall (l : list (Z * R)) a, fst <$> l = seqZ a (Z.of_nat (length l)) ->
        length (filter (row_covers d i bit) ((fun x => mkRow ec x.1 1 (Some x.2)) <$> l))
        = (if decide (a <= bit < a + Z.of_nat (length l)) then 1%nat else 0%nat)) as Hl.
    { induction l as [|[b r] l IH]; intros a Ha; [by rewrite decide_False by (simpl; lia)|].
      cbn [length] in Ha. rewrite seqZ_cons in Ha by lia. cbn [fmap list_fmap fst] in Ha. injection Ha as -> Ha.
      replace (Z.pred (Z.of_nat (S (length l)))) with (Z.of_nat (length l)) in Ha by lia.
      specialize (IH (Z.succ a) Ha). rewrite fmap_cons, filter_cons. cbn [fst snd length].
      destruct (decide (row_covers d i bit (mkRow ec a 1 (Some r)))) as [[_ Hr]|Hr]; cbn [bitnr bit_width length] in *.
      - rewrite IH, decide_False, decide_True by lia. done.
      - rewrite IH. assert (~ (a <= bit < a + 1)) by (intros ?; apply Hr; by split).
        destruct (decide (Z.succ a <= bit < Z.succ a + _)), (decide (a <= bit < _)); lia || done. }
    assert (length rs = 8%nat) as Hlen by (apply (f_equal length) in Hbits; by rewrite length_fmap in Hbits).
    rewrite (Hl rs 0) by (by rewrite Hlen). rewrite decide_True by lia. done.
  - rewrite list_filter_none; [done|]. intros r (x & -> & _)%list_elem_of_fmap [H1 _]. done.
Qed.

Lemma done_rows_count need done d i bit :
  Forall job_done done -> Forall (fun job => (job.1 < length need)%nat) done -> 0 <= bit < 8 ->
  exists rows, mapM (result_rows need) done = Some rows /\
    length (filter (row_covers d i bit) (concat rows)) = length (filter (on_job need d i) (fst <$> done)).
Proof.
  intros Hdone Hin Hbit. induction done as [|[j rs] done IH]; [by exists []|].
  inversion Hdone as [|? ? Hj Hdone']; subst. inversion Hin as [|? ? Hlt Hin']; subst.
  destruct (IH Hdone' Hin') as (rows & E & Hc). unfold job_done in Hj. simpl in Hj, Hlt.
  destruct (lookup_lt_is_Some_2 need j Hlt) as [ec Hec].
  assert (result_rows need (j, rs) = Some ((fun x => mkRow ec x.1 1 (Some x.2)) <$> rs)) as Hrow
    by (unfold result_rows; simpl; by rewrite Hec).
  exists (((fun x => mkRow ec x.1 1 (Some x.2)) <$> rs) :: rows). simpl mapM. rewrite Hrow, E. split; [done|]. cbn [concat]. rewrite filter_app, length_app, result_rows_count by done.
  rewrite fmap_cons, filter_cons, Hc. cbn [fst]. assert (on_job need d i j <-> contains d i ec) as Hiff by (unfold on_job; by rewrite Hec).
  destruct (decide (contains d i ec)), (decide (on_job need d i j)); tauto || done.
Qed.

Lemma jobs_count need d i : length (filter (on_job need d i) (seq 0 (length need))) = length (filter (contains d i) need).
Proof.
  induction need as [|ec need IH] using rev_ind; [done|].
  rewrite length_app, Nat.add_1_r, seq_S, !filter_app, !length_app. f_equal.
  - rewrite <- IH. f_equal. apply list_filter_iff_strong. intros j [_ Hj]%elem_of_seq. unfold on_job. rewrite lookup_app_l by lia. done.
  - assert (on_job (need ++ [ec]) d i (length need) <-> contains d i ec) as Hiff
      by (unfold on_job; by rewrite lookup_app_r, Nat.sub_diag by lia).
    rewrite !filter_cons, Nat.add_0_l.
    destruct (decide (contains d i ec)), (decide (on_job (need ++ [ec]) d i (length need))); tauto || done.
Qed.
End results.

(** C37. The results file of checksum-oostubs is complete: once every job has returned a result for
    each of its eight bits, in whatever order the jobs come in, each bit of each
    byte of the memory map is covered by exactly one row for every instruction of the trace. *)
Theorem oostubs_rows_complete {R : Type} limit mm trace (done : list (nat * list (Z * R))) d i bit :
  NoDup mm -> d ∈ mm -> 0 <= i < instructions limit trace 0 -> 0 <= bit < 8 ->
  let s := oostubs_classes limit mm trace in
  Forall job_done done -> fst <$> done ≡ₚ seq 0 (length (ecs_need_experiment s)) ->
  exists rows, oostubs_rows s done = Some rows /\ length (filter (row_covers d i bit) rows) = 1%nat.
Proof.
  intros Hnd Hd Hi Hbit s Hdone Hjobs.
  assert (Forall (fun job : nat * list (Z * R) => (job.1 < length (ecs_need_experiment s))%nat) done) as Hin.
  { apply Forall_forall. intros job Hj. assert (job.1 ∈ fst <$> done) as Hx by (apply list_elem_of_fmap; by exists job).
    rewrite Hjobs in Hx. apply elem_of_seq in Hx. lia. }
  destruct (done_rows_count (ecs_need_experiment s) done d i bit Hdone Hin Hbit) as (rows & E & Hc).
  unfold oostubs_rows. rewrite E. eexists. split; [done|]. rewrite filter_app, length_app, Hc, Hjobs, jobs_count.
  assert (length (filter (row_covers (R := R) d i bit) (no_effect_row <$> ecs_no_effect s)) = length (filter (contains d i) (ecs_no_effect s))) as ->.
  { induction (ecs_no_effect s) as [|ec l IH]; [done|]. rewrite fmap_cons, !filter_cons.
    assert (row_covers (R := R) d i bit (no_effect_row ec) <-> contains d i ec) as Hiff by (unfold row_covers; simpl; intuition lia).
    destruct (decide (row_covers d i bit (no_effect_row ec))), (decide (contains d i ec)); cbn [length]; rewrite ?IH; tauto || done. }
  pose proof (oostubs_point limit mm trace d i Hnd Hd (proj1 Hi)) as Hp. cbv zeta in Hp. fold s in Hp.
  destruct (next_access i _) as [[n ip []]|].
  - destruct Hp as [-> (i1 & _ & ->)]. done.
  - destruct Hp as [-> (i1 & _ & ->)]. done.
  - destruct Hp as [-> Hp]. rewrite (proj2 (Z.ltb_lt _ _) (proj2 Hi)) in Hp. destruct Hp as (i1 & _ & ->). done.
Qed.

Module PruningDemo.
Definition instr (ip : Z) : Trace_Event := mkTE ip None None 0 READ None.
Definition mem (t : AccessType) (a w : Z) : Trace_Event := mkTE 0 None (Some a) w t None.
Definition trace : list Trace_Event :=
  [instr 256; mem READ 4096 1; instr 260; mem WRITE 4096 1; instr 264; mem READ 4097 1; instr 268].
Definition mm : list Z := [4096; 4097].
Definition classes : campaign_state := oostubs_classes 100 mm trace.

Example demo_classes :
  ecs_need_experiment classes = [mkEC 4096 0 1 256; mkEC 4097 0 3 264] /\
  ecs_no_effect classes = [mkEC 4096 2 2 260; mkEC 4096 3 3 0] /\ num_dumb_experiments classes = 8.
Proof. vm_compute. done. Qed.

Lemma mm_nodup : NoDup mm.
Proof. apply (bool_decide_unpack _). vm_compute. exact I. Qed.

Lemma oostubs_pruning_exact_witness :
  filter (contains 4096 2) (ecs_need_experiment classes) = [] /\
  exists i1, 0 <= i1 <= 2 /\ filter (contains 4096 2) (ecs_no_effect classes) = [mkEC 4096 i1 2 260].
Proof. exact (oostubs_pruning_exact 100 mm trace 4096 2 mm_nodup ltac:(set_solver) ltac:(lia)). Defined.

Lemma one_pass_equivalent_witness :
  (on 4096 (ecs_need_experiment classes), on 4096 (ecs_no_effect classes))
  = scan_close 4096 (fold_left (scan_step (byte_of 4096) 4096) trace (mkScan 0 0 0 [] [])).
Proof. exact (one_pass_equivalent 100 mm trace 4096 mm_nodup ltac:(set_solver) ltac:(vm_compute; reflexivity)). Defined.

Lemma campaigns_agree_witness :
  (fun ec => (instr1 ec, instr2 ec)) <$> (cool_byte 4096 trace 0).1 = [(0, 1)] /\
  (let '(need, no_effect) := cool_byte 4096 trace 0 in
   (fun ec => (instr1 ec, instr2 ec, instr2_absolute ec)) <$> need
   = (fun ec => (instr1 ec, instr2 ec, instr2_absolute ec)) <$> on (0 + 4096) (ecs_need_experiment classes)).
Proof.
  split; [vm_compute; reflexivity|].
  refine (proj1 (campaigns_agree 100 mm 4096 0 trace _ mm_nodup _ _)).
  - repeat constructor; vm_compute; congruence.
  - set_solver.
  - vm_compute. reflexivity.
Defined.

Lemma oostubs_rows_complete_witness :
  let done := (fun j => (j, (fun b => (b, b)) <$> seqZ 0 8)) <$> [1%nat; 0%nat] in
  exists rows, oostubs_rows classes done = Some rows /\ length (filter (row_covers 4097 2 5) rows) = 1%nat.
Proof.
  intros done. apply (oostubs_rows_complete 100 mm trace done 4097 2 5 mm_nodup).
  - set_solver.
  - split; vm_compute; congruence.
  - lia.
  - repeat constructor.
  - vm_compute. apply Permutation_swap.
Defined.

(** A word read: checksum-oostubs gives each of its bytes an experiment, cool-checksum only the first one and
    declares faults in the others to be without effect. *)
Example wide_access :
  let trace := [instr 256; mem READ 4096 4; instr 260] in
  ecs_need_experiment (oostubs_classes 100 mm trace) = [mkEC 4096 0 1 256; mkEC 4097 0 1 256] /\
  cool_classes 4096 2 trace = ([mkEC 0 0 1 256], [mkEC 1 0 1 0]).
Proof. vm_compute. done. Qed.
End PruningDemo.
