(* ===== verification/NanoJpeg.v ===== *)
(** * The nanojpeg campaign

    [experiments/nanojpeg/campaign.cc]: equivalence classes for the bits of the
    general-purpose registers.  For every register a cascade of the latest accesses to its
    bits is kept: a list of instruction numbers with the bits whose open class starts
    there.  Reading bits makes experiments of their classes, overwriting them gives classes
    with a known outcome.

    The disassembler is a parameter: for an instruction address, the registers read and written with the
    bits concerned, or that it lies outside the image or cannot be decoded.  Results
    of earlier runs are a map from instruction and register to bits ([available]). *)
From S2P Require Import Prelude Importer Registers CampaignPruning CampaignPruningTheorems.
Open Scope Z_scope.

Inductive Decoded := OutsideImage | Undecodable | Accessed (ins outs : list (Z * Z)).

Record Job := mkJob { instr_ecstart : Z; job_offset : Z; job_address : Z; job_register : Z; job_bitmask : Z }.

Record nj_state := mkNJ {
  reg_cascade : gmap Z (list (Z * Z));
  nj_instr : Z;
  nj_absolute : Z;
  nj_jobs : list Job;
  nj_known : list Job
}.

Definition all_bits : Z := 18446744073709551615.
Definition gp_registers : list Z := [RID_CAX; RID_CCX; RID_CDX; RID_CBX; RID_CSP; RID_CBP; RID_CSI; RID_CDI].

Definition initial_nj : nj_state :=
  mkNJ (list_to_map ((fun r => (r, [(0, all_bits)])) <$> gp_registers)) 0 0 [] [].

(** The loop over the latest accesses, newest first: classes closed (start and bits), what is left of the
    list, bits not found. *)
Fixpoint walk (remaining : Z) (l : list (Z * Z)) : list (Z * Z) * list (Z * Z) * Z :=
  match l with
  | [] => ([], [], remaining)
  | (first, mask) :: rest =>
      if remaining =? 0 then ([], l, 0)
      else
        let common := Z.land mask remaining in
        if common =? 0 then let '(closed, kept, r) := walk remaining rest in (closed, (first, mask) :: kept, r)
        else
          let mask := Z.land mask (Z.lnot common) in
          let '(closed, kept, r) := walk (Z.land remaining (Z.lnot common)) rest in
          ((first, common) :: closed, (if mask =? 0 then [] else [(first, mask)]) ++ kept, r)
  end.

Section campaign.
Context (available : gmap (Z * Z) Z) (decode : Z -> Decoded) (limit : Z).

Definition check_available (offset reg bitmask : Z) : Z :=
  match available !! (offset, reg) with Some done => Z.land bitmask (Z.lnot done) | None => bitmask end.

(** [add_experiment_ec] and [add_known_ec]: nothing if all bits are done. *)
Definition make_ec (offset address reg : Z) (x : Z * Z) : option Job :=
  let bitmask := check_available offset reg x.2 in
  if bitmask =? 0 then None else Some (mkJob x.1 offset address reg bitmask).

(** One access: the bits closed start anew with the next instruction. *)
Definition renew (s : nj_state) (reg mask : Z) : list (Z * Z) * gmap Z (list (Z * Z)) :=
  let '(closed, kept, _) := walk mask (default [] (reg_cascade s !! reg)) in
  (closed, <[reg := rev ((fun x => (nj_instr s + 1, x.2)) <$> closed) ++ kept]> (reg_cascade s)).

Definition in_register (s : nj_state) (x : Z * Z) : nj_state :=
  let '(closed, cascade) := renew s x.1 x.2 in
  mkNJ cascade (nj_instr s) (nj_absolute s) (nj_jobs s ++ omap (make_ec (nj_instr s) (nj_absolute s) x.1) closed) (nj_known s).

Definition out_register (s : nj_state) (x : Z * Z) : nj_state :=
  let '(closed, cascade) := renew s x.1 x.2 in
  mkNJ cascade (nj_instr s) (nj_absolute s) (nj_jobs s)
    (nj_known s ++ omap (make_ec (nj_instr s) (nj_absolute s) x.1) (filter (fun c => c.1 <= nj_instr s) closed)).

(** The loop over the trace; [None]: an instruction cannot be disassembled. *)
Fixpoint nj_trace (trace : list Trace_Event) (s : nj_state) : option nj_state :=
  match trace with
  | [] => Some s
  | ev :: trace =>
      if nj_instr s <? limit then
        match te_memaddr ev with
        | Some _ => nj_trace trace s
        | None =>
            let s := mkNJ (reg_cascade s) (nj_instr s + 1) (u32 (te_ip ev)) (nj_jobs s) (nj_known s) in
            match decode (nj_absolute s) with
            | OutsideImage => nj_trace trace s
            | Undecodable => None
            | Accessed ins outs => nj_trace trace (fold_left out_register outs (fold_left in_register ins s))
            end
        end
      else Some s
  end.

(** The end of the trace: what is open in the low halves becomes experiments. *)
Definition close_register (s : nj_state) (reg : Z) : nj_state :=
  let '(closed, kept, _) := walk 4294967295 (default [] (reg_cascade s !! reg)) in
  mkNJ (<[reg := kept]> (reg_cascade s)) (nj_instr s) (nj_absolute s)
    (nj_jobs s ++ omap (make_ec (nj_instr s) (nj_absolute s) reg) (filter (fun c => c.1 <= nj_instr s) closed)) (nj_known s).

Definition nj_run (trace : list Trace_Event) : option nj_state :=
  s ← nj_trace trace initial_nj; Some (fold_left close_register gp_registers s).
End campaign.

(** [count_1bits] *)
Fixpoint count_1bits (fuel : nat) (v : Z) : Z :=
  match fuel with
  | O => 0
  | S fuel => if v =? 0 then 0 else Z.land v 1 + count_1bits fuel (Z.shiftr v 1)
  end.

(** Results of one job, in the order of their bits: neighbours with the same outcome become one row.
    [None]: a job without results is dereferenced. *)
Section merge.
Context {R : Type} `{EqDecision R}.

Fixpoint merge_from (bitmask : Z) (prev : R) (l : list (Z * R)) : list (Z * R) :=
  match l with
  | [] => [(bitmask, prev)]
  | (bit, r) :: rest =>
      if decide (prev = r) then merge_from (Z.lor bitmask (2 ^ bit)) prev rest
      else (bitmask, prev) :: merge_from (2 ^ bit) r rest
  end.

Definition merge_results (l : list (Z * R)) : option (list (Z * R)) :=
  match l with
  | [] => None
  | (bit, r) :: rest => Some (merge_from (2 ^ bit) r rest)
  end.
End merge.
