(* ===== verification/NanoJpegTheorems.v ===== *)
(** * Theorems on the nanojpeg campaign

    Bit by bit, the cascade of masks computes the intervals of the reference of
    [CampaignPruningTheorems]; merged result rows stand for the same bits. *)
From S2P Require Import Prelude Importer Registers CampaignPruning CampaignPruningTheorems NanoJpeg.
Open Scope Z_scope.

(** ** The cascade of one register, one bit *)

(** The starts of the entries that hold bit [k]. *)
Definition starts (k : Z) (l : list (Z * Z)) : list Z := fst <$> filter (fun x => Z.testbit x.2 k = true) l.

Lemma starts_cons k a m l : starts k ((a, m) :: l) = (if Z.testbit m k then [a] else []) ++ starts k l.
Proof. unfold starts. rewrite filter_cons. simpl. by destruct (Z.testbit m k). Qed.

Lemma starts_app k l l' : starts k (l ++ l') = starts k l ++ starts k l'.
Proof. unfold starts. by rewrite filter_app, fmap_app. Qed.

Lemma walk_starts k l : 0 <= k -> forall remaining closed kept r,
  walk remaining l = (closed, kept, r) -> (length (starts k l) <= 1)%nat ->
  if Z.testbit remaining k then starts k closed = starts k l /\ starts k kept = []
  else starts k closed = [] /\ starts k kept = starts k l.
Proof.
  intros Hk. induction l as [|[a m] l IH]; intros rem closed kept r; cbn [walk].
  - intros [= <- <- <-] _. by destruct (Z.testbit rem k).
  - destruct (Z.eqb_spec rem 0) as [->|Hrem].
    { intros [= <- <- <-] _. by rewrite Z.testbit_0_l. }
    rewrite starts_cons, length_app. destruct (Z.eqb_spec (Z.land m rem) 0) as [Hc|Hc].
    + destruct (walk rem l) as [[closed' kept'] r'] eqn:E. intros [= <- <- <-] Hlen.
      assert (Z.testbit m k && Z.testbit rem k = false) as Hmk by (by rewrite <- Z.land_spec, Hc, Z.testbit_0_l).
      specialize (IH rem closed' kept' r' E ltac:(lia)). rewrite starts_cons.
      destruct (Z.testbit rem k), (Z.testbit m k); try done; destruct IH as [-> ->]; done.
    + set (common := Z.land m rem) in *. set (m' := Z.land m (Z.lnot common)). destruct (walk (Z.land rem (Z.lnot common)) l) as [[closed' kept'] r'] eqn:E.
      intros [= <- <- <-] Hlen. specialize (IH _ closed' kept' r' E ltac:(lia)).
      assert (Z.testbit m' k = Z.testbit m k && negb (Z.testbit rem k)) as Hm'.
      { unfold m', common. rewrite !Z.land_spec, Z.lnot_spec, Z.land_spec by done. by destruct (Z.testbit m k), (Z.testbit rem k). }
      assert (starts k (if m' =? 0 then [] else [(a, m')]) = if Z.testbit m' k then [a] else []) as Hkept.
      { destruct (Z.eqb_spec m' 0) as [->|]; [by rewrite Z.testbit_0_l|]. by rewrite starts_cons, app_nil_r. }
      assert (Z.testbit common k = Z.testbit m k && Z.testbit rem k) as Hcom by apply Z.land_spec.
      rewrite starts_cons, starts_app, Hkept, Hm', Hcom. rewrite Z.land_spec, Z.lnot_spec, Hcom in IH by done.
      destruct (Z.testbit m k), (Z.testbit rem k); simpl in *; destruct IH as [-> ->]; try done.
      destruct (starts k l); simpl in *; [done | lia].
Qed.

Lemma starts_renewed k n closed :
  (length (starts k closed) <= 1)%nat ->
  starts k (rev ((fun x : Z * Z => (n, x.2)) <$> closed)) = (fun _ => n) <$> starts k closed.
Proof.
  induction closed as [|[a m] closed IH]; intros Hl; [done|]. rewrite fmap_cons. cbn [rev snd]. rewrite starts_app.
  rewrite starts_cons in Hl |- *. rewrite length_app in Hl. rewrite IH by lia. rewrite starts_cons, fmap_app.
  destruct (Z.testbit m k); simpl in *; [|by rewrite !app_nil_r].
  destruct (starts k closed); simpl in *; [done | lia].
Qed.

(** ** One bit of one register through the campaign *)

Section bit.
Context (available : gmap (Z * Z) Z) (decode : Z -> Decoded) (limit reg k : Z).
Hypothesis k_range : 0 <= k.

(** Did an earlier run give a result for this bit at instruction [n]? *)
Definition known_before (n : Z) : bool := match available !! (n, reg) with Some d => Z.testbit d k | None => false end.
Definition fresh (l : list equivalence_class) : list equivalence_class := filter (fun ec => known_before (instr2 ec) = false) l.

Definition concerns (j : Job) : Prop := job_register j = reg /\ Z.testbit (job_bitmask j) k = true.
#[local] Instance concerns_dec j : Decision (concerns j).
Proof. unfold concerns. apply _. Defined.

(** The classes of the bit. *)
Definition bit_classes (l : list Job) : list equivalence_class :=
  (fun j => mkEC reg (instr_ecstart j) (job_offset j) (job_address j)) <$> filter concerns l.

Lemma bit_classes_app l l' : bit_classes (l ++ l') = bit_classes l ++ bit_classes l'.
Proof. unfold bit_classes. by rewrite filter_app, fmap_app. Qed.

Lemma fresh_app l l' : fresh (l ++ l') = fresh l ++ fresh l'.
Proof. apply filter_app. Qed.

Lemma app_fresh_nil l : l ++ fresh [] = l.
Proof. apply app_nil_r. Qed.

Lemma check_available_bit n m : Z.testbit (check_available available n reg m) k = Z.testbit m k && negb (known_before n).
Proof.
  unfold check_available, known_before. destruct (available !! (n, reg)); [|by rewrite andb_true_r].
  by rewrite Z.land_spec, Z.lnot_spec.
Qed.

Lemma made_classes n ip closed :
  bit_classes (omap (make_ec available n ip reg) closed) = fresh ((fun st => mkEC reg st n ip) <$> starts k closed).
Proof.
  induction closed as [|[a m] closed IH]; [done|]. rewrite starts_cons, fmap_app, fresh_app, <- IH. cbn [omap list_omap].
  unfold make_ec at 1. cbn [fst snd]. pose proof (check_available_bit n m) as Hbit. set (cm := check_available available n reg m) in *.
  assert (fresh ((fun st => mkEC reg st n ip) <$> (if Z.testbit m k then [a] else [])) = if Z.testbit cm k then [mkEC reg a n ip] else []) as ->.
  { rewrite Hbit. destruct (Z.testbit m k); [|done]. unfold fresh. simpl. destruct (known_before n) eqn:E;
      [rewrite filter_cons_False | rewrite filter_cons_True]; simpl; done || by rewrite E. }
  destruct (Z.eqb_spec cm 0) as [->|]; [by rewrite Z.testbit_0_l|].
  unfold bit_classes at 1. rewrite filter_cons. destruct (Z.testbit cm k) eqn:Hk.
  - rewrite decide_True by (by split). done.
  - rewrite decide_False; [done|]. intros [_ ?]. simpl in *. congruence.
Qed.

Lemma other_classes n ip r' closed : r' <> reg -> bit_classes (omap (make_ec available n ip r') closed) = [].
Proof.
  intros Hne. unfold bit_classes. rewrite list_filter_none; [done|]. intros j (x & Hx & Hj)%list_elem_of_omap [Hr _].
  unfold make_ec in Hj. destruct (_ =? 0); [done|]. injection Hj as <-. simpl in Hr. done.
Qed.

(** The state of the bit: where its open class starts, and its classes so far. *)
Record nview (s : nj_state) (st : Z) (jobs known : list equivalence_class) : Prop := {
  nv_start : starts k (default [] (reg_cascade s !! reg)) = [st];
  nv_jobs : bit_classes (nj_jobs s) = jobs;
  nv_known : bit_classes (nj_known s) = known
}.

(** ... and after further accesses. *)
Definition after (s : nj_state) (st : Z) (jobs known : list equivalence_class) (acc : list access) : Prop :=
  nview s (closes_end st acc) (jobs ++ fresh (of_type READ (closes reg st acc))) (known ++ fresh (of_type WRITE (closes reg st acc))).

Lemma after_nil s st jobs known : after s st jobs known [] <-> nview s st jobs known.
Proof. unfold after. change (nview s st (jobs ++ fresh []) (known ++ fresh []) <-> nview s st jobs known). by rewrite !app_fresh_nil. Qed.

Lemma after_app s st jobs known acc acc' :
  after s st jobs known (acc ++ acc') <->
  after s (closes_end st acc) (jobs ++ fresh (of_type READ (closes reg st acc))) (known ++ fresh (of_type WRITE (closes reg st acc))) acc'.
Proof.
  unfold after. destruct (closes_app reg acc acc' st) as [-> ->]. by rewrite !of_type_app, !fresh_app, !(assoc_L (++)).
Qed.

Definition hits (x : Z * Z) : Prop := x.1 = reg /\ Z.testbit x.2 k = true.
#[local] Instance hits_dec x : Decision (hits x).
Proof. unfold hits. apply _. Defined.

(** What an access does to the cascade. *)
Lemma renew_bit s st jobs known x closed cascade :
  nview s st jobs known -> renew s x.1 x.2 = (closed, cascade) ->
  if decide (hits x) then starts k closed = [st] /\ starts k (default [] (cascade !! reg)) = [nj_instr s + 1]
  else (x.1 = reg -> starts k closed = []) /\ starts k (default [] (cascade !! reg)) = [st].
Proof.
  intros [Hs _ _]. unfold renew. destruct x as [r' mask]. cbn [fst snd].
  destruct (walk mask (default [] (reg_cascade s !! r'))) as [[cl kept] rm] eqn:E. intros [= <- <-].
  destruct (decide (r' = reg)) as [->|Hne].
  - pose proof (walk_starts k _ k_range _ _ _ _ E ltac:(rewrite Hs; simpl; lia)) as Hw. rewrite Hs in Hw.
    rewrite lookup_insert_eq. unfold default, from_option, id. rewrite starts_app.
    destruct (Z.testbit mask k) eqn:Hm; destruct Hw as [Hc Hk].
    + rewrite decide_True by (by split). split; [done|]. rewrite starts_renewed, Hc, Hk by (rewrite Hc; simpl; lia). done.
    + rewrite decide_False by (intros [_ ?]; simpl in *; congruence). split; [done|].
      rewrite starts_renewed, Hc, Hk by (rewrite Hc; simpl; lia). done.
  - rewrite decide_False by (intros [? _]; done). rewrite lookup_insert_ne by done. done.
Qed.

Lemma after_read s st jobs known n ip : st <= n ->
  after s st jobs known [mkAcc n ip READ] <-> nview s (n + 1) (jobs ++ fresh [mkEC reg st n ip]) known.
Proof.
  intros Hst. unfold after. cbn [closes closes_end acc_instr]. rewrite Z.gtb_ltb, (proj2 (Z.ltb_ge n st)) by lia.
  change (of_type READ _) with [mkEC reg st n ip]. change (of_type WRITE _) with (@nil equivalence_class). by rewrite (app_fresh_nil known).
Qed.

Lemma after_write s st jobs known n ip : st <= n ->
  after s st jobs known [mkAcc n ip WRITE] <-> nview s (n + 1) jobs (known ++ fresh [mkEC reg st n ip]).
Proof.
  intros Hst. unfold after. cbn [closes closes_end acc_instr]. rewrite Z.gtb_ltb, (proj2 (Z.ltb_ge n st)) by lia.
  change (of_type WRITE _) with [mkEC reg st n ip]. change (of_type READ _) with (@nil equivalence_class). by rewrite (app_fresh_nil jobs).
Qed.

Lemma after_late s st jobs known n ip t : n < st -> after s st jobs known [mkAcc n ip t] <-> nview s st jobs known.
Proof. intros Hst. rewrite <- after_nil. unfold after. cbn [closes closes_end acc_instr]. by rewrite Z.gtb_ltb, (proj2 (Z.ltb_lt n st)) by lia. Qed.

Definition use_of (s : nj_state) (t : AccessType) (x : Z * Z) : list access :=
  if decide (hits x) then [mkAcc (nj_instr s) (nj_absolute s) t] else [].

Lemma in_register_view s st jobs known x :
  nview s st jobs known -> st <= nj_instr s \/ ~ hits x ->
  after (in_register available s x) st jobs known (use_of s READ x).
Proof.
  intros Hv Hst. pose proof Hv as [_ Hj Hn]. unfold in_register, use_of. destruct (renew s x.1 x.2) as [closed cascade] eqn:E.
  pose proof (renew_bit _ _ _ _ _ _ _ Hv E) as Hr. destruct (decide (hits x)) as [Hx|Hx].
  - destruct Hr as [Hc Hs], Hst as [Hst|]; [|done]. apply after_read; [done|].
    split; cbn [reg_cascade nj_jobs nj_known]; [done| |done].
    destruct Hx as [-> _]. by rewrite bit_classes_app, Hj, made_classes, Hc.
  - destruct Hr as [Hc Hs]. apply after_nil. split; cbn [reg_cascade nj_jobs nj_known]; [done| |done].
    rewrite bit_classes_app, Hj. destruct (decide (x.1 = reg)) as [He|]; [|by rewrite other_classes, app_nil_r].
    rewrite He, made_classes, Hc by done. apply app_nil_r.
Qed.

Lemma starts_kept n closed : starts k (filter (fun c => c.1 <= n) closed) = filter (fun a => a <= n) (starts k closed).
Proof.
  induction closed as [|[a m] closed IH]; [done|]. rewrite filter_cons, starts_cons, filter_app, <- IH. cbn [fst].
  case_decide as Ha; rewrite ?starts_cons; destruct (Z.testbit m k); try done; [by rewrite filter_cons_True | by rewrite filter_cons_False].
Qed.

Lemma out_register_view s st jobs known x :
  nview s st jobs known -> st <= nj_instr s + 1 ->
  after (out_register available s x) st jobs known (use_of s WRITE x).
Proof.
  intros Hv Hst. pose proof Hv as [_ Hj Hn]. unfold out_register, use_of. destruct (renew s x.1 x.2) as [closed cascade] eqn:E.
  pose proof (renew_bit _ _ _ _ _ _ _ Hv E) as Hr. pose proof (starts_kept (nj_instr s) closed) as Hf.
  destruct (decide (hits x)) as [Hx|Hx], Hr as [Hc Hs].
  - destruct Hx as [Hx _]. rewrite Hc in Hf.
    assert (bit_classes (nj_known s ++ omap (make_ec available (nj_instr s) (nj_absolute s) x.1) (filter (fun c => c.1 <= nj_instr s) closed))
            = known ++ fresh ((fun st => mkEC reg st (nj_instr s) (nj_absolute s)) <$> filter (fun a => a <= nj_instr s) [st])) as Hk
      by (by rewrite bit_classes_app, Hn, Hx, made_classes, Hf).
    destruct (Z.lt_ge_cases (nj_instr s) st) as [Hgt|Hle].
    + rewrite filter_cons_False in Hk by lia. apply after_late; [done|].
      split; cbn [reg_cascade nj_jobs nj_known]; [|done | by rewrite Hk, app_nil_r]. rewrite Hs. f_equal. lia.
    + rewrite filter_cons_True in Hk by lia. apply after_write; [done|].
      split; cbn [reg_cascade nj_jobs nj_known]; [done | done | exact Hk].
  - apply after_nil. split; cbn [reg_cascade nj_jobs nj_known]; [done | done|].
    rewrite bit_classes_app, Hn. destruct (decide (x.1 = reg)) as [He|]; [|by rewrite other_classes, app_nil_r].
    rewrite He, made_classes, Hf, Hc by done. apply app_nil_r.
Qed.

(** ** An instruction *)

Definition uses (n ip : Z) (t : AccessType) (l : list (Z * Z)) : list access := (fun _ => mkAcc n ip t) <$> filter hits l.

Lemma uses_cons n ip t x l : uses n ip t (x :: l) = (if decide (hits x) then [mkAcc n ip t] else []) ++ uses n ip t l.
Proof. unfold uses. rewrite filter_cons. by case_decide. Qed.

Lemma closes_end_bound n acc : forall st, Forall (fun a => acc_instr a = n) acc -> st <= n + 1 -> closes_end st acc <= n + 1.
Proof.
  induction acc as [|a acc IH]; intros st Hall Hst; cbn [closes_end]; [done|].
  apply Forall_cons in Hall as [-> Hall]. destruct (st >? n); apply IH; done || lia.
Qed.

Lemma uses_at n ip t l : Forall (fun a => acc_instr a = n) (uses n ip t l).
Proof. apply Forall_fmap, Forall_forall. done. Qed.

Lemma in_register_frame s x : nj_instr (in_register available s x) = nj_instr s /\ nj_absolute (in_register available s x) = nj_absolute s.
Proof. unfold in_register. by destruct (renew _ _ _). Qed.
Lemma out_register_frame s x : nj_instr (out_register available s x) = nj_instr s /\ nj_absolute (out_register available s x) = nj_absolute s.
Proof. unfold out_register. by destruct (renew _ _ _). Qed.

Lemma ins_view ins : forall s st jobs known,
  nview s st jobs known -> (length (filter hits ins) <= 1)%nat -> st <= nj_instr s \/ filter hits ins = [] ->
  let s' := fold_left (in_register available) ins s in
  nj_instr s' = nj_instr s /\ nj_absolute s' = nj_absolute s /\ after s' st jobs known (uses (nj_instr s) (nj_absolute s) READ ins).
Proof.
  induction ins as [|x ins IH]; intros s st jobs known Hv Hlen Hst; cbn [fold_left]; [by rewrite after_nil|].
  destruct (in_register_frame s x) as [Hi Ha]. rewrite uses_cons, after_app, <- Hi, <- Ha.
  rewrite filter_cons in Hlen, Hst. apply (IH (in_register available s x)).
  - rewrite Hi, Ha. apply in_register_view; [done|]. destruct Hst; [by left|right]. by destruct (decide (hits x)).
  - destruct (decide (hits x)); simpl in *; lia.
  - destruct (decide (hits x)) as [Hx|Hx].
    + right. apply length_zero_iff_nil. simpl in Hlen. lia.
    + destruct Hst; [left | by right]. by rewrite Hi.
Qed.

Lemma outs_view outs : forall s st jobs known,
  nview s st jobs known -> st <= nj_instr s + 1 ->
  let s' := fold_left (out_register available) outs s in
  nj_instr s' = nj_instr s /\ nj_absolute s' = nj_absolute s /\ after s' st jobs known (uses (nj_instr s) (nj_absolute s) WRITE outs).
Proof.
  induction outs as [|x outs IH]; intros s st jobs known Hv Hst; cbn [fold_left]; [by rewrite after_nil|].
  destruct (out_register_frame s x) as [Hi Ha]. rewrite uses_cons, after_app, <- Hi, <- Ha.
  apply (IH (out_register available s x)).
  - rewrite Hi, Ha. by apply out_register_view.
  - rewrite Hi. apply closes_end_bound; [|done]. case_decide; repeat constructor.
Qed.

(** ** The trace *)

(** The accesses to the bit; [None]: an instruction cannot be disassembled. *)
Fixpoint bit_accesses (trace : list Trace_Event) (instr : Z) : list access :=
  match trace with
  | [] => []
  | ev :: trace =>
      if instr <? limit then
        match te_memaddr ev with
        | Some _ => bit_accesses trace instr
        | None =>
            match decode (u32 (te_ip ev)) with
            | Accessed ins outs =>
                uses (instr + 1) (u32 (te_ip ev)) READ ins ++ uses (instr + 1) (u32 (te_ip ev)) WRITE outs ++ bit_accesses trace (instr + 1)
            | _ => bit_accesses trace (instr + 1)
            end
        end
      else []
  end.

Definition disjoint_ins : Prop :=
  forall ip ins outs, decode ip = Accessed ins outs -> (length (filter hits ins) <= 1)%nat.

Lemma trace_view trace : disjoint_ins -> forall s st jobs known s',
  nview s st jobs known -> st <= nj_instr s + 1 -> nj_trace available decode limit trace s = Some s' ->
  after s' st jobs known (bit_accesses trace (nj_instr s)) /\ closes_end st (bit_accesses trace (nj_instr s)) <= nj_instr s' + 1 /\
  nj_instr s' = instructions limit trace (nj_instr s).
Proof.
  intros Hdis. induction trace as [|ev trace IH]; intros s st jobs known s' Hv Hst; cbn [nj_trace bit_accesses instructions].
  - intros [= <-]. by rewrite after_nil.
  - destruct (nj_instr s <? limit); [|intros [= <-]; by rewrite after_nil].
    destruct (te_memaddr ev) as [a|]; [by apply IH|]. cbn [nj_absolute].
    set (s1 := mkNJ (reg_cascade s) (nj_instr s + 1) (u32 (te_ip ev)) (nj_jobs s) (nj_known s)).
    assert (nview s1 st jobs known) as Hv1 by (by destruct Hv).
    assert (st <= nj_instr s1) as Hst1 by exact Hst.
    destruct (decode (u32 (te_ip ev))) as [| |ins outs] eqn:Hd; [|done|].
    { intros Hr. apply (IH s1 st jobs known s'); [done | lia | done]. }
    destruct (ins_view ins s1 st jobs known Hv1 (Hdis _ _ _ Hd) (or_introl Hst1)) as (Hi2 & Ha2 & Hv2).
    set (s2 := fold_left _ ins s1) in *.
    assert (closes_end st (uses (nj_instr s1) (nj_absolute s1) READ ins) <= nj_instr s2 + 1) as Hst2
      by (rewrite Hi2; apply closes_end_bound; [apply uses_at | lia]).
    destruct (outs_view outs s2 _ _ _ Hv2 Hst2) as (Hi3 & Ha3 & Hv3). rewrite Hi2, Ha2 in Hv3.
    set (s3 := fold_left _ outs s2) in *. intros Hr.
    assert (nj_instr s3 = nj_instr s + 1) as Hi by (by rewrite Hi3, Hi2).
    unfold after in Hv3. destruct (IH s3 _ _ _ s' Hv3) as (Hf & Hb & Hn); [|exact Hr|].
    { apply closes_end_bound; [rewrite Hi; apply uses_at | lia]. }
    rewrite Hi in Hf, Hb, Hn. split; [|split; [|exact Hn]].
    + rewrite !after_app. exact Hf.
    + destruct (closes_app reg (uses (nj_instr s + 1) (u32 (te_ip ev)) READ ins)
        (uses (nj_instr s + 1) (u32 (te_ip ev)) WRITE outs ++ bit_accesses trace (nj_instr s + 1)) st) as [_ ->].
      destruct (closes_app reg (uses (nj_instr s + 1) (u32 (te_ip ev)) WRITE outs) (bit_accesses trace (nj_instr s + 1))
        (closes_end st (uses (nj_instr s + 1) (u32 (te_ip ev)) READ ins))) as [_ ->]. exact Hb.
Qed.

(** ** The end of the trace *)

Lemma gp_nodup : NoDup gp_registers.
Proof. apply (bool_decide_unpack _). vm_compute. done. Qed.

Lemma close_other s r' : r' <> reg ->
  let s' := close_register available s r' in
  reg_cascade s' !! reg = reg_cascade s !! reg /\ nj_instr s' = nj_instr s /\ nj_absolute s' = nj_absolute s /\
  bit_classes (nj_jobs s') = bit_classes (nj_jobs s) /\ nj_known s' = nj_known s.
Proof.
  intros Hne. unfold close_register. destruct (walk _ _) as [[closed kept] rm]. cbn [reg_cascade nj_jobs nj_known nj_instr nj_absolute].
  rewrite lookup_insert_ne by done. split_and!; try done. by rewrite bit_classes_app, other_classes, app_nil_r.
Qed.

Lemma close_others l : reg ∉ l -> forall s,
  let s' := fold_left (close_register available) l s in
  reg_cascade s' !! reg = reg_cascade s !! reg /\ nj_instr s' = nj_instr s /\ nj_absolute s' = nj_absolute s /\
  bit_classes (nj_jobs s') = bit_classes (nj_jobs s) /\ nj_known s' = nj_known s.
Proof.
  induction l as [|r' l IH]; intros Hni s; cbn [fold_left]; [done|]. apply not_elem_of_cons in Hni as [Hne Hni].
  destruct (close_other s r' (not_eq_sym Hne)) as (H1 & H2 & H3 & H4 & H5).
  destruct (IH Hni (close_register available s r')) as (G1 & G2 & G3 & G4 & G5). cbn zeta in *. split_and!; congruence.
Qed.

Lemma close_same s st jobs known : k < 32 ->
  nview s st jobs known ->
  let s' := close_register available s reg in
  nj_instr s' = nj_instr s /\ nj_absolute s' = nj_absolute s /\ nj_known s' = nj_known s /\
  bit_classes (nj_jobs s') = jobs ++ fresh (if st <=? nj_instr s then [mkEC reg st (nj_instr s) (nj_absolute s)] else []).
Proof.
  intros Hk [Hs Hj _]. unfold close_register. destruct (walk _ _) as [[closed kept] rm] eqn:E. cbn [reg_cascade nj_jobs nj_known nj_instr nj_absolute].
  pose proof (walk_starts k _ k_range _ _ _ _ E ltac:(rewrite Hs; simpl; lia)) as Hw.
  assert (Z.testbit 4294967295 k = true) as Hb by (change 4294967295 with (Z.ones 32); by apply Z.ones_spec_low).
  rewrite Hb in Hw. destruct Hw as [Hc _]. split_and!; try done.
  rewrite bit_classes_app, Hj, made_classes, starts_kept, Hc, Hs. f_equal. f_equal.
  destruct (Z.leb_spec st (nj_instr s)); [by rewrite filter_cons_True | rewrite filter_cons_False by lia; done].
Qed.

Lemma initial_view : reg ∈ gp_registers -> k < 64 -> nview initial_nj 0 [] [].
Proof.
  intros Hreg Hk. split; try done.
  assert (reg_cascade initial_nj !! reg = Some [(0, all_bits)]) as ->.
  { clear -Hreg. unfold gp_registers in Hreg. repeat (apply elem_of_cons in Hreg as [->|Hreg]; [vm_compute; done|]). by apply elem_of_nil in Hreg. }
  cbn [default from_option id]. rewrite starts_cons.
  assert (Z.testbit all_bits k = true) as -> by (change all_bits with (Z.ones 64); by apply Z.ones_spec_low). done.
Qed.

Lemma nj_run_inv trace s : nj_run available decode limit trace = Some s ->
  exists s1, nj_trace available decode limit trace initial_nj = Some s1 /\ s = fold_left (close_register available) gp_registers s1.
Proof.
  unfold nj_run. destruct (nj_trace _ _ _ _ _) as [s1|]; [|done]. intros Hs%(inj Some). by exists s1.
Qed.

(** The classes of the bit, as lists. *)
Lemma nanojpeg_classes trace s : disjoint_ins -> reg ∈ gp_registers -> k < 32 ->
  nj_run available decode limit trace = Some s ->
  let acc := bit_accesses trace 0 in
  let n := instructions limit trace 0 in
  bit_classes (nj_jobs s) =
    fresh (of_type READ (closes reg 0 acc)) ++ fresh (if closes_end 0 acc <=? n then [mkEC reg (closes_end 0 acc) n (nj_absolute s)] else []) /\
  bit_classes (nj_known s) = fresh (of_type WRITE (closes reg 0 acc)).
Proof.
  intros Hdis Hreg Hk (s1 & Ht & ->)%nj_run_inv.
  destruct (trace_view trace Hdis _ _ _ _ _ (initial_view Hreg ltac:(lia)) ltac:(simpl; lia) Ht) as (Hv & _ & Hn).
  cbn [nj_instr initial_nj] in Hv, Hn. set (acc := bit_accesses trace 0) in *.
  pose proof gp_nodup as Hnd.
  apply list_elem_of_split in Hreg as (l1 & l2 & Hl). rewrite Hl in Hnd |- *.
  apply NoDup_app in Hnd as (_ & Hd & Hnd). apply NoDup_cons in Hnd as [Hl2 _].
  assert (reg ∉ l1) as Hl1 by (intros Hin; apply (Hd _ Hin); left).
  rewrite fold_left_app. cbn [fold_left].
  destruct (close_others l1 Hl1 s1) as (A1 & A2 & A3 & A4 & A5). set (s2 := fold_left _ l1 s1) in *.
  assert (after s2 0 [] [] acc) as Hv2 by (destruct Hv as [B1 B2 B3]; split; [by rewrite A1 | by rewrite A4 | by rewrite A5]).
  destruct (close_same s2 _ _ _ Hk Hv2) as (C2 & C3 & C4 & C5). set (s3 := close_register available s2 reg) in *.
  destruct (close_others l2 Hl2 s3) as (D1 & D2 & D3 & D4 & D5). set (s4 := fold_left _ l2 s3) in *.
  split.
  - rewrite D4, C5, A2, Hn. by rewrite D3, C3.
  - rewrite D5, C4, A5. apply Hv.
Qed.

Lemma contains_fresh i l : filter (contains reg i) (fresh l) = fresh (filter (contains reg i) l).
Proof.
  unfold fresh. rewrite !list_filter_filter. apply list_filter_iff. tauto.
Qed.

Lemma instructions_mono trace : forall n, n <= instructions limit trace n.
Proof.
  induction trace as [|ev trace IH]; intros n; cbn [instructions]; [lia|]. destruct (n <? limit); [|lia].
  destruct (te_memaddr ev); [apply IH|]. specialize (IH (n + 1)). lia.
Qed.

(** One point of the fault space: the classes that contain it. *)
Lemma nanojpeg_point trace s i : disjoint_ins -> reg ∈ gp_registers -> k < 32 ->
  nj_run available decode limit trace = Some s -> 0 <= i <= instructions limit trace 0 ->
  match next_access i (bit_accesses trace 0) with
  | Some a => exists i1, 0 <= i1 <= i /\
      filter (contains reg i) (bit_classes (match acc_type a with READ => nj_jobs s | WRITE => nj_known s end)) = fresh [mkEC reg i1 (acc_instr a) (acc_ip a)] /\
      filter (contains reg i) (bit_classes (match acc_type a with READ => nj_known s | WRITE => nj_jobs s end)) = []
  | None => exists i1, 0 <= i1 <= i /\
      filter (contains reg i) (bit_classes (nj_jobs s)) = fresh [mkEC reg i1 (instructions limit trace 0) (nj_absolute s)] /\
      filter (contains reg i) (bit_classes (nj_known s)) = []
  end.
Proof.
  intros Hdis Hreg Hk Hrun Hi. destruct (nanojpeg_classes trace s Hdis Hreg Hk Hrun) as [Hjobs Hknown].
  set (acc := bit_accesses trace 0) in *. set (n := instructions limit trace 0) in *.
  pose proof (closes_contains reg i READ acc 0 ltac:(lia)) as HR. pose proof (closes_contains reg i WRITE acc 0 ltac:(lia)) as HW.
  pose proof (next_access_open i acc 0 ltac:(lia)) as Hopen. pose proof (closes_end_mono acc 0) as Hmono.
  apply (f_equal (filter (contains reg i))) in Hjobs, Hknown. rewrite filter_app, !contains_fresh in Hjobs. rewrite contains_fresh in Hknown.
  assert (filter (contains reg i) (if closes_end 0 acc <=? n then [mkEC reg (closes_end 0 acc) n (nj_absolute s)] else [])
    = if closes_end 0 acc <=? i then [mkEC reg (closes_end 0 acc) n (nj_absolute s)] else []) as Htail.
  { destruct (Z.leb_spec (closes_end 0 acc) n), (Z.leb_spec (closes_end 0 acc) i); try lia; try done.
    - by rewrite filter_cons_True by (split; simpl; lia).
    - rewrite filter_cons_False; [done|]. unfold contains. simpl. lia. }
  rewrite Htail in Hjobs. destruct (next_access i acc) as [a|].
  - destruct (Z.leb_spec (closes_end 0 acc) i) as [Hle|]; [by apply Hopen in Hle|]. rewrite app_fresh_nil in Hjobs.
    destruct HR as [R1 R2], HW as [W1 W2], (acc_type a).
    + destruct (R2 eq_refl) as (i1 & ? & E). rewrite E in Hjobs. rewrite W1 in Hknown by done. by exists i1.
    + destruct (W2 eq_refl) as (i1 & ? & E). rewrite E in Hknown. rewrite R1 in Hjobs by done. by exists i1.
  - apply proj1 in Hopen. specialize (Hopen eq_refl). rewrite (proj2 (Z.leb_le _ _)) in Hjobs by done.
    rewrite HR in Hjobs. rewrite HW in Hknown. exists (closes_end 0 acc). split; [lia|]. done.
Qed.
End bit.

(** ** Merged results *)

Section merge.
Context {R : Type} `{EqDecision R}.

(** The result rows have for bit [k]. *)
Definition results_of (k : Z) (rows : list (Z * R)) : list R := snd <$> filter (fun x => Z.testbit x.1 k = true) rows.

Lemma merge_from_spec k (l : list (Z * R)) : 0 <= k -> forall bitmask prev,
  Forall (fun x => 0 <= x.1) l -> Forall (fun x => x.1 = k -> Z.testbit bitmask k = false) l -> NoDup (fst <$> l) ->
  results_of k (merge_from bitmask prev l) = (if Z.testbit bitmask k then [prev] else []) ++ (snd <$> filter (fun x => x.1 = k) l).
Proof.
  intros Hk. induction l as [|[b r] l IH]; intros bitmask prev Hpos Hfr Hnd; cbn [merge_from].
  - unfold results_of. rewrite filter_cons. simpl. by destruct (Z.testbit bitmask k).
  - apply Forall_cons in Hpos as [Hb Hpos], Hfr as [Hf Hfr]. cbn in Hb, Hf. apply NoDup_cons in Hnd as [Hni Hnd].
    assert (Forall (fun x : Z * R => x.1 = k -> b <> k) l) as Hbk.
    { apply Forall_forall. intros x Hx <- ->. apply Hni. apply list_elem_of_fmap. by exists x. }
    assert (Z.testbit (2 ^ b) k = bool_decide (b = k)) as Hbit.
    { rewrite Z.pow2_bits_eqb by done. apply Bool.eq_iff_eq_true. by rewrite Z.eqb_eq, bool_decide_eq_true. }
    rewrite filter_cons. cbn [fst]. destruct (decide (prev = r)) as [->|Hr].
    + rewrite IH, Z.lor_spec, Hbit; [|done| |done].
      2: { apply Forall_forall. intros x Hx Hxk. rewrite Z.lor_spec, Hbit. rewrite Forall_forall in Hfr, Hbk.
           rewrite (Hfr x Hx Hxk), bool_decide_eq_false_2 by (by apply (Hbk x Hx)). done. }
      destruct (decide (b = k)) as [->|Hne]; [rewrite Hf, bool_decide_eq_true_2 by done; done|].
      rewrite bool_decide_eq_false_2, orb_false_r by done. done.
    + unfold results_of. rewrite filter_cons. cbn [fst]. fold (results_of k (merge_from (2 ^ b) r l)).
      assert (results_of k (merge_from (2 ^ b) r l) = (if bool_decide (b = k) then [r] else []) ++ (snd <$> filter (fun x => x.1 = k) l)) as HI.
      { rewrite IH, Hbit; [done|done| |done]. apply Forall_forall. intros x Hx Hxk. rewrite Hbit. rewrite Forall_forall in Hbk.
        by apply bool_decide_eq_false_2, (Hbk x Hx). }
      destruct (Z.testbit bitmask k) eqn:Hbm; [rewrite decide_True by done | rewrite decide_False by done];
        cbn [fmap list_fmap]; fold (results_of k (merge_from (2 ^ b) r l)); rewrite ?fmap_cons.
      * change (snd <$> filter (fun x : Z * R => Z.testbit x.1 k = true) (merge_from (2 ^ b) r l)) with (results_of k (merge_from (2 ^ b) r l)).
        rewrite HI. destruct (decide (b = k)); [by specialize (Hf ltac:(done)) | by rewrite bool_decide_eq_false_2].
      * change (snd <$> filter (fun x : Z * R => Z.testbit x.1 k = true) (merge_from (2 ^ b) r l)) with (results_of k (merge_from (2 ^ b) r l)).
        rewrite HI. destruct (decide (b = k)); [by rewrite bool_decide_eq_true_2 | by rewrite bool_decide_eq_false_2].
Qed.
End merge.

(** The rows of a job say for every bit what its result said. *)
Lemma merge_results_spec {R : Type} `{EqDecision R} (k : Z) (l : list (Z * R)) rows :
  0 <= k -> Forall (fun x => 0 <= x.1) l -> NoDup (fst <$> l) -> merge_results l = Some rows ->
  results_of k rows = snd <$> filter (fun x => x.1 = k) l.
Proof.
  intros Hk Hpos Hnd. destruct l as [|[b r] l]; [done|]. intros [= <-].
  apply Forall_cons in Hpos as [Hb Hpos]. cbn in Hb. apply NoDup_cons in Hnd as [Hni Hnd].
  assert (Z.testbit (2 ^ b) k = bool_decide (b = k)) as Hbit.
  { rewrite Z.pow2_bits_eqb by done. apply Bool.eq_iff_eq_true. by rewrite Z.eqb_eq, bool_decide_eq_true. }
  rewrite merge_from_spec, Hbit, filter_cons; [| done | done | | done].
  - cbn [fst]. destruct (decide (b = k)); [by rewrite bool_decide_eq_true_2 | by rewrite bool_decide_eq_false_2].
  - apply Forall_forall. intros x Hx Hxk. rewrite Hbit. apply bool_decide_eq_false_2. intros ->. apply Hni.
    apply list_elem_of_fmap. by exists x.
Qed.

(** C14. The register pruning of the nanojpeg campaign is exact.  Take a bit of the low half of a general-purpose
    register and an instruction number of the run.  If the bit is accessed from there on, then the
    point lies in exactly one class, which ends at the bit's next access; it is an experiment if that access reads
    and has a known outcome if it overwrites.  Without a further access it lies in exactly one
    experiment that lasts until the end of the run.  A class whose end has a result from an
    earlier run is left out. *)
Theorem nanojpeg_pruning_exact available decode limit trace s reg k i :
  disjoint_ins decode reg k -> reg ∈ gp_registers -> 0 <= k < 32 ->
  nj_run available decode limit trace = Some s -> 0 <= i <= instructions limit trace 0 ->
  match next_access i (bit_accesses decode limit reg k trace 0) with
  | Some a => exists i1, 0 <= i1 <= i /\
      filter (contains reg i) (bit_classes reg k (match acc_type a with READ => nj_jobs s | WRITE => nj_known s end))
        = fresh available reg k [mkEC reg i1 (acc_instr a) (acc_ip a)] /\
      filter (contains reg i) (bit_classes reg k (match acc_type a with READ => nj_known s | WRITE => nj_jobs s end)) = []
  | None => exists i1, 0 <= i1 <= i /\
      filter (contains reg i) (bit_classes reg k (nj_jobs s)) = fresh available reg k [mkEC reg i1 (instructions limit trace 0) (nj_absolute s)] /\
      filter (contains reg i) (bit_classes reg k (nj_known s)) = []
  end.
Proof. intros Hdis Hreg [Hk0 Hk] Hrun Hi. by apply nanojpeg_point. Qed.

(** ** A small run *)

Module NanoJpegDemo.

(** [add ax, bx] at 4096, [mov eax, ecx] at 4099, [mov al, al] at 4101. *)
Definition decode (ip : Z) : Decoded :=
  if ip =? 4096 then Accessed [(RID_CAX, 65535); (RID_CBX, 65535)] [(RID_CAX, 65535)]
  else if ip =? 4099 then Accessed [(RID_CCX, 4294967295)] [(RID_CAX, 4294967295)]
  else if ip =? 4101 then Accessed [(RID_CAX, 255)] [(RID_CAX, 255)]
  else OutsideImage.
Definition instr (ip : Z) : Trace_Event := mkTE ip None None 0 READ None.
Definition trace : list Trace_Event := [instr 4096; instr 4099; instr 4101; instr 64; instr 4101].

Lemma decode_disjoint k : disjoint_ins decode RID_CAX k.
Proof.
  intros ip ins outs. unfold decode. repeat (case_match; [intros [= <- <-]|]); [..|done]; rewrite ?filter_cons;
    repeat case_decide; simpl; try lia; match goal with H : hits _ _ (RID_CBX, _) |- _ => by destruct H end.
Qed.

Lemma nanojpeg_pruning_exact_witness :
  exists s, nj_run {[ (5, RID_CAX) := 1 ]} decode 100 trace = Some s /\
  exists i1, 0 <= i1 <= 3 /\ filter (contains RID_CAX 3) (bit_classes RID_CAX 2 (nj_jobs s)) = [mkEC RID_CAX i1 3 4101].
Proof.
  destruct (nj_run {[ (5, RID_CAX) := 1 ]} decode 100 trace) as [s|] eqn:E; [|vm_compute in E; discriminate].
  exists s. split; [done|].
  pose proof (nanojpeg_pruning_exact _ _ _ _ _ RID_CAX 2 3 (decode_disjoint 2) ltac:(left) ltac:(lia) E ltac:(split; vm_compute; discriminate)) as H.
  replace (next_access 3 _) with (Some (mkAcc 3 4101 READ)) in H by (vm_compute; reflexivity). cbn [acc_type acc_instr acc_ip] in H.
  destruct H as (i1 & Hi & Hj & _). exists i1. split; [done|]. rewrite Hj. vm_compute. reflexivity.
Defined.

(** A register read through two names whose bits overlap: the second closes a class that
    starts after its end. *)
Example overlapping_reads :
  nj_jobs (fold_left (in_register ∅) [(RID_CAX, 255); (RID_CAX, 65535)] (mkNJ (reg_cascade initial_nj) 1 4096 [] []))
  = [mkJob 0 1 4096 RID_CAX 255; mkJob 2 1 4096 RID_CAX 255; mkJob 0 1 4096 RID_CAX 65280].
Proof. vm_compute. reflexivity. Qed.
End NanoJpegDemo.
