(* ===== verification/Udis86Helper.v ===== *)
(** * Registers an instruction reads and writes

    [experiments/nanojpeg/udis86_helper.{cc,hpp}]: from the mnemonic and the operands udis86 reports to the
    sets of registers read and written, and from these to FAIL* registers and bits (32-bit
    builds).  The disassembler is a parameter; so is [enum], the numbering of udis86's
    [ud_type], which is the order a [std::set] of registers has. *)
From S2P Require Import Prelude Importer Registers CampaignPruning CampaignPruningTheorems NanoJpeg NanoJpegTheorems.
Open Scope Z_scope.

(** The registers of [ud_type] the code names; [UD_other]: any other. *)
Inductive ud_type :=
  | UD_NONE
  | UD_R_AL | UD_R_CL | UD_R_DL | UD_R_BL | UD_R_AH | UD_R_CH | UD_R_DH | UD_R_BH | UD_R_SPL | UD_R_BPL | UD_R_SIL
  | UD_R_DIL
  | UD_R_AX | UD_R_CX | UD_R_DX | UD_R_BX | UD_R_SP | UD_R_BP | UD_R_SI | UD_R_DI
  | UD_R_EAX | UD_R_ECX | UD_R_EDX | UD_R_EBX | UD_R_ESP | UD_R_EBP | UD_R_ESI | UD_R_EDI
  | UD_other (n : Z).

#[export] Instance ud_type_eq_dec : EqDecision ud_type.
Proof. solve_decision. Defined.

(** The mnemonics of the table; [UD_Iother]: any other. *)
Inductive ud_mnemonic :=
  | UD_Iadd | UD_Iadc | UD_Iand | UD_Icall | UD_Icmp | UD_Iidiv | UD_Idec | UD_Iimul | UD_Iinc | UD_Ija | UD_Ijae
  | UD_Ijb | UD_Ijbe | UD_Ijg | UD_Ijge | UD_Ijl | UD_Ijle | UD_Ijmp | UD_Ijno | UD_Ijnp | UD_Ijns | UD_Ijnz
  | UD_Ijs | UD_Ijz | UD_Ilea | UD_Ileave | UD_Imov | UD_Imovsx | UD_Imovzx | UD_Ineg | UD_Inop | UD_Inot | UD_Ior
  | UD_Iout | UD_Ipop | UD_Ipush | UD_Iret | UD_Isar | UD_Iseta | UD_Isetb | UD_Isetbe | UD_Isetg | UD_Isetge
  | UD_Isetl | UD_Isetle | UD_Isetnb | UD_Isetno | UD_Isetnp | UD_Isetns | UD_Isetnz | UD_Iseto | UD_Isetp
  | UD_Isets | UD_Isetz | UD_Ishl | UD_Ishr | UD_Isub | UD_Itest | UD_Ixor
  | UD_Iother (n : Z).

#[export] Instance ud_mnemonic_eq_dec : EqDecision ud_mnemonic.
Proof. solve_decision. Defined.

Inductive operand_type := OP_NONE | OP_MEM | OP_PTR | OP_IMM | OP_JIMM | OP_CONST | OP_REG | OP_other.
#[export] Instance operand_type_eq_dec : EqDecision operand_type.
Proof. solve_decision. Defined.

Record operand := mkOp { op_type : operand_type; op_base : ud_type; op_index : ud_type }.
Definition no_operand : operand := mkOp OP_NONE UD_NONE UD_NONE.

(** The part of [ud_t] that is used. *)
Record ud_t := mkUd { mnemonic : ud_mnemonic; operand0 : operand; operand1 : operand; operand2 : operand }.
Definition operands (u : ud_t) : list operand := [operand0 u; operand1 u; operand2 u].

Definition operandCount (u : ud_t) : nat := length (filter (fun o => op_type o <> OP_NONE) (operands u)).

(** ** The table *)

Inductive OperandDirection := IN | OUT | INOUT | NONE.
Record ModificationInfo := mkMI { dir : list OperandDirection; implicitOperands : list (ud_type * OperandDirection) }.

Definition initOpcodeModMap (m : ud_mnemonic) : option (list ModificationInfo) :=
  match m with
  | UD_Iadd | UD_Iadc | UD_Iand | UD_Ior | UD_Isar | UD_Ishl | UD_Ishr | UD_Isub | UD_Ixor => Some [mkMI [INOUT; IN] []]
  | UD_Icmp | UD_Iout | UD_Itest => Some [mkMI [IN; IN] []]
  | UD_Icall => Some [mkMI [IN] [(UD_R_ESP, INOUT)]]
  | UD_Iidiv => Some [mkMI [IN] [(UD_R_EAX, INOUT); (UD_R_EDX, INOUT)]]
  | UD_Idec | UD_Iinc | UD_Ineg | UD_Inot => Some [mkMI [INOUT] []]
  | UD_Iimul => Some [mkMI [INOUT; IN] []; mkMI [OUT; IN; IN] []]
  | UD_Ija | UD_Ijae | UD_Ijb | UD_Ijbe | UD_Ijg | UD_Ijge | UD_Ijl | UD_Ijle | UD_Ijmp | UD_Ijno | UD_Ijnp
  | UD_Ijns | UD_Ijnz | UD_Ijs | UD_Ijz => Some [mkMI [IN] []]
  | UD_Ilea | UD_Imov | UD_Imovsx | UD_Imovzx => Some [mkMI [OUT; IN] []]
  | UD_Ileave => Some [mkMI [] [(UD_R_EBP, INOUT); (UD_R_ESP, OUT)]]
  | UD_Inop => Some [mkMI [] []]
  | UD_Ipop => Some [mkMI [OUT] [(UD_R_ESP, INOUT)]]
  | UD_Ipush => Some [mkMI [IN] [(UD_R_ESP, INOUT)]]
  | UD_Iret => Some [mkMI [] [(UD_R_ESP, INOUT)]]
  | UD_Iseta | UD_Isetb | UD_Isetbe | UD_Isetg | UD_Isetge | UD_Isetl | UD_Isetle | UD_Isetnb | UD_Isetno
  | UD_Isetnp | UD_Isetns | UD_Isetnz | UD_Iseto | UD_Isetp | UD_Isets | UD_Isetz => Some [mkMI [OUT] []]
  | UD_Iother _ => None
  end.

Definition is_in (d : OperandDirection) : bool := match d with IN | INOUT => true | OUT | NONE => false end.
Definition is_out (d : OperandDirection) : bool := match d with OUT | INOUT => true | IN | NONE => false end.

(** ** Register sets *)

Section sets.
Context (enum : ud_type -> Z).

(** A [std::set] as the list of its elements in order. *)
Fixpoint set_insert (r : ud_type) (s : list ud_type) : list ud_type :=
  match s with
  | [] => [r]
  | x :: rest => if enum r <? enum x then r :: s else if enum r =? enum x then s else x :: set_insert r rest
  end.

Record regsets := mkRS { in_set : list ud_type; out_set : list ud_type }.
Definition insert_in (r : ud_type) (s : regsets) : regsets := mkRS (set_insert r (in_set s)) (out_set s).
Definition insert_out (r : ud_type) (s : regsets) : regsets := mkRS (in_set s) (set_insert r (out_set s)).

(** [to_out]: the target set is [out], else [in]. *)
Definition transferRegisters (to_out : bool) (o : operand) (s : regsets) : regsets :=
  match op_type o with
  | OP_REG => if to_out then insert_out (op_base o) s else insert_in (op_base o) s
  | OP_MEM =>
      let s := if decide (op_base o = UD_NONE) then s else insert_in (op_base o) s in
      if decide (op_index o = UD_NONE) then s else insert_in (op_index o) s
  | _ => s
  end.

Definition transfer_operand (s : regsets) (x : operand * OperandDirection) : regsets :=
  let s := if is_in x.2 then transferRegisters false x.1 s else s in
  if is_out x.2 then transferRegisters true x.1 s else s.

Definition add_implicit (s : regsets) (x : ud_type * OperandDirection) : regsets :=
  let s := if is_in x.2 then insert_in x.1 s else s in
  if is_out x.2 then insert_out x.1 s else s.

Definition handleSpecialCases (u : ud_t) (s : regsets) : regsets :=
  if bool_decide (mnemonic u = UD_Ixor) && bool_decide (op_type (operand0 u) = OP_REG) && bool_decide (op_type (operand1 u) = OP_REG)
     && bool_decide (op_base (operand0 u) = op_base (operand1 u))
  then mkRS [] (out_set s) else s.

(** The entry for this number of operands. *)
Definition find_variant (u : ud_t) : option ModificationInfo :=
  v ← initOpcodeModMap (mnemonic u); head (filter (fun mi => length (dir mi) = operandCount u) v).

Definition inOutRegisters (u : ud_t) : regsets :=
  match find_variant u with
  | Some mi =>
      let s := fold_left transfer_operand (zip (operands u) (dir mi)) (mkRS [] []) in
      handleSpecialCases u (fold_left add_implicit (implicitOperands mi) s)
  | None => fold_left transfer_operand (zip (operands u) (replicate (operandCount u) INOUT)) (mkRS [] [])
  end.
End sets.

(** ** FAIL* registers

    [garbage] is what the caller's mask holds if the register is not a general-purpose one: it is
    not written then. *)
Definition udisGPRToFailBochsGPR (garbage : Z) (r : ud_type) : Z * Z :=
  match r with
  | UD_R_AL => (RID_CAX, 255)
  | UD_R_CL => (RID_CCX, 255)
  | UD_R_DL => (RID_CDX, 255)
  | UD_R_BL => (RID_CBX, 255)
  | UD_R_AH => (RID_CAX, 65280)
  | UD_R_CH => (RID_CCX, 65280)
  | UD_R_DH => (RID_CDX, 65280)
  | UD_R_BH => (RID_CBX, 65280)
  | UD_R_SPL => (RID_CSP, 255)
  | UD_R_BPL => (RID_CBP, 255)
  | UD_R_SIL => (RID_CSI, 255)
  | UD_R_DIL => (RID_CDI, 255)
  | UD_R_AX => (RID_CAX, 65535)
  | UD_R_CX => (RID_CCX, 65535)
  | UD_R_DX => (RID_CDX, 65535)
  | UD_R_BX => (RID_CBX, 65535)
  | UD_R_SP => (RID_CSP, 65535)
  | UD_R_BP => (RID_CBP, 65535)
  | UD_R_SI => (RID_CSI, 65535)
  | UD_R_DI => (RID_CDI, 65535)
  | UD_R_EAX => (RID_CAX, 4294967295)
  | UD_R_ECX => (RID_CCX, 4294967295)
  | UD_R_EDX => (RID_CDX, 4294967295)
  | UD_R_EBX => (RID_CBX, 4294967295)
  | UD_R_ESP => (RID_CSP, 4294967295)
  | UD_R_EBP => (RID_CBP, 4294967295)
  | UD_R_ESI => (RID_CSI, 4294967295)
  | UD_R_EDI => (RID_CDI, 4294967295)
  | UD_NONE | UD_other _ => (RID_LAST_GP_ID, garbage)
  end.

(** What the campaign makes of an instruction address: [image_size] bytes are loaded at [bin_offset]. *)
Definition nj_decode (enum : ud_type -> Z) (garbage bin_offset image_size : Z) (fetch : Z -> option ud_t) (ip : Z) : Decoded :=
  if (ip <? bin_offset) || (image_size <? ip - bin_offset) then OutsideImage
  else match fetch ip with
       | None => Undecodable
       | Some u =>
           let s := inOutRegisters enum u in
           Accessed (udisGPRToFailBochsGPR garbage <$> in_set s) (udisGPRToFailBochsGPR garbage <$> out_set s)
       end.

(** ** What the sets contain *)

(** The registers an operand's address is computed from; the register it is. *)
Definition addresses (o : operand) (r : ud_type) : Prop := op_type o = OP_MEM /\ r <> UD_NONE /\ (r = op_base o \/ r = op_index o).
Definition holds (o : operand) (r : ud_type) : Prop := op_type o = OP_REG /\ r = op_base o.

(** The table entry that is used, or the fallback: every operand is read and written. *)
Definition variant (u : ud_t) : ModificationInfo := default (mkMI (replicate (operandCount u) INOUT) []) (find_variant u).

(** A register is cleared by [xor]. *)
Definition cleared (u : ud_t) : bool :=
  bool_decide (is_Some (find_variant u)) && bool_decide (mnemonic u = UD_Ixor) && bool_decide (op_type (operand0 u) = OP_REG)
  && bool_decide (op_type (operand1 u) = OP_REG) && bool_decide (op_base (operand0 u) = op_base (operand1 u)).

Lemma exists_cons {A B : Type} (P : A -> B -> Prop) a b l :
  (exists x y, (x, y) ∈ (a, b) :: l /\ P x y) <-> P a b \/ exists x y, (x, y) ∈ l /\ P x y.
Proof.
  setoid_rewrite elem_of_cons. split.
  - intros (x & y & [[= -> ->]|Hin] & HP); [by left | right; by exists x, y].
  - intros [HP|(x & y & Hin & HP)]; [exists a, b; auto | exists x, y; auto].
Qed.

Section exact.
Context (enum : ud_type -> Z) `{!Inj (=) (=) enum}.

Lemma set_insert_spec r x s : x ∈ set_insert enum r s <-> x = r \/ x ∈ s.
Proof.
  induction s as [|y s IH]; cbn [set_insert]; [set_solver|].
  destruct (enum r <? enum y); [set_solver|]. destruct (Z.eqb_spec (enum r) (enum y)) as [E|]; [|set_solver].
  apply (inj enum) in E. set_solver.
Qed.

Lemma insert_address_spec b s r :
  let s' := if decide (b = UD_NONE) then s else insert_in enum b s in
  (r ∈ in_set s' <-> r ∈ in_set s \/ (r <> UD_NONE /\ r = b)) /\ out_set s' = out_set s.
Proof.
  destruct (decide (b = UD_NONE)) as [->|Hb]; cbn zeta; (split; [|done]).
  - split; [by left|]. by intros [|[? ?]].
  - unfold insert_in. cbn [in_set]. rewrite set_insert_spec. split; [intros [->|]; auto | intros [|[_ ->]]; auto].
Qed.

Lemma transferRegisters_spec to_out o s r :
  let s' := transferRegisters enum to_out o s in
  (r ∈ in_set s' <-> r ∈ in_set s \/ addresses o r \/ (to_out = false /\ holds o r)) /\
  (r ∈ out_set s' <-> r ∈ out_set s \/ (to_out = true /\ holds o r)).
Proof.
  unfold transferRegisters, addresses, holds. destruct (op_type o) eqn:E; cbn zeta.
  1,3-6,8: split; intuition congruence.
  - set (s1 := if decide (op_base o = UD_NONE) then s else insert_in enum (op_base o) s).
    destruct (insert_address_spec (op_index o) s1 r) as [-> ->].
    destruct (insert_address_spec (op_base o) s r) as [H1 H2]. fold s1 in H1, H2. rewrite H1, H2.
    split; [intuition congruence|]. split; [by left|]. by intros [|[_ [? _]]].
  - destruct to_out; unfold insert_in, insert_out; cbn [in_set out_set]; rewrite ?set_insert_spec; split; intuition (congruence || auto).
Qed.

Lemma transfer_operand_spec s o d r :
  let s' := transfer_operand enum s (o, d) in
  (r ∈ in_set s' <-> r ∈ in_set s \/ (d <> NONE /\ addresses o r) \/ (is_in d = true /\ holds o r)) /\
  (r ∈ out_set s' <-> r ∈ out_set s \/ (is_out d = true /\ holds o r)).
Proof.
  unfold transfer_operand. cbn [fst snd]. destruct d; cbn [is_in is_out]; cbn zeta.
  4: naive_solver.
  - destruct (transferRegisters_spec false o s r) as [-> ->]. naive_solver.
  - destruct (transferRegisters_spec true o s r) as [-> ->]. naive_solver.
  - destruct (transferRegisters_spec true o (transferRegisters enum false o s) r) as [-> ->].
    destruct (transferRegisters_spec false o s r) as [-> ->]. naive_solver.
Qed.

(** The sets after the operands [l]. *)
Lemma transfer_all_spec l r : forall s,
  let s' := fold_left (transfer_operand enum) l s in
  (r ∈ in_set s' <-> r ∈ in_set s \/ exists o d, (o, d) ∈ l /\ ((d <> NONE /\ addresses o r) \/ (is_in d = true /\ holds o r))) /\
  (r ∈ out_set s' <-> r ∈ out_set s \/ exists o d, (o, d) ∈ l /\ is_out d = true /\ holds o r).
Proof.
  induction l as [|[o d] l IH]; intros s; cbn [fold_left].
  - split; split; [by left | | by left |]; intros [|(o & d & Hin & _)]; try done; by apply elem_of_nil in Hin.
  - destruct (IH (transfer_operand enum s (o, d))) as [IH1 IH2]. destruct (transfer_operand_spec s o d r) as [H1 H2].
    cbn zeta in *. rewrite IH1, IH2, H1, H2, !exists_cons. tauto.
Qed.

Lemma implicit_all_spec l r : forall s,
  let s' := fold_left (add_implicit enum) l s in
  (r ∈ in_set s' <-> r ∈ in_set s \/ exists d, (r, d) ∈ l /\ is_in d = true) /\
  (r ∈ out_set s' <-> r ∈ out_set s \/ exists d, (r, d) ∈ l /\ is_out d = true).
Proof.
  induction l as [|[x d] l IH]; intros s; cbn [fold_left].
  - split; split; [by left | | by left |]; intros [|(d & Hin & _)]; try done; by apply elem_of_nil in Hin.
  - destruct (IH (add_implicit enum s (x, d))) as [IH1 IH2]. cbn zeta in *. rewrite IH1, IH2.
    assert (forall f : OperandDirection -> bool, (exists d', (r, d') ∈ (x, d) :: l /\ f d' = true)
      <-> (r = x /\ f d = true) \/ exists d', (r, d') ∈ l /\ f d' = true) as Hc.
    { intros f. setoid_rewrite elem_of_cons. split.
      - intros (d' & [[= -> ->]|Hin] & Hf); [by left | right; by exists d'].
      - intros [[-> Hf]|(d' & Hin & Hf)]; [exists d | exists d']; auto. }
    rewrite !Hc. unfold add_implicit. cbn [fst snd].
    destruct d; cbn [is_in is_out]; unfold insert_in, insert_out; cbn [in_set out_set]; rewrite ?set_insert_spec; split; intuition congruence.
Qed.

Lemma handleSpecialCases_in u s r : find_variant u <> None ->
  r ∈ in_set (handleSpecialCases u s) <-> cleared u = false /\ r ∈ in_set s.
Proof.
  intros Hf. unfold handleSpecialCases, cleared. rewrite (bool_decide_eq_true_2 (is_Some _)) by (by apply not_eq_None_Some). cbn [andb].
  destruct (_ && _); cbn [in_set]; [|tauto]. split; [by intros ?%elem_of_nil | by intros [? _]].
Qed.

Lemma handleSpecialCases_out u s : out_set (handleSpecialCases u s) = out_set s.
Proof. unfold handleSpecialCases. by case_match. Qed.

Lemma in_out_spec u r :
  let s := inOutRegisters enum u in
  (r ∈ in_set s <-> cleared u = false /\
     ((exists o d, (o, d) ∈ zip (operands u) (dir (variant u)) /\ ((d <> NONE /\ addresses o r) \/ (is_in d = true /\ holds o r))) \/
      exists d, (r, d) ∈ implicitOperands (variant u) /\ is_in d = true)) /\
  (r ∈ out_set s <->
     (exists o d, (o, d) ∈ zip (operands u) (dir (variant u)) /\ is_out d = true /\ holds o r) \/
     exists d, (r, d) ∈ implicitOperands (variant u) /\ is_out d = true).
Proof.
  assert (forall P : Prop, (r ∈ @nil ud_type \/ P) <-> P) as Hnil by (intros P; split; [intros [?%elem_of_nil|]; done | by right]).
  unfold inOutRegisters, variant. destruct (find_variant u) as [mi|] eqn:E; cbn [default from_option id].
  - rewrite handleSpecialCases_in, handleSpecialCases_out by (by rewrite E).
    set (l := zip (operands u) (dir mi)). destruct (transfer_all_spec l r (mkRS [] [])) as [H1 H2].
    destruct (implicit_all_spec (implicitOperands mi) r (fold_left (transfer_operand enum) l (mkRS [] []))) as [H3 H4].
    cbn zeta in *. rewrite H3, H4, H1, H2. cbn [in_set out_set]. rewrite !Hnil. done.
  - set (l := zip (operands u) (replicate (operandCount u) INOUT)). destruct (transfer_all_spec l r (mkRS [] [])) as [H1 H2].
    cbn zeta in *. cbn [dir implicitOperands]. fold l. rewrite H1, H2. cbn [in_set out_set]. rewrite !Hnil.
    assert (cleared u = false) as -> by (unfold cleared; rewrite E; by rewrite bool_decide_eq_false_2 by (intros [? ?]; done)).
    assert (forall f : OperandDirection -> bool, (exists d, (r, d) ∈ @nil (ud_type * OperandDirection) /\ f d = true) <-> False) as Hn.
    { intros f. split; [|done]. intros (d & ?%elem_of_nil & _). done. }
    rewrite !Hn. tauto.
Qed.

Lemma table_has_no_none m v mi d : initOpcodeModMap m = Some v -> mi ∈ v -> d ∈ dir mi -> d <> NONE.
Proof.
  intros Hm Hmi Hd ->. assert (Forall (fun mi => Forall (fun d => d <> NONE) (dir mi)) v) as Hall.
  { destruct m; simplify_eq/=; repeat constructor; discriminate. }
  rewrite Forall_forall in Hall. specialize (Hall mi Hmi). rewrite Forall_forall in Hall. by apply (Hall NONE).
Qed.

Lemma variant_dirs u d : d ∈ dir (variant u) -> d <> NONE.
Proof.
  unfold variant, find_variant. destruct (initOpcodeModMap (mnemonic u)) as [v|] eqn:E; cbn.
  - destruct (head _) as [mi|] eqn:Eh; cbn; [|by intros [-> _]%elem_of_replicate].
    apply head_Some_elem_of, list_elem_of_filter in Eh as [_ Hin]. by eapply table_has_no_none.
  - by intros [-> _]%elem_of_replicate.
Qed.

Lemma variant_length u : length (dir (variant u)) = operandCount u.
Proof.
  unfold variant, find_variant. destruct (initOpcodeModMap (mnemonic u)) as [v|]; cbn; [|apply length_replicate].
  destruct (head _) as [mi|] eqn:Eh; cbn; [|apply length_replicate].
  by apply head_Some_elem_of, list_elem_of_filter in Eh as [? _].
Qed.

Lemma cleared_inv u : cleared u = true ->
  op_type (operand0 u) = OP_REG /\ op_type (operand1 u) = OP_REG /\ op_base (operand0 u) = op_base (operand1 u) /\
  variant u = mkMI [INOUT; IN] [].
Proof.
  unfold cleared. intros [[[[Hf Hm]%andb_prop H0]%andb_prop H1]%andb_prop Hb]%andb_prop.
  apply bool_decide_eq_true in Hf, Hm, H0, H1, Hb. split_and!; try done. unfold variant, find_variant in *. rewrite Hm in *. cbn [initOpcodeModMap mbind option_bind] in *.
  destruct Hf as [mi Hmi]. rewrite Hmi. rewrite filter_cons in Hmi. destruct (decide _); by simplify_eq/=.
Qed.

(** No operand is left out: the registers of its address are read, the register it names is read or written. *)
Lemma operand_covered u i o r : operands u !! i = Some o -> (i < operandCount u)%nat ->
  (addresses o r -> r ∈ in_set (inOutRegisters enum u)) /\
  (holds o r -> r ∈ in_set (inOutRegisters enum u) \/ r ∈ out_set (inOutRegisters enum u)).
Proof.
  intros Ho Hi. destruct (in_out_spec u r) as [-> ->].
  destruct (lookup_lt_is_Some_2 (dir (variant u)) i ltac:(rewrite variant_length; done)) as [d Hd].
  assert ((o, d) ∈ zip (operands u) (dir (variant u))) as Hz by (apply (list_elem_of_lookup_2 _ i); by rewrite lookup_zip_with, Ho, Hd).
  assert (d <> NONE) as Hn by (eapply variant_dirs, list_elem_of_lookup_2, Hd).
  destruct (cleared u) eqn:Hcl.
  - destruct (cleared_inv u Hcl) as (H0 & H1 & Hb & Hv). rewrite Hv in *. pose proof (variant_length u) as Hl. rewrite Hv in Hl. cbn [dir length] in Hl.
    assert (op_type o = OP_REG /\ op_base o = op_base (operand0 u)) as [Ht Hbo].
    { destruct i as [|[|i]]; [..|lia]; unfold operands in Ho; cbn in Ho; injection Ho as <-; by rewrite ?Hb. }
    split; [intros [? _]; congruence|]. intros [_ ->]. right. left. exists (operand0 u), INOUT. split; [left | done].
  - split; [intros Ha; split; [done|]; left; exists o, d; auto|].
    intros Hh. destruct (is_in d) eqn:Hin.
    + left. split; [done|]. left. exists o, d. auto.
    + right. left. exists o, d. by destruct d.
Qed.
End exact.

(** C38. The registers an instruction reads and writes, exactly as the table says: with the entry for its number of operands, or the
    fallback that takes every operand as read and written, the read set holds the registers the
    operands with direction IN or INOUT name, those every memory operand's address is computed from and
    the implicit ones; the written set the registers of OUT and INOUT operands and the implicit ones.
    Only [xor] of a register with itself reads nothing.  In particular no operand is left out. *)
Theorem registers_exact enum u r : Inj (=) (=) enum ->
  let s := inOutRegisters enum u in
  (r ∈ in_set s <-> cleared u = false /\
     ((exists o d, (o, d) ∈ zip (operands u) (dir (variant u)) /\ (addresses o r \/ (is_in d = true /\ holds o r))) \/
      exists d, (r, d) ∈ implicitOperands (variant u) /\ is_in d = true)) /\
  (r ∈ out_set s <->
     (exists o d, (o, d) ∈ zip (operands u) (dir (variant u)) /\ is_out d = true /\ holds o r) \/
     exists d, (r, d) ∈ implicitOperands (variant u) /\ is_out d = true) /\
  forall i o, operands u !! i = Some o -> (i < operandCount u)%nat -> addresses o r \/ holds o r -> r ∈ in_set s \/ r ∈ out_set s.
Proof.
  intros Hinj. cbn zeta. destruct (in_out_spec enum u r) as [Hin Hout]. split_and!; [|done|].
  - rewrite Hin. apply and_iff_compat_l, or_iff_compat_r. split; intros (o & d & Hz & H); exists o, d; (split; [done|]).
    + destruct H as [[_ H]|H]; auto.
    + destruct H as [H|H]; [left|by right]. split; [|done]. apply (variant_dirs u). by apply elem_of_zip_r in Hz.
  - intros i o Ho Hi H. destruct (operand_covered enum u i o r Ho Hi) as [H1 H2]. destruct H; auto.
Qed.

(** ** Two names of one register *)

Section overlap.
Context (enum : ud_type -> Z) (garbage : Z).

(** Do the bits of two registers overlap? *)
Definition overlap (r r' : ud_type) : bool :=
  let x := udisGPRToFailBochsGPR garbage r in
  let y := udisGPRToFailBochsGPR garbage r' in
  (x.1 =? y.1) && negb (Z.land x.2 y.2 =? 0).

Lemma hits_overlap reg k r r' :
  hits reg k (udisGPRToFailBochsGPR garbage r) -> hits reg k (udisGPRToFailBochsGPR garbage r') -> overlap r r' = true.
Proof.
  intros [H1 H2] [H3 H4]. unfold overlap. rewrite H1, H3, Z.eqb_refl. cbn [andb]. apply negb_true_iff, Z.eqb_neq. intros H0.
  pose proof (Z.land_spec (udisGPRToFailBochsGPR garbage r).2 (udisGPRToFailBochsGPR garbage r').2 k) as E.
  rewrite H0, H2, H4, Z.testbit_0_l in E. done.
Qed.

Lemma hits_once reg k (l : list ud_type) :
  NoDup l -> (forall r r', r ∈ l -> r' ∈ l -> overlap r r' = true -> r = r') ->
  (length (filter (hits reg k) (udisGPRToFailBochsGPR garbage <$> l)) <= 1)%nat.
Proof.
  induction l as [|r l IH]; intros Hnd Hov; [simpl; lia|]. apply NoDup_cons in Hnd as [Hni Hnd]. rewrite fmap_cons, filter_cons.
  destruct (decide (hits reg k (udisGPRToFailBochsGPR garbage r))) as [Hh|]; [|apply IH; [done | intros; apply Hov; set_solver]].
  rewrite list_filter_none; [simpl; lia|]. intros x (r' & -> & Hr')%list_elem_of_fmap Hx.
  pose proof (Hov r r' ltac:(left) ltac:(by right) (hits_overlap _ _ _ _ Hh Hx)) as ->. done.
Qed.

Lemma set_insert_sorted r s : StronglySorted (fun x y => enum x < enum y) s -> StronglySorted (fun x y => enum x < enum y) (set_insert enum r s).
Proof.
  induction 1 as [|x s Hs IH Hx]; cbn [set_insert]; [repeat constructor|]. destruct (Z.ltb_spec (enum r) (enum x)) as [Hlt|Hge].
  - constructor; [by constructor|]. constructor; [done|]. eapply Forall_impl; [exact Hx|]. simpl. lia.
  - destruct (Z.eqb_spec (enum r) (enum x)); [by constructor|]. constructor; [done|].
    clear -Hx Hge n. induction Hx as [|y s Hy Hx IHx]; cbn [set_insert]; [repeat constructor; lia|].
    repeat case_match; repeat constructor; try done; lia.
Qed.

Definition in_sorted (s : regsets) : Prop := StronglySorted (fun x y => enum x < enum y) (in_set s).

Lemma transferRegisters_sorted b o s : in_sorted s -> in_sorted (transferRegisters enum b o s).
Proof.
  unfold in_sorted, transferRegisters. intros Hs. destruct (op_type o), b; try done; cbn zeta; repeat case_decide; cbn; auto using set_insert_sorted.
Qed.

Lemma transfer_all_sorted l : forall s, in_sorted s -> in_sorted (fold_left (transfer_operand enum) l s).
Proof.
  induction l as [|[o d] l IH]; intros s Hs; cbn [fold_left]; [done|]. apply IH. unfold transfer_operand. cbn [fst snd].
  destruct (is_in d), (is_out d); auto using transferRegisters_sorted.
Qed.

Lemma implicit_all_sorted l : forall s, in_sorted s -> in_sorted (fold_left (add_implicit enum) l s).
Proof.
  induction l as [|[x d] l IH]; intros s Hs; cbn [fold_left]; [done|]. apply IH. unfold add_implicit, in_sorted in *. cbn [fst snd].
  destruct (is_in d), (is_out d); cbn; auto using set_insert_sorted.
Qed.

Lemma in_set_nodup u : NoDup (in_set (inOutRegisters enum u)).
Proof.
  assert (in_sorted (inOutRegisters enum u)) as Hs.
  { unfold inOutRegisters. destruct (find_variant u) as [mi|].
    - unfold handleSpecialCases. case_match; [constructor|]. apply implicit_all_sorted, transfer_all_sorted. constructor.
    - apply transfer_all_sorted. constructor. }
  unfold in_sorted in Hs. induction Hs as [|x s Hs IH Hx]; constructor; [|done]. intros Hin. rewrite Forall_forall in Hx.
  specialize (Hx x Hin). lia.
Qed.

(** Without instructions that read a register through two overlapping names, the campaign's assumption holds. *)
Lemma nj_decode_disjoint bin_offset image_size fetch reg k :
  (forall ip u r r', fetch ip = Some u -> r ∈ in_set (inOutRegisters enum u) -> r' ∈ in_set (inOutRegisters enum u) ->
     overlap r r' = true -> r = r') ->
  disjoint_ins (nj_decode enum garbage bin_offset image_size fetch) reg k.
Proof.
  intros Hf ip ins outs. unfold nj_decode. destruct (_ || _); [done|]. destruct (fetch ip) as [u|] eqn:E; [|done].
  intros [= <- <-]. apply hits_once; [apply in_set_nodup|]. intros r r'. by apply Hf with ip.
Qed.
End overlap.

(** ** Examples *)

Module UdisDemo.

Definition enum (r : ud_type) : Z :=
  match r with
  | UD_NONE => 0 | UD_R_AL => 1 | UD_R_CL => 2 | UD_R_DL => 3 | UD_R_BL => 4 | UD_R_AH => 5 | UD_R_CH => 6 | UD_R_DH => 7 | UD_R_BH => 8
  | UD_R_SPL => 9 | UD_R_BPL => 10 | UD_R_SIL => 11 | UD_R_DIL => 12
  | UD_R_AX => 21 | UD_R_CX => 22 | UD_R_DX => 23 | UD_R_BX => 24 | UD_R_SP => 25 | UD_R_BP => 26 | UD_R_SI => 27 | UD_R_DI => 28
  | UD_R_EAX => 37 | UD_R_ECX => 38 | UD_R_EDX => 39 | UD_R_EBX => 40 | UD_R_ESP => 41 | UD_R_EBP => 42 | UD_R_ESI => 43 | UD_R_EDI => 44
  | UD_other n => if 0 <=? n then n + 45 else n
  end.

#[export] Instance enum_inj : Inj (=) (=) enum.
Proof. intros x y. unfold enum. destruct x, y; try done; repeat case_match; intros; try lia; f_equal; lia. Qed.

Definition reg (r : ud_type) : operand := mkOp OP_REG r UD_NONE.
Definition mem (b i : ud_type) : operand := mkOp OP_MEM b i.

(** [mov \[eax+ecx\], dx]: the address registers and the source are read, nothing is written. *)
Lemma registers_exact_witness :
  UD_R_ECX ∈ in_set (inOutRegisters enum (mkUd UD_Imov (mem UD_R_EAX UD_R_ECX) (reg UD_R_DX) no_operand)) /\
  UD_R_DX ∉ out_set (inOutRegisters enum (mkUd UD_Imov (mem UD_R_EAX UD_R_ECX) (reg UD_R_DX) no_operand)).
Proof.
  split.
  - apply (registers_exact enum _ UD_R_ECX enum_inj). split; [vm_compute; reflexivity|]. left.
    exists (mem UD_R_EAX UD_R_ECX), OUT. split; [left|]. left. repeat split; [discriminate | right; reflexivity].
  - intros H. vm_compute in H. by apply elem_of_nil in H.
Defined.

(** [ret 4] has an operand: the entry of [ret], and with it the stack pointer, is not used. *)
Example ret_imm : inOutRegisters enum (mkUd UD_Iret (mkOp OP_IMM UD_NONE UD_NONE) no_operand no_operand) = mkRS [] [].
Proof. vm_compute. reflexivity. Qed.

(** [mov \[eax\], al] reads [eax] through two names: the campaign plans an experiment for a class of the low byte that starts after its end. *)
Definition fetch (ip : Z) : option ud_t := Some (mkUd UD_Imov (mem UD_R_EAX UD_NONE) (reg UD_R_AL) no_operand).
Definition trace : list Trace_Event := [mkTE 1048576 None None 0 READ None].

Example store_low_byte :
  nj_jobs <$> nj_trace ∅ (nj_decode enum 0 1048576 4096 fetch) 100 trace initial_nj =
  Some [mkJob 0 1 1048576 RID_CAX 255; mkJob 2 1 1048576 RID_CAX 255; mkJob 0 1 1048576 RID_CAX 4294967040].
Proof. vm_compute. reflexivity. Qed.
End UdisDemo.
